(* ===== verification/_CoqProject ===== *)
-Q . S2P
Prelude.v
ApiErrors.v
Types.v
Metrics.v
World.v
Sim.v
Wait.v
Migrator.v
MigratorProps.v
RunProps.v
RunTrace.v
Storage.v
StorageProps.v
MigrateList.v
MigrateListProps.v
Store.v
StoreProps.v
Indexer.v
Controller.v
SimCache.v
ControllerProps.v
Trigger.v
TriggerProps.v
Initializer.v
InitializerProps.v
Workqueue.v
Rate.v
TriggerLoop.v
Path.v
Rest.v
Retry.v
RetryProps.v
Clientset.v
ClientsetProps.v
DeepCopy.v
DeepCopyProps.v
Factory.v
FactoryProps.v
Encoding.v
EncodingProps.v
Config.v
ConfigProps.v
Commands.v
CommandsProps.v
Scheme.v
SchemeProps.v
Tracker.v
Fake.v
TrackerProps.v
FakeProps.v
Deltas.v
DeltasProps.v
Ring.v
Informer.v
InformerProps.v
InformerRuns.v
InformerMirror.v
InformerTrigger.v
Vouch.v
VouchSite.v
VouchProps.v
VouchMigrator.v
