(* ===== verification/Prelude.v ===== *)
(** * kube-storage-version-migrator, verified

    ** The program

    When Kubernetes changes the version in which it stores a kind of object,
    the objects already stored stay in the old one until somebody writes them.
    kube-storage-version-migrator does that, with three programs that meet only
    in API objects.  The trigger (src/pkg/trigger) polls discovery, records in
    a StorageState per resource the storage version hashes that persisted
    objects may have, and creates a StorageVersionMigration when they have to
    be rewritten.  The migrator (src/pkg/controller, src/pkg/migrator) takes
    such a migration, lists the resource page by page and writes every object
    back unchanged, saving the continue token as it goes, and records Running,
    Succeeded or Failed.  When the trigger sees a migration succeed it reduces
    the persisted hashes to the current one.  The initializer
    (src/pkg/initializer) is a job that installs the CRD and creates the first
    migrations.  Around them are the API types, the clients, the informers and
    the commands (src/pkg/apis, src/pkg/clients, src/cmd), most of it generated.

    ** The files, and what each models

    Shared:
    - Prelude: this header, the partial state monad [M], its weakest
      precondition [wp] and the lemmas on lists and strings all files share;
    - ApiErrors: errors as a sum type, with the predicates and texts of
      apimachinery (api/errors, util/errors, util/net) and of
      src/pkg/migrator/errors.go;
    - Types: types.go of the API group, group/versions, unstructured objects;
    - Metrics: src/pkg/migrator/metrics/metrics.go;
    - World: the cluster as an external state behind classes of client
      operations, and the trace of what the program sends, sleeps and reports;
    - Sim, SimCache: an in-memory cluster with a cache; the witnesses run on it;
    - Wait: ExponentialBackoff, OnError and RetryOnConflict.

    The migrator:
    - Migrator (core.go, progress.go, errors.go), with MigratorProps (one
      object), RunProps (a whole run on a well-behaved server) and RunTrace (a
      run against any server);
    - Storage, StorageProps: what a migration is for - objects in the current
      storage version - as an interface to the API server that says what its
      reads, writes and lists promise, and the proof that runs deliver it;
    - MigrateList, MigrateListProps: migrateList of core.go with its producer,
      workers, closer and collector as a step relation;
    - Indexer (indexer.go, helpers.go), Controller (kubemigrator.go),
      ControllerProps.

    The trigger:
    - Trigger (migration_handler.go, discovery_handler.go), TriggerProps;
    - Vouch, VouchProps: what a StorageState vouches for - the versions its
      resource's objects are stored in - as an interface to the clients of the
      trigger that says what they and the other actors of the cluster promise,
      the steps of trigger and cluster together, and the proof that the
      promise is kept; VouchSite, a cluster that implements the interface;
      VouchMigrator, that the migrator does its part of it;
    - Workqueue: client-go's queue, delaying queue and exponential limiter;
      Rate: the token bucket of golang.org/x/time/rate, in float64s;
    - TriggerLoop: controller.go of the trigger, the handlers, the goroutine of
      dequeue, the delaying queue and Run as a step relation.

    The initializer: Initializer (initializer.go, discover.go, PollImmediate),
    InitializerProps.

    The API machinery of the program:
    - Store, StoreProps: the indexed store under the informers, and that
      looking up an index is scanning the items;
    - Path, Rest, Clientset, ClientsetProps: Go's path package, client-go's
      Request, and the typed clients storageversionmigration.go and
      storagestate.go, with the requests they send;
    - Retry, RetryProps: how client-go sends a request (Do and Watch, with_retry.go)
      and what it makes of the response;
    - Config, ConfigProps: clientset.go, migration_client.go and the
      constructors they call;
    - Factory, FactoryProps: the shared informer factory and the listers;
    - DeepCopy, DeepCopyProps: zz_generated.deepcopy.go, and that of metav1 for
      the metadata, over a heap;
    - Encoding, EncodingProps: the JSON of the API types and the CRD's schema;
    - Scheme, SchemeProps: runtime.Scheme and what the register.go files put
      into it;
    - Commands, CommandsProps: src/cmd.

    The informers, over client-go/tools/cache as vendored:
    - Deltas, DeltasProps: delta_fifo.go and store.go.  Reading the newest delta
      of every queued key over the store says what the reflector last said;
      every operation is specified by what it does to this view;
    - Ring: the buffer of a listener, and that it is a queue;
    - Informer: shared_informer.go, controller.go and reflector.go as a step
      relation whose labels are what the API server says and what is taken
      from the queue; InformerProps has the invariant, InformerRuns the
      properties of every run and an interpreter that plays one;
    - InformerTrigger: the handlers of TriggerLoop under such an informer.

    The fake clientset (src/pkg/clients/clientset/fake and the fake package of
    the typed clients, on client-go/testing):
    - Tracker (fixture.go and the watchers), TrackerProps; Fake (the reaction
      chains and the fake clients), FakeProps: an abstract server of two maps,
      which the fake clientset refines, and watches;
    - InformerMirror: an informer over the fake.

    ** How code became definitions

    A Go function that talks to the cluster is a function in [M (World C)],
    translated statement by statement: [call] for a request, [HandleError],
    [Sleep], [observe] for the other effects; errors are values, an early
    return is a branch.  Definitions bear the names of the code, with the
    receiver's type where two methods would clash.  The clients and clocks are
    classes over an arbitrary [C], so a theorem quantifies over every behaviour
    of the API server and of the other clients of the cluster.  Concurrent code
    (MigrateList, TriggerLoop, Informer, the factory) is a step relation in which one
    step is one operation on a channel, a lock or the cluster.  Go's unordered
    iteration over maps is the class [MapOrder], of which only that it visits
    each key once is known.  Strings are byte strings; integers are [Z], and
    where the code computes with numbers that could overflow (Wait, Workqueue,
    Retry) the wrap-around or its absence is stated.  The float64s of Rate are
    those of the Standard Library's SpecFloat; what a conversion that does not
    fit gives, which Go leaves open, is the class [Conversion].

    Interfaces are classes: [MigrationIndexer] states what the controllers
    rely on of the informer's cache, and the store discharges it;
    [StorageVersionMigrationInterface] and [StorageStateInterface] are
    implemented by the REST clients of Clientset ([rest_migrations],
    [rest_states]) and by the simulated cluster.

    ** Fuel and bounds

    [None] has two meanings.  In the migrator it is fuel: migrate_loop takes the
    number of tries left, run_loop the number of iterations left.  Both loops
    of the code are unbounded, and on purpose: migrateOneItem_never_gives_up
    shows an object that is retried for ever.  Theorems therefore say how much
    fuel suffices where the server behaves (Run_migrates_collection: one round
    a page; migrateOneItem_terminates: one try more than it is refused), and
    RunTrace's speak of every run that ends.  Backoffs need none: their steps
    bound them, and theorems with [wp] include that the function returns.
    Elsewhere (Trigger's type assertions, Store's index functions, DeepCopy,
    Config's OrDie, the fakes, the informer) [None] is a panic, and theorems say when there is none.

    ** What the theorems show

    - Migrating: once a run returns nil, whatever runs failed before it, no
      object is left in an old storage version (migration_completes, on what
      Kubernetes promises of lists and writes); and with no assumption on the
      server, nil from Run means everything listed was rewritten or gone;
      saved progress never runs ahead; each error has one of five causes;
      objects are written back as they were read; the goroutines lose no
      object, never block for ever, end, and compute the sequential function.
    - The controller: conditions exclude each other, Running is recorded before
      and the outcome after the run of the same migration
      (processOne_records_outcome), running migrations go first.
    - The trigger: persisted hashes are never lost before a migration has
      succeeded, statuses stay sound, what is launched and deleted follows the
      StorageState and the cache, every resource of a discovery answer is
      visited, of a partial one too (processDiscovery_safe), no event is lost.  Put together with the migrator (a
      migration that has succeeded has rewritten everything: nil_run_completes,
      from what StorageProps shows) and with everybody else at work at any time, a
      fresh StorageState lists every version that objects are stored in, and one
      that says "migrated" means it (storage_state_vouches).  What this takes
      of the others is in [others] and [TriggerServer] of Vouch: the storage
      version does not change twice before the trigger has recorded it (the
      code allows itself ten minutes for that), the cache lacks only migrations
      that are recent, and nobody else writes StorageStates.
    - The initializer: exactly the built-in resources served in several
      versions get a migration, after the CRD is in place.
    - Data: migrations have the type the CRD declares; their JSON says all about
      them; deep copies are deep; index lookups are scans; informers are
      shared; each client call is one request to a path of its own, sent again
      only if the server asks for it or, for a GET, the connection broke
      (requests_retry_when_asked); responses become the errors the program
      tells apart (response_outcome); the queues' token bucket keeps its rate
      (default_bucket_rate).
    - The informers: whatever the API server says and however the goroutines
      interleave, the store with the queue is what was said, each handler hears
      a story that ends in the store (informer_tells_all), the work ends there
      (informer_settles), HasSynced means what its callers take it to mean
      (informer_synced), and the trigger's handlers never see a value of the
      wrong type (informer_feeds_trigger).
    - The fakes: the fake clientset is a server of two maps
      (fake_refines_server), and an informer over it mirrors that server
      (informer_mirrors_fake).
    - The commands: which clients they get, or what stops them
      (commands_clients), and how each one ends.

    Modelling found code that does not do what it means to or what its comments
    say; the theorems that show it are Run_ignores_save_errors, trigger_never_retries,
    processDiscoveryResource_decision with failed_clean_vouches,
    migrateOneItem_never_gives_up, commands_end, small_rate_overflows and
    fake_refines_server (whose DeleteCollection deletes nothing, and whose Delete
    of what is not there is an error).

    ** Not modelled, and why

    - HTTP, TLS, watch streams, the bytes of JSON and what a server does: external, the
      classes [RESTClient], [Transport], [Platform] and those of World.
    - Of the informers: the watch-list mode of the reflector (off by default),
      paging, timers and back-offs (a step may happen at any time),
      RemoveEventHandler and SetTransform (never called).  A turn of the loop
      that pops is one step, under the lock of the queue; a lister may see the
      store between two of its deltas.  A handler is added to a running informer
      in one step too.  TriggerLoop lets the handlers be called with anything at
      any time; InformerTrigger says what they are called with.
    - The rounding of jitters; the metrics and the logging of client-go;
      Stream and DoRaw of its requests, which the typed clients do not call.
    - The conversions, codecs and defaults of runtime.Scheme and the fake
      discovery client, the values of selectors and patches (parameters of the
      fakes), cobra, the HTTP servers for metrics and health, and the end-to-end
      tests.
    - Cancellation in the middle of a request: a context that is cancelled makes
      requests fail, which the clients of [World] may do any time. *)
From Stdlib Require Export ZArith Lia Ascii.
From stdpp Require Export base tactics list strings gmap sorting relations.

(** A double quote. *)
Definition quote : string := String (ascii_of_nat 34) "".

(** ** Effectful Go code: partial state passing

    A Go function that talks to the cluster is a function from the state of
    the world before the call to its result and the world after it.  [None]
    says that it did not return: the fuel of a [for] loop inside it ran out,
    or it panicked. *)
Declare Scope go_scope.
Delimit Scope go_scope with go.

Definition M (W A : Type) : Type := W → option (A * W).

#[export] Instance M_ret {W} : MRet (M W) := λ A x w, Some (x, w).
#[export] Instance M_bind {W} : MBind (M W) := λ A B k m w,
  match m w with
  | Some (x, w') => k x w'
  | None => None
  end.

(** A primitive that always returns. *)
Definition prim {W A} (f : W → A * W) : M W A := λ w, Some (f w).

(** Run [k] for its effect on every element, in order. *)
Fixpoint for_each {W A} (k : A → M W unit) (l : list A) : M W unit :=
  match l with
  | [] => mret tt
  | x :: l' => k x ;; for_each k l'
  end.

Section monad.
Context {W : Type}.

Lemma bind_Some {A B} (m : M W A) (k : A → M W B) w b w2 :
  (m ≫= k) w = Some (b, w2) ↔
  ∃ a w1, m w = Some (a, w1) ∧ k a w1 = Some (b, w2).
Proof.
  unfold mbind, M_bind. destruct (m w) as [[a w1]|]; split.
  - intros H. by exists a, w1.
  - by intros (? & ? & [= <- <-] & H).
  - done.
  - by intros (? & ? & [=] & _).
Qed.

Lemma bind_step {A B} (m : M W A) (k : A → M W B) w a w1 :
  m w = Some (a, w1) → (m ≫= k) w = k a w1.
Proof. intros H. unfold mbind, M_bind. by rewrite H. Qed.

Lemma bind_None {A B} (m : M W A) (k : A → M W B) w :
  (m ≫= k) w = None ↔
  m w = None ∨ ∃ a w1, m w = Some (a, w1) ∧ k a w1 = None.
Proof.
  unfold mbind, M_bind. destruct (m w) as [[a w1]|]; split; eauto.
  - intros [?|(? & ? & [= <- <-] & ?)]; done.
Qed.

Lemma ret_Some {A} (a : A) (w : W) : (mret a : M W A) w = Some (a, w).
Proof. done. Qed.

Lemma prim_Some {A} (f : W → A * W) w : prim f w = Some (f w).
Proof. done. Qed.

Lemma bind_assoc {A B C} (m : M W A) (k : A → M W B) (h : B → M W C) w :
  ((m ≫= k) ≫= h) w = (m ≫= λ x, k x ≫= h) w.
Proof. unfold mbind, M_bind. by destruct (m w) as [[]|]. Qed.

Lemma bind_ret_r {A} (m : M W A) w : (a ← m; mret a) w = m w.
Proof. unfold mbind, M_bind. by destruct (m w) as [[]|]. Qed.

(** A computation returns from every world. *)
Definition total {A} (m : M W A) : Prop := ∀ w, is_Some (m w).

Lemma total_ret {A} (a : A) : total (mret a : M W A).
Proof. intros w. by eexists. Qed.

Lemma total_prim {A} (f : W → A * W) : total (prim f).
Proof. intros w. by eexists. Qed.

Lemma total_bind {A B} (m : M W A) (k : A → M W B) :
  total m → (∀ a, total (k a)) → total (m ≫= k).
Proof.
  intros Hm Hk w. destruct (Hm w) as [[a w1] E].
  rewrite (bind_step _ _ _ _ _ E). apply Hk.
Qed.

Lemma total_for_each {A} (k : A → M W unit) l :
  (∀ a, total (k a)) → total (for_each k l).
Proof.
  intros Hk. induction l as [|x l IH]; [apply total_ret|].
  by apply total_bind; [apply Hk|intros _].
Qed.

(** [m] refines [m']: whenever [m] returns, [m'] returns the same.  Used to
    compare a loop at different amounts of fuel. *)
Definition refines {A} (m m' : M W A) : Prop :=
  ∀ w r, m w = Some r → m' w = Some r.

#[global] Instance refines_refl {A} : Reflexive (@refines A).
Proof. by intros m w r. Qed.

Lemma refines_bind {A B} (m m' : M W A) (k k' : A → M W B) :
  refines m m' → (∀ a, refines (k a) (k' a)) → refines (m ≫= k) (m' ≫= k').
Proof.
  intros Hm Hk w [b w2] (a & w1 & E & E')%bind_Some.
  apply bind_Some. exists a, w1. split; [by apply Hm|by apply Hk].
Qed.

(** A property of worlds that a computation keeps. *)
Definition preserves {A} (P : W → Prop) (m : M W A) : Prop :=
  ∀ w a w', P w → m w = Some (a, w') → P w'.

Lemma preserves_ret {A} P (a : A) : preserves P (mret a : M W A).
Proof. by intros w ? ? ? [= <- <-]. Qed.

Lemma preserves_bind {A B} P (m : M W A) (k : A → M W B) :
  preserves P m → (∀ a, preserves P (k a)) → preserves P (m ≫= k).
Proof.
  intros Hm Hk w b w2 HP (a & w1 & E & E')%bind_Some.
  eapply Hk; [|exact E']. by eapply Hm.
Qed.

Lemma preserves_for_each {A} P (k : A → M W unit) l :
  (∀ a, preserves P (k a)) → preserves P (for_each k l).
Proof.
  intros Hk. induction l as [|x l IH]; [apply preserves_ret|].
  by apply preserves_bind; [apply Hk|intros _].
Qed.
End monad.

(** ** Total correctness: [wp m Q w] says that [m] returns from [w], in a
    result and a world that satisfy [Q]. *)
Definition wp {W A} (m : M W A) (Q : A → W → Prop) (w : W) : Prop :=
  ∃ a w', m w = Some (a, w') ∧ Q a w'.

Section wp.
Context {W : Type}.

Lemma wp_ret {A} (a : A) Q (w : W) : Q a w → wp (mret a) Q w.
Proof. intros HQ. by exists a, w. Qed.

Lemma wp_prim {A} (f : W → A * W) Q w : Q (f w).1 (f w).2 → wp (prim f) Q w.
Proof. intros HQ. exists (f w).1, (f w).2. split; [|done]. rewrite prim_Some. by destruct (f w). Qed.

Lemma wp_bind {A B} (m : M W A) (k : A → M W B) Q w :
  wp m (λ a, wp (k a) Q) w → wp (m ≫= k) Q w.
Proof.
  intros (a & w1 & E & b & w2 & E' & HQ). exists b, w2. split; [|done].
  by rewrite (bind_step _ _ _ _ _ E).
Qed.

Lemma wp_bind_assoc {A B D} (m : M W A) (k : A → M W B) (h : B → M W D) Q w :
  wp (a ← m; b ← k a; h b) Q w → wp (b ← (a ← m; k a); h b) Q w.
Proof. intros (b & w2 & E & HQ). exists b, w2. by rewrite bind_assoc. Qed.

Lemma wp_bind_inv {A B} (m : M W A) (k : A → M W B) Q w :
  wp (m ≫= k) Q w → wp m (λ a, wp (k a) Q) w.
Proof.
  intros (b & w2 & (a & w1 & E & E')%bind_Some & HQ). exists a, w1.
  split; [done|]. by exists b, w2.
Qed.

Lemma wp_conseq {A} (m : M W A) (Q Q' : A → W → Prop) w :
  wp m Q w → (∀ a w', Q a w' → Q' a w') → wp m Q' w.
Proof. intros (a & w' & E & HQ) Himp. exists a, w'. auto. Qed.

Lemma wp_total {A} (m : M W A) Q w : wp m Q w → is_Some (m w).
Proof. intros (a & w' & E & _). by exists (a, w'). Qed.

Lemma wp_run {A} (m : M W A) Q w a w' : wp m Q w → m w = Some (a, w') → Q a w'.
Proof. intros (b & w2 & E & HQ) E'. rewrite E in E'. by injection E' as <- <-. Qed.

(** With totality, what holds of every return holds. *)
Lemma wp_intro {A} (m : M W A) (Q : A → W → Prop) w :
  is_Some (m w) → (∀ a w', m w = Some (a, w') → Q a w') → wp m Q w.
Proof. intros [[a w'] E] HQ. exists a, w'. auto. Qed.

(** An invariant of the world carried through a loop over a slice. *)
Lemma wp_for_each {A} (k : A → M W unit) (I : nat → W → Prop) (l : list A) i w :
  I i w →
  (∀ j x w, l !! j = Some x → I (i + j) w → wp (k x) (λ _, I (Datatypes.S (i + j))) w) →
  wp (for_each k l) (λ _, I (i + length l)) w.
Proof.
  revert i w. induction l as [|x l IH]; intros i w HI Hk.
  - apply wp_ret. simpl. by rewrite Nat.add_0_r.
  - simpl. apply wp_bind. eapply wp_conseq.
    + apply (Hk 0 x); [done|]. by rewrite Nat.add_0_r.
    + intros [] w' HI'. rewrite Nat.add_0_r in HI'. eapply wp_conseq.
      * apply (IH (Datatypes.S i)); [done|]. intros j y w2 Hj HI2.
        rewrite Nat.add_succ_l, <- Nat.add_succ_r. apply Hk; [done|].
        by rewrite Nat.add_succ_r, <- Nat.add_succ_l.
      * intros [] w2. by rewrite Nat.add_succ_l, <- Nat.add_succ_r.
Qed.
End wp.

Create HintDb go.
#[export] Hint Resolve total_ret total_prim total_bind total_for_each
  preserves_ret preserves_bind preserves_for_each : go.

(** Take apart a run that is known to have returned. *)
Ltac run_inv H :=
  repeat match type of H with
  | (mret _) _ = Some _ => injection H as <- <-
  | (prim _) _ = Some _ => rewrite prim_Some in H
  | (mbind _ _) _ = Some _ =>
      let a := fresh "a" in let w := fresh "w" in
      let E := fresh "E" in let H' := fresh "H" in
      apply bind_Some in H as (a & w & E & H'); rename H' into H
  end.

(** ** Strings of package strings *)

(** [has_prefix p s]: [s] begins with [p]. *)
Fixpoint has_prefix (p s : string) : bool :=
  match p, s with
  | EmptyString, _ => true
  | String a p', String b s' => bool_decide (a = b) && has_prefix p' s'
  | String _ _, EmptyString => false
  end.

(** strings.Contains *)
Fixpoint contains (s sub : string) : bool :=
  has_prefix sub s ||
  match s with
  | EmptyString => false
  | String _ s' => contains s' sub
  end.

Lemma has_prefix_spec p s : has_prefix p s = true ↔ ∃ post, s = p +:+ post.
Proof.
  revert s. induction p as [|a p IH]; intros s; simpl; [naive_solver|].
  destruct s as [|b s]; [split; [done|by intros [? [=]]]|].
  rewrite andb_true_iff, bool_decide_eq_true, IH. split.
  - intros [-> [post ->]]. by exists post.
  - intros [post [= -> ->]]. eauto.
Qed.

Lemma contains_spec s sub : contains s sub = true ↔ ∃ pre post, s = pre +:+ sub +:+ post.
Proof.
  induction s as [|a s IH]; simpl; rewrite orb_true_iff, has_prefix_spec.
  - split; [intros [[post E]|[=]]; by exists "", post|]. intros ([|] & post & E); [|done]. left. by exists post.
  - rewrite IH. split.
    + intros [[post E]|(pre & post & ->)]; [by exists "", post|by exists (String a pre), post].
    + intros ([|b pre] & post & E); [left; by exists post|right]. injection E as -> E. by exists pre, post.
Qed.

(** strings.Count for a one-byte separator, and strings.Index / the two
    slices around the first occurrence. *)
Fixpoint count_char (c : ascii) (s : string) : nat :=
  match s with
  | EmptyString => 0
  | String a s' => (if bool_decide (a = c) then 1 else 0) + count_char c s'
  end.

Fixpoint cut_char (c : ascii) (s : string) : option (string * string) :=
  match s with
  | EmptyString => None
  | String a s' =>
      if bool_decide (a = c) then Some (EmptyString, s')
      else match cut_char c s' with
           | Some (l, r) => Some (String a l, r)
           | None => None
           end
  end.

(** strings.ToLower on ASCII. *)
Definition lower_ascii (a : ascii) : ascii :=
  let n := Ascii.nat_of_ascii a in
  if (65 <=? n)%nat && (n <=? 90)%nat then Ascii.ascii_of_nat (n + 32) else a.

Fixpoint to_lower (s : string) : string :=
  match s with
  | EmptyString => EmptyString
  | String a s' => String (lower_ascii a) (to_lower s')
  end.

Lemma string_app_cons a (s t : string) : (String a s +:+ t) = String a (s +:+ t).
Proof. done. Qed.

Lemma string_app_nil (t : string) : ("" +:+ t) = t.
Proof. done. Qed.

Lemma count_char_app c s t : count_char c (s +:+ t) = count_char c s + count_char c t.
Proof.
  induction s as [|a s IH]; [done|]. rewrite string_app_cons. simpl. lia.
Qed.

Lemma count_char_sep c s : count_char c (String c s) = S (count_char c s).
Proof. simpl. by rewrite bool_decide_eq_true_2. Qed.

(** Cutting at the first separator takes a string apart exactly. *)
Lemma cut_char_Some c s l r :
  cut_char c s = Some (l, r) ↔ s = l +:+ String c r ∧ count_char c l = 0.
Proof.
  revert l r. induction s as [|a s IH]; intros l r; simpl.
  { split; [done|]. intros [E _]. by destruct l. }
  case_bool_decide as Ha.
  - subst a. split; [by intros [= <- <-]|]. intros [E Hc].
    destruct l as [|b l]; [by injection E as ->|].
    injection E as <- _. simpl in Hc. by rewrite bool_decide_eq_true_2 in Hc.
  - assert (∀ l' r', (String a s = l' +:+ String c r' ∧ count_char c l' = 0) ↔
      ∃ l2, l' = String a l2 ∧ s = l2 +:+ String c r' ∧ count_char c l2 = 0) as Hs.
    { intros l' r'. split.
      - intros [E Hl]. destruct l' as [|b l2]; [by injection E as ->|].
        injection E as -> ->. exists l2. simpl in Hl.
        by rewrite bool_decide_eq_false_2 in Hl.
      - intros (l2 & -> & -> & Hl). split; [done|]. simpl.
        by rewrite bool_decide_eq_false_2. }
    rewrite Hs. destruct (cut_char c s) as [[l1 r1]|].
    + split.
      * intros [= <- <-]. exists l1. split; [done|]. by apply IH.
      * intros (l2 & -> & H). apply IH in H. by injection H as -> ->.
    + split; [done|]. intros (l2 & -> & H). by apply IH in H.
Qed.

(** Splitting at the first separator is injective when the left part has
    none: the key fact about names of the form resource.group. *)
Lemma app_sep_inj c l1 r1 l2 r2 :
  count_char c l1 = 0 → count_char c l2 = 0 →
  l1 +:+ String c r1 = l2 +:+ String c r2 → l1 = l2 ∧ r1 = r2.
Proof.
  intros H1 H2 E.
  assert (cut_char c (l1 +:+ String c r1) = Some (l1, r1)) as C1
    by (by apply cut_char_Some).
  assert (cut_char c (l1 +:+ String c r1) = Some (l2, r2)) as C2
    by (by apply cut_char_Some).
  rewrite C1 in C2. by injection C2.
Qed.

(** ** Lists *)

(** The non-nil errors of a slice, in order. *)
Definition somes {A} (l : list (option A)) : list A := omap id l.

Lemma somes_app {A} (l1 l2 : list (option A)) : somes (l1 ++ l2) = somes l1 ++ somes l2.
Proof. unfold somes. by rewrite omap_app. Qed.

Lemma filter_id {A} (P : A → Prop) `{∀ x, Decision (P x)} l :
  Forall P l → filter P l = l.
Proof.
  induction 1 as [|x l Hx _ IH]; [done|]. by rewrite filter_cons_True, IH.
Qed.

(** Where an element of a concatenation lies. *)
Lemma app_split_elem {A} (x : A) l1 l2 pre post :
  l1 ++ l2 = pre ++ x :: post →
  (∃ k, l1 = pre ++ x :: k) ∨ (∃ k, pre = l1 ++ k ∧ l2 = k ++ x :: post).
Proof.
  intros [(k & -> & E)|(k & -> & E)]%app_eq_inv; [|by right; eauto].
  destruct k as [|y k]; simplify_eq/=; [|by left; eauto].
  right. exists []. by rewrite !app_nil_r.
Qed.

Lemma app_split_elem3 {A} (x : A) l1 l2 l3 pre post :
  x ∉ l2 → l1 ++ l2 ++ l3 = pre ++ x :: post →
  (∃ k, l1 = pre ++ x :: k) ∨ (∃ k, pre = l1 ++ l2 ++ k ∧ l3 = k ++ x :: post).
Proof.
  intros Hx [?|(k & -> & E)]%app_split_elem; [by left|].
  apply app_split_elem in E as [(k' & ->)|(k' & -> & ->)]; [|by right; eauto].
  destruct Hx. set_solver.
Qed.

(** ** Sorting by a string key

    sort.Slice with the order of strings, which compares bytes.  Insertion is
    stable; sort.Slice is not, so results are used only where the keys of the
    list are distinct. *)
Definition string_le (s t : string) : bool := String.leb s t.

Lemma compare_trans s t u : String.compare s t ≠ Gt → String.compare t u ≠ Gt → String.compare s u ≠ Gt.
Proof.
  revert t u. induction s as [|a s IH]; intros [|b t] [|c u]; simpl; try done.
  unfold Ascii.compare. pose proof (N.compare_spec (N_of_ascii a) (N_of_ascii b)) as Hab.
  pose proof (N.compare_spec (N_of_ascii b) (N_of_ascii c)) as Hbc.
  pose proof (N.compare_spec (N_of_ascii a) (N_of_ascii c)) as Hac.
  destruct Hab, Hbc, Hac; try done; try lia. by apply IH.
Qed.

Lemma string_le_compare s t : string_le s t = true ↔ String.compare s t ≠ Gt.
Proof. unfold string_le, String.leb. by destruct (String.compare s t). Qed.

Lemma string_le_trans s t u : string_le s t = true → string_le t u = true → string_le s u = true.
Proof. rewrite !string_le_compare. apply compare_trans. Qed.

Lemma string_le_total s t : string_le s t = false → string_le t s = true.
Proof. unfold string_le. pose proof (String.leb_total s t) as [E|E]; congruence. Qed.

Lemma string_le_antisym s t : string_le s t = true → string_le t s = true → s = t.
Proof. apply String.leb_antisym. Qed.

Definition by_key {A} (key : A → string) (x y : A) : bool := string_le (key x) (key y).

Section sort.
Context {A : Type} (le : A → A → bool).

Fixpoint insert_by (x : A) (l : list A) : list A :=
  match l with
  | [] => [x]
  | y :: l' => if le x y then x :: l else y :: insert_by x l'
  end.

Definition sort_by : list A → list A := foldr insert_by [].

Definition sorted_by : list A → Prop := StronglySorted (λ x y, le x y = true).

Lemma insert_by_perm x l : insert_by x l ≡ₚ x :: l.
Proof.
  induction l as [|y l IH]; [done|]. simpl. case_match; [done|]. rewrite IH. apply Permutation_swap.
Qed.

Lemma sort_by_perm l : sort_by l ≡ₚ l.
Proof. induction l as [|x l IH]; [done|]. simpl. by rewrite insert_by_perm, IH. Qed.

Class TotalPreorder := {
  le_trans : ∀ x y z, le x y = true → le y z = true → le x z = true;
  le_total : ∀ x y, le x y = false → le y x = true;
}.

Context `{TotalPreorder}.

Lemma insert_by_sorted x l : sorted_by l → sorted_by (insert_by x l).
Proof.
  induction 1 as [|y l Hl IH Hy]; [by repeat constructor|]. simpl. destruct (le x y) eqn:E.
  - constructor; [by constructor|]. constructor; [done|].
    eapply Forall_impl; [exact Hy|]. intros z Hz. by eapply le_trans.
  - constructor; [done|]. rewrite insert_by_perm. constructor; [by apply le_total|done].
Qed.

Lemma sort_by_sorted l : sorted_by (sort_by l).
Proof. induction l as [|x l IH]; [constructor|]. by apply insert_by_sorted. Qed.

(** Sorting forgets the order of its input when no two elements tie. *)
Definition no_ties (l : list A) : Prop :=
  ∀ x y, x ∈ l → y ∈ l → le x y = true → le y x = true → x = y.

Lemma sorted_by_unique l1 l2 : no_ties l1 → sorted_by l1 → sorted_by l2 → l1 ≡ₚ l2 → l1 = l2.
Proof.
  intros Hties S1. revert l2. induction S1 as [|x l1 S1 IH F1]; intros l2 S2 HP.
  { by apply Permutation_nil_l in HP as ->. }
  destruct S2 as [|y l2 S2 F2]; [by apply Permutation_nil_r in HP|].
  assert (x = y) as <-.
  { assert (y ∈ x :: l1) as [?|Hy]%elem_of_cons by (rewrite HP; left); [done|].
    assert (x ∈ y :: l2) as [?|Hx]%elem_of_cons by (rewrite <- HP; left); [done|].
    rewrite Forall_forall in F1, F2. apply Hties; [left|by right|auto..]. }
  f_equal. apply IH; [|done|by apply Permutation_cons_inv in HP].
  intros a b Ha Hb. apply Hties; by right.
Qed.

Lemma sort_by_unique l1 l2 : no_ties l1 → l1 ≡ₚ l2 → sort_by l1 = sort_by l2.
Proof.
  intros Hties HP. apply sorted_by_unique; [|apply sort_by_sorted..|by rewrite !sort_by_perm].
  intros x y. rewrite !sort_by_perm. apply Hties.
Qed.
End sort.

#[export] Instance by_key_preorder {A} (key : A → string) : TotalPreorder (by_key key).
Proof.
  split; unfold by_key; intros x y; [intros z; apply string_le_trans|apply string_le_total].
Qed.
