(* ===== verification/ApiErrors.v ===== *)
(** * Errors as the program sees them

    Go's [error] interface restricted to what the program and the vendored
    code it calls observe of an error: its message, the [Unwrap] chain that
    [errors.As] walks, whether it implements [APIStatus] or [Temporary], and
    the identities the network helpers compare with.  Below it, the predicates
    of k8s.io/apimachinery/pkg/api/errors, of pkg/util/net and the aggregate
    of pkg/util/errors, translated from vendor/. *)
From S2P Require Export Prelude.

Local Open Scope Z_scope.

(** ** metav1.Status *)

Record StatusDetails := {
  Details_Name : string;
  Details_Kind : string;
  Details_Causes : list (string * string); (* type and message *)
  RetryAfterSeconds : Z; (* int32 *)
}.

Record Status := {
  Status_Message : string;
  Status_Reason : string;
  Status_Details : option StatusDetails;
  Status_Code : Z; (* int32 *)
  Status_Continue : string; (* ListMeta.Continue *)
}.

(** int32 values. *)
Definition int32 (z : Z) : Prop := - 2 ^ 31 <= z < 2 ^ 31.

(** ** Errors *)
Inductive error : Type :=
  | EStatus (s : Status)                       (* errors.StatusError, the APIStatus errors *)
  | EErrno (no : Z) (msg : string)             (* syscall.Errno, with its text *)
  | EEOF                                       (* io.EOF *)
  | EUnexpectedEOF                             (* io.ErrUnexpectedEOF *)
  | EUrl (op quoted_url : string) (inner : error) (* url.Error *)
  | ENoRoutes (msg : string)                   (* net.noRoutesError *)
  | ERetriable (inner : error)                 (* migrator.ErrRetriable *)
  | ENotRetriable (inner : error)              (* migrator.ErrNotRetriable *)
  | EAggregate (errs : list error)             (* errors.aggregate *)
  | EInterrupted (cause : option error)        (* wait.errInterrupted *)
  | EGroupDiscoveryFailed (msg : string)       (* discovery.ErrGroupDiscoveryFailed *)
  | EOther (type msg : string) (temporary : option bool) (unwrap : option error).

(** Result of a Go function with signature (T, error). *)
Inductive res (A : Type) : Type :=
  | Ok (a : A)
  | Err (e : error).
Arguments Ok {A} a.
Arguments Err {A} e.

Definition res_error {A} (r : res A) : option error :=
  match r with
  | Ok _ => None
  | Err e => Some e
  end.

Definition res_map {A B} (f : A → B) (r : res A) : res B :=
  match r with
  | Ok x => Ok (f x)
  | Err e => Err e
  end.

(** fmt.Errorf and errors.New without %w: an error with a text and nothing
    else. *)
Definition Errorf (msg : string) : error := EOther "*errors.errorString" msg None None.

(** ** The error text *)

(** aggregate.Error on the messages in visiting order: duplicates dropped,
    brackets unless there is exactly one. *)
Fixpoint dedup (seen : list string) (msgs : list string) : list string :=
  match msgs with
  | [] => []
  | m :: ms => if bool_decide (m ∈ seen) then dedup seen ms else m :: dedup (m :: seen) ms
  end.

Definition join (sep : string) (l : list string) : string :=
  match l with
  | [] => ""
  | m :: ms => foldl (λ acc x, acc +:+ sep +:+ x) m ms
  end.

Definition render_aggregate (msgs : list string) : string :=
  match dedup [] msgs with
  | [m] => m
  | ms => "[" +:+ join ", " ms +:+ "]"
  end.

(** [describe e] is e.Error() together with the messages aggregate.visit
    would find below [e]. *)
Fixpoint describe (e : error) : string * list string :=
  let leaf s := (s, [s]) in
  match e with
  | EStatus s => leaf (Status_Message s)
  | EErrno _ msg => leaf msg
  | EEOF => leaf "EOF"
  | EUnexpectedEOF => leaf "unexpected EOF"
  | EUrl op url inner => leaf (op +:+ " " +:+ url +:+ ": " +:+ (describe inner).1)
  | ENoRoutes msg => leaf msg
  | ERetriable inner | ENotRetriable inner => leaf (describe inner).1
  | EInterrupted None => leaf "timed out waiting for the condition"
  | EInterrupted (Some cause) => leaf (describe cause).1
  | EGroupDiscoveryFailed msg => leaf msg
  | EOther _ msg _ _ => leaf msg
  | EAggregate errs =>
      let msgs := (fix visit l := match l with [] => [] | x :: xs => (describe x).2 ++ visit xs end) errs in
      (match errs with
       | [] => ""
       | [x] => (describe x).1
       | _ => render_aggregate msgs
       end, msgs)
  end.

Definition Error (e : error) : string := (describe e).1.

(** reflect.TypeOf, as %v prints it. *)
Definition TypeOf (e : error) : string :=
  match e with
  | EStatus _ => "*errors.StatusError"
  | EErrno _ _ => "syscall.Errno"
  | EEOF | EUnexpectedEOF => "*errors.errorString"
  | EUrl _ _ _ => "*url.Error"
  | ENoRoutes _ => "net.noRoutesError"
  | ERetriable _ => "migrator.ErrRetriable"
  | ENotRetriable _ => "migrator.ErrNotRetriable"
  | EAggregate _ => "errors.aggregate"
  | EInterrupted _ => "wait.errInterrupted"
  | EGroupDiscoveryFailed _ => "*discovery.ErrGroupDiscoveryFailed"
  | EOther type _ _ _ => type
  end.

(** ** errors.As *)

(** The error and what its Unwrap method leads to. *)
Fixpoint chain (e : error) : list error :=
  e :: match e with
       | EUrl _ _ inner => chain inner
       | EInterrupted (Some cause) => chain cause
       | EOther _ _ _ (Some inner) => chain inner
       | _ => []
       end.

Definition first_of {A} (pick : error → option A) (e : error) : option A :=
  head (omap pick (chain e)).

Definition as_APIStatus : error → option Status :=
  first_of (λ e, match e with EStatus s => Some s | _ => None end).
Definition as_Errno : error → option Z :=
  first_of (λ e, match e with EErrno n _ => Some n | _ => None end).
Definition as_UrlError : error → option error :=
  first_of (λ e, match e with EUrl _ _ inner => Some inner | _ => None end).

(** ** k8s.io/apimachinery/pkg/api/errors *)

Definition StatusReasonUnknown : string := "".
Definition StatusReasonNotFound : string := "NotFound".
Definition StatusReasonAlreadyExists : string := "AlreadyExists".
Definition StatusReasonConflict : string := "Conflict".
Definition StatusReasonServerTimeout : string := "ServerTimeout".
Definition StatusReasonTooManyRequests : string := "TooManyRequests".
Definition StatusReasonMethodNotAllowed : string := "MethodNotAllowed".
Definition StatusReasonExpired : string := "Expired".

Definition knownReasons : list string :=
  ["Unauthorized"; "Forbidden"; "NotFound"; "AlreadyExists"; "Conflict"; "Gone";
   "Invalid"; "ServerTimeout"; "Timeout"; "TooManyRequests"; "BadRequest";
   "MethodNotAllowed"; "NotAcceptable"; "RequestEntityTooLarge";
   "UnsupportedMediaType"; "InternalError"; "Expired"; "ServiceUnavailable"].

Definition ReasonForError (e : error) : string :=
  match as_APIStatus e with
  | Some s => Status_Reason s
  | None => StatusReasonUnknown
  end.

Definition reasonAndCodeForError (e : error) : string * Z :=
  match as_APIStatus e with
  | Some s => (Status_Reason s, Status_Code s)
  | None => (StatusReasonUnknown, 0)
  end.

(** The shape shared by IsNotFound, IsConflict, IsMethodNotSupported: the
    reason, or the HTTP code when the reason is not a known one. *)
Definition has_reason_or_code (reason : string) (code : Z) (e : error) : bool :=
  let '(r, c) := reasonAndCodeForError e in
  bool_decide (r = reason) || (bool_decide (r ∉ knownReasons) && (c =? code)).

Definition IsNotFound : error → bool := has_reason_or_code StatusReasonNotFound 404.
Definition IsConflict : error → bool := has_reason_or_code StatusReasonConflict 409.
Definition IsMethodNotSupported : error → bool :=
  has_reason_or_code StatusReasonMethodNotAllowed 405.
Definition IsResourceExpired (e : error) : bool :=
  bool_decide (ReasonForError e = StatusReasonExpired).
Definition IsAlreadyExists (e : error) : bool :=
  bool_decide (ReasonForError e = StatusReasonAlreadyExists).
Definition IsServerTimeout (e : error) : bool :=
  bool_decide (ReasonForError e = StatusReasonServerTimeout).
Definition IsTooManyRequests (e : error) : bool :=
  let '(r, c) := reasonAndCodeForError e in
  bool_decide (r = StatusReasonTooManyRequests) || (c =? 429).

(** The predicates applied to a possibly nil error: false on nil, because
    errors.As(nil, _) is false and the unknown reason matches nothing. *)
Definition on_error (p : error → bool) (err : option error) : bool :=
  match err with
  | Some e => p e
  | None => false
  end.

Definition SuggestsClientDelay (e : error) : option Z :=
  match as_APIStatus e with
  | Some s =>
      match Status_Details s with
      | Some d =>
          if bool_decide (Status_Reason s = StatusReasonServerTimeout)
          then Some (RetryAfterSeconds d)
          else if 0 <? RetryAfterSeconds d then Some (RetryAfterSeconds d)
          else None
      | None => None
      end
  | None => None
  end.

(** ** k8s.io/apimachinery/pkg/util/net *)

Definition ECONNRESET : Z := 104.

Definition IsConnectionReset (e : error) : bool :=
  match as_Errno e with
  | Some errno => errno =? ECONNRESET
  | None => false
  end.

Definition IsProbableEOF (e : error) : bool :=
  let e := match as_UrlError e with Some inner => inner | None => e end in
  let msg := Error e in
  match e with
  | EEOF | EUnexpectedEOF => true
  | _ =>
      bool_decide (msg = "http: can't write HTTP request on broken connection")
      || contains msg "http2: server sent GOAWAY and closed the connection"
      || contains msg "connection reset by peer"
      || contains (to_lower msg) "use of closed network connection"
  end.

Definition IsNoRoutesError (e : error) : bool :=
  match e with
  | ENoRoutes _ => true
  | _ => false
  end.

(** ** k8s.io/apimachinery/pkg/util/errors *)

(** NewAggregate; a slice element is nil or an error. *)
Definition NewAggregate (errlist : list (option error)) : option error :=
  match errlist with
  | [] => None
  | _ => match somes errlist with
         | [] => None
         | errs => Some (EAggregate errs)
         end
  end.

(** ** k8s.io/client-go/discovery *)
Definition IsGroupDiscoveryFailedError (e : error) : bool :=
  match e with
  | EGroupDiscoveryFailed _ => true
  | _ => false
  end.

(** ** The Temporary method

    [Some b] when the dynamic type of the error has a method
    Temporary() bool, and what it returns.  url.Error forwards to the error it
    wraps and answers false when that has none; syscall.Errno is temporary for
    EINTR, ENFILE, EMFILE, EAGAIN and ETIMEDOUT. *)
Definition temporary_errnos : list Z := [4; 11; 23; 24; 110].

Fixpoint Temporary (e : error) : option bool :=
  match e with
  | ERetriable _ => Some true
  | ENotRetriable _ => Some false
  | EErrno n _ => Some (bool_decide (n ∈ temporary_errnos))
  | EUrl _ _ inner => Some (default false (Temporary inner))
  | EOther _ _ t _ => t
  | _ => None
  end.

(** ** Facts *)

Lemma as_APIStatus_EStatus s : as_APIStatus (EStatus s) = Some s.
Proof. done. Qed.

Lemma as_APIStatus_Url op u e : as_APIStatus (EUrl op u e) = as_APIStatus e.
Proof. done. Qed.

(** The three predicates that follow the shape are exclusive when their
    reasons and codes differ. *)
Lemma has_reason_or_code_excl r1 c1 r2 c2 e :
  r1 ∈ knownReasons → r2 ∈ knownReasons → r1 ≠ r2 → c1 ≠ c2 →
  has_reason_or_code r1 c1 e = true → has_reason_or_code r2 c2 e = false.
Proof.
  unfold has_reason_or_code. destruct (reasonAndCodeForError e) as [r c].
  intros K1 K2 Hr Hc Hp. apply orb_true_iff in Hp.
  apply orb_false_iff. rewrite andb_false_iff, !bool_decide_eq_false, Z.eqb_neq.
  rewrite andb_true_iff, !bool_decide_eq_true, Z.eqb_eq in Hp.
  destruct Hp as [-> | [Hr1 ->]]; [naive_solver|].
  split; [by intros ->|naive_solver].
Qed.

Lemma NotFound_not_Conflict e : IsNotFound e = true → IsConflict e = false.
Proof.
  apply has_reason_or_code_excl; [| |done|done]; by apply (bool_decide_unpack _).
Qed.

Lemma NewAggregate_nil errs : NewAggregate errs = None ↔ somes errs = [].
Proof. unfold NewAggregate. by destruct errs; [|destruct (somes _)]. Qed.

Lemma NewAggregate_Some errs e :
  NewAggregate errs = Some e ↔ e = EAggregate (somes errs) ∧ somes errs ≠ [].
Proof.
  unfold NewAggregate. destruct errs as [|x l]; [naive_solver|].
  destruct (somes (x :: l)); naive_solver.
Qed.

(** An aggregate of one error reads like that error. *)
Lemma Error_aggregate_single e : Error (EAggregate [e]) = Error e.
Proof. done. Qed.
