(* ===== verification/Types.v ===== *)
(** * Data of the program

    - [schema]: k8s.io/apimachinery/pkg/runtime/schema, the part the program
      uses (group/versions, their parsing and printing);
    - [v1alpha1]: src/pkg/apis/migration/v1alpha1/types.go, the two API kinds of
      the program with the fields the code reads or writes;
    - [unstructured]: the JSON objects the core migrator moves around, with the
      accessors of metav1/unstructured and api/meta it calls;
    - [metav1]: discovery documents and list options. *)
From S2P Require Export Prelude ApiErrors.

Local Open Scope Z_scope.

(** Instants in nanoseconds (metav1.Time), durations in nanoseconds. *)
Definition Time := Z.
Definition Duration := Z.
Definition Millisecond : Duration := 1000000.
Definition Second : Duration := 1000 * Millisecond.
Definition Minute : Duration := 60 * Second.

(** int64, the range of a time.Duration. *)
Definition int64 (z : Z) : Prop := - 2 ^ 63 <= z < 2 ^ 63.

(** Go's int64 arithmetic wraps. *)
Definition wrap64 (z : Z) : Z := (z + 2 ^ 63) mod 2 ^ 64 - 2 ^ 63.

Lemma wrap64_id z : int64 z → wrap64 z = z.
Proof. unfold int64, wrap64. intros Hz. rewrite Z.mod_small; lia. Qed.

(** time.Duration(seconds) * time.Second *)
Definition seconds_Duration (seconds : Z) : Duration := wrap64 (seconds * Second).

Lemma seconds_Duration_int32 s : int32 s → seconds_Duration s = s * Second.
Proof.
  unfold int32. intros Hs. apply wrap64_id.
  unfold int64, Second, Millisecond. lia.
Qed.

Module schema.
Record GroupVersion := { gv_Group : string; gv_Version : string }.

Record GroupVersionResource := {
  gvr_Group : string;
  gvr_Version : string;
  gvr_Resource : string;
}.

#[global] Instance GroupVersion_eq_dec : EqDecision GroupVersion.
Proof. solve_decision. Defined.
#[global] Instance GroupVersionResource_eq_dec : EqDecision GroupVersionResource.
Proof. solve_decision. Defined.

(** GroupVersion.String *)
Definition GroupVersion_String (gv : GroupVersion) : string :=
  if bool_decide (gv_Group gv = "") then gv_Version gv
  else gv_Group gv +:+ "/" +:+ gv_Version gv.

(** GroupVersionResource.String *)
Definition GroupVersionResource_String (gvr : GroupVersionResource) : string :=
  gvr_Group gvr +:+ "/" +:+ gvr_Version gvr +:+ ", Resource=" +:+ gvr_Resource gvr.

Definition WithResource (gv : GroupVersion) (resource : string) : GroupVersionResource :=
  {| gvr_Group := gv_Group gv; gvr_Version := gv_Version gv; gvr_Resource := resource |}.

Definition slash : ascii := "/"%char.

Definition ParseGroupVersion (gv : string) : res GroupVersion :=
  if bool_decide (gv = "" ∨ gv = "/") then Ok {| gv_Group := ""; gv_Version := "" |}
  else match count_char slash gv with
       | 0%nat => Ok {| gv_Group := ""; gv_Version := gv |}
       | 1%nat =>
           match cut_char slash gv with
           | Some (g, v) => Ok {| gv_Group := g; gv_Version := v |}
           | None => Err (Errorf "unreachable: Count is 1 and Index is -1")
           end
       | _ => Err (Errorf ("unexpected GroupVersion string: " +:+ gv))
       end.

(** A group/version that occurs in a discovery document: no slash in its
    parts, and a version. *)
Definition wf_GroupVersion (gv : GroupVersion) : Prop :=
  count_char slash (gv_Group gv) = 0%nat ∧
  count_char slash (gv_Version gv) = 0%nat ∧ gv_Version gv ≠ "".

Lemma ParseGroupVersion_String gv :
  wf_GroupVersion gv → ParseGroupVersion (GroupVersion_String gv) = Ok gv.
Proof.
  destruct gv as [g v]. intros (Hg & Hv & Hne). simpl in *.
  unfold GroupVersion_String, ParseGroupVersion. simpl.
  destruct (decide (g = "")) as [->|Eg].
  - rewrite (bool_decide_eq_true_2 ("" = "")) by done.
    rewrite bool_decide_eq_false_2; [by rewrite Hv|].
    intros [->| ->]; done.
  - rewrite (bool_decide_eq_false_2 (g = "")) by done.
    rewrite bool_decide_eq_false_2.
    + rewrite !count_char_app, Hg, Hv. simpl.
      assert (cut_char slash (g +:+ "/" +:+ v) = Some (g, v)) as ->; [|done].
      by apply cut_char_Some.
    + destruct g as [|a [|b g]]; [done|..]; intros [[=]|[= -> E]]; done.
Qed.

Lemma ParseGroupVersion_Ok s gv :
  ParseGroupVersion s = Ok gv → s ≠ "/" → s ≠ "" →
  (count_char slash (gv_Group gv) + count_char slash (gv_Version gv) = 0)%nat.
Proof.
  unfold ParseGroupVersion. case_bool_decide as E; [naive_solver|]. intros H _ _.
  destruct (count_char slash s) as [|[|n]] eqn:Hc; [|destruct (cut_char slash s) as [[g v]|] eqn:Hcut|done];
    try discriminate; injection H as <-; simpl.
  - lia.
  - apply cut_char_Some in Hcut as [-> Hg]. rewrite count_char_app, count_char_sep in Hc. lia.
Qed.
End schema.

Module unstructured.
(** JSON values; objects are string-keyed maps, kept as association lists
    with the first binding of a key the one in force. *)
Inductive json :=
  | JNull
  | JBool (b : bool)
  | JNumber (z : Z)
  | JString (s : string)
  | JArray (l : list json)
  | JObject (fields : list (string * json)).

Definition Object := list (string * json).

Fixpoint field (k : string) (o : Object) : option json :=
  match o with
  | [] => None
  | (k', v) :: o' => if bool_decide (k = k') then Some v else field k o'
  end.

(** Outcome of NestedFieldNoCopy: (value, found, error). *)
Inductive nested := NotPresent | WrongType | Found (v : json).

Fixpoint NestedFieldNoCopy (val : json) (fields : list string) : nested :=
  match fields with
  | [] => Found val
  | f :: fs =>
      match val with
      | JNull => NotPresent
      | JObject m =>
          match field f m with
          | Some v => NestedFieldNoCopy v fs
          | None => NotPresent
          end
      | _ => WrongType
      end
  end.

(** getNestedString: the empty string when absent or not a string. *)
Definition getNestedString (o : Object) (fields : list string) : string :=
  match NestedFieldNoCopy (JObject o) fields with
  | Found (JString s) => s
  | _ => ""
  end.

Record Unstructured := { Unstructured_Object : Object }.
Record UnstructuredList := { List_Object : Object; List_Items : list Unstructured }.

Definition GetNamespace (u : Unstructured) : string :=
  getNestedString (Unstructured_Object u) ["metadata"; "namespace"].
Definition GetName (u : Unstructured) : string :=
  getNestedString (Unstructured_Object u) ["metadata"; "name"].
Definition GetContinue (l : UnstructuredList) : string :=
  getNestedString (List_Object l) ["metadata"; "continue"].

(** meta.NewAccessor(): both types implement the accessor interfaces, so the
    error result is always nil. *)
Definition accessor_Namespace (u : Unstructured) : res string := Ok (GetNamespace u).
Definition accessor_Name (u : Unstructured) : res string := Ok (GetName u).
Definition accessor_Continue (l : UnstructuredList) : res string := Ok (GetContinue l).
End unstructured.

Module metav1.
Record ListOptions := { Limit : Z; Continue : string }.

(** The fields of ObjectMeta the program reads, sets or relies on. *)
Record ObjectMeta := {
  Name : string;
  GenerateName : string;
  Namespace : string;
  ResourceVersion : string;
  UID : string;
  Labels : gmap string string;
}.

#[global] Instance ObjectMeta_eq_dec : EqDecision ObjectMeta.
Proof. solve_decision. Defined.

Definition empty_meta : ObjectMeta :=
  {| Name := ""; GenerateName := ""; Namespace := ""; ResourceVersion := ""; UID := ""; Labels := ∅ |}.

(** Discovery documents. *)
Record APIResource := {
  res_Name : string;
  res_Group : string;
  res_Version : string;
  res_Verbs : list string;
  StorageVersionHash : string;
}.

Record APIResourceList := {
  GroupVersion : string;
  APIResources : list APIResource;
}.
End metav1.

Module v1alpha1.
Definition GroupName : string := "migration.k8s.io".

Record GroupVersionResource := {
  Group : string;
  Version : string;
  Resource : string;
}.

#[global] Instance GroupVersionResource_eq_dec : EqDecision GroupVersionResource.
Proof. solve_decision. Defined.

Record StorageVersionMigrationSpec := {
  Spec_Resource : GroupVersionResource;
  ContinueToken : string;
}.

#[global] Instance StorageVersionMigrationSpec_eq_dec :
  EqDecision StorageVersionMigrationSpec.
Proof. solve_decision. Defined.

(** MigrationConditionType is a string type with three known values. *)
Definition MigrationRunning : string := "Running".
Definition MigrationSucceeded : string := "Succeeded".
Definition MigrationFailed : string := "Failed".

(** corev1.ConditionStatus *)
Definition ConditionTrue : string := "True".

Record MigrationCondition := {
  Type_ : string;
  CondStatus : string;
  LastUpdateTime : Time;
  Reason : string;
  Message : string;
}.

#[global] Instance MigrationCondition_eq_dec : EqDecision MigrationCondition.
Proof. solve_decision. Defined.

Record StorageVersionMigrationStatus := { Conditions : list MigrationCondition }.

#[global] Instance StorageVersionMigrationStatus_eq_dec :
  EqDecision StorageVersionMigrationStatus.
Proof. solve_decision. Defined.

Record StorageVersionMigration := {
  svm_Meta : metav1.ObjectMeta;
  svm_Spec : StorageVersionMigrationSpec;
  svm_Status : StorageVersionMigrationStatus;
}.

#[global] Instance StorageVersionMigration_eq_dec : EqDecision StorageVersionMigration.
Proof. solve_decision. Defined.

Definition svm_Name (m : StorageVersionMigration) : string := metav1.Name (svm_Meta m).

(** m.Spec.ContinueToken = token *)
Definition with_ContinueToken (token : string) (m : StorageVersionMigration) :=
  {| svm_Meta := svm_Meta m;
     svm_Spec := {| Spec_Resource := Spec_Resource (svm_Spec m); ContinueToken := token |};
     svm_Status := svm_Status m |}.

(** m.Status.Conditions = conditions *)
Definition with_Conditions (cs : list MigrationCondition) (m : StorageVersionMigration) :=
  {| svm_Meta := svm_Meta m;
     svm_Spec := svm_Spec m;
     svm_Status := {| Conditions := cs |} |}.

Record GroupResource := { gr_Group : string; gr_Resource : string }.

#[global] Instance GroupResource_eq_dec : EqDecision GroupResource.
Proof. solve_decision. Defined.

Record StorageStateSpec := { ss_Resource : GroupResource }.

(** The default entry of persistedStorageVersionHashes. *)
Definition Unknown : string := "Unknown".

Record StorageStateStatus := {
  PersistedStorageVersionHashes : list string;
  CurrentStorageVersionHash : string;
  LastHeartbeatTime : Time;
}.

Record StorageState := {
  ss_Meta : metav1.ObjectMeta;
  ss_Spec : StorageStateSpec;
  ss_Status : StorageStateStatus;
}.

#[global] Instance StorageStateSpec_eq_dec : EqDecision StorageStateSpec.
Proof. solve_decision. Defined.
#[global] Instance StorageStateStatus_eq_dec : EqDecision StorageStateStatus.
Proof. solve_decision. Defined.
#[global] Instance StorageState_eq_dec : EqDecision StorageState.
Proof. solve_decision. Defined.

(** ss.Status = st *)
Definition with_Status (st : StorageStateStatus) (ss : StorageState) :=
  {| ss_Meta := ss_Meta ss; ss_Spec := ss_Spec ss; ss_Status := st |}.

(** The zero time.Time in nanoseconds from the Unix epoch (year 1). *)
Definition zero_time : Time := - 62135596800 * Second.
Definition empty_status : StorageStateStatus :=
  {| PersistedStorageVersionHashes := []; CurrentStorageVersionHash := "";
     LastHeartbeatTime := zero_time |}.
End v1alpha1.
