(* ===== verification/Metrics.v ===== *)
(** * Metrics of the core migrator

    src/pkg/migrator/metrics/metrics.go.  Each prometheus vector is a map from
    label values to the value of the child; WithLabelValues creates the child
    at zero.  Values are float64 in Go; the counts added are lengths of lists
    and ones, so integers represent them exactly below 2^53. *)
From S2P Require Export Prelude.

Local Open Scope Z_scope.

Record CoreMigratorMetrics := {
  objectsMigrated : gmap string Z;             (* labels: resource *)
  objectsRemaining : gmap string Z;            (* labels: resource *)
  migration : gmap (string * string) Z;        (* labels: resource, status *)
}.

(** A vector's child for some label values, zero when absent. *)
Definition child {K} `{Countable K} (labels : K) (vec : gmap K Z) : Z :=
  default 0 (vec !! labels).

(** Counter.Add and Gauge.Set on the child for [labels]. *)
Definition vec_add {K} `{Countable K} (labels : K) (v : Z) (vec : gmap K Z) : gmap K Z :=
  <[labels := child labels vec + v]> vec.

Definition vec_set {K} `{Countable K} (labels : K) (v : Z) (vec : gmap K Z) : gmap K Z :=
  <[labels := v]> vec.

Definition newCoreMigratorMetrics : CoreMigratorMetrics :=
  {| objectsMigrated := ∅; objectsRemaining := ∅; migration := ∅ |}.

(** CounterVec.Reset and GaugeVec.Reset delete all the children. *)
Definition Reset (m : CoreMigratorMetrics) : CoreMigratorMetrics :=
  {| objectsMigrated := ∅; objectsRemaining := ∅; migration := ∅ |}.

Definition ObserveObjectsMigrated (added : nat) (resource : string) (m : CoreMigratorMetrics) :=
  {| objectsMigrated := vec_add resource (Z.of_nat added) (objectsMigrated m);
     objectsRemaining := objectsRemaining m;
     migration := migration m |}.

Definition ObserveObjectsRemaining (count : nat) (resource : string) (m : CoreMigratorMetrics) :=
  {| objectsMigrated := objectsMigrated m;
     objectsRemaining := vec_set resource (Z.of_nat count) (objectsRemaining m);
     migration := migration m |}.

Definition ObserveSucceededMigration (resource : string) (m : CoreMigratorMetrics) :=
  {| objectsMigrated := objectsMigrated m;
     objectsRemaining := objectsRemaining m;
     migration := vec_add (resource, "Succeeded") 1 (migration m) |}.

Definition ObserveFailedMigration (resource : string) (m : CoreMigratorMetrics) :=
  {| objectsMigrated := objectsMigrated m;
     objectsRemaining := objectsRemaining m;
     migration := vec_add (resource, "Failed") 1 (migration m) |}.

(** What a scrape reads. *)
Definition migrated_objects (resource : string) (m : CoreMigratorMetrics) : Z :=
  child resource (objectsMigrated m).
Definition migrations (resource status : string) (m : CoreMigratorMetrics) : Z :=
  child (resource, status) (migration m).

Section facts.
Context {K : Type} `{Countable K}.

Lemma child_vec_add (k : K) v vec : child k (vec_add k v vec) = child k vec + v.
Proof. unfold child, vec_add. by rewrite lookup_insert_eq. Qed.

Lemma child_vec_add_ne (k k' : K) v vec :
  k ≠ k' → child k' (vec_add k v vec) = child k' vec.
Proof. intros Hne. unfold child, vec_add. by rewrite lookup_insert_ne. Qed.
End facts.

Lemma migrated_objects_observe added r m :
  migrated_objects r (ObserveObjectsMigrated added r m) = migrated_objects r m + Z.of_nat added.
Proof. apply child_vec_add. Qed.

Lemma migrated_objects_observe_ne added r r' m :
  r ≠ r' → migrated_objects r' (ObserveObjectsMigrated added r m) = migrated_objects r' m.
Proof. apply child_vec_add_ne. Qed.
