(* ===== verification/World.v ===== *)
(** * The world the program runs in

    The cluster is external: its state [S] is a parameter, and the clients the
    program holds (dynamic.Interface, the typed clientset, discovery) are
    classes of operations on it.  An operation may do anything to [S], so the
    effects of other clients and of time passing between two calls of the
    program are covered.

    [World S] puts beside it what the program itself produces: the trace of
    the requests it sent, with their outcome (for reads, what was read, or
    the part of it that the program looks at), of the delays it slept and of
    the errors it reported, and the metrics registry of the process. *)
From S2P Require Export Prelude ApiErrors Types Metrics.

Local Open Scope Z_scope.
Import unstructured.

Inductive event :=
  (* dynamic client *)
  | DynGet (r : schema.GroupVersionResource) (ns name : string) (out : res Unstructured)
  | DynUpdate (r : schema.GroupVersionResource) (ns : string) (obj : Unstructured) (err : option error)
  | DynList (r : schema.GroupVersionResource) (opts : metav1.ListOptions) (out : res UnstructuredList)
  (* storageversionmigrations *)
  | SVMGet (name : string) (out : res v1alpha1.StorageVersionMigration)
  | SVMUpdate (m : v1alpha1.StorageVersionMigration) (err : option error)
  | SVMUpdateStatus (m : v1alpha1.StorageVersionMigration) (err : option error)
  | SVMCreate (m : v1alpha1.StorageVersionMigration) (err : option error)
  | SVMDelete (name : string) (err : option error)
  (* storagestates *)
  | SSGet (name : string) (out : res v1alpha1.StorageState)
  | SSCreate (ss : v1alpha1.StorageState) (out : res v1alpha1.StorageState)
  | SSUpdateStatus (ss : v1alpha1.StorageState) (err : option error)
  | SSDelete (name : string) (err : option error)
  (* discovery *)
  | ServerPreferred (lists : list metav1.APIResourceList) (err : option error)
  | GroupsAndResources (lists : list metav1.APIResourceList) (err : option error)
  (* customresourcedefinitions and apiservices *)
  | CRDGet (name : string) (err : option error)
  | CRDCreate (name : string) (err : option error)
  | CRDDelete (name : string) (err : option error)
  | CRDList (groups : res (list string))
  | APIServiceList (groups : res (list (string * option string)))
  (* the process *)
  | Slept (d : Duration)
  | Handled (e : error).

(** ** Clients *)

Class DynamicInterface (S : Type) := {
  dyn_Get : schema.GroupVersionResource → string → string → S → res Unstructured * S;
  dyn_Update : schema.GroupVersionResource → string → Unstructured → S → res Unstructured * S;
  dyn_List : schema.GroupVersionResource → metav1.ListOptions → S → res UnstructuredList * S;
}.

Class StorageVersionMigrationInterface (S : Type) := {
  svm_Get : string → S → res v1alpha1.StorageVersionMigration * S;
  svm_Update : v1alpha1.StorageVersionMigration → S → res v1alpha1.StorageVersionMigration * S;
  svm_UpdateStatus : v1alpha1.StorageVersionMigration → S → res v1alpha1.StorageVersionMigration * S;
  svm_Create : v1alpha1.StorageVersionMigration → S → res v1alpha1.StorageVersionMigration * S;
  svm_Delete : string → S → option error * S;
}.

Class StorageStateInterface (S : Type) := {
  ss_Get : string → S → res v1alpha1.StorageState * S;
  ss_Create : v1alpha1.StorageState → S → res v1alpha1.StorageState * S;
  ss_UpdateStatus : v1alpha1.StorageState → S → res v1alpha1.StorageState * S;
  ss_Delete : string → S → option error * S;
}.

(** The clock and math/rand.  [rand_upto b] is what rand.Float64() contributes
    to a jitter of at most [b] nanoseconds. *)
Class Runtime (S : Type) := {
  time_Now : S → Time * S;
  rand_upto : Z → S → Z * S;
  rand_upto_bound : ∀ b s, 0 ≤ b → 0 ≤ (rand_upto b s).1 ≤ b;
}.

Record World (S : Type) := {
  ext : S;
  trace : list event;
  metrics : CoreMigratorMetrics;
}.
Arguments ext {S} w : rename.
Arguments trace {S} w : rename.
Arguments metrics {S} w : rename.

Section world.
Context {S : Type}.

Definition add_events (evs : list event) (s : S) (w : World S) : World S :=
  {| ext := s; trace := trace w ++ evs; metrics := metrics w |}.

(** Send a request: the trace gets it with its outcome. *)
Definition call {A} (f : S → A * S) (ev : A → event) : M (World S) A :=
  prim (λ w, let '(a, s') := f (ext w) in (a, add_events [ev a] s' w)).

(** Read the clock or the random source. *)
Definition silent {A} (f : S → A * S) : M (World S) A :=
  prim (λ w, let '(a, s') := f (ext w) in (a, add_events [] s' w)).

Definition emit (ev : event) : M (World S) unit :=
  prim (λ w, (tt, add_events [ev] (ext w) w)).

(** time.Sleep *)
Definition Sleep (d : Duration) : M (World S) unit := emit (Slept d).

(** utilruntime.HandleError: nothing for nil, a report otherwise. *)
Definition HandleError (err : option error) : M (World S) unit :=
  match err with
  | Some e => emit (Handled e)
  | None => mret tt
  end.

Definition observe (f : CoreMigratorMetrics → CoreMigratorMetrics) : M (World S) unit :=
  prim (λ w, (tt, {| ext := ext w; trace := trace w; metrics := f (metrics w) |})).

Lemma call_Some {A} (f : S → A * S) ev w :
  call f ev w = Some ((f (ext w)).1, add_events [ev (f (ext w)).1] (f (ext w)).2 w).
Proof. unfold call, prim. by destruct (f (ext w)). Qed.

Lemma silent_Some {A} (f : S → A * S) w :
  silent f w = Some ((f (ext w)).1, add_events [] (f (ext w)).2 w).
Proof. unfold silent, prim. by destruct (f (ext w)). Qed.

Lemma total_call {A} (f : S → A * S) ev : total (call f ev).
Proof. apply total_prim. Qed.
Lemma total_silent {A} (f : S → A * S) : total (silent f).
Proof. apply total_prim. Qed.
Lemma total_emit ev : total (emit ev).
Proof. apply total_prim. Qed.
Lemma total_HandleError err : total (HandleError err).
Proof. destruct err; [apply total_emit|apply total_ret]. Qed.
Lemma total_observe f : total (observe f).
Proof. apply total_prim. Qed.

Lemma add_events_add_events evs1 evs2 s1 s2 (w : World S) :
  add_events evs2 s2 (add_events evs1 s1 w) = add_events (evs1 ++ evs2) s2 w.
Proof. unfold add_events. simpl. by rewrite app_assoc. Qed.

Lemma add_events_after evs1 evs2 s1 s2 (w w1 : World S) :
  w1 = add_events evs1 s1 w → add_events evs2 s2 w1 = add_events (evs1 ++ evs2) s2 w.
Proof. intros ->. apply add_events_add_events. Qed.

(** ** What a computation sends

    [emits B m]: every run of [m] appends to the trace a sequence of blocks
    each satisfying [B], and leaves the metrics alone. *)
Definition emits {A} (B : list event → Prop) (m : M (World S) A) : Prop :=
  ∀ w a w', m w = Some (a, w') →
    metrics w' = metrics w ∧
    ∃ blocks, trace w' = trace w ++ concat blocks ∧ Forall B blocks.

Lemma emits_ret {A} B (a : A) : emits B (mret a).
Proof. intros w ? ? [= <- <-]. split; [done|]. exists []. by rewrite app_nil_r. Qed.

Lemma emits_call {A} (B : list event → Prop) (f : S → A * S) ev :
  (∀ a, B [ev a]) → emits B (call f ev).
Proof.
  intros HB w a w'. rewrite call_Some. intros [= <- <-]. split; [done|].
  exists [[ev (f (ext w)).1]]. split; [done|]. by apply Forall_singleton.
Qed.

Lemma emits_silent {A} B (f : S → A * S) : emits B (silent f).
Proof.
  intros w a w'. rewrite silent_Some. intros [= <- <-]. split; [done|].
  by exists [].
Qed.

Lemma emits_emit (B : list event → Prop) ev : B [ev] → emits B (emit ev).
Proof.
  intros HB w a w' [= <- <-]. split; [done|]. exists [[ev]].
  split; [done|]. by apply Forall_singleton.
Qed.

Lemma emits_Sleep (B : list event → Prop) d : B [Slept d] → emits B (Sleep d).
Proof. apply emits_emit. Qed.

Lemma emits_HandleError (B : list event → Prop) err :
  (∀ e, err = Some e → B [Handled e]) → emits B (HandleError err).
Proof. destruct err; intros HB; [apply emits_emit; auto|apply emits_ret]. Qed.

Lemma emits_bind {A A'} B (m : M (World S) A) (k : A → M (World S) A') :
  emits B m → (∀ a, emits B (k a)) → emits B (m ≫= k).
Proof.
  intros Hm Hk w b w2 (a & w1 & E & E')%bind_Some.
  apply Hm in E as [M1 (l1 & T1 & F1)]. apply Hk in E' as [M2 (l2 & T2 & F2)].
  split; [congruence|]. exists (l1 ++ l2).
  rewrite T2, T1, concat_app, app_assoc. split; [done|]. by apply Forall_app.
Qed.

Lemma emits_for_each {A} B (k : A → M (World S) unit) l :
  (∀ a, emits B (k a)) → emits B (for_each k l).
Proof.
  intros Hk. induction l as [|x l IH]; [apply emits_ret|].
  by apply emits_bind; [|intros _].
Qed.

Lemma emits_conseq {A} (B B' : list event → Prop) (m : M (World S) A) :
  (∀ evs, B evs → B' evs) → emits B m → emits B' m.
Proof.
  intros HB Hm w a w' E. apply Hm in E as [HM (bs & HT & HF)].
  split; [done|]. exists bs. split; [done|]. by eapply Forall_impl.
Qed.

(** Blocks of one event each. *)
Definition single (P : event → Prop) (evs : list event) : Prop :=
  ∃ ev, evs = [ev] ∧ P ev.

Lemma single_intro (P : event → Prop) ev : P ev → single P [ev].
Proof. by exists ev. Qed.

Lemma emits_single {A} (P : event → Prop) (m : M (World S) A) w a w' :
  emits (single P) m → m w = Some (a, w') →
  metrics w' = metrics w ∧ ∃ evs, trace w' = trace w ++ evs ∧ Forall P evs.
Proof.
  intros Hm E. apply Hm in E as [HM (bs & HT & HF)]. split; [done|].
  exists (concat bs). split; [done|]. clear HT.
  induction HF as [|b bs (ev & -> & Hev) _ IH]; simpl; [constructor|].
  by constructor.
Qed.

(** An event in the blocks lies in one of them. *)
Lemma concat_split (blocks : list (list event)) pre ev post :
  concat blocks = pre ++ ev :: post →
  ∃ bs1 b1 b2 bs2, blocks = bs1 ++ (b1 ++ ev :: b2) :: bs2 ∧ pre = concat bs1 ++ b1.
Proof.
  revert pre. induction blocks as [|b bs IH]; intros pre E; simpl in E.
  - by destruct pre.
  - apply app_eq_inv in E as [(k & -> & E)|(k & -> & E)].
    + destruct k as [|x k].
      * destruct (IH [] (eq_sym E)) as (bs1 & b1 & b2 & bs2 & -> & E').
        exists (pre :: bs1), b1, b2, bs2. simpl. rewrite app_nil_r.
        split; [done|]. by rewrite <- app_assoc, <- E', app_nil_r.
      * injection E as <- E. by exists [], pre, k, bs.
    + apply IH in E as (bs1 & b1 & b2 & bs2 & -> & ->).
      exists (b :: bs1), b1, b2, bs2. simpl. by rewrite app_assoc.
Qed.
(** A property of each event given the events before it. *)
Definition locally (P : list event → event → Prop) (evs : list event) : Prop :=
  ∀ pre ev post, evs = pre ++ ev :: post → P pre ev.

Lemma locally_concat (P : list event → event → Prop) blocks :
  (∀ x pre ev, P pre ev → P (x ++ pre) ev) → Forall (locally P) blocks →
  locally P (concat blocks).
Proof.
  intros Hx HF pre ev post (bs1 & b1 & b2 & bs2 & -> & ->)%concat_split.
  apply Hx. apply Forall_app in HF as [_ [Hb _]%Forall_cons]. by eapply Hb.
Qed.

Lemma locally_nil P : locally P [].
Proof. by intros []. Qed.

Lemma locally_cons (P : list event → event → Prop) ev evs :
  P [] ev → locally (λ pre, P (ev :: pre)) evs → locally P (ev :: evs).
Proof. intros Hev Hevs [|ev' pre] ev2 post E; injection E as -> E; [done|]. by eapply Hevs. Qed.

Lemma locally_app (P : list event → event → Prop) evs1 evs2 :
  (∀ x pre ev, P pre ev → P (x ++ pre) ev) → locally P evs1 → locally P evs2 →
  locally P (evs1 ++ evs2).
Proof.
  intros Hx H1 H2 pre ev post [(k & ->)|(k & -> & E)]%app_split_elem; [by eapply H1|].
  apply Hx. by eapply H2.
Qed.
End world.

Section wp_world.
Context {S : Type}.

Lemma wp_call {A} (f : S → A * S) ev Q w :
  Q (f (ext w)).1 (add_events [ev (f (ext w)).1] (f (ext w)).2 w) → wp (call f ev) Q w.
Proof. intros HQ. do 2 eexists. split; [apply call_Some|done]. Qed.

Lemma wp_silent {A} (f : S → A * S) Q w :
  Q (f (ext w)).1 (add_events [] (f (ext w)).2 w) → wp (silent f) Q w.
Proof. intros HQ. do 2 eexists. split; [apply silent_Some|done]. Qed.

Lemma wp_emit ev Q (w : World S) : Q tt (add_events [ev] (ext w) w) → wp (emit ev) Q w.
Proof. intros HQ. by do 2 eexists. Qed.

Lemma wp_Sleep d Q (w : World S) : Q tt (add_events [Slept d] (ext w) w) → wp (Sleep d) Q w.
Proof. apply wp_emit. Qed.

Definition handled (err : option error) : list event :=
  match err with Some e => [Handled e] | None => [] end.

Lemma wp_HandleError err Q (w : World S) :
  Q tt (add_events (handled err) (ext w) w) → wp (HandleError err) Q w.
Proof.
  destruct err as [e|]; [apply wp_emit|]. intros HQ. apply wp_ret.
  simpl in HQ. unfold add_events in HQ. rewrite app_nil_r in HQ. by destruct w.
Qed.

Lemma wp_observe f Q (w : World S) :
  Q tt {| ext := ext w; trace := trace w; metrics := f (metrics w) |} → wp (observe f) Q w.
Proof. intros HQ. by do 2 eexists. Qed.
End wp_world.

(** One step of symbolic execution under [wp]. *)
Ltac wp_step :=
  match goal with
  | |- wp (mret _) _ _ => apply wp_ret
  | |- wp (mbind _ _) _ _ => apply wp_bind
  | |- wp (call _ _) _ _ => apply wp_call
  | |- wp (silent _) _ _ => apply wp_silent
  | |- wp (emit _) _ _ => apply wp_emit
  | |- wp (Sleep _) _ _ => apply wp_Sleep
  | |- wp (HandleError _) _ _ => apply wp_HandleError
  | |- wp (observe _) _ _ => apply wp_observe
  end; cbv beta.

#[export] Hint Resolve total_call total_silent total_emit total_HandleError
  total_observe emits_ret emits_call emits_silent emits_emit emits_Sleep
  emits_HandleError emits_bind emits_for_each single_intro : go.

(** ** Worlds up to what was reported

    Two worlds are equivalent when they differ only in the errors that were
    reported (the log).  [related R m1 m2]: from equivalent worlds the two
    computations both return, in equivalent worlds and with results in [R], or
    neither does. *)
Definition is_report (ev : event) : bool :=
  match ev with Handled _ => true | _ => false end.

Definition unreported (evs : list event) : list event :=
  filter (λ ev, is_report ev = false) evs.

#[global] Instance World_equiv {S} : Equiv (World S) := λ w1 w2,
  ext w1 = ext w2 ∧ metrics w1 = metrics w2 ∧ unreported (trace w1) = unreported (trace w2).

#[global] Instance World_equivalence {S} : Equivalence (≡@{World S}).
Proof.
  split.
  - done.
  - intros w1 w2 (? & ? & ?). done.
  - intros w1 w2 w3 (? & ? & ?) (? & ? & ?). split_and!; congruence.
Qed.

#[global] Instance ext_proper {S} : Proper ((≡) ==> (=)) (@ext S).
Proof. by intros w1 w2 (? & _). Qed.

#[global] Instance metrics_proper {S} : Proper ((≡) ==> (=)) (@metrics S).
Proof. by intros w1 w2 (_ & ? & _). Qed.

#[global] Instance add_events_proper {S} evs s :
  Proper ((≡) ==> (≡)) (@add_events S evs s).
Proof.
  intros w1 w2 (HE & HM & HT). split_and!; [done..|].
  unfold unreported in *. simpl. rewrite !filter_app. by f_equal.
Qed.

Section related.
Context {S : Type}.

Definition outcomes {A B} (R : A → B → Prop) (r1 : A * World S) (r2 : B * World S) : Prop :=
  R r1.1 r2.1 ∧ r1.2 ≡ r2.2.

Definition related {A B} (R : A → B → Prop) (m1 : M (World S) A) (m2 : M (World S) B) : Prop :=
  ∀ w1 w2, w1 ≡ w2 → option_Forall2 (outcomes R) (m1 w1) (m2 w2).

Lemma related_ret {A B} (R : A → B → Prop) a b : R a b → related R (mret a) (mret b).
Proof. intros HR w1 w2 Hw. by constructor. Qed.

Lemma related_bind {A B A' B'} (R : A → B → Prop) (R' : A' → B' → Prop) m1 m2 k1 k2 :
  related R m1 m2 → (∀ a b, R a b → related R' (k1 a) (k2 b)) →
  related R' (m1 ≫= k1) (m2 ≫= k2).
Proof.
  intros Hm Hk w1 w2 Hw. unfold mbind, M_bind.
  destruct (Hm w1 w2 Hw) as [[a w1'] [b w2'] [HR Hw']|]; [|constructor].
  by apply Hk.
Qed.

Lemma related_call {A} (f : S → A * S) ev : related eq (call f ev) (call f ev).
Proof.
  intros w1 w2 Hw. rewrite !call_Some, (ext_proper _ _ Hw).
  constructor. split; simpl; [done|]. by rewrite Hw.
Qed.

Lemma related_silent {A} (f : S → A * S) : related eq (silent f) (silent f).
Proof.
  intros w1 w2 Hw. rewrite !silent_Some, (ext_proper _ _ Hw).
  constructor. split; simpl; [done|]. by rewrite Hw.
Qed.

Lemma related_emit ev : related eq (emit ev) (emit ev).
Proof.
  intros w1 w2 Hw. constructor. split; simpl; [done|].
  rewrite (ext_proper _ _ Hw). by rewrite Hw.
Qed.

Lemma related_observe f : related eq (observe f) (observe f).
Proof. intros w1 w2 (HE & HM & HT). constructor. split; [done|]. split_and!; simpl; congruence. Qed.

(** Reports are what equivalent worlds may differ in. *)
Lemma related_HandleError err1 err2 : related eq (HandleError err1) (HandleError err2).
Proof.
  assert (∀ err (w : World S),
    ∃ w', HandleError err w = Some (tt, w') ∧ w' ≡ w) as Hone.
  { intros [e|] w; [|by exists w]. eexists. split; [reflexivity|].
    split_and!; [done..|]. unfold unreported. simpl. rewrite filter_app, filter_cons_False by done.
    by rewrite filter_nil, app_nil_r. }
  intros w1 w2 Hw. destruct (Hone err1 w1) as (w1' & -> & E1).
  destruct (Hone err2 w2) as (w2' & -> & E2). constructor. split; simpl; [done|].
  by rewrite E1, E2.
Qed.

Lemma related_conseq {A B} (R R' : A → B → Prop) m1 m2 :
  (∀ a b, R a b → R' a b) → related R m1 m2 → related R' m1 m2.
Proof.
  intros HR Hm w1 w2 Hw. destruct (Hm w1 w2 Hw) as [[] [] [? ?]|]; constructor.
  split; simpl in *; auto.
Qed.

Lemma related_bind_eq {A B B'} (R : B → B' → Prop) (m : M (World S) A) k1 k2 :
  related eq m m → (∀ a, related R (k1 a) (k2 a)) → related R (m ≫= k1) (m ≫= k2).
Proof. intros Hm Hk. eapply related_bind; [done|]. intros a b <-. apply Hk. Qed.
End related.

Create HintDb related.
#[export] Hint Resolve related_ret related_call related_silent related_emit
  related_observe related_HandleError related_bind_eq : related.

(** ** Events by kind *)

Definition is_sleep (ev : event) : bool :=
  match ev with Slept _ => true | _ => false end.

(** A request that may change the state of the cluster. *)
Definition is_write (ev : event) : bool :=
  match ev with
  | DynUpdate _ _ _ _ | SVMUpdate _ _ | SVMUpdateStatus _ _ | SVMCreate _ _
  | SVMDelete _ _ | SSCreate _ _ | SSUpdateStatus _ _ | SSDelete _ _
  | CRDCreate _ _ | CRDDelete _ _ => true
  | _ => false
  end.
