(* ===== verification/Sim.v ===== *)
(** * An in-memory cluster

    A concrete instance of the client classes of World.v: a small API server
    with resource versions, optimistic concurrency, the status subresource and
    generated names, plus scripts that make chosen requests fail.  No theorem
    about the program depends on it; it instantiates their hypotheses, so that
    each has a run in which they hold. *)
From S2P Require Export World.
From stdpp Require Import pretty.

Local Open Scope Z_scope.
Import unstructured v1alpha1.

Definition status_error (reason : string) (code : Z) (msg : string) : error :=
  EStatus {| Status_Message := msg; Status_Reason := reason; Status_Details := None;
             Status_Code := code; Status_Continue := "" |}.

Definition not_found : error := status_error "NotFound" 404 "not found".
Definition conflict : error := status_error "Conflict" 409 "the object has been modified".
Definition forbidden : error := status_error "Forbidden" 403 "forbidden".
Definition not_allowed : error := status_error "MethodNotAllowed" 405 "not supported".
Definition unavailable : error := status_error "ServiceUnavailable" 503 "unavailable".

Definition server_timeout (seconds : Z) : error :=
  EStatus {| Status_Message := "timeout"; Status_Reason := "ServerTimeout";
             Status_Details := Some {| Details_Name := ""; Details_Kind := "";
               Details_Causes := []; RetryAfterSeconds := seconds |};
             Status_Code := 504; Status_Continue := "" |}.

Definition expired (token : string) : error :=
  EStatus {| Status_Message := "expired"; Status_Reason := "Expired"; Status_Details := None;
             Status_Code := 410; Status_Continue := token |}.

Record cluster := {
  c_svms : gmap string StorageVersionMigration;
  c_states : gmap string StorageState;
  c_version : nat;                         (* last resource version given out *)
  c_clock : Time;
  c_pages : string → res UnstructuredList; (* list responses by continue token *)
  c_gets : list (option error);            (* outcomes of the next dynamic GETs *)
  c_puts : list (option error);            (* outcomes of the next dynamic PUTs *)
  c_faults : list (option error);          (* outcomes of the next typed writes *)
}.

Definition empty_cluster : cluster :=
  {| c_svms := ∅; c_states := ∅; c_version := 0; c_clock := 0;
     c_pages := λ _, Err not_found; c_gets := []; c_puts := []; c_faults := [] |}.

Definition set_svms f c := {| c_svms := f (c_svms c); c_states := c_states c;
  c_version := Datatypes.S (c_version c); c_clock := c_clock c; c_pages := c_pages c;
  c_gets := c_gets c; c_puts := c_puts c; c_faults := c_faults c |}.
Definition set_states f c := {| c_svms := c_svms c; c_states := f (c_states c);
  c_version := Datatypes.S (c_version c); c_clock := c_clock c; c_pages := c_pages c;
  c_gets := c_gets c; c_puts := c_puts c; c_faults := c_faults c |}.
Definition set_clock t c := {| c_svms := c_svms c; c_states := c_states c;
  c_version := c_version c; c_clock := t; c_pages := c_pages c;
  c_gets := c_gets c; c_puts := c_puts c; c_faults := c_faults c |}.
Definition set_pages p c := {| c_svms := c_svms c; c_states := c_states c;
  c_version := c_version c; c_clock := c_clock c; c_pages := p;
  c_gets := c_gets c; c_puts := c_puts c; c_faults := c_faults c |}.
Definition set_scripts gets puts faults c := {| c_svms := c_svms c; c_states := c_states c;
  c_version := c_version c; c_clock := c_clock c; c_pages := c_pages c;
  c_gets := gets; c_puts := puts; c_faults := faults |}.

(** The next scripted outcome; success when the script is over. *)
Definition next (script : list (option error)) : option error := default None (head script).

Definition at_version (n : nat) (m : metav1.ObjectMeta) : metav1.ObjectMeta :=
  {| metav1.Name := if bool_decide (metav1.Name m = "")
                    then metav1.GenerateName m +:+ pretty n else metav1.Name m;
     metav1.GenerateName := metav1.GenerateName m;
     metav1.Namespace := metav1.Namespace m;
     metav1.ResourceVersion := pretty n;
     metav1.UID := metav1.UID m;
     metav1.Labels := metav1.Labels m |}.

#[export] Instance sim_runtime : Runtime cluster.
Proof.
  refine {| time_Now := λ c, (c_clock c, set_clock (c_clock c + Second) c);
            rand_upto := λ b c, (b / 2, c) |}.
  intros b s Hb. simpl. split; [apply Z.div_pos; lia|apply Z.div_le_upper_bound; lia].
Defined.

#[export] Instance sim_dynamic : DynamicInterface cluster := {|
  dyn_Get := λ r ns name c,
    (match next (c_gets c) with
     | Some e => Err e
     | None => Ok {| Unstructured_Object :=
         [("metadata", JObject [("name", JString name); ("namespace", JString ns)])] |}
     end, set_scripts (tail (c_gets c)) (c_puts c) (c_faults c) c);
  dyn_Update := λ r ns obj c,
    (match next (c_puts c) with Some e => Err e | None => Ok obj end,
     set_scripts (c_gets c) (tail (c_puts c)) (c_faults c) c);
  dyn_List := λ r opts c, (c_pages c (metav1.Continue opts), c);
|}.

(** A write that the script does not make fail, checked against the stored
    resource version. *)
Definition checked {A} (c : cluster) (stored : option A) (rv_of : A → string) (rv : string)
    (write : A → A * cluster) : res A * cluster :=
  let c' := set_scripts (c_gets c) (c_puts c) (tail (c_faults c)) c in
  match next (c_faults c) with
  | Some e => (Err e, c')
  | None =>
      match stored with
      | None => (Err not_found, c)
      | Some old =>
          if bool_decide (rv = "" ∨ rv = rv_of old)
          then let '(a, c'') := write old in
               (Ok a, set_scripts (c_gets c) (c_puts c) (tail (c_faults c)) c'')
          else (Err conflict, c')
      end
  end.

Definition svm_rv (m : StorageVersionMigration) := metav1.ResourceVersion (svm_Meta m).
Definition ss_rv (s : StorageState) := metav1.ResourceVersion (ss_Meta s).

#[export] Instance sim_svm : StorageVersionMigrationInterface cluster := {|
  svm_Get := λ name c,
    (match c_svms c !! name with Some m => Ok m | None => Err not_found end, c);
  svm_Update := λ m c, checked c (c_svms c !! svm_Name m) svm_rv (svm_rv m) (λ old,
    let new := {| svm_Meta := at_version (c_version c) (svm_Meta m); svm_Spec := svm_Spec m;
                  svm_Status := svm_Status old |} in
    (new, set_svms <[svm_Name m := new]> c));
  svm_UpdateStatus := λ m c, checked c (c_svms c !! svm_Name m) svm_rv (svm_rv m) (λ old,
    let new := {| svm_Meta := at_version (c_version c) (svm_Meta old); svm_Spec := svm_Spec old;
                  svm_Status := svm_Status m |} in
    (new, set_svms <[svm_Name m := new]> c));
  svm_Create := λ m c,
    let new := {| svm_Meta := at_version (c_version c) (svm_Meta m); svm_Spec := svm_Spec m;
                  svm_Status := {| Conditions := [] |} |} in
    match next (c_faults c) with
    | Some e => (Err e, set_scripts (c_gets c) (c_puts c) (tail (c_faults c)) c)
    | None => (Ok new, set_scripts (c_gets c) (c_puts c) (tail (c_faults c))
                         (set_svms <[svm_Name new := new]> c))
    end;
  svm_Delete := λ name c,
    match next (c_faults c) with
    | Some e => (Some e, set_scripts (c_gets c) (c_puts c) (tail (c_faults c)) c)
    | None => match c_svms c !! name with
              | Some _ => (None, set_scripts (c_gets c) (c_puts c) (tail (c_faults c))
                                   (set_svms (delete name) c))
              | None => (Some not_found, c)
              end
    end;
|}.

#[export] Instance sim_ss : StorageStateInterface cluster := {|
  ss_Get := λ name c,
    (match c_states c !! name with Some s => Ok s | None => Err not_found end, c);
  ss_Create := λ s c,
    let new := {| ss_Meta := at_version (c_version c) (ss_Meta s); ss_Spec := ss_Spec s;
                  ss_Status := empty_status |} in
    match next (c_faults c) with
    | Some e => (Err e, set_scripts (c_gets c) (c_puts c) (tail (c_faults c)) c)
    | None => (Ok new, set_scripts (c_gets c) (c_puts c) (tail (c_faults c))
                         (set_states <[metav1.Name (ss_Meta new) := new]> c))
    end;
  ss_UpdateStatus := λ s c, checked c (c_states c !! metav1.Name (ss_Meta s)) ss_rv (ss_rv s) (λ old,
    let new := {| ss_Meta := at_version (c_version c) (ss_Meta old); ss_Spec := ss_Spec old;
                  ss_Status := ss_Status s |} in
    (new, set_states <[metav1.Name (ss_Meta s) := new]> c));
  ss_Delete := λ name c,
    match next (c_faults c) with
    | Some e => (Some e, set_scripts (c_gets c) (c_puts c) (tail (c_faults c)) c)
    | None => match c_states c !! name with
              | Some _ => (None, set_scripts (c_gets c) (c_puts c) (tail (c_faults c))
                                   (set_states (delete name) c))
              | None => (Some not_found, c)
              end
    end;
|}.

(** A process just started against a cluster. *)
Definition start (c : cluster) : World cluster :=
  {| ext := c; trace := []; metrics := newCoreMigratorMetrics |}.

Definition object (ns name : string) : Unstructured :=
  {| Unstructured_Object :=
       [("kind", JString "Pod");
        ("metadata", JObject [("name", JString name); ("namespace", JString ns)])] |}.

Definition page (continue : string) (items : list Unstructured) : UnstructuredList :=
  {| List_Object := [("metadata", JObject [("continue", JString continue)])];
     List_Items := items |}.

Definition pods : schema.GroupVersionResource :=
  {| schema.gvr_Group := ""; schema.gvr_Version := "v1"; schema.gvr_Resource := "pods" |}.

(** A stored migration of pods. *)
Definition pod_migration (name token : string) (cs : list MigrationCondition) :
    StorageVersionMigration :=
  {| svm_Meta := {| metav1.Name := name; metav1.GenerateName := ""; metav1.Namespace := "";
                    metav1.ResourceVersion := "r"; metav1.UID := ""; metav1.Labels := ∅ |};
     svm_Spec := {| Spec_Resource := {| Group := ""; Version := "v1"; Resource := "pods" |};
                    ContinueToken := token |};
     svm_Status := {| Conditions := cs |} |}.

Definition with_svms (ms : list StorageVersionMigration) (c : cluster) : cluster :=
  set_svms (λ _, list_to_map ((λ m, (svm_Name m, m)) <$> ms)) c.

(** A server that refuses every object with the same error. *)
Definition refusing (e : error) : DynamicInterface cluster := {|
  dyn_Get := λ r ns name c, (Err e, c);
  dyn_Update := λ r ns obj c, (Err e, c);
  dyn_List := λ r opts c, (Err e, c);
|}.

(** The smallest cluster with a migration: its state is the stored continue
    token, an update stores the token it carries. *)
Definition token_runtime : Runtime string.
Proof.
  refine {| time_Now := λ s, (0, s); rand_upto := λ b s, (0, s) |}.
  intros b s Hb. simpl. lia.
Defined.

Definition token_svm : StorageVersionMigrationInterface string := {|
  svm_Get := λ name s, (Ok (pod_migration name s []), s);
  svm_Update := λ m s, (Ok m, ContinueToken (svm_Spec m));
  svm_UpdateStatus := λ m s, (Ok m, s);
  svm_Create := λ m s, (Ok m, s);
  svm_Delete := λ name s, (None, s);
|}.
