(* ===== verification/Wait.v ===== *)
(** * Retry loops: k8s.io/apimachinery/pkg/util/wait and client-go/util/retry

    The parts the program calls: [Backoff] and its [Step], [ExponentialBackoff]
    and [RetryOnConflict].  The closures Go passes to them capture variables
    they assign; a condition here takes and returns those variables, [X].

    Backoff.Factor is a float64 in Go; every literal of the program has an
    integral factor and durations below 2^53 ns, where the float product is
    exact, so it is an integer here.  Jitter is a rational. *)
From S2P Require Export World.
From Stdlib Require Import QArith.

Local Open Scope Z_scope.

Record Backoff := {
  bo_Duration : Duration;
  bo_Factor : Z;
  bo_Jitter : Q;
  bo_Steps : Z;
  bo_Cap : Duration;
}.

(** errors.New("timed out waiting for the condition") wrapped once. *)
Definition ErrWaitTimeout : error :=
  EInterrupted (Some (Errorf "timed out waiting for the condition")).

(** err == wait.ErrWaitTimeout *)
Definition is_ErrWaitTimeout (e : error) : bool :=
  match e with
  | EInterrupted (Some (EOther _ msg None None)) =>
      bool_decide (msg = "timed out waiting for the condition")
  | _ => false
  end.

(** The most Jitter(duration, maxFactor) adds. *)
Definition jitter_bound (duration : Duration) (maxFactor : Q) : Z :=
  duration * Qnum maxFactor / Zpos (Qden maxFactor).

Section wait.
Context {C : Type} `{Runtime C}.
Abbreviation Eff := (M (World C)).

Definition Jitter (duration : Duration) (maxFactor : Q) : Eff Duration :=
  let maxFactor := if Qle_bool maxFactor 0 then 1%Q else maxFactor in
  extra ← silent (rand_upto (jitter_bound duration maxFactor));
  mret (duration + extra).

Definition positive_jitter (jitter : Q) : bool := negb (Qle_bool jitter 0).

(** delay: the time to sleep, the next duration, the next steps. *)
Definition delay (steps : Z) (duration cap : Duration) (factor : Z) (jitter : Q) :
    Eff (Duration * Duration * Z) :=
  if steps <? 1 then
    if positive_jitter jitter then
      d ← Jitter duration jitter;
      mret (d, duration, 0)
    else mret (duration, duration, 0)
  else
    let steps := steps - 1 in
    let '(next, steps) :=
      if negb (factor =? 0) then
        let next := duration * factor in
        if (0 <? cap) && (cap <? next) then (cap, 0) else (next, steps)
      else (duration, steps) in
    d ← (if positive_jitter jitter then Jitter duration jitter else mret duration);
    mret (d, next, steps).

(** Backoff.Step on a backoff held in a local variable. *)
Definition Step (b : Backoff) : Eff (Duration * Backoff) :=
  '(d, next, steps) ← delay (bo_Steps b) (bo_Duration b) (bo_Cap b) (bo_Factor b) (bo_Jitter b);
  mret (d, {| bo_Duration := next; bo_Factor := bo_Factor b; bo_Jitter := bo_Jitter b;
              bo_Steps := steps; bo_Cap := bo_Cap b |}).

(** A ConditionFunc with the variables it captures. *)
Definition Condition (X : Type) := X → Eff (bool * option error * X).

Fixpoint backoff_loop {X} (fuel : nat) (b : Backoff) (condition : Condition X) (x : X) :
    Eff (option error * X) :=
  if 0 <? bo_Steps b then
    match fuel with
    | O => λ _, None
    | Datatypes.S fuel =>
        '(ok, err, x) ← condition x;
        match err with
        | Some e => mret (Some e, x)
        | None =>
            if (ok : bool) then mret (None, x)
            else if bo_Steps b =? 1 then mret (Some ErrWaitTimeout, x)
            else
              '(d, b) ← Step b;
              Sleep d ;;
              backoff_loop fuel b condition x
        end
    end
  else mret (Some ErrWaitTimeout, x).

(** Every Step lowers a positive Steps, so as many rounds as steps do. *)
Definition ExponentialBackoff {X} (b : Backoff) (condition : Condition X) (x : X) :
    Eff (option error * X) :=
  backoff_loop (Z.to_nat (bo_Steps b)) b condition x.

(** retry.OnError: the last retriable error is what a timeout turns into. *)
Definition OnError (b : Backoff) (retriable : error → bool) (fn : Eff (option error)) :
    Eff (option error) :=
  '(err, lastErr) ← ExponentialBackoff b (λ lastErr : option error,
    err ← fn;
    match err with
    | None => mret (true, None, lastErr)
    | Some e => if retriable e then mret (false, None, Some e) else mret (false, Some e, lastErr)
    end) None;
  mret (if on_error is_ErrWaitTimeout err then lastErr else err).

Definition DefaultRetry : Backoff :=
  {| bo_Steps := 5; bo_Duration := 10 * Millisecond; bo_Factor := 1;
     bo_Jitter := 1 # 10; bo_Cap := 0 |}.

Definition RetryOnConflict (b : Backoff) (fn : Eff (option error)) : Eff (option error) :=
  OnError b IsConflict fn.

(** ** The random source only changes the cluster state, never the rest *)

Lemma Jitter_run d f w : 0 ≤ d → ∃ extra s',
  Jitter d f w = Some (d + extra, add_events [] s' w) ∧
  0 ≤ extra ≤ jitter_bound d (if Qle_bool f 0 then 1%Q else f).
Proof.
  intros Hd. unfold Jitter. set (g := if Qle_bool f 0 then 1%Q else f).
  exists (rand_upto (jitter_bound d g) (ext w)).1,
         (rand_upto (jitter_bound d g) (ext w)).2.
  erewrite bind_step by apply silent_Some. split; [done|].
  apply rand_upto_bound. unfold jitter_bound.
  apply Z.div_pos; [|lia]. apply Z.mul_nonneg_nonneg; [done|].
  subst g. destruct (Qle_bool f 0) eqn:E; [done|].
  assert (¬ (f <= 0)%Q) as Hn by (rewrite <- Qle_bool_iff; congruence).
  unfold Qle in Hn. simpl in Hn. lia.
Qed.

(** One step of a backoff with steps left and no cap: the length slept is
    the current duration plus jitter, the duration is multiplied, the steps
    go down by one. *)
Lemma Step_run b w :
  1 ≤ bo_Steps b → 0 ≤ bo_Duration b → bo_Cap b = 0 → bo_Factor b ≠ 0 →
  positive_jitter (bo_Jitter b) = true →
  ∃ extra s',
    Step b w = Some ((bo_Duration b + extra,
      {| bo_Duration := bo_Duration b * bo_Factor b; bo_Factor := bo_Factor b;
         bo_Jitter := bo_Jitter b; bo_Steps := bo_Steps b - 1; bo_Cap := bo_Cap b |}),
      add_events [] s' w) ∧
    0 ≤ extra ≤ jitter_bound (bo_Duration b) (bo_Jitter b).
Proof.
  intros Hs Hd Hcap Hf Hj.
  destruct (Jitter_run (bo_Duration b) (bo_Jitter b) w Hd) as (extra & s' & Hrun & Hb).
  exists extra, s'. unfold positive_jitter in Hj. apply negb_true_iff in Hj.
  rewrite Hj in Hb. split; [|done].
  assert (delay (bo_Steps b) (bo_Duration b) (bo_Cap b) (bo_Factor b) (bo_Jitter b) w =
    Some (bo_Duration b + extra, bo_Duration b * bo_Factor b, bo_Steps b - 1,
          add_events [] s' w)) as Hdelay.
  { unfold delay. destruct (Z.ltb_spec (bo_Steps b) 1); [lia|].
    rewrite Hcap. simpl. destruct (Z.eqb_spec (bo_Factor b) 0); [done|].
    simpl. unfold positive_jitter. rewrite Hj. simpl.
    by erewrite bind_step by exact Hrun. }
  unfold Step. by erewrite bind_step by exact Hdelay.
Qed.

(** The backoffs of the program: no cap, a positive factor and jitter. *)
Definition plain_backoff (b : Backoff) : Prop :=
  0 ≤ bo_Duration b ∧ bo_Cap b = 0 ∧ 0 < bo_Factor b ∧
  positive_jitter (bo_Jitter b) = true.

Definition next_backoff (b : Backoff) : Backoff :=
  {| bo_Duration := bo_Duration b * bo_Factor b; bo_Factor := bo_Factor b;
     bo_Jitter := bo_Jitter b; bo_Steps := bo_Steps b - 1; bo_Cap := bo_Cap b |}.

Lemma plain_next_backoff b : plain_backoff b → plain_backoff (next_backoff b).
Proof. unfold plain_backoff. simpl. intuition lia. Qed.

(** What a condition must achieve when the backoff is [b]: an end that
    satisfies [Q], or the invariant again for the next round. *)
Definition round {X} (I : Backoff → X → World C → Prop)
    (Q : option error → X → World C → Prop) (b : Backoff)
    (r : bool * option error * X) (w : World C) : Prop :=
  let '(ok, err, x) := r in
  match err with
  | Some e => Q (Some e) x w
  | None =>
      if (ok : bool) then Q None x w
      else if bo_Steps b =? 1 then Q (Some ErrWaitTimeout) x w
      else ∀ extra s', 0 ≤ extra ≤ jitter_bound (bo_Duration b) (bo_Jitter b) →
        I (next_backoff b) x (add_events [Slept (bo_Duration b + extra)] s' w)
  end.

Lemma wp_backoff_loop {X} (condition : Condition X) I Q fuel b x w :
  (Z.to_nat (bo_Steps b) <= fuel)%nat → 1 ≤ bo_Steps b → plain_backoff b →
  I b x w →
  (∀ b x w, plain_backoff b → 1 ≤ bo_Steps b → I b x w →
    wp (condition x) (round I Q b) w) →
  wp (backoff_loop fuel b condition x) (λ r w, Q r.1 r.2 w) w.
Proof.
  intros Hfuel Hs Hp HI Hc. revert b x w Hfuel Hs Hp HI.
  induction fuel as [|fuel IH]; intros b x w Hfuel Hs Hp HI; [lia|].
  cbn [backoff_loop]. destruct (Z.ltb_spec 0 (bo_Steps b)); [|lia].
  apply wp_bind. eapply wp_conseq; [by apply Hc|].
  intros [[ok [e|]] x'] w'; simpl; [by intros HQ; apply wp_ret|].
  destruct ok; [by intros HQ; apply wp_ret|].
  destruct (Z.eqb_spec (bo_Steps b) 1); [by intros HQ; apply wp_ret|].
  intros Hround. destruct Hp as (Hd & Hcap & Hf & Hj).
  destruct (Step_run b w') as (extra & s' & Hstep & Hextra); [lia|done|done|lia|done|].
  apply wp_bind. do 2 eexists. split; [exact Hstep|]. simpl.
  apply wp_bind, wp_Sleep. rewrite add_events_add_events. simpl.
  apply IH; simpl; [lia|lia|by apply plain_next_backoff|by apply Hround].
Qed.

Lemma wp_ExponentialBackoff {X} (condition : Condition X) I Q b x w :
  1 ≤ bo_Steps b → plain_backoff b → I b x w →
  (∀ b x w, plain_backoff b → 1 ≤ bo_Steps b → I b x w →
    wp (condition x) (round I Q b) w) →
  wp (ExponentialBackoff b condition x) (λ r w, Q r.1 r.2 w) w.
Proof. intros. by apply wp_backoff_loop with I. Qed.

(** ** Retrying a condition that never fails hard

    The events of a retry loop whose condition, in one round, sends [evs] with
    [B evs ok]. *)
Inductive retries (B : list event → bool → Prop) : nat → list event → option error → Prop :=
  | retries_done n evs : B evs true → retries B (Datatypes.S n) evs None
  | retries_last evs : B evs false → retries B 1 evs (Some ErrWaitTimeout)
  | retries_more n evs d evs' err :
      B evs false → retries B (Datatypes.S n) evs' err →
      retries B (Datatypes.S (Datatypes.S n)) (evs ++ Slept d :: evs') err.

Definition soft {X} (B : list event → bool → Prop) (condition : Condition X) : Prop :=
  ∀ x w, wp (condition x)
    (λ r w', ∃ evs, w' = add_events evs (ext w') w ∧ r.1.2 = None ∧ B evs r.1.1) w.

Lemma retries_loop {X} B (condition : Condition X) fuel b x w :
  soft B condition → plain_backoff b → bo_Steps b = Z.of_nat (Datatypes.S fuel) →
  wp (backoff_loop (Datatypes.S fuel) b condition x)
     (λ r w', ∃ evs, w' = add_events evs (ext w') w ∧ retries B (Datatypes.S fuel) evs r.1) w.
Proof.
  intros Hc. revert b x w. induction fuel as [|fuel IH]; intros b x w Hp Hs;
    cbn [backoff_loop]; (destruct (Z.ltb_spec 0 (bo_Steps b)); [|lia]);
    apply wp_bind; (eapply wp_conseq; [apply Hc|]);
    intros [[ok [e|]] x'] w1 (evs & E & [=] & HB); simpl in *; destruct ok.
  - apply wp_ret. exists evs. split; [done|by constructor].
  - destruct (Z.eqb_spec (bo_Steps b) 1); [|lia]. apply wp_ret.
    exists evs. split; [done|by constructor].
  - apply wp_ret. exists evs. split; [done|by constructor].
  - destruct (Z.eqb_spec (bo_Steps b) 1); [lia|]. destruct Hp as (Hd & Hcap & Hf & Hj).
    destruct (Step_run b w1) as (extra & s' & Hstep & _); [lia|done|done|lia|done|].
    apply wp_bind. do 2 eexists. split; [exact Hstep|]. simpl. apply wp_bind, wp_Sleep.
    rewrite add_events_add_events. eapply wp_conseq.
    + apply (IH (next_backoff b)); [by apply plain_next_backoff|simpl; lia].
    + intros [err x2] w2 (evs' & E' & Hr). simpl in *.
      exists (evs ++ Slept (bo_Duration b + extra) :: evs'). split; [|by constructor].
      rewrite E' at 1. rewrite E. by rewrite !add_events_add_events, <- ?app_assoc.
Qed.

Lemma retries_run {X} B (condition : Condition X) n b x w :
  soft B condition → plain_backoff b → bo_Steps b = Z.of_nat (Datatypes.S n) →
  wp (ExponentialBackoff b condition x)
     (λ r w', ∃ evs, w' = add_events evs (ext w') w ∧ retries B (Datatypes.S n) evs r.1) w.
Proof.
  intros Hc Hp Hs. unfold ExponentialBackoff. rewrite Hs, Nat2Z.id. by apply retries_loop.
Qed.

(** The events of a retry loop are blocks of its condition and sleeps. *)
Lemma retries_blocks B n evs err :
  retries B n evs err →
  ∃ blocks, evs = concat blocks ∧
    Forall (λ b, (∃ ok, B b ok) ∨ ∃ d, b = [Slept d]) blocks.
Proof.
  induction 1 as [n evs HB|evs HB|n evs d evs' err HB _ (blocks & -> & HF)].
  - exists [evs]. simpl. rewrite app_nil_r. split; [done|]. apply Forall_singleton. eauto.
  - exists [evs]. simpl. rewrite app_nil_r. split; [done|]. apply Forall_singleton. eauto.
  - exists (evs :: [Slept d] :: blocks). split; [done|].
    apply Forall_cons. split; [eauto|]. apply Forall_cons. eauto.
Qed.

(** A retry loop that reports nil ends with an accepted round. *)
Lemma retries_success B n evs :
  retries B n evs None → ∃ pre last, evs = pre ++ last ∧ B last true.
Proof.
  intros Hr. remember None as err eqn:E. induction Hr as [n evs HB| |n evs d evs' err HB _ IH]; [|done|].
  - by exists [], evs.
  - destruct (IH E) as (pre & last & -> & HB'). exists (evs ++ Slept d :: pre), last.
    by rewrite <- app_assoc.
Qed.

(** Not a single attempt when there are no steps. *)
Lemma ExponentialBackoff_no_steps {X} (condition : Condition X) b x w :
  bo_Steps b ≤ 0 → ExponentialBackoff b condition x w = Some (Some ErrWaitTimeout, x, w).
Proof.
  intros Hs. unfold ExponentialBackoff. rewrite Z2Nat.nonpos by done. simpl.
  destruct (Z.ltb_spec 0 (bo_Steps b)); [lia|done].
Qed.

Lemma total_ExponentialBackoff {X} (condition : Condition X) b x :
  plain_backoff b → (∀ x, total (condition x)) → total (ExponentialBackoff b condition x).
Proof.
  intros Hp Hc w. destruct (Z.leb_spec 1 (bo_Steps b)) as [Hs|Hs].
  - eapply wp_total, (wp_ExponentialBackoff _ (λ _ _ _, True) (λ _ _ _, True)); [done..|].
    intros b' x' w' _ _ _. apply wp_intro; [apply Hc|].
    intros [[[] []] ?] w2 _; simpl; try done. by case_match.
  - rewrite ExponentialBackoff_no_steps by lia. done.
Qed.

(** The loop sends what its condition sends, and sleeps. *)
Lemma emits_Step B b : emits B (Step b : Eff _).
Proof.
  unfold Step. apply emits_bind; [|intros [[] ?]; apply emits_ret].
  unfold delay. assert (∀ d f, emits B (Jitter d f : Eff _)) as HJ.
  { intros d f. apply emits_bind; [apply emits_silent|]. intros; apply emits_ret. }
  destruct (bo_Steps b <? 1).
  - destruct (positive_jitter _); [|apply emits_ret].
    apply emits_bind; [apply HJ|]. intros; apply emits_ret.
  - case_match. apply emits_bind; [|intros; apply emits_ret].
    destruct (positive_jitter _); [apply HJ|apply emits_ret].
Qed.

Lemma emits_ExponentialBackoff {X} (B : list event → Prop) (condition : Condition X) b x :
  (∀ d, B [Slept d]) → (∀ x, emits B (condition x)) →
  emits B (ExponentialBackoff b condition x).
Proof.
  intros Hs Hc. unfold ExponentialBackoff. generalize (Z.to_nat (bo_Steps b)) as fuel.
  intros fuel. revert b x. induction fuel as [|fuel IH]; intros b x; cbn [backoff_loop];
    destruct (0 <? bo_Steps b); try apply emits_ret; [by intros w ? ?|].
  apply emits_bind; [apply Hc|]. intros [[ok [e|]] x']; [apply emits_ret|].
  destruct ok; [apply emits_ret|]. destruct (bo_Steps b =? 1); [apply emits_ret|].
  apply emits_bind; [apply emits_Step|]. intros [d b'].
  apply emits_bind; [by apply emits_Sleep|]. intros []. apply IH.
Qed.

Lemma emits_RetryOnConflict (B : list event → Prop) b (fn : Eff _) :
  (∀ d, B [Slept d]) → emits B fn → emits B (RetryOnConflict b fn).
Proof.
  intros Hs Hfn. apply emits_bind; [|intros []; apply emits_ret].
  apply emits_ExponentialBackoff; [done|]. intros x. apply emits_bind; [done|].
  intros [e|]; [|apply emits_ret]. case_match; apply emits_ret.
Qed.

(** The loop does not look at what was reported. *)
Lemma related_Step b : related eq (Step b : Eff _) (Step b).
Proof.
  assert (∀ d f, related eq (Jitter d f : Eff _) (Jitter d f)) as HJ.
  { intros d f. unfold Jitter. auto 10 with related. }
  unfold Step, delay. apply related_bind_eq; [|intros [[] ?]; by apply related_ret].
  destruct (bo_Steps b <? 1); [|case_match]; destruct (positive_jitter _);
    repeat (apply related_bind_eq; [|intros ?]); auto with related.
Qed.

Lemma related_ExponentialBackoff {X} (condition : Condition X) b x :
  (∀ x, related eq (condition x) (condition x)) →
  related eq (ExponentialBackoff b condition x) (ExponentialBackoff b condition x).
Proof.
  intros Hc. unfold ExponentialBackoff. generalize (Z.to_nat (bo_Steps b)) as fuel.
  intros fuel. revert b x. induction fuel as [|fuel IH]; intros b x; cbn [backoff_loop];
    destruct (0 <? bo_Steps b); auto with related; [by intros w1 w2 _; constructor|].
  apply related_bind_eq; [done|]. intros [[ok [e|]] x']; [by apply related_ret|].
  destruct ok; [by apply related_ret|]. destruct (bo_Steps b =? 1); [by apply related_ret|].
  apply related_bind_eq; [apply related_Step|]. intros [d b'].
  apply related_bind_eq; [apply related_emit|]. intros []. apply IH.
Qed.

Lemma related_RetryOnConflict b (fn : Eff _) :
  related eq fn fn → related eq (RetryOnConflict b fn) (RetryOnConflict b fn).
Proof.
  intros Hfn. unfold RetryOnConflict, OnError.
  apply related_bind_eq; [|intros []; by apply related_ret].
  apply related_ExponentialBackoff. intros x. apply related_bind_eq; [done|].
  intros [e|]; [case_match|]; by apply related_ret.
Qed.

Lemma plain_DefaultRetry : plain_backoff DefaultRetry.
Proof. by unfold plain_backoff. Qed.

Lemma total_RetryOnConflict fn : total fn → total (RetryOnConflict DefaultRetry fn).
Proof.
  intros Hfn. apply total_bind.
  - apply total_ExponentialBackoff; [apply plain_DefaultRetry|].
    intros x. apply total_bind; [done|]. intros [e|]; [|apply total_ret].
    destruct (IsConflict e); apply total_ret.
  - intros [err lastErr]. apply total_ret.
Qed.
End wait.

#[export] Hint Resolve total_RetryOnConflict plain_DefaultRetry : go.

