(* ===== verification/Migrator.v ===== *)
(** * The core migrator: src/pkg/migrator

    errors.go ([interpret], [canRetry]), progress.go ([progressTracker]) and
    core.go: [try_], [migrateOneItem], the list loop of [Run].  [migrateList]
    here is what one worker does, which is the concurrency [NewMigrator]
    configures; MigrateList.v models its goroutines and channels and proves
    that they compute this function.

    The loops of migrateOneItem and Run have no bound in Go; they take fuel,
    and a computation whose fuel runs out has no result. *)
From S2P Require Export Wait.

Local Open Scope Z_scope.
Import unstructured v1alpha1.

(** ** errors.go *)

Definition isConnectionRefusedError (e : error) : bool :=
  contains (Error e) "connection refused".

Definition interpret (err : option error) : option error :=
  match err with
  | None => None
  | Some e =>
      if IsNotFound e then None
      else if IsMethodNotSupported e then Some (ENotRetriable e)
      else if IsConflict e then Some (ERetriable e)
      else if IsServerTimeout e then Some (ERetriable e)
      else if IsTooManyRequests e then Some (ERetriable e)
      else if IsProbableEOF e then Some (ERetriable e)
      else if IsConnectionReset e then Some (ERetriable e)
      else if IsNoRoutesError e then Some (ERetriable e)
      else if isConnectionRefusedError e then Some (ERetriable e)
      else Some e
  end.

Definition canRetry (err : option error) : bool :=
  match interpret err with
  | Some e =>
      match Temporary e with
      | Some false => false
      | _ => true
      end
  | None => true
  end.

Definition inconsistentContinueToken (e : error) : res string :=
  match e with
  | EStatus status =>
      if bool_decide (Status_Continue status = "")
      then Err (Errorf "expected non empty continue token")
      else Ok (Status_Continue status)
  | _ => Err (Errorf ("expected error to implement the APIStatus interface, got " +:+ TypeOf e))
  end.

Definition defaultChunkLimit : Z := 500.
Definition defaultConcurrency : nat := 1.

Section migrator.
Context {C : Type} `{Runtime C} `{DynamicInterface C} `{StorageVersionMigrationInterface C}.
Abbreviation Eff := (M (World C)).

(** ** progress.go *)

Record progressInterface := {
  save : string → Eff (option error);
  load : Eff (res string);
}.

Definition get_migration (name : string) : Eff (res StorageVersionMigration) :=
  call (svm_Get name) (SVMGet name).

Definition update_migration (m : StorageVersionMigration) : Eff (res StorageVersionMigration) :=
  call (svm_Update m) (λ r, SVMUpdate m (res_error r)).

(** One attempt of progressTracker.save. *)
Definition save_attempt (name continueToken : string) : Eff (option error) :=
  r ← get_migration name;
  match r with
  | Err e => mret (Some e)
  | Ok migration =>
      r ← update_migration (with_ContinueToken continueToken migration);
      mret (res_error r)
  end.

Definition progressTracker_save (name continueToken : string) : Eff (option error) :=
  RetryOnConflict DefaultRetry (save_attempt name continueToken).

Definition progressTracker_load (name : string) : Eff (res string) :=
  r ← get_migration name;
  mret match r with
       | Err e => Err e
       | Ok migration => Ok (ContinueToken (svm_Spec migration))
       end.

Definition NewProgressTracker (name : string) : progressInterface :=
  {| save := progressTracker_save name; load := progressTracker_load name |}.

(** ** core.go *)

Record migrator := {
  resource : schema.GroupVersionResource;
  progress : progressInterface;
  concurrency : nat;
}.

Definition NewMigrator (r : schema.GroupVersionResource) (p : progressInterface) : migrator :=
  {| resource := r; progress := p; concurrency := defaultConcurrency |}.

Definition get (m : migrator) (namespace name : string) : Eff (res Unstructured) :=
  call (dyn_Get (resource m) namespace name) (DynGet (resource m) namespace name).

Definition put (m : migrator) (namespace : string) (obj : Unstructured) : Eff (res Unstructured) :=
  call (dyn_Update (resource m) namespace obj)
       (λ r, DynUpdate (resource m) namespace obj (res_error r)).

Definition list_ (m : migrator) (options : metav1.ListOptions) : Eff (res UnstructuredList) :=
  call (dyn_List (resource m) options) (DynList (resource m) options).

(** The PUT half of try. *)
Definition try_put (m : migrator) (namespace : string) (item : Unstructured) :
    Eff (bool * option error) :=
  r ← put m namespace item;
  mret match r with
       | Ok _ => (false, None)
       | Err e => (IsConflict e, Some e)
       end.

Definition try_ (m : migrator) (namespace name : string) (item : Unstructured) (get_ : bool) :
    Eff (bool * option error) :=
  if get_ then
    r ← get m namespace name;
    match r with
    | Err e => mret (true, Some e)
    | Ok item => try_put m namespace item
    end
  else try_put m namespace item.

(** time.Sleep when the error suggests a delay. *)
Definition client_delay (e : error) : Eff unit :=
  match SuggestsClientDelay e with
  | Some seconds => Sleep (seconds_Duration seconds)
  | None => mret tt
  end.

Fixpoint migrate_loop (fuel : nat) (m : migrator) (namespace name : string)
    (item : Unstructured) (getBeforePut : bool) : Eff (option error) :=
  match fuel with
  | O => λ _, None
  | Datatypes.S fuel =>
      '(getBeforePut, err) ← try_ m namespace name item getBeforePut;
      match err with
      | None => mret None
      | Some e =>
          if IsNotFound e then mret None
          else if canRetry (Some e) then
            client_delay e ;;
            migrate_loop fuel m namespace name item getBeforePut
          else mret (Some e)
      end
  end.

Definition migrateOneItem (fuel : nat) (m : migrator) (item : Unstructured) : Eff (option error) :=
  match accessor_Namespace item with
  | Err e => mret (Some e)
  | Ok namespace =>
      match accessor_Name item with
      | Err e => mret (Some e)
      | Ok name => migrate_loop fuel m namespace name item false
      end
  end.

(** What a single worker sends on errc for the items it receives. *)
Fixpoint worker (fuel : nat) (m : migrator) (items : list Unstructured) :
    Eff (list error) :=
  match items with
  | [] => mret []
  | item :: items =>
      err ← migrateOneItem fuel m item;
      errs ← worker fuel m items;
      mret match err with
           | Some e => e :: errs
           | None => errs
           end
  end.

Definition migrateList (fuel : nat) (m : migrator) (l : UnstructuredList) : Eff (option error) :=
  errors ← worker fuel m (List_Items l);
  mret (NewAggregate (Some <$> errors)).

(** The body of the for loop of Run; [again token] is the next iteration. *)
Definition run_iteration (fuel : nat) (m : migrator) (again : string → Eff (option error))
    (continueToken : string) : Eff (option error) :=
  r ← list_ m {| metav1.Limit := defaultChunkLimit; metav1.Continue := continueToken |};
  match r with
  | Err listError =>
      if IsNotFound listError then
        mret (Some (Errorf ("failed to list resources: " +:+ Error listError)))
      else if negb (IsResourceExpired listError) then
        if canRetry (Some listError) then
          client_delay listError ;;
          again continueToken
        else mret (Some listError)
      else
        match inconsistentContinueToken listError with
        | Err e => mret (Some e)
        | Ok token =>
            err ← save (progress m) token;
            HandleError err ;;
            again token
        end
  | Ok l =>
      err ← migrateList fuel m l;
      match err with
      | Some e => mret (Some e)
      | None =>
          match accessor_Continue l with
          | Err e => mret (Some e)
          | Ok token =>
              observe (ObserveObjectsMigrated (length (List_Items l))
                (schema.GroupVersionResource_String (resource m))) ;;
              if bool_decide (token = "") then mret None
              else
                err ← save (progress m) token;
                HandleError err ;;
                again token
          end
      end
  end.

Fixpoint run_loop (rounds fuel : nat) (m : migrator) (continueToken : string) : Eff (option error) :=
  match rounds with
  | O => λ _, None
  | Datatypes.S rounds => run_iteration fuel m (run_loop rounds fuel m) continueToken
  end.

Definition Run (rounds fuel : nat) (m : migrator) : Eff (option error) :=
  r ← load (progress m);
  match r with
  | Err e => mret (Some e)
  | Ok continueToken => run_loop rounds fuel m continueToken
  end.
End migrator.
