(* ===== verification/MigratorProps.v ===== *)
(** * Theorems about the core migrator (errors.go, progress.go, core.go) *)
From S2P Require Export Migrator Sim.

Local Open Scope Z_scope.
Import unstructured v1alpha1.

(** ** Classification of errors *)

(** The errors [interpret] marks as retriable. *)
Definition transient (e : error) : bool :=
  IsConflict e || IsServerTimeout e || IsTooManyRequests e || IsProbableEOF e
  || IsConnectionReset e || IsNoRoutesError e || isConnectionRefusedError e.

Lemma interpret_cases e :
  interpret (Some e) =
    if IsNotFound e then None
    else if IsMethodNotSupported e then Some (ENotRetriable e)
    else if transient e then Some (ERetriable e) else Some e.
Proof. unfold interpret, transient. by repeat case_match; simplify_eq/=. Qed.

Lemma canRetry_false e :
  canRetry (Some e) = false ↔
    IsNotFound e = false ∧
    (IsMethodNotSupported e = true ∨ (transient e = false ∧ Temporary e = Some false)).
Proof.
  unfold canRetry. rewrite interpret_cases.
  destruct (IsNotFound e); [naive_solver|].
  destruct (IsMethodNotSupported e); [naive_solver|].
  destruct (transient e); simpl; [naive_solver|].
  destruct (Temporary e) as [[]|]; naive_solver.
Qed.

(** [canRetry] gives up on an error exactly when the object is still there
    and either the server does not support the method, or nothing marks the
    error as transient and its own Temporary method answers false. *)
Theorem canRetry_gives_up_iff e :
  canRetry (Some e) = false ↔
    IsNotFound e = false ∧
    (IsMethodNotSupported e = true ∨ (transient e = false ∧ Temporary e = Some false)).
Proof. apply canRetry_false. Qed.

(** Of the errors an API server answers with, only "method not supported" is
    final: a Forbidden or an Invalid is retried. *)
Lemma canRetry_status s :
  canRetry (Some (EStatus s)) = negb (IsMethodNotSupported (EStatus s)).
Proof.
  destruct (IsMethodNotSupported (EStatus s)) eqn:Hm; simpl.
  - apply canRetry_false. split; [|by left].
    destruct (IsNotFound (EStatus s)) eqn:Hn; [|done].
    revert Hm. unfold IsMethodNotSupported.
    rewrite (has_reason_or_code_excl StatusReasonNotFound 404); try done;
      by apply (bool_decide_unpack _).
  - apply not_false_iff_true. rewrite canRetry_false. rewrite Hm. naive_solver.
Qed.

(** ** The life of one object *)

Section one_item.
Context {C : Type} `{Runtime C} `{DynamicInterface C} `{StorageVersionMigrationInterface C}.
Implicit Types (m : @migrator C) (w : World C) (item : Unstructured) (evs : list event).

(** The requests of one call of try, with what it returns. *)
Inductive attempt (r : schema.GroupVersionResource) (ns name : string) (item : Unstructured) :
    bool → list event → bool → option error → Prop :=
  | attempt_get_failed e :
      attempt r ns name item true [DynGet r ns name (Err e)] true (Some e)
  | attempt_get_put obj err :
      attempt r ns name item true
        [DynGet r ns name (Ok obj); DynUpdate r ns obj err] (on_error IsConflict err) err
  | attempt_put err :
      attempt r ns name item false [DynUpdate r ns item err] (on_error IsConflict err) err.

(** What is slept after a failed attempt. *)
Definition delay_events (e : error) : list event :=
  match SuggestsClientDelay e with
  | Some seconds => [Slept (seconds_Duration seconds)]
  | None => []
  end.

(** The requests of a whole migrateOneItem that returns [result]. *)
Inductive attempts (r : schema.GroupVersionResource) (ns name : string) (item : Unstructured) :
    bool → list event → option error → Prop :=
  | attempts_migrated g evs g' :
      attempt r ns name item g evs g' None →
      attempts r ns name item g evs None
  | attempts_gone g evs g' e :
      attempt r ns name item g evs g' (Some e) → IsNotFound e = true →
      attempts r ns name item g evs None
  | attempts_failed g evs g' e :
      attempt r ns name item g evs g' (Some e) → canRetry (Some e) = false →
      attempts r ns name item g evs (Some e)
  | attempts_again g evs g' e evs' result :
      attempt r ns name item g evs g' (Some e) → IsNotFound e = false →
      canRetry (Some e) = true →
      attempts r ns name item g' evs' result →
      attempts r ns name item g (evs ++ delay_events e ++ evs') result.

Lemma try_put_run m ns item w :
  let '(r, s') := dyn_Update (resource m) ns item (ext w) in
  try_put m ns item w = Some (on_error IsConflict (res_error r), res_error r,
    add_events [DynUpdate (resource m) ns item (res_error r)] s' w).
Proof.
  unfold try_put. destruct (dyn_Update (resource m) ns item (ext w)) as [r s'] eqn:E.
  erewrite bind_step by apply call_Some. rewrite E. by destruct r.
Qed.

Lemma try_run m ns name item g w g' err w' :
  try_ m ns name item g w = Some ((g', err), w') →
  ∃ evs, w' = add_events evs (ext w') w ∧ attempt (resource m) ns name item g evs g' err.
Proof.
  assert (∀ obj w1 g' err w',
    try_put m ns obj w1 = Some (g', err, w') →
    w' = add_events [DynUpdate (resource m) ns obj err] (ext w') w1 ∧
    g' = on_error IsConflict err) as Hput.
  { intros obj w1 g1 err1 w1'. pose proof (try_put_run m ns obj w1) as E.
    destruct (dyn_Update _ _ _ _) as [r s']. rewrite E. by intros [= <- <- <-]. }
  unfold try_. destruct g.
  - intros (r & w1 & E & E')%bind_Some. unfold get in E. rewrite call_Some in E.
    injection E as <- <-. destruct (dyn_Get _ _ _ _) as [[obj|e] s1]; simpl in E'.
    + apply Hput in E' as [-> ->]. eexists. split; [|constructor].
      simpl. by rewrite add_events_add_events.
    + injection E' as <- <- <-. eexists. split; [done|constructor].
  - intros [-> ->]%Hput. eexists. split; [done|constructor].
Qed.

Lemma client_delay_run e w :
  client_delay e w = Some (tt, add_events (delay_events e) (ext w) w).
Proof.
  unfold client_delay, delay_events. destruct (SuggestsClientDelay e); [done|].
  unfold add_events. rewrite app_nil_r. by destruct w.
Qed.

Lemma migrate_loop_run fuel m ns name item g w result w' :
  migrate_loop fuel m ns name item g w = Some (result, w') →
  ∃ evs, w' = add_events evs (ext w') w ∧ attempts (resource m) ns name item g evs result.
Proof.
  revert g w. induction fuel as [|fuel IH]; intros g w; [done|]. cbn [migrate_loop].
  intros ([g' err] & w1 & E & E')%bind_Some. apply try_run in E as (evs & E & Hatt).
  destruct err as [e|].
  - destruct (IsNotFound e) eqn:HN.
    { injection E' as <- <-. exists evs. split; [done|]. by eapply attempts_gone. }
    destruct (canRetry (Some e)) eqn:HR.
    + rewrite (bind_step _ _ _ _ _ (client_delay_run e w1)) in E'.
      apply IH in E' as (evs' & E' & Hrest).
      exists (evs ++ delay_events e ++ evs'). split; [|by eapply attempts_again].
      rewrite E', E. simpl. by rewrite !add_events_add_events, ?app_assoc.
    + injection E' as <- <-. exists evs. split; [done|]. by eapply attempts_failed.
  - injection E' as <- <-. exists evs. split; [done|]. by eapply attempts_migrated.
Qed.

Lemma migrateOneItem_run fuel m item w result w' :
  migrateOneItem fuel m item w = Some (result, w') →
  ∃ evs, w' = add_events evs (ext w') w ∧
    attempts (resource m) (GetNamespace item) (GetName item) item false evs result.
Proof. apply migrate_loop_run. Qed.

(** Every PUT of an attempt sends the listed object, or exactly what the GET
    just before it returned. *)
Lemma attempt_unmodified r ns name item g evs g' err pre r' ns' obj out post :
  attempt r ns name item g evs g' err →
  evs = pre ++ DynUpdate r' ns' obj out :: post →
  r' = r ∧ ns' = ns ∧
  ((obj = item ∧ g = false) ∨ ∃ pre', pre = pre' ++ [DynGet r ns name (Ok obj)]).
Proof.
  intros Hatt E. inversion Hatt; subst; clear Hatt.
  - by destruct pre as [|? [|? ?]].
  - destruct pre as [|? [|? pre]]; [done| |by destruct pre].
    simplify_eq/=. split_and!; [done..|]. right. by exists [].
  - destruct pre as [|? pre]; [|by destruct pre]. simplify_eq/=. naive_solver.
Qed.

Lemma delay_events_no_update e r ns obj out : DynUpdate r ns obj out ∉ delay_events e.
Proof. unfold delay_events. destruct (SuggestsClientDelay e); set_solver. Qed.

Lemma attempts_unmodified r ns name item g evs result pre r' ns' obj out post :
  attempts r ns name item g evs result →
  evs = pre ++ DynUpdate r' ns' obj out :: post →
  r' = r ∧ ns' = ns ∧
  (obj = item ∨ ∃ pre', pre = pre' ++ [DynGet r ns name (Ok obj)]).
Proof.
  intros Hatts. revert pre.
  induction Hatts as [g evs g' Hatt|g evs g' e Hatt|g evs g' e Hatt|g evs g' e evs' result Hatt _ _ _ IH];
    intros pre E.
  1-3: eapply attempt_unmodified in Hatt; [|exact E]; naive_solver.
  apply app_split_elem3 in E as [[k ->]|(k & -> & E)]; [| |apply delay_events_no_update].
  - eapply attempt_unmodified in Hatt; [|done]; naive_solver.
  - destruct (IH _ E) as (-> & -> & [->|[pre' ->]]); [by eauto|].
    split_and!; [done..|]. right. exists (evs ++ delay_events e ++ pre').
    by rewrite !app_assoc.
Qed.

(** The error a request of the dynamic client came back with. *)
Definition dyn_error (ev : event) : option error :=
  match ev with
  | DynGet _ _ _ out => res_error out
  | DynUpdate _ _ _ err => err
  | _ => None
  end.

(** A request after which try asks for a fresh copy: a conflicting PUT or a
    failed GET. *)
Definition asks_refresh (ev : event) : Prop :=
  match ev with
  | DynGet _ _ _ (Err _) => True
  | DynUpdate _ _ _ (Some e) => IsConflict e = true
  | _ => False
  end.

Lemma attempt_last r ns name item g evs g' err :
  attempt r ns name item g evs g' err →
  ∃ pre ev, evs = pre ++ [ev] ∧ dyn_error ev = err ∧
    (err = None → ∃ obj, ev = DynUpdate r ns obj None) ∧
    (∀ ev', ev' ∈ pre → dyn_error ev' = None) ∧ (g' = true → asks_refresh ev).
Proof.
  intros Hatt. inversion Hatt; subst; clear Hatt.
  - exists [], (DynGet r ns name (Err e)). naive_solver set_solver.
  - exists [DynGet r ns name (Ok obj)], (DynUpdate r ns obj err).
    split_and!; [done..|naive_solver|set_solver|by destruct err].
  - exists [], (DynUpdate r ns item err).
    split_and!; [done..|naive_solver|set_solver|by destruct err].
Qed.

Lemma attempts_last r ns name item g evs result :
  attempts r ns name item g evs result →
  ∃ pre ev, evs = pre ++ [ev] ∧
    match result with
    | None => (∃ obj, ev = DynUpdate r ns obj None) ∨
              ∃ e, dyn_error ev = Some e ∧ IsNotFound e = true
    | Some e => dyn_error ev = Some e ∧ canRetry (Some e) = false
    end ∧
    ∀ ev' e, ev' ∈ pre → dyn_error ev' = Some e →
      IsNotFound e = false ∧ canRetry (Some e) = true.
Proof.
  induction 1 as [g evs g' Hatt|g evs g' e Hatt HN|g evs g' e Hatt HR
    |g evs g' e evs' result Hatt HN HR Hrest IH];
    apply attempt_last in Hatt as (pre & ev & -> & Hev & Hnone & Hpre & _).
  - exists pre, ev. split_and!; [done|left; auto|naive_solver].
  - exists pre, ev. split_and!; [done|eauto|naive_solver].
  - exists pre, ev. split_and!; [done..|naive_solver].
  - destruct IH as (pre' & ev' & -> & Hlast & Hpre').
    exists ((pre ++ [ev]) ++ delay_events e ++ pre'), ev'.
    split_and!; [by rewrite <- !app_assoc|done|]. intros ev2 e2.
    rewrite !elem_of_app, list_elem_of_singleton. intros [[Hin| ->]|[Hin|Hin]] He2.
    + by rewrite (Hpre _ Hin) in He2.
    + by simplify_eq.
    + unfold delay_events in Hin. destruct (SuggestsClientDelay e); set_solver.
    + by eapply Hpre'.
Qed.

Lemma attempts_refresh r ns name item g evs result pre r' ns' name' out post :
  attempts r ns name item g evs result →
  evs = pre ++ DynGet r' ns' name' out :: post →
  (pre = [] ∧ g = true) ∨
  ∃ pre' ev sleeps, pre = pre' ++ ev :: sleeps ∧ asks_refresh ev ∧
    Forall (λ ev, is_sleep ev = true) sleeps.
Proof.
  assert (∀ g evs g' err pre post, attempt r ns name item g evs g' err →
    evs = pre ++ DynGet r' ns' name' out :: post → pre = [] ∧ g = true) as Hin.
  { intros ? ? ? ? pre2 post2 Hatt E. inversion Hatt; subst; clear Hatt.
    - by destruct pre2 as [|? []].
    - by destruct pre2 as [|? [|? []]].
    - by destruct pre2 as [|? []]. }
  intros Hatts. revert pre.
  induction Hatts as [g evs g' Hatt|g evs g' e Hatt|g evs g' e Hatt
    |g evs g' e evs' result Hatt _ _ _ IH]; intros pre E.
  1-3: by eapply Hin in Hatt; [left|done].
  apply app_split_elem3 in E as [[k ->]|(k & -> & E)].
  - by eapply Hin in Hatt; [left|done].
  - apply attempt_last in Hatt as (pre2 & ev2 & -> & _ & _ & _ & Href).
    destruct (IH _ E) as [[-> ->]|(pre' & ev & sl & -> & ? & ?)]; right.
    + exists pre2, ev2, (delay_events e). rewrite app_nil_r, <- app_assoc.
      split_and!; [done|auto|]. unfold delay_events.
      destruct (SuggestsClientDelay e); by repeat constructor.
    + exists ((pre2 ++ [ev2]) ++ delay_events e ++ pre'), ev, sl.
      by rewrite <- !app_assoc.
  - unfold delay_events. destruct (SuggestsClientDelay e); set_solver.
Qed.

(** ** Fuel *)

Lemma migrate_loop_fuel fuel m ns name item g :
  refines (migrate_loop fuel m ns name item g)
          (migrate_loop (Datatypes.S fuel) m ns name item g).
Proof.
  revert g. induction fuel as [|fuel IH]; intros g; [by intros w r|].
  remember (Datatypes.S fuel) as fuel1. cbn [migrate_loop]. subst fuel1. cbn [migrate_loop].
  apply refines_bind; [done|]. intros [g' [e|]]; [|done].
  destruct (IsNotFound e); [done|]. destruct (canRetry (Some e)); [|done].
  apply refines_bind; [done|]. intros []. apply IH.
Qed.

Lemma migrate_loop_fuel_le fuel fuel' m ns name item g :
  (fuel <= fuel')%nat →
  refines (migrate_loop fuel m ns name item g) (migrate_loop fuel' m ns name item g).
Proof.
  induction 1 as [|fuel' _ IH]; [done|].
  intros w r E. by apply migrate_loop_fuel, IH.
Qed.

(** ** Termination: a server that recovers *)

(** [rank] bounds how many more times the server may answer a request for
    this object with an error that is retried. *)
Record recovers (rank : C → nat) (m : @migrator C) (ns name : string) : Prop := {
  recovers_get : ∀ s out s', dyn_Get (resource m) ns name s = (out, s') →
    match out with
    | Err e => (rank s' < rank s)%nat ∨ IsNotFound e = true ∨ canRetry (Some e) = false
    | Ok _ => (rank s' <= rank s)%nat
    end;
  recovers_put : ∀ obj s out s', dyn_Update (resource m) ns obj s = (out, s') →
    match out with
    | Err e => (rank s' < rank s)%nat ∨ IsNotFound e = true ∨ canRetry (Some e) = false
    | Ok _ => True
    end;
}.

Lemma try_recovers rank m ns name item g w :
  recovers rank m ns name →
  wp (try_ m ns name item g)
     (λ r w', match r.2 with
              | Some e => (rank (ext w') < rank (ext w))%nat ∨ IsNotFound e = true ∨
                          canRetry (Some e) = false
              | None => True
              end) w.
Proof.
  intros [Hget Hput].
  assert (∀ obj w1, (rank (ext w1) <= rank (ext w))%nat → wp (try_put m ns obj)
     (λ r w', match r.2 with
              | Some e => (rank (ext w') < rank (ext w))%nat ∨ IsNotFound e = true ∨
                          canRetry (Some e) = false
              | None => True
              end) w1) as Htp.
  { intros obj w1 Hle. unfold try_put, put. do 2 wp_step.
    destruct (dyn_Update _ _ _ _) as [out s'] eqn:E. apply Hput in E.
    destruct out; wp_step; simpl; [done|]. destruct E; [left; lia|by right]. }
  unfold try_. destruct g; [|by apply Htp].
  unfold get. do 2 wp_step. destruct (dyn_Get _ _ _ _) as [out s'] eqn:E.
  apply Hget in E. destruct out; simpl; [by apply Htp|]. by wp_step.
Qed.

Lemma migrate_loop_terminates rank m ns name item :
  recovers rank m ns name →
  ∀ fuel g w, (rank (ext w) < fuel)%nat →
    is_Some (migrate_loop fuel m ns name item g w).
Proof.
  intros Hrec. induction fuel as [|fuel IH]; intros g w Hfuel; [lia|].
  cbn [migrate_loop].
  destruct (try_recovers rank m ns name item g w Hrec) as ([g' err] & w1 & E & HQ).
  rewrite (bind_step _ _ _ _ _ E). simpl in HQ.
  destruct err as [e|]; [|by eexists]. destruct (IsNotFound e); [by eexists|].
  destruct (canRetry (Some e)) eqn:HR; [|by eexists].
  rewrite (bind_step _ _ _ _ _ (client_delay_run e w1)). apply IH. simpl.
  destruct HQ as [?|[|]]; [lia|done|done].
Qed.

(** ** A server that never recovers *)

Lemma migrate_loop_stuck e m ns name item :
  IsNotFound e = false → canRetry (Some e) = true →
  (∀ s, (dyn_Get (resource m) ns name s).1 = Err e) →
  (∀ obj s, (dyn_Update (resource m) ns obj s).1 = Err e) →
  ∀ fuel g w, migrate_loop fuel m ns name item g w = None.
Proof.
  intros HN HR Hget Hput.
  assert (∀ g w, wp (try_ m ns name item g) (λ r _, r.2 = Some e) w) as Htry.
  { assert (∀ obj w, wp (try_put m ns obj) (λ r _, r.2 = Some e) w) as Htp.
    { intros obj w. unfold try_put, put. do 2 wp_step. rewrite Hput. by wp_step. }
    intros [] w; unfold try_; [|apply Htp].
    unfold get. do 2 wp_step. rewrite Hget. by wp_step. }
  induction fuel as [|fuel IH]; intros g w; [done|]. cbn [migrate_loop].
  destruct (Htry g w) as ([g' err] & w1 & E & Herr). simpl in Herr. subst err.
  rewrite (bind_step _ _ _ _ _ E), HN, HR.
  rewrite (bind_step _ _ _ _ _ (client_delay_run e w1)). apply IH.
Qed.
End one_item.

Section object_claims.
Context {C : Type} `{Runtime C} `{DynamicInterface C} `{StorageVersionMigrationInterface C}.
Implicit Types (m : @migrator C) (w : World C).

(** C15. Objects are written back without modification: every PUT that
    migrating an object sends goes to the migrator's resource and the object's
    namespace, and its body is the object as it was listed, or exactly what
    the GET right before it returned.  The first request is a PUT of the listed
    object. *)
Theorem migrateOneItem_unmodified fuel m item w result w' :
  migrateOneItem fuel m item w = Some (result, w') →
  ∃ evs, trace w' = trace w ++ evs ∧
    (∃ err rest, evs = DynUpdate (resource m) (GetNamespace item) item err :: rest) ∧
    ∀ pre r ns obj err post, evs = pre ++ DynUpdate r ns obj err :: post →
      r = resource m ∧ ns = GetNamespace item ∧
      (obj = item ∨
       ∃ pre', pre = pre' ++ [DynGet (resource m) ns (GetName item) (Ok obj)]).
Proof.
  intros (evs & E & Hatts)%migrateOneItem_run. exists evs. split_and!.
  - by rewrite E.
  - inversion Hatts as [??? Ha|???? Ha|???? Ha|?????? Ha]; subst; inversion Ha; subst; eauto.
  - intros pre r ns obj err post Hsplit.
    eapply attempts_unmodified in Hatts; [|exact Hsplit]. naive_solver.
Qed.

(** C8. What migrating an object reports is decided by its last request:
    nil when that was a successful PUT or met an object that is gone, and the
    error of that request when canRetry gave up on it; every earlier failure
    was one the migrator retried. *)
Theorem migrateOneItem_outcome fuel m item w result w' :
  migrateOneItem fuel m item w = Some (result, w') →
  ∃ pre last, trace w' = trace w ++ pre ++ [last] ∧
    match result with
    | None => (∃ obj, last = DynUpdate (resource m) (GetNamespace item) obj None) ∨
              ∃ e, dyn_error last = Some e ∧ IsNotFound e = true
    | Some e => dyn_error last = Some e ∧ canRetry (Some e) = false
    end ∧
    ∀ ev e, ev ∈ pre → dyn_error ev = Some e →
      IsNotFound e = false ∧ canRetry (Some e) = true.
Proof.
  intros (evs & E & (pre & last & -> & Hlast)%attempts_last)%migrateOneItem_run.
  exists pre, last. split; [by rewrite E|]. exact Hlast.
Qed.

(** The migrator fetches a fresh copy of an object only when the request
    before (sleeps aside) was a PUT refused for a conflict or a GET that
    failed. *)
Theorem migrateOneItem_gets_after_conflict fuel m item w result w' :
  migrateOneItem fuel m item w = Some (result, w') →
  ∃ evs, trace w' = trace w ++ evs ∧
    ∀ pre r ns name out post, evs = pre ++ DynGet r ns name out :: post →
      ∃ pre' ev sleeps, pre = pre' ++ ev :: sleeps ∧ asks_refresh ev ∧
        Forall (λ ev, is_sleep ev = true) sleeps.
Proof.
  intros (evs & E & Hatts)%migrateOneItem_run. exists evs. split; [by rewrite E|].
  intros pre r ns name out post Hsplit.
  eapply attempts_refresh in Hatts; [|exact Hsplit]. naive_solver.
Qed.

(** Migrating an object ends: if each retriable answer of the server for
    the object lowers some rank of the cluster state, and successful GETs do
    not raise it, more fuel than the rank gives the result. *)
Theorem migrateOneItem_terminates rank fuel m item w :
  recovers rank m (GetNamespace item) (GetName item) →
  (rank (ext w) < fuel)%nat →
  is_Some (migrateOneItem fuel m item w).
Proof. intros. by apply migrate_loop_terminates with rank. Qed.

(** C23. The retry loop of migrateOneItem has no bound of its own: as long as
    the server answers with an error that is neither "not found" nor final for
    canRetry (say Forbidden), the call does not return, whatever the fuel. *)
Theorem migrateOneItem_never_gives_up e m item w :
  IsNotFound e = false → canRetry (Some e) = true →
  (∀ s, (dyn_Get (resource m) (GetNamespace item) (GetName item) s).1 = Err e) →
  (∀ obj s, (dyn_Update (resource m) (GetNamespace item) obj s).1 = Err e) →
  ∀ fuel, migrateOneItem fuel m item w = None.
Proof. intros HN HR Hget Hput fuel. by apply migrate_loop_stuck with e. Qed.
End object_claims.

(** ** Witnesses *)

Definition pod_migrator : @migrator cluster :=
  NewMigrator pods (NewProgressTracker "pods-1").

(** A server that answers the first PUT with a conflict, the GET that follows
    with a server timeout, and everything after that well. *)
Definition bumpy : World cluster :=
  start (set_scripts [Some (server_timeout 3)] [Some conflict] [] empty_cluster).

Definition bumpy_run :=
  Eval vm_compute in
    from_option fst None (migrateOneItem 3 pod_migrator (object "ns" "a") bumpy).
Definition bumpy_end : World cluster :=
  Eval vm_compute in
    from_option snd bumpy (migrateOneItem 3 pod_migrator (object "ns" "a") bumpy).

Lemma bumpy_run_eq :
  migrateOneItem 3 pod_migrator (object "ns" "a") bumpy = Some (bumpy_run, bumpy_end).
Proof. vm_compute. reflexivity. Qed.

Lemma migrateOneItem_unmodified_witness :
  migrateOneItem 3 pod_migrator (object "ns" "a") bumpy = Some (bumpy_run, bumpy_end) ∧
  ∃ evs, trace bumpy_end = trace bumpy ++ evs ∧
    (∃ err rest, evs = DynUpdate pods "ns" (object "ns" "a") err :: rest) ∧
    ∀ pre r ns obj err post, evs = pre ++ DynUpdate r ns obj err :: post →
      r = pods ∧ ns = "ns" ∧
      (obj = object "ns" "a" ∨ ∃ pre', pre = pre' ++ [DynGet pods ns "a" (Ok obj)]).
Proof.
  split; [exact bumpy_run_eq|].
  exact (migrateOneItem_unmodified 3 pod_migrator (object "ns" "a") bumpy _ _ bumpy_run_eq).
Defined.

Lemma migrateOneItem_outcome_witness :
  ∃ pre last, trace bumpy_end = trace bumpy ++ pre ++ [last] ∧
    ((∃ obj, last = DynUpdate pods "ns" obj None) ∨
     ∃ e, dyn_error last = Some e ∧ IsNotFound e = true) ∧
    ∀ ev e, ev ∈ pre → dyn_error ev = Some e →
      IsNotFound e = false ∧ canRetry (Some e) = true.
Proof.
  exact (migrateOneItem_outcome 3 pod_migrator (object "ns" "a") bumpy _ _ bumpy_run_eq).
Defined.

Lemma migrateOneItem_gets_after_conflict_witness :
  ∃ evs, trace bumpy_end = trace bumpy ++ evs ∧
    ∀ pre r ns name out post, evs = pre ++ DynGet r ns name out :: post →
      ∃ pre' ev sleeps, pre = pre' ++ ev :: sleeps ∧ asks_refresh ev ∧
        Forall (λ ev, is_sleep ev = true) sleeps.
Proof.
  exact (migrateOneItem_gets_after_conflict 3 pod_migrator (object "ns" "a") bumpy _ _
    bumpy_run_eq).
Defined.

Definition script_rank (c : cluster) : nat := length (c_gets c) + length (c_puts c).

Lemma sim_recovers m ns name : recovers script_rank m ns name.
Proof.
  split.
  - intros s out s'. simpl. intros [= <- <-]. unfold script_rank, next.
    destruct (c_gets s) as [|[e|] l]; simpl; [done|left; lia|lia].
  - intros obj s out s'. simpl. intros [= <- <-]. unfold script_rank, next.
    destruct (c_puts s) as [|[e|] l]; simpl; [done|left; lia|done].
Qed.

Lemma migrateOneItem_terminates_witness :
  is_Some (migrateOneItem 3 pod_migrator (object "ns" "a") bumpy).
Proof.
  apply (migrateOneItem_terminates script_rank); [apply sim_recovers|].
  vm_compute. lia.
Defined.

Lemma migrateOneItem_never_gives_up_witness :
  @migrateOneItem cluster (refusing forbidden) 1000 pod_migrator (object "ns" "a") bumpy = None.
Proof.
  apply (@migrateOneItem_never_gives_up cluster (refusing forbidden) forbidden);
    vm_compute; reflexivity.
Defined.
