(* ===== verification/RunProps.v ===== *)
(** * Theorems about the list loop of the core migrator

    progressTracker (progress.go) and migrator.Run (core.go): what a save
    writes and how often it tries, that a whole collection is migrated page by
    page, how Run resumes, and which errors it ends with. *)
From S2P Require Export MigratorProps.

Local Open Scope Z_scope.
Import unstructured v1alpha1.

(** ** Event kinds *)

Definition is_dyn_update (ev : event) : bool :=
  match ev with DynUpdate _ _ _ _ => true | _ => false end.
Definition is_svm_get (ev : event) : bool :=
  match ev with SVMGet _ _ => true | _ => false end.

Definition svm_error (ev : event) : option error :=
  match ev with
  | SVMGet _ out => res_error out
  | SVMUpdate _ err => err
  | _ => None
  end.

(** The PUTs among some events. *)
Definition puts (evs : list event) : list event :=
  filter (λ ev, is_dyn_update ev = true) evs.

Lemma puts_app evs1 evs2 : puts (evs1 ++ evs2) = puts evs1 ++ puts evs2.
Proof. apply filter_app. Qed.

Lemma puts_none evs : Forall (λ ev, is_dyn_update ev = false) evs → puts evs = [].
Proof.
  unfold puts. induction 1 as [|ev evs Hev _ IH]; [done|].
  rewrite filter_cons_False; [done|]. by rewrite Hev.
Qed.

Section progress.
Context {C : Type} `{Runtime C} `{StorageVersionMigrationInterface C}.
Implicit Types (w : World C).

(** The requests of one attempt of save. *)
Inductive save_block (name token : string) : list event → option error → Prop :=
  | save_block_get e : save_block name token [SVMGet name (Err e)] (Some e)
  | save_block_update m0 err :
      save_block name token
        [SVMGet name (Ok m0); SVMUpdate (with_ContinueToken token m0) err] err.

Lemma save_attempt_run name token w :
  wp (save_attempt name token)
     (λ err w', ∃ evs, w' = add_events evs (ext w') w ∧ save_block name token evs err) w.
Proof.
  unfold save_attempt, get_migration, update_migration. do 2 wp_step.
  destruct (svm_Get name (ext w)) as [[m0|e] s1]; simpl.
  - do 3 wp_step. eexists. rewrite add_events_add_events.
    split; [reflexivity|]. constructor.
  - wp_step. eexists. split; [reflexivity|constructor].
Qed.

(** A save in progress: [n] attempts made, the last one refused for a
    conflict. *)
Inductive save_trace (name token : string) : nat → list event → option error → Prop :=
  | save_trace_start : save_trace name token 0 [] None
  | save_trace_retry n evs last block e d :
      save_trace name token n evs last → save_block name token block (Some e) →
      IsConflict e = true →
      save_trace name token (S n) (evs ++ block ++ [Slept d]) (Some e).

Lemma save_block_gets name token block err :
  save_block name token block err →
  length (filter (λ ev, is_svm_get ev = true) block) = 1%nat.
Proof. by destruct 1. Qed.

Lemma save_trace_gets name token n evs last :
  save_trace name token n evs last →
  length (filter (λ ev, is_svm_get ev = true) evs) = n.
Proof.
  induction 1 as [|n evs last block e d _ IH Hb _]; [done|].
  rewrite !filter_app, !length_app, IH, (save_block_gets _ _ _ _ Hb). simpl. lia.
Qed.

(** Each update writes back the object the GET before it returned, with the
    new token. *)
Definition saves_token (name token : string) (evs : list event) : Prop :=
  ∀ pre m err post, evs = pre ++ SVMUpdate m err :: post →
    ∃ pre' m0, pre = pre' ++ [SVMGet name (Ok m0)] ∧ m = with_ContinueToken token m0.

Lemma saves_token_app name token evs1 evs2 :
  saves_token name token evs1 → saves_token name token evs2 →
  saves_token name token (evs1 ++ evs2).
Proof.
  intros H1 H2 pre m err post [(k & ->)|(k & -> & E)]%app_split_elem.
  - by eapply H1.
  - destruct (H2 _ _ _ _ E) as (pre' & m0 & -> & ->).
    exists (evs1 ++ pre'), m0. by rewrite app_assoc.
Qed.

Lemma saves_token_block name token block err :
  save_block name token block err → saves_token name token block.
Proof.
  intros Hb pre m err' post E. destruct Hb.
  - by destruct pre as [|? []].
  - destruct pre as [|? [|? []]]; simplify_eq/=. by exists [], m0.
Qed.

Lemma saves_token_trace name token n evs last :
  save_trace name token n evs last → saves_token name token evs.
Proof.
  induction 1 as [|n evs last block e d _ IH Hb _]; [by intros []|].
  repeat apply saves_token_app; [done|by eapply saves_token_block|].
  intros [|? []] ????; simplify_eq/=.
Qed.

(** How a save ends. *)
Definition save_end (name token : string) (evs : list event) (err : option error) : Prop :=
  ∃ n before last block e,
    evs = before ++ block ∧ (n < 5)%nat ∧
    save_trace name token n before last ∧ save_block name token block e ∧
    match e with
    | None => err = None
    | Some e => if is_ErrWaitTimeout e then IsConflict e = false ∧ err = last
                else err = Some e ∧ (IsConflict e = true → n = 4%nat)
    end.

Lemma progressTracker_save_run name token w :
  wp (progressTracker_save name token)
     (λ err w', ∃ evs, w' = add_events evs (ext w') w ∧ save_end name token evs err) w.
Proof.
  unfold progressTracker_save, RetryOnConflict, OnError. apply wp_bind.
  eapply wp_conseq; [apply wp_ExponentialBackoff with
    (I := λ b last w', ∃ n evs, w' = add_events evs (ext w') w ∧
            save_trace name token n evs last ∧ (n + Z.to_nat (bo_Steps b) = 5)%nat)
    (Q := λ err last w', ∃ evs, w' = add_events evs (ext w') w ∧
            save_end name token evs (if on_error is_ErrWaitTimeout err then last else err))|].
  - done.
  - apply plain_DefaultRetry.
  - exists 0%nat, []. split_and!; [|constructor|done].
    unfold add_events. rewrite app_nil_r. by destruct w.
  - intros b last w1 _ Hsteps (n & evs & -> & Htr & Hn). apply wp_bind.
    eapply wp_conseq; [apply save_attempt_run|]. intros err w2 (block & E & Hb).
    simpl in E. rewrite add_events_add_events in E.
    assert (n < 5)%nat as Hn5 by lia.
    destruct err as [e|]; [destruct (IsConflict e) eqn:Hc|]; apply wp_ret; cbn [round].
    + destruct (Z.eqb_spec (bo_Steps b) 1) as [Hb1|Hb1].
      * exists (evs ++ block). split; [done|]. simpl.
        exists n, evs, last, block, (Some e). split_and!; [done..|].
        destruct (is_ErrWaitTimeout e) eqn:Ew.
        { exfalso. revert Ew Hc. clear. destruct e as [| | | | | | | | |[[]|]| |]; try done.
          simpl. destruct temporary, unwrap; done. }
        split; [done|]. intros _. lia.
      * intros extra s' _. exists (S n), (evs ++ block ++ [Slept (bo_Duration b + extra)]).
        split_and!; [|by econstructor|simpl; lia].
        simpl. rewrite E at 1. by rewrite add_events_add_events, <- app_assoc.
    + exists (evs ++ block). split; [done|].
      exists n, evs, last, block, (Some e). split_and!; [done..|]. simpl.
      destruct (is_ErrWaitTimeout e); [done|]. split; [done|congruence].
    + exists (evs ++ block). split; [done|].
      by exists n, evs, last, block, None.
  - intros [err last] w' HQ. by apply wp_ret.
Qed.

Lemma emits_save (P : event → Prop) name token :
  (∀ out, P (SVMGet name out)) → (∀ m err, P (SVMUpdate m err)) → (∀ d, P (Slept d)) →
  emits (single P) (progressTracker_save name token : M (World C) _).
Proof.
  intros Hg Hu Hs. apply emits_RetryOnConflict; [by intros; apply single_intro|].
  unfold save_attempt, get_migration, update_migration.
  apply emits_bind; [apply emits_call; intros; by apply single_intro|].
  intros [m0|e]; [|apply emits_ret].
  apply emits_bind; [apply emits_call; intros; by apply single_intro|].
  intros; apply emits_ret.
Qed.
End progress.

Section progress_claims.
Context {C : Type} `{Runtime C} `{StorageVersionMigrationInterface C}.
Implicit Types (w : World C).

(** The client itself answered with wait.ErrWaitTimeout, which OnError cannot
    tell from running out of attempts. *)
Definition answered_timeout (evs : list event) : Prop :=
  ∃ ev e, ev ∈ evs ∧ svm_error ev = Some e ∧ is_ErrWaitTimeout e = true.

Lemma save_block_last name token block err :
  save_block name token block err → ∃ ev, ev ∈ block ∧ svm_error ev = err.
Proof.
  destruct 1 as [e|m0 err].
  - exists (SVMGet name (Err e)). set_solver.
  - exists (SVMUpdate (with_ContinueToken token m0) err). set_solver.
Qed.

(** Saving the progress returns after at least one and at most five
    attempts; every update it sends is the stored migration, read right before,
    with only the continue token changed; nil is reported after an update that
    the server accepted, and a conflict only after the fifth attempt. *)
Theorem progressTracker_save_spec name token w :
  wp (progressTracker_save name token)
    (λ err w', ∃ evs, trace w' = trace w ++ evs ∧ metrics w' = metrics w ∧
      (1 <= length (filter (λ ev, is_svm_get ev = true) evs) <= 5)%nat ∧
      saves_token name token evs ∧
      (err = None →
        (∃ pre m0, evs = pre ++ [SVMGet name (Ok m0);
                                 SVMUpdate (with_ContinueToken token m0) None]) ∨
        answered_timeout evs) ∧
      (∀ e, err = Some e → IsConflict e = true →
        length (filter (λ ev, is_svm_get ev = true) evs) = 5%nat ∨ answered_timeout evs)) w.
Proof.
  eapply wp_conseq; [apply progressTracker_save_run|].
  intros err w' (evs & -> & n & before & last & block & e & -> & Hn & Htr & Hb & He).
  exists (before ++ block). simpl.
  assert (on_error is_ErrWaitTimeout e = true → answered_timeout (before ++ block)) as Htime.
  { destruct e as [e|]; [|done]. simpl. intros Hw.
    destruct (save_block_last _ _ _ _ Hb) as (ev & Hin & Hev).
    exists ev, e. split_and!; [set_solver|done..]. }
  rewrite filter_app, length_app, (save_trace_gets _ _ _ _ _ Htr), (save_block_gets _ _ _ _ Hb).
  split_and!; [done|done|lia|lia| | |].
  - apply saves_token_app; [by eapply saves_token_trace|by eapply saves_token_block].
  - intros ->. destruct e as [e|].
    + destruct (is_ErrWaitTimeout e) eqn:Ew; [right; auto|]. by destruct He.
    + left. inversion Hb; subst. by exists before, m0.
  - intros e' -> Hc. destruct e as [e|]; [|done].
    destruct (is_ErrWaitTimeout e) eqn:Ew; [right; auto|]. left.
    destruct He as [[= ->] Hlast]. rewrite Hlast by done. done.
Qed.

(** What holds of the cluster after an accepted update holds after a save that
    reports nil. *)
Lemma progressTracker_save_post name token (P : C → Prop) w :
  (∀ s m0 s1 m' s2, svm_Get name s = (Ok m0, s1) →
    svm_Update (with_ContinueToken token m0) s1 = (Ok m', s2) → P s2) →
  (∀ s e, res_error (svm_Get name s).1 = Some e → is_ErrWaitTimeout e = false) →
  (∀ m s e, res_error (svm_Update m s).1 = Some e → is_ErrWaitTimeout e = false) →
  wp (progressTracker_save name token) (λ err w', err = None → P (ext w')) w.
Proof.
  intros HP Hget Hupd. unfold progressTracker_save, RetryOnConflict, OnError. apply wp_bind.
  eapply wp_conseq; [apply wp_ExponentialBackoff with
    (I := λ b last _, last = None → bo_Steps b = 5)
    (Q := λ err last w', if on_error is_ErrWaitTimeout err then last ≠ None
                         else err = None → P (ext w'))|].
  - done.
  - apply plain_DefaultRetry.
  - done.
  - intros b last w1 _ Hsteps HI. apply wp_bind.
    unfold save_attempt, get_migration, update_migration. do 2 wp_step.
    destruct (svm_Get name (ext w1)) as [r s1] eqn:Eg. simpl.
    destruct r as [m0|e]; simpl.
    + do 2 wp_step.
      destruct (svm_Update (with_ContinueToken token m0) s1) as [r2 s2] eqn:Eu. simpl.
      wp_step. rewrite Eu. destruct r2 as [m'|e]; simpl.
      * wp_step. simpl. intros _. by eapply HP.
      * destruct (IsConflict e); wp_step; simpl.
        { destruct (Z.eqb_spec (bo_Steps b) 1); [done|]. by intros. }
        rewrite (Hupd (with_ContinueToken token m0) s1) by by rewrite Eu. done.
    + wp_step. destruct (IsConflict e); wp_step; simpl.
      { destruct (Z.eqb_spec (bo_Steps b) 1); [done|]. by intros. }
      rewrite (Hget (ext w1)) by by rewrite Eg. done.
  - intros [err last] w' HQ. apply wp_ret. simpl in HQ.
    by destruct (on_error is_ErrWaitTimeout err).
Qed.

(** Progress survives: when a save reports nil, a load that follows it
    returns the token that was saved, for any API server that stores what an
    accepted update wrote and keeps objects under their name. *)
Theorem progressTracker_save_load name token w :
  (∀ s m s', svm_Get name s = (Ok m, s') → svm_Name m = name) →
  (∀ m s m' s', svm_Update m s = (Ok m', s') →
    ∃ m'', (svm_Get (svm_Name m) s').1 = Ok m'' ∧
           ContinueToken (svm_Spec m'') = ContinueToken (svm_Spec m)) →
  (∀ s e, res_error (svm_Get name s).1 = Some e → is_ErrWaitTimeout e = false) →
  (∀ m s e, res_error (svm_Update m s).1 = Some e → is_ErrWaitTimeout e = false) →
  wp (err ← progressTracker_save name token;
      r ← progressTracker_load name; mret (err, r))
     (λ er _, er.1 = None → er.2 = Ok token) w.
Proof.
  intros Hname Hstore Hget Hupd. apply wp_bind. eapply wp_conseq.
  - apply progressTracker_save_post with
      (P := λ s, ∃ m, (svm_Get name s).1 = Ok m ∧ ContinueToken (svm_Spec m) = token);
      [|done..].
    intros s m0 s1 m' s2 Hg Hu. apply Hname in Hg. apply Hstore in Hu as (m & Hm & Ht).
    exists m. split; [|done]. replace name with (svm_Name (with_ContinueToken token m0)); done.
  - intros err w1 HP. apply wp_bind. unfold progressTracker_load, get_migration.
    do 3 wp_step. wp_step. simpl. intros ->. destruct HP as (m & -> & Ht); [done|].
    by rewrite Ht.
Qed.
End progress_claims.

Lemma progressTracker_save_load_witness :
  @wp (World string) _
     (err ← @progressTracker_save string token_runtime token_svm "pods-1" "t2";
      r ← @progressTracker_load string token_svm "pods-1"; mret (err, r))
     (λ er _, er.1 = None → er.2 = Ok "t2")
     {| ext := "t1"; trace := []; metrics := newCoreMigratorMetrics |}.
Proof.
  apply (@progressTracker_save_load string token_runtime token_svm).
  - intros s m s' [= <- <-]. reflexivity.
  - intros m s m' s' [= <- <-]. eexists. split; reflexivity.
  - intros s e [=].
  - intros m s e [=].
Defined.

(** ** Migrating a collection *)

Section run.
Context {C : Type} `{Runtime C} `{DynamicInterface C} `{StorageVersionMigrationInterface C}.
Implicit Types (m : @migrator C) (w : World C) (item : Unstructured) (p : UnstructuredList).

(** The server accepts every PUT of the resource. *)
Definition accepts_puts (r : schema.GroupVersionResource) : Prop :=
  ∀ ns obj s, ∃ obj', (dyn_Update r ns obj s).1 = Ok obj'.

(** The server serves the pages [ps] to someone listing from [token] on. *)
Inductive serves (r : schema.GroupVersionResource) : string → list UnstructuredList → Prop :=
  | serves_last token p :
      (∀ s, (dyn_List r {| metav1.Limit := defaultChunkLimit; metav1.Continue := token |} s).1 = Ok p) →
      GetContinue p = "" → serves r token [p]
  | serves_more token p ps :
      (∀ s, (dyn_List r {| metav1.Limit := defaultChunkLimit; metav1.Continue := token |} s).1 = Ok p) →
      GetContinue p ≠ "" → serves r (GetContinue p) ps → serves r token (p :: ps).

(** The PUT that migrates an object. *)
Definition put_of (r : schema.GroupVersionResource) (item : Unstructured) : event :=
  DynUpdate r (GetNamespace item) item None.

Definition all_items (ps : list UnstructuredList) : list Unstructured :=
  concat (List_Items <$> ps).

Lemma all_items_cons p ps : all_items (p :: ps) = List_Items p ++ all_items ps.
Proof. done. Qed.

Lemma put_of_puts r items : puts (put_of r <$> items) = put_of r <$> items.
Proof. apply filter_id, Forall_fmap. by apply Forall_true. Qed.

Lemma accepted_item fuel m item w :
  accepts_puts (resource m) →
  wp (migrateOneItem (S fuel) m item)
     (λ err w', err = None ∧ w' = add_events [put_of (resource m) item] (ext w') w) w.
Proof.
  intros Hput. unfold migrateOneItem. cbn [accessor_Namespace accessor_Name migrate_loop try_].
  apply wp_bind. unfold try_put, put. do 2 wp_step.
  destruct (Hput (GetNamespace item) item (ext w)) as [obj' ->]. simpl.
  wp_step. wp_step. done.
Qed.

Lemma accepted_worker fuel m items w :
  accepts_puts (resource m) →
  wp (worker (S fuel) m items)
     (λ errs w', errs = [] ∧ w' = add_events (put_of (resource m) <$> items) (ext w') w) w.
Proof.
  intros Hput. revert w. induction items as [|item items IH]; intros w.
  - apply wp_ret. split; [done|]. unfold add_events. simpl. rewrite app_nil_r. by destruct w.
  - cbn [worker]. apply wp_bind. eapply wp_conseq; [by apply accepted_item|].
    intros err w1 [-> E1]. apply wp_bind. eapply wp_conseq; [by apply IH|].
    intros errs w2 [-> E2]. wp_step. split; [done|].
    rewrite E2, E1 at 1. by rewrite add_events_add_events.
Qed.

Lemma accepted_page fuel m p w :
  accepts_puts (resource m) →
  wp (migrateList (S fuel) m p)
     (λ err w', err = None ∧
       w' = add_events (put_of (resource m) <$> List_Items p) (ext w') w) w.
Proof.
  intros Hput. unfold migrateList. apply wp_bind.
  eapply wp_conseq; [by apply accepted_worker|]. intros errs w1 [-> E]. by wp_step.
Qed.

(** Saving the progress sends no PUT to the migrated resource. *)
Lemma save_quiet name token w :
  wp (progressTracker_save name token : M (World C) _)
     (λ _ w', metrics w' = metrics w ∧ puts (trace w') = puts (trace w)) w.
Proof.
  apply wp_intro.
  - apply total_RetryOnConflict. unfold save_attempt, get_migration, update_migration.
    apply total_bind; [apply total_call|]. intros []; auto with go.
  - intros err w' E. eapply emits_single in E as (HM & evs & -> & HF);
      [|apply (emits_save (λ ev, is_dyn_update ev = false)); done].
    split; [done|]. by rewrite puts_app, (puts_none evs), app_nil_r.
Qed.

(** The label Run uses for a resource. *)
Definition label (r : schema.GroupVersionResource) : string :=
  schema.GroupVersionResource_String r.

(** What the metrics count of a run. *)
Definition counted (r : schema.GroupVersionResource) (w w' : World C) (n : nat) : Prop :=
  migrated_objects (label r) (metrics w') = migrated_objects (label r) (metrics w) + Z.of_nat n.

Lemma run_loop_serves r name token ps fuel w :
  accepts_puts r → serves r token ps →
  wp (run_loop (length ps) (S fuel) (NewMigrator r (NewProgressTracker name)) token)
     (λ err w', err = None ∧
        puts (trace w') = puts (trace w) ++ (put_of r <$> all_items ps) ∧
        counted r w w' (length (all_items ps))) w.
Proof.
  intros Hput Hserves. set (m := NewMigrator r (NewProgressTracker name)).
  revert w. induction Hserves as [token p Hlist Hlast|token p ps Hlist Hmore Hserves IH]; intros w;
    cbn [length run_loop]; unfold run_iteration, list_; do 2 wp_step; rewrite Hlist;
    apply wp_bind; (eapply wp_conseq; [by apply (accepted_page fuel m)|]);
    intros err w1 [-> E1]; cbn [accessor_Continue]; do 2 wp_step.
  - rewrite bool_decide_eq_true_2 by done. wp_step. unfold all_items. simpl.
    rewrite app_nil_r, E1. simpl. split_and!; [done| |].
    + rewrite !puts_app, put_of_puts. simpl. by rewrite app_nil_r.
    + unfold counted. simpl. by rewrite migrated_objects_observe.
  - rewrite bool_decide_eq_false_2 by done. apply wp_bind.
    eapply wp_conseq; [apply save_quiet|]. simpl. intros err w2 [HM HT].
    do 2 wp_step. eapply wp_conseq; [apply IH|]. simpl. intros err' w3 (-> & HT3 & HC3).
    split; [done|]. rewrite all_items_cons, fmap_app, length_app. split.
    + rewrite HT3, puts_app, HT, E1. simpl. rewrite !puts_app, put_of_puts. simpl.
      rewrite (puts_none (handled err)) by by destruct err; repeat constructor.
      by rewrite !app_nil_r, <- app_assoc.
    + unfold counted in *. rewrite HC3. simpl. rewrite HM.
      rewrite migrated_objects_observe, E1. simpl. unfold label, m. simpl. lia.
Qed.
End run.

Section run_claims.
Context {C : Type} `{Runtime C} `{DynamicInterface C} `{StorageVersionMigrationInterface C}.
Implicit Types (w : World C).

(** C4. Run migrates the whole collection: when the stored migration holds
    [token], the server serves the pages [ps] from that token on and accepts
    PUTs, Run returns nil after one PUT for every object of those pages, in
    order, and adds their number to the migrated-objects counter.  It needs no
    more rounds than there are pages, whatever becomes of the attempts to
    save the progress; a migration resumed from a saved token does the
    remaining pages only. *)
Theorem Run_migrates_collection r name token ps fuel w mig :
  (svm_Get name (ext w)).1 = Ok mig → ContinueToken (svm_Spec mig) = token →
  serves r token ps → accepts_puts r →
  wp (Run (length ps) (S fuel) (NewMigrator r (NewProgressTracker name)))
     (λ err w', err = None ∧
        puts (trace w') = puts (trace w) ++ (put_of r <$> all_items ps) ∧
        counted r w w' (length (all_items ps))) w.
Proof.
  intros Hget Htoken Hserves Hput. unfold Run. cbn [NewMigrator progress NewProgressTracker load].
  apply wp_bind. unfold progressTracker_load, get_migration. do 3 wp_step. rewrite Hget, Htoken.
  eapply wp_conseq; [by apply run_loop_serves|]. simpl. intros err w' (-> & HT & HC).
  split_and!; [done| |done]. rewrite HT, puts_app. simpl. by rewrite app_nil_r.
Qed.
End run_claims.

(** One page of one pod, then a second page. *)
Definition two_pages (token : string) : res UnstructuredList :=
  if bool_decide (token = "") then Ok (page "next" [object "ns" "a"])
  else Ok (page "" [object "ns" "b"; object "ns" "c"]).

Definition paged : World cluster :=
  start (set_pages two_pages (with_svms [pod_migration "pods-1" "" []] empty_cluster)).

(** The simulated server serves pages that do not depend on its state only
    when [c_pages] does not; this instance fixes them. *)
Definition paging : DynamicInterface cluster := {|
  dyn_Get := λ r ns name c, (Err not_found, c);
  dyn_Update := λ r ns obj c, (Ok obj, c);
  dyn_List := λ r opts c, (two_pages (metav1.Continue opts), c);
|}.

Lemma Run_migrates_collection_witness :
  wp (@Run cluster paging 2 1 (NewMigrator pods (NewProgressTracker "pods-1")))
     (λ err w', err = None ∧
        puts (trace w') = (put_of pods <$> [object "ns" "a"; object "ns" "b"; object "ns" "c"]) ∧
        counted pods paged w' 3) paged.
Proof.
  apply (@Run_migrates_collection cluster sim_runtime paging sim_svm pods "pods-1" ""
           [page "next" [object "ns" "a"]; page "" [object "ns" "b"; object "ns" "c"]] 0 paged
           (default (pod_migration "pods-1" "" []) (c_svms (ext paged) !! "pods-1"))).
  - vm_compute. reflexivity.
  - vm_compute. reflexivity.
  - apply serves_more; [by intros s; vm_compute|by vm_compute|].
    apply serves_last; [by intros s; vm_compute|by vm_compute].
  - intros ns obj s. exists obj. reflexivity.
Defined.

(** ** Run does not look at what its saves report *)

Section oblivious.
Context {C : Type} `{Runtime C} `{DynamicInterface C} `{StorageVersionMigrationInterface C}.
Implicit Types (m : @migrator C).

Lemma related_try m1 m2 ns name item g :
  resource m1 = resource m2 →
  related eq (try_ m1 ns name item g) (try_ m2 ns name item g).
Proof.
  intros Hr. assert (∀ obj, related eq (try_put m1 ns obj) (try_put m2 ns obj)) as Hput.
  { intros obj. unfold try_put, put. rewrite Hr. auto with related. }
  unfold try_, get. rewrite Hr. destruct g; [|done].
  apply related_bind_eq; [auto with related|]. intros []; auto with related.
Qed.

Lemma related_client_delay e : related eq (client_delay e : M (World C) _) (client_delay e).
Proof. unfold client_delay, Sleep. destruct (SuggestsClientDelay e); auto with related. Qed.

Lemma related_migrate_loop fuel m1 m2 ns name item g :
  resource m1 = resource m2 →
  related eq (migrate_loop fuel m1 ns name item g) (migrate_loop fuel m2 ns name item g).
Proof.
  intros Hr. revert g. induction fuel as [|fuel IH]; intros g; [by intros w1 w2 _; constructor|].
  cbn [migrate_loop]. eapply related_bind; [by apply related_try|].
  intros ? [g' [e|]] ->; [|auto with related].
  destruct (IsNotFound e); [auto with related|]. destruct (canRetry (Some e)); [|auto with related].
  apply related_bind_eq; [apply related_client_delay|]. auto.
Qed.

Lemma related_migrateList fuel m1 m2 l :
  resource m1 = resource m2 →
  related eq (migrateList fuel m1 l) (migrateList fuel m2 l).
Proof.
  intros Hr. unfold migrateList. eapply related_bind; [|by intros ? b ->; apply related_ret].
  generalize (List_Items l) as items. induction items as [|item items IH]; simpl; [auto with related|].
  eapply related_bind; [by apply related_migrate_loop|]. intros err ? <-.
  eapply related_bind; [done|]. intros errs ? <-. auto with related.
Qed.

(** Two progress trackers with the same effects, whatever their saves
    report. *)
Definition same_effects (p1 p2 : @progressInterface C) : Prop :=
  related eq (load p1) (load p2) ∧ ∀ t, related (λ _ _, True) (save p1 t) (save p2 t).

Lemma related_run_loop rounds fuel m1 m2 token :
  resource m1 = resource m2 → same_effects (progress m1) (progress m2) →
  related eq (run_loop rounds fuel m1 token) (run_loop rounds fuel m2 token).
Proof.
  intros Hr [_ Hs]. revert token. induction rounds as [|rounds IH]; intros token;
    [by intros w1 w2 _; constructor|]. cbn [run_loop].
  assert (∀ t, related eq (err ← save (progress m1) t; HandleError err ;; run_loop rounds fuel m1 t)
                          (err ← save (progress m2) t; HandleError err ;; run_loop rounds fuel m2 t)) as Hsave.
  { intros t. eapply related_bind; [apply Hs|]. intros e1 e2 _.
    eapply related_bind; [apply related_HandleError|]. intros ? _ <-. apply IH. }
  unfold run_iteration, list_. rewrite Hr. apply related_bind_eq; [apply related_call|].
  intros [l|e].
  - eapply related_bind; [by apply related_migrateList|]. intros err ? <-.
    destruct err; [auto with related|]. cbn [accessor_Continue].
    apply related_bind_eq; [apply related_observe|]. intros _.
    case_bool_decide; [auto with related|apply Hsave].
  - destruct (IsNotFound e); [auto with related|]. destruct (negb _).
    + destruct (canRetry _); [|auto with related].
      apply related_bind_eq; [apply related_client_delay|]. intros _. apply IH.
    + destruct (inconsistentContinueToken e); [apply Hsave|auto with related].
Qed.

(** Changing what a computation returns keeps what it does. *)
Lemma related_relabel {A B A'} (f : B → A') (n1 : M (World C) A) (n2 : M (World C) B) R :
  related R n1 n2 → related (λ _ _, True) n1 (b ← n2; mret (f b)).
Proof.
  intros Hrel w1 w2 Hw. unfold mbind, M_bind.
  destruct (Hrel w1 w2 Hw) as [[a v1] [b v2] [_ Hv]|]; constructor. by split.
Qed.

Lemma related_NewProgressTracker name :
  related eq (load (NewProgressTracker name : @progressInterface C)) (load (NewProgressTracker name)) ∧
  ∀ t, related eq (save (NewProgressTracker name : @progressInterface C) t)
                  (save (NewProgressTracker name) t).
Proof.
  split.
  - simpl. unfold progressTracker_load, get_migration. auto with related.
  - intros t. simpl. apply related_RetryOnConflict.
    unfold save_attempt, get_migration, update_migration.
    apply related_bind_eq; [auto with related|]. intros []; auto with related.
Qed.

(** C22. Run never returns because its progress could not be saved: let every
    save report any other error (or none) in place of what it found, and Run
    still returns the same result, in the same cluster state, having sent the
    same requests and counted the same objects; only the error log differs.
    In particular a migration object deleted under it does not stop Run. *)
Theorem Run_ignores_save_errors (lie : option error → option error) r name rounds fuel
    (w : World C) :
  let p := NewProgressTracker name in
  let p' := {| save := λ t, err ← save p t; mret (lie err); load := load p |} in
  option_Forall2 (outcomes eq) (Run rounds fuel (NewMigrator r p) w)
                               (Run rounds fuel (NewMigrator r p') w).
Proof.
  intros p p'. destruct (related_NewProgressTracker name) as [Hl Hs]. fold p in Hl, Hs.
  assert (same_effects p p') as Hp.
  { split; [exact Hl|]. intros t. by apply related_relabel with eq. }
  cut (related eq (Run rounds fuel (NewMigrator r p)) (Run rounds fuel (NewMigrator r p'))).
  { intros Hrel. by apply Hrel. }
  unfold Run. eapply related_bind; [apply Hl|]. intros x ? <-.
  destruct x; [|auto with related]. by apply related_run_loop.
Qed.
End oblivious.
