(* ===== verification/RunTrace.v ===== *)
(** * What migrator.Run does against any API server

    The requests of a run, as an inductive relation with one constructor for
    each way an iteration of the loop of Run can go, and what follows from it
    whatever the server answers: nil means that everything that was listed was
    migrated, the saved progress never runs ahead of the work, and each error
    Run returns has one of five causes. *)
From S2P Require Export RunProps.

Local Open Scope Z_scope.
Import unstructured v1alpha1.

Section trace.
Context {C : Type} `{Runtime C} `{DynamicInterface C} `{StorageVersionMigrationInterface C}.
Implicit Types (m : @migrator C) (w : World C) (p : UnstructuredList) (evs : list event).

(** The List request of an iteration. *)
Definition listed (r : schema.GroupVersionResource) (token : string)
    (out : res UnstructuredList) : event :=
  DynList r {| metav1.Limit := defaultChunkLimit; metav1.Continue := token |} out.

Definition is_list (ev : event) : bool :=
  match ev with DynList _ _ _ => true | _ => false end.

(** A request for the migration object. *)
Definition is_svm (ev : event) : bool :=
  match ev with SVMGet _ _ | SVMUpdate _ _ => true | _ => false end.

(** An object is taken through migrateOneItem with the given result. *)
Definition migrates (r : schema.GroupVersionResource) (item : Unstructured)
    (evs : list event) (result : option error) : Prop :=
  attempts r (GetNamespace item) (GetName item) item false evs result.

Inductive worker_trace (r : schema.GroupVersionResource) :
    list Unstructured → list event → list error → Prop :=
  | worker_trace_nil : worker_trace r [] [] []
  | worker_trace_cons item items evs result evs' errs :
      migrates r item evs result → worker_trace r items evs' errs →
      worker_trace r (item :: items) (evs ++ evs') (option_list result ++ errs).

(** A save of the progress and the report of its failure. *)
Definition saves (name token : string) (evs : list event) : Prop :=
  ∃ before err, evs = before ++ handled err ∧ save_end name token before err.

Inductive run_trace (r : schema.GroupVersionResource) (name : string) :
    string → list event → option error → Prop :=
  | run_not_found token e :
      IsNotFound e = true →
      run_trace r name token [listed r token (Err e)]
        (Some (Errorf ("failed to list resources: " +:+ Error e)))
  | run_final token e :
      IsNotFound e = false → IsResourceExpired e = false → canRetry (Some e) = false →
      run_trace r name token [listed r token (Err e)] (Some e)
  | run_retry token e evs result :
      IsNotFound e = false → IsResourceExpired e = false → canRetry (Some e) = true →
      run_trace r name token evs result →
      run_trace r name token (listed r token (Err e) :: delay_events e ++ evs) result
  | run_no_token token e e' :
      IsNotFound e = false → IsResourceExpired e = true →
      inconsistentContinueToken e = Err e' →
      run_trace r name token [listed r token (Err e)] (Some e')
  | run_expired token e token' evs evs' result :
      IsNotFound e = false → IsResourceExpired e = true →
      inconsistentContinueToken e = Ok token' → saves name token' evs →
      run_trace r name token' evs' result →
      run_trace r name token (listed r token (Err e) :: evs ++ evs') result
  | run_page_failed token p evs errs e :
      worker_trace r (List_Items p) evs errs → NewAggregate (Some <$> errs) = Some e →
      run_trace r name token (listed r token (Ok p) :: evs) (Some e)
  | run_last token p evs :
      worker_trace r (List_Items p) evs [] → GetContinue p = "" →
      run_trace r name token (listed r token (Ok p) :: evs) None
  | run_next token p evs evs' evs2 result :
      worker_trace r (List_Items p) evs [] → GetContinue p ≠ "" →
      saves name (GetContinue p) evs' → run_trace r name (GetContinue p) evs2 result →
      run_trace r name token (listed r token (Ok p) :: evs ++ evs' ++ evs2) result.

(** ** The loop follows the relation *)

Lemma worker_run fuel m items w errs w' :
  worker fuel m items w = Some (errs, w') →
  ∃ evs, w' = add_events evs (ext w') w ∧ worker_trace (resource m) items evs errs.
Proof.
  revert w errs w'. induction items as [|item items IH]; intros w errs w'; cbn [worker].
  - intros [= <- <-]. exists []. split; [|constructor].
    unfold add_events. rewrite app_nil_r. by destruct w.
  - intros (err & w1 & E1 & E)%bind_Some. apply bind_Some in E as (errs' & w2 & E2 & E3).
    apply migrateOneItem_run in E1 as (evs1 & E1 & Hatt).
    apply IH in E2 as (evs2 & E2 & Hrest). injection E3 as <- <-.
    exists (evs1 ++ evs2). split.
    + rewrite E2, E1. simpl. by rewrite add_events_add_events.
    + replace (match err with Some e => e :: errs' | None => errs' end)
        with (option_list err ++ errs') by by destruct err.
      by constructor.
Qed.

Lemma NewAggregate_errs_None (errs : list error) :
  NewAggregate (Some <$> errs) = None → errs = [].
Proof. intros E. destruct errs as [|e errs]; [done|]. discriminate E. Qed.

Lemma save_run name token w :
  wp (err ← progressTracker_save name token; HandleError err)
     (λ _ w', metrics w' = metrics w ∧
        ∃ evs, trace w' = trace w ++ evs ∧ saves name token evs) w.
Proof.
  apply wp_bind. eapply wp_conseq; [apply progressTracker_save_run|].
  simpl. intros err w1 (evs & -> & Hend). wp_step. simpl. split; [done|].
  exists (evs ++ handled err). rewrite app_assoc. split; [done|]. by exists evs, err.
Qed.

(** The run after a save. *)
Lemma save_then_run name token (k : M (World C) (option error)) w result w' :
  (err ← progressTracker_save name token; HandleError err ;; k) w = Some (result, w') →
  ∃ w1 evs, trace w1 = trace w ++ evs ∧ metrics w1 = metrics w ∧ saves name token evs ∧
    k w1 = Some (result, w').
Proof.
  intros E. destruct (save_run name token w) as ([] & w1 & E1 & HM & evs & HT & Hs).
  exists w1, evs. split_and!; [done..|].
  rewrite <- E, <- bind_assoc. symmetry. exact (bind_step _ (λ _, k) _ _ _ E1).
Qed.

Lemma run_loop_run rounds fuel r name token w result w' :
  run_loop rounds fuel (NewMigrator r (NewProgressTracker name)) token w = Some (result, w') →
  migration (metrics w') = migration (metrics w) ∧
  ∃ evs, trace w' = trace w ++ evs ∧ run_trace r name token evs result.
Proof.
  revert token w. induction rounds as [|rounds IH]; intros token w; [done|].
  cbn [run_loop]. unfold run_iteration, list_.
  intros (out & w1 & E1 & E)%bind_Some. rewrite call_Some in E1. injection E1 as <- <-.
  fold (listed r token) in E. simpl in E. set (out := (dyn_List _ _ _).1) in *.
  destruct out as [p|e]; simpl in E.
  - apply bind_Some in E as (err & w2 & E2 & E).
    apply bind_Some in E2 as (errs & w3 & (evs & E2 & Hw)%worker_run & E3).
    injection E3 as <- <-. destruct (NewAggregate _) as [e|] eqn:Ha.
    { injection E as <- <-. rewrite E2. split; [done|]. exists (listed r token (Ok p) :: evs). simpl.
      rewrite <- app_assoc. split; [done|]. by econstructor. }
    apply NewAggregate_errs_None in Ha as ->. cbn [accessor_Continue] in E.
    apply bind_Some in E as ([] & w4 & E4 & E). injection E4 as <-.
    case_bool_decide.
    + injection E as <- <-. simpl. rewrite E2. split; [done|]. exists (listed r token (Ok p) :: evs). simpl.
      rewrite <- app_assoc. split; [done|]. by constructor.
    + apply save_then_run in E as (w5 & sv & HT & HM & Hs & (HM2 & evs2 & HT2 & Hrest)%IH).
      split; [by rewrite HM2, HM; simpl; rewrite E2|].
      eexists. split; [|by eapply run_next]. rewrite HT2, HT. simpl. rewrite E2. simpl.
      by rewrite <- !app_assoc.
  - destruct (IsNotFound e) eqn:HN.
    { injection E as <- <-. split; [done|]. eexists. split; [reflexivity|by constructor]. }
    destruct (IsResourceExpired e) eqn:HX; simpl in E.
    + destruct (inconsistentContinueToken e) as [token'|e'] eqn:Ht.
      * apply save_then_run in E as (w5 & sv & HT & HM & Hs & (HM2 & evs2 & HT2 & Hrest)%IH).
        split; [by rewrite HM2, HM|]. eexists. split; [|by eapply run_expired]. rewrite HT2, HT. simpl.
        by rewrite <- !app_assoc.
      * injection E as <- <-. split; [done|]. eexists. split; [reflexivity|by constructor].
    + destruct (canRetry (Some e)) eqn:HR.
      * rewrite (bind_step _ _ _ _ _ (client_delay_run e _)) in E.
        apply IH in E as (HM2 & evs2 & HT2 & Hrest). split; [by rewrite HM2|].
        eexists. split; [|by eapply run_retry].
        rewrite HT2. simpl. by rewrite <- !app_assoc.
      * injection E as <- <-. split; [done|]. eexists. split; [reflexivity|by constructor].
Qed.

(** ** Where the List requests are *)

Definition quiet (evs : list event) : Prop := Forall (λ ev, is_list ev = false) evs.

Lemma quiet_attempts r ns name item g evs result :
  attempts r ns name item g evs result →
  Forall (λ ev, is_list ev = false ∧ is_svm ev = false) evs.
Proof.
  assert (∀ g evs g' err, attempt r ns name item g evs g' err →
    Forall (λ ev, is_list ev = false ∧ is_svm ev = false) evs) as Hatt
    by (destruct 1; by repeat constructor).
  induction 1; [by eauto..|]. repeat (apply Forall_app; split); [by eauto| |done].
  unfold delay_events. case_match; by repeat constructor.
Qed.

Lemma quiet_worker r items evs errs :
  worker_trace r items evs errs →
  Forall (λ ev, is_list ev = false ∧ is_svm ev = false) evs.
Proof.
  induction 1 as [|item items evs result evs' errs Hm _ IH]; [constructor|].
  apply Forall_app. split; [by eapply quiet_attempts|done].
Qed.

Lemma quiet_saves name token evs : saves name token evs → quiet evs.
Proof.
  assert (∀ block err, save_block name token block err → quiet block) as Hb
    by (destruct 1; by repeat constructor).
  assert (∀ n l last, save_trace name token n l last → quiet l) as Ht.
  { induction 1 as [|n l last block e d _ IH Hblock _]; [constructor|].
    apply Forall_app. split; [done|]. apply Forall_app. split; [by eapply Hb|].
    by repeat constructor. }
  intros (before & err & -> & n & b & last & block & e & -> & _ & Htr & Hbl & _).
  repeat (apply Forall_app; split); [by eapply Ht|by eapply Hb|].
  destruct err; by repeat constructor.
Qed.

(** What an update of a save writes. *)
Lemma saves_updates name token evs mig err :
  saves name token evs → SVMUpdate mig err ∈ evs → ContinueToken (svm_Spec mig) = token.
Proof.
  intros (before & err' & -> & n & b & last & block & e & -> & _ & Htr & Hbl & _) Hin.
  assert (saves_token name token (b ++ block)) as Hs.
  { apply saves_token_app; [by eapply saves_token_trace|by eapply saves_token_block]. }
  apply elem_of_app in Hin as [Hin|Hin]; [|destruct err'; set_solver].
  apply list_elem_of_split in Hin as (pre & post & E).
  destruct (Hs _ _ _ _ E) as (_ & m1 & _ & ->). done.
Qed.

(** A List request in a run that starts with one: the first, or later. *)
Lemma split_listed (hd x : event) mid rest pre post :
  quiet mid → is_list x = true → hd :: mid ++ rest = pre ++ x :: post →
  (pre = [] ∧ hd = x ∧ post = mid ++ rest) ∨
  ∃ k, pre = hd :: mid ++ k ∧ rest = k ++ x :: post.
Proof.
  intros Hq Hx E. destruct pre as [|y pre]; simplify_eq/=; [by left|]. right.
  match goal with E : mid ++ rest = _ |- _ => apply app_split_elem in E as [[k ->]|(k & -> & ->)] end.
  - exfalso. apply Forall_app in Hq as [_ Hq]. apply Forall_cons in Hq as [Hq _]. congruence.
  - by exists k.
Qed.

(** Every object of the slice is migrated or gone in [evs]. *)
Definition all_migrated (r : schema.GroupVersionResource) (items : list Unstructured) evs : Prop :=
  ∀ item, item ∈ items → ∃ a block b, evs = a ++ block ++ b ∧ migrates r item block None.

Lemma all_migrated_app r items evs evs' :
  all_migrated r items evs → all_migrated r items (evs ++ evs').
Proof.
  intros Hall item (a & block & b & -> & Hm)%Hall. exists a, block, (b ++ evs').
  by rewrite <- !app_assoc.
Qed.

Lemma worker_all_migrated r items evs :
  worker_trace r items evs [] → all_migrated r items evs.
Proof.
  intros Hw. remember [] as errs eqn:E.
  induction Hw as [|item items evs result evs' errs Hm Hw IH]; [set_solver|].
  destruct result; [done|]. simpl in E. intros item' [->|Hin]%elem_of_cons.
  - by exists [], evs, evs'.
  - destruct (IH E _ Hin) as (a & block & b & -> & Hm'). exists (evs ++ a), block, b.
    by rewrite <- app_assoc.
Qed.

(** The events of a page: for each of its objects in turn, one block of
    attempts, and how it ended. *)
Definition page_blocks (r : schema.GroupVersionResource) (items : list Unstructured)
    (evs : list event) (results : list (option error)) : Prop :=
  ∃ blocks, evs = concat blocks ∧ Forall3 (λ item block result, migrates r item block result) items blocks results.

Lemma worker_blocks r items evs errs :
  worker_trace r items evs errs → ∃ results, page_blocks r items evs results ∧ errs = omap id results.
Proof.
  induction 1 as [|item items evs result evs' errs Hm _ (results & (blocks & -> & Hf) & ->)].
  - exists []. split; [|done]. exists []. split; [done|constructor].
  - exists (result :: results). split; [|by destruct result].
    exists (evs :: blocks). split; [done|by constructor].
Qed.

Lemma omap_id_nil {A} (l : list (option A)) : [] = omap id l → Forall (eq None) l.
Proof. induction l as [|[a|] l IH]; intros E; [constructor|done|]. constructor; [done|by apply IH]. Qed.

(** A worker's errors are final ones. *)
Lemma worker_errors r items evs errs :
  worker_trace r items evs errs → Forall (λ e, canRetry (Some e) = false) errs.
Proof.
  induction 1 as [|item items evs result evs' errs Hm _ IH]; [constructor|].
  apply Forall_app. split; [|done]. destruct result as [e|]; [|constructor]. repeat constructor.
  by apply attempts_last in Hm as (? & ? & _ & [_ ?] & _).
Qed.
End trace.

Section trace_facts.
Context {C : Type} `{Runtime C} `{DynamicInterface C} `{StorageVersionMigrationInterface C}.
Implicit Types (w : World C) (p : UnstructuredList) (evs : list event).

(** A page that was listed in a run that returned nil was migrated. *)
Lemma run_trace_nil r name token evs :
  run_trace r name token evs None →
  ∀ pre token' p post, evs = pre ++ listed r token' (Ok p) :: post →
    all_migrated r (List_Items p) post.
Proof.
  intros Hrun. remember None as result eqn:Hres.
  induction Hrun as [| |token e evs result HN HX HR Hrun IH| |token e token' sv evs result HN HX Ht Hs Hrun IH
    | |token p evs Hw Hlast|token p evs sv evs2 result Hw Hmore Hs Hrun IH];
    simplify_eq; intros pre t p' post E.
  - apply split_listed in E as [(-> & ? & ->)|(k & -> & ->)]; [done|by eapply IH| |done].
    unfold delay_events. case_match; by repeat constructor.
  - apply split_listed in E as [(-> & ? & ->)|(k & -> & ->)];
      [done|by eapply IH|by eapply quiet_saves|done].
  - rewrite <- (app_nil_r evs) in E.
    apply split_listed in E as [(-> & ? & ->)|(k & -> & E)]; [|by destruct k| |done].
    + simplify_eq. rewrite app_nil_r. by apply worker_all_migrated.
    + eapply Forall_impl; [by eapply quiet_worker|]. by intros ? [].
  - rewrite app_assoc in E.
    apply split_listed in E as [(-> & ? & ->)|(k & -> & ->)]; [|by eapply IH| |done].
    + simplify_eq. rewrite <- app_assoc. by apply all_migrated_app, worker_all_migrated.
    + apply Forall_app. split; [|by eapply quiet_saves].
      eapply Forall_impl; [by eapply quiet_worker|]. by intros ? [].
Qed.

(** How a run ends: with the List request that decided it, answered by [out],
    and what is done [after] it.  After a page, its objects are taken through
    their attempts, in order, and nothing else is done; after an error,
    nothing is. *)
Definition decisive (r : schema.GroupVersionResource) (out : res UnstructuredList)
    (after : list event) (result : option error) : Prop :=
  match out with
  | Ok p => ∃ results, page_blocks r (List_Items p) after results ∧
      match result with
      | None => GetContinue p = "" ∧ Forall (eq None) results
      | Some e => NewAggregate (Some <$> omap id results) = Some e ∧
          Forall (λ e, canRetry (Some e) = false) (omap id results)
      end
  | Err e => after = [] ∧ ∃ e', result = Some e' ∧
      ((IsNotFound e = true ∧ e' = Errorf ("failed to list resources: " +:+ Error e)) ∨
       (IsNotFound e = false ∧ IsResourceExpired e = false ∧
        canRetry (Some e) = false ∧ e' = e) ∨
       (IsNotFound e = false ∧ IsResourceExpired e = true ∧
        inconsistentContinueToken e = Err e'))
  end.

Lemma run_trace_end r name token evs result :
  run_trace r name token evs result →
  ∃ pre token' out post, evs = pre ++ listed r token' out :: post ∧ quiet post ∧
    decisive r out post result.
Proof.
  induction 1 as [token e HN|token e HN HX HR|token e evs result HN HX HR Hrun IH|token e e' HN HX Ht
    |token e token' sv evs result HN HX Ht Hs Hrun IH|token p evs errs e Hw Ha
    |token p evs Hw Hlast|token p evs sv evs2 result Hw Hmore Hs Hrun IH].
  1,2,4: exists [], token, (Err e), []; split_and!; [done|constructor|split; [done|eexists; naive_solver]].
  - destruct IH as (pre & t & out & post & -> & ? & ?).
    exists (listed r token (Err e) :: delay_events e ++ pre), t, out, post.
    by rewrite <- app_comm_cons, <- app_assoc.
  - destruct IH as (pre & t & out & post & -> & ? & ?).
    exists (listed r token (Err e) :: sv ++ pre), t, out, post.
    by rewrite <- app_comm_cons, <- app_assoc.
  - exists [], token, (Ok p), evs. split_and!; [done| |].
    + eapply Forall_impl; [by eapply quiet_worker|]. by intros ? [].
    + destruct (worker_blocks _ _ _ _ Hw) as (results & Hb & ->). exists results.
      split_and!; [done|done|by eapply worker_errors].
  - exists [], token, (Ok p), evs. split_and!; [done| |].
    + eapply Forall_impl; [by eapply quiet_worker|]. by intros ? [].
    + destruct (worker_blocks _ _ _ _ Hw) as (results & Hb & Hn). exists results.
      split_and!; [done|done|by apply omap_id_nil].
  - destruct IH as (pre & t & out & post & -> & ? & ?).
    exists (listed r token (Ok p) :: evs ++ sv ++ pre), t, out, post.
    by rewrite <- app_comm_cons, <- !app_assoc.
Qed.

(** What entitles a run to write [token] into the migration: the last List
    request gave it out, and its page is migrated. *)
Definition entitled (r : schema.GroupVersionResource) (token : string) (pre : list event) : Prop :=
  ∃ before token' out mid, pre = before ++ listed r token' out :: mid ∧ quiet mid ∧
    match out with
    | Ok p => GetContinue p = token ∧ token ≠ "" ∧ all_migrated r (List_Items p) mid
    | Err e => IsResourceExpired e = true ∧ inconsistentContinueToken e = Ok token
    end.

Lemma entitled_later r token x pre : entitled r token pre → entitled r token (x ++ pre).
Proof.
  intros (before & t & out & mid & -> & ?). exists (x ++ before), t, out, mid.
  by rewrite <- app_assoc.
Qed.

Lemma no_update_in evs pre mig err post :
  Forall (λ ev, is_list ev = false ∧ is_svm ev = false) evs →
  evs = pre ++ SVMUpdate mig err :: post → False.
Proof.
  intros HF ->. apply Forall_app in HF as [_ HF]. by apply Forall_cons in HF as [[_ ?] _].
Qed.

(** The update that a save sends in the middle of a run. *)
Lemma split_save (r : schema.GroupVersionResource) name token sv rest pre mig err post hd :
  saves name token sv → sv ++ rest = pre ++ SVMUpdate mig err :: post →
  (∀ k, quiet k → entitled r token (hd ++ k)) →
  (∀ k, rest = k ++ SVMUpdate mig err :: post → entitled r (ContinueToken (svm_Spec mig)) k) →
  entitled r (ContinueToken (svm_Spec mig)) (hd ++ pre).
Proof.
  intros Hs E Hhd Hrest. apply app_split_elem in E as [[k ->]|(k & -> & E)].
  - rewrite (saves_updates _ _ _ mig err Hs) by set_solver. apply Hhd.
    by apply quiet_saves, Forall_app in Hs as [? _].
  - apply Hrest in E. rewrite app_assoc. by apply entitled_later.
Qed.

Lemma run_trace_saves r name token evs result :
  run_trace r name token evs result →
  ∀ pre mig err post, evs = pre ++ SVMUpdate mig err :: post →
    entitled r (ContinueToken (svm_Spec mig)) pre.
Proof.
  induction 1 as [token e HN|token e HN HX HR|token e evs result HN HX HR Hrun IH|token e e' HN HX Ht
    |token e token' sv evs result HN HX Ht Hs Hrun IH|token p evs errs e Hw Ha
    |token p evs Hw Hlast|token p evs sv evs2 result Hw Hmore Hs Hrun IH];
    intros [|hd pre] mig err post E; try discriminate E; injection E as <- E.
  1,2,4: by destruct pre.
  - apply app_split_elem in E as [[k E]|(k & -> & E)].
    + exfalso. revert E. clear. unfold delay_events.
      destruct (SuggestsClientDelay e), pre as [|? []]; intros E; simplify_eq/=.
    + apply (entitled_later _ _ (_ :: _)). by eapply IH.
  - eapply (split_save _ _ _ _ _ _ _ _ _ [listed r token (Err e)]); [done|exact E| |].
    + intros k Hk. by exists [], token, (Err e), k.
    + intros k Ek. by eapply IH.
  - exfalso. by eapply no_update_in; [eapply quiet_worker|].
  - exfalso. by eapply no_update_in; [eapply quiet_worker|].
  - apply app_split_elem in E as [[? E]|(l & -> & E)].
    { exfalso. by eapply no_update_in; [eapply quiet_worker|]. }
    rewrite app_comm_cons. eapply split_save; [done|exact E| |].
    + intros k Hk. exists [], token, (Ok p), (evs ++ k). split_and!; [done| |done|done|].
      * apply Forall_app. split; [|done].
        eapply Forall_impl; [by eapply quiet_worker|]. by intros ? [].
      * by apply all_migrated_app, worker_all_migrated.
    + intros k' Ek. by eapply IH.
Qed.

(** Where the continue token of a List request comes from: it is the loaded
    one, or the answer to the List request before. *)
Definition follows (r : schema.GroupVersionResource) (loaded : string)
    (pre : list event) (token : string) : Prop :=
  (quiet pre ∧ token = loaded) ∨
  ∃ before token' out mid, pre = before ++ listed r token' out :: mid ∧ quiet mid ∧
    match out with
    | Ok p => GetContinue p = token ∧ token ≠ ""
    | Err e => if IsResourceExpired e then inconsistentContinueToken e = Ok token
               else canRetry (Some e) = true ∧ token = token'
    end.

Lemma follows_step r loaded token' hd mid k token :
  quiet mid →
  follows r token' k token → (∀ l, quiet l → follows r loaded (hd :: mid ++ l) token') →
  follows r loaded (hd :: mid ++ k) token.
Proof.
  intros Hmid [[Hk ->]|(before & t & out & mid' & -> & ?)] Hhd; [by apply Hhd|].
  right. exists (hd :: mid ++ before), t, out, mid'. by rewrite <- app_comm_cons, <- app_assoc.
Qed.

Lemma run_trace_follows r name loaded evs result :
  run_trace r name loaded evs result →
  ∀ pre token out post, evs = pre ++ listed r token out :: post → follows r loaded pre token.
Proof.
  assert (∀ token out l pre token' out' post, quiet l →
    listed r token out :: l = pre ++ listed r token' out' :: post →
    follows r token pre token') as Hlast.
  { intros token out l pre token' out' post Hl E. left.
    rewrite <- (app_nil_r l) in E.
    apply split_listed in E as [(-> & ? & _)|(k & _ & E)]; [|by destruct k|done|done].
    simplify_eq. split; [constructor|done]. }
  assert (∀ (ev : list event), Forall (λ ev, is_list ev = false ∧ is_svm ev = false) ev →
    quiet ev) as Hquiet by (intros ev Hev; eapply Forall_impl; [exact Hev|]; by intros ? []).
  induction 1 as [token e HN|token e HN HX HR|token e evs result HN HX HR Hrun IH|token e e' HN HX Ht
    |token e token' sv evs result HN HX Ht Hs Hrun IH|token p evs errs e Hw Ha
    |token p evs Hw Hl|token p evs sv evs2 result Hw Hmore Hs Hrun IH];
    intros pre t out post E.
  1,2,4: by eapply Hlast; [|exact E]; constructor.
  - assert (quiet (delay_events e)) as Hq
      by (unfold delay_events; case_match; by repeat constructor).
    apply split_listed in E as [(-> & ? & ->)|(k & -> & ->)]; [| |done|done].
    + simplify_eq. left. by split; [constructor|].
    + eapply follows_step; [done|by eapply IH|]. intros l Hl. right.
      exists [], token, (Err e), (delay_events e ++ l). rewrite HX.
      split_and!; [done|by apply Forall_app|done|done].
  - apply quiet_saves in Hs.
    apply split_listed in E as [(-> & ? & ->)|(k & -> & ->)]; [| |done|done].
    + simplify_eq. left. by split; [constructor|].
    + eapply follows_step; [done|by eapply IH|]. intros l Hl. right.
      exists [], token, (Err e), (sv ++ l). rewrite HX.
      split_and!; [done|by apply Forall_app|done].
  - by eapply Hlast; [|exact E]; eapply Hquiet, quiet_worker.
  - by eapply Hlast; [|exact E]; eapply Hquiet, quiet_worker.
  - apply quiet_saves in Hs. apply quiet_worker, Hquiet in Hw.
    assert (quiet (evs ++ sv)) as Hq by by apply Forall_app. rewrite app_assoc in E.
    apply split_listed in E as [(-> & ? & ->)|(k & -> & ->)]; [| |done|done].
    + simplify_eq. left. by split; [constructor|].
    + eapply follows_step; [done|by eapply IH|]. intros l Hl. right.
      exists [], token, (Ok p), ((evs ++ sv) ++ l).
      split_and!; [done|by apply Forall_app|done|done].
Qed.

(** A whole run: the load, then the loop. *)
Definition run_events (r : schema.GroupVersionResource) (name : string) (evs : list event)
    (result : option error) : Prop :=
  (∃ e, evs = [SVMGet name (Err e)] ∧ result = Some e) ∨
  ∃ mig evs', evs = SVMGet name (Ok mig) :: evs' ∧
    run_trace r name (ContinueToken (svm_Spec mig)) evs' result.

Lemma Run_run rounds fuel r name w result w' :
  Run rounds fuel (NewMigrator r (NewProgressTracker name)) w = Some (result, w') →
  migration (metrics w') = migration (metrics w) ∧
  ∃ evs, trace w' = trace w ++ evs ∧ run_events r name evs result.
Proof.
  unfold Run. cbn [NewMigrator progress NewProgressTracker load].
  intros (out & w1 & E1 & E)%bind_Some. unfold progressTracker_load, get_migration in E1.
  apply bind_Some in E1 as (r1 & w2 & E2 & E3). rewrite call_Some in E2.
  injection E2 as <- <-. injection E3 as <- <-.
  destruct (svm_Get name (ext w)) as [[mig|e] s1]; simpl in E.
  - apply run_loop_run in E as (HM & evs & HT & Hrun). split; [by rewrite HM|].
    exists (SVMGet name (Ok mig) :: evs). split; [by rewrite HT; simpl; rewrite <- app_assoc|].
    right. by exists mig, evs.
  - injection E as <- <-. split; [done|]. exists [SVMGet name (Err e)]. split; [done|].
    left. by exists e.
Qed.
End trace_facts.

Section run_trace_claims.
Context {C : Type} `{Runtime C} `{DynamicInterface C} `{StorageVersionMigrationInterface C}.
Implicit Types (w : World C) (p : UnstructuredList).

(** C3. When Run returns nil, the migration is complete, whatever the API
    server did: the run starts by loading the saved token, every List request
    continues where the one before it left off (the loaded token, the token a
    page or an expiry error gave out, or the same token after a retriable
    error), the last one was answered by a page without a continue token, and
    every object of every listed page was, after that page was listed, written
    back successfully or found to be gone. *)
Theorem Run_nil_migrated rounds fuel r name w w' :
  Run rounds fuel (NewMigrator r (NewProgressTracker name)) w = Some (None, w') →
  ∃ mig evs, trace w' = trace w ++ SVMGet name (Ok mig) :: evs ∧
    (∀ pre token out post, evs = pre ++ listed r token out :: post →
      follows r (ContinueToken (svm_Spec mig)) pre token) ∧
    (∃ pre token p post, evs = pre ++ listed r token (Ok p) :: post ∧
      GetContinue p = "" ∧ quiet post) ∧
    (∀ pre token p post, evs = pre ++ listed r token (Ok p) :: post →
      all_migrated r (List_Items p) post).
Proof.
  intros (_ & evs & HT & [(e & _ & [=])|(mig & evs' & -> & Hrun)])%Run_run.
  exists mig, evs'. split_and!; [done|by eapply run_trace_follows| |by eapply run_trace_nil].
  destruct (run_trace_end _ _ _ _ _ Hrun) as (pre & t & [p|e] & post & -> & Hq & Hd).
  - destruct Hd as (results & _ & Hc & _). by exists pre, t, p, post.
  - by destruct Hd as (_ & e' & [=] & _).
Qed.

(** C5. The saved progress never runs ahead of the work, whatever the API
    server does: when a run writes a continue token into the migration object,
    that token was given out by the last List request before the write, which
    either returned a page, all of whose objects have been migrated since, or
    failed because its token had expired. *)
Theorem Run_progress_safe rounds fuel r name w result w' :
  Run rounds fuel (NewMigrator r (NewProgressTracker name)) w = Some (result, w') →
  ∃ evs, trace w' = trace w ++ evs ∧
    ∀ pre mig err post, evs = pre ++ SVMUpdate mig err :: post →
      entitled r (ContinueToken (svm_Spec mig)) pre.
Proof.
  intros (_ & evs & HT & [(e & -> & _)|(mig0 & evs' & -> & Hrun)])%Run_run.
  - exists [SVMGet name (Err e)]. split; [done|]. intros pre mig err post E.
    by destruct pre as [|? []].
  - eexists. split; [done|]. intros [|hd pre] mig err post E; [done|]. injection E as <- E.
    apply (entitled_later _ _ [_]). by eapply run_trace_saves.
Qed.

(** C6. Every error Run returns has one of these causes: the migration object
    could not be loaded, and nothing else was done; the last List request
    failed, because the resource does not exist (the error is wrapped), with an
    error that cannot be retried, or with an expired continue token and no new
    one, and nothing was done after it; or it returned a page, after which
    the page's objects were taken through their attempts in order and nothing
    else was done, and the error is the aggregate of the errors, none of which
    can be retried, that those attempts ended with. *)
Theorem Run_error_causes rounds fuel r name w e w' :
  Run rounds fuel (NewMigrator r (NewProgressTracker name)) w = Some (Some e, w') →
  (trace w' = trace w ++ [SVMGet name (Err e)]) ∨
  ∃ pre token out post, trace w' = trace w ++ pre ++ listed r token out :: post ∧
    quiet post ∧ decisive r out post (Some e).
Proof.
  intros (_ & evs & HT & [(e' & -> & [= ->])|(mig & evs' & -> & Hrun)])%Run_run; [by left|].
  right. apply run_trace_end in Hrun as (pre & t & out & post & -> & Hq & Hd).
  exists (SVMGet name (Ok mig) :: pre), t, out, post. by rewrite HT.
Qed.
End run_trace_claims.

(** ** Witnesses: a run through an expired token, conflicts and a gone object *)

Definition rocky_pages (token : string) : res UnstructuredList :=
  if bool_decide (token = "") then Ok (page "old" [object "ns" "a"])
  else if bool_decide (token = "old") then Err (expired "new")
  else Ok (page "" [object "ns" "b"; object "ns" "c"]).

(** The first PUT of a conflicts, the first of b finds it gone. *)
Definition rocky : World cluster :=
  start (set_scripts [] [Some conflict; None; Some not_found] [Some conflict]
    (set_pages rocky_pages (with_svms [pod_migration "pods-1" "" []] empty_cluster))).

Definition rocky_end : World cluster :=
  Eval vm_compute in from_option snd rocky (Run 3 3 pod_migrator rocky).

Lemma rocky_run : Run 3 3 pod_migrator rocky = Some (None, rocky_end).
Proof. vm_compute. reflexivity. Qed.

Lemma Run_nil_migrated_witness :
  Run 3 3 pod_migrator rocky = Some (None, rocky_end) ∧
  ∃ mig evs, trace rocky_end = trace rocky ++ SVMGet "pods-1" (Ok mig) :: evs ∧
    (∀ pre token out post, evs = pre ++ listed pods token out :: post →
      follows pods (ContinueToken (svm_Spec mig)) pre token) ∧
    (∃ pre token p post, evs = pre ++ listed pods token (Ok p) :: post ∧
      GetContinue p = "" ∧ quiet post) ∧
    (∀ pre token p post, evs = pre ++ listed pods token (Ok p) :: post →
      all_migrated pods (List_Items p) post).
Proof.
  split; [exact rocky_run|].
  exact (Run_nil_migrated 3 3 pods "pods-1" rocky rocky_end rocky_run).
Defined.

Lemma Run_progress_safe_witness :
  Run 3 3 pod_migrator rocky = Some (None, rocky_end) ∧
  ∃ evs, trace rocky_end = trace rocky ++ evs ∧
    ∀ pre mig err post, evs = pre ++ SVMUpdate mig err :: post →
      entitled pods (ContinueToken (svm_Spec mig)) pre.
Proof.
  split; [exact rocky_run|].
  exact (Run_progress_safe 3 3 pods "pods-1" rocky None rocky_end rocky_run).
Defined.

(** A page of three objects: a has a conflict and is then migrated, b may not
    be updated, and c is gone. *)
Definition refused : World cluster :=
  start (set_scripts [] [Some conflict; None; Some not_allowed; Some not_found] []
    (set_pages (λ _, Ok (page "" [object "ns" "a"; object "ns" "b"; object "ns" "c"]))
       (with_svms [pod_migration "pods-1" "" []] empty_cluster))).
Definition refused_end : World cluster :=
  Eval vm_compute in from_option snd refused (Run 3 3 pod_migrator refused).
Definition refused_error : error :=
  Eval vm_compute in match Run 3 3 pod_migrator refused with Some (Some e, _) => e | _ => not_allowed end.

Lemma refused_run : Run 3 3 pod_migrator refused = Some (Some refused_error, refused_end).
Proof. vm_compute. reflexivity. Qed.

Lemma Run_error_causes_witness :
  Run 3 3 pod_migrator refused = Some (Some refused_error, refused_end) ∧
  refused_error = EAggregate [not_allowed] ∧
  (trace refused_end = trace refused ++ [SVMGet "pods-1" (Err refused_error)] ∨
   ∃ pre token out post, trace refused_end = trace refused ++ pre ++ listed pods token out :: post ∧
     quiet post ∧ decisive pods out post (Some refused_error)).
Proof.
  split; [exact refused_run|]. split; [reflexivity|].
  exact (Run_error_causes 3 3 pods "pods-1" refused _ refused_end refused_run).
Defined.
