(* ===== verification/Storage.v ===== *)
(** * What a migration is for: objects in the current storage version

    The API server keeps each object in the storage version of its last write.
    [StorageServer] is what the core migrator relies on of a server while the
    storage version of its resource does not change: the documented behaviour
    of reads, writes and paginated lists (Kubernetes API concepts), whatever
    the other clients do meanwhile.  [attempt] is a run of the migrator, or
    time passing. *)
From S2P Require Export Migrator.

Local Open Scope Z_scope.
Import unstructured v1alpha1.

(** Namespace and name. *)
Definition objkey : Type := string * string.
Definition key_of (o : Unstructured) : objkey := (GetNamespace o, GetName o).

Section storage.
Context {C : Type} `{Runtime C} `{DynamicInterface C} `{StorageVersionMigrationInterface C}.

(** [stale c k]: in [c] there is an object [k] in an old storage version.
    [ahead t k]: a list that continues from the token [t] comes to [k].
    [saved_token c]: the continue token in the migration object. *)
Class StorageGhost := {
  stale : C → objkey → Prop;
  ahead : string → objkey → Prop;
  saved_token : C → string;
}.

(** What other clients do: they write in the current version, if at all, and
    leave the continue token to the migrator. *)
Definition calm `{StorageGhost} (c c' : C) : Prop :=
  (∀ k, stale c' k → stale c k) ∧ saved_token c' = saved_token c.

Class StorageServer `{StorageGhost} (r : schema.GroupVersionResource) (name : string) := {
  ahead_start k : ahead "" k;
  rand_calm b c : calm c (rand_upto b c).2;
  (* GET: the object of that name; when it is gone it is not stale *)
  get_calm ns n c : calm c (dyn_Get r ns n c).2;
  get_name ns n c o : (dyn_Get r ns n c).1 = Ok o → GetName o = n;
  get_gone ns n c e : (dyn_Get r ns n c).1 = Err e → IsNotFound e = true → ¬ stale (dyn_Get r ns n c).2 (ns, n);
  (* PUT: a write is in the current version *)
  put_calm ns o c : calm c (dyn_Update r ns o c).2;
  put_current ns o c o' : (dyn_Update r ns o c).1 = Ok o' → ¬ stale (dyn_Update r ns o c).2 (ns, GetName o);
  put_gone ns o c e : (dyn_Update r ns o c).1 = Err e → IsNotFound e = true →
    ¬ stale (dyn_Update r ns o c).2 (ns, GetName o);
  (* LIST: a page has the objects from its token on up to the token it gives,
     which the last page does not; objects it lacks were written since its
     snapshot was taken *)
  list_calm opts c : calm c (dyn_List r opts c).2;
  list_page opts c p k : (dyn_List r opts c).1 = Ok p →
    stale (dyn_List r opts c).2 k → ahead (metav1.Continue opts) k →
    k ∈ key_of <$> List_Items p ∨ (GetContinue p ≠ "" ∧ ahead (GetContinue p) k);
  (* an expired token can be exchanged for one that goes on from the same key *)
  list_expired opts c e t k : (dyn_List r opts c).1 = Err e → IsResourceExpired e = true →
    inconsistentContinueToken e = Ok t → stale (dyn_List r opts c).2 k →
    ahead (metav1.Continue opts) k → ahead t k;
  (* the migration object *)
  svm_get_calm c : calm c (svm_Get name c).2;
  svm_get_token c m : (svm_Get name c).1 = Ok m →
    svm_Name m = name ∧ ContinueToken (svm_Spec m) = saved_token (svm_Get name c).2;
  svm_update_stale m c k : svm_Name m = name → stale (svm_Update m c).2 k → stale c k;
  svm_update_token m c : svm_Name m = name →
    saved_token (svm_Update m c).2 = saved_token c ∨ saved_token (svm_Update m c).2 = ContinueToken (svm_Spec m);
}.

(** A run of the migrator, however it ends, or what others do between runs. *)
Inductive attempt `{StorageGhost} (r : schema.GroupVersionResource) (name : string) : C → C → Prop :=
  | attempt_run rounds fuel err w w' :
      Run rounds fuel (NewMigrator r (NewProgressTracker name)) w = Some (err, w') →
      attempt r name (ext w) (ext w')
  | attempt_others c c' : calm c c' → attempt r name c c'.
End storage.
