(* ===== verification/StorageProps.v ===== *)
(** * Migrations leave nothing in an old storage version *)
From S2P Require Export Storage Sim.

Local Open Scope Z_scope.
Import unstructured v1alpha1.

Section storage_props.
Context {C : Type} `{Runtime C} `{DynamicInterface C} `{StorageVersionMigrationInterface C}
  `{!StorageGhost (C:=C)} (r : schema.GroupVersionResource) (name : string) `{!StorageServer r name}.

#[export] Instance calm_preorder : PreOrder calm.
Proof.
  split; [by split|]. intros c1 c2 c3 [S1 T1] [S2 T2]. split; [eauto|congruence].
Qed.

Lemma calm_stale c c' k : calm c c' → ¬ stale c k → ¬ stale c' k.
Proof. intros [Hs _] Hk ?. by apply Hk, Hs. Qed.

(** Effects on the process only. *)
Lemma ext_call {A} (f : C → A * C) ev w a w' :
  call f ev w = Some (a, w') → a = (f (ext w)).1 ∧ ext w' = (f (ext w)).2.
Proof. rewrite call_Some. by intros [= <- <-]. Qed.

Lemma ext_HandleError err (w w' : World C) u : HandleError err w = Some (u, w') → ext w' = ext w.
Proof. destruct err; intros [= _ <-]; done. Qed.

Lemma ext_client_delay e (w w' : World C) u : client_delay e w = Some (u, w') → ext w' = ext w.
Proof. unfold client_delay. destruct (SuggestsClientDelay e); by intros [= _ <-]. Qed.

(** ** One object *)

Variable m : migrator (C:=C).
Hypothesis Hm : resource m = r.

Lemma try_put_current ns item w g err w' :
  try_put m ns item w = Some (g, err, w') →
  calm (ext w) (ext w') ∧
  ((err = None ∨ ∃ e, err = Some e ∧ IsNotFound e = true) → ¬ stale (ext w') (ns, GetName item)).
Proof.
  unfold try_put, put. rewrite Hm. intros (out & w1 & [-> Hw]%ext_call & E)%bind_Some.
  assert (ext w' = ext w1) as -> by (by destruct (dyn_Update r ns item (ext w)).1; injection E as _ _ <-).
  rewrite Hw. split; [apply put_calm|]. destruct (dyn_Update r ns item (ext w)).1 as [o|e] eqn:Eo;
    injection E as _ <- _.
  - intros _. by eapply put_current.
  - intros [[=]|(e' & [= <-] & He)]. by eapply put_gone.
Qed.

Lemma try_current ns item g w g' err w' :
  try_ m ns (GetName item) item g w = Some (g', err, w') →
  calm (ext w) (ext w') ∧
  ((err = None ∨ ∃ e, err = Some e ∧ IsNotFound e = true) → ¬ stale (ext w') (ns, GetName item)).
Proof.
  unfold try_. destruct g; [|apply try_put_current]. unfold get. rewrite Hm.
  intros (out & w1 & [-> Hw]%ext_call & E)%bind_Some.
  pose proof (get_calm ns (GetName item) (ext w)) as Hc. rewrite <- Hw in Hc.
  destruct (dyn_Get r ns (GetName item) (ext w)).1 as [o|e] eqn:Eo.
  - apply try_put_current in E as [Hc' Hs]. split; [by etrans|]. by rewrite (get_name _ _ _ _ Eo) in Hs.
  - injection E as <- <- <-. split; [done|]. intros [[=]|(e' & [= <-] & He)]. rewrite Hw. by eapply get_gone.
Qed.

Lemma migrate_loop_current fuel ns item g w err w' :
  migrate_loop fuel m ns (GetName item) item g w = Some (err, w') →
  calm (ext w) (ext w') ∧ (err = None → ¬ stale (ext w') (ns, GetName item)).
Proof.
  revert g w. induction fuel as [|fuel IH]; intros g w; [done|]. simpl.
  intros ([g' out] & w1 & [Hc Hs]%try_current & E)%bind_Some.
  destruct out as [e|]; [|injection E as <- <-; split; [done|intros _; apply Hs; by left]].
  destruct (IsNotFound e) eqn:HN; [injection E as <- <-; split; [done|intros _; apply Hs; right; eauto]|].
  destruct (canRetry (Some e)); [|by injection E as <- <-].
  apply bind_Some in E as ([] & w2 & Hd%ext_client_delay & E). apply IH in E as [Hc' Hs'].
  rewrite Hd in Hc'. split; [by etrans|done].
Qed.

(** ** A page *)

Lemma worker_current fuel items w errs w' :
  worker fuel m items w = Some (errs, w') →
  calm (ext w) (ext w') ∧ (errs = [] → ∀ k, k ∈ key_of <$> items → ¬ stale (ext w') k).
Proof.
  revert w errs w'. induction items as [|item items IH]; intros w errs w'; simpl.
  { intros [= <- <-]. split; [done|]. intros _ k. by rewrite elem_of_nil. }
  intros (err & w1 & [Hc Hs]%migrate_loop_current & (errs1 & w2 & [Hc' Hs']%IH & E)%bind_Some)%bind_Some.
  assert (w' = w2) as -> by (by destruct err; injection E as _ <-). split; [by etrans|].
  intros ->. destruct err; [done|]. injection E as ->. intros k [->|Hk]%elem_of_cons; [|by apply Hs'].
  eapply calm_stale; [exact Hc'|]. by apply Hs.
Qed.

Lemma migrateList_current fuel l w err w' :
  migrateList fuel m l w = Some (err, w') →
  calm (ext w) (ext w') ∧ (err = None → ∀ k, k ∈ key_of <$> List_Items l → ¬ stale (ext w') k).
Proof.
  unfold migrateList. intros (errs & w1 & [Hc Hs]%worker_current & [= <- <-])%bind_Some.
  split; [done|]. intros HN%NewAggregate_nil. apply Hs. by destruct errs.
Qed.

(** ** Saving the progress *)

(** Nothing stale lies before the token [t]. *)
Definition covers (t : string) (c : C) : Prop := ∀ k, stale c k → ahead t k.

(** The saved token can be resumed from, and so can [t]. *)
Definition resumable (t : string) (w : World C) : Prop :=
  covers (saved_token (ext w)) (ext w) ∧ covers t (ext w).

Lemma covers_calm t c c' : calm c c' → covers t c → covers t c'.
Proof. intros [Hs _] Ht k Hk. by apply Ht, Hs. Qed.

Lemma resumable_calm t w w' : calm (ext w) (ext w') → resumable t w → resumable t w'.
Proof.
  intros Hc [R1 R2]. split; [|by eapply covers_calm]. destruct Hc as [Hs ->]. intros k Hk. by apply R1, Hs.
Qed.

Lemma resumable_ext t w w' : ext w' = ext w → resumable t w → resumable t w'.
Proof. unfold resumable. by intros ->. Qed.

(** [keeps t c]: [c] keeps the progress resumable, and makes nothing stale. *)
Definition keeps (t : string) (w w' : World C) : Prop :=
  resumable t w → resumable t w' ∧ ∀ k, stale (ext w') k → stale (ext w) k.

Definition keeping {A} (t : string) (n : M (World C) A) : Prop := ∀ w a w', n w = Some (a, w') → keeps t w w'.

Lemma keeps_calm t w w' : calm (ext w) (ext w') → keeps t w w'.
Proof. intros Hc Hr. split; [by eapply resumable_calm|apply Hc]. Qed.

Lemma keeping_ret {A} t (a : A) : keeping t (mret a).
Proof. intros w ? ? [= <- <-]. by apply keeps_calm. Qed.

Lemma keeping_bind {A B} t (n : M (World C) A) (k : A → M (World C) B) :
  keeping t n → (∀ a, keeping t (k a)) → keeping t (n ≫= k).
Proof.
  intros Hn Hk w b w2 (a & w1 & E & E')%bind_Some Hr. destruct (Hn _ _ _ E Hr) as [Hr1 R1].
  destruct (Hk _ _ _ _ E' Hr1) as [Hr2 R2]. split; [done|auto].
Qed.

Lemma keeping_emit t ev : keeping t (emit ev).
Proof. intros w a w' [= _ <-]. by apply keeps_calm. Qed.

Lemma keeping_rand t b : keeping t (silent (rand_upto b)).
Proof. intros w a w'. rewrite silent_Some. intros [= _ <-]. apply keeps_calm, rand_calm. Qed.

Ltac keeping := repeat first [apply keeping_ret | apply keeping_emit | apply keeping_rand
  | apply keeping_bind; [|intros] | case_match].

Lemma keeping_delay t steps duration cap factor jitter : keeping t (delay steps duration cap factor jitter).
Proof. unfold delay, Jitter. cbv zeta. keeping. Qed.

Lemma keeping_backoff {X} t fuel b (condition : Condition X) x :
  (∀ x, keeping t (condition x)) → keeping t (backoff_loop fuel b condition x).
Proof.
  intros Hc. revert b x. induction fuel as [|fuel IH]; intros b x; simpl; keeping; try done.
  apply keeping_delay.
Qed.

(** Writing [t] into the migration object. *)
Lemma keeping_save_attempt t : keeping t (save_attempt name t).
Proof.
  unfold save_attempt, get_migration, update_migration. intros w a w' (out & w1 & [-> Hw]%ext_call & E)%bind_Some.
  assert (calm (ext w) (ext w1)) as Hc by (rewrite Hw; apply svm_get_calm).
  destruct (svm_Get name (ext w)).1 as [mig|e] eqn:Eg; [|injection E as _ <-; by apply keeps_calm].
  apply svm_get_token in Eg as [Hn _]. apply bind_Some in E as (out & w2 & [_ Hw2]%ext_call & [= _ <-]).
  intros Hr%(resumable_calm _ _ _ Hc). assert (∀ k, stale (ext w2) k → stale (ext w1) k) as Hs.
  { rewrite Hw2. intros k. by apply svm_update_stale. }
  split; [|intros k Hk; by apply Hc, Hs]. destruct Hr as [R1 R2]. split; [|intros k Hk; by apply R2, Hs].
  rewrite Hw2 in *. destruct (svm_update_token (with_ContinueToken t mig) (ext w1) Hn) as [->| ->]; intros k Hk;
    [by apply R1, Hs|by apply R2, Hs].
Qed.

Lemma keeping_save t : keeping t (progressTracker_save name t).
Proof.
  unfold progressTracker_save, RetryOnConflict, OnError, ExponentialBackoff. apply keeping_bind.
  - apply keeping_backoff. intros x. apply keeping_bind; [apply keeping_save_attempt|]. intros err. keeping.
  - intros []. apply keeping_ret.
Qed.

(** ** The loop of Run *)

(** A run that may have ended: nothing became stale, the saved token can be
    resumed from, and if it ended well nothing is stale. *)
Definition left_over (out : option error) (w w' : World C) : Prop :=
  (∀ k, stale (ext w') k → stale (ext w) k) ∧ covers (saved_token (ext w')) (ext w') ∧
  (out = None → ∀ k, ¬ stale (ext w') k).

Lemma left_over_error e t w w1 w' :
  keeps t w w1 → ext w' = ext w1 → resumable t w → left_over (Some e) w w'.
Proof. intros Hk Hw Hr. destruct (Hk Hr) as [[Hc _] Hs]. unfold left_over. by rewrite Hw. Qed.

Lemma left_over_trans out w w1 w' :
  (∀ k, stale (ext w1) k → stale (ext w) k) → left_over out w1 w' → left_over out w w'.
Proof. intros Hs (Hs' & Hc & Hn). split_and!; [auto|done|done]. Qed.

Hypothesis Hp : progress m = NewProgressTracker name.

Lemma save_report_again (again : string → M (World C) (option error)) t w w1 out w' :
  (∀ t w out w', again t w = Some (out, w') → resumable t w → left_over out w w') →
  resumable t w1 → (∀ k, stale (ext w1) k → stale (ext w) k) →
  (err ← save (progress m) t; HandleError err ;; again t) w1 = Some (out, w') → left_over out w w'.
Proof.
  intros Hagain Hr Hs. rewrite Hp. intros (err & w2 & Hsave & (u & w3 & Hh & E)%bind_Some)%bind_Some.
  destruct (keeping_save t _ _ _ Hsave Hr) as [Hr2 Hs2]. apply ext_HandleError in Hh.
  apply Hagain in E; [|by eapply resumable_ext]. eapply left_over_trans; [|exact E]. rewrite Hh. auto.
Qed.

Lemma run_iteration_left_over fuel again t w out w' :
  (∀ t w out w', again t w = Some (out, w') → resumable t w → left_over out w w') →
  run_iteration fuel m again t w = Some (out, w') → resumable t w → left_over out w w'.
Proof.
  intros Hagain Hrun Hr. unfold run_iteration, list_ in Hrun. rewrite Hm in Hrun.
  set (opts := {| metav1.Limit := defaultChunkLimit; metav1.Continue := t |}) in *.
  apply bind_Some in Hrun as (l & w1 & [-> Hw]%ext_call & E).
  assert (calm (ext w) (ext w1)) as Hc by (rewrite Hw; apply list_calm).
  pose proof (resumable_calm _ _ _ Hc Hr) as Hr1. pose proof (keeps_calm t _ _ Hc) as Hk.
  destruct (dyn_List r opts (ext w)).1 as [p|e] eqn:El.
  - apply bind_Some in E as (err & w2 & [Hc2 Hcur]%migrateList_current & E).
    assert (calm (ext w) (ext w2)) as Hc' by (by etrans).
    destruct err as [e|]; [injection E as <- <-; by eapply left_over_error; [apply (keeps_calm t)| |]|].
    assert (∀ k, stale (ext w2) k → GetContinue p ≠ "" ∧ ahead (GetContinue p) k) as Hahead.
    { intros k Hst. destruct (list_page opts (ext w) p k El) as [Hin|?]; [|by apply Hr1, Hc2| |done].
      - rewrite <- Hw. by apply Hc2.
      - by destruct (Hcur eq_refl _ Hin). }
    cbn [accessor_Continue] in E. unfold accessor_Continue in E.
    apply bind_Some in E as ([] & w3 & [= <-] & E). case_bool_decide as Ht.
    + injection E as <- <-. split_and!; simpl; [apply Hc'|by apply (resumable_calm t _ _ Hc')|].
      intros _ k Hst. by destruct (Hahead k Hst) as [? _].
    + eapply save_report_again; [exact Hagain| | |exact E].
      * split; [by apply (resumable_calm t _ _ Hc' Hr)|]. intros k Hst. by apply Hahead.
      * apply Hc'.
  - destruct (IsNotFound e); [injection E as <- <-; by eapply left_over_error|].
    destruct (IsResourceExpired e) eqn:Hexp; simpl in E.
    + destruct (inconsistentContinueToken e) as [t'|e'] eqn:Ht; [|injection E as <- <-; by eapply left_over_error].
      eapply save_report_again; [exact Hagain| |apply Hc|exact E]. split; [apply Hr1|].
      intros k Hst. rewrite Hw in Hst. eapply list_expired; [done..|]. apply Hr1. by rewrite Hw.
    + destruct (canRetry (Some e)); [|injection E as <- <-; by eapply left_over_error].
      apply bind_Some in E as ([] & w2 & Hd%ext_client_delay & E).
      apply Hagain in E; [|by eapply resumable_ext]. eapply left_over_trans; [|exact E]. rewrite Hd. apply Hc.
Qed.

Lemma run_loop_left_over rounds fuel t w out w' :
  run_loop rounds fuel m t w = Some (out, w') → resumable t w → left_over out w w'.
Proof.
  revert t w out w'. induction rounds as [|rounds IH]; intros t w out w'; [done|]. simpl.
  apply run_iteration_left_over. exact IH.
Qed.
End storage_props.

Section storage_claims.
Context {C : Type} `{Runtime C} `{DynamicInterface C} `{StorageVersionMigrationInterface C}
  `{!StorageGhost (C:=C)} (r : schema.GroupVersionResource) (name : string) `{!StorageServer r name}.

Lemma Run_left_over rounds fuel w out w' :
  Run rounds fuel (NewMigrator r (NewProgressTracker name)) w = Some (out, w') →
  covers (saved_token (ext w)) (ext w) → left_over out w w'.
Proof.
  intros Hrun Hcov. unfold Run in Hrun. apply bind_Some in Hrun as (res & w1 & Hload & E).
  cbn [progress NewMigrator load NewProgressTracker] in Hload.
  unfold progressTracker_load, get_migration in Hload.
  apply bind_Some in Hload as (out1 & w2 & [-> Hw]%ext_call & [= <- <-]).
  assert (calm (ext w) (ext w2)) as Hc by (rewrite Hw; apply svm_get_calm).
  assert (covers (saved_token (ext w2)) (ext w2)) as Hcov2.
  { destruct Hc as [Hs ->]. intros k Hk. by apply Hcov, Hs. }
  destruct (svm_Get name (ext w)).1 as [mig|e] eqn:Eg.
  - apply svm_get_token in Eg as [_ Ht]. rewrite <- Hw in Ht. rewrite Ht in E.
    eapply left_over_trans; [apply Hc|]. eapply (run_loop_left_over r name); [..|exact E|by split]; reflexivity.
  - injection E as <- <-. split_and!; [apply Hc|done|done].
Qed.

Lemma attempt_covers c c' :
  attempt r name c c' →
  covers (saved_token c) c → covers (saved_token c') c' ∧ ∀ k, stale c' k → stale c k.
Proof.
  destruct 1 as [rounds fuel err w w' Hrun|c c' [Hs Ht]]; intros Hcov.
  - by destruct (Run_left_over _ _ _ _ _ Hrun Hcov) as (? & ? & _).
  - split; [|done]. rewrite Ht. intros k Hk. by apply Hcov, Hs.
Qed.

Lemma attempts_cover c c' :
  rtc (attempt r name) c c' →
  covers (saved_token c) c → covers (saved_token c') c' ∧ ∀ k, stale c' k → stale c k.
Proof.
  induction 1 as [|c c1 c' Hat _ IH]; [done|]. intros [Hcov Hs]%(attempt_covers _ _ Hat).
  destruct (IH Hcov) as [Hcov' Hs']. auto.
Qed.

(** C2. A migration reaches its end.  Take a migration that starts from the
    beginning, and any number of runs of the migrator, however each ended,
    with other clients at work all the time, as long as the storage version
    does not change: at any moment nothing in an old version lies before the
    saved continue token, so that no later run skips it; and once a run has
    returned nil, no object of the resource is in an old version any more. *)
Theorem migration_completes c0 :
  saved_token c0 = "" →
  (∀ c, rtc (attempt r name) c0 c → ∀ k, stale c k → ahead (saved_token c) k) ∧
  (∀ rounds fuel w w' c, rtc (attempt r name) c0 (ext w) →
     Run rounds fuel (NewMigrator r (NewProgressTracker name)) w = Some (None, w') →
     rtc (attempt r name) (ext w') c → ∀ k, ¬ stale c k).
Proof.
  intros Ht. assert (covers (saved_token c0) c0) as Hcov by (rewrite Ht; intros k _; apply ahead_start).
  split; [intros c Hc; by apply (attempts_cover _ _ Hc)|].
  intros rounds fuel w w' c Hw Hrun Hc k Hk. destruct (attempts_cover _ _ Hw Hcov) as [Hcovw _].
  destruct (Run_left_over _ _ _ _ _ Hrun Hcovw) as (_ & Hcovw' & Hnone).
  destruct (attempts_cover _ _ Hc Hcovw') as [_ Hs]. by apply (Hnone eq_refl k), Hs.
Qed.
End storage_claims.

(** ** A server of two objects, in pages of one *)

Record two_objects := { a_stale : bool; b_stale : bool; two_token : string; two_conflicts : nat }.

Definition rewritten (n : string) (c : two_objects) : two_objects :=
  {| a_stale := a_stale c && negb (bool_decide (n = "a")); b_stale := b_stale c && negb (bool_decide (n = "b"));
     two_token := two_token c; two_conflicts := two_conflicts c |}.

#[local] Instance two_runtime : Runtime two_objects.
Proof. refine {| time_Now := λ c, (0, c); rand_upto := λ _ c, (0, c) |}. intros b c Hb. simpl. lia. Defined.

#[local] Instance two_dynamic : DynamicInterface two_objects := {|
  dyn_Get := λ _ ns n c, (Ok (object ns n), c);
  dyn_Update := λ _ ns o c,
    match two_conflicts c with
    | O => (Ok o, if bool_decide (ns = "") then rewritten (GetName o) c else c)
    | Datatypes.S n => (Err conflict, {| a_stale := a_stale c; b_stale := b_stale c; two_token := two_token c;
                                         two_conflicts := n |})
    end;
  dyn_List := λ _ opts c,
    (Ok (if bool_decide (metav1.Continue opts = "b") then page "" [object "" "b"] else page "b" [object "" "a"]), c);
|}.

#[local] Instance two_svm : StorageVersionMigrationInterface two_objects := {|
  svm_Get := λ n c, (Ok (pod_migration n (two_token c) []), c);
  svm_Update := λ m c, (Ok m, {| a_stale := a_stale c; b_stale := b_stale c;
                                 two_token := ContinueToken (svm_Spec m); two_conflicts := two_conflicts c |});
  svm_UpdateStatus := λ m c, (Err unavailable, c);
  svm_Create := λ m c, (Err unavailable, c);
  svm_Delete := λ n c, (Some unavailable, c);
|}.

#[local] Instance two_ghost : StorageGhost (C:=two_objects) := {|
  stale := λ c k, (k = ("", "a") ∧ a_stale c = true) ∨ (k = ("", "b") ∧ b_stale c = true);
  ahead := λ t k, t = "b" → k = ("", "b");
  saved_token := two_token;
|}.

Lemma two_update_calm ns o c : calm c (dyn_Update pods ns o c).2.
Proof.
  simpl. destruct (two_conflicts c); simpl; [|done]. case_bool_decide; [|done]. split; [|done].
  intros k [[-> Ha]|[-> Hb]]; simpl in *; [left|right]; split; try done;
    [by destruct (a_stale c)|by destruct (b_stale c)].
Qed.

Lemma two_current ns o c o' :
  (dyn_Update pods ns o c).1 = Ok o' → ¬ stale (dyn_Update pods ns o c).2 (ns, GetName o).
Proof.
  simpl. destruct (two_conflicts c); [|done]. intros _. simpl. case_bool_decide as Hns.
  - intros [[[= _ E] Ha]|[[= _ E] Hb]]; simpl in *.
    + rewrite bool_decide_eq_true_2 in Ha by done. by destruct (a_stale c).
    + rewrite bool_decide_eq_true_2 in Hb by done. by destruct (b_stale c).
  - by intros [[[= ? _] _]|[[= ? _] _]].
Qed.

#[local] Instance two_server : StorageServer (C:=two_objects) pods "m".
Proof.
  split; try done.
  - intros ns n c o [= <-]. done.
  - apply two_update_calm.
  - apply two_current.
  - intros ns o c e. simpl. by destruct (two_conflicts c); intros [= <-].
  - intros opts c p k [= <-]. simpl. case_bool_decide as Ht; intros [[-> Ha]|[-> Hb]] Hk.
    + by specialize (Hk Ht).
    + left. by left.
    + left. by left.
    + right. done.
  - intros c m [= <-]. done.
  - intros m c. by right.
Qed.

(** Both objects are stale, the first write conflicts; another client writes b
    before the run. *)
Definition two_start : two_objects := {| a_stale := true; b_stale := true; two_token := ""; two_conflicts := 1 |}.

Definition two_begin : World two_objects :=
  {| ext := rewritten "b" two_start; trace := []; metrics := newCoreMigratorMetrics |}.

Definition two_end : World two_objects :=
  Eval vm_compute in
    from_option snd two_begin (Run 2 3 (NewMigrator pods (NewProgressTracker "m")) two_begin).

Lemma migration_completes_witness :
  stale two_start ("", "a") ∧
  Run 2 3 (NewMigrator pods (NewProgressTracker "m")) two_begin = Some (None, two_end) ∧
  saved_token (ext two_end) = "b" ∧
  (∀ k, stale (ext two_begin) k → ahead (saved_token (ext two_begin)) k) ∧ ∀ k, ¬ stale (ext two_end) k.
Proof.
  assert (rtc (attempt pods "m") two_start (ext two_begin)) as Hrtc.
  { eapply rtc_l; [|apply rtc_refl]. apply attempt_others. split; [|reflexivity].
    intros k [[-> _]|[-> Hb]]; [left; split; reflexivity|]. vm_compute in Hb. discriminate. }
  assert (Run 2 3 (NewMigrator pods (NewProgressTracker "m")) two_begin = Some (None, two_end)) as Hrun
    by (vm_compute; reflexivity).
  destruct (migration_completes pods "m" two_start) as [Htok Hend]; [reflexivity|].
  split; [left; split; reflexivity|]. split; [exact Hrun|]. split; [reflexivity|].
  split; [apply Htok; exact Hrtc|]. eapply Hend; [exact Hrtc|exact Hrun|apply rtc_refl].
Defined.
