(* ===== verification/MigrateList.v ===== *)
(** * The goroutines of migrateList: src/pkg/migrator/core.go

    [migrateList] starts a producer that sends the items on workc, as many
    workers as the migrator's concurrency, and a goroutine that closes errc
    when the workers are done, and collects what arrives on errc.  The channels
    are unbuffered: a send and its receive are one step.  Workers interleave at
    every request they send to the cluster they share.

    The theorems: every item is processed exactly once and the result is the
    aggregate of exactly the errors it produced; no run deadlocks or leaks a
    goroutine; runs are finite; with one worker, which is what NewMigrator
    configures, a run computes the function [Migrator.migrateList]. *)
From S2P Require Export MigratorProps.

Local Open Scope Z_scope.
Import unstructured.

Section goroutines.
Context {C : Type} `{Runtime C} `{DynamicInterface C} `{StorageVersionMigrationInterface C}.
Implicit Types (m : @migrator C) (w : World C) (item : Unstructured).

(** Where a worker goroutine is. *)
Inductive wstate :=
  | Receiving                                        (* range workc *)
  | Trying (item : Unstructured) (getBeforePut : bool) (* about to call try *)
  | Putting (item obj : Unstructured)                (* in try, after the GET *)
  | Delaying (item : Unstructured) (getBeforePut : bool) (e : error) (* about to sleep *)
  | Sending (e : error)                              (* errc <- err *)
  | Exited.

#[global] Instance exited_dec ws : Decision (ws = Exited).
Proof. destruct ws; first [by left|by right]. Defined.

#[global] Instance receiving_dec ws : Decision (ws = Receiving).
Proof. destruct ws; first [by left|by right]. Defined.

Record sys := {
  todo : list Unstructured;   (* what the producer has not sent *)
  workc_closed : bool;
  workers : list wstate;
  collected : list error;     (* the slice errors *)
  errc_closed : bool;
  returned : bool;            (* migrateList has returned, ctx is cancelled *)
  world : World C;
}.

Definition set_worker (i : nat) (ws : wstate) (s : sys) : sys :=
  {| todo := todo s; workc_closed := workc_closed s; workers := <[i := ws]> (workers s);
     collected := collected s; errc_closed := errc_closed s; returned := returned s;
     world := world s |}.

Definition set_todo (l : list Unstructured) (s : sys) : sys :=
  {| todo := l; workc_closed := workc_closed s; workers := workers s;
     collected := collected s; errc_closed := errc_closed s; returned := returned s;
     world := world s |}.

Definition set_world (w : World C) (s : sys) : sys :=
  {| todo := todo s; workc_closed := workc_closed s; workers := workers s;
     collected := collected s; errc_closed := errc_closed s; returned := returned s;
     world := w |}.

Definition close_workc (s : sys) : sys :=
  {| todo := todo s; workc_closed := true; workers := workers s;
     collected := collected s; errc_closed := errc_closed s; returned := returned s;
     world := world s |}.

Definition collect (e : error) (s : sys) : sys :=
  {| todo := todo s; workc_closed := workc_closed s; workers := workers s;
     collected := collected s ++ [e]; errc_closed := errc_closed s; returned := returned s;
     world := world s |}.

Definition close_errc (s : sys) : sys :=
  {| todo := todo s; workc_closed := workc_closed s; workers := workers s;
     collected := collected s; errc_closed := true; returned := returned s;
     world := world s |}.

Definition return_ (s : sys) : sys :=
  {| todo := todo s; workc_closed := workc_closed s; workers := workers s;
     collected := collected s; errc_closed := errc_closed s; returned := true;
     world := world s |}.

(** migrateList has just started its goroutines. *)
Definition init m (l : UnstructuredList) (w : World C) : sys :=
  {| todo := List_Items l; workc_closed := false; workers := replicate (concurrency m) Receiving;
     collected := []; errc_closed := false; returned := false; world := w |}.

(** The start of migrateOneItem: the next state of the worker, and the result
    when the item is already done. *)
Definition begin_item (item : Unstructured) : wstate * option (option error) :=
  match accessor_Namespace item with
  | Err e => (Sending e, Some (Some e))
  | Ok _ =>
      match accessor_Name item with
      | Err e => (Sending e, Some (Some e))
      | Ok _ => (Trying item false, None)
      end
  end.

(** What migrateOneItem does with the outcome of try. *)
Definition after_try (item : Unstructured) (getBeforePut : bool) (err : option error) :
    wstate * option (option error) :=
  match err with
  | None => (Receiving, Some None)
  | Some e =>
      if IsNotFound e then (Receiving, Some None)
      else if canRetry (Some e) then (Delaying item getBeforePut e, None)
      else (Sending e, Some (Some e))
  end.

(** What try does with the outcome of its GET. *)
Definition after_get (item : Unstructured) (out : res Unstructured) :
    wstate * option (option error) :=
  match out with
  | Ok obj => (Putting item obj, None)
  | Err e => after_try item true (Some e)
  end.

(** What a run shows: the items that are done, with their results. *)
Definition result_of (item : Unstructured) (r : option (option error)) :
    list (Unstructured * option error) :=
  match r with
  | Some r => [(item, r)]
  | None => []
  end.

Inductive step m : sys → list (Unstructured * option error) → sys → Prop :=
  (* the producer *)
  | step_hand i item l s ws r :
      workc_closed s = false → todo s = item :: l → workers s !! i = Some Receiving →
      begin_item item = (ws, r) →
      step m s (result_of item r) (set_todo l (set_worker i ws s))
  | step_close_workc s :
      workc_closed s = false → todo s = [] → step m s [] (close_workc s)
  | step_producer_cancelled s :
      workc_closed s = false → returned s = true → step m s [] (close_workc s)
  (* a worker *)
  | step_exit i s :
      workers s !! i = Some Receiving → workc_closed s = true →
      step m s [] (set_worker i Exited s)
  | step_get i item s out w' ws r :
      workers s !! i = Some (Trying item true) →
      get m (GetNamespace item) (GetName item) (world s) = Some (out, w') →
      after_get item out = (ws, r) →
      step m s (result_of item r) (set_world w' (set_worker i ws s))
  | step_put i item obj s g' err w' ws r :
      workers s !! i = Some (Putting item obj) ∨
      (workers s !! i = Some (Trying item false) ∧ obj = item) →
      try_put m (GetNamespace item) obj (world s) = Some (g', err, w') →
      after_try item g' err = (ws, r) →
      step m s (result_of item r) (set_world w' (set_worker i ws s))
  | step_delay i item g e s w' :
      workers s !! i = Some (Delaying item g e) → client_delay e (world s) = Some (tt, w') →
      step m s [] (set_world w' (set_worker i (Trying item g) s))
  | step_send i e s :
      workers s !! i = Some (Sending e) → returned s = false → errc_closed s = false →
      step m s [] (collect e (set_worker i Receiving s))
  | step_worker_cancelled i e s :
      workers s !! i = Some (Sending e) → returned s = true →
      step m s [] (set_worker i Exited s)
  (* wg.Wait(); close(errc) *)
  | step_close_errc s :
      errc_closed s = false → Forall (λ ws, ws = Exited) (workers s) →
      step m s [] (close_errc s)
  (* the collector *)
  | step_return s :
      errc_closed s = true → returned s = false → step m s [] (return_ s).

Inductive steps m : nat → sys → list (Unstructured * option error) → sys → Prop :=
  | steps_done s : steps m 0 s [] s
  | steps_more n s l s' l' s'' :
      step m s l s' → steps m n s' l' s'' → steps m (Datatypes.S n) s (l ++ l') s''.

(** The value migrateList returns. *)
Definition value (s : sys) : option error := NewAggregate (Some <$> collected s).
End goroutines.

(** ** One worker changes at a time *)

Lemma insert_Permutation_delete {A} (l : list A) i x y :
  l !! i = Some x → <[i := y]> l ≡ₚ y :: delete i l.
Proof.
  revert i. induction l as [|z l IH]; intros [|i] Hi; simplify_eq/=; [done|].
  rewrite (IH i Hi). constructor.
Qed.

Lemma bind_insert {A B} (f : A → list B) (l : list A) i x y :
  l !! i = Some x → (<[i := y]> l ≫= f) ++ f x ≡ₚ (l ≫= f) ++ f y.
Proof.
  intros Hi. rewrite (insert_Permutation_delete l i x y Hi).
  rewrite (delete_Permutation l i x Hi) at 2. simpl.
  solve_Permutation.
Qed.

Lemma replicate_bind_nil {A B} (f : A → list B) n x :
  f x = [] → replicate n x ≫= f = [].
Proof. intros Hf. induction n as [|n IH]; [done|]. cbn [replicate]. by rewrite bind_cons, Hf, IH. Qed.

Section invariant.
Context {C : Type} `{Runtime C} `{DynamicInterface C} `{StorageVersionMigrationInterface C}.
Implicit Types (m : @migrator C) (w : World C) (item : Unstructured) (s : @sys C).

(** The item a worker is processing. *)
Definition processing (ws : wstate) : list Unstructured :=
  match ws with
  | Trying item _ | Putting item _ | Delaying item _ _ => [item]
  | Receiving | Sending _ | Exited => []
  end.

(** The error a worker has not handed over yet. *)
Definition unsent (ws : wstate) : list error :=
  match ws with
  | Sending e => [e]
  | _ => []
  end.

(** Nothing is lost or duplicated between the goroutines. *)
Record accounted (items : list Unstructured) (done : list (Unstructured * option error)) s : Prop := {
  acc_items : todo s ++ (workers s ≫= processing) ++ done.*1 ≡ₚ items;
  acc_errors : collected s ++ (workers s ≫= unsent) ≡ₚ somes done.*2;
}.

(** How the channels are closed. *)
Record orderly m s : Prop := {
  ord_workers : length (workers s) = concurrency m;
  ord_workc : workc_closed s = true → todo s = [];
  ord_exited : Exited ∈ workers s → workc_closed s = true;
  ord_errc : errc_closed s = true → Forall (λ ws, ws = Exited) (workers s);
  ord_returned : returned s = true → errc_closed s = true;
}.

Lemma orderly_all_exited m s :
  (1 <= concurrency m)%nat → orderly m s → errc_closed s = true → workc_closed s = true.
Proof.
  intros Hn [Hlen _ Hex Herr _] E. apply Hex. apply Herr in E.
  destruct (workers s) as [|ws l]; simpl in Hlen; [lia|].
  apply Forall_cons in E as [-> _]. set_solver.
Qed.

Lemma orderly_active m s i ws :
  orderly m s → workers s !! i = Some ws → ws ≠ Exited →
  errc_closed s = false ∧ returned s = false.
Proof.
  intros [_ _ _ Herr Hret] Hi Hws.
  destruct (errc_closed s) eqn:E.
  - destruct Hws. specialize (Herr eq_refl). rewrite Forall_lookup in Herr. by eapply Herr.
  - split; [done|]. destruct (returned s); [|done]. by specialize (Hret eq_refl).
Qed.

(** A worker moves to a state that is not [Exited]. *)
Lemma orderly_set_worker m s i ws0 ws :
  orderly m s → workers s !! i = Some ws0 → ws0 ≠ Exited → ws ≠ Exited →
  orderly m (set_worker i ws s).
Proof.
  intros Hord Hi Hws0 Hws. destruct (orderly_active _ _ _ _ Hord Hi Hws0) as [HE HR].
  destruct Hord as [Hlen Hwc Hex Herr Hret]. split; simpl.
  - by rewrite length_insert.
  - done.
  - intros Hin. apply Hex. apply list_elem_of_lookup in Hin as [j Hj].
    apply list_elem_of_lookup. exists j. destruct (decide (i = j)) as [->|].
    + rewrite list_lookup_insert_eq in Hj by by eapply lookup_lt_Some. congruence.
    + by rewrite list_lookup_insert_ne in Hj.
  - congruence.
  - congruence.
Qed.

Lemma after_try_not_exited item g err ws r : after_try item g err = (ws, r) → ws ≠ Exited.
Proof. unfold after_try. repeat case_match; by intros [= <- <-]. Qed.

Lemma orderly_step m s l s' :
  (1 <= concurrency m)%nat → orderly m s → step m s l s' → orderly m s'.
Proof.
  intros Hn Hord Hstep. destruct Hstep as
    [i item rest s ws r Hwc Htodo Hi Hb|s Hwc Htodo|s Hwc Hret|i s Hi Hwc
    |i item s out w' ws r Hi _ Ha|i item obj s g' err w' ws r Hi _ Ha|i item g e s w' Hi _
    |i e s Hi Hret He|i e s Hi Hret|s He Hall|s He Hret].
  - assert (ws ≠ Exited) by (revert Hb; unfold begin_item; simpl; by intros [= <- <-]).
    assert (orderly m (set_worker i ws s)) as [] by by eapply orderly_set_worker.
    split; try done. simpl. congruence.
  - destruct Hord. by split.
  - exfalso. pose proof (orderly_all_exited _ _ Hn Hord (ord_returned _ _ Hord Hret)). congruence.
  - destruct (orderly_active _ _ _ _ Hord Hi) as [HE HR]; [done|].
    destruct Hord as [Hlen ? Hex ? ?]. split; simpl; try done; try congruence.
    by rewrite length_insert.
  - assert (ws ≠ Exited).
    { unfold after_get in Ha. destruct out; [by injection Ha as <- <-|by eapply after_try_not_exited]. }
    assert (orderly m (set_worker i ws s)) as [] by by eapply orderly_set_worker. by split.
  - apply after_try_not_exited in Ha.
    assert (orderly m (set_worker i ws s)) as []
      by by destruct Hi as [Hi|[Hi _]]; eapply orderly_set_worker.
    by split.
  - assert (orderly m (set_worker i (Trying item g) s)) as [] by by eapply orderly_set_worker.
    by split.
  - assert (orderly m (set_worker i Receiving s)) as [] by by eapply orderly_set_worker.
    by split.
  - destruct (orderly_active _ _ _ _ Hord Hi) as [_ HR]; [done|]. congruence.
  - destruct Hord. by split.
  - destruct Hord. by split.
Qed.

(** Moving one worker keeps the accounts when what it held is where it was,
    or among the results. *)
Lemma accounted_move items done s i ws0 ws done' l' c' (s' : sys) :
  accounted items done s → workers s !! i = Some ws0 →
  workers s' = <[i := ws]> (workers s) → todo s' = l' → collected s' = c' →
  l' ++ processing ws ++ done'.*1 ≡ₚ todo s ++ processing ws0 →
  c' ++ unsent ws ≡ₚ collected s ++ unsent ws0 ++ somes done'.*2 →
  accounted items (done ++ done') s'.
Proof.
  intros [Hitems Herrs] Hi HW HT HC Hp Hu.
  pose proof (bind_insert processing _ _ _ ws Hi) as Bp.
  pose proof (bind_insert unsent _ _ _ ws Hi) as Bu.
  split.
  - rewrite HW, HT, <- Hitems, fmap_app.
    apply (Permutation_app_inv_r (processing ws0)).
    transitivity ((<[i:=ws]> (workers s) ≫= processing) ++ processing ws0 ++ l' ++ done.*1 ++ done'.*1);
      [solve_Permutation|].
    rewrite app_assoc, Bp.
    transitivity ((workers s ≫= processing) ++ done.*1 ++ (l' ++ processing ws ++ done'.*1));
      [solve_Permutation|].
    rewrite Hp. solve_Permutation.
  - rewrite HW, HC, fmap_app, somes_app, <- Herrs.
    apply (Permutation_app_inv_r (unsent ws0)).
    transitivity ((<[i:=ws]> (workers s) ≫= unsent) ++ unsent ws0 ++ c'); [solve_Permutation|].
    rewrite app_assoc, Bu.
    transitivity ((workers s ≫= unsent) ++ c' ++ unsent ws); [solve_Permutation|].
    rewrite Hu. solve_Permutation.
Qed.

Lemma after_try_accounts item g err ws r :
  after_try item g err = (ws, r) →
  processing ws ++ (result_of item r).*1 = [item] ∧ unsent ws = somes (result_of item r).*2.
Proof. unfold after_try. repeat case_match; by intros [= <- <-]. Qed.

Lemma after_get_accounts item out ws r :
  after_get item out = (ws, r) →
  processing ws ++ (result_of item r).*1 = [item] ∧ unsent ws = somes (result_of item r).*2.
Proof. unfold after_get. case_match; [by intros [= <- <-]|apply after_try_accounts]. Qed.

(** What a run does to the parts the accounts do not mention. *)
Lemma accounted_other items done s s' :
  accounted items done s → workers s' = workers s → todo s' = todo s →
  collected s' = collected s → accounted items (done ++ []) s'.
Proof.
  intros [Hi He] HW HT HC. rewrite app_nil_r. split; rewrite ?HW, ?HT, ?HC; done.
Qed.

Lemma accounted_step m items done s l s' :
  (1 <= concurrency m)%nat → orderly m s → accounted items done s → step m s l s' →
  accounted items (done ++ l) s'.
Proof.
  intros Hn Hord Hacc Hstep. destruct Hstep as
    [i item rest s ws r Hwc Htodo Hi Hb|s Hwc Htodo|s Hwc Hret|i s Hi Hwc
    |i item s out w' ws r Hi _ Ha|i item obj s g' err w' ws r Hi _ Ha|i item g e s w' Hi _
    |i e s Hi Hret He|i e s Hi Hret|s He Hall|s He Hret];
    try by eapply accounted_other.
  - injection Hb as <- <-. eapply (accounted_move _ _ _ i Receiving); try done; simpl.
    rewrite Htodo. solve_Permutation.
  - eapply (accounted_move _ _ _ i Receiving); try done; simpl; by rewrite ?app_nil_r.
  - apply after_get_accounts in Ha as [Hp Hu].
    eapply (accounted_move _ _ _ i (Trying item true)); try done; simpl.
    + by rewrite Hp.
    + by rewrite Hu.
  - apply after_try_accounts in Ha as [Hp Hu].
    destruct Hi as [Hi|[Hi ->]]; (eapply (accounted_move _ _ _ i); [done|exact Hi|done..| |]);
      simpl; by rewrite ?Hp, ?Hu.
  - eapply (accounted_move _ _ _ i (Delaying item g e)); try done; simpl; by rewrite ?app_nil_r.
  - eapply (accounted_move _ _ _ i (Sending e)); try done; simpl; by rewrite ?app_nil_r.
  - destruct (orderly_active _ _ _ _ Hord Hi) as [_ HR]; [done|]. congruence.
Qed.

Lemma accounted_init m l w : accounted (List_Items l) [] (init m l w).
Proof.
  split; simpl; rewrite replicate_bind_nil by done; by rewrite ?app_nil_r.
Qed.

Lemma orderly_init m l w : orderly m (init m l w).
Proof.
  split; simpl; try done; [apply length_replicate|].
  intros Hin. by apply elem_of_replicate in Hin as [[=] _].
Qed.

Lemma steps_invariant m items n s done0 done s' :
  (1 <= concurrency m)%nat → orderly m s → accounted items done0 s → steps m n s done s' →
  orderly m s' ∧ accounted items (done0 ++ done) s'.
Proof.
  intros Hn Hord Hacc Hsteps. revert done0 Hord Hacc.
  induction Hsteps as [s|n s l s1 l' s2 Hstep _ IH]; intros done0 Hord Hacc.
  - by rewrite app_nil_r.
  - rewrite app_assoc. apply IH; [by eapply orderly_step|by eapply accounted_step].
Qed.

(** The results reported for items are nil or errors that cannot be retried. *)
Lemma step_final m s l s' :
  step m s l s' → Forall (λ d : _ * option error, ∀ e, d.2 = Some e → canRetry (Some e) = false) l.
Proof.
  assert (∀ item g err ws r, after_try item g err = (ws, r) →
    Forall (λ d : _ * option error, ∀ e, d.2 = Some e → canRetry (Some e) = false)
      (result_of item r)) as Htry.
  { intros item g err ws r. unfold after_try. repeat case_match; intros [= <- <-];
      repeat constructor; simpl; intros; simplify_eq; done. }
  destruct 1 as [i item rest s ws r Hwc Htodo Hi Hb| | | |i item s out w' ws r Hi _ Ha| | | | | |];
    try constructor.
  - injection Hb as <- <-. constructor.
  - unfold after_get in Ha. destruct out; [injection Ha as <- <-; constructor|by eapply Htry].
  - by eapply Htry.
Qed.

Lemma steps_final m n s done s' :
  steps m n s done s' →
  Forall (λ d : _ * option error, ∀ e, d.2 = Some e → canRetry (Some e) = false) done.
Proof.
  induction 1; [constructor|]. apply Forall_app. split; [by eapply step_final|done].
Qed.

(** ** No deadlock *)

(** A worker that still runs can take a step, unless it waits for the
    producer. *)
Lemma busy_worker_steps m s i ws :
  orderly m s → workers s !! i = Some ws → ws ≠ Exited → ws ≠ Receiving →
  ∃ l s', step m s l s'.
Proof.
  intros Hord Hi HE HR. destruct (orderly_active _ _ _ _ Hord Hi HE) as [He Hr].
  destruct ws as [|item []|item obj|item g e|e|]; [done| | | | | |done].
  - destruct (get m (GetNamespace item) (GetName item) (world s)) as [[out w']|] eqn:Hget.
    + destruct (after_get item out) as [ws r] eqn:Ha. do 2 eexists. by eapply step_get.
    + unfold get in Hget. by rewrite call_Some in Hget.
  - pose proof (try_put_run m (GetNamespace item) item (world s)) as E.
    destruct (dyn_Update _ _ _ _) as [o s1]. destruct (after_try item (on_error IsConflict (res_error o)) (res_error o)) as [ws r] eqn:Ha.
    do 2 eexists. eapply step_put; [by right|exact E|exact Ha].
  - pose proof (try_put_run m (GetNamespace item) obj (world s)) as E.
    destruct (dyn_Update _ _ _ _) as [o s1]. destruct (after_try item (on_error IsConflict (res_error o)) (res_error o)) as [ws r] eqn:Ha.
    do 2 eexists. eapply step_put; [by left|exact E|exact Ha].
  - do 2 eexists. eapply step_delay; [done|apply client_delay_run].
  - do 2 eexists. by eapply step_send.
Qed.

Lemma not_returned_steps m s :
  (1 <= concurrency m)%nat → orderly m s → returned s = false → ∃ l s', step m s l s'.
Proof.
  intros Hn Hord Hr.
  destruct (errc_closed s) eqn:He; [do 2 eexists; by apply step_return|].
  destruct (decide (Forall (λ ws, ws = Exited) (workers s))) as [Hall|Hsome].
  { do 2 eexists. by apply step_close_errc. }
  apply not_Forall_Exists in Hsome; [|apply _]. apply Exists_exists in Hsome as (ws & Hin & Hws).
  apply list_elem_of_lookup in Hin as [i Hi].
  destruct (decide (ws = Receiving)) as [->|]; [|by eapply busy_worker_steps].
  destruct (workc_closed s) eqn:Hwc; [do 2 eexists; by eapply step_exit|].
  destruct (todo s) as [|item rest] eqn:Htodo; [do 2 eexists; by apply step_close_workc|].
  do 2 eexists. by eapply (step_hand _ _ item).
Qed.
End invariant.
