(* ===== verification/MigrateListProps.v ===== *)
(** * Theorems about the goroutines of migrateList

    What a finished run has done, that runs are finite and never stuck, and
    that with one worker they compute [Migrator.migrateList]. *)
From S2P Require Export MigrateList.

Local Open Scope Z_scope.
Import unstructured.

Lemma sum_list_with_insert {A} (f : A → nat) (l : list A) i x y :
  l !! i = Some x →
  (sum_list_with f (<[i := y]> l) + f x = sum_list_with f l + f y)%nat.
Proof.
  revert i. induction l as [|z l IH]; intros [|i] Hi; simplify_eq/=; [lia|].
  specialize (IH i Hi). lia.
Qed.

Section measure.
Context {C : Type} `{Runtime C} `{DynamicInterface C} `{StorageVersionMigrationInterface C}.
Implicit Types (m : @migrator C) (w : World C) (s : @sys C).

(** ** Runs are finite *)

(** The server recovers for every object: [rank] goes down with every answer
    that makes the migrator try again, and never goes up. *)
Record steady (rank : C → nat) m : Prop := {
  steady_recovers : ∀ ns name, recovers rank m ns name;
  steady_get : ∀ ns name c, (rank (dyn_Get (resource m) ns name c).2 <= rank c)%nat;
  steady_put : ∀ ns obj c, (rank (dyn_Update (resource m) ns obj c).2 <= rank c)%nat;
}.

(** How many more steps a worker can take without help of the server. *)
Definition weight (ws : wstate) : nat :=
  match ws with
  | Exited => 0
  | Receiving => 1
  | Sending _ => 2
  | Trying _ false | Putting _ _ => 3
  | Trying _ true => 4
  | Delaying _ _ _ => 5
  end.

Definition open (closed : bool) : nat := if closed then 0 else 1.

Definition measure (rank : C → nat) s : nat :=
  3 * length (todo s) + sum_list_with weight (workers s) + 3 * rank (ext (world s)) +
  open (workc_closed s) + open (errc_closed s) + open (returned s).

(** What a request costs the worker is paid for by the rank. *)
Lemma after_try_weight (rank : C → nat) item g err ws r (s s' : C) :
  after_try item g err = (ws, r) →
  match err with
  | Some e => (rank s' < rank s)%nat ∨ IsNotFound e = true ∨ canRetry (Some e) = false
  | None => True
  end →
  (rank s' <= rank s)%nat → (weight ws + 3 * rank s' < 3 + 3 * rank s)%nat.
Proof.
  unfold after_try. intros Ha Hr Hle. destruct err as [e|].
  - destruct (IsNotFound e); [injection Ha as <- <-; simpl; lia|].
    destruct (canRetry (Some e)); injection Ha as <- <-; simpl; [|lia].
    destruct Hr as [?|[?|?]]; [lia|done|done].
  - injection Ha as <- <-. simpl. lia.
Qed.

Lemma get_measure rank m ns name item ws r w out w' :
  steady rank m → get m ns name w = Some (out, w') → after_get item out = (ws, r) →
  (weight ws + 3 * rank (ext w') < 4 + 3 * rank (ext w))%nat.
Proof.
  intros Hst E Ha. unfold get in E. rewrite call_Some in E. injection E as <- <-. simpl.
  pose proof (steady_get _ _ Hst ns name (ext w)) as Hle.
  destruct (dyn_Get (resource m) ns name (ext w)) as [out s1] eqn:E. simpl in *.
  apply (recovers_get _ _ _ _ (steady_recovers _ _ Hst ns name)) in E.
  destruct out as [obj|e]; simpl in Ha; [injection Ha as <- <-; simpl; lia|].
  pose proof (after_try_weight rank item true (Some e) ws r (ext w) s1 Ha E Hle). lia.
Qed.

Lemma put_measure rank m ns obj item ws r w g err w' :
  steady rank m → try_put m ns obj w = Some (g, err, w') → after_try item g err = (ws, r) →
  (weight ws + 3 * rank (ext w') < 3 + 3 * rank (ext w))%nat.
Proof.
  intros Hst E Ha. pose proof (try_put_run m ns obj w) as E'.
  pose proof (steady_put _ _ Hst ns obj (ext w)) as Hle.
  destruct (dyn_Update (resource m) ns obj (ext w)) as [out s1] eqn:Eu. simpl in *.
  rewrite E in E'. injection E' as -> -> ->. simpl.
  apply (recovers_put _ _ _ _ (steady_recovers _ _ Hst ns "")) in Eu.
  eapply after_try_weight; [exact Ha| |done]. by destruct out.
Qed.

Lemma step_measure rank m s l s' :
  (1 <= concurrency m)%nat → steady rank m → orderly m s → step m s l s' →
  (measure rank s' < measure rank s)%nat.
Proof.
  intros Hn Hst Hord Hstep.
  assert (∀ i ws0 ws, workers s !! i = Some ws0 →
    (sum_list_with weight (<[i := ws]> (workers s)) + weight ws0 =
     sum_list_with weight (workers s) + weight ws)%nat) as Hsum
    by (intros; by apply sum_list_with_insert).
  destruct Hstep as
    [i item rest s ws r Hwc Htodo Hi Hb|s Hwc Htodo|s Hwc Hret|i s Hi Hwc
    |i item s out w' ws r Hi Hg Ha|i item obj s g' err w' ws r Hi Hp Ha|i item g e s w' Hi Hd
    |i e s Hi Hret He|i e s Hi Hret|s He Hall|s He Hret]; unfold measure; simpl.
  - injection Hb as <- <-. specialize (Hsum _ _ (Trying item false) Hi). simpl in Hsum.
    rewrite Htodo. simpl. lia.
  - rewrite Hwc. simpl. lia.
  - rewrite Hwc. simpl. lia.
  - specialize (Hsum _ _ Exited Hi). simpl in Hsum. lia.
  - specialize (Hsum _ _ ws Hi). simpl in Hsum.
    pose proof (get_measure _ _ _ _ _ _ _ _ _ _ Hst Hg Ha). lia.
  - pose proof (put_measure _ _ _ _ _ _ _ _ _ _ _ Hst Hp Ha).
    destruct Hi as [Hi|[Hi ->]]; specialize (Hsum _ _ ws Hi); simpl in Hsum; lia.
  - rewrite client_delay_run in Hd. injection Hd as <-. simpl.
    specialize (Hsum _ _ (Trying item g) Hi). destruct g; simpl in Hsum; lia.
  - specialize (Hsum _ _ Receiving Hi). simpl in Hsum. lia.
  - specialize (Hsum _ _ Exited Hi). simpl in Hsum. lia.
  - rewrite He. simpl. lia.
  - rewrite Hret. simpl. lia.
Qed.

Lemma steps_measure rank m n s done s' :
  (1 <= concurrency m)%nat → steady rank m → orderly m s → steps m n s done s' →
  (n + measure rank s' <= measure rank s)%nat.
Proof.
  intros Hn Hst Hord Hsteps. induction Hsteps as [s|n s l s1 l' s2 Hstep _ IH]; [lia|].
  pose proof (step_measure _ _ _ _ _ Hn Hst Hord Hstep).
  specialize (IH (orderly_step _ _ _ _ Hn Hord Hstep)). lia.
Qed.

Lemma measure_init rank m l w :
  measure rank (init m l w) =
    (3 * length (List_Items l) + concurrency m + 3 * rank (ext w) + 3)%nat.
Proof.
  unfold measure. simpl.
  assert (sum_list_with weight (replicate (concurrency m) Receiving) = concurrency m) as ->.
  { induction (concurrency m) as [|n IH]; [done|]. simpl. by rewrite IH. }
  lia.
Qed.
End measure.

(** ** One worker is sequential *)

Section sequential.
Context {C : Type} `{Runtime C} `{DynamicInterface C} `{StorageVersionMigrationInterface C}.
Implicit Types (m : @migrator C) (w : World C) (s : @sys C).
Abbreviation Eff := (M (World C)).

(** The worker goes on to its next items when it is done with one. *)
Definition then_worker fuel m (items : list Unstructured) (mm : Eff (option error)) :
    Eff (list error) :=
  err ← mm;
  errs ← worker fuel m items;
  mret match err with
       | Some e => e :: errs
       | None => errs
       end.

(** The rest of the iteration of migrateOneItem after try returned. *)
Definition after fuel m (item : Unstructured) (g : bool) (err : option error) : Eff (option error) :=
  match err with
  | None => mret None
  | Some e =>
      if IsNotFound e then mret None
      else if canRetry (Some e) then
        client_delay e ;; migrate_loop fuel m (GetNamespace item) (GetName item) item g
      else mret (Some e)
  end.

(** What the only worker, in state [ws], still does. *)
Definition resume fuel m (items : list Unstructured) (ws : wstate) : Eff (list error) :=
  match ws with
  | Receiving => worker fuel m items
  | Trying item g =>
      then_worker fuel m items (migrate_loop fuel m (GetNamespace item) (GetName item) item g)
  | Putting item obj =>
      then_worker fuel m items
        ('(g, err) ← try_put m (GetNamespace item) obj; after fuel m item g err)
  | Delaying item g e =>
      then_worker fuel m items
        (client_delay e ;; migrate_loop fuel m (GetNamespace item) (GetName item) item g)
  | Sending e => then_worker fuel m items (mret (Some e))
  | Exited => mret []
  end.

Lemma worker_fuel fuel m items :
  refines (worker fuel m items) (worker (Datatypes.S fuel) m items).
Proof.
  induction items as [|item items IH]; [done|]. cbn [worker].
  apply refines_bind; [apply migrate_loop_fuel|]. intros err.
  by apply refines_bind.
Qed.

Lemma then_worker_fuel fuel m items (mm mm' : Eff (option error)) :
  refines mm mm' →
  refines (then_worker fuel m items mm) (then_worker (Datatypes.S fuel) m items mm').
Proof.
  intros Hm. apply refines_bind; [done|]. intros err.
  apply refines_bind; [apply worker_fuel|done].
Qed.

Lemma after_fuel fuel m item g err :
  refines (after fuel m item g err) (after (Datatypes.S fuel) m item g err).
Proof.
  unfold after. destruct err as [e|]; [|done]. destruct (IsNotFound e); [done|].
  destruct (canRetry (Some e)); [|done]. apply refines_bind; [done|].
  intros []. apply migrate_loop_fuel.
Qed.

Lemma resume_fuel fuel m items ws :
  refines (resume fuel m items ws) (resume (Datatypes.S fuel) m items ws).
Proof.
  destruct ws; [apply worker_fuel| | | | |done]; apply then_worker_fuel.
  - apply migrate_loop_fuel.
  - apply refines_bind; [done|]. intros [g err]. apply after_fuel.
  - apply refines_bind; [done|]. intros []. apply migrate_loop_fuel.
  - done.
Qed.

(** The state after try is what the iteration goes on with. *)
Lemma resume_after fuel m items item g err ws r w :
  after_try item g err = (ws, r) →
  then_worker fuel m items (after fuel m item g err) w = resume fuel m items ws w.
Proof.
  unfold after_try, after. destruct err as [e|].
  - destruct (IsNotFound e); [|destruct (canRetry (Some e))]; intros [= <- <-]; try done.
    simpl. unfold then_worker. erewrite bind_step by apply ret_Some.
    by rewrite <- (bind_ret_r (worker fuel m items) w).
  - intros [= <- <-]. simpl. unfold then_worker. erewrite bind_step by apply ret_Some.
    by rewrite <- (bind_ret_r (worker fuel m items) w).
Qed.

Lemma then_worker_step {A} fuel m items (mm : Eff A) (k : A → Eff (option error)) w a w1 :
  mm w = Some (a, w1) →
  then_worker fuel m items (mm ≫= k) w = then_worker fuel m items (k a) w1.
Proof.
  intros E. unfold then_worker. rewrite bind_assoc. exact (bind_step _ _ _ _ _ E).
Qed.

Lemma then_worker_ext fuel m items (mm mm' : Eff (option error)) w w' :
  mm w = mm' w' → then_worker fuel m items mm w = then_worker fuel m items mm' w'.
Proof. intros E. unfold then_worker, mbind, M_bind. by rewrite E. Qed.

(** A PUT whose outcome leads to [ws]. *)
Lemma resume_put fuel fuel' m items item obj g err ws r w w' errs wf :
  fuel' = fuel ∨ fuel' = Datatypes.S fuel →
  try_put m (GetNamespace item) obj w = Some (g, err, w') → after_try item g err = (ws, r) →
  resume fuel m items ws w' = Some (errs, wf) →
  then_worker (Datatypes.S fuel) m items
    ('(g, err) ← try_put m (GetNamespace item) obj; after fuel' m item g err) w = Some (errs, wf).
Proof.
  intros Hf Hp Ha E. rewrite (then_worker_step _ _ _ _ _ _ _ _ Hp).
  eapply then_worker_fuel; [|by rewrite (resume_after _ _ _ _ _ _ _ _ _ Ha)].
  destruct Hf as [->| ->]; [done|apply after_fuel].
Qed.

(** A step of a system with one worker undoes into a longer [resume]. *)
Lemma resume_step m s l s' ws fuel :
  orderly m s → workers s = [ws] → step m s l s' →
  ∃ ws' pre, workers s' = [ws'] ∧ collected s' = collected s ++ pre ∧
    ∀ errs wf, resume fuel m (todo s') ws' (world s') = Some (errs, wf) →
      resume (Datatypes.S fuel) m (todo s) ws (world s) = Some (pre ++ errs, wf).
Proof.
  intros Hord Hws Hstep.
  assert (∀ i ws0, workers s !! i = Some ws0 → i = 0%nat ∧ ws0 = ws) as Hone.
  { rewrite Hws. by intros [|[]] ws0 [= <-]. }
  destruct Hstep as
    [i item rest s ws1 r Hwc Htodo Hi Hb|s Hwc Htodo|s Hwc Hret|i s Hi Hwc
    |i item s out w' ws1 r Hi Hg Ha|i item obj s g' err w' ws1 r Hi Hp Ha|i item g e s w' Hi Hd
    |i e s Hi Hret He|i e s Hi Hret|s He Hall|s He Hret];
    try (exists ws, []; rewrite app_nil_r; split_and!; [done|done|]; intros errs wf; apply resume_fuel).
  - apply Hone in Hi as [-> <-]. injection Hb as <- <-.
    exists (Trying item false), []. rewrite app_nil_r. simpl. rewrite Hws, Htodo.
    split_and!; [done|done|]. intros errs wf E.
    apply (then_worker_fuel _ _ _ _ _ (migrate_loop_fuel _ _ _ _ _ _)) in E. exact E.
  - apply Hone in Hi as [-> <-]. exists Exited, []. rewrite app_nil_r. simpl. rewrite Hws.
    split_and!; [done|done|]. by rewrite (ord_workc _ _ Hord Hwc).
  - apply Hone in Hi as [-> <-]. exists ws1, []. rewrite app_nil_r. simpl. rewrite Hws.
    split_and!; [done|done|]. intros errs wf E. unfold after_get in Ha.
    change (then_worker (Datatypes.S fuel) m (todo s)
      ('(g, err) ← try_ m (GetNamespace item) (GetName item) item true; after fuel m item g err)
      (world s) = Some (errs, wf)).
    destruct out as [obj|e].
    + injection Ha as <- <-. eapply (then_worker_fuel _ _ _ _ _ (reflexivity _)) in E.
      rewrite <- E. apply then_worker_ext. unfold try_. rewrite bind_assoc.
      exact (bind_step _ _ _ _ _ Hg).
    + rewrite (then_worker_step _ _ _ _ _ _ (true, Some e) w').
      * eapply then_worker_fuel; [done|]. by rewrite (resume_after _ _ _ _ _ _ _ _ _ Ha).
      * unfold try_. by rewrite (bind_step _ _ _ _ _ Hg).
  - assert (i = 0%nat) as -> by by destruct Hi as [Hi|[Hi _]]; apply Hone in Hi as [-> _].
    exists ws1, []. rewrite app_nil_r. simpl. rewrite Hws.
    split_and!; [done|done|]. intros errs wf E.
    destruct Hi as [Hi|[Hi ->]]; apply Hone in Hi as [_ <-].
    + exact (resume_put fuel _ _ _ _ _ _ _ _ _ _ _ _ _ (or_intror eq_refl) Hp Ha E).
    + exact (resume_put fuel _ _ _ _ _ _ _ _ _ _ _ _ _ (or_introl eq_refl) Hp Ha E).
  - apply Hone in Hi as [-> <-]. exists (Trying item g), []. rewrite app_nil_r. simpl. rewrite Hws.
    split_and!; [done|done|]. intros errs wf E.
    rewrite (then_worker_step _ _ _ _ _ _ _ _ Hd).
    by apply (then_worker_fuel _ _ _ _ _ (migrate_loop_fuel _ _ _ _ _ _)) in E.
  - apply Hone in Hi as [-> <-]. exists Receiving, [e]. simpl. rewrite Hws.
    split_and!; [done|done|]. intros errs wf E. apply worker_fuel in E.
    unfold then_worker. erewrite bind_step by apply ret_Some. by erewrite bind_step by exact E.
  - destruct (orderly_active _ _ _ _ Hord Hi) as [_ HR]; [done|]. congruence.
Qed.

Lemma resume_steps m n s done s' ws :
  (1 <= concurrency m)%nat → orderly m s → workers s = [ws] → steps m n s done s' →
  returned s' = true →
  ∃ fuel errs, collected s' = collected s ++ errs ∧
    resume fuel m (todo s) ws (world s) = Some (errs, world s').
Proof.
  intros Hn Hord Hws Hsteps Hret. revert ws Hord Hws.
  induction Hsteps as [s|n s l s1 l' s2 Hstep _ IH]; intros ws Hord Hws.
  - exists 0%nat, []. rewrite app_nil_r. split; [done|].
    pose proof (ord_errc _ _ Hord (ord_returned _ _ Hord Hret)) as Hall.
    rewrite Hws in Hall. apply Forall_singleton in Hall as ->. done.
  - pose proof (orderly_step _ _ _ _ Hn Hord Hstep) as Hord1.
    destruct (resume_step m s l s1 ws 0 Hord Hws Hstep) as (ws1 & _ & Hws1 & _).
    destruct (IH Hret ws1 Hord1 Hws1) as (fuel & errs & Hc & E).
    destruct (resume_step m s l s1 ws fuel Hord Hws Hstep) as (ws2 & pre & Hws2 & Hpre & Hres).
    rewrite Hws1 in Hws2. injection Hws2 as <-.
    exists (Datatypes.S fuel), (pre ++ errs). split; [|by apply Hres].
    by rewrite Hc, Hpre, app_assoc.
Qed.
End sequential.

Section list_claims.
Context {C : Type} `{Runtime C} `{DynamicInterface C} `{StorageVersionMigrationInterface C}.
Implicit Types (m : @migrator C) (w : World C) (s : @sys C).

(** C7. When migrateList returns, with any positive number of workers and
    whatever the interleaving, every item of the list has been through
    migrateOneItem exactly once, the errors collected are exactly the non-nil
    results, each of them final, the returned value is nil exactly when all
    results are, and no goroutine is left: both channels are closed and the
    workers have exited, none of them through the cancelled context. *)
Theorem migrateList_accounts m l w n done s :
  (1 <= concurrency m)%nat → steps m n (init m l w) done s → returned s = true →
  done.*1 ≡ₚ List_Items l ∧ collected s ≡ₚ somes done.*2 ∧
  Forall (λ d : _ * option error, ∀ e, d.2 = Some e → canRetry (Some e) = false) done ∧
  (value s = None ↔ Forall (λ d : _ * option error, d.2 = None) done) ∧
  todo s = [] ∧ workc_closed s = true ∧ errc_closed s = true ∧
  workers s = replicate (concurrency m) Exited.
Proof.
  intros Hn Hsteps Hret.
  destruct (steps_invariant _ _ _ _ _ _ _ Hn (orderly_init m l w) (accounted_init m l w) Hsteps)
    as [Hord [Hitems Herrs]].
  pose proof (ord_returned _ _ Hord Hret) as He. pose proof (orderly_all_exited _ _ Hn Hord He) as Hwc.
  pose proof (ord_workc _ _ Hord Hwc) as Htodo.
  assert (workers s = replicate (concurrency m) Exited) as HW.
  { symmetry. apply replicate_as_elem_of. split; [apply Hord|].
    apply Forall_forall. exact (ord_errc _ _ Hord He). }
  assert (∀ A (f : wstate → list A), f Exited = [] → workers s ≫= f = []) as Hnil.
  { intros A f Hf. rewrite HW. by apply replicate_bind_nil. }
  simpl in *. rewrite Htodo, Hnil in Hitems by done. rewrite Hnil, app_nil_r in Herrs by done.
  split_and!; try done; [by eapply steps_final|]. clear Hitems.
  assert (value s = None ↔ collected s = []) as ->.
  { unfold value. by destruct (collected s). }
  assert (collected s = [] ↔ somes done.*2 = []) as ->.
  { split; intros E; rewrite E in Herrs; [symmetry in Herrs|]; by apply Permutation_nil_r in Herrs. }
  clear. induction done as [|[item [e|]] done IH]; simpl.
  - done.
  - split; [done|]. by intros [? _]%Forall_cons.
  - rewrite Forall_cons. naive_solver.
Qed.

(** No interleaving deadlocks: until migrateList has returned, some
    goroutine can take a step. *)
Theorem migrateList_no_deadlock m l w n done s :
  (1 <= concurrency m)%nat → steps m n (init m l w) done s → returned s = false →
  ∃ l' s', step m s l' s'.
Proof.
  intros Hn Hsteps Hret.
  destruct (steps_invariant _ _ _ _ _ _ _ Hn (orderly_init m l w) (accounted_init m l w) Hsteps)
    as [Hord _].
  by apply not_returned_steps.
Qed.

(** C16. Every interleaving ends: when the server recovers, in the sense that
    some rank goes down with every answer that is retried and never goes up,
    a run has at most 3 steps for each item and each unit of rank, one for
    each worker, and three more; and no run deadlocks before that: until
    migrateList has returned, some goroutine can take a step. *)
Theorem migrateList_terminates rank m l w n done s :
  (1 <= concurrency m)%nat → steady rank m → steps m n (init m l w) done s →
  (n <= 3 * length (List_Items l) + concurrency m + 3 * rank (ext w) + 3)%nat ∧
  (returned s = false → ∃ l' s', step m s l' s').
Proof.
  intros Hn Hst Hsteps. split; [|by eapply migrateList_no_deadlock].
  pose proof (steps_measure _ _ _ _ _ _ Hn Hst (orderly_init m l w) Hsteps) as Hle.
  rewrite measure_init in Hle. lia.
Qed.

(** C17. With one worker, which is what NewMigrator configures, every run of
    the goroutines that returns computes what the sequential function
    [migrateList] computes: the same value, the same requests in the same
    order, the same state of the cluster. *)
Theorem migrateList_sequential m l w n done s :
  concurrency m = 1%nat → steps m n (init m l w) done s → returned s = true →
  ∃ fuel, migrateList fuel m l w = Some (value s, world s).
Proof.
  intros Hc Hsteps Hret.
  destruct (resume_steps m n (init m l w) done s Receiving) as (fuel & errs & Herrs & E);
    [lia|apply orderly_init|by simpl; rewrite Hc|done|done|].
  exists fuel. unfold migrateList. simpl in E, Herrs.
  rewrite (bind_step _ _ _ _ _ E). unfold value. by rewrite Herrs.
Qed.
End list_claims.

(** ** Running a schedule *)

Inductive choice :=
  | Hand (i : nat) | CloseWorkc | Work (i : nat) | CloseErrc | Return.

Section schedule.
Context {C : Type} `{Runtime C} `{DynamicInterface C} `{StorageVersionMigrationInterface C}.
Implicit Types (m : @migrator C) (s : @sys C).

(** The step of the worker [i]. *)
Definition exec_work m (i : nat) s : option (list (Unstructured * option error) * sys) :=
  let put item obj :=
    '(g', err, w') ← try_put m (GetNamespace item) obj (world s);
    let '(ws, r) := after_try item g' err in
    Some (result_of item r, set_world w' (set_worker i ws s)) in
  match workers s !! i with
  | Some Receiving => if workc_closed s then Some ([], set_worker i Exited s) else None
  | Some (Trying item true) =>
      '(out, w') ← get m (GetNamespace item) (GetName item) (world s);
      let '(ws, r) := after_get item out in
      Some (result_of item r, set_world w' (set_worker i ws s))
  | Some (Trying item false) => put item item
  | Some (Putting item obj) => put item obj
  | Some (Delaying item g e) =>
      '(_, w') ← client_delay e (world s);
      Some ([], set_world w' (set_worker i (Trying item g) s))
  | Some (Sending e) =>
      if returned s || errc_closed s then None
      else Some ([], collect e (set_worker i Receiving s))
  | _ => None
  end.

Definition exec m (c : choice) s : option (list (Unstructured * option error) * sys) :=
  match c with
  | Hand i =>
      match workc_closed s, todo s, workers s !! i with
      | false, item :: l, Some Receiving =>
          let '(ws, r) := begin_item item in Some (result_of item r, set_todo l (set_worker i ws s))
      | _, _, _ => None
      end
  | CloseWorkc =>
      match workc_closed s, todo s with
      | false, [] => Some ([], close_workc s)
      | _, _ => None
      end
  | Work i => exec_work m i s
  | CloseErrc =>
      if errc_closed s then None
      else if decide (Forall (λ ws, ws = Exited) (workers s)) then Some ([], close_errc s) else None
  | Return => if errc_closed s && negb (returned s) then Some ([], return_ s) else None
  end.

Fixpoint exec_all m (cs : list choice) s : option (list (Unstructured * option error) * sys) :=
  match cs with
  | [] => Some ([], s)
  | c :: cs =>
      '(l, s1) ← exec m c s;
      '(l', s2) ← exec_all m cs s1;
      Some (l ++ l', s2)
  end.

Lemma exec_work_sound m i s l s' : exec_work m i s = Some (l, s') → step m s l s'.
Proof.
  unfold exec_work.
  assert (∀ item obj, workers s !! i = Some (Putting item obj) ∨
      (workers s !! i = Some (Trying item false) ∧ obj = item) →
    ('(g', err, w') ← try_put m (GetNamespace item) obj (world s);
     let '(ws, r) := after_try item g' err in
     Some (result_of item r, set_world w' (set_worker i ws s))) = Some (l, s') →
    step m s l s') as Hput.
  { intros item obj Hi ([[g' err] w'] & Hp & E)%option.bind_Some.
    destruct (after_try item g' err) as [ws r] eqn:Ha. injection E as <- <-.
    by eapply step_put. }
  destruct (workers s !! i) as [[|item []|item obj|item g e|e|]|] eqn:Hi; try done.
  - destruct (workc_closed s) eqn:Hwc; [|done]. intros [= <- <-]. by apply step_exit.
  - intros ([out w'] & Hg & E)%option.bind_Some. destruct (after_get item out) as [ws r] eqn:Ha.
    injection E as <- <-. by eapply step_get.
  - apply Hput. by right.
  - apply Hput. by left.
  - intros ([[] w'] & Hd & E)%option.bind_Some. injection E as <- <-. by eapply step_delay.
  - destruct (returned s) eqn:Hr, (errc_closed s) eqn:He; try done. intros [= <- <-].
    by apply step_send.
Qed.

Lemma exec_sound m c s l s' : exec m c s = Some (l, s') → step m s l s'.
Proof.
  destruct c as [i| |i| |]; simpl.
  - destruct (workc_closed s) eqn:Hwc; [done|]. destruct (todo s) as [|item rest] eqn:Ht; [done|].
    destruct (workers s !! i) as [[]|] eqn:Hi; try done.
    intros [= <- <-]. by apply (step_hand m i item rest s (Trying item false) None).
  - destruct (workc_closed s) eqn:Hwc; [done|]. destruct (todo s) eqn:Ht; [|done].
    intros [= <- <-]. by apply step_close_workc.
  - apply exec_work_sound.
  - destruct (errc_closed s) eqn:He; [done|]. destruct (decide _); [|done].
    intros [= <- <-]. by apply step_close_errc.
  - destruct (errc_closed s) eqn:He, (returned s) eqn:Hr; try done. intros [= <- <-].
    by apply step_return.
Qed.

(** A schedule that can be executed is a run. *)
Lemma exec_all_sound m cs s l s' :
  exec_all m cs s = Some (l, s') → steps m (length cs) s l s'.
Proof.
  revert s l. induction cs as [|c cs IH]; intros s l; simpl.
  - intros [= <- <-]. constructor.
  - intros ([l1 s1] & E1 & ([l2 s2] & E2 & E3)%option.bind_Some)%option.bind_Some. injection E3 as <- <-.
    econstructor; [by eapply exec_sound|by apply IH].
Qed.
End schedule.

(** ** Witnesses: two workers, one of two objects cannot be written *)

Definition two_workers : @migrator cluster :=
  {| resource := pods; progress := NewProgressTracker "pods-1"; concurrency := 2 |}.

Definition refused : World cluster :=
  start (set_scripts [] [Some not_allowed; Some conflict] [] empty_cluster).

Definition two_objects : UnstructuredList := page "" [object "ns" "a"; object "ns" "b"].

Definition schedule : list choice :=
  [Hand 0; Hand 1; Work 0; Work 1; Work 1; Work 0; Work 1; Work 1; CloseWorkc;
   Work 1; Work 0; CloseErrc; Return].

Definition two_workers_end :=
  Eval vm_compute in
    default ([], init two_workers two_objects refused)
      (exec_all two_workers schedule (init two_workers two_objects refused)).

Lemma two_workers_run :
  steps two_workers 13 (init two_workers two_objects refused)
    two_workers_end.1 two_workers_end.2.
Proof. apply (exec_all_sound two_workers schedule). vm_compute. reflexivity. Qed.

Lemma migrateList_accounts_witness :
  two_workers_end.1.*1 ≡ₚ [object "ns" "a"; object "ns" "b"] ∧
  collected two_workers_end.2 ≡ₚ somes two_workers_end.1.*2 ∧
  Forall (λ d : _ * option error, ∀ e, d.2 = Some e → canRetry (Some e) = false) two_workers_end.1 ∧
  (value two_workers_end.2 = None ↔ Forall (λ d : _ * option error, d.2 = None) two_workers_end.1) ∧
  todo two_workers_end.2 = [] ∧ workc_closed two_workers_end.2 = true ∧
  errc_closed two_workers_end.2 = true ∧ workers two_workers_end.2 = [Exited; Exited].
Proof.
  apply (migrateList_accounts two_workers two_objects refused 13).
  - vm_compute. lia.
  - exact two_workers_run.
  - vm_compute. reflexivity.
Defined.

(** Three steps into the same run. *)
Definition midway :=
  Eval vm_compute in
    default ([], init two_workers two_objects refused)
      (exec_all two_workers [Hand 0; Hand 1; Work 0] (init two_workers two_objects refused)).

Lemma midway_run :
  steps two_workers 3 (init two_workers two_objects refused) midway.1 midway.2.
Proof. apply (exec_all_sound two_workers [Hand 0; Hand 1; Work 0]). vm_compute. reflexivity. Qed.

Lemma migrateList_no_deadlock_witness : ∃ l' s', step two_workers midway.2 l' s'.
Proof.
  apply (migrateList_no_deadlock two_workers two_objects refused 3 midway.1).
  - vm_compute. lia.
  - exact midway_run.
  - vm_compute. reflexivity.
Defined.

Lemma sim_steady m : steady script_rank m.
Proof.
  split.
  - intros ns name. apply sim_recovers.
  - intros ns name c. unfold script_rank. simpl. destruct (c_gets c); simpl; lia.
  - intros ns obj c. unfold script_rank. simpl. destruct (c_puts c); simpl; lia.
Qed.

Lemma migrateList_terminates_witness :
  (13 <= 3 * 2 + 2 + 3 * 2 + 3)%nat ∧
  (returned two_workers_end.2 = false → ∃ l' s', step two_workers two_workers_end.2 l' s').
Proof.
  apply (migrateList_terminates script_rank two_workers two_objects refused 13
           two_workers_end.1 two_workers_end.2).
  - vm_compute. lia.
  - apply sim_steady.
  - exact two_workers_run.
Defined.

Definition one_worker_schedule : list choice :=
  [Hand 0; Work 0; Work 0; Hand 0; Work 0; Work 0; Work 0; Work 0; CloseWorkc; Work 0;
   CloseErrc; Return].

Definition one_worker_end :=
  Eval vm_compute in
    default ([], init pod_migrator two_objects refused)
      (exec_all pod_migrator one_worker_schedule (init pod_migrator two_objects refused)).

Lemma one_worker_run :
  steps pod_migrator 12 (init pod_migrator two_objects refused) one_worker_end.1 one_worker_end.2.
Proof. apply (exec_all_sound pod_migrator one_worker_schedule). vm_compute. reflexivity. Qed.

Lemma migrateList_sequential_witness :
  ∃ fuel, migrateList fuel pod_migrator two_objects refused =
    Some (value one_worker_end.2, world one_worker_end.2).
Proof.
  apply (migrateList_sequential pod_migrator two_objects refused 12 one_worker_end.1).
  - reflexivity.
  - exact one_worker_run.
  - vm_compute. reflexivity.
Defined.
