(* ===== verification/Store.v ===== *)
(** * The indexed store of the informers: client-go/tools/cache/thread_safe_store.go

    [threadSafeMap]: the items by key, and for each index function the keys by
    indexed value.  Every method holds the lock, so a method is one transition.
    Go iterates over maps in an unspecified order: [range] stands for it, and
    all that is known is that it visits every key once.  [None] is the panic
    of updateIndices when an index function fails. *)
From S2P Require Export Prelude ApiErrors.

(** One iteration of a map or set, in the order the runtime picks. *)
Class MapOrder := {
  range : gset string → list string;
  range_perm : ∀ X, range X ≡ₚ elements X;
}.

Lemma elem_of_range `{MapOrder} X k : k ∈ range X ↔ k ∈ X.
Proof. by rewrite range_perm, elem_of_elements. Qed.

Lemma NoDup_range `{MapOrder} X : NoDup (range X).
Proof. rewrite range_perm. apply NoDup_elements. Qed.

(** index.go *)
Abbreviation Index := (gmap string (gset string)).
Abbreviation Indices := (gmap string Index).

Section store.
Context {O : Type} `{MapOrder}.

Definition IndexFunc := O → res (list string).
Abbreviation Indexers := (gmap string IndexFunc).

Record storeIndex := { indexers : Indexers; indices : Indices }.

(** The zero value of a map entry is the empty set, respectively the empty
    index. *)
Definition index_of (name : string) (i : storeIndex) : Index := default ∅ (indices i !! name).
Definition keys_of (value : string) (index : Index) : gset string := default ∅ (index !! value).

Definition reset (i : storeIndex) : storeIndex := {| indexers := indexers i; indices := ∅ |}.

Definition no_index (name : string) : error :=
  Errorf ("Index with name " +:+ name +:+ " does not exist").

Definition getKeysFromIndex (i : storeIndex) (indexName : string) (obj : O) : res (gset string) :=
  match indexers i !! indexName with
  | None => Err (no_index indexName)
  | Some indexFunc =>
      match indexFunc obj with
      | Err e => Err e
      | Ok indexedValues =>
          let index := index_of indexName i in
          Ok match indexedValues with
             | [value] => keys_of value index
             | _ => foldl (λ storeKeySet value, storeKeySet ∪ keys_of value index) ∅ indexedValues
             end
      end
  end.

Definition getKeysByIndex (i : storeIndex) (indexName indexedValue : string) : res (gset string) :=
  match indexers i !! indexName with
  | None => Err (no_index indexName)
  | Some _ => Ok (keys_of indexedValue (index_of indexName i))
  end.

Definition getIndexValues (i : storeIndex) (indexName : string) : list string :=
  range (dom (index_of indexName i)).

(** The conflicting names are part of the message; which order they print in
    is set.List's, sorted. *)
Definition addIndexers (i : storeIndex) (newIndexers : Indexers) : res storeIndex :=
  if bool_decide (dom (indexers i) ## (dom newIndexers : gset string))
  then Ok {| indexers := newIndexers ∪ indexers i; indices := indices i |}
  else Err (Errorf "indexer conflict").

Definition addKeyToIndex (key indexValue : string) (index : Index) : Index :=
  <[indexValue := {[key]} ∪ keys_of indexValue index]> index.

Definition deleteKeyFromIndex (key indexValue : string) (index : Index) : Index :=
  match index !! indexValue with
  | None => index
  | Some set =>
      if bool_decide (set ∖ {[key]} = ∅)
      then delete indexValue index
      else <[indexValue := set ∖ {[key]}]> index
  end.

(** The index values of an object that may be nil. *)
Definition values_of (indexFunc : IndexFunc) (obj : option O) : option (list string) :=
  match obj with
  | None => Some []
  | Some obj => match indexFunc obj with Ok vs => Some vs | Err _ => None end
  end.

(** The body of the loop of updateIndices for one index function. *)
Definition updateIndex (oldObj newObj : option O) (key name : string) (indexFunc : IndexFunc)
    (ixs : Indices) : option Indices :=
  oldIndexValues ← values_of indexFunc oldObj;
  indexValues ← values_of indexFunc newObj;
  let index := default ∅ (ixs !! name) in
  Some
    match indexValues, oldIndexValues with
    | [v], [v'] =>
        if bool_decide (v = v') then <[name := index]> ixs
        else <[name := addKeyToIndex key v (deleteKeyFromIndex key v' index)]> ixs
    | _, _ =>
        let index := foldl (λ index value, deleteKeyFromIndex key value index) index oldIndexValues in
        <[name := foldl (λ index value, addKeyToIndex key value index) index indexValues]> ixs
    end.

Fixpoint update_all (oldObj newObj : option O) (key : string) (names : list string)
    (fs : Indexers) (ixs : Indices) : option Indices :=
  match names with
  | [] => Some ixs
  | name :: names =>
      match fs !! name with
      | None => update_all oldObj newObj key names fs ixs
      | Some f =>
          ixs ← updateIndex oldObj newObj key name f ixs;
          update_all oldObj newObj key names fs ixs
      end
  end.

Definition updateIndices (oldObj newObj : option O) (key : string) (i : storeIndex) :
    option storeIndex :=
  ixs ← update_all oldObj newObj key (range (dom (indexers i))) (indexers i) (indices i);
  Some {| indexers := indexers i; indices := ixs |}.

(** ** threadSafeMap *)

Record threadSafeMap := { items : gmap string O; index : storeIndex }.

Definition NewThreadSafeStore (fs : Indexers) (ixs : Indices) : threadSafeMap :=
  {| items := ∅; index := {| indexers := fs; indices := ixs |} |}.

Definition Update (key : string) (obj : O) (c : threadSafeMap) : option threadSafeMap :=
  i ← updateIndices (items c !! key) (Some obj) key (index c);
  Some {| items := <[key := obj]> (items c); index := i |}.

Definition Add (key : string) (obj : O) (c : threadSafeMap) : option threadSafeMap :=
  Update key obj c.

Definition Delete (key : string) (c : threadSafeMap) : option threadSafeMap :=
  match items c !! key with
  | Some obj =>
      i ← updateIndices (Some obj) None key (index c);
      Some {| items := delete key (items c); index := i |}
  | None => Some c
  end.

Definition Get (key : string) (c : threadSafeMap) : option O := items c !! key.

(** The items whose keys the iteration visits. *)
Definition items_at (c : threadSafeMap) (keys : gset string) : list (option O) :=
  (λ key, items c !! key) <$> range keys.

Definition List_ (c : threadSafeMap) : list O := omap (λ key, items c !! key) (range (dom (items c))).

Definition ListKeys (c : threadSafeMap) : list string := range (dom (items c)).

Fixpoint index_items (keys : list string) (its : gmap string O) (i : storeIndex) : option storeIndex :=
  match keys with
  | [] => Some i
  | key :: keys =>
      match its !! key with
      | None => index_items keys its i
      | Some item =>
          i ← updateIndices None (Some item) key i;
          index_items keys its i
      end
  end.

Definition Replace (its : gmap string O) (c : threadSafeMap) : option threadSafeMap :=
  i ← index_items (range (dom its)) its (reset (index c));
  Some {| items := its; index := i |}.

(** A key the items do not have would yield a nil interface. *)
Definition Index_ (indexName : string) (obj : O) (c : threadSafeMap) : res (list (option O)) :=
  match getKeysFromIndex (index c) indexName obj with
  | Err e => Err e
  | Ok storeKeySet => Ok (items_at c storeKeySet)
  end.

Definition ByIndex (indexName indexedValue : string) (c : threadSafeMap) : res (list (option O)) :=
  match getKeysByIndex (index c) indexName indexedValue with
  | Err e => Err e
  | Ok set => Ok (items_at c set)
  end.

(** set.List() sorts. *)
Definition IndexKeys (indexName indexedValue : string) (c : threadSafeMap) : res (gset string) :=
  getKeysByIndex (index c) indexName indexedValue.

Definition ListIndexFuncValues (indexName : string) (c : threadSafeMap) : list string :=
  getIndexValues (index c) indexName.

Definition GetIndexers (c : threadSafeMap) : Indexers := indexers (index c).

Definition AddIndexers (newIndexers : Indexers) (c : threadSafeMap) : res threadSafeMap :=
  if bool_decide (items c = ∅) then
    match addIndexers (index c) newIndexers with
    | Err e => Err e
    | Ok i => Ok {| items := items c; index := i |}
    end
  else Err (Errorf "cannot add indexers to running index").
End store.

Arguments IndexFunc : clear implicits.
Arguments storeIndex : clear implicits.
Arguments threadSafeMap : clear implicits.
