(* ===== verification/StoreProps.v ===== *)
(** * Theorems about the indexed store

    The indices always agree with the items, so a lookup by index returns
    exactly the items a scan with the index function would select. *)
From S2P Require Export Store.

(** ** Indices as relations between keys and values *)

Lemma keys_of_empty v : keys_of v ∅ = ∅.
Proof. done. Qed.

Lemma elem_of_add k key v v' index :
  k ∈ keys_of v (addKeyToIndex key v' index) ↔ (k = key ∧ v = v') ∨ k ∈ keys_of v index.
Proof.
  unfold addKeyToIndex, keys_of. destruct (decide (v' = v)) as [->|Hne].
  - rewrite lookup_insert_eq. set_solver.
  - rewrite lookup_insert_ne by done. naive_solver.
Qed.

Lemma elem_of_delete k key v v' index :
  k ∈ keys_of v (deleteKeyFromIndex key v' index) ↔ k ∈ keys_of v index ∧ ¬ (k = key ∧ v = v').
Proof.
  unfold deleteKeyFromIndex, keys_of. destruct (index !! v') as [X|] eqn:Hv'.
  - case_bool_decide as HX; (destruct (decide (v' = v)) as [->|Hne];
      [rewrite ?lookup_delete_eq, ?lookup_insert_eq, Hv'
      |rewrite ?lookup_delete_ne, ?lookup_insert_ne by done]); simpl; set_solver.
  - split; [|by intros []]. intros Hk. split; [done|]. intros [-> ->].
    rewrite Hv' in Hk. simpl in Hk. set_solver.
Qed.

Lemma elem_of_foldl_add k key v vs index :
  k ∈ keys_of v (foldl (λ index value, addKeyToIndex key value index) index vs) ↔
  (k = key ∧ v ∈ vs) ∨ k ∈ keys_of v index.
Proof.
  revert index. induction vs as [|v' vs IH]; intros index; simpl; [set_solver|].
  rewrite IH, elem_of_add. set_solver.
Qed.

Lemma elem_of_foldl_delete k key v vs index :
  k ∈ keys_of v (foldl (λ index value, deleteKeyFromIndex key value index) index vs) ↔
  k ∈ keys_of v index ∧ ¬ (k = key ∧ v ∈ vs).
Proof.
  revert index. induction vs as [|v' vs IH]; intros index; simpl; [set_solver|].
  rewrite IH, elem_of_delete. set_solver.
Qed.

(** No value keeps an empty set of keys. *)
Definition no_empty (index : Index) : Prop := map_Forall (λ _ X, X ≠ ∅) index.

Lemma no_empty_add key v index : no_empty index → no_empty (addKeyToIndex key v index).
Proof. intros Hi. apply map_Forall_insert_2; [set_solver|done]. Qed.

Lemma no_empty_delete key v index : no_empty index → no_empty (deleteKeyFromIndex key v index).
Proof.
  intros Hi. unfold deleteKeyFromIndex. destruct (index !! v); [|done].
  case_bool_decide; [by apply map_Forall_delete|by apply map_Forall_insert_2].
Qed.

Lemma no_empty_foldl_add key vs index :
  no_empty index → no_empty (foldl (λ index value, addKeyToIndex key value index) index vs).
Proof. revert index. induction vs; simpl; auto using no_empty_add. Qed.

Lemma no_empty_foldl_delete key vs index :
  no_empty index → no_empty (foldl (λ index value, deleteKeyFromIndex key value index) index vs).
Proof. revert index. induction vs; simpl; auto using no_empty_delete. Qed.

Lemma NoDup_fmap_filter {A B} (g : A → B) (P : A → Prop) `{∀ x, Decision (P x)} (l : list A) :
  NoDup (g <$> l) → NoDup (g <$> filter P l).
Proof.
  induction l as [|x l IH]; [done|]. cbn [fmap list_fmap]. intros [Hx Hl]%NoDup_cons.
  rewrite filter_cons. case_decide; [|by apply IH]. cbn [fmap list_fmap].
  apply NoDup_cons. split; [|by apply IH]. contradict Hx.
  apply list_elem_of_fmap in Hx as (y & -> & [_ Hy]%list_elem_of_filter).
  by apply list_elem_of_fmap_2.
Qed.

Section invariant.
Context {O : Type} `{MapOrder}.
Implicit Types (c : threadSafeMap O) (i : storeIndex O) (f : IndexFunc O).

(** [value] is one of the values [f] gives [obj]. *)
Definition has_value f (value : string) (obj : O) : Prop := ∃ vs, f obj = Ok vs ∧ value ∈ vs.

(** An index lists, under each value, the keys of the items with that value. *)
Definition indexed f (its : gmap string O) (index : Index) : Prop :=
  no_empty index ∧
  ∀ value key, key ∈ keys_of value index ↔ ∃ obj, its !! key = Some obj ∧ has_value f value obj.

(** The indices of a store agree with its items. *)
Definition wf_index (its : gmap string O) i : Prop :=
  ∀ name f, indexers i !! name = Some f → indexed f its (index_of name i).

Definition wf c : Prop := wf_index (items c) (index c).

Lemma values_of_spec f obj vs value :
  values_of f obj = Some vs → value ∈ vs ↔ ∃ o, obj = Some o ∧ has_value f value o.
Proof.
  unfold values_of, has_value. destruct obj as [o|]; [destruct (f o) as [vs'|] eqn:E; [|done]|];
    intros [= <-]; [|set_solver].
  split; [by eauto|]. intros (o' & [= <-] & vs2 & E2 & Hin). congruence.
Qed.

(** What one iteration of updateIndices does to the index it is about. *)
Lemma updateIndex_indexed oldObj newObj key name f ixs ixs' (its its' : gmap string O) :
  updateIndex oldObj newObj key name f ixs = Some ixs' →
  its !! key = oldObj → its' !! key = newObj → (∀ k, k ≠ key → its' !! k = its !! k) →
  indexed f its (default ∅ (ixs !! name)) →
  indexed f its' (default ∅ (ixs' !! name)).
Proof.
  unfold updateIndex. intros (vo & Ho & (vn & Hn & E)%option.bind_Some)%option.bind_Some Hold Hnew Hother [Hne Hix].
  set (index := default ∅ (ixs !! name)) in *.
  assert (∀ index', no_empty index' →
    (∀ k v, k ∈ keys_of v index' ↔
       (k = key ∧ v ∈ vn) ∨ (k ∈ keys_of v index ∧ ¬ (k = key ∧ v ∈ vo))) →
    indexed f its' index') as Hgoal.
  { intros index' Hne' Hk. split; [done|]. intros v k. rewrite Hk, Hix.
    rewrite (values_of_spec _ _ _ v Ho), (values_of_spec _ _ _ v Hn), <- Hnew, <- Hold.
    destruct (decide (k = key)) as [->|Hkey]; [naive_solver|].
    rewrite (Hother k) by done. naive_solver. }
  assert (indexed f its' (foldl (λ index value, addKeyToIndex key value index)
    (foldl (λ index value, deleteKeyFromIndex key value index) index vo) vn)) as Hfold.
  { apply Hgoal; [by apply no_empty_foldl_add, no_empty_foldl_delete|].
    intros k v. by rewrite elem_of_foldl_add, elem_of_foldl_delete. }
  destruct vn as [|v [|]], vo as [|v' [|]];
    try (injection E as <-; rewrite lookup_insert_eq; simpl; exact Hfold).
  case_bool_decide as Hv; injection E as <-; rewrite lookup_insert_eq; simpl; [|exact Hfold].
  subst v'. apply Hgoal; [done|]. intros k w. rewrite list_elem_of_singleton.
  assert (key ∈ keys_of v index) as Hin.
  { apply Hix. apply (values_of_spec f (its !! key) [v]); [by rewrite Hold|set_solver]. }
  destruct (decide (k = key ∧ w = v)) as [[-> ->]|]; naive_solver.
Qed.

Lemma updateIndex_other oldObj newObj key name f ixs ixs' name' :
  updateIndex oldObj newObj key name f ixs = Some ixs' → name ≠ name' →
  ixs' !! name' = ixs !! name'.
Proof.
  unfold updateIndex. intros (vo & Ho & (vn & Hn & E)%option.bind_Some)%option.bind_Some Hne.
  destruct vn as [|? [|]], vo as [|? [|]]; try case_bool_decide; injection E as <-;
    by rewrite lookup_insert_ne.
Qed.

Lemma update_all_indexed oldObj newObj key names (fs : gmap string (IndexFunc O)) ixs ixs' (its its' : gmap string O) :
  update_all oldObj newObj key names fs ixs = Some ixs' → NoDup names →
  its !! key = oldObj → its' !! key = newObj → (∀ k, k ≠ key → its' !! k = its !! k) →
  (∀ name f, name ∈ names → fs !! name = Some f → indexed f its (default ∅ (ixs !! name))) →
  (∀ name f, name ∈ names → fs !! name = Some f → indexed f its' (default ∅ (ixs' !! name))) ∧
  (∀ name, name ∉ names → ixs' !! name = ixs !! name).
Proof.
  revert ixs. induction names as [|name names IH]; intros ixs E Hnd Hold Hnew Hother Hix.
  { injection E as <-. split; [set_solver|done]. }
  apply NoDup_cons in Hnd as [Hnin Hnd]. simpl in E.
  destruct (fs !! name) as [f|] eqn:Hf.
  - apply option.bind_Some in E as (ixs1 & E1 & E2).
    pose proof (λ n, updateIndex_other _ _ _ _ _ _ _ n E1) as Hoth.
    apply IH in E2 as [Hin Hout]; [|done..|].
    + split.
      * intros n g [->|Hn]%elem_of_cons Hg; [|by apply Hin].
        rewrite Hout by done. simplify_eq. eapply updateIndex_indexed; [done..|].
        apply Hix; set_solver.
      * intros n Hn. rewrite Hout by set_solver. apply Hoth. set_solver.
    + intros n g Hn Hg. rewrite Hoth by set_solver. apply Hix; set_solver.
  - apply IH in E as [Hin Hout]; [|done..|].
    + split; [|intros n Hn; apply Hout; set_solver].
      intros n g [->|Hn]%elem_of_cons Hg; [congruence|by apply Hin].
    + intros n g Hn Hg. apply Hix; set_solver.
Qed.

Lemma updateIndices_wf oldObj newObj key i i' (its its' : gmap string O) :
  updateIndices oldObj newObj key i = Some i' →
  its !! key = oldObj → its' !! key = newObj → (∀ k, k ≠ key → its' !! k = its !! k) →
  wf_index its i → wf_index its' i' ∧ indexers i' = indexers i.
Proof.
  unfold updateIndices. intros (ixs & E & [= <-])%option.bind_Some Hold Hnew Hother Hwf.
  split; [|done]. intros name f Hf. simpl in *.
  eapply update_all_indexed in E as [Hin _]; [|apply NoDup_range|done..|].
  - apply (Hin name f); [|done]. rewrite elem_of_range. by apply elem_of_dom_2 in Hf.
  - intros n g _ Hg. by apply Hwf.
Qed.

Lemma Update_wf key obj c c' :
  wf c → Update key obj c = Some c' →
  wf c' ∧ items c' = <[key := obj]> (items c) ∧ indexers (index c') = indexers (index c).
Proof.
  unfold Update. intros Hwf (i & E & [= <-])%option.bind_Some. simpl.
  eapply (updateIndices_wf _ _ _ _ _ (items c) (<[key := obj]> (items c))) in E as [? ?]; [done|done|..].
  - by rewrite lookup_insert_eq.
  - intros k Hk. by rewrite lookup_insert_ne.
  - done.
Qed.

Lemma Delete_wf key c c' :
  wf c → Delete key c = Some c' →
  wf c' ∧ items c' = delete key (items c) ∧ indexers (index c') = indexers (index c).
Proof.
  unfold Delete. intros Hwf. destruct (items c !! key) as [obj|] eqn:Hobj.
  - intros (i & E & [= <-])%option.bind_Some. simpl.
    eapply (updateIndices_wf _ _ _ _ _ (items c) (delete key (items c))) in E as [? ?]; [done|done|..].
    + by rewrite lookup_delete_eq.
    + intros k Hk. by rewrite lookup_delete_ne.
    + done.
  - intros [= <-]. by rewrite delete_id.
Qed.

Lemma index_items_wf keys its i i' (done : gmap string O) :
  NoDup keys → index_items keys its i = Some i' →
  wf_index done i → (∀ k, k ∈ keys → done !! k = None) →
  (∀ k, k ∉ keys → done !! k = its !! k) →
  wf_index its i' ∧ indexers i' = indexers i.
Proof.
  revert i done. induction keys as [|key keys IH]; intros i dn Hnd E Hwf Hnone Hsome.
  { injection E as <-. split; [|done]. replace its with dn; [done|].
    apply map_eq. intros k. apply Hsome. set_solver. }
  apply NoDup_cons in Hnd as [Hnin Hnd]. simpl in E.
  destruct (its !! key) as [item|] eqn:Hkey.
  - apply option.bind_Some in E as (i1 & E1 & E2).
    eapply (updateIndices_wf _ _ _ _ _ dn (<[key := item]> dn)) in E1 as [Hwf1 Hi1].
    + apply (IH _ (<[key := item]> dn)) in E2 as [? ?]; [split; [done|congruence]|done..| |].
      * intros k Hk. rewrite lookup_insert_ne by set_solver. apply Hnone. set_solver.
      * intros k Hk. destruct (decide (k = key)) as [->|].
        -- by rewrite lookup_insert_eq.
        -- rewrite lookup_insert_ne by done. apply Hsome. set_solver.
    + apply Hnone. set_solver.
    + by rewrite lookup_insert_eq.
    + intros k Hk. by rewrite lookup_insert_ne.
    + done.
  - apply (IH _ dn) in E; [done..| |].
    + intros k Hk. apply Hnone. set_solver.
    + intros k Hk. destruct (decide (k = key)) as [->|]; [|apply Hsome; set_solver].
      rewrite Hkey. apply Hnone. set_solver.
Qed.

Lemma empty_indexed f : indexed f ∅ ∅.
Proof.
  split; [apply map_Forall_empty|]. intros v k. rewrite keys_of_empty.
  split; [set_solver|]. intros (o & E & _). by rewrite lookup_empty in E.
Qed.

Lemma Replace_wf its c c' :
  Replace its c = Some c' → wf c' ∧ items c' = its ∧ indexers (index c') = indexers (index c).
Proof.
  unfold Replace. intros (i & E & [= <-])%option.bind_Some. simpl.
  apply (index_items_wf _ _ _ _ ∅) in E as [? ?]; [done|apply NoDup_range|..].
  - intros name f Hf. unfold index_of. simpl. rewrite lookup_empty. apply empty_indexed.
  - intros k _. apply lookup_empty.
  - intros k Hk. rewrite lookup_empty. symmetry. apply not_elem_of_dom.
    by rewrite <- (elem_of_range (dom its)).
Qed.

(** ** Panics *)

(** Every index function gives [obj] values. *)
Definition accepted (fs : gmap string (IndexFunc O)) (obj : O) : Prop :=
  ∀ name f, fs !! name = Some f → ∃ vs, f obj = Ok vs.

Definition accepted_opt (fs : gmap string (IndexFunc O)) (obj : option O) : Prop :=
  ∀ o, obj = Some o → accepted fs o.

Lemma values_of_accepted fs name f obj :
  accepted_opt fs obj → fs !! name = Some f → is_Some (values_of f obj).
Proof.
  intros Hacc Hf. destruct obj as [o|]; [|by eexists]. simpl.
  destruct (Hacc o eq_refl name f Hf) as [vs ->]. by eexists.
Qed.

Lemma update_all_total oldObj newObj key names fs ixs :
  accepted_opt fs oldObj → accepted_opt fs newObj →
  is_Some (update_all oldObj newObj key names fs ixs).
Proof.
  intros Ho Hn. revert ixs. induction names as [|name names IH]; intros ixs; simpl; [by eexists|].
  destruct (fs !! name) as [f|] eqn:Hf; [|apply IH].
  destruct (values_of_accepted fs name f oldObj) as [vo Eo]; [done..|].
  destruct (values_of_accepted fs name f newObj) as [vn En]; [done..|].
  unfold updateIndex. rewrite Eo, En. simpl. apply IH.
Qed.

Lemma update_all_accepts oldObj newObj key names fs ixs ixs' :
  update_all oldObj newObj key names fs ixs = Some ixs' →
  ∀ name f, name ∈ names → fs !! name = Some f → is_Some (values_of f newObj).
Proof.
  revert ixs. induction names as [|n names IH]; intros ixs E name f Hin Hf; [set_solver|].
  simpl in E. apply elem_of_cons in Hin as [->|Hin].
  - rewrite Hf in E. apply option.bind_Some in E as (ixs1 & E1 & _). unfold updateIndex in E1.
    by apply option.bind_Some in E1 as (vo & _ & (vn & -> & _)%option.bind_Some).
  - destruct (fs !! n); [|by eapply IH].
    apply option.bind_Some in E as (ixs1 & _ & E2). by eapply IH.
Qed.

Lemma updateIndices_total oldObj newObj key i :
  accepted_opt (indexers i) oldObj → accepted_opt (indexers i) newObj →
  is_Some (updateIndices oldObj newObj key i).
Proof.
  intros Ho Hn. unfold updateIndices.
  destruct (update_all_total oldObj newObj key (range (dom (indexers i))) (indexers i) (indices i) Ho Hn)
    as [ixs ->]. by eexists.
Qed.

Lemma updateIndices_accepts oldObj obj key i i' :
  updateIndices oldObj (Some obj) key i = Some i' →
  accepted (indexers i) obj ∧ indexers i' = indexers i.
Proof.
  unfold updateIndices. intros (ixs & E & [= <-])%option.bind_Some. split; [|done].
  intros name f Hf. eapply update_all_accepts in E as [vs E]; [| |exact Hf].
  - simpl in E. destruct (f obj) as [vs'|]; [by exists vs'|done].
  - rewrite elem_of_range. by apply elem_of_dom_2 in Hf.
Qed.

Lemma index_items_total keys its i :
  map_Forall (λ _, accepted (indexers i)) its → is_Some (index_items keys its i).
Proof.
  revert i. induction keys as [|key keys IH]; intros i Hits; simpl; [by eexists|].
  destruct (its !! key) as [item|] eqn:Hkey; [|by apply IH].
  pose proof (Hits _ _ Hkey) as Hitem.
  destruct (updateIndices_total None (Some item) key i) as [i1 E1]; [by intros ?|by intros ? [= <-]|].
  rewrite E1. simpl. apply IH. apply updateIndices_accepts in E1 as [_ ->]. done.
Qed.

Lemma index_items_accepts keys its i i' :
  index_items keys its i = Some i' →
  ∀ key item, key ∈ keys → its !! key = Some item → accepted (indexers i) item.
Proof.
  revert i. induction keys as [|k keys IH]; intros i E key item Hin Hkey; [set_solver|].
  simpl in E. apply elem_of_cons in Hin as [->|Hin].
  - rewrite Hkey in E. apply option.bind_Some in E as (i1 & E1 & _).
    by apply updateIndices_accepts in E1 as [? _].
  - destruct (its !! k) as [it|]; [|by eapply IH].
    apply option.bind_Some in E as (i1 & E1 & E2). apply updateIndices_accepts in E1 as [_ Hi].
    rewrite <- Hi. by eapply IH.
Qed.

(** ** The life of a store *)

(** What a store built with the index functions [fs] can become. *)
Inductive reachable (fs : gmap string (IndexFunc O)) : threadSafeMap O → Prop :=
  | reachable_new : reachable fs (NewThreadSafeStore fs ∅)
  | reachable_add key obj c c' : reachable fs c → Add key obj c = Some c' → reachable fs c'
  | reachable_update key obj c c' : reachable fs c → Update key obj c = Some c' → reachable fs c'
  | reachable_delete key c c' : reachable fs c → Delete key c = Some c' → reachable fs c'
  | reachable_replace its c c' : reachable fs c → Replace its c = Some c' → reachable fs c'.

Lemma reachable_invariant fs c :
  reachable fs c →
  wf c ∧ indexers (index c) = fs ∧ map_Forall (λ _, accepted fs) (items c).
Proof.
  assert (∀ key obj c c', wf c ∧ indexers (index c) = fs ∧ map_Forall (λ _, accepted fs) (items c) →
    Update key obj c = Some c' →
    wf c' ∧ indexers (index c') = fs ∧ map_Forall (λ _, accepted fs) (items c')) as Hupd.
  { intros key obj c1 c' (Hwf & Hfs & Hall) E. pose proof (Update_wf _ _ _ _ Hwf E) as (? & -> & ->).
    split_and!; [done..|]. apply map_Forall_insert_2; [|done].
    unfold Update in E. apply option.bind_Some in E as (i & E & _).
    apply updateIndices_accepts in E as [? _]. by rewrite <- Hfs. }
  induction 1 as [|key obj c c' _ IH E|key obj c c' _ IH E|key c c' _ (Hwf & Hfs & Hall) E
    |its c c' _ (Hwf & Hfs & Hall) E].
  - split_and!; [|done|apply map_Forall_empty]. intros name f Hf. simpl.
    unfold index_of. simpl. rewrite lookup_empty. apply empty_indexed.
  - by eapply Hupd.
  - by eapply Hupd.
  - pose proof (Delete_wf _ _ _ Hwf E) as (? & -> & ->). split_and!; [done..|].
    by apply map_Forall_delete.
  - pose proof (Replace_wf _ _ _ E) as (? & Hits & ->). split_and!; [done..|]. rewrite Hits.
    intros key item Hkey. unfold Replace in E. apply option.bind_Some in E as (i & E & _).
    rewrite <- Hfs. eapply (index_items_accepts _ _ _ _ E key); [|done].
    rewrite elem_of_range. by apply elem_of_dom_2 in Hkey.
Qed.

(** What a scan with the index function selects. *)
Definition selects f (value : string) (obj : O) : bool :=
  match f obj with
  | Ok vs => bool_decide (value ∈ vs)
  | Err _ => false
  end.

Lemma selects_iff f value obj : selects f value obj = true ↔ has_value f value obj.
Proof.
  unfold selects, has_value. destruct (f obj) as [vs|]; [|naive_solver].
  rewrite bool_decide_eq_true. naive_solver.
Qed.

Definition scan f (value : string) (its : gmap string O) : list O :=
  filter (λ obj, selects f value obj = true) (map_to_list its).*2.

(** Going through the keys of an index finds all the items there. *)
Lemma items_at_scan f value c (X : gset string) :
  (∀ key, key ∈ X ↔ ∃ obj, items c !! key = Some obj ∧ has_value f value obj) →
  ∃ objs, items_at c X = Some <$> objs ∧ objs ≡ₚ scan f value (items c).
Proof.
  intros HX. set (sel := filter (λ kv : string * O, selects f value kv.2 = true) (map_to_list (items c))).
  assert (range X ≡ₚ sel.*1) as HP.
  { apply NoDup_Permutation; [apply NoDup_range| |].
    - apply NoDup_fmap_filter, NoDup_fst_map_to_list.
    - intros k. rewrite elem_of_range, HX. subst sel. rewrite list_elem_of_fmap. split.
      + intros (obj & Hk & Hv). exists (k, obj). split; [done|].
        apply list_elem_of_filter. split; [by apply selects_iff|by apply elem_of_map_to_list].
      + intros ([k2 obj] & E & [Hs Hk]%list_elem_of_filter). simpl in *. subst k2. exists obj.
        split; [by apply elem_of_map_to_list|by apply selects_iff]. }
  assert (items_at c X ≡ₚ Some <$> sel.*2) as HI.
  { unfold items_at. rewrite HP. rewrite <- !list_fmap_compose.
    erewrite list_fmap_ext; [reflexivity|]. intros ? [k obj] Hk. simpl.
    apply list_elem_of_lookup_2, list_elem_of_filter in Hk as [_ Hk].
    by apply elem_of_map_to_list. }
  assert (sel.*2 = scan f value (items c)) as HS.
  { unfold sel, scan. clear. induction (map_to_list (items c)) as [|[k o] l IH]; [done|].
    rewrite fmap_cons, !filter_cons. simpl in *.
    repeat case_decide; try done; by rewrite ?fmap_cons, IH. }
  rewrite HS in HI. apply Permutation_map_inv in HI as (objs & -> & Hp). by exists objs.
Qed.
End invariant.

Section store_claims.
Context {O : Type} `{MapOrder}.
Implicit Types (c : threadSafeMap O).

(** C24. A lookup by index is a scan: in any store reached from a new one by
    Add, Update, Delete and Replace, looking up a value in an index returns,
    in some order, exactly the stored items for which the index function gives
    that value, and never a nil. *)
Theorem ByIndex_exact fs c name f value :
  reachable fs c → fs !! name = Some f →
  ∃ objs, ByIndex name value c = Ok (Some <$> objs) ∧ objs ≡ₚ scan f value (items c).
Proof.
  intros Hc Hf. apply reachable_invariant in Hc as (Hwf & Hfs & _).
  assert (indexers (index c) !! name = Some f) as Hf' by by rewrite Hfs.
  destruct (Hwf name f Hf') as [_ Hix].
  destruct (items_at_scan f value c (keys_of value (index_of name (index c)))) as (objs & E & HP).
  { intros key. apply Hix. }
  exists objs. split; [|done]. unfold ByIndex, getKeysByIndex. by rewrite Hf', E.
Qed.

(** The store does not panic: writing an object that every index function
    accepts, deleting any key and replacing the content by accepted objects all
    return; an unknown index is an error of the lookup, not a panic. *)
Theorem store_never_panics fs c key obj its name value :
  reachable fs c → accepted fs obj → map_Forall (λ _, accepted fs) its → fs !! name = None →
  is_Some (Update key obj c) ∧ is_Some (Delete key c) ∧ is_Some (Replace its c) ∧
  ByIndex name value c = Err (no_index name).
Proof.
  intros Hc Hobj Hits Hname. apply reachable_invariant in Hc as (_ & Hfs & Hall).
  assert (∀ k, accepted_opt (indexers (index c)) (items c !! k)) as Hold.
  { intros k o Hk. rewrite Hfs. by eapply Hall. }
  split_and!.
  - destruct (updateIndices_total (items c !! key) (Some obj) key (index c)) as [i E];
      [done|by intros ? [= <-]; rewrite Hfs|]. unfold Update. rewrite E. by eexists.
  - unfold Delete. destruct (items c !! key) as [o|] eqn:Hk; [|by eexists].
    destruct (updateIndices_total (Some o) None key (index c)) as [i E];
      [rewrite <- Hk; apply Hold|by intros ?|]. rewrite E. by eexists.
  - destruct (index_items_total (range (dom its)) its (reset (index c))) as [i E];
      [simpl; by rewrite Hfs|]. unfold Replace. rewrite E. by eexists.
  - unfold ByIndex, getKeysByIndex. by rewrite Hfs, Hname.
Qed.
End store_claims.

(** ** Witnesses: strings indexed by themselves *)

Definition sorted_order : MapOrder := {| range := elements; range_perm := λ X, reflexivity _ |}.

Definition by_self : gmap string (IndexFunc string) := {["self" := λ o, Ok [o]]}.

Definition replaced : threadSafeMap string :=
  Eval vm_compute in
    default (NewThreadSafeStore by_self ∅)
      (@Replace _ sorted_order {["a" := "x"; "b" := "x"; "c" := "y"]}
        (NewThreadSafeStore by_self ∅)).

Definition three : threadSafeMap string :=
  Eval vm_compute in default replaced (@Update _ sorted_order "b" "y" replaced).

Lemma three_reachable : @reachable _ sorted_order by_self three.
Proof.
  apply (@reachable_update _ sorted_order by_self "b" "y" replaced); [|vm_compute; reflexivity].
  apply (@reachable_replace _ sorted_order by_self {["a" := "x"; "b" := "x"; "c" := "y"]}
           (NewThreadSafeStore by_self ∅)); [|vm_compute; reflexivity].
  apply reachable_new.
Qed.

Lemma ByIndex_exact_witness :
  ∃ objs, @ByIndex _ sorted_order "self" "y" three = Ok (Some <$> objs) ∧
    objs ≡ₚ scan (λ o, Ok [o]) "y" (items three).
Proof.
  apply (@ByIndex_exact _ sorted_order by_self); [exact three_reachable|reflexivity].
Defined.

Lemma store_never_panics_witness :
  is_Some (@Update _ sorted_order "d" "z" three) ∧ is_Some (@Delete _ sorted_order "d" three) ∧
  is_Some (@Replace _ sorted_order ∅ three) ∧
  @ByIndex _ sorted_order "other" "y" three = Err (no_index "other").
Proof.
  apply (@store_never_panics _ sorted_order by_self three).
  - exact three_reachable.
  - intros name f Hf. exists ["z"].
    unfold by_self in Hf. apply lookup_singleton_Some in Hf as [_ <-]. reflexivity.
  - apply map_Forall_empty.
  - reflexivity.
Defined.
