(* ===== verification/Indexer.v ===== *)
(** * Conditions and indices of migrations: src/pkg/controller

    helpers.go and indexer.go, and the interface through which the controllers
    read the informer's cache.  [MigrationIndexer] states what they rely on;
    the store of Store.v implements it. *)
From S2P Require Export World StoreProps.

Local Open Scope Z_scope.
Import v1alpha1.

(** A value of type interface{} as the informer hands it out: pointers to
    migrations, tombstones, and anything else by the name of its type. *)
Inductive any :=
  | AnyMigration (m : StorageVersionMigration)
  | AnyTombstone (key : string) (obj : any)     (* cache.DeletedFinalStateUnknown *)
  | AnyOther (type : string)
  | AnyNil.

(** reflect.TypeOf; the %#v rendering of the result is abbreviated to the name
    of the type. *)
Definition reflect_TypeOf (obj : any) : string :=
  match obj with
  | AnyMigration _ => "*v1alpha1.StorageVersionMigration"
  | AnyTombstone _ _ => "cache.DeletedFinalStateUnknown"
  | AnyOther type => type
  | AnyNil => "<nil>"
  end.

(** ** helpers.go *)

Fixpoint index_from (i : Z) (conditions : list MigrationCondition) (conditionType : string) : Z :=
  match conditions with
  | [] => -1
  | c :: conditions =>
      if bool_decide (Type_ c = conditionType) && bool_decide (CondStatus c = ConditionTrue)
      then i else index_from (i + 1) conditions conditionType
  end.

Definition indexOfCondition (m : StorageVersionMigration) (conditionType : string) : Z :=
  index_from 0 (Conditions (svm_Status m)) conditionType.

Definition HasCondition (m : StorageVersionMigration) (conditionType : string) : bool :=
  negb (indexOfCondition m conditionType =? -1).

Definition resource_of (m : StorageVersionMigration) : schema.GroupVersionResource :=
  {| schema.gvr_Group := Group (Spec_Resource (svm_Spec m));
     schema.gvr_Version := Version (Spec_Resource (svm_Spec m));
     schema.gvr_Resource := Resource (Spec_Resource (svm_Spec m)) |}.

(** ** indexer.go *)

Definition StatusIndex : string := "Status".
Definition StatusRunning : string := "Running".
Definition StatusPending : string := "Pending".
Definition StatusCompleted : string := "Completed".
Definition ResourceIndex : string := "Resource".

Definition migrationStatusIndexFunc : IndexFunc any := λ obj,
  match obj with
  | AnyMigration m =>
      if HasCondition m MigrationSucceeded || HasCondition m MigrationFailed
      then Ok [StatusCompleted]
      else if HasCondition m MigrationRunning then Ok [StatusRunning]
      else Ok [StatusPending]
  | _ => Err (Errorf ("expected StroageVersionMigration, got " +:+ reflect_TypeOf obj))
  end.

Definition ToIndex (r : GroupVersionResource) : string := Resource r +:+ "." +:+ Group r.

Definition migrationResourceIndexFunc : IndexFunc any := λ obj,
  match obj with
  | AnyMigration m => Ok [ToIndex (Spec_Resource (svm_Spec m))]
  | _ => Err (Errorf ("expected StroageVersionMigration, got " +:+ reflect_TypeOf obj))
  end.

(** The indexers of NewStatusIndexedInformer and
    NewStatusAndResourceIndexedInformer. *)
Definition StatusIndexers : gmap string (IndexFunc any) :=
  {[StatusIndex := migrationStatusIndexFunc]}.
Definition StatusAndResourceIndexers : gmap string (IndexFunc any) :=
  {[StatusIndex := migrationStatusIndexFunc; ResourceIndex := migrationResourceIndexFunc]}.

(** ** The cache as the controllers see it *)

(** [ByIndex] on the informer's indexer; the informer may change the cache
    between two reads.  [cached] is what is in the cache, [index_funcs] the
    indices it keeps. *)
Class MigrationIndexer (S : Type) := {
  indexer_ByIndex : string → string → S → res (list any) * S;
  cached : S → list any;
  index_funcs : gmap string (IndexFunc any);
  indexer_ByIndex_exact : ∀ name f value s, index_funcs !! name = Some f →
    ∃ objs, (indexer_ByIndex name value s).1 = Ok objs ∧
      objs ≡ₚ filter (λ obj, selects f value obj = true) (cached s);
}.

(** The store of an informer with the indexers [fs] implements the interface. *)
Definition informer `{MapOrder} (fs : gmap string (IndexFunc any)) : Type :=
  { c : threadSafeMap any | reachable fs c }.

Definition informer_ByIndex `{MapOrder} {fs} (name value : string) (s : informer fs) :
    res (list any) * informer fs :=
  (match ByIndex name value (`s) with
   | Ok objs => Ok (default AnyNil <$> objs)
   | Err e => Err e
   end, s).

#[export] Instance informer_indexer `{MapOrder} (fs : gmap string (IndexFunc any)) :
  MigrationIndexer (informer fs).
Proof.
  refine {| indexer_ByIndex := informer_ByIndex;
            cached := λ s, (map_to_list (items (`s))).*2;
            index_funcs := fs |}.
  intros name f value [c Hc] Hf. unfold informer_ByIndex. simpl.
  apply reachable_invariant in Hc as (Hwf & Hfs & _).
  assert (indexers (index c) !! name = Some f) as Hf' by by rewrite Hfs.
  destruct (Hwf name f Hf') as [_ Hix].
  destruct (items_at_scan f value c (keys_of value (index_of name (index c)))) as (objs & E & HP).
  { intros key. apply Hix. }
  exists objs. unfold ByIndex, getKeysByIndex. rewrite Hf', E. simpl. split; [|exact HP].
  f_equal. rewrite <- list_fmap_compose. apply list_fmap_id.
Defined.

(** ** Facts about conditions *)

(** A condition of some type that is True. *)
Definition holds_condition (t : string) (c : MigrationCondition) : Prop :=
  Type_ c = t ∧ CondStatus c = ConditionTrue.

#[global] Instance holds_condition_dec t c : Decision (holds_condition t c).
Proof. unfold holds_condition. apply _. Defined.

Lemma index_from_absent i cs t :
  0 ≤ i → index_from i cs t = -1 ↔ Forall (λ c, ¬ holds_condition t c) cs.
Proof.
  revert i. induction cs as [|c cs IH]; intros i Hi; simpl; [done|].
  rewrite Forall_cons, <- (IH (i + 1)) by lia. unfold holds_condition.
  repeat case_bool_decide; simpl; naive_solver lia.
Qed.

Lemma HasCondition_true m t :
  HasCondition m t = true ↔ ∃ c, c ∈ Conditions (svm_Status m) ∧ holds_condition t c.
Proof.
  unfold HasCondition, indexOfCondition. rewrite negb_true_iff, Z.eqb_neq, index_from_absent by done.
  rewrite <- Exists_exists. split.
  - intros Hn. apply not_Forall_Exists in Hn; [|intros c; apply _].
    eapply Exists_impl; [exact Hn|]. intros c. apply dec_stable.
  - intros (c & Hin & Hc)%Exists_exists HF. rewrite Forall_forall in HF. by eapply HF.
Qed.

Definition completed (m : StorageVersionMigration) : bool :=
  HasCondition m MigrationSucceeded || HasCondition m MigrationFailed.

(** The status a migration is filed under. *)
Definition status_of (m : StorageVersionMigration) : string :=
  if HasCondition m MigrationSucceeded || HasCondition m MigrationFailed then StatusCompleted
  else if HasCondition m MigrationRunning then StatusRunning else StatusPending.

Lemma selects_status status obj :
  selects migrationStatusIndexFunc status obj = true ↔
  ∃ m, obj = AnyMigration m ∧ status_of m = status.
Proof.
  destruct obj as [m| | |]; [|by split; [|intros (? & [=] & _)]..].
  assert (selects migrationStatusIndexFunc status (AnyMigration m) =
    bool_decide (status ∈ [status_of m])) as ->.
  { unfold selects, migrationStatusIndexFunc, status_of.
    destruct (_ || _); [done|]. by destruct (HasCondition m MigrationRunning). }
  rewrite bool_decide_eq_true, list_elem_of_singleton. naive_solver.
Qed.

Lemma selects_resource r obj :
  selects migrationResourceIndexFunc (ToIndex r) obj = true ↔
  ∃ m, obj = AnyMigration m ∧ ToIndex (Spec_Resource (svm_Spec m)) = ToIndex r.
Proof.
  destruct obj as [m| | |]; [|by split; [|intros (? & [=] & _)]..].
  unfold selects, migrationResourceIndexFunc. rewrite bool_decide_eq_true, list_elem_of_singleton. naive_solver.
Qed.

(** Resource names have no dots (they are DNS labels), so the resource index
    does not confuse two resources of different groups or names. *)
Lemma ToIndex_inj r1 r2 :
  count_char "." (Resource r1) = 0%nat → count_char "." (Resource r2) = 0%nat →
  ToIndex r1 = ToIndex r2 → Resource r1 = Resource r2 ∧ Group r1 = Group r2.
Proof. intros H1 H2. by apply app_sep_inj. Qed.
