(* ===== verification/Controller.v ===== *)
(** * The migration controller: src/pkg/controller/kubemigrator.go

    [KubeMigrator] takes one migration at a time from the informer's cache,
    marks it Running, runs the core migrator and records how that ended. *)
From S2P Require Export Migrator Indexer.
From Stdlib Require Import QArith.

Local Open Scope Z_scope.
Import v1alpha1.

(** Conditions updateStatus replaces; the others are kept. *)
Definition known (conditionType : string) : bool :=
  bool_decide (conditionType = MigrationRunning) ||
  bool_decide (conditionType = MigrationSucceeded) ||
  bool_decide (conditionType = MigrationFailed).

(** The loop that builds newConditions from the old ones. *)
Definition unknown_conditions (cs : list MigrationCondition) : list MigrationCondition :=
  filter (λ c, known (Type_ c) = false) cs.

(** The backoff literal of updateStatus and of the trigger. *)
Definition status_backoff : Backoff :=
  {| bo_Steps := 6; bo_Duration := 10 * Millisecond; bo_Factor := 5;
     bo_Jitter := 1 # 10; bo_Cap := 0 |}.

Section controller.
Context {C : Type} `{Runtime C} `{DynamicInterface C} `{StorageVersionMigrationInterface C}
  `{MigrationIndexer C}.
Abbreviation Eff := (M (World C)).

Definition Now : Eff Time := silent time_Now.

Definition update_status (m : StorageVersionMigration) : Eff (res StorageVersionMigration) :=
  call (svm_UpdateStatus m) (λ r, SVMUpdateStatus m (res_error r)).

(** The variable m of updateStatus.  Its closure assigns to fields of the
    object m points to, which is the caller's object until m is pointed to a
    refreshed one. *)
Record m_variable := {
  original : StorageVersionMigration;          (* the caller's object *)
  refreshed : option StorageVersionMigration;  (* what m points to instead *)
}.

Definition deref (v : m_variable) : StorageVersionMigration := default (original v) (refreshed v).

(** m.Status.Conditions = cs *)
Definition assign_conditions (cs : list MigrationCondition) (v : m_variable) : m_variable :=
  match refreshed v with
  | Some m => {| original := original v; refreshed := Some (with_Conditions cs m) |}
  | None => {| original := with_Conditions cs (original v); refreshed := None |}
  end.

(** m = updated *)
Definition point_to (updated : StorageVersionMigration) (v : m_variable) : m_variable :=
  {| original := original v; refreshed := Some updated |}.

(** The ConditionFunc of updateStatus. *)
Definition updateStatus_attempt (condition message : string) : Condition m_variable := λ m,
  now ← Now;
  let newCondition := {| Type_ := condition; CondStatus := ConditionTrue;
                         LastUpdateTime := now; Reason := ""; Message := message |} in
  let newConditions := unknown_conditions (Conditions (svm_Status (deref m))) ++ [newCondition] in
  let m := assign_conditions newConditions m in
  r ← update_status (deref m);
  match r with
  | Ok _ => mret (true, None, m)
  | Err _ =>
      r ← get_migration (svm_Name (deref m));
      match r with
      | Ok updated => mret (false, None, point_to updated m)
      | Err _ => mret (false, None, m)
      end
  end.

(** [return m, wait.ExponentialBackoff(...)]: Go does not specify whether the
    variable m is read before or after the call; [early] says it is before. *)
Definition updateStatus (early : bool) (m : StorageVersionMigration) (condition message : string) :
    Eff (StorageVersionMigration * option error) :=
  '(err, v) ← ExponentialBackoff status_backoff (updateStatus_attempt condition message)
                {| original := m; refreshed := None |};
  mret (if early then original v else deref v, err).

(** Code after the first updateStatus of processOne. *)
Definition run_and_record (rounds fuel : nat) (early : bool) (m : StorageVersionMigration) :
    Eff (option error) :=
  let core := NewMigrator (resource_of m) (NewProgressTracker (svm_Name m)) in
  err ← Run rounds fuel core;
  HandleError err ;;
  match err with
  | None =>
      '(_, e) ← updateStatus early m MigrationSucceeded "";
      HandleError e ;;
      observe (ObserveSucceededMigration (schema.GroupVersionResource_String (resource_of m))) ;;
      mret err
  | Some runErr =>
      '(_, e) ← updateStatus early m MigrationFailed (Error runErr);
      HandleError e ;;
      observe (ObserveFailedMigration (schema.GroupVersionResource_String (resource_of m))) ;;
      mret err
  end.

Definition processOne (rounds fuel : nat) (early : bool) (obj : any) : Eff (option error) :=
  match obj with
  | AnyMigration m =>
      r ← get_migration (svm_Name m);
      match r with
      | Err e => mret (Some e)
      | Ok m =>
          if HasCondition m MigrationSucceeded || HasCondition m MigrationFailed then mret None
          else
            '(m, err) ← updateStatus early m MigrationRunning "";
            match err with
            | Some e => mret (Some e)
            | None => run_and_record rounds fuel early m
            end
      end
  | _ => mret (Some (Errorf ("expected StorageVersionMigration, got " +:+ reflect_TypeOf obj)))
  end.

Definition process (rounds fuel : nat) (early : bool) : Eff unit :=
  runnings ← silent (indexer_ByIndex StatusIndex StatusRunning);
  match runnings with
  | Err e => HandleError (Some e)
  | Ok (running :: _) => err ← processOne rounds fuel early running; HandleError err
  | Ok [] =>
      pendings ← silent (indexer_ByIndex StatusIndex StatusPending);
      match pendings with
      | Err e => HandleError (Some e)
      | Ok (pending :: _) => err ← processOne rounds fuel early pending; HandleError err
      | Ok [] => mret tt
      end
  end.

(** wait.UntilWithContext(ctx, km.process, time.Second), cancelled after
    [n] rounds. *)
Fixpoint until (n rounds fuel : nat) (early : bool) : Eff unit :=
  match n with
  | O => mret tt
  | S n => process rounds fuel early ;; Sleep Second ;; until n rounds fuel early
  end.

(** KubeMigrator.Run, given whether the cache synced before the context was
    cancelled. *)
Definition KubeMigrator_Run (synced : bool) (n rounds fuel : nat) (early : bool) : Eff unit :=
  if synced then until n rounds fuel early
  else HandleError (Some (Errorf "Unable to sync caches")).
End controller.
