(* ===== verification/SimCache.v ===== *)
(** * An informer cache for the in-memory cluster

    The cluster of Sim.v with a cache that is always in sync with it, as an
    instance of the indexer interface. *)
From S2P Require Export Sim Indexer.

Import v1alpha1.

Definition sim_cached (c : cluster) : list any := AnyMigration <$> (map_to_list (c_svms c)).*2.

#[export] Instance sim_indexer : MigrationIndexer cluster.
Proof.
  refine {|
    indexer_ByIndex := λ name value c,
      (match StatusAndResourceIndexers !! name with
       | Some f => Ok (filter (λ obj, selects f value obj = true) (sim_cached c))
       | None => Err (no_index name)
       end, c);
    cached := sim_cached;
    index_funcs := StatusAndResourceIndexers;
  |}.
  intros name f value c Hf. simpl. rewrite Hf. by eexists.
Defined.
