(* ===== verification/ControllerProps.v ===== *)
(** * Theorems about the migration controller

    What updateStatus writes and for how long it tries, which migration
    process picks, and how processOne takes a migration through its states. *)
From S2P Require Export Controller RunTrace SimCache.

Local Open Scope Z_scope.
Import v1alpha1.

(** ** The conditions updateStatus writes *)

Definition renewed (condition message : string) (now : Time) (cs : list MigrationCondition) :
    list MigrationCondition :=
  unknown_conditions cs ++
  [{| Type_ := condition; CondStatus := ConditionTrue; LastUpdateTime := now;
      Reason := ""; Message := message |}].

Lemma unknown_conditions_renewed condition message now cs :
  known condition = true →
  unknown_conditions (renewed condition message now cs) = unknown_conditions cs.
Proof.
  intros Hk. unfold renewed, unknown_conditions. rewrite filter_app, filter_cons_False
    by (simpl; by rewrite Hk).
  rewrite filter_nil, app_nil_r. apply filter_id.
  apply Forall_forall. by intros c [? _]%list_elem_of_filter.
Qed.

(** The known conditions exclude each other after an update. *)
Lemma renewed_HasCondition condition message now cs m t :
  known t = true →
  HasCondition (with_Conditions (renewed condition message now cs) m) t = bool_decide (t = condition).
Proof.
  intros Ht. apply eq_true_iff_eq. rewrite HasCondition_true, bool_decide_eq_true. simpl. split.
  - intros (c & [Hin|Hin]%elem_of_app & Hc & _).
    + apply list_elem_of_filter in Hin as [Hk _]. congruence.
    + apply list_elem_of_singleton in Hin as ->. done.
  - intros ->. eexists. split; [apply elem_of_app; right; by apply list_elem_of_singleton|done].
Qed.

(** The status a known condition files a migration under. *)
Definition status_for (condition : string) : string :=
  if bool_decide (condition = MigrationRunning) then StatusRunning else StatusCompleted.

Lemma renewed_status condition message now cs m :
  known condition = true →
  status_of (with_Conditions (renewed condition message now cs) m) = status_for condition.
Proof.
  intros Hk. unfold status_of. rewrite !renewed_HasCondition by done. unfold status_for.
  unfold known in Hk. apply orb_true_iff in Hk as [[Hk|Hk]%orb_true_iff|Hk];
    apply bool_decide_eq_true in Hk as ->; done.
Qed.

(** ** Traces of updateStatus *)

(** The freshest version of the migration that the requests have shown. *)
Definition latest (m : StorageVersionMigration) (evs : list event) : StorageVersionMigration :=
  foldl (λ m ev, match ev with SVMGet _ (Ok m') => m' | _ => m end) m evs.

Lemma latest_app m evs1 evs2 : latest m (evs1 ++ evs2) = latest (latest m evs1) evs2.
Proof. apply foldl_app. Qed.

Definition is_status_update (ev : event) : bool :=
  match ev with SVMUpdateStatus _ _ => true | _ => false end.

Definition status_updates (evs : list event) : list event :=
  filter (λ ev, is_status_update ev = true) evs.

(** A request of the core migrator to the migrated resource. *)
Definition is_dynamic (ev : event) : bool :=
  match ev with DynGet _ _ _ _ | DynUpdate _ _ _ _ | DynList _ _ _ => true | _ => false end.

Definition calm (evs : list event) : Prop := Forall (λ ev, is_dynamic ev = false) evs.

(** Time slept. *)
Fixpoint slept (evs : list event) : Z :=
  match evs with
  | [] => 0
  | Slept d :: evs => d + slept evs
  | _ :: evs => slept evs
  end.

Lemma slept_app evs1 evs2 : slept (evs1 ++ evs2) = slept evs1 + slept evs2.
Proof. induction evs1 as [|[] evs1 IH]; simpl; lia. Qed.

(** Every status update writes the freshest version with renewed conditions. *)
Definition writes_renewed (condition message : string) (m : StorageVersionMigration)
    (evs : list event) : Prop :=
  ∀ pre m1 err post, evs = pre ++ SVMUpdateStatus m1 err :: post →
    ∃ now, m1 = with_Conditions
      (renewed condition message now (Conditions (svm_Status (latest m pre)))) (latest m pre).

Lemma writes_renewed_app condition message m evs1 evs2 :
  writes_renewed condition message m evs1 →
  writes_renewed condition message (latest m evs1) evs2 →
  writes_renewed condition message m (evs1 ++ evs2).
Proof.
  intros H1 H2 pre m1 err post [(k & ->)|(k & -> & E)]%app_split_elem; [by eapply H1|].
  rewrite latest_app. by eapply H2.
Qed.

(** Two versions with the same content but for the known conditions. *)
Definition same_unknown (m1 m2 : StorageVersionMigration) : Prop :=
  svm_Meta m1 = svm_Meta m2 ∧ svm_Spec m1 = svm_Spec m2 ∧
  unknown_conditions (Conditions (svm_Status m1)) = unknown_conditions (Conditions (svm_Status m2)).

#[global] Instance same_unknown_equivalence : Equivalence same_unknown.
Proof.
  split.
  - by intros m.
  - intros m1 m2 (? & ? & ?). by split_and!.
  - intros m1 m2 m3 (? & ? & ?) (? & ? & ?). split_and!; congruence.
Qed.

Lemma same_unknown_renewed condition message now m1 m2 :
  same_unknown m1 m2 →
  with_Conditions (renewed condition message now (Conditions (svm_Status m1))) m1 =
  with_Conditions (renewed condition message now (Conditions (svm_Status m2))) m2.
Proof. intros (HM & HS & HU). unfold with_Conditions, renewed. by rewrite HM, HS, HU. Qed.

Section updateStatus.
Context {C : Type} `{Runtime C} `{StorageVersionMigrationInterface C}.
Implicit Types (w : World C) (v : m_variable).

Lemma deref_assign cs v : deref (assign_conditions cs v) = with_Conditions cs (deref v).
Proof. unfold deref, assign_conditions. by destruct v as [m [r|]]. Qed.

(** The requests of one attempt. *)
Inductive status_block (m1 : StorageVersionMigration) : list event → bool → Prop :=
  | status_accepted : status_block m1 [SVMUpdateStatus m1 None] true
  | status_refreshed e m' :
      status_block m1 [SVMUpdateStatus m1 (Some e); SVMGet (svm_Name m1) (Ok m')] false
  | status_stale e e' :
      status_block m1 [SVMUpdateStatus m1 (Some e); SVMGet (svm_Name m1) (Err e')] false.

Lemma updateStatus_attempt_run condition message v m w :
  same_unknown (deref v) m → known condition = true →
  wp (updateStatus_attempt condition message v)
     (λ r w', ∃ now evs v' ok, r = (ok, None, v') ∧ w' = add_events evs (ext w') w ∧
        status_block
          (with_Conditions (renewed condition message now (Conditions (svm_Status m))) m) evs ok ∧
        same_unknown (deref v') (latest m evs) ∧ same_unknown (original v') (original v)) w.
Proof.
  intros Hsame Hk. unfold updateStatus_attempt, Now, update_status, get_migration.
  do 2 wp_step. set (now := (time_Now (ext w)).1).
  wp_step. fold (renewed condition message now (Conditions (svm_Status (deref v)))).
  rewrite deref_assign, (same_unknown_renewed _ _ _ _ _ Hsame).
  set (m1 := with_Conditions _ m).
  assert (same_unknown m1 m) as Hm1.
  { split_and!; [done..|]. subst m1. simpl. by apply unknown_conditions_renewed. }
  assert (deref (assign_conditions
    (renewed condition message now (Conditions (svm_Status (deref v)))) v) = m1) as Hd.
  { rewrite deref_assign. by apply same_unknown_renewed. }
  assert (same_unknown (original (assign_conditions
    (renewed condition message now (Conditions (svm_Status (deref v)))) v)) (original v)) as Ho.
  { unfold assign_conditions, deref. destruct v as [o [r|]]; simpl; [done|].
    split_and!; [done..|]. by apply unknown_conditions_renewed. }
  wp_step. simpl. rewrite add_events_add_events.
  destruct (svm_UpdateStatus m1 (time_Now (ext w)).2) as [[m2|e] s2]; simpl.
  - wp_step. do 4 eexists. split; [reflexivity|]. split; [done|]. split; [constructor|].
    split; [by rewrite Hd|done].
  - do 2 wp_step. rewrite add_events_add_events. simpl.
    destruct (svm_Get (svm_Name m1) s2) as [[m'|e'] s3]; simpl; wp_step;
      do 4 eexists; (split; [reflexivity|]); (split; [done|]); (split; [constructor|]);
      (split; [|done]).
    + by split_and!.
    + simpl. by rewrite Hd.
Qed.

(** An updateStatus in progress, after [n] attempts that failed. *)
Record trying (condition message : string) (m : StorageVersionMigration) (n : nat)
    (evs : list event) v : Prop := {
  trying_writes : writes_renewed condition message m evs;
  trying_count : length (status_updates evs) = n;
  trying_same : same_unknown (deref v) (latest m evs);
  trying_original : same_unknown (original v) m;
  trying_calm : calm evs;
}.

Lemma status_updates_app evs1 evs2 :
  status_updates (evs1 ++ evs2) = status_updates evs1 ++ status_updates evs2.
Proof. apply filter_app. Qed.

(** A failed or accepted attempt extends it. *)
Lemma trying_block condition message m n evs v m1 now block ok v' :
  trying condition message m n evs v →
  m1 = with_Conditions (renewed condition message now
         (Conditions (svm_Status (latest m evs)))) (latest m evs) →
  status_block m1 block ok → same_unknown (deref v') (latest (latest m evs) block) →
  same_unknown (original v') (original v) →
  trying condition message m (S n) (evs ++ block) v'.
Proof.
  intros [Hw Hc Hs Ho Hcalm] Hm1 Hb Hv' Ho'. split.
  - apply writes_renewed_app; [done|]. intros pre m2 err post E. exists now.
    destruct Hb; destruct pre as [|? [|? []]]; by simplify_eq/=.
  - rewrite status_updates_app, length_app, Hc. destruct Hb; simpl; lia.
  - by rewrite latest_app.
  - by etrans.
  - apply Forall_app. split; [done|]. destruct Hb; by repeat constructor.
Qed.

Lemma trying_sleep condition message m n evs v d :
  trying condition message m n evs v → trying condition message m n (evs ++ [Slept d]) v.
Proof.
  intros [Hw Hc Hs Ho Hcalm].
  split; [|by rewrite status_updates_app, app_nil_r|by rewrite latest_app|done|].
  2: { apply Forall_app. split; [done|by repeat constructor]. }
  apply writes_renewed_app; [done|]. intros [|? []] ? ? ? E; by simplify_eq/=.
Qed.

(** The backoff after [n] rounds, and the most that was slept by then. *)
Definition in_round (n : nat) (b : Backoff) (evs : list event) : Prop :=
  bo_Steps b = 6 - Z.of_nat n ∧ bo_Factor b = 5 ∧ bo_Jitter b = bo_Jitter status_backoff ∧
  bo_Duration b = 10 * Millisecond * 5 ^ Z.of_nat n ∧
  40 * slept evs <= 11 * (bo_Duration b - 10 * Millisecond).

Lemma in_round_next n b evs block extra :
  in_round n b evs → slept block = 0 →
  0 ≤ extra ≤ jitter_bound (bo_Duration b) (bo_Jitter b) →
  in_round (S n) (next_backoff b) ((evs ++ block) ++ [Slept (bo_Duration b + extra)]).
Proof.
  intros (HS & HF & HJ & HD & Hsl) Hb Hextra. unfold in_round. cbn [next_backoff bo_Steps bo_Factor bo_Jitter bo_Duration].
  rewrite HF, HJ, !slept_app, Hb. simpl (slept [_]).
  assert (extra ≤ bo_Duration b / 10) as He.
  { rewrite HJ in Hextra. unfold jitter_bound in Hextra. simpl in Hextra.
    rewrite Z.mul_1_r in Hextra. lia. }
  split_and!; [lia|done|done| |].
  - rewrite HD, Nat2Z.inj_succ, Z.pow_succ_r by lia. lia.
  - pose proof (Z.mul_div_le (bo_Duration b) 10). lia.
Qed.

(** How an updateStatus ends. *)
Definition status_end (condition message : string) (m : StorageVersionMigration)
    (evs : list event) (err : option error) : Prop :=
  ∃ n, (n <= 5)%nat ∧ length (status_updates evs) = S n ∧
    writes_renewed condition message m evs ∧ calm evs ∧
    40 * slept evs <= 11 * (10 * Millisecond * 5 ^ Z.of_nat n - 10 * Millisecond) ∧
    match err with
    | None => ∃ pre m1, evs = pre ++ [SVMUpdateStatus m1 None]
    | Some e => e = ErrWaitTimeout ∧ n = 5%nat
    end.

Lemma status_block_slept m1 block ok : status_block m1 block ok → slept block = 0.
Proof. by destruct 1. Qed.

Lemma updateStatus_run early m condition message w :
  known condition = true →
  wp (updateStatus early m condition message)
     (λ r w', ∃ evs, w' = add_events evs (ext w') w ∧ status_end condition message m evs r.2 ∧
        same_unknown r.1 (if early then m else latest m evs)) w.
Proof.
  intros Hk. unfold updateStatus. apply wp_bind.
  eapply wp_conseq; [apply wp_ExponentialBackoff with
    (I := λ b v w', ∃ n evs, w' = add_events evs (ext w') w ∧ (n <= 5)%nat ∧
            in_round n b evs ∧ trying condition message m n evs v)
    (Q := λ err v w', ∃ evs, w' = add_events evs (ext w') w ∧
            status_end condition message m evs err ∧
            same_unknown (deref v) (latest m evs) ∧ same_unknown (original v) m)|].
  - done.
  - by unfold plain_backoff.
  - exists 0%nat, []. split_and!; [|lia|by unfold in_round|].
    + unfold add_events. rewrite app_nil_r. by destruct w.
    + split; [by intros []|done..|constructor].
  - intros b v w1 _ Hsteps (n & evs & Ew & Hn & Hround & Htry).
    eapply wp_conseq; [apply (updateStatus_attempt_run _ _ _ (latest m evs)); [apply Htry|done]|].
    intros r w2 (now & block & v' & ok & -> & E & Hblock & Hv' & Ho').
    rewrite Ew in E. rewrite add_events_add_events in E.
    pose proof (trying_block _ _ _ _ _ _ _ _ _ _ _ Htry eq_refl Hblock Hv' Ho') as Htry'.
    pose proof (status_block_slept _ _ _ Hblock) as Hbs.
    assert (status_end condition message m (evs ++ block)
      (if ok then None else Some ErrWaitTimeout) ∨
      (ok = false ∧ bo_Steps b ≠ 1)) as Hend.
    { destruct ok; [left|destruct (Z.eqb_spec (bo_Steps b) 1); [left|by right]];
        exists n; destruct Hround as (HS & _ & _ & HD & Hsl); rewrite slept_app, Hbs;
        (split_and!; [done|apply Htry'|apply Htry'|apply Htry'|lia|..]).
      - inversion Hblock; subst. eauto.
      - done.
      - lia. }
    destruct ok; simpl.
    + exists (evs ++ block). split_and!; [done|by destruct Hend as [|[]]|apply Htry'..].
    + destruct (Z.eqb_spec (bo_Steps b) 1) as [HS|HS].
      * exists (evs ++ block). split_and!; [done|by destruct Hend as [|[]]|apply Htry'..].
      * intros extra s' Hextra. exists (S n), ((evs ++ block) ++ [Slept (bo_Duration b + extra)]).
        split_and!.
        -- rewrite E. by rewrite add_events_add_events.
        -- destruct Hround as (Hst & _). lia.
        -- by apply in_round_next.
        -- by apply trying_sleep.
  - intros [err v] w' (evs & E & Hend & Hd & Ho). apply wp_ret. exists evs.
    split_and!; [done|done|]. by destruct early.
Qed.
End updateStatus.

(** ** processOne *)

Section processOne.
Context {C : Type} `{Runtime C} `{DynamicInterface C} `{StorageVersionMigrationInterface C}.
Implicit Types (w : World C) (m : StorageVersionMigration).

(** The condition and message that record how Run ended. *)
Definition final_condition (result : option error) : string :=
  match result with None => MigrationSucceeded | Some _ => MigrationFailed end.
Definition final_message (result : option error) : string :=
  match result with None => "" | Some e => Error e end.

(** The migration that is run once [m] was marked Running with the requests
    [evs]: the one updateStatus returns, up to the known conditions. *)
Definition marked (early : bool) (m : StorageVersionMigration) (evs : list event) : StorageVersionMigration :=
  if early then m else latest m evs.

(** The requests of processOne, by how far it gets. *)
Inductive processed (early : bool) : any → list event → option error → Prop :=
  | processed_bad obj :
      (∀ m, obj ≠ AnyMigration m) →
      processed early obj [] (Some (Errorf ("expected StorageVersionMigration, got " +:+ reflect_TypeOf obj)))
  | processed_no_object m e :
      processed early (AnyMigration m) [SVMGet (svm_Name m) (Err e)] (Some e)
  | processed_completed m m' :
      completed m' = true →
      processed early (AnyMigration m) [SVMGet (svm_Name m) (Ok m')] None
  | processed_not_marked m m' evs e :
      completed m' = false → status_end MigrationRunning "" m' evs (Some e) →
      processed early (AnyMigration m) (SVMGet (svm_Name m) (Ok m') :: evs) (Some e)
  | processed_run m m' evs m2 revs result fevs fe :
      completed m' = false → status_end MigrationRunning "" m' evs None →
      same_unknown m2 (marked early m' evs) →
      run_events (resource_of m2) (svm_Name m2) revs result →
      status_end (final_condition result) (final_message result) m2 fevs fe →
      processed early (AnyMigration m)
        (SVMGet (svm_Name m) (Ok m') :: evs ++ revs ++ handled result ++ fevs ++ handled fe) result.

Lemma run_and_record_run rounds fuel early m w result w' :
  run_and_record rounds fuel early m w = Some (result, w') →
  migration (metrics w') =
    vec_add (schema.GroupVersionResource_String (resource_of m), final_condition result) 1
      (migration (metrics w)) ∧
  ∃ revs fevs fe,
    trace w' = trace w ++ revs ++ handled result ++ fevs ++ handled fe ∧
    run_events (resource_of m) (svm_Name m) revs result ∧
    status_end (final_condition result) (final_message result) m fevs fe.
Proof.
  unfold run_and_record. intros (err & w1 & (HM & revs & HT & Hrun)%Run_run & E)%bind_Some.
  apply bind_Some in E as ([] & w2 & E2 & E).
  assert (w2 = add_events (handled err) (ext w1) w1) as ->.
  { destruct err as [e|]; [by injection E2|]. injection E2 as <-. unfold add_events.
    simpl. rewrite app_nil_r. by destruct w1. }
  assert (∀ condition message f (k : World C), known condition = true →
    ('(_, e) ← updateStatus early m condition message; HandleError e ;; observe f ;; mret err)
      (add_events (handled err) (ext w1) w1) = Some (result, k) →
    result = err ∧ metrics k = f (metrics w1) ∧
    ∃ fevs fe, trace k = trace w1 ++ handled err ++ fevs ++ handled fe ∧
      status_end condition message m fevs fe) as Hrec.
  { intros condition message f k Hk E3.
    destruct (updateStatus_run early m condition message (add_events (handled err) (ext w1) w1) Hk)
      as ([m' fe] & w3 & E4 & fevs & Ew & Hend & _).
    rewrite (bind_step _ _ _ _ _ E4) in E3. apply bind_Some in E3 as ([] & w4 & E5 & E3).
    apply bind_Some in E3 as ([] & w5 & E6 & E3). injection E3 as <- <-. injection E6 as <-.
    split; [done|]. simpl in *.
    destruct fe as [e|]; injection E5 as <-; rewrite Ew; simpl; (split; [done|]);
      exists fevs; [exists (Some e)|exists None]; (split; [|done]); simpl;
      by rewrite ?app_nil_r, <- !app_assoc. }
  destruct err as [e|]; apply Hrec in E as (-> & Hm & fevs & fe & HT2 & Hend); try done;
    rewrite Hm; simpl; rewrite HM; (split; [done|]); exists revs, fevs, fe;
    (split_and!; [|done|done]); rewrite HT2, HT; by rewrite <- !app_assoc.
Qed.

Lemma processOne_run rounds fuel early obj w result w' :
  processOne rounds fuel early obj w = Some (result, w') →
  ∃ evs, trace w' = trace w ++ evs ∧ processed early obj evs result.
Proof.
  unfold processOne. destruct obj as [m|key o|type|].
  2-4: intros [= <- <-]; exists []; rewrite app_nil_r; split; [done|by constructor].
  intros (r & w1 & E1 & E)%bind_Some. unfold get_migration in E1. rewrite call_Some in E1.
  injection E1 as <- <-. destruct (svm_Get (svm_Name m) (ext w)) as [[m'|e] s1]; simpl in E.
  2: { injection E as <- <-. eexists. split; [reflexivity|constructor]. }
  fold (completed m') in E. destruct (completed m') eqn:Hc.
  { injection E as <- <-. eexists. split; [reflexivity|by constructor]. }
  destruct (updateStatus_run early m' MigrationRunning ""
    (add_events [SVMGet (svm_Name m) (Ok m')] s1 w) eq_refl) as ([m2 err] & w2 & E2 & evs & Ew & Hend & Hm2).
  rewrite (bind_step _ _ _ _ _ E2) in E. simpl in *. rewrite add_events_add_events in Ew.
  destruct err as [e|].
  - injection E as <- <-. eexists. split; [by rewrite Ew|]. by constructor.
  - apply run_and_record_run in E as (_ & revs & fevs & fe & HT & Hrun & Hfin).
    eexists. split; [rewrite HT, Ew; simpl; rewrite <- app_assoc; reflexivity|].
    by econstructor.
Qed.
End processOne.


Section controller_claims.
Context {C : Type} `{Runtime C} `{DynamicInterface C} `{StorageVersionMigrationInterface C}
  `{MigrationIndexer C}.
Implicit Types (w : World C) (m : StorageVersionMigration).

(** updateStatus always returns, after one to six attempts and at most
    8.591 seconds of sleep; every attempt writes the freshest version of the
    migration the requests have shown, with the unknown conditions kept in
    order and the three known ones replaced by the given one, so that what is
    written has no other known condition; it reports nil after an accepted
    attempt and a timeout after the sixth failed one. *)
Theorem updateStatus_spec early m condition message w :
  known condition = true →
  wp (updateStatus early m condition message)
    (λ r w', ∃ evs, trace w' = trace w ++ evs ∧ metrics w' = metrics w ∧
      (1 <= length (status_updates evs) <= 6)%nat ∧ slept evs ≤ 8591 * Millisecond ∧
      writes_renewed condition message m evs ∧
      (∀ m1 err, SVMUpdateStatus m1 err ∈ evs →
        status_of m1 = status_for condition ∧
        ∀ t, known t = true → HasCondition m1 t = bool_decide (t = condition)) ∧
      match r.2 with
      | None => ∃ pre m1, evs = pre ++ [SVMUpdateStatus m1 None]
      | Some e => e = ErrWaitTimeout ∧ length (status_updates evs) = 6%nat
      end) w.
Proof.
  intros Hk. eapply wp_conseq; [by apply updateStatus_run|].
  intros [m' err] w' (evs & -> & (n & Hn & Hlen & Hw & _ & Hsl & Hend) & _). exists evs. simpl in *.
  assert (5 ^ Z.of_nat n ≤ 3125) as Hpow by (change 3125 with (5 ^ 5); apply Z.pow_le_mono_r; lia).
  unfold Millisecond, Second in *. split_and!; [done|done|lia|lia|lia|done| |].
  - intros m1 e Hin. apply list_elem_of_split in Hin as (pre & post & ->).
    destruct (Hw _ _ _ _ eq_refl) as [now ->].
    split; [by apply renewed_status|by intros; apply renewed_HasCondition].
  - destruct err as [e|]; [|done]. destruct Hend as [-> ->]. by rewrite Hlen.
Qed.

(** No object of the migrated resource is read or written before the API
    server has accepted the migration as Running: in any processOne, a request
    to the resource is preceded by an accepted status update whose condition
    is Running. *)
Theorem processOne_running_first rounds fuel early obj w result w' :
  processOne rounds fuel early obj w = Some (result, w') →
  ∃ evs, trace w' = trace w ++ evs ∧
    ∀ pre ev post, evs = pre ++ ev :: post → is_dynamic ev = true →
      ∃ m1, SVMUpdateStatus m1 None ∈ pre ∧ status_of m1 = StatusRunning.
Proof.
  intros (evs & HT & Hp)%processOne_run. exists evs. split; [done|].
  assert (∀ evs pre ev post, calm evs → evs = pre ++ ev :: post → is_dynamic ev = true → False) as Hcalm.
  { intros l pre ev post Hl -> Hd. apply Forall_app in Hl as [_ [Hl _]%Forall_cons]. congruence. }
  intros pre ev post E Hd. destruct Hp as [obj Hobj|m e|m m' Hc|m m' l e Hc Hend
    |m m' l m2 revs result fevs fe Hc Hend Hm2 Hrun Hfin].
  - by destruct pre.
  - exfalso. eapply Hcalm; [|exact E|exact Hd]. by repeat constructor.
  - exfalso. eapply Hcalm; [|exact E|exact Hd]. by repeat constructor.
  - destruct Hend as (n & _ & _ & _ & Hl & _).
    exfalso. eapply Hcalm; [|exact E|exact Hd]. by constructor.
  - destruct Hend as (n & _ & _ & Hw & Hl & _ & l1 & m1 & ->).
    destruct (Hw _ _ _ _ eq_refl) as [now Hm1]. exists m1.
    split; [|rewrite Hm1; by apply renewed_status].
    rewrite (app_comm_cons _ (revs ++ _)) in E. apply app_split_elem in E as [[k E]|(k & -> & _)]; [|set_solver].
    exfalso. eapply Hcalm; [|exact E|exact Hd]. by constructor.
Qed.

(** A migration that has completed is left alone: when the API server
    returns it with a Succeeded or Failed condition, processOne does nothing
    but that GET and returns nil, whatever the cache said. *)
Theorem processOne_completed_untouched rounds fuel early m m' w :
  (svm_Get (svm_Name m) (ext w)).1 = Ok m' → status_of m' = StatusCompleted →
  processOne rounds fuel early (AnyMigration m) w =
    Some (None, add_events [SVMGet (svm_Name m) (Ok m')] (svm_Get (svm_Name m) (ext w)).2 w).
Proof.
  intros Hget Hst. simpl. unfold get_migration. erewrite bind_step by apply call_Some.
  rewrite Hget. unfold status_of in Hst. destruct (_ || _); [done|].
  by destruct (HasCondition m' MigrationRunning).
Qed.


(** Migrations with some status in a cache. *)
Definition filed (status : string) (objs : list any) : list any :=
  filter (λ obj, selects migrationStatusIndexFunc status obj = true) objs.

Lemma ByIndex_filed status (s : C) :
  index_funcs !! StatusIndex = Some migrationStatusIndexFunc →
  ∃ objs, (indexer_ByIndex StatusIndex status s).1 = Ok objs ∧ objs ≡ₚ filed status (cached s).
Proof. intros Hf. by apply indexer_ByIndex_exact. Qed.

(** C21. process works on one migration at a time, in this order of
    priority: if the cache has a migration that is Running, it processes one
    of those; otherwise, if it has one that is pending, one of those; and
    otherwise it does nothing. *)
Theorem process_priority rounds fuel early w :
  index_funcs !! StatusIndex = Some migrationStatusIndexFunc →
  let s1 := (indexer_ByIndex StatusIndex StatusRunning (ext w)).2 in
  let s2 := (indexer_ByIndex StatusIndex StatusPending s1).2 in
  (∃ m, AnyMigration m ∈ cached (ext w) ∧ status_of m = StatusRunning ∧
     process rounds fuel early w =
       (err ← processOne rounds fuel early (AnyMigration m); HandleError err) (add_events [] s1 w)) ∨
  ((∀ m, AnyMigration m ∈ cached (ext w) → status_of m ≠ StatusRunning) ∧
   ((∃ m, AnyMigration m ∈ cached s1 ∧ status_of m = StatusPending ∧
      process rounds fuel early w =
        (err ← processOne rounds fuel early (AnyMigration m); HandleError err) (add_events [] s2 w)) ∨
    ((∀ m, AnyMigration m ∈ cached s1 → status_of m ≠ StatusPending) ∧
     process rounds fuel early w = Some (tt, add_events [] s2 w)))).
Proof.
  intros Hf s1 s2.
  assert (∀ status s objs obj rest, objs ≡ₚ filed status (cached s) → objs = obj :: rest →
    ∃ m, obj = AnyMigration m ∧ AnyMigration m ∈ cached s ∧ status_of m = status) as Hhead.
  { intros status s objs obj rest HP ->.
    assert (obj ∈ filed status (cached s)) as [Hsel Hin]%list_elem_of_filter by (rewrite <- HP; set_solver).
    apply selects_status in Hsel as (m & -> & ?). eauto. }
  assert (∀ status s, [] ≡ₚ filed status (cached s) →
    ∀ m, AnyMigration m ∈ cached s → status_of m ≠ status) as Hnone.
  { intros status s HP m Hin Hm. apply Permutation_nil_l in HP.
    assert (AnyMigration m ∈ filed status (cached s)) as Hm'.
    { apply list_elem_of_filter. split; [|done]. apply selects_status. eauto. }
    rewrite <- HP in Hm'. set_solver. }
  destruct (ByIndex_filed StatusRunning (ext w) Hf) as (runnings & Er & HPr).
  destruct (ByIndex_filed StatusPending s1 Hf) as (pendings & Ep & HPp).
  unfold process. erewrite bind_step by apply silent_Some. rewrite Er. fold s1.
  destruct runnings as [|obj rest].
  - right. split; [by eapply Hnone|]. erewrite bind_step by apply silent_Some. simpl.
    rewrite Ep. fold s2. destruct pendings as [|obj rest].
    + right. split; [by eapply Hnone|]. unfold add_events. simpl. by rewrite !app_nil_r.
    + left. destruct (Hhead _ _ _ _ _ HPp eq_refl) as (m & -> & ? & ?). exists m.
      split_and!; [done|done|]. by rewrite add_events_add_events.
  - left. destruct (Hhead _ _ _ _ _ HPr eq_refl) as (m & -> & ? & ?). by exists m.
Qed.
End controller_claims.

(** ** Witnesses: a pending migration of pods, taken through to Succeeded *)

Definition pending_world : World cluster :=
  start (set_scripts [] [] [Some unavailable]
    (set_pages two_pages (with_svms [pod_migration "pods-1" "" []] empty_cluster))).

Definition pending_end : World cluster :=
  Eval vm_compute in
    from_option snd pending_world
      (processOne 3 3 false (AnyMigration (pod_migration "pods-1" "" [])) pending_world).

Lemma pending_run :
  processOne 3 3 false (AnyMigration (pod_migration "pods-1" "" [])) pending_world =
    Some (None, pending_end).
Proof. vm_compute. reflexivity. Qed.

Lemma updateStatus_spec_witness :
  known MigrationRunning = true ∧
  wp (updateStatus false (pod_migration "pods-1" "" []) MigrationRunning "")
    (λ r w', ∃ evs, trace w' = trace pending_world ++ evs ∧ metrics w' = metrics pending_world ∧
      (1 <= length (status_updates evs) <= 6)%nat ∧ slept evs ≤ 8591 * Millisecond ∧
      writes_renewed MigrationRunning "" (pod_migration "pods-1" "" []) evs ∧
      (∀ m1 err, SVMUpdateStatus m1 err ∈ evs →
        status_of m1 = status_for MigrationRunning ∧
        ∀ t, known t = true → HasCondition m1 t = bool_decide (t = MigrationRunning)) ∧
      match r.2 with
      | None => ∃ pre m1, evs = pre ++ [SVMUpdateStatus m1 None]
      | Some e => e = ErrWaitTimeout ∧ length (status_updates evs) = 6%nat
      end) pending_world.
Proof.
  split; [reflexivity|].
  apply (updateStatus_spec false (pod_migration "pods-1" "" []) MigrationRunning "" pending_world).
  reflexivity.
Defined.

Lemma processOne_running_first_witness :
  ∃ evs, trace pending_end = trace pending_world ++ evs ∧
    ∀ pre ev post, evs = pre ++ ev :: post → is_dynamic ev = true →
      ∃ m1, SVMUpdateStatus m1 None ∈ pre ∧ status_of m1 = StatusRunning.
Proof. exact (processOne_running_first 3 3 false _ pending_world None pending_end pending_run). Defined.

Definition done_condition : MigrationCondition :=
  {| Type_ := MigrationSucceeded; CondStatus := ConditionTrue; LastUpdateTime := 0;
     Reason := ""; Message := "" |}.

(** The API server has the migration completed, the cache has not. *)
Definition done_world : World cluster :=
  start (with_svms [pod_migration "pods-1" "" [done_condition]] empty_cluster).

Lemma processOne_completed_untouched_witness :
  processOne 1 1 true (AnyMigration (pod_migration "pods-1" "" [])) done_world =
    Some (None, add_events
      [SVMGet "pods-1" (Ok (pod_migration "pods-1" "" [done_condition]))] (ext done_world) done_world).
Proof.
  exact (processOne_completed_untouched 1 1 true (pod_migration "pods-1" "" [])
           (pod_migration "pods-1" "" [done_condition]) done_world eq_refl eq_refl).
Defined.


Lemma process_priority_witness :
  let s1 := (indexer_ByIndex StatusIndex StatusRunning (ext pending_world)).2 in
  let s2 := (indexer_ByIndex StatusIndex StatusPending s1).2 in
  (∃ m, AnyMigration m ∈ cached (ext pending_world) ∧ status_of m = StatusRunning ∧
     process 3 3 true pending_world =
       (err ← processOne 3 3 true (AnyMigration m); HandleError err) (add_events [] s1 pending_world)) ∨
  ((∀ m, AnyMigration m ∈ cached (ext pending_world) → status_of m ≠ StatusRunning) ∧
   ((∃ m, AnyMigration m ∈ cached s1 ∧ status_of m = StatusPending ∧
      process 3 3 true pending_world =
        (err ← processOne 3 3 true (AnyMigration m); HandleError err) (add_events [] s2 pending_world)) ∨
    ((∀ m, AnyMigration m ∈ cached s1 → status_of m ≠ StatusPending) ∧
     process 3 3 true pending_world = Some (tt, add_events [] s2 pending_world)))).
Proof. apply (process_priority 3 3 true pending_world). reflexivity. Defined.
