(* ===== verification/Trigger.v ===== *)
(** * The migration trigger: src/pkg/trigger

    migration_handler.go and discovery_handler.go: the trigger compares the
    storage version hashes that discovery reports with the StorageStates it
    keeps, launches migrations where they differ, and marks a StorageState
    migrated when a migration has succeeded.

    [mt.heartbeat] is written by processDiscovery only; the functions it calls
    take it as an argument. *)
From S2P Require Export Controller.

Local Open Scope Z_scope.
Import v1alpha1.

Definition discoveryPeriod : Duration := 10 * Minute.

(** The package variable backoff. *)
Definition backoff : Backoff := status_backoff.

(** discovery.ServerResourcesInterface: what was found, and the error. *)
Class DiscoveryInterface (S : Type) := {
  disc_ServerPreferredResources : S → (list metav1.APIResourceList * option error) * S;
}.

(** ** migration_handler.go *)

Definition storageStateName (resource : GroupVersionResource) : string :=
  if bool_decide (Group resource = "") then Resource resource
  else Resource resource +:+ "." +:+ Group resource.

Definition with_PersistedHashes (hashes : list string) (ss : StorageState) : StorageState :=
  with_Status {| PersistedStorageVersionHashes := hashes;
                 CurrentStorageVersionHash := CurrentStorageVersionHash (ss_Status ss);
                 LastHeartbeatTime := LastHeartbeatTime (ss_Status ss) |} ss.

Section trigger.
Context {C : Type} `{Runtime C} `{StorageVersionMigrationInterface C} `{StorageStateInterface C}
  `{MigrationIndexer C} `{DiscoveryInterface C}.
Abbreviation Eff := (M (World C)).

Definition get_state (name : string) : Eff (res StorageState) := call (ss_Get name) (SSGet name).

Definition create_state (ss : StorageState) : Eff (res StorageState) :=
  call (ss_Create ss) (SSCreate ss).

Definition update_state_status (ss : StorageState) : Eff (res StorageState) :=
  call (ss_UpdateStatus ss) (λ r, SSUpdateStatus ss (res_error r)).

Definition delete_state (name : string) : Eff (option error) :=
  call (ss_Delete name) (SSDelete name).

Definition create_migration (m : StorageVersionMigration) : Eff (res StorageVersionMigration) :=
  call (svm_Create m) (λ r, SVMCreate m (res_error r)).

Definition delete_migration (name : string) : Eff (option error) :=
  call (svm_Delete name) (SVMDelete name).

(** A type assertion that fails without the comma-ok form. *)
Definition panic {A} : Eff A := λ _, None.

Definition mark_attempt (resource : GroupVersionResource) : Condition unit := λ _,
  r ← get_state (storageStateName resource);
  match r with
  | Err e =>
      HandleError (Some e) ;;
      mret (IsNotFound e, None, tt)
  | Ok ss =>
      let ss := with_PersistedHashes [CurrentStorageVersionHash (ss_Status ss)] ss in
      r ← update_state_status ss;
      match r with
      | Err e => HandleError (Some e) ;; mret (false, None, tt)
      | Ok _ => mret (true, None, tt)
      end
  end.

Definition markStorageStateSucceeded (resource : GroupVersionResource) : Eff (option error) :=
  '(err, _) ← ExponentialBackoff backoff (mark_attempt resource) tt;
  mret err.

Definition processMigration (m : StorageVersionMigration) : Eff (option error) :=
  if HasCondition m MigrationSucceeded then markStorageStateSucceeded (Spec_Resource (svm_Spec m))
  else if HasCondition m MigrationFailed then mret None
  else mret None.

Record queueItem := {
  qi_namespace : string;
  qi_name : string;
  qi_resource : GroupVersionResource;
}.

(** What is on the work queue: pointers to queueItems, and by the name of
    their type things that are not. *)
Inductive work_item :=
  | WorkItem (it : queueItem)
  | WorkOther (type : string).

Definition processQueue (obj : work_item) : Eff (option error) :=
  match obj with
  | WorkOther type => mret (Some (Errorf ("expected queueItem, got " +:+ type)))
  | WorkItem item =>
      r ← get_migration (qi_name item);
      match r with
      | Ok m => processMigration m
      | Err e => if IsNotFound e then mret None else mret (Some e)
      end
  end.

(** ** discovery_handler.go *)

Definition toGroupResource (r : metav1.APIResource) : GroupVersionResource :=
  {| Group := metav1.res_Group r; Version := metav1.res_Version r; Resource := metav1.res_Name r |}.

(** The loop of cleanMigrations over the migrations it found. *)
Fixpoint delete_all (l : list any) : Eff (option error) :=
  match l with
  | [] => mret None
  | AnyMigration mm :: l =>
      err ← delete_migration (svm_Name mm);
      match err with
      | Some e =>
          mret (Some (Errorf ("unexpected error deleting migration " +:+ svm_Name mm +:+ ", " +:+ Error e)))
      | None => delete_all l
      end
  | m :: _ => mret (Some (Errorf ("expected StorageVersionMigration, got " +:+ reflect_TypeOf m)))
  end.

Definition cleanMigrations (r : metav1.APIResource) : Eff (option error) :=
  l ← silent (indexer_ByIndex ResourceIndex (ToIndex (toGroupResource r)));
  match l with
  | Err e => mret (Some e)
  | Ok l => delete_all l
  end.

Definition new_migration (resource : GroupVersionResource) : StorageVersionMigration :=
  {| svm_Meta := {| metav1.Name := ""; metav1.GenerateName := storageStateName resource +:+ "-";
                    metav1.Namespace := ""; metav1.ResourceVersion := ""; metav1.UID := ""; metav1.Labels := ∅ |};
     svm_Spec := {| Spec_Resource := resource; ContinueToken := "" |};
     svm_Status := {| Conditions := [] |} |}.

Definition launchMigration (resource : GroupVersionResource) : Eff (option error) :=
  r ← create_migration (new_migration resource);
  mret (res_error r).

Definition relaunchMigration (r : metav1.APIResource) : Eff (option error) :=
  err ← cleanMigrations r;
  match err with
  | Some e => mret (Some e)
  | None => launchMigration (toGroupResource r)
  end.

Definition newStorageState (r : metav1.APIResource) : StorageState :=
  {| ss_Meta := {| metav1.Name := storageStateName (toGroupResource r); metav1.GenerateName := "";
                   metav1.Namespace := ""; metav1.ResourceVersion := ""; metav1.UID := ""; metav1.Labels := ∅ |};
     ss_Spec := {| ss_Resource := {| gr_Group := metav1.res_Group r;
                                     gr_Resource := metav1.res_Name r |} |};
     ss_Status := empty_status |}.

(** The status updateStorageState writes over the one it read. *)
Definition next_status (heartbeat : Time) (currentHash : string) (st : StorageStateStatus) :
    StorageStateStatus :=
  let st :=
    if bool_decide (CurrentStorageVersionHash st ≠ currentHash) then
      {| CurrentStorageVersionHash := currentHash;
         PersistedStorageVersionHashes :=
           match PersistedStorageVersionHashes st with
           | [] => [Unknown]
           | hashes => hashes ++ [currentHash]
           end;
         LastHeartbeatTime := LastHeartbeatTime st |}
    else st in
  {| CurrentStorageVersionHash := CurrentStorageVersionHash st;
     PersistedStorageVersionHashes := PersistedStorageVersionHashes st;
     LastHeartbeatTime := heartbeat |}.

Definition state_attempt (heartbeat : Time) (currentHash : string) (r : metav1.APIResource) :
    Condition unit := λ _,
  let update (ss : StorageState) :=
    out ← update_state_status (with_Status (next_status heartbeat currentHash (ss_Status ss)) ss);
    match out with
    | Err e => HandleError (Some e) ;; mret (false, None, tt)
    | Ok _ => mret (true, None, tt)
    end in
  out ← get_state (storageStateName (toGroupResource r));
  match out with
  | Ok ss => update ss
  | Err e =>
      if negb (IsNotFound e) then HandleError (Some e) ;; mret (false, None, tt)
      else
        out ← create_state (newStorageState r);
        match out with
        | Err e => HandleError (Some e) ;; mret (false, None, tt)
        | Ok ss => update ss
        end
  end.

Definition updateStorageState (heartbeat : Time) (currentHash : string) (r : metav1.APIResource) :
    Eff (option error) :=
  '(err, _) ← ExponentialBackoff backoff (state_attempt heartbeat currentHash r) tt;
  mret err.

Definition staleStorageState (heartbeat : Time) (ss : StorageState) : bool :=
  LastHeartbeatTime (ss_Status ss) + 2 * discoveryPeriod <? heartbeat.

Definition isMigrated (ss : StorageState) : bool :=
  match PersistedStorageVersionHashes (ss_Status ss) with
  | [hash] => bool_decide (CurrentStorageVersionHash (ss_Status ss) = hash)
  | _ => false
  end.

Fixpoint any_active (migrations : list any) : Eff bool :=
  match migrations with
  | [] => mret false
  | AnyMigration m :: migrations =>
      if HasCondition m MigrationSucceeded || HasCondition m MigrationFailed
      then any_active migrations else mret true
  | _ :: _ => panic
  end.

Definition hasPendingOrRunningMigration (r : metav1.APIResource) : Eff bool :=
  migrations ← silent (indexer_ByIndex ResourceIndex (ToIndex (toGroupResource r)));
  match migrations with
  | Err e => HandleError (Some e) ;; mret false
  | Ok migrations => any_active migrations
  end.

Definition processDiscoveryResource (heartbeat : Time) (r : metav1.APIResource) : Eff unit :=
  if bool_decide (metav1.StorageVersionHash r = "") then mret tt
  else
    out ← get_state (storageStateName (toGroupResource r));
    match out with
    | Err getErr =>
        if negb (IsNotFound getErr) then HandleError (Some getErr)
        else
          err ← relaunchMigration r;
          HandleError err ;;
          _ ← updateStorageState heartbeat (metav1.StorageVersionHash r) r;
          mret tt
    | Ok ss =>
        let stale := staleStorageState heartbeat ss in
        let storageVersionChanged :=
          bool_decide (CurrentStorageVersionHash (ss_Status ss) ≠ metav1.StorageVersionHash r) in
        needsMigration ← (if isMigrated ss then mret false
                          else pending ← hasPendingOrRunningMigration r; mret (negb pending));
        let relaunch := stale || storageVersionChanged || needsMigration in
        deleted ← (if stale then delete_state (storageStateName (toGroupResource r)) else mret None);
        match deleted with
        | Some e => HandleError (Some e)
        | None =>
            (if relaunch then err ← relaunchMigration r; HandleError err else mret tt) ;;
            _ ← updateStorageState heartbeat (metav1.StorageVersionHash r) r;
            mret tt
        end
    end.

(** The loops of processDiscovery over the discovered resources. *)
Definition default_group_version (gv : schema.GroupVersion) (r : metav1.APIResource) :
    metav1.APIResource :=
  {| metav1.res_Name := metav1.res_Name r;
     metav1.res_Group := if bool_decide (metav1.res_Group r = "") then schema.gv_Group gv
                         else metav1.res_Group r;
     metav1.res_Version := if bool_decide (metav1.res_Version r = "") then schema.gv_Version gv
                           else metav1.res_Version r;
     metav1.res_Verbs := metav1.res_Verbs r;
     metav1.StorageVersionHash := metav1.StorageVersionHash r |}.

Definition process_list (heartbeat : Time) (l : metav1.APIResourceList) : Eff unit :=
  match schema.ParseGroupVersion (metav1.GroupVersion l) with
  | Err e => HandleError (Some (Errorf ("unexpected group version error: " +:+ Error e)))
  | Ok gv =>
      for_each (λ r, processDiscoveryResource heartbeat (default_group_version gv r))
        (metav1.APIResources l)
  end.

(** The closure of processDiscovery assigns resources and err2. *)
Definition discover : Condition (list metav1.APIResourceList * option error) := λ _,
  '(resources, err2) ← call disc_ServerPreferredResources (λ r, ServerPreferred r.1 r.2);
  match err2 with
  | Some e => HandleError (Some e) ;; mret (false, None, (resources, err2))
  | None => mret (true, None, (resources, err2))
  end.

(** Returns the new mt.heartbeat.  What is logged when discovery failed has no
    effect: the partial result is processed in every case. *)
Definition processDiscovery : Eff Time :=
  '(_, (resources, _)) ← ExponentialBackoff backoff discover ([], None);
  heartbeat ← Now;
  for_each (process_list heartbeat) resources ;;
  mret heartbeat.
End trigger.
