(* ===== verification/TriggerProps.v ===== *)
(** * Theorems about the migration trigger

    What the trigger writes into StorageStates and when, and when it deletes
    and launches migrations. *)
From S2P Require Export Trigger SimCache.

Local Open Scope Z_scope.
Import v1alpha1.

(** ** Storage version hashes *)

(** What a StorageState promises about its resource: nothing is known yet, or
    the hash objects are written with now is among the persisted ones, or the
    list is the conservative Unknown. *)
Definition sound_status (st : StorageStateStatus) : Prop :=
  (CurrentStorageVersionHash st = "" ∧ PersistedStorageVersionHashes st = []) ∨
  CurrentStorageVersionHash st ∈ PersistedStorageVersionHashes st ∨
  Unknown ∈ PersistedStorageVersionHashes st.

Lemma next_status_current hb hash st : CurrentStorageVersionHash (next_status hb hash st) = hash.
Proof. unfold next_status. case_bool_decide as Hh; done. Qed.

Lemma next_status_heartbeat hb hash st : LastHeartbeatTime (next_status hb hash st) = hb.
Proof. done. Qed.

Lemma next_status_keeps hb hash st h :
  h ∈ PersistedStorageVersionHashes st → h ∈ PersistedStorageVersionHashes (next_status hb hash st).
Proof.
  unfold next_status. case_bool_decide; [|done]. simpl.
  destruct (PersistedStorageVersionHashes st); set_solver.
Qed.

Lemma next_status_sound hb hash st :
  hash ≠ "" → sound_status st → sound_status (next_status hb hash st).
Proof.
  unfold sound_status. intros Hne Hst. rewrite next_status_current. unfold next_status.
  case_bool_decide as Hh; simpl.
  - right. destruct (PersistedStorageVersionHashes st); set_solver.
  - subst hash. naive_solver.
Qed.

Lemma next_status_idempotent hb hb' hash st :
  next_status hb' hash (next_status hb hash st) = next_status hb' hash st.
Proof.
  unfold next_status at 1. rewrite bool_decide_eq_false_2 by (rewrite next_status_current; auto).
  rewrite next_status_current. unfold next_status. case_bool_decide as Hh; simpl; [done|].
  by rewrite Hh.
Qed.

(** ** Names *)

Lemma storageStateName_inj r1 r2 :
  count_char "." (Resource r1) = 0%nat → count_char "." (Resource r2) = 0%nat →
  storageStateName r1 = storageStateName r2 →
  Resource r1 = Resource r2 ∧ Group r1 = Group r2.
Proof.
  intros H1 H2. unfold storageStateName.
  assert (∀ r r' : GroupVersionResource, count_char "." (Resource r) = 0%nat →
    Resource r = Resource r' +:+ "." +:+ Group r' → False) as Hdot.
  { intros r r' Hr E. rewrite E, count_char_app in Hr.
    change ("." +:+ Group r') with (String "." (Group r')) in Hr.
    rewrite count_char_sep in Hr. lia. }
  case_bool_decide as G1; case_bool_decide as G2; intros E.
  - split; [done|congruence].
  - by destruct (Hdot r1 r2).
  - by destruct (Hdot r2 r1).
  - by apply app_sep_inj in E.
Qed.

Section trigger.
Context {C : Type} `{Runtime C} `{StorageVersionMigrationInterface C} `{StorageStateInterface C}
  `{MigrationIndexer C} `{DiscoveryInterface C}.
Implicit Types (w : World C) (r : metav1.APIResource) (resource : GroupVersionResource).

(** ** Requests of the retried attempts *)

Definition name_of r : string := storageStateName (toGroupResource r).

(** One attempt of updateStorageState. *)
Inductive state_block (hb : Time) (hash : string) r : list event → bool → Prop :=
  | state_get_failed e :
      IsNotFound e = false → state_block hb hash r [SSGet (name_of r) (Err e); Handled e] false
  | state_updated ss err :
      state_block hb hash r
        ([SSGet (name_of r) (Ok ss);
          SSUpdateStatus (with_Status (next_status hb hash (ss_Status ss)) ss) err] ++ handled err)
        (bool_decide (err = None))
  | state_not_created e e' :
      IsNotFound e = true →
      state_block hb hash r
        [SSGet (name_of r) (Err e); SSCreate (newStorageState r) (Err e'); Handled e'] false
  | state_created e ss err :
      IsNotFound e = true →
      state_block hb hash r
        ([SSGet (name_of r) (Err e); SSCreate (newStorageState r) (Ok ss);
          SSUpdateStatus (with_Status (next_status hb hash (ss_Status ss)) ss) err] ++ handled err)
        (bool_decide (err = None)).

#[global] Instance error_none_dec (err : option error) : Decision (err = None).
Proof. destruct err; [by right|by left]. Defined.

Lemma state_attempt_soft hb hash r : soft (state_block hb hash r) (state_attempt hb hash r).
Proof.
  intros [] w. unfold state_attempt, get_state, create_state, update_state_status.
  do 2 wp_step.
  destruct (ss_Get _ _) as [[ss|e] s1]; simpl.
  - do 2 wp_step. rewrite add_events_add_events. simpl.
    destruct (ss_UpdateStatus _ s1) as [[ss'|e] s2]; simpl.
    + wp_step. eexists. split; [reflexivity|]. split; [done|].
      exact (state_updated hb hash r ss None).
    + do 3 wp_step. rewrite add_events_add_events. eexists. split; [reflexivity|]. split; [done|].
      exact (state_updated hb hash r ss (Some e)).
  - destruct (IsNotFound e) eqn:HN; simpl.
    + do 2 wp_step. rewrite add_events_add_events. simpl.
      destruct (ss_Create _ s1) as [[ss|e'] s2]; simpl.
      * do 2 wp_step. rewrite add_events_add_events. simpl.
        destruct (ss_UpdateStatus _ s2) as [[ss'|e2] s3]; simpl.
        -- wp_step. eexists. split; [reflexivity|]. split; [done|].
           by apply (state_created hb hash r e ss None).
        -- do 3 wp_step. rewrite add_events_add_events. eexists. split; [reflexivity|].
           split; [done|]. by apply (state_created hb hash r e ss (Some e2)).
      * do 3 wp_step. rewrite add_events_add_events. eexists. split; [reflexivity|].
        split; [done|]. by constructor.
    + do 3 wp_step. rewrite add_events_add_events. eexists. split; [reflexivity|].
      split; [done|]. by constructor.
Qed.

(** One attempt of markStorageStateSucceeded. *)
Definition migrated (ss : StorageState) : StorageState :=
  with_PersistedHashes [CurrentStorageVersionHash (ss_Status ss)] ss.

Inductive mark_block (name : string) : list event → bool → Prop :=
  | mark_get_failed e : mark_block name [SSGet name (Err e); Handled e] (IsNotFound e)
  | mark_updated ss err :
      mark_block name ([SSGet name (Ok ss); SSUpdateStatus (migrated ss) err] ++ handled err)
        (bool_decide (err = None)).

Lemma mark_attempt_soft resource :
  soft (mark_block (storageStateName resource)) (mark_attempt resource).
Proof.
  intros [] w. unfold mark_attempt, get_state, update_state_status. do 2 wp_step.
  destruct (ss_Get _ _) as [[ss|e] s1]; simpl.
  - fold (migrated ss). do 2 wp_step. rewrite add_events_add_events. simpl.
    destruct (ss_UpdateStatus _ s1) as [[ss'|e] s2]; simpl.
    + wp_step. eexists. split; [reflexivity|]. split; [done|].
      exact (mark_updated _ ss None).
    + do 3 wp_step. rewrite add_events_add_events. eexists. split; [reflexivity|]. split; [done|].
      exact (mark_updated _ ss (Some e)).
  - do 3 wp_step. rewrite add_events_add_events. eexists. split; [reflexivity|].
    split; [done|]. simpl. destruct (IsNotFound e) eqn:HN.
    + pose proof (mark_get_failed (storageStateName resource) e) as Hb. by rewrite HN in Hb.
    + pose proof (mark_get_failed (storageStateName resource) e) as Hb. by rewrite HN in Hb.
Qed.

Lemma plain_status_backoff : plain_backoff status_backoff.
Proof. by unfold plain_backoff. Qed.

Lemma updateStorageState_run hb hash r w :
  wp (updateStorageState hb hash r)
     (λ err w', ∃ evs, w' = add_events evs (ext w') w ∧ retries (state_block hb hash r) 6 evs err) w.
Proof.
  unfold updateStorageState. apply wp_bind. eapply wp_conseq;
    [apply (retries_run (state_block hb hash r) _ 5); [apply state_attempt_soft|apply plain_status_backoff|done]|].
  intros [err []] w' HQ. by apply wp_ret.
Qed.

Lemma markStorageStateSucceeded_run resource w :
  wp (markStorageStateSucceeded resource)
     (λ err w', ∃ evs, w' = add_events evs (ext w') w ∧
        retries (mark_block (storageStateName resource)) 6 evs err) w.
Proof.
  unfold markStorageStateSucceeded. apply wp_bind. eapply wp_conseq;
    [apply (retries_run (mark_block (storageStateName resource)) _ 5);
     [apply mark_attempt_soft|apply plain_status_backoff|done]|].
  intros [err []] w' HQ. by apply wp_ret.
Qed.

(** ** What the attempts write *)

Ltac locally_steps :=
  repeat (apply locally_cons; [try done|]); try apply locally_nil.

(** Reads before writes in updateStorageState. *)
Definition state_writes (hb : Time) (hash : string) r (pre : list event) (ev : event) : Prop :=
  match ev with
  | SSUpdateStatus ss1 _ =>
      ∃ pre' ss, (pre = pre' ++ [SSGet (name_of r) (Ok ss)] ∨
                  pre = pre' ++ [SSCreate (newStorageState r) (Ok ss)]) ∧
        ss1 = with_Status (next_status hb hash (ss_Status ss)) ss
  | SSCreate ss _ =>
      ss = newStorageState r ∧
      ∃ pre' e, pre = pre' ++ [SSGet (name_of r) (Err e)] ∧ IsNotFound e = true
  | SSGet name _ => name = name_of r
  | Handled _ | Slept _ => True
  | _ => False
  end.

Lemma state_writes_later hb hash r x pre ev :
  state_writes hb hash r pre ev → state_writes hb hash r (x ++ pre) ev.
Proof.
  destruct ev; simpl; try done.
  - intros (-> & pre' & e & -> & HN). split; [done|]. exists (x ++ pre'), e. by rewrite <- app_assoc.
  - intros (pre' & ss' & Hpre & ->). exists (x ++ pre'), ss'.
    rewrite <- !app_assoc. destruct Hpre as [-> | ->]; auto.
Qed.

Lemma state_block_writes hb hash r evs ok :
  state_block hb hash r evs ok → locally (state_writes hb hash r) evs.
Proof.
  assert (∀ P err, (∀ pre e, P pre (Handled e)) → locally P (handled err)) as Hh.
  { intros P [e|] HP; [|apply locally_nil]. apply locally_cons; [done|apply locally_nil]. }
  destruct 1 as [e HN|ss err|e e' HN|e ss err HN]; simpl.
  - by locally_steps.
  - apply locally_cons; [done|]. apply locally_cons; [|by apply Hh].
    exists [], ss. auto.
  - apply locally_cons; [done|]. apply locally_cons; [|by locally_steps].
    split; [done|]. by exists [], e.
  - apply locally_cons; [done|]. apply locally_cons; [split; [done|]; by exists [], e|].
    apply locally_cons; [|by apply Hh]. exists [SSGet (name_of r) (Err e)], ss. auto.
Qed.

Lemma retries_locally (P : list event → event → Prop) B n evs err :
  (∀ x pre ev, P pre ev → P (x ++ pre) ev) → (∀ d, P [] (Slept d)) →
  (∀ b ok, B b ok → locally P b) → retries B n evs err → locally P evs.
Proof.
  intros Hx Hs HB (blocks & -> & HF)%retries_blocks. apply locally_concat; [done|].
  eapply Forall_impl; [exact HF|]. intros b [[ok Hb]|[d ->]]; [by eapply HB|].
  apply locally_cons; [done|apply locally_nil].
Qed.

Lemma state_retries_writes hb hash r n evs err :
  retries (state_block hb hash r) n evs err → locally (state_writes hb hash r) evs.
Proof.
  apply retries_locally; [apply state_writes_later|done|apply state_block_writes].
Qed.

(** Reads before writes in markStorageStateSucceeded. *)
Definition mark_writes (name : string) (pre : list event) (ev : event) : Prop :=
  match ev with
  | SSUpdateStatus ss1 _ => ∃ pre' ss, pre = pre' ++ [SSGet name (Ok ss)] ∧ ss1 = migrated ss
  | SSGet name' _ => name' = name
  | Handled _ | Slept _ => True
  | _ => False
  end.

Lemma mark_writes_later name x pre ev : mark_writes name pre ev → mark_writes name (x ++ pre) ev.
Proof.
  destruct ev; simpl; try done. intros (pre' & ss' & -> & ->).
  exists (x ++ pre'), ss'. by rewrite <- app_assoc.
Qed.

Lemma mark_retries_writes name n evs err :
  retries (mark_block name) n evs err → locally (mark_writes name) evs.
Proof.
  apply retries_locally; [apply mark_writes_later|done|].
  destruct 1 as [e|ss err']; simpl; [by locally_steps|].
  apply locally_cons; [done|]. apply locally_cons; [by exists [], ss|].
  destruct err'; by locally_steps.
Qed.

(** ** Deleting and launching migrations *)

Definition delete_failed (m : StorageVersionMigration) (e : error) : error :=
  Errorf ("unexpected error deleting migration " +:+ svm_Name m +:+ ", " +:+ Error e).

Inductive deletes : list StorageVersionMigration → list event → option error → Prop :=
  | deletes_nil : deletes [] [] None
  | deletes_cons m ms evs err :
      deletes ms evs err → deletes (m :: ms) (SVMDelete (svm_Name m) None :: evs) err
  | deletes_fail m ms e :
      deletes (m :: ms) [SVMDelete (svm_Name m) (Some e)] (Some (delete_failed m e)).

Lemma delete_all_run ms w :
  wp (delete_all (AnyMigration <$> ms))
     (λ err w', ∃ evs, w' = add_events evs (ext w') w ∧ deletes ms evs err) w.
Proof.
  revert w. induction ms as [|m ms IH]; intros w; simpl.
  - apply wp_ret. exists []. split; [|constructor]. unfold add_events. rewrite app_nil_r. by destruct w.
  - unfold delete_migration. do 2 wp_step. destruct (svm_Delete _ _) as [[e|] s1]; simpl.
    + wp_step. eexists. split; [reflexivity|]. constructor.
    + eapply wp_conseq; [apply IH|]. intros err w' (evs & E & Hd). simpl in E.
      rewrite add_events_add_events in E. eexists. split; [exact E|]. by constructor.
Qed.

(** The migrations of a resource in a cache. *)
Definition migrations_of r (objs : list any) : list StorageVersionMigration :=
  omap (λ obj, match obj with
               | AnyMigration m =>
                   if bool_decide (ToIndex (Spec_Resource (svm_Spec m)) = ToIndex (toGroupResource r))
                   then Some m else None
               | _ => None
               end) objs.

Lemma migrations_of_filter r objs :
  filter (λ obj, selects migrationResourceIndexFunc (ToIndex (toGroupResource r)) obj = true) objs =
  AnyMigration <$> migrations_of r objs.
Proof.
  induction objs as [|obj objs IH]; [done|]. rewrite filter_cons. unfold migrations_of. simpl.
  destruct obj as [m| | |]; simpl; [|exact IH..].
  unfold selects. simpl. case_decide as Hd.
  - apply bool_decide_eq_true, list_elem_of_singleton in Hd.
    rewrite bool_decide_eq_true_2 by done. cbn [fmap list_fmap]. f_equal. exact IH.
  - rewrite bool_decide_eq_false_2; [exact IH|]. contradict Hd.
    apply bool_decide_eq_true, list_elem_of_singleton. done.
Qed.

Definition keeps_resource_index : Prop :=
  index_funcs !! ResourceIndex = Some migrationResourceIndexFunc.

Lemma ByIndex_resource r (s : C) :
  keeps_resource_index →
  ∃ ms, (indexer_ByIndex ResourceIndex (ToIndex (toGroupResource r)) s).1 = Ok (AnyMigration <$> ms) ∧
    ms ≡ₚ migrations_of r (cached s).
Proof.
  intros Hf. destruct (indexer_ByIndex_exact ResourceIndex _ (ToIndex (toGroupResource r)) s Hf)
    as (objs & -> & HP).
  rewrite migrations_of_filter in HP.
  apply Permutation_map_inv in HP as (ms & -> & HP). exists ms. split; [done|by symmetry].
Qed.

Lemma cleanMigrations_run r w :
  keeps_resource_index →
  wp (cleanMigrations r)
     (λ err w', ∃ ms evs, w' = add_events evs (ext w') w ∧ ms ≡ₚ migrations_of r (cached (ext w)) ∧
        deletes ms evs err) w.
Proof.
  intros Hf. unfold cleanMigrations. do 2 wp_step.
  destruct (ByIndex_resource r (ext w) Hf) as (ms & -> & HP).
  eapply wp_conseq; [apply delete_all_run|]. intros err w' (evs & E & Hd).
  rewrite add_events_add_events in E. simpl in E. by exists ms, evs.
Qed.

(** relaunchMigration on the cache [objs]. *)
Definition relaunched r (objs : list any) (evs : list event) (err : option error) : Prop :=
  ∃ ms devs derr, ms ≡ₚ migrations_of r objs ∧ deletes ms devs derr ∧
    match derr with
    | Some e => evs = devs ∧ err = Some e
    | None => evs = devs ++ [SVMCreate (new_migration (toGroupResource r)) err]
    end.

Lemma relaunchMigration_run r w :
  keeps_resource_index →
  wp (relaunchMigration r)
     (λ err w', ∃ evs, w' = add_events evs (ext w') w ∧ relaunched r (cached (ext w)) evs err) w.
Proof.
  intros Hf. unfold relaunchMigration. apply wp_bind.
  eapply wp_conseq; [by apply cleanMigrations_run|]. intros derr w1 (ms & devs & E & HP & Hd).
  destruct derr as [e|].
  - wp_step. exists devs. split; [done|]. by exists ms, devs, (Some e).
  - unfold launchMigration, create_migration. do 3 wp_step.
    rewrite (add_events_after _ _ _ _ _ _ E). eexists. split; [reflexivity|].
    by exists ms, devs, None.
Qed.

(** ** The decision about a discovered resource *)

(** The cache has a migration of the resource that is running or pending. *)
Definition active r (objs : list any) : bool :=
  existsb (λ m, negb (completed m)) (migrations_of r objs).

Lemma existsb_perm {A} (f : A → bool) l1 l2 : l1 ≡ₚ l2 → existsb f l1 = existsb f l2.
Proof. induction 1; simpl; [done|congruence|by rewrite !orb_assoc, (orb_comm (f y))|congruence]. Qed.

Lemma any_active_run ms w :
  any_active (AnyMigration <$> ms) w = Some (existsb (λ m, negb (completed m)) ms, w).
Proof.
  induction ms as [|m ms IH]; [done|]. simpl. unfold completed at 1.
  destruct (_ || _); [exact IH|done].
Qed.

Lemma hasPending_run r w :
  keeps_resource_index →
  hasPendingOrRunningMigration r w = Some (active r (cached (ext w)),
    add_events [] (indexer_ByIndex ResourceIndex (ToIndex (toGroupResource r)) (ext w)).2 w).
Proof.
  intros Hf. unfold hasPendingOrRunningMigration. erewrite bind_step by apply silent_Some.
  destruct (ByIndex_resource r (ext w) Hf) as (ms & -> & HP).
  rewrite any_active_run. unfold active. by rewrite (existsb_perm _ _ _ HP).
Qed.

(** Relaunching the migration and updating the StorageState, with [s] the state
    of the cluster, and of the cache, when the relaunch starts. *)
Definition relaunch_and_update (hb : Time) r (s : C) (evs : list event) : Prop :=
  ∃ revs rerr uevs uerr, evs = revs ++ handled rerr ++ uevs ∧
    relaunched r (cached s) revs rerr ∧
    retries (state_block hb (metav1.StorageVersionHash r) r) 6 uevs uerr.

(** The state after the cache is asked for active migrations, which it is
    unless the StorageState says migrated. *)
Definition after_look r (ss : StorageState) (s : C) : C :=
  if isMigrated ss then s else (indexer_ByIndex ResourceIndex (ToIndex (toGroupResource r)) s).2.

(** What processDiscoveryResource does after it has got [out] for the
    StorageState, leaving the cluster in state [s]. *)
Inductive decided (hb : Time) r (s : C) : res StorageState → list event → Prop :=
  | decided_unreadable e :
      IsNotFound e = false → decided hb r s (Err e) [Handled e]
  | decided_absent e evs :
      IsNotFound e = true → relaunch_and_update hb r s evs → decided hb r s (Err e) evs
  | decided_up_to_date ss evs uerr :
      staleStorageState hb ss = false →
      CurrentStorageVersionHash (ss_Status ss) = metav1.StorageVersionHash r →
      isMigrated ss = true ∨ active r (cached s) = true →
      retries (state_block hb (metav1.StorageVersionHash r) r) 6 evs uerr →
      decided hb r s (Ok ss) evs
  | decided_outdated ss evs :
      staleStorageState hb ss = false →
      CurrentStorageVersionHash (ss_Status ss) ≠ metav1.StorageVersionHash r ∨
      (isMigrated ss = false ∧ active r (cached s) = false) →
      relaunch_and_update hb r (after_look r ss s) evs → decided hb r s (Ok ss) evs
  | decided_stale_kept ss e :
      staleStorageState hb ss = true →
      decided hb r s (Ok ss) [SSDelete (name_of r) (Some e); Handled e]
  | decided_stale_replaced ss evs :
      staleStorageState hb ss = true →
      relaunch_and_update hb r (ss_Delete (name_of r) (after_look r ss s)).2 evs →
      decided hb r s (Ok ss) (SSDelete (name_of r) None :: evs).

Lemma relaunch_and_update_run hb r w :
  keeps_resource_index →
  wp (err ← relaunchMigration r; HandleError err ;;
      _ ← updateStorageState hb (metav1.StorageVersionHash r) r; mret tt)
     (λ _ w', ∃ evs, w' = add_events evs (ext w') w ∧ relaunch_and_update hb r (ext w) evs) w.
Proof.
  intros Hf. apply wp_bind. eapply wp_conseq; [by apply relaunchMigration_run|].
  intros rerr w1 (revs & E1 & Hr). apply wp_bind, wp_HandleError.
  rewrite (add_events_after _ _ _ _ _ _ E1). apply wp_bind.
  eapply wp_conseq; [apply updateStorageState_run|]. intros uerr w2 (uevs & E2 & Hu).
  rewrite add_events_add_events in E2. wp_step. eexists. split; [exact E2|].
  exists revs, rerr, uevs, uerr. by rewrite <- app_assoc.
Qed.

Lemma update_only_run hb r w :
  wp (mret tt ;; _ ← updateStorageState hb (metav1.StorageVersionHash r) r; mret tt)
     (λ _ w', ∃ evs uerr, w' = add_events evs (ext w') w ∧
        retries (state_block hb (metav1.StorageVersionHash r) r) 6 evs uerr) w.
Proof.
  apply wp_bind, wp_ret, wp_bind. eapply wp_conseq; [apply updateStorageState_run|].
  intros uerr w2 (uevs & E2 & Hu). wp_step. eauto.
Qed.

Lemma processDiscoveryResource_run hb r w :
  keeps_resource_index → metav1.StorageVersionHash r ≠ "" →
  wp (processDiscoveryResource hb r)
     (λ _ w', ∃ evs, w' = add_events (SSGet (name_of r) (ss_Get (name_of r) (ext w)).1 :: evs) (ext w') w ∧
        decided hb r (ss_Get (name_of r) (ext w)).2 (ss_Get (name_of r) (ext w)).1 evs) w.
Proof.
  intros Hf Hh. unfold processDiscoveryResource. rewrite bool_decide_eq_false_2 by done.
  unfold get_state. fold (name_of r). do 2 wp_step.
  destruct (ss_Get (name_of r) (ext w)) as [[ss|e] s1]; simpl.
  2: { destruct (IsNotFound e) eqn:HN; simpl.
    - eapply wp_conseq; [by apply relaunch_and_update_run|]. intros [] w2 (evs & E & Hu).
      rewrite add_events_add_events in E. exists evs. split; [exact E|by constructor].
    - wp_step. rewrite add_events_add_events. eexists. split; [reflexivity|by constructor]. }
  set (w1 := add_events _ s1 w).
  set (needs := negb (isMigrated ss) && negb (active r (cached s1))).
  assert ((if isMigrated ss then mret false
    else pending ← hasPendingOrRunningMigration r; mret (negb pending)) w1 =
    Some (needs, add_events [] (after_look r ss s1) w1)) as Hneeds.
  { subst needs. unfold after_look. destruct (isMigrated ss); simpl.
    - unfold w1, add_events. simpl. by rewrite app_nil_r.
    - erewrite bind_step by by apply hasPending_run. done. }
  apply wp_bind. do 2 eexists. split; [exact Hneeds|]. subst w1. rewrite add_events_add_events. simpl.
  destruct (staleStorageState hb ss) eqn:Hst; simpl.
  - unfold delete_state. fold (name_of r). apply wp_bind, wp_call. rewrite add_events_add_events.
    cbn [ext add_events].
    destruct (ss_Delete (name_of r) (after_look r ss s1)) as [[e|] s3] eqn:Hd; simpl.
    + wp_step. rewrite add_events_add_events. eexists. split; [reflexivity|by constructor].
    + apply wp_bind_assoc. eapply wp_conseq; [by apply relaunch_and_update_run|].
      intros [] w2 (evs & E & Hu). rewrite add_events_add_events in E.
      eexists. split; [exact E|]. constructor; [done|]. by rewrite Hd.
  - apply wp_bind, wp_ret. simpl. case_bool_decide as Hcur; simpl.
    + apply wp_bind_assoc. eapply wp_conseq; [by apply relaunch_and_update_run|].
      intros [] w2 (evs & E & Hu). rewrite add_events_add_events in E.
      eexists. split; [exact E|]. apply decided_outdated; auto.
    + subst needs. destruct (negb (isMigrated ss) && negb (active r (cached s1))) eqn:Hn.
      * apply wp_bind_assoc. eapply wp_conseq; [by apply relaunch_and_update_run|].
        intros [] w2 (evs & E & Hu). rewrite add_events_add_events in E.
        eexists. split; [exact E|]. apply andb_true_iff in Hn as [?%negb_true_iff ?%negb_true_iff].
        apply decided_outdated; auto.
      * eapply wp_conseq; [apply update_only_run|]. intros [] w2 (evs & uerr & E & Hu).
        rewrite add_events_add_events in E. eexists. split; [exact E|].
        eapply decided_up_to_date; [done|done| |done].
        apply andb_false_iff in Hn as [?%negb_false_iff|?%negb_false_iff]; auto.
Qed.
End trigger.

Section trigger_facts.
Context {C : Type} `{Runtime C} `{StorageVersionMigrationInterface C} `{StorageStateInterface C}
  `{MigrationIndexer C} `{DiscoveryInterface C}.
Implicit Types (w : World C) (r : metav1.APIResource).





















End trigger_facts.

Section trigger_claims.
Context {C : Type} `{Runtime C} `{StorageVersionMigrationInterface C} `{StorageStateInterface C}
  `{MigrationIndexer C} `{DiscoveryInterface C}.
Implicit Types (w : World C) (r : metav1.APIResource).

(** C11. updateStorageState always returns, and each status it writes is
    derived from the StorageState it has just read or created: the heartbeat
    and the current hash are the given ones, no persisted hash is lost, and a
    sound status stays sound (the current hash is among the persisted ones, or
    they include Unknown).  nil means that the last request was an accepted
    write. *)
Theorem updateStorageState_spec hb hash r w :
  wp (updateStorageState hb hash r)
    (λ err w', ∃ evs, trace w' = trace w ++ evs ∧ metrics w' = metrics w ∧
      (err = None → ∃ pre ss1, evs = pre ++ [SSUpdateStatus ss1 None]) ∧
      ∀ pre ss1 err1 post, evs = pre ++ SSUpdateStatus ss1 err1 :: post →
        ∃ pre' ss, (pre = pre' ++ [SSGet (name_of r) (Ok ss)] ∨
                    pre = pre' ++ [SSCreate (newStorageState r) (Ok ss)]) ∧
          ss_Meta ss1 = ss_Meta ss ∧ ss_Spec ss1 = ss_Spec ss ∧
          CurrentStorageVersionHash (ss_Status ss1) = hash ∧
          LastHeartbeatTime (ss_Status ss1) = hb ∧
          (∀ h, h ∈ PersistedStorageVersionHashes (ss_Status ss) →
                h ∈ PersistedStorageVersionHashes (ss_Status ss1)) ∧
          (hash ≠ "" → sound_status (ss_Status ss) → sound_status (ss_Status ss1))) w.
Proof.
  eapply wp_conseq; [apply updateStorageState_run|]. intros err w' (evs & -> & Hr). exists evs.
  split_and!; [done|done| |].
  - intros ->. apply retries_success in Hr as (pre & last & -> & Hb). inversion Hb as [|ss err Hevs Hok| |e ss err HN Hevs Hok].
    + apply bool_decide_eq_true in Hok as ->. simpl.
      exists (pre ++ [SSGet (name_of r) (Ok ss)]). eexists. by rewrite <- app_assoc.
    + apply bool_decide_eq_true in Hok as ->. simpl.
      exists (pre ++ [SSGet (name_of r) (Err e); SSCreate (newStorageState r) (Ok ss)]).
      eexists. by rewrite <- app_assoc.
  - intros pre ss1 err1 post E. apply state_retries_writes in Hr.
    destruct (Hr _ _ _ E) as (pre' & ss & Hpre & ->). exists pre', ss.
    cbn [with_Status ss_Meta ss_Spec ss_Status].
    split_and!; [done|done|done|apply next_status_current|done| |].
    + apply next_status_keeps.
    + intros Hne. by apply next_status_sound.
Qed.

(** markStorageStateSucceeded always returns, and each status it writes is
    the StorageState it has just read under the resource's name with the
    persisted hashes reduced to its current hash, so that the result is
    sound and, as isMigrated sees it, migrated; the current hash and the
    heartbeat are untouched. *)
Theorem markStorageStateSucceeded_spec resource w :
  wp (markStorageStateSucceeded resource)
    (λ err w', ∃ evs, trace w' = trace w ++ evs ∧ metrics w' = metrics w ∧
      ∀ pre ss1 err1 post, evs = pre ++ SSUpdateStatus ss1 err1 :: post →
        ∃ pre' ss, pre = pre' ++ [SSGet (storageStateName resource) (Ok ss)] ∧
          ss_Meta ss1 = ss_Meta ss ∧ isMigrated ss1 = true ∧ sound_status (ss_Status ss1) ∧
          CurrentStorageVersionHash (ss_Status ss1) = CurrentStorageVersionHash (ss_Status ss) ∧
          LastHeartbeatTime (ss_Status ss1) = LastHeartbeatTime (ss_Status ss)) w.
Proof.
  eapply wp_conseq; [apply markStorageStateSucceeded_run|]. intros err w' (evs & -> & Hr).
  exists evs. split_and!; [done|done|]. intros pre ss1 err1 post E.
  apply mark_retries_writes in Hr. destruct (Hr _ _ _ E) as (pre' & ss & -> & ->).
  exists pre', ss. split_and!; try done.
  - unfold isMigrated. simpl. by apply bool_decide_eq_true.
  - right. left. simpl. set_solver.
Qed.

(** C18. processQueue always returns, and it writes nothing unless the API
    server returns the item's migration with a Succeeded condition; then all
    it writes is the status of the StorageState of that migration's resource,
    marked migrated from a fresh read.  A migration that is gone is no error. *)
Theorem processQueue_marks_only_succeeded obj w :
  wp (processQueue obj)
    (λ err w', ∃ evs, trace w' = trace w ++ evs ∧
      (∀ item e, obj = WorkItem item → (svm_Get (qi_name item) (ext w)).1 = Err e →
        evs = [SVMGet (qi_name item) (Err e)] ∧ (IsNotFound e = true → err = None)) ∧
      ∀ pre ev post, evs = pre ++ ev :: post → is_write ev = true →
        ∃ item m pre' ss err1, obj = WorkItem item ∧
          (svm_Get (qi_name item) (ext w)).1 = Ok m ∧ HasCondition m MigrationSucceeded = true ∧
          pre = pre' ++ [SSGet (storageStateName (Spec_Resource (svm_Spec m))) (Ok ss)] ∧
          ev = SSUpdateStatus (migrated ss) err1) w.
Proof.
  destruct obj as [item|type]; unfold processQueue.
  2: { apply wp_ret. exists []. rewrite app_nil_r. split_and!; [done|done|]. by intros []. }
  unfold get_migration. do 2 wp_step.
  destruct (svm_Get (qi_name item) (ext w)) as [[m|e] s1] eqn:Hget; simpl.
  - unfold processMigration. destruct (HasCondition m MigrationSucceeded) eqn:Hs.
    + eapply wp_conseq; [apply markStorageStateSucceeded_run|]. intros err w' (evs & -> & Hr).
      exists (SVMGet (qi_name item) (Ok m) :: evs). simpl. rewrite <- app_assoc. split_and!; [done| |].
      * intros item' e [= <-]. by rewrite Hget.
      * intros [|ev0 pre] ev post E Hw; injection E as <- E; [done|].
        apply mark_retries_writes in Hr. pose proof (Hr _ _ _ E) as Hev.
        destruct ev; simpl in Hev; try done. destruct Hev as (pre' & ss0 & -> & ->).
        exists item, m, (SVMGet (qi_name item) (Ok m) :: pre'), ss0. eexists. by rewrite Hget.
    + assert (∀ w1, wp (if HasCondition m MigrationFailed then mret None else mret None)
        (λ (err : option error) w', err = None ∧ w' = w1) w1) as Hnone.
      { intros w1. by destruct (HasCondition m MigrationFailed); apply wp_ret. }
      eapply wp_conseq; [apply Hnone|]. intros err w' [-> ->].
      exists [SVMGet (qi_name item) (Ok m)]. split_and!; [done| |].
      * intros item' e [= <-]. by rewrite Hget.
      * by intros [|? []] ev post [= <-].
  - assert (∀ w1, wp (if IsNotFound e then mret None else mret (Some e))
      (λ err w', (IsNotFound e = true → err = None) ∧ w' = w1) w1) as Hend.
    { intros w1. by destruct (IsNotFound e); apply wp_ret. }
    eapply wp_conseq; [apply Hend|]. intros err w' [Herr ->].
    exists [SVMGet (qi_name item) (Err e)]. split_and!; [done| |].
    + intros item' e' [= <-]. rewrite Hget. by intros [= <-].
    + by intros [|? []] ev post [= <-].
Qed.

(** C10. What the trigger does about a discovered resource with a storage
    version hash is decided by the StorageState it reads, the heartbeat and
    the cache, as [decided] lists: nothing but a report when the StorageState
    cannot be read; only an update of the StorageState when it is fresh, has
    the discovered hash and is either migrated or has a migration running or
    pending; otherwise (no StorageState, another hash, or not migrated and no
    migration active, or stale, in which case the StorageState is first
    deleted) the migrations of the resource that are in the cache at that
    moment are deleted one by one, a new one is created if all deletions
    succeeded, and the StorageState is updated in any case. *)
Theorem processDiscoveryResource_decision hb r w :
  keeps_resource_index → metav1.StorageVersionHash r ≠ "" →
  let '(out, s) := ss_Get (name_of r) (ext w) in
  wp (processDiscoveryResource hb r)
    (λ _ w', metrics w' = metrics w ∧
      ∃ evs, trace w' = trace w ++ SSGet (name_of r) out :: evs ∧ decided hb r s out evs) w.
Proof.
  intros Hf Hh. pose proof (processDiscoveryResource_run hb r w Hf Hh) as Hrun.
  destruct (ss_Get (name_of r) (ext w)) as [out s]. eapply wp_conseq; [exact Hrun|].
  intros [] w' (evs & -> & Hd). split; [done|]. by exists evs.
Qed.

(** cleanMigrations deletes exactly the migrations the cache has for the
    resource, each once, whatever their version or status, and stops at the
    first deletion that fails, which is then its error; two resources whose
    names have no dot are cleaned together only if they have the same name and
    group. *)
Theorem cleanMigrations_exact r w :
  keeps_resource_index →
  wp (cleanMigrations r)
    (λ err w', ∃ ms evs, trace w' = trace w ++ evs ∧ deletes ms evs err ∧
      (∀ m, m ∈ ms ↔ AnyMigration m ∈ cached (ext w) ∧
        ToIndex (Spec_Resource (svm_Spec m)) = ToIndex (toGroupResource r)) ∧
      length ms = length (migrations_of r (cached (ext w))) ∧
      (∀ m, m ∈ ms → count_char "." (Resource (Spec_Resource (svm_Spec m))) = 0%nat →
        count_char "." (metav1.res_Name r) = 0%nat →
        Resource (Spec_Resource (svm_Spec m)) = metav1.res_Name r ∧
        Group (Spec_Resource (svm_Spec m)) = metav1.res_Group r)) w.
Proof.
  intros Hf. eapply wp_conseq; [by apply cleanMigrations_run|].
  intros err w' (ms & evs & -> & HP & Hd). exists ms, evs.
  assert (∀ m, m ∈ ms ↔ AnyMigration m ∈ cached (ext w) ∧
    ToIndex (Spec_Resource (svm_Spec m)) = ToIndex (toGroupResource r)) as Hin.
  { intros m. rewrite HP. unfold migrations_of. rewrite list_elem_of_omap. split.
    - intros ([m'| | |] & Hin & E); try done. case_bool_decide; [|done]. by injection E as <-.
    - intros [Hin Hr]. exists (AnyMigration m). split; [done|]. by rewrite bool_decide_eq_true_2. }
  split_and!; [done|done|exact Hin|by rewrite HP|].
  intros m [_ Hm]%Hin H1' H2'. by apply ToIndex_inj in Hm.
Qed.


(** No two resources share a StorageState: for resource names without
    dots, the name of the StorageState determines the resource and its group. *)
Theorem storageStateName_separates (g1 g2 : GroupVersionResource) :
  count_char "." (Resource g1) = 0%nat → count_char "." (Resource g2) = 0%nat →
  storageStateName g1 = storageStateName g2 →
  Resource g1 = Resource g2 ∧ Group g1 = Group g2.
Proof. apply storageStateName_inj. Qed.
End trigger_claims.

(** ** Witnesses *)

Definition pods_resource (hash : string) : metav1.APIResource :=
  {| metav1.res_Name := "pods"; metav1.res_Group := ""; metav1.res_Version := "v1";
     metav1.res_Verbs := ["list"; "update"]; metav1.StorageVersionHash := hash |}.

Definition pods_state (current : string) (persisted : list string) (heartbeat : Time) : StorageState :=
  {| ss_Meta := {| metav1.Name := "pods"; metav1.GenerateName := ""; metav1.Namespace := "";
                   metav1.ResourceVersion := "r"; metav1.UID := ""; metav1.Labels := ∅ |};
     ss_Spec := {| ss_Resource := {| gr_Group := ""; gr_Resource := "pods" |} |};
     ss_Status := {| PersistedStorageVersionHashes := persisted; CurrentStorageVersionHash := current;
                     LastHeartbeatTime := heartbeat |} |}.

(** pods is migrated to the hash "old"; an old migration is still there. *)
Definition old_cluster : cluster :=
  set_states (λ _, {["pods" := pods_state "old" ["old"] 0]})
    (with_svms [pod_migration "pods-0" "" []] empty_cluster).

Definition old_world : World cluster := start old_cluster.

#[export] Instance sim_discovery : DiscoveryInterface cluster := {|
  disc_ServerPreferredResources := λ c,
    (([{| metav1.GroupVersion := "v1"; metav1.APIResources := [pods_resource "new"] |}], None), c);
|}.

Lemma processDiscoveryResource_decision_witness :
  let '(out, s) := ss_Get "pods" (ext old_world) in
  wp (processDiscoveryResource Minute (pods_resource "new"))
    (λ _ w', metrics w' = metrics old_world ∧
      ∃ evs, trace w' = trace old_world ++ SSGet "pods" out :: evs ∧
        decided Minute (pods_resource "new") s out evs) old_world.
Proof.
  apply (processDiscoveryResource_decision Minute (pods_resource "new") old_world).
  - reflexivity.
  - discriminate.
Defined.

Lemma cleanMigrations_exact_witness :
  wp (cleanMigrations (pods_resource "new"))
    (λ err w', ∃ ms evs, trace w' = trace old_world ++ evs ∧ deletes ms evs err ∧
      (∀ m, m ∈ ms ↔ AnyMigration m ∈ cached (ext old_world) ∧
        ToIndex (Spec_Resource (svm_Spec m)) = "pods.") ∧
      length ms = length (migrations_of (pods_resource "new") (cached (ext old_world))) ∧
      (∀ m, m ∈ ms → count_char "." (Resource (Spec_Resource (svm_Spec m))) = 0%nat →
        count_char "." "pods" = 0%nat →
        Resource (Spec_Resource (svm_Spec m)) = "pods" ∧
        Group (Spec_Resource (svm_Spec m)) = "")) old_world.
Proof. apply (cleanMigrations_exact (pods_resource "new") old_world). reflexivity. Defined.


Lemma storageStateName_separates_witness :
  Resource {| Group := "apps"; Version := "v1"; Resource := "daemonsets" |} = "daemonsets" ∧
  Group {| Group := "apps"; Version := "v1"; Resource := "daemonsets" |} = "apps".
Proof.
  apply (storageStateName_separates
    {| Group := "apps"; Version := "v1"; Resource := "daemonsets" |}
    {| Group := "apps"; Version := "v1beta2"; Resource := "daemonsets" |}); reflexivity.
Defined.

(** ** A failed deletion lets an old migration vouch for a new hash

    The hash of pods changes from "old" to "new" while the migration pods-0 is
    active, and its deletion is refused: the failure is only reported, the
    StorageState gets the new hash all the same, and no migration is created.
    When pods-0, started for the old hash, succeeds, the StorageState is
    marked as migrated to the new one. *)
Definition refused_delete : World cluster :=
  start (set_scripts [] [] [Some forbidden] old_cluster).

Definition succeeded (m : StorageVersionMigration) : StorageVersionMigration :=
  with_Conditions [{| Type_ := MigrationSucceeded; CondStatus := ConditionTrue; LastUpdateTime := 0;
                      Reason := ""; Message := "" |}] m.

Definition pods_status (w : World cluster) : option (string * list string) :=
  (λ ss, (CurrentStorageVersionHash (ss_Status ss), PersistedStorageVersionHashes (ss_Status ss)))
    <$> c_states (ext w) !! "pods".

Lemma failed_clean_vouches :
  ∃ w1 w2,
    processDiscoveryResource Minute (pods_resource "new") refused_delete = Some (tt, w1) ∧
    (∀ m err, SVMCreate m err ∉ trace w1) ∧ pods_status w1 = Some ("new", ["old"; "new"]) ∧
    processQueue (WorkItem {| qi_namespace := ""; qi_name := "pods-0";
        qi_resource := {| Group := ""; Version := "v1"; Resource := "pods" |} |})
      {| ext := set_svms (alter succeeded "pods-0") (ext w1); trace := trace w1; metrics := metrics w1 |}
      = Some (None, w2) ∧
    pods_status w2 = Some ("new", ["new"]).
Proof.
  do 2 eexists. split; [vm_compute; reflexivity|]. split; [|split; [vm_compute; reflexivity|
    split; [vm_compute; reflexivity|vm_compute; reflexivity]]].
  intros m err. simpl. rewrite !not_elem_of_cons. repeat split; try discriminate. apply not_elem_of_nil.
Qed.
