(* ===== verification/Initializer.v ===== *)
(** * The initializer: src/pkg/initializer

    discover.go ([FindMigratableResources]) and initializer.go: the job that
    installs the CRD of migrations and creates one migration for every
    built-in resource that is served in more than one version. *)
From S2P Require Export Wait StoreProps.

Local Open Scope Z_scope.
Import v1alpha1 metav1.

(** ** Objects of other APIs *)

(** JSONSchemaProps, the fields the CRD sets. *)
Inductive JSONSchemaProps := {
  Description : string;
  SchemaType : string;
  Format : string;
  Required : list string;
  Properties : list (string * JSONSchemaProps);
  Items : option JSONSchemaProps;
}.

Record CustomResourceDefinitionVersion := {
  ver_Name : string;
  Served : bool;
  Storage : bool;
  StatusSubresource : bool;
  OpenAPIV3Schema : option JSONSchemaProps;
}.

Record CustomResourceDefinition := {
  crd_Name : string;
  crd_Annotations : list (string * string);
  crd_Group : string;
  crd_Plural : string;
  crd_Singular : string;
  crd_Kind : string;
  crd_ListKind : string;
  ClusterScoped : bool;
  Versions : list CustomResourceDefinitionVersion;
}.

Record APIService := { as_Group : string; as_Service : option string }.

Class CustomResourceDefinitionInterface (S : Type) := {
  crd_Get : string → S → res CustomResourceDefinition * S;
  crd_Create : CustomResourceDefinition → S → res CustomResourceDefinition * S;
  crd_Delete : string → S → option error * S;
  crd_List : S → res (list CustomResourceDefinition) * S;
}.

Class APIServiceInterface (S : Type) := {
  as_List : S → res (list APIService) * S;
}.

(** discovery.ServerResourcesInterface; the groups are not used. *)
Class ServerResourcesInterface (S : Type) := {
  disc_ServerGroupsAndResources : S → (list APIResourceList * option error) * S;
}.

(** ** migrationCRD *)

Definition pluralCRDName : string := "storageversionmigrations".
Definition singularCRDName : string := "storageversionmigration".
Definition kind : string := "StorageVersionMigration".
Definition listKind : string := "StorageVersionMigrationList".

(** A property with a description and a type only. *)
Definition prop (description type : string) : JSONSchemaProps :=
  {| Description := description; SchemaType := type; Format := ""; Required := [];
     Properties := []; Items := None |}.

Definition condition_schema : JSONSchemaProps := {|
  Description := "Describes the state of a migration at a certain point.";
  SchemaType := "object"; Format := ""; Required := ["status"; "type"];
  Properties := [
    ("lastUpdateTime",
      {| Description := "The last time this condition was updated."; SchemaType := "string";
         Format := "date-time"; Required := []; Properties := []; Items := None |});
    ("message", prop "A human readable message indicating details about the transition." "string");
    ("reason", prop "The reason for the condition's last transition." "string");
    ("status", prop "Status of the condition, one of True, False, Unknown." "string");
    ("type", prop "Type of the condition." "string")];
  Items := None |}.

Definition resource_schema : JSONSchemaProps := {|
  Description := "The resource that is being migrated. The migrator sends requests to the endpoint serving the resource. Immutable.";
  SchemaType := "object"; Format := ""; Required := [];
  Properties := [
    ("group", prop "The name of the group." "string");
    ("resource", prop "The name of the resource." "string");
    ("version", prop "The name of the version." "string")];
  Items := None |}.

Definition spec_schema : JSONSchemaProps := {|
  Description := "Specification of the migration.";
  SchemaType := "object"; Format := ""; Required := ["resource"];
  Properties := [
    ("continueToken", prop ("The token used in the list options to get the next chunk of objects to migrate. When the .status.conditions indicates the migration is " +:+ quote +:+ "Running" +:+ quote +:+ ", users can use this token to check the progress of the migration.") "string");
    ("resource", resource_schema)];
  Items := None |}.

Definition status_schema : JSONSchemaProps := {|
  Description := "Status of the migration.";
  SchemaType := "object"; Format := ""; Required := [];
  Properties := [
    ("conditions",
      {| Description := "The latest available observations of the migration's current state.";
         SchemaType := "array"; Format := ""; Required := []; Properties := [];
         Items := Some condition_schema |})];
  Items := None |}.

Definition migration_schema : JSONSchemaProps := {|
  Description := "StorageVersionMigration represents a migration of stored data to the latest storage version.";
  SchemaType := "object"; Format := ""; Required := [];
  Properties := [
    ("apiVersion", prop "APIVersion defines the versioned schema of this representation of an object. Servers should convert recognized schemas to the latest internal value, and may reject unrecognized values. More info: https://git.k8s.io/community/contributors/devel/sig-architecture/api-conventions.md#resources" "string");
    ("kind", prop "Kind is a string value representing the REST resource this object represents. Servers may infer this from the endpoint the client submits requests to. Cannot be updated. In CamelCase. More info: https://git.k8s.io/community/contributors/devel/sig-architecture/api-conventions.md#types-kinds" "string");
    ("metadata", prop "" "object");
    ("spec", spec_schema);
    ("status", status_schema)];
  Items := None |}.

Definition migrationCRD : CustomResourceDefinition := {|
  crd_Name := "storageversionmigrations.migration.k8s.io";
  crd_Annotations := [("api-approved.kubernetes.io", "https://github.com/kubernetes/community/pull/2524")];
  crd_Group := "migration.k8s.io";
  crd_Plural := pluralCRDName; crd_Singular := singularCRDName;
  crd_Kind := kind; crd_ListKind := listKind;
  ClusterScoped := true;
  Versions := [{| ver_Name := "v1alpha1"; Served := true; Storage := true;
                  StatusSubresource := true; OpenAPIV3Schema := Some migration_schema |}] |}.

(** ** discover.go *)

Definition blackListResources : gset string := {["events"]}.

Definition with_slash (name : string) : bool := contains name "/".

(** The filters on a resource of a list. *)
Definition migratable (r : APIResource) : bool :=
  negb (with_slash (res_Name r)) &&
  negb (bool_decide (res_Name r ∈ blackListResources)) &&
  (bool_decide ("list" ∈ res_Verbs r) && bool_decide ("update" ∈ res_Verbs r)).

Abbreviation ResourceMap := (gmap string (list schema.GroupVersion)).

(** resourceToGroupVersions[r.Name] = append(gvs, gv) *)
Definition append_gv (gv : schema.GroupVersion) (name : string) (m : ResourceMap) : ResourceMap :=
  <[name := default [] (m !! name) ++ [gv]]> m.

Fixpoint add_resources (gv : schema.GroupVersion) (rs : list APIResource) (m : ResourceMap) : ResourceMap :=
  match rs with
  | [] => m
  | r :: rs =>
      add_resources gv rs (if migratable r then append_gv gv (res_Name r) m else m)
  end.

Fixpoint add_lists (customGroups aggregatedGroups : gset string) (ls : list APIResourceList)
    (m : ResourceMap) : ResourceMap :=
  match ls with
  | [] => m
  | l :: ls =>
      add_lists customGroups aggregatedGroups ls
        match schema.ParseGroupVersion (GroupVersion l) with
        | Err _ => m
        | Ok gv =>
            if bool_decide (schema.gv_Group gv ∈ customGroups) then m
            else if bool_decide (schema.gv_Group gv ∈ aggregatedGroups) then m
            else add_resources gv (APIResources l) m
        end
  end.

(** One iteration of the last loop: groupVersions[0] unless it is the only
    one.  The map never holds an empty slice. *)
Definition pick (resource : string) (groupVersions : list schema.GroupVersion) :
    option schema.GroupVersionResource :=
  match groupVersions with
  | gv :: _ :: _ => Some (schema.WithResource gv resource)
  | _ => None
  end.

Section initializer.
Context {C : Type} `{MapOrder} `{StorageVersionMigrationInterface C}
  `{CustomResourceDefinitionInterface C} `{APIServiceInterface C} `{ServerResourcesInterface C}.
Abbreviation Eff := (M (World C)).

Definition ret_of (m : ResourceMap) : list schema.GroupVersionResource :=
  omap (λ resource, pick resource (default [] (m !! resource))) (range (dom m)).

Definition findCustomGroups : Eff (res (gset string)) :=
  l ← call crd_List (λ r, CRDList (res_map (map crd_Group) r));
  mret match l with
       | Err e => Err e
       | Ok items => Ok (list_to_set (crd_Group <$> items))
       end.

Definition findAggregatedGroups : Eff (res (gset string)) :=
  l ← call as_List (λ r, APIServiceList (res_map (map (λ s, (as_Group s, as_Service s))) r));
  mret match l with
       | Err e => Err e
       | Ok items =>
           Ok (list_to_set (as_Group <$>
             filter (λ s, bool_decide (is_Some (as_Service s)) = true) items))
       end.

Definition FindMigratableResources : Eff (res (list schema.GroupVersionResource)) :=
  customGroups ← findCustomGroups;
  match customGroups with
  | Err e => mret (Err e)
  | Ok customGroups =>
      aggregatedGroups ← findAggregatedGroups;
      match aggregatedGroups with
      | Err e => mret (Err e)
      | Ok aggregatedGroups =>
          '(resourceLists, err) ← call disc_ServerGroupsAndResources (λ r, GroupsAndResources r.1 r.2);
          match err with
          | Some e => mret (Err e)
          | None => mret (Ok (ret_of (add_lists customGroups aggregatedGroups resourceLists ∅)))
          end
      end
  end.

(** ** initializer.go *)

Definition migrationForResource (resource : schema.GroupVersionResource) : StorageVersionMigration :=
  let name :=
    if bool_decide (schema.gvr_Group resource ≠ "")
    then schema.gvr_Group resource +:+ "." +:+ schema.gvr_Version resource +:+ "." +:+
         schema.gvr_Resource resource +:+ "-"
    else schema.gvr_Version resource +:+ "." +:+ schema.gvr_Resource resource +:+ "-" in
  {| svm_Meta := {| Name := ""; GenerateName := name; Namespace := ""; ResourceVersion := ""; UID := "";
                  Labels := ∅ |};
     svm_Spec := {| Spec_Resource := {| Group := schema.gvr_Group resource;
                                        Version := schema.gvr_Version resource;
                                        Resource := schema.gvr_Resource resource |};
                    ContinueToken := "" |};
     svm_Status := {| Conditions := [] |} |}.

Definition get_crd (name : string) : Eff (res CustomResourceDefinition) :=
  call (crd_Get name) (λ r, CRDGet name (res_error r)).

Definition create_crd : Eff (option error) :=
  r ← call (crd_Create migrationCRD) (λ r, CRDCreate (crd_Name migrationCRD) (res_error r));
  mret (res_error r).

(** waitForWithContext: one check of the condition for each of the [ticks]
    that were received, and a last one when the channel was closed. *)
Fixpoint poll_ticks (ticks : nat) (interval : Duration) (condition : Eff (bool * option error)) :
    Eff (option error) :=
  match ticks with
  | O =>
      '(ok, err) ← condition;
      match err with
      | Some e => mret (Some e)
      | None => mret (if (ok : bool) then None else Some ErrWaitTimeout)
      end
  | S ticks =>
      Sleep interval ;;
      '(ok, err) ← condition;
      match err with
      | Some e => mret (Some e)
      | None => if (ok : bool) then mret None else poll_ticks ticks interval condition
      end
  end.

(** wait.PollImmediate.  How many ticks the consumer receives before the
    timeout depends on scheduling; at most timeout/interval of them. *)
Definition PollImmediate (ticks : nat) (interval : Duration) (condition : Eff (bool * option error)) :
    Eff (option error) :=
  '(ok, err) ← condition;
  match err with
  | Some e => mret (Some e)
  | None => if (ok : bool) then mret None else poll_ticks ticks interval condition
  end.

Definition crd_deleted (crdName : string) : Eff (bool * option error) :=
  r ← get_crd crdName;
  mret match r with
       | Ok _ => (false, None)
       | Err e => if IsNotFound e then (true, None) else (false, Some e)
       end.

Definition initializeCRD (ticks : nat) : Eff (option error) :=
  let crdName := pluralCRDName +:+ "." +:+ GroupName in
  r ← get_crd crdName;
  match r with
  | Err e => if negb (IsNotFound e) then mret (Some e) else create_crd
  | Ok _ =>
      err ← call (crd_Delete crdName) (CRDDelete crdName);
      match err with
      | Some e => mret (Some e)
      | None =>
          err ← PollImmediate ticks (500 * Millisecond) (crd_deleted crdName);
          match err with
          | Some e => mret (Some e)
          | None => create_crd
          end
      end
  end.

Fixpoint create_all (resources : list schema.GroupVersionResource) : Eff (option error) :=
  match resources with
  | [] => mret None
  | r :: resources =>
      out ← call (svm_Create (migrationForResource r))
              (λ out, SVMCreate (migrationForResource r) (res_error out));
      match out with
      | Err e => mret (Some e)
      | Ok _ => create_all resources
      end
  end.

Definition Initialize (ticks : nat) : Eff (option error) :=
  err ← initializeCRD ticks;
  match err with
  | Some e => mret (Some e)
  | None =>
      resources ← FindMigratableResources;
      match resources with
      | Err e => mret (Some e)
      | Ok resources => create_all resources
      end
  end.
End initializer.
