(* ===== verification/InitializerProps.v ===== *)
(** * Theorems about the initializer

    Which resources get a migration, and in what order the initializer installs
    the CRD and creates the migrations. *)
From S2P Require Export Initializer Indexer.

Local Open Scope Z_scope.
Import v1alpha1 metav1.

(** ** The resources to migrate *)

(** What the requests answer: the groups of the custom resources, the groups
    of the APIServices with the Service behind each, and the discovery
    documents. *)
Section to_migrate.
Context (groups : list string) (services : list (string * option string)).

(** Neither a group of custom resources nor one an aggregated API serves. *)
Definition built_in (group : string) : Prop :=
  group ∉ groups ∧ Forall (λ s, s.2 = None ∨ s.1 ≠ group) services.

#[global] Instance built_in_dec group : Decision (built_in group).
Proof. unfold built_in. apply _. Defined.

(** The group/versions of the built-in groups that serve the resource so that
    it can be listed and updated, in order. *)
Definition served_in (name : string) (l : APIResourceList) : list schema.GroupVersion :=
  match schema.ParseGroupVersion (GroupVersion l) with
  | Err _ => []
  | Ok gv =>
      if decide (built_in (schema.gv_Group gv))
      then (λ _, gv) <$> filter (λ r, res_Name r = name ∧ "list" ∈ res_Verbs r ∧ "update" ∈ res_Verbs r) (APIResources l)
      else []
  end.

Definition served (ls : list APIResourceList) (name : string) : list schema.GroupVersion :=
  ls ≫= served_in name.

(** Neither events nor a subresource. *)
Definition eligible (name : string) : Prop :=
  name ≠ "events" ∧ ∀ pre post, name ≠ pre +:+ "/" +:+ post.

(** The resources to migrate: those that two of these group/versions serve, by
    the first one. *)
Definition to_migrate (ls : list APIResourceList) (gvr : schema.GroupVersionResource) : Prop :=
  eligible (schema.gvr_Resource gvr) ∧
  ∃ gv gv' rest, served ls (schema.gvr_Resource gvr) = gv :: gv' :: rest ∧
    gvr = schema.WithResource gv (schema.gvr_Resource gvr).
End to_migrate.

Lemma with_slash_spec name : with_slash name = true ↔ ∃ pre post, name = pre +:+ "/" +:+ post.
Proof. apply contains_spec. Qed.

Lemma eligible_spec name :
  eligible name ↔ negb (with_slash name) && negb (bool_decide (name ∈ blackListResources)) = true.
Proof.
  unfold eligible, blackListResources. rewrite andb_true_iff, !negb_true_iff, bool_decide_eq_false, elem_of_singleton.
  rewrite <- not_true_iff_false, with_slash_spec. naive_solver.
Qed.

#[export] Instance eligible_dec name : Decision (eligible name).
Proof.
  refine (cast_if (decide (negb (with_slash name) && negb (bool_decide (name ∈ blackListResources)) = true)));
    by rewrite eligible_spec.
Defined.

(** What appending [gvs] to the entry of a map does. *)
Definition appended (entry : option (list schema.GroupVersion)) (gvs : list schema.GroupVersion) :
    option (list schema.GroupVersion) :=
  match gvs with
  | [] => entry
  | _ => Some (default [] entry ++ gvs)
  end.

Lemma appended_app entry gvs1 gvs2 :
  appended (appended entry gvs1) gvs2 = appended entry (gvs1 ++ gvs2).
Proof. destruct gvs1, gvs2; simpl; rewrite ?app_nil_r, <- ?app_assoc; done. Qed.

(** What the loops of FindMigratableResources collect under a name. *)
Definition collected (gv : schema.GroupVersion) (name : string) (rs : list APIResource) :
    list schema.GroupVersion :=
  (λ _, gv) <$> filter (λ r, migratable r = true ∧ res_Name r = name) rs.

Lemma add_resources_lookup gv rs m name :
  add_resources gv rs m !! name = appended (m !! name) (collected gv name rs).
Proof.
  unfold collected. revert m. induction rs as [|r rs IH]; intros m; [done|]. cbn [add_resources].
  rewrite IH, filter_cons. destruct (migratable r) eqn:Hm; [|rewrite decide_False by (by intros []); done].
  unfold append_gv. destruct (decide (res_Name r = name)) as [<-|Hne].
  - rewrite decide_True by done. rewrite lookup_insert_eq.
    change (Some (default [] (m !! res_Name r) ++ [gv])) with (appended (m !! res_Name r) [gv]).
    by rewrite appended_app.
  - rewrite decide_False by (by intros []). by rewrite lookup_insert_ne.
Qed.

Lemma migratable_spec r :
  migratable r = true ↔ eligible (res_Name r) ∧ "list" ∈ res_Verbs r ∧ "update" ∈ res_Verbs r.
Proof. unfold migratable. by rewrite !andb_true_iff, !bool_decide_eq_true, eligible_spec, andb_true_iff. Qed.

Lemma collected_served gv name rs :
  collected gv name rs =
  if decide (eligible name)
  then (λ _, gv) <$> filter (λ r, res_Name r = name ∧ "list" ∈ res_Verbs r ∧ "update" ∈ res_Verbs r) rs else [].
Proof.
  unfold collected. induction rs as [|r rs IH]; [by case_decide|]. rewrite !filter_cons.
  assert (migratable r = true ∧ res_Name r = name ↔
    eligible name ∧ res_Name r = name ∧ "list" ∈ res_Verbs r ∧ "update" ∈ res_Verbs r) as Hm.
  { rewrite migratable_spec. naive_solver. }
  rewrite (decide_ext _ _ _ _ Hm).
  destruct (decide (eligible name)).
  - rewrite (decide_ext _ (res_Name r = name ∧ "list" ∈ res_Verbs r ∧ "update" ∈ res_Verbs r)) by naive_solver.
    case_decide; rewrite ?fmap_cons; [f_equal; exact IH|exact IH].
  - rewrite decide_False by naive_solver. exact IH.
Qed.

(** The sets findCustomGroups and findAggregatedGroups make. *)
Lemma built_in_spec (crds : list CustomResourceDefinition) (services : list APIService) group :
  built_in (map crd_Group crds) (map (λ s, (as_Group s, as_Service s)) services) group ↔
  group ∉ (list_to_set (crd_Group <$> crds) : gset string) ∧
  group ∉ (list_to_set (as_Group <$> filter (λ s, bool_decide (is_Some (as_Service s)) = true) services) : gset string).
Proof.
  unfold built_in. rewrite !elem_of_list_to_set. apply and_iff_compat_l. rewrite Forall_map, Forall_forall, list_elem_of_fmap.
  split.
  - intros Hf (s & -> & [Hs%bool_decide_eq_true Hin]%list_elem_of_filter).
    destruct (Hf s Hin) as [Hn|Hn]; [|done]. simpl in Hn. rewrite Hn in Hs. by destruct Hs.
  - intros Hn s Hin. simpl. destruct (as_Service s) eqn:E; [right|by left]. intros <-. apply Hn. exists s.
    split; [done|]. apply list_elem_of_filter. by rewrite E, bool_decide_eq_true_2 by by eexists.
Qed.

Lemma add_lists_lookup crds services ls m name :
  add_lists (list_to_set (crd_Group <$> crds))
    (list_to_set (as_Group <$> filter (λ s, bool_decide (is_Some (as_Service s)) = true) services)) ls m !! name =
  appended (m !! name)
    (if decide (eligible name)
     then served (map crd_Group crds) (map (λ s, (as_Group s, as_Service s)) services) ls name else []).
Proof.
  revert m. induction ls as [|l ls IH]; intros m; [by case_decide|]. cbn [add_lists]. rewrite IH. clear IH.
  unfold served at 2. rewrite bind_cons. fold (served (map crd_Group crds)
    (map (λ s, (as_Group s, as_Service s)) services) ls name). unfold served_in.
  destruct (schema.ParseGroupVersion _) as [gv|e]; [|by case_decide].
  destruct (decide (built_in _ _ (schema.gv_Group gv))) as [Hb|Hb]; rewrite built_in_spec in Hb.
  - destruct Hb. rewrite !bool_decide_eq_false_2 by done. rewrite add_resources_lookup, collected_served, appended_app.
    by case_decide.
  - case_bool_decide; [by case_decide|]. case_bool_decide; [by case_decide|]. naive_solver.
Qed.

Lemma pick_Some name gvs gvr :
  pick name gvs = Some gvr ↔
    ∃ gv gv' rest, gvs = gv :: gv' :: rest ∧ gvr = schema.WithResource gv name.
Proof. destruct gvs as [|gv [|gv' rest]]; simpl; naive_solver. Qed.

Section found.
Context `{MapOrder}.

Lemma ret_of_elem (m : gmap string (list schema.GroupVersion)) gvr :
  gvr ∈ ret_of m ↔ ∃ gv gv' rest,
    default [] (m !! schema.gvr_Resource gvr) = gv :: gv' :: rest ∧
    gvr = schema.WithResource gv (schema.gvr_Resource gvr).
Proof.
  unfold ret_of. rewrite list_elem_of_omap. split.
  - intros (name & _ & (gv & gv' & rest & E & ->)%pick_Some). simpl. eauto.
  - intros (gv & gv' & rest & E & Hgvr). exists (schema.gvr_Resource gvr). split.
    + rewrite elem_of_range, elem_of_dom. destruct (m !! _); [done|]. by simpl in E.
    + apply pick_Some. eauto.
Qed.

Lemma ret_of_NoDup (m : gmap string (list schema.GroupVersion)) : NoDup (ret_of m).
Proof.
  unfold ret_of. generalize (NoDup_range (dom m)). induction 1 as [|name names Hnin Hnd IH]; [constructor|].
  simpl. destruct (pick name (default [] (m !! name))) as [gvr|] eqn:Hp; simpl; rewrite ?Hp; [|exact IH].
  constructor; [|exact IH]. rewrite list_elem_of_omap. intros (name' & Hin & Hp').
  apply pick_Some in Hp as (gv & _ & _ & _ & ->), Hp' as (gv' & _ & _ & _ & E).
  injection E as _ _ ->. done.
Qed.
End found.

Section initializer.
Context {C : Type} `{MapOrder} `{StorageVersionMigrationInterface C}
  `{CustomResourceDefinitionInterface C} `{APIServiceInterface C} `{ServerResourcesInterface C}.
Implicit Types (w : World C).

(** ** The CRD *)

Definition crd_name : string := "storageversionmigrations.migration.k8s.io".

(** What happens in the cluster before the CRD is created, and the outcome of
    initializeCRD. *)
Inductive polled : list event → option error → Prop :=
  | polled_gone e : IsNotFound e = true → polled [CRDGet crd_name (Some e)] None
  | polled_failed e : IsNotFound e = false → polled [CRDGet crd_name (Some e)] (Some e)
  | polled_timeout : polled [CRDGet crd_name None] (Some ErrWaitTimeout)
  | polled_again evs err :
      polled evs err → polled (CRDGet crd_name None :: Slept (500 * Millisecond) :: evs) err
  | polled_last evs err :
      polled evs err → polled (CRDGet crd_name None :: evs) err.

Inductive crd_installed : list event → option error → Prop :=
  | crd_unreadable e : IsNotFound e = false → crd_installed [CRDGet crd_name (Some e)] (Some e)
  | crd_absent e err :
      IsNotFound e = true → crd_installed [CRDGet crd_name (Some e); CRDCreate crd_name err] err
  | crd_not_deleted e :
      crd_installed [CRDGet crd_name None; CRDDelete crd_name (Some e)] (Some e)
  | crd_still_there evs e :
      polled evs (Some e) →
      crd_installed (CRDGet crd_name None :: CRDDelete crd_name None :: evs) (Some e)
  | crd_replaced evs err :
      polled evs None →
      crd_installed (CRDGet crd_name None :: CRDDelete crd_name None :: evs ++ [CRDCreate crd_name err]) err.

Lemma crd_deleted_run w :
  wp (crd_deleted crd_name)
     (λ r w', ∃ out, w' = add_events [CRDGet crd_name out] (ext w') w ∧
        r = match out with
            | None => (false, None)
            | Some e => if IsNotFound e then (true, None) else (false, Some e)
            end) w.
Proof.
  unfold crd_deleted, get_crd. do 3 wp_step. eexists. split; [reflexivity|].
  by destruct (crd_Get crd_name (ext w)).1.
Qed.

Lemma poll_ticks_run ticks w :
  wp (poll_ticks ticks (500 * Millisecond) (crd_deleted crd_name))
     (λ err w', ∃ pre evs, w' = add_events (pre ++ evs) (ext w') w ∧ polled evs err ∧
        (pre = [] ∨ pre = [Slept (500 * Millisecond)])) w.
Proof.
  revert w. induction ticks as [|ticks IH]; intros w; cbn [poll_ticks].
  - apply wp_bind. eapply wp_conseq; [apply crd_deleted_run|].
    intros r w1 ([e|] & E & ->).
    + destruct (IsNotFound e) eqn:HN; apply wp_ret; exists [], [CRDGet crd_name (Some e)];
        (split_and!; [done|by constructor|by left]).
    + apply wp_ret. exists [], [CRDGet crd_name None]. split_and!; [done|constructor|by left].
  - do 2 wp_step. apply wp_bind. eapply wp_conseq; [apply crd_deleted_run|].
    intros r w1 (out & E & ->). rewrite add_events_add_events in E. destruct out as [e|].
    + destruct (IsNotFound e) eqn:HN; apply wp_ret;
        exists [Slept (500 * Millisecond)], [CRDGet crd_name (Some e)];
        (split_and!; [done|by constructor|by right]).
    + eapply wp_conseq; [apply IH|]. intros err w2 (pre & evs & E2 & Hp & Hpre).
      rewrite (add_events_after _ _ _ _ _ _ E) in E2.
      exists [Slept (500 * Millisecond)], (CRDGet crd_name None :: pre ++ evs).
      split_and!; [done| |by right]. destruct Hpre as [->| ->]; by constructor.
Qed.

Lemma PollImmediate_run ticks w :
  wp (PollImmediate ticks (500 * Millisecond) (crd_deleted crd_name))
     (λ err w', ∃ evs, w' = add_events evs (ext w') w ∧ polled evs err) w.
Proof.
  unfold PollImmediate. apply wp_bind. eapply wp_conseq; [apply crd_deleted_run|].
  intros r w1 (out & E & ->). destruct out as [e|].
  - destruct (IsNotFound e) eqn:HN; apply wp_ret; exists [CRDGet crd_name (Some e)];
      (split; [done|by constructor]).
  - eapply wp_conseq; [apply poll_ticks_run|]. intros err w2 (pre & evs & E2 & Hp & Hpre).
    rewrite (add_events_after _ _ _ _ _ _ E) in E2.
    exists (CRDGet crd_name None :: pre ++ evs). split; [done|].
    destruct Hpre as [->| ->]; by constructor.
Qed.

Lemma initializeCRD_run ticks w :
  wp (initializeCRD ticks)
     (λ err w', ∃ evs, w' = add_events evs (ext w') w ∧ crd_installed evs err) w.
Proof.
  unfold initializeCRD. change (pluralCRDName +:+ "." +:+ GroupName) with crd_name.
  assert (∀ w, wp create_crd
    (λ err w', w' = add_events [CRDCreate crd_name err] (ext w') w) w) as Hcreate.
  { intros w1. unfold create_crd. by do 3 wp_step. }
  unfold get_crd at 1. do 2 wp_step.
  destruct (crd_Get crd_name (ext w)) as [[crd|e] s1]; simpl.
  - do 2 wp_step. rewrite add_events_add_events. simpl.
    destruct (crd_Delete crd_name s1) as [[e|] s2]; simpl.
    + wp_step. eexists. split; [reflexivity|constructor].
    + apply wp_bind. eapply wp_conseq; [apply PollImmediate_run|].
      intros err w1 (evs & E & Hp). rewrite add_events_add_events in E. destruct err as [e|].
      * wp_step. eexists. split; [exact E|by constructor].
      * eapply wp_conseq; [apply Hcreate|]. intros err w2 E2. simpl in E2.
        rewrite (add_events_after _ _ _ _ _ _ E) in E2. eexists. split; [exact E2|]. by constructor.
  - destruct (IsNotFound e) eqn:HN; simpl.
    + eapply wp_conseq; [apply Hcreate|]. intros err w2 E2. simpl in E2. rewrite add_events_add_events in E2.
      eexists. split; [exact E2|]. by constructor.
    + wp_step. eexists. split; [reflexivity|]. by constructor.
Qed.
End initializer.

Section initializer_claims.
Context {C : Type} `{MapOrder} `{StorageVersionMigrationInterface C}
  `{CustomResourceDefinitionInterface C} `{APIServiceInterface C} `{ServerResourcesInterface C}.
Implicit Types (w : World C).

Lemma polled_last_event evs err :
  polled evs err →
  (∀ name out, CRDCreate name out ∉ evs) ∧
  (err = None → ∃ pre e, evs = pre ++ [CRDGet crd_name (Some e)] ∧ IsNotFound e = true).
Proof.
  induction 1 as [e HN|e HN| |evs err _ [IH1 IH2]|evs err _ [IH1 IH2]].
  - split; [set_solver|]. intros _. by exists [], e.
  - split; [set_solver|done].
  - split; [set_solver|done].
  - split; [set_solver|]. intros (pre & e & -> & HN)%IH2.
    by exists (CRDGet crd_name None :: Slept (500 * Millisecond) :: pre), e.
  - split; [set_solver|]. intros (pre & e & -> & HN)%IH2. by exists (CRDGet crd_name None :: pre), e.
Qed.

(** The requests of a search that succeeds, and what it returns. *)
Definition found_all (groups : list string) (services : list (string * option string))
    (ls : list APIResourceList) : list event :=
  [CRDList (Ok groups); APIServiceList (Ok services); GroupsAndResources ls None].

Definition exactly (rs : list schema.GroupVersionResource) (P : schema.GroupVersionResource → Prop) : Prop :=
  NoDup rs ∧ ∀ gvr, gvr ∈ rs ↔ P gvr.

Inductive finds : list event → res (list schema.GroupVersionResource) → Prop :=
  | finds_no_crds e : finds [CRDList (Err e)] (Err e)
  | finds_no_services groups e : finds [CRDList (Ok groups); APIServiceList (Err e)] (Err e)
  | finds_partly groups services ls e :
      finds [CRDList (Ok groups); APIServiceList (Ok services); GroupsAndResources ls (Some e)] (Err e)
  | finds_exactly groups services ls rs :
      exactly rs (to_migrate groups services ls) → finds (found_all groups services ls) (Ok rs).

Lemma ret_of_exactly crds services ls :
  exactly (ret_of (add_lists (list_to_set (crd_Group <$> crds))
      (list_to_set (as_Group <$> filter (λ s, bool_decide (is_Some (as_Service s)) = true) services)) ls ∅))
    (to_migrate (map crd_Group crds) (map (λ s, (as_Group s, as_Service s)) services) ls).
Proof.
  split; [apply ret_of_NoDup|]. intros gvr. rewrite ret_of_elem, add_lists_lookup, lookup_empty. unfold to_migrate.
  case_decide as He; [|naive_solver]. by destruct (served _ _ ls (schema.gvr_Resource gvr)); naive_solver.
Qed.

Lemma FindMigratableResources_run w :
  wp FindMigratableResources (λ out w', ∃ evs, w' = add_events evs (ext w') w ∧ finds evs out) w.
Proof.
  unfold FindMigratableResources, findCustomGroups, findAggregatedGroups. do 3 wp_step.
  destruct (crd_List (ext w)) as [[crds|e] s1]; simpl.
  2: { do 2 wp_step. eexists. split; [reflexivity|constructor]. }
  do 4 wp_step. rewrite add_events_add_events. simpl. destruct (as_List s1) as [[services|e] s2]; simpl.
  2: { do 2 wp_step. eexists. split; [reflexivity|constructor]. }
  do 3 wp_step. rewrite add_events_add_events. simpl.
  destruct (disc_ServerGroupsAndResources s2) as [[ls [e|]] s3]; simpl; wp_step;
    (eexists; split; [reflexivity|constructor]). apply ret_of_exactly.
Qed.

(** C28. FindMigratableResources always returns, after at most three requests:
    for the custom resource definitions, for the APIServices and for the
    discovery documents.  It fails with the error of the first that fails.
    Otherwise it returns, each exactly once, the resources that discovery
    serves in more than one group/version outside the groups of custom
    resources and of aggregated APIs so that they can be listed and updated,
    under the first of those group/versions, and nothing else: no subresource
    and no event. *)
Theorem FindMigratableResources_exact w :
  wp FindMigratableResources
    (λ out w', ∃ evs, trace w' = trace w ++ evs ∧
       ((∃ e, out = Err e ∧
           (evs = [CRDList (Err e)] ∨
            (∃ groups, evs = [CRDList (Ok groups); APIServiceList (Err e)]) ∨
            ∃ groups services ls,
              evs = [CRDList (Ok groups); APIServiceList (Ok services); GroupsAndResources ls (Some e)])) ∨
        ∃ groups services ls rs, out = Ok rs ∧ evs = found_all groups services ls ∧ NoDup rs ∧
          ∀ gvr, gvr ∈ rs ↔
            (schema.gvr_Resource gvr ≠ "events" ∧ ∀ pre post, schema.gvr_Resource gvr ≠ pre +:+ "/" +:+ post) ∧
            ∃ gv gv' rest, served groups services ls (schema.gvr_Resource gvr) = gv :: gv' :: rest ∧
              gvr = schema.WithResource gv (schema.gvr_Resource gvr))) w.
Proof.
  eapply wp_conseq; [apply FindMigratableResources_run|]. intros out w' (evs & -> & Hf). exists evs.
  split; [done|]. destruct Hf as [e|groups e|groups services ls e|groups services ls rs [Hnd Hin]];
    [left; eexists; split; [done|]; eauto 7..|]. right. by exists groups, services, ls, rs.
Qed.

(** initializeCRD always returns, and it creates the CRD at most once, as
    its last request, right after the API server has answered that there is no
    such CRD; nil means that this creation was accepted. *)
Theorem initializeCRD_spec ticks w :
  wp (initializeCRD ticks)
    (λ err w', ∃ evs, trace w' = trace w ++ evs ∧
      (∀ pre name out post, evs = pre ++ CRDCreate name out :: post →
        name = crd_name ∧ post = [] ∧ err = out ∧
        ∃ pre' e, pre = pre' ++ [CRDGet crd_name (Some e)] ∧ IsNotFound e = true) ∧
      (err = None → ∃ pre, evs = pre ++ [CRDCreate crd_name None])) w.
Proof.
  eapply wp_conseq; [apply initializeCRD_run|]. intros err w' (evs & -> & Hi). exists evs.
  split; [done|]. destruct Hi as [e HN|e err HN|e|evs e Hp|evs err Hp].
  - split; [|done]. by intros [|? []] ? ? ? [= <-].
  - split; [|intros ->; by exists [CRDGet crd_name (Some e)]].
    intros [|? [|? []]] name out post E; simplify_eq/=. split_and!; [done..|]. by exists [], e.
  - split; [|done]. intros [|? [|? []]] name out post E; by simplify_eq/=.
  - split; [|done]. apply polled_last_event in Hp as [Hno _].
    intros pre name out post E. exfalso. apply (Hno name out).
    destruct pre as [|? [|? pre]]; simplify_eq/=. set_solver.
  - apply polled_last_event in Hp as [Hno Hlast]. destruct (Hlast eq_refl) as (l & e & -> & HN). split.
    + intros [|? [|? pre]] name out post E; simplify_eq/=.
      match goal with E : (_ ++ _) ++ _ = _ |- _ => rename E into E' end.
      apply app_split_elem in E' as [[k E']|(k & -> & E')].
      { exfalso. apply (Hno name out). rewrite E'. set_solver. }
      destruct k as [|? []]; simplify_eq/=. rewrite app_nil_r. split_and!; [done..|].
      by exists (CRDGet crd_name None :: CRDDelete crd_name None :: l), e.
    + intros ->. by exists (CRDGet crd_name None :: CRDDelete crd_name None :: l ++ [CRDGet crd_name (Some e)]).
Qed.

(** Creating migrations one after the other. *)
Inductive created : list schema.GroupVersionResource → list event → option error → Prop :=
  | created_all : created [] [] None
  | created_one r rs evs err :
      created rs evs err → created (r :: rs) (SVMCreate (migrationForResource r) None :: evs) err
  | created_failed r rs e :
      created (r :: rs) [SVMCreate (migrationForResource r) (Some e)] (Some e).

Lemma created_success rs evs err :
  created rs evs err → err = None →
  evs = (λ r, SVMCreate (migrationForResource r) None) <$> rs.
Proof.
  induction 1 as [|r rs evs err _ IH|]; intros Herr; [done| |done].
  rewrite fmap_cons. f_equal. by apply IH.
Qed.

Lemma create_all_run rs w :
  wp (create_all rs) (λ err w', ∃ evs, w' = add_events evs (ext w') w ∧ created rs evs err) w.
Proof.
  revert w. induction rs as [|r rs IH]; intros w; cbn [create_all].
  - apply wp_ret. exists []. split; [|constructor]. unfold add_events. rewrite app_nil_r. by destruct w.
  - do 2 wp_step. destruct (svm_Create _ (ext w)) as [[m|e] s1]; simpl.
    + eapply wp_conseq; [apply IH|]. intros err w' (evs & E & Hc). rewrite add_events_add_events in E.
      eexists. split; [exact E|by constructor].
    + wp_step. eexists. split; [reflexivity|constructor].
Qed.

(** C29. Initialize always returns.  It first installs the CRD, and does
    nothing more when that fails.  Then it looks for the resources to migrate,
    and does nothing more when that fails.  What it found then are exactly the
    resources to migrate by the answers it got, each once, and it creates one
    migration for each of them in turn, pending and from the beginning of
    exactly that resource, and stops at the first creation that fails, whose
    error it returns; nil means that one was created for each. *)
Theorem Initialize_spec ticks w :
  wp (Initialize ticks)
    (λ err w', ∃ crd_evs rest, trace w' = trace w ++ crd_evs ++ rest ∧
      ((crd_installed crd_evs err ∧ err ≠ None ∧ rest = []) ∨
       (crd_installed crd_evs None ∧
        ((∃ e, err = Some e ∧ finds rest (Err e)) ∨
         ∃ groups services ls rs creations, rest = found_all groups services ls ++ creations ∧
           NoDup rs ∧ (∀ gvr, gvr ∈ rs ↔ to_migrate groups services ls gvr) ∧
           created rs creations err ∧
           (err = None → creations = (λ r, SVMCreate (migrationForResource r) None) <$> rs) ∧
           Forall (λ r, resource_of (migrationForResource r) = r ∧
                        ContinueToken (svm_Spec (migrationForResource r)) = "" ∧
                        status_of (migrationForResource r) = StatusPending) rs)))) w.
Proof.
  unfold Initialize. apply wp_bind. eapply wp_conseq; [apply initializeCRD_run|].
  intros err w1 (crd_evs & E1 & Hi). destruct err as [e|].
  { wp_step. exists crd_evs, []. rewrite E1. simpl. rewrite app_nil_r. split; [done|]. by left. }
  apply wp_bind. eapply wp_conseq; [apply FindMigratableResources_run|].
  intros out w2 (found & E2 & Hf). rewrite (add_events_after _ _ _ _ _ _ E1) in E2.
  destruct out as [rs|e].
  - eapply wp_conseq; [apply create_all_run|]. intros err w3 (evs & E3 & Hc).
    rewrite (add_events_after _ _ _ _ _ _ E2) in E3. exists crd_evs, (found ++ evs).
    rewrite E3. simpl. rewrite <- app_assoc. split; [done|]. right. split; [done|]. right.
    inversion Hf as [| | |groups services ls rs' [Hnd Hin]]; subst. exists groups, services, ls, rs, evs.
    split_and!; [done..| |].
    + by apply created_success.
    + apply Forall_forall. intros [g v n] _. by split_and!.
  - wp_step. exists crd_evs, found. rewrite E2. split; [done|]. right. split; [done|]. left. by exists e.
Qed.
End initializer_claims.

(** ** Witness: daemonsets in two groups, one of them custom resources *)

Definition resource_named (name : string) (verbs : list string) : APIResource :=
  {| res_Name := name; res_Group := ""; res_Version := ""; res_Verbs := verbs;
     StorageVersionHash := "" |}.

Definition some_lists : list APIResourceList := [
  {| GroupVersion := "extensions/v1beta1";
     APIResources := [resource_named "daemonsets" ["list"; "update"];
                      resource_named "daemonsets/status" ["get"; "update"]] |};
  {| GroupVersion := "apps/v1"; APIResources := [resource_named "daemonsets" ["list"; "update"]] |};
  {| GroupVersion := "v1"; APIResources := [resource_named "pods" ["list"; "update"]] |};
  {| GroupVersion := "example.com/v1"; APIResources := [resource_named "pods" ["list"; "update"]] |}].

Definition unit_crds : CustomResourceDefinitionInterface unit := {|
  crd_Get := λ name s, (Err (Errorf "unused"), s);
  crd_Create := λ crd s, (Ok crd, s);
  crd_Delete := λ name s, (None, s);
  crd_List := λ s, (Ok [{| crd_Name := "pods.example.com"; crd_Annotations := []; crd_Group := "example.com";
    crd_Plural := "pods"; crd_Singular := "pod"; crd_Kind := "Pod"; crd_ListKind := "PodList";
    ClusterScoped := false; Versions := [] |}], s);
|}.
Definition unit_services : APIServiceInterface unit := {|
  as_List := λ s, (Ok [{| as_Group := "metrics.k8s.io"; as_Service := Some "metrics" |}], s);
|}.
Definition unit_resources : ServerResourcesInterface unit := {|
  disc_ServerGroupsAndResources := λ s, ((some_lists, None), s);
|}.

Definition unit_world : World unit :=
  {| ext := tt; trace := []; metrics := newCoreMigratorMetrics |}.

(** daemonsets is served by extensions/v1beta1 and by apps/v1; pods by v1
    only, its other group being one of custom resources. *)
Example finds_daemonsets :
  @FindMigratableResources unit sorted_order unit_crds unit_services unit_resources unit_world =
  Some (Ok [{| schema.gvr_Group := "extensions"; schema.gvr_Version := "v1beta1"; schema.gvr_Resource := "daemonsets" |}],
    add_events (found_all ["example.com"] [("metrics.k8s.io", Some "metrics")] some_lists) tt unit_world).
Proof. vm_compute. reflexivity. Qed.

Example daemonsets_served :
  served ["example.com"] [("metrics.k8s.io", Some "metrics")] some_lists "daemonsets" =
    [{| schema.gv_Group := "extensions"; schema.gv_Version := "v1beta1" |};
     {| schema.gv_Group := "apps"; schema.gv_Version := "v1" |}] ∧
  served ["example.com"] [("metrics.k8s.io", Some "metrics")] some_lists "pods" =
    [{| schema.gv_Group := ""; schema.gv_Version := "v1" |}].
Proof. vm_compute. done. Qed.

(** The whole job: there is no CRD yet, and one migration is created. *)
Definition absent_crds : CustomResourceDefinitionInterface unit := {|
  crd_Get := λ name s, (Err (EStatus {| Status_Message := "not found"; Status_Reason := StatusReasonNotFound;
    Status_Details := None; Status_Code := 404; Status_Continue := "" |}), s);
  crd_Create := @crd_Create unit unit_crds;
  crd_Delete := @crd_Delete unit unit_crds;
  crd_List := @crd_List unit unit_crds;
|}.

Definition unit_migrations : StorageVersionMigrationInterface unit := {|
  svm_Get := λ name s, (Err (Errorf "unused"), s);
  svm_Update := λ m s, (Ok m, s);
  svm_UpdateStatus := λ m s, (Ok m, s);
  svm_Create := λ m s, (Ok m, s);
  svm_Delete := λ name s, (None, s);
|}.

Definition initialize_unit : M (World unit) (option error) :=
  @Initialize unit sorted_order unit_migrations absent_crds unit_services unit_resources 60.

Example initialized :
  option_map (λ r, (r.1, drop 2 (trace r.2))) (initialize_unit unit_world) =
  Some (None, found_all ["example.com"] [("metrics.k8s.io", Some "metrics")] some_lists ++
    [SVMCreate (migrationForResource {| schema.gvr_Group := "extensions"; schema.gvr_Version := "v1beta1";
                                        schema.gvr_Resource := "daemonsets" |}) None]).
Proof. vm_compute. reflexivity. Qed.
