(* ===== verification/Workqueue.v ===== *)
(** * The work queue: client-go/util/workqueue

    queue.go, the retries of delaying_queue.go and the per-item rate limiter of
    default_rate_limiters.go.  Every method of [Type] holds the queue's lock;
    a blocking Get is a method that has no result yet. *)
From S2P Require Export Types.

Local Open Scope Z_scope.

Section queue.
Context {A : Type} `{Countable A}.

(** ** queue.go *)

Record queue := {
  q_queue : list A;
  dirty : gset A;
  q_processing : gset A;
  shuttingDown : bool;
  drain : bool;
}.

Definition newQueue : queue :=
  {| q_queue := []; dirty := ∅; q_processing := ∅; shuttingDown := false; drain := false |}.

Definition Add (item : A) (q : queue) : queue :=
  if shuttingDown q then q
  else if bool_decide (item ∈ dirty q) then q
  else
    let dirty := {[item]} ∪ dirty q in
    {| q_queue := if bool_decide (item ∈ q_processing q) then q_queue q else q_queue q ++ [item];
       dirty := dirty; q_processing := q_processing q;
       shuttingDown := shuttingDown q; drain := drain q |}.

Definition Len (q : queue) : nat := length (q_queue q).

Inductive get_result :=
  | Blocked                       (* waits on the condition variable *)
  | ShutDownResult                (* nil, true *)
  | Got (item : A) (q : queue).

Definition Get (q : queue) : get_result :=
  match q_queue q with
  | [] => if shuttingDown q then ShutDownResult else Blocked
  | item :: rest =>
      Got item {| q_queue := rest; dirty := dirty q ∖ {[item]};
                  q_processing := {[item]} ∪ q_processing q;
                  shuttingDown := shuttingDown q; drain := drain q |}
  end.

Definition Done (item : A) (q : queue) : queue :=
  {| q_queue := if bool_decide (item ∈ dirty q) then q_queue q ++ [item] else q_queue q;
     dirty := dirty q; q_processing := q_processing q ∖ {[item]};
     shuttingDown := shuttingDown q; drain := drain q |}.

Definition setDrain (shouldDrain : bool) (q : queue) : queue :=
  {| q_queue := q_queue q; dirty := dirty q; q_processing := q_processing q;
     shuttingDown := shuttingDown q; drain := shouldDrain |}.

Definition shutdown (q : queue) : queue :=
  {| q_queue := q_queue q; dirty := dirty q; q_processing := q_processing q;
     shuttingDown := true; drain := drain q |}.

Definition ShutDown (q : queue) : queue := shutdown (setDrain false q).

(** The part of ShutDownWithDrain before it waits, and whether it waits. *)
Definition ShutDownWithDrain (q : queue) : queue := shutdown (setDrain true q).
Definition isProcessing (q : queue) : bool := bool_decide (q_processing q ≠ ∅).
Definition shouldDrain (q : queue) : bool := drain q.
Definition drain_waits (q : queue) : bool := isProcessing q && shouldDrain q.

(** ** delaying_queue.go: items to add later

    [waitingForAddCh] is the channel AddAfter sends on, of capacity 1000, and
    [waiting] holds the entries that the waiting loop has received. *)
Record delaying := {
  inner : queue;
  waitingForAddCh : list (A * Time);
  waiting : gmap A Time;
}.

Definition newDelayingQueue : delaying :=
  {| inner := newQueue; waitingForAddCh := []; waiting := ∅ |}.

Definition with_inner (q : queue) (d : delaying) : delaying :=
  {| inner := q; waitingForAddCh := waitingForAddCh d; waiting := waiting d |}.

Definition channel_capacity : nat := 1000.

(** None while the send blocks on a full channel. *)
Definition AddAfter (now : Time) (item : A) (duration : Duration) (d : delaying) : option delaying :=
  if shuttingDown (inner d) then Some d
  else if duration <=? 0 then Some (with_inner (Add item (inner d)) d)
  else if (length (waitingForAddCh d) <? channel_capacity)%nat
  then Some {| inner := inner d; waitingForAddCh := waitingForAddCh d ++ [(item, now + duration)];
               waiting := waiting d |}
  else None.

(** insert keeps the earlier of two times for an item. *)
Definition insert (item : A) (readyAt : Time) (w : gmap A Time) : gmap A Time :=
  match w !! item with
  | Some t => if readyAt <? t then <[item := readyAt]> w else w
  | None => <[item := readyAt]> w
  end.

(** The two things the waiting loop does with its entries: it receives one
    from the channel, and it adds one whose time has come (of several it takes
    the earliest; here any of them). *)
Definition receive (now : Time) (d : delaying) : option delaying :=
  match waitingForAddCh d with
  | [] => None
  | (item, readyAt) :: rest =>
      Some (if now <? readyAt
            then {| inner := inner d; waitingForAddCh := rest;
                    waiting := insert item readyAt (waiting d) |}
            else {| inner := Add item (inner d); waitingForAddCh := rest; waiting := waiting d |})
  end.

Definition fire (now : Time) (item : A) (d : delaying) : option delaying :=
  match waiting d !! item with
  | Some readyAt =>
      if now <? readyAt then None
      else Some {| inner := Add item (inner d); waitingForAddCh := waitingForAddCh d;
                   waiting := delete item (waiting d) |}
  | None => None
  end.

(** ** default_rate_limiters.go: the exponential part *)

Record exponential := { failures : gmap A nat; baseDelay : Duration; maxDelay : Duration }.

(** The comparison is between float64s, where MaxInt64 is rounded to 2^63; a
    base below 2^53 times a power of two is exact, or +Inf. *)
Definition backoff_delay (base max : Duration) (exp : nat) : Duration :=
  let backoff := base * 2 ^ Z.of_nat exp in
  if 2 ^ 63 <? backoff then max
  else
    let calculated := wrap64 backoff in
    if max <? calculated then max else calculated.

Definition When (item : A) (r : exponential) : Duration * exponential :=
  let exp := default 0%nat (failures r !! item) in
  (backoff_delay (baseDelay r) (maxDelay r) exp,
   {| failures := <[item := S exp]> (failures r); baseDelay := baseDelay r; maxDelay := maxDelay r |}).

Definition NumRequeues (item : A) (r : exponential) : nat := default 0%nat (failures r !! item).

Definition Forget (item : A) (r : exponential) : exponential :=
  {| failures := delete item (failures r); baseDelay := baseDelay r; maxDelay := maxDelay r |}.

Definition NewItemExponentialFailureRateLimiter (base max : Duration) : exponential :=
  {| failures := ∅; baseDelay := base; maxDelay := max |}.

(** DefaultControllerRateLimiter: the larger of the exponential delay and what
    the token bucket says, [bucket]; MaxOfRateLimiter starts from 0. *)
Definition DefaultControllerRateLimiter : exponential :=
  NewItemExponentialFailureRateLimiter (5 * Millisecond) (1000 * Second).

Definition MaxOf_When (bucket : Duration) (item : A) (r : exponential) : Duration * exponential :=
  let '(curr, r) := When item r in
  let ret := if 0 <? curr then curr else 0 in
  (if ret <? bucket then bucket else ret, r).

(** ** rate_limiting_queue.go *)
Definition AddRateLimited (now : Time) (bucket : Duration) (item : A) (d : delaying)
    (r : exponential) : option (delaying * exponential) :=
  let '(duration, r) := MaxOf_When bucket item r in
  d ← AddAfter now item duration d;
  Some (d, r).

(** ** The invariant of the queue

    The queue holds, without duplicates, the items that need processing and
    are not being processed. *)
Record queue_ok (q : queue) : Prop := {
  ok_NoDup : NoDup (q_queue q);
  ok_queue : ∀ x, x ∈ q_queue q ↔ x ∈ dirty q ∧ x ∉ q_processing q;
}.

Lemma queue_ok_new : queue_ok newQueue.
Proof. split; [constructor|]. simpl. set_solver. Qed.

Lemma queue_ok_Add item q : queue_ok q → queue_ok (Add item q).
Proof.
  intros [Hnd Hq]. unfold Add. destruct (shuttingDown q); [done|].
  case_bool_decide as Hd; [done|]. case_bool_decide as Hp; split; simpl; [done| | |].
  - intros x. rewrite Hq. set_solver.
  - apply NoDup_app. split_and!; [done| |apply NoDup_singleton]. set_solver.
  - intros x. rewrite elem_of_app, Hq, list_elem_of_singleton. set_solver.
Qed.

Lemma queue_ok_Get item q q' :
  queue_ok q → Get q = Got item q' →
  queue_ok q' ∧ item ∉ q_processing q ∧ item ∈ q_processing q' ∧ item ∈ dirty q.
Proof.
  intros [Hnd Hq]. unfold Get. destruct (q_queue q) as [|x rest] eqn:E; [by destruct (shuttingDown q)|].
  intros [= -> <-]. apply NoDup_cons in Hnd as [Hx Hnd].
  assert (item ∈ dirty q ∧ item ∉ q_processing q) as [Hid Hip] by (apply Hq; set_solver).
  split_and!; simpl; [split; simpl; [done|]|done|set_solver|done].
  intros y. pose proof (Hq y) as Hy. rewrite elem_of_cons in Hy.
  rewrite elem_of_difference, elem_of_union, elem_of_singleton.
  destruct (decide (y = item)) as [->|Hne]; [set_solver|]. naive_solver.
Qed.

Lemma queue_ok_Done item q : queue_ok q → item ∈ q_processing q → queue_ok (Done item q).
Proof.
  intros [Hnd Hq] Hp. unfold Done. case_bool_decide as Hd; split; simpl; try done.
  - apply NoDup_app. split_and!; [done| |apply NoDup_singleton].
    intros x Hx ->%list_elem_of_singleton. apply Hq in Hx. set_solver.
  - intros x. rewrite elem_of_app, Hq, list_elem_of_singleton, elem_of_difference, elem_of_singleton.
    destruct (decide (x = item)) as [->|]; naive_solver.
  - intros x. rewrite Hq, elem_of_difference, elem_of_singleton.
    destruct (decide (x = item)) as [->|]; naive_solver.
Qed.

Lemma queue_ok_shutdown q b : queue_ok q → queue_ok (shutdown (setDrain b q)).
Proof. intros [Hnd Hq]. by split. Qed.

(** What the users of a queue can do with it: they call Done for what they
    are processing. *)
Inductive queue_step : queue → queue → Prop :=
  | queue_add item q : queue_step q (Add item q)
  | queue_get item q q' : Get q = Got item q' → queue_step q q'
  | queue_done item q : item ∈ q_processing q → queue_step q (Done item q)
  | queue_shutdown q : queue_step q (ShutDown q)
  | queue_drain q : queue_step q (ShutDownWithDrain q).

Lemma queue_ok_step q q' : queue_step q q' → queue_ok q → queue_ok q'.
Proof.
  destruct 1 as [| |? ? Hp| |]; intros Hok; [by apply queue_ok_Add|by eapply queue_ok_Get|
    by apply queue_ok_Done|by apply queue_ok_shutdown..].
Qed.

Lemma queue_ok_steps q q' : rtc queue_step q q' → queue_ok q → queue_ok q'.
Proof. induction 1; eauto using queue_ok_step. Qed.

Lemma queue_step_dirty q q' x :
  queue_step q q' → x ∈ dirty q → x ∈ dirty q' ∨ Get q = Got x q'.
Proof.
  destruct 1 as [item q|item q q' HG| | |]; intros Hx; simpl; auto.
  - left. unfold Add. destruct (shuttingDown q); [done|]. case_bool_decide; set_solver.
  - destruct (decide (x = item)) as [->|]; [by right|left].
    revert HG. unfold Get. destruct (q_queue q); [by destruct (shuttingDown q)|].
    intros [= -> <-]. set_solver.
Qed.

Lemma Add_dirty item q : shuttingDown q = false → item ∈ dirty (Add item q).
Proof. intros Hs. unfold Add. rewrite Hs. case_bool_decide; set_solver. Qed.

Lemma Add_processing item q : q_processing (Add item q) = q_processing q.
Proof. unfold Add. destruct (shuttingDown q); [done|]. by case_bool_decide. Qed.

Lemma backoff_delay_min base max n :
  0 < base → 0 ≤ max < 2 ^ 63 → (∀ n : nat, base * 2 ^ Z.of_nat n ≠ 2 ^ 63) →
  backoff_delay base max n = Z.min (base * 2 ^ Z.of_nat n) max.
Proof.
  intros Hb Hm Hne. unfold backoff_delay. specialize (Hne n).
  assert (0 < 2 ^ Z.of_nat n) by lia. assert (0 < base * 2 ^ Z.of_nat n) by nia.
  destruct (Z.ltb_spec (2 ^ 63) (base * 2 ^ Z.of_nat n)); [lia|].
  rewrite wrap64_id by (unfold int64; lia).
  destruct (Z.ltb_spec max (base * 2 ^ Z.of_nat n)); lia.
Qed.
Lemma five_ms_not_pow2 (n : nat) : 5 * Millisecond * 2 ^ Z.of_nat n ≠ 2 ^ 63.
Proof.
  intros E. assert ((2 ^ 63) mod 5 = 0) as Hm; [|by vm_compute in Hm].
  rewrite <- E. unfold Millisecond. replace (5 * 1000000 * 2 ^ Z.of_nat n)
    with (1000000 * 2 ^ Z.of_nat n * 5) by lia. by apply Z.mod_mul.
Qed.

Lemma failures_When item r x :
  NumRequeues x (When item r).2 =
  if decide (x = item) then Datatypes.S (NumRequeues item r) else NumRequeues x r.
Proof.
  unfold When, NumRequeues. simpl. rewrite lookup_insert.
  repeat case_decide; by simplify_eq/=.
Qed.

(** ** Claims *)

(** C30. The queue never hands an item to two users at once and never forgets
    one: in every reachable state the queue holds, without repetition, exactly
    the items marked dirty that nobody is processing; the item Get returns was
    in nobody's hands; an item marked dirty stays so until a Get returns it,
    whatever other users do; Add marks its item unless the queue is shutting
    down; and Done puts an item that became dirty meanwhile back in line. *)
Theorem queue_exclusive_no_loss (q : queue) :
  rtc queue_step newQueue q →
  NoDup (q_queue q) ∧
  (∀ x, x ∈ q_queue q ↔ x ∈ dirty q ∧ x ∉ q_processing q) ∧
  (∀ item q', Get q = Got item q' → item ∉ q_processing q ∧ item ∈ q_processing q') ∧
  (∀ q' x, queue_step q q' → x ∈ dirty q → x ∈ dirty q' ∨ Get q = Got x q') ∧
  (∀ item, shuttingDown q = false → item ∈ dirty (Add item q)) ∧
  (∀ item, item ∈ q_processing q → item ∈ dirty q → item ∈ q_queue (Done item q)).
Proof.
  intros Hr. assert (queue_ok q) as Hok by (eapply queue_ok_steps; [done|apply queue_ok_new]).
  split_and!; [apply Hok|apply Hok| |eauto using queue_step_dirty|eauto using Add_dirty|].
  - intros item q' HG. by apply (queue_ok_Get item q q') in HG as (_ & ? & ? & _).
  - intros item _ Hd. unfold Done. simpl. rewrite bool_decide_eq_true_2 by done. set_solver.
Qed.

(** The retry delays of the default rate limiter: the n-th retry in a row
    of an item waits 5ms * 2^n, at most 1000 seconds (never overflowing
    int64), or longer if the token bucket says so; it counts as one more
    failure of this item and of no other; Forget starts the item afresh. *)
Theorem default_rate_limiter_delay (f : gmap A nat) (bucket : Duration) (item : A) :
  let r := {| failures := f; baseDelay := baseDelay DefaultControllerRateLimiter;
              maxDelay := maxDelay DefaultControllerRateLimiter |} in
  let n := NumRequeues item r in
  (MaxOf_When bucket item r).1 = Z.max (Z.min (5 * Millisecond * 2 ^ Z.of_nat n) (1000 * Second)) bucket ∧
  (∀ x, NumRequeues x (MaxOf_When bucket item r).2 =
     if decide (x = item) then Datatypes.S n else NumRequeues x r) ∧
  NumRequeues item (Forget item r) = 0%nat.
Proof.
  simpl. set (r := {| failures := f |}). split_and!.
  - unfold MaxOf_When, When. simpl. rewrite backoff_delay_min;
      [|unfold Millisecond; lia|unfold Second, Millisecond; lia|apply five_ms_not_pow2].
    fold (NumRequeues item r).
    assert (0 < 2 ^ Z.of_nat (NumRequeues item r)) by lia.
    set (d := Z.min _ _). assert (0 < d).
    { unfold d, Second, Millisecond. lia. }
    destruct (Z.ltb_spec 0 d); [|lia]. destruct (Z.ltb_spec d bucket); lia.
  - intros x. rewrite <- (failures_When item r x). done.
  - unfold NumRequeues. simpl. by rewrite lookup_delete_eq.
Qed.
End queue.

Arguments queue A {_ _}.
Arguments delaying A {_ _}.
Arguments exponential A {_ _}.

Lemma queue_exclusive_no_loss_witness :
  NoDup (q_queue (Add 7%nat newQueue)) ∧ q_queue (Add 7%nat newQueue) = [7%nat].
Proof.
  split; [|reflexivity].
  apply (queue_exclusive_no_loss (Add 7%nat newQueue)).
  apply rtc_once. apply (queue_add 7%nat newQueue).
Defined.
