(* ===== verification/Rate.v ===== *)
(** * Token buckets: golang.org/x/time/rate

    The limiter under the rate limiters of the work queue and of the REST
    clients.  Its methods hold its lock.  Limits and tokens are float64s: the
    operations are those of IEEE 754 as the Standard Library specifies them,
    with 53 bits and rounding to nearest. *)
From S2P Require Export Workqueue.
From stdpp Require Import pretty.
From Stdlib Require Import Floats.SpecFloat.

Local Open Scope Z_scope.

(** ** float64 *)

Abbreviation float64 := spec_float.

Definition fadd : float64 → float64 → float64 := SFadd 53 1024.
Definition fsub : float64 → float64 → float64 := SFsub 53 1024.
Definition fmul : float64 → float64 → float64 := SFmul 53 1024.
Definition fdiv : float64 → float64 → float64 := SFdiv 53 1024.
Definition fneg : float64 → float64 := SFopp.
Definition flt : float64 → float64 → bool := SFltb.
Definition fle : float64 → float64 → bool := SFleb.
Definition feq : float64 → float64 → bool := SFeqb.

(** The conversion of an int64. *)
Definition float64_of (n : Z) : float64 := binary_normalize 53 1024 n 0 false.
Definition fzero : float64 := float64_of 0.

(** A conversion to int64 drops the fraction.  What it gives when that does
    not fit is up to the implementation of Go. *)
Class Conversion := { out_of_range : float64 → Z }.

Definition truncate (f : float64) : option Z :=
  match f with
  | S754_zero _ => Some 0
  | S754_finite s m e =>
      let n := if 0 <=? e then Zpos m * 2 ^ e else Zpos m / 2 ^ (- e) in
      Some (if s then - n else n)
  | S754_infinity _ | S754_nan => None
  end.

Definition int64_of `{Conversion} (f : float64) : Z :=
  match truncate f with
  | Some n => if (- 2 ^ 63 <=? n) && (n <? 2 ^ 63) then n else out_of_range f
  | None => out_of_range f
  end.

(** ** time *)

(** Time.Sub saturates. *)
Definition Sub (t u : Time) : Duration := Z.max (- 2 ^ 63) (Z.min (2 ^ 63 - 1) (t - u)).

Definition Seconds (d : Duration) : float64 :=
  fadd (float64_of (Z.quot d Second)) (fdiv (float64_of (Z.rem d Second)) (float64_of Second)).

(** ** rate.go *)

Abbreviation Limit := float64.

(** math.MaxFloat64 *)
Definition Inf : Limit := S754_finite false (2 ^ 53 - 1) 971.

Record Limiter := {
  limit : Limit;
  burst : Z;
  tokens : float64;
  last : Time;
  lastEvent : Time;
}.

Record Reservation := {
  ok : bool;
  r_tokens : Z;
  timeToAct : Time;
  r_limit : Limit;
}.

Definition InfDuration : Duration := 2 ^ 63 - 1.

Definition NewLimiter (r : Limit) (b : Z) : Limiter :=
  {| limit := r; burst := b; tokens := fzero; last := v1alpha1.zero_time; lastEvent := v1alpha1.zero_time |}.

Definition Every (interval : Duration) : Limit :=
  if interval <=? 0 then Inf else fdiv (float64_of 1) (Seconds interval).

Section limiter.
Context `{Conversion}.

Definition durationFromTokens (l : Limit) (tokens : float64) : Duration :=
  if fle l fzero then InfDuration
  else
    let seconds := fdiv tokens l in
    int64_of (fmul (float64_of Second) seconds).

Definition tokensFromDuration (l : Limit) (d : Duration) : float64 :=
  if fle l fzero then fzero else fmul (Seconds d) l.

Definition advance (now : Time) (lim : Limiter) : Time * Time * float64 :=
  let last := if now <? last lim then now else last lim in
  let elapsed := Sub now last in
  let delta := tokensFromDuration (limit lim) elapsed in
  let tokens := fadd (tokens lim) delta in
  let burst := float64_of (burst lim) in
  (now, last, if flt burst tokens then burst else tokens).

Definition with_burst (b : Z) (lim : Limiter) : Limiter :=
  {| limit := limit lim; burst := b; tokens := tokens lim; last := last lim; lastEvent := lastEvent lim |}.

Definition reserveN (now : Time) (n : Z) (maxFutureReserve : Duration) (lim : Limiter) : Reservation * Limiter :=
  if feq (limit lim) Inf then ({| ok := true; r_tokens := n; timeToAct := now; r_limit := fzero |}, lim)
  else if feq (limit lim) fzero then
    let ok := n <=? burst lim in
    let lim := if ok then with_burst (burst lim - n) lim else lim in
    ({| ok := ok; r_tokens := burst lim; timeToAct := now; r_limit := fzero |}, lim)
  else
    let '(now, last, tokens') := advance now lim in
    let tokens' := fsub tokens' (float64_of n) in
    let waitDuration := if flt tokens' fzero then durationFromTokens (limit lim) (fneg tokens') else 0 in
    let ok := (n <=? burst lim) && (waitDuration <=? maxFutureReserve) in
    if ok then
      ({| ok := true; r_tokens := n; timeToAct := now + waitDuration; r_limit := limit lim |},
       {| limit := limit lim; burst := burst lim; tokens := tokens'; last := now;
          lastEvent := now + waitDuration |})
    else
      ({| ok := false; r_tokens := 0; timeToAct := v1alpha1.zero_time; r_limit := limit lim |},
       {| limit := limit lim; burst := burst lim; tokens := tokens lim; last := last;
          lastEvent := lastEvent lim |}).

Definition ReserveN (now : Time) (n : Z) : Limiter → Reservation * Limiter := reserveN now n InfDuration.

Definition AllowN (now : Time) (n : Z) (lim : Limiter) : bool * Limiter :=
  let '(r, lim) := reserveN now n 0 lim in (ok r, lim).

Definition DelayFrom (now : Time) (r : Reservation) : Duration :=
  if negb (ok r) then InfDuration
  else let delay := Sub (timeToAct r) now in if delay <? 0 then 0 else delay.

Definition CancelAt (now : Time) (r : Reservation) (lim : Limiter) : Limiter :=
  if negb (ok r) then lim
  else if feq (limit lim) Inf || (r_tokens r =? 0) || (timeToAct r <? now) then lim
  else
    let restoreTokens :=
      fsub (float64_of (r_tokens r)) (tokensFromDuration (r_limit r) (Sub (lastEvent lim) (timeToAct r))) in
    if fle restoreTokens fzero then lim
    else
      let '(now, _, tokens) := advance now lim in
      let tokens := fadd tokens restoreTokens in
      let burst' := float64_of (burst lim) in
      let tokens := if flt burst' tokens then burst' else tokens in
      let prevEvent := timeToAct r + durationFromTokens (r_limit r) (float64_of (- r_tokens r)) in
      {| limit := limit lim; burst := burst lim; tokens := tokens; last := now;
         lastEvent := if (timeToAct r =? lastEvent lim) && negb (prevEvent <? now)
                      then prevEvent else lastEvent lim |}.

(** WaitN up to the timer: an error, or how long to wait and the reservation
    to cancel when the context ends first. *)
Definition WaitN (now : Time) (cancelled : option error) (deadline : option Time) (n : Z) (lim : Limiter) :
    (error + Duration * Reservation) * Limiter :=
  if (burst lim <? n) && negb (feq (limit lim) Inf)
  then (inl (Errorf ("rate: Wait(n=" +:+ pretty n +:+ ") exceeds limiter's burst " +:+ pretty (burst lim))), lim)
  else match cancelled with
  | Some e => (inl e, lim)
  | None =>
      let waitLimit := match deadline with Some d => Sub d now | None => InfDuration end in
      let '(r, lim) := reserveN now n waitLimit lim in
      if negb (ok r) then (inl (Errorf ("rate: Wait(n=" +:+ pretty n +:+ ") would exceed context deadline")), lim)
      else (inr (DelayFrom now r, r), lim)
  end.

(** ** default_rate_limiters.go: the overall part *)

(** BucketRateLimiter.When: Reserve() at [now], Delay() at [later]. *)
Definition BucketRateLimiter_When (now later : Time) (lim : Limiter) : Duration * Limiter :=
  let '(r, lim) := ReserveN now 1 lim in (DelayFrom later r, lim).

(** 10 events a second, 100 at once. *)
Definition DefaultBucket : Limiter := NewLimiter (float64_of 10) 100.

(** DefaultControllerRateLimiter with its two parts. *)
Definition DefaultController_When {A} `{Countable A} (now later : Time) (item : A)
    (r : exponential A) (lim : Limiter) : Duration * exponential A * Limiter :=
  let '(bucket, lim) := BucketRateLimiter_When now later lim in
  (MaxOf_When bucket item r, lim).

(** Reservations of one event each at the given times: when those that were
    granted act. *)
Fixpoint reserve_all (times : list Time) (lim : Limiter) : list Time :=
  match times with
  | [] => []
  | now :: times =>
      let '(r, lim) := ReserveN now 1 lim in
      (if ok r then [timeToAct r] else []) ++ reserve_all times lim
  end.

End limiter.

(** ** The date does not matter

    Two limiters that are alike but for a shift of time by [d]. *)
Section shift.
Context `{Conversion} (d : Time).

Record alike (lim lim' : Limiter) : Prop := {
  alike_limit : limit lim' = limit lim;
  alike_burst : burst lim' = burst lim;
  alike_tokens : tokens lim' = tokens lim;
  alike_last t : 0 <= t → (t + d <? last lim') = (t <? last lim) ∧
    ((t <? last lim) = false → Sub (t + d) (last lim') = Sub t (last lim));
}.

Lemma alike_at lim lim' t :
  limit lim' = limit lim → burst lim' = burst lim → tokens lim' = tokens lim →
  last lim = t → last lim' = t + d → alike lim lim'.
Proof.
  intros Hl Hb Ht E E'. split; [done..|]. intros u _. rewrite E, E'. split; [lia|]. intros _. unfold Sub. f_equal. lia.
Qed.

(** A new limiter has gathered tokens for as long as a duration can tell. *)
Lemma alike_new l b : 0 <= d → alike (NewLimiter l b) (NewLimiter l b).
Proof.
  intros Hd. split; [done..|]. intros t Ht. simpl. unfold Sub, v1alpha1.zero_time, Second, Millisecond. split; lia.
Qed.

Lemma reserveN_shift now n limit lim lim' :
  0 <= now → alike lim lim' →
  let '(r, next) := reserveN now n limit lim in
  let '(r', next') := reserveN (now + d) n limit lim' in
  ok r' = ok r ∧ (ok r = true → timeToAct r' = timeToAct r + d) ∧ alike next next'.
Proof.
  intros Hnow Ha. pose proof Ha as [El Eb Et Elast]. destruct (Elast now Hnow) as [Eb' Es].
  unfold reserveN, advance. rewrite El, Eb, Et.
  destruct (feq _ Inf); [done|]. destruct (feq _ fzero).
  { destruct (n <=? burst lim); [|done]. split_and!; [done..|]. destruct Ha. by split. }
  rewrite Eb'. destruct (now <? last lim) eqn:Elt.
  - assert (Sub (now + d) (now + d) = Sub now now) as -> by (unfold Sub; f_equal; lia).
    destruct (_ && _); (split_and!; [done|simpl; lia|by eapply alike_at]).
  - rewrite (Es eq_refl). destruct (_ && _); (split_and!; [done|simpl; lia|]).
    + by eapply alike_at.
    + by split.
Qed.

Lemma reserve_all_alike times lim lim' :
  Forall (Z.le 0) times → alike lim lim' →
  reserve_all (map (λ t, t + d) times) lim' = map (λ t, t + d) (reserve_all times lim).
Proof.
  intros Hall. revert lim lim'. induction Hall as [|now times Hnow _ IH]; intros lim lim' Ha; [done|]. simpl.
  pose proof (reserveN_shift now 1 InfDuration lim lim' Hnow Ha) as Hs. unfold ReserveN.
  destruct (reserveN now 1 InfDuration lim) as [r next], (reserveN (now + d) 1 InfDuration lim') as [r' next'].
  destruct Hs as (-> & Hact & Ha'). rewrite (IH _ _ Ha'). destruct (ok r); [|done]. by rewrite Hact.
Qed.
End shift.

Lemma reserve_all_shift `{Conversion} d times l b :
  0 <= d → Forall (Z.le 0) times →
  reserve_all (map (λ t, t + d) times) (NewLimiter l b) =
  map (λ t, t + d) (reserve_all times (NewLimiter l b)).
Proof. intros Hd Ht. apply reserve_all_alike; [done|]. by apply alike_new. Qed.

(** ** The default rate *)

(** 100 events at [start], and [n] more, one every [pace]. *)
Definition paced (pace start : Time) (n : nat) : list Time :=
  replicate 100 start ++ map (λ j, start + (Z.of_nat j + 1) * pace) (seq 0 n).

(** When they may act, at 10 events a second. *)
Definition due (pace start : Time) (n : nat) : list Time :=
  replicate 100 start ++ map (λ j, start + (Z.of_nat j + 1) * Z.max pace (100 * Millisecond)) (seq 0 n).

Definition within (tolerance : Z) (ts us : list Time) : Prop :=
  Forall2 (λ t u, Z.abs (t - u) <= tolerance) ts us.

#[export] Instance within_dec tolerance ts us : Decision (within tolerance ts us).
Proof. unfold within. apply _. Defined.

Lemma paced_shift pace start n : paced pace start n = map (λ t, t + start) (paced pace 0 n).
Proof.
  unfold paced. rewrite map_app, map_map. f_equal.
  apply map_ext. intros j. lia.
Qed.

Lemma within_shift tolerance start ts us :
  within tolerance ts us → within tolerance (map (λ t, t + start) ts) (map (λ t, t + start) us).
Proof. intros Hw. apply Forall2_fmap, (Forall2_impl _ _ _ _ Hw). simpl. lia. Qed.

Lemma due_shift pace start n : due pace start n = map (λ t, t + start) (due pace 0 n).
Proof.
  unfold due. rewrite map_app, map_map. f_equal.
  apply map_ext. intros j. lia.
Qed.

Lemma default_rate_at_0 `{Conversion} :
  forallb (λ p, bool_decide (within 1 (reserve_all (paced (Z.of_nat p * 20 * Millisecond) 0 200) DefaultBucket)
                                      (due (Z.of_nat p * 20 * Millisecond) 0 200))) (seq 0 11) = true.
Proof. vm_compute. reflexivity. Qed.

(** C33. The overall limiter of the work queues lets ten retries a second
    through after a burst of a hundred, in float64 arithmetic.  At any time
    since 1970, of a hundred retries at once and two hundred more, all at once
    too or at any pace up to one every 200 ms (in steps of 20 ms), none is
    refused, the hundred act at once, and each later one acts when it comes or
    100 ms after the one before it, whichever is later, give or take a
    nanosecond for all the rounding. *)
Theorem default_bucket_rate `{Conversion} start p :
  0 <= start → (p <= 10)%nat →
  let pace := Z.of_nat p * 20 * Millisecond in
  within 1 (reserve_all (paced pace start 200) DefaultBucket) (due pace start 200).
Proof.
  intros Hs Hp pace. unfold DefaultBucket. rewrite paced_shift, due_shift, reserve_all_shift; [|done|].
  - apply within_shift. pose proof default_rate_at_0 as Hall. rewrite forallb_forall in Hall.
    apply (bool_decide_eq_true_1 _ (Hall p (proj2 (in_seq 11 0 p) (conj (Nat.le_0_l p) (le_n_S p 10 Hp))))).
  - apply Forall_app. split; [by apply Forall_replicate|]. apply Forall_map, Forall_forall. intros j _.
    unfold pace, Millisecond. lia.
Qed.

(** ** Conversions that do not fit *)

(** What amd64 gives. *)
#[local] Instance amd64 : Conversion := {| out_of_range := λ _, - 2 ^ 63 |}.

(** 150 retries at once in 2023: the last one is 5 seconds late. *)
Lemma default_bucket_rate_witness :
  let start := 1700000000 * Second in
  within 1 (reserve_all (paced 0 start 200) DefaultBucket) (due 0 start 200) ∧
  reserve_all (replicate 150 start) DefaultBucket !! 149%nat = Some (start + 5 * Second).
Proof.
  split; [|vm_compute; reflexivity].
  exact (default_bucket_rate (1700000000 * Second) 0 ltac:(discriminate) ltac:(lia)).
Defined.

(** At one event in 10^10 seconds the second event of a burst of one would
    have to wait longer than an int64 of nanoseconds can say.  The conversion
    of the wait overflows, and the event is granted, 292 years before it was
    asked for. *)
Lemma small_rate_overflows :
  reserve_all [0; 0] (NewLimiter (fdiv (float64_of 1) (float64_of (10 ^ 10))) 1) !! 1%nat = Some (- 2 ^ 63).
Proof. vm_compute. reflexivity. Qed.
