(* ===== verification/TriggerLoop.v ===== *)
(** * The event loop of the migration trigger: src/pkg/trigger/controller.go

    The informer's goroutine calls the handlers, the goroutine of dequeue moves
    items from the work queue to an unbuffered channel, the delaying queue adds
    items back when their time has come, and Run serialises discovery and the
    work.  [step] interleaves them; other clients may change the cluster
    between any two steps.  A queueItem is allocated per event, and the queue
    compares the pointers: a pointer is an index into [heap]. *)
From S2P Require Export TriggerProps Workqueue.

Local Open Scope Z_scope.
Import v1alpha1.

Definition ptr := nat.

(** Where the goroutine of dequeue is. *)
Inductive getter := NotStarted | Fetching | Sending (p : ptr) | Quit_.

(** Where Run is: waiting for the cache, in the first discovery, in the select
    of its loop, in processQueue, or back.  [deferred] are the calls
    mt.queue.Done(w) that its [defer] statements have stacked, the last one
    first. *)
Inductive runner :=
  | Syncing
  | Starting
  | Running (deferred : list ptr)
  | Processing (w : ptr) (deferred : list ptr)
  | Returned.

Record MigrationTrigger (C : Type) := {
  world : World C;
  heartbeat : Time;
  heap : list queueItem;
  mt_queue : delaying ptr;
  limiter : exponential ptr;
  work : getter;
  run : runner;
  processed : list (ptr * option error);  (* what processQueue returned, in order *)
}.
Arguments world {C} m : rename.
Arguments heartbeat {C} m : rename.
Arguments heap {C} m : rename.
Arguments mt_queue {C} m : rename.
Arguments limiter {C} m : rename.
Arguments work {C} m : rename.
Arguments run {C} m : rename.
Arguments processed {C} m : rename.

Section loop.
Context {C : Type} `{Runtime C} `{StorageVersionMigrationInterface C} `{StorageStateInterface C}
  `{MigrationIndexer C} `{DiscoveryInterface C}.
Implicit Types s : MigrationTrigger C.

Definition NewMigrationTrigger (w : World C) : MigrationTrigger C :=
  {| world := w; heartbeat := 0; heap := []; mt_queue := newDelayingQueue;
     limiter := DefaultControllerRateLimiter; work := NotStarted; run := Syncing; processed := [] |}.

Definition with_world (w : World C) s : MigrationTrigger C :=
  {| world := w; heartbeat := heartbeat s; heap := heap s; mt_queue := mt_queue s;
     limiter := limiter s; work := work s; run := run s; processed := processed s |}.

Definition with_queue (d : delaying ptr) s : MigrationTrigger C :=
  {| world := world s; heartbeat := heartbeat s; heap := heap s; mt_queue := d;
     limiter := limiter s; work := work s; run := run s; processed := processed s |}.

Definition with_work (g : getter) s : MigrationTrigger C :=
  {| world := world s; heartbeat := heartbeat s; heap := heap s; mt_queue := mt_queue s;
     limiter := limiter s; work := g; run := run s; processed := processed s |}.

Definition with_run (r : runner) s : MigrationTrigger C :=
  {| world := world s; heartbeat := heartbeat s; heap := heap s; mt_queue := mt_queue s;
     limiter := limiter s; work := work s; run := r; processed := processed s |}.

Definition with_heartbeat (hb : Time) (w : World C) s : MigrationTrigger C :=
  {| world := w; heartbeat := hb; heap := heap s; mt_queue := mt_queue s;
     limiter := limiter s; work := work s; run := run s; processed := processed s |}.

Definition report (e : error) s : MigrationTrigger C :=
  with_world (add_events [Handled e] (ext (world s)) (world s)) s.

(** ** The handlers *)

Definition enqueueResource (migration : StorageVersionMigration) s : MigrationTrigger C :=
  let it := {| qi_namespace := metav1.Namespace (svm_Meta migration);
               qi_name := svm_Name migration;
               qi_resource := Spec_Resource (svm_Spec migration) |} in
  {| world := world s; heartbeat := heartbeat s; heap := heap s ++ [it];
     mt_queue := with_inner (Add (length (heap s)) (inner (mt_queue s))) (mt_queue s);
     limiter := limiter s; work := work s; run := run s; processed := processed s |}.

Definition addResource (obj : any) s : MigrationTrigger C :=
  match obj with
  | AnyMigration m => enqueueResource m s
  | _ => report (Errorf ("expected StorageVersionMigration, got " +:+ reflect_TypeOf obj)) s
  end.

Definition updateResource (oldObj obj : any) s : MigrationTrigger C := addResource obj s.

Definition deleteResource (obj : any) s : MigrationTrigger C :=
  match obj with
  | AnyMigration m => enqueueResource m s
  | AnyTombstone _ (AnyMigration m) => enqueueResource m s
  | AnyTombstone _ _ =>
      report (Errorf ("tombstone contained object that is not a StorageVersionMigration "
                        +:+ reflect_TypeOf obj)) s
  | _ => report (Errorf ("couldn't get object from tombstone " +:+ reflect_TypeOf obj)) s
  end.

(** ** Run *)

(** The %v rendering of a pointer to a queueItem. *)
Definition queueItem_string (it : queueItem) : string :=
  "&{" +:+ qi_namespace it +:+ " " +:+ qi_name it +:+ " {" +:+ Group (qi_resource it) +:+ " "
  +:+ Version (qi_resource it) +:+ " " +:+ Resource (qi_resource it) +:+ "}}".

(** The rest of the loop's body once [w] is received and its Done deferred:
    process, and Forget or AddRateLimited.  None while processQueue or the send
    of AddAfter has no result. *)
Definition process_work (now : Time) (bucket : Duration) (w : ptr) (it : queueItem)
    (deferred : list ptr) s : option (MigrationTrigger C) :=
  '(err, w') ← processQueue (WorkItem it) (world s);
  match err with
  | None =>
      Some {| world := w'; heartbeat := heartbeat s; heap := heap s; mt_queue := mt_queue s;
              limiter := Forget w (limiter s); work := work s; run := Running deferred;
              processed := processed s ++ [(w, None)] |}
  | Some e =>
      let e' := Errorf ("failed to process " +:+ queueItem_string it +:+ ": " +:+ Error e) in
      '(d, r) ← AddRateLimited now bucket w (mt_queue s) (limiter s);
      Some {| world := add_events [Handled e'] (ext w') w'; heartbeat := heartbeat s; heap := heap s;
              mt_queue := d; limiter := r; work := work s; run := Running deferred;
              processed := processed s ++ [(w, Some e)] |}
  end.

(** What Run does when it returns: the deferred calls, last one first. *)
Definition run_deferred (deferred : list ptr) (d : delaying ptr) : delaying ptr :=
  with_inner (foldl (λ q p, Done p q) (inner d) deferred) d.

Inductive step : MigrationTrigger C → MigrationTrigger C → Prop :=
  (* other clients of the cluster *)
  | step_cluster c s : step s (with_world (add_events [] c (world s)) s)
  (* the informer *)
  | step_add obj s : step s (addResource obj s)
  | step_update oldObj obj s : step s (updateResource oldObj obj s)
  | step_delete obj s : step s (deleteResource obj s)
  (* the delaying queue *)
  | step_receive now d s :
      receive now (mt_queue s) = Some d → step s (with_queue d s)
  | step_fire now p d s :
      fire now p (mt_queue s) = Some d → step s (with_queue d s)
  (* the goroutine of dequeue *)
  | step_get p q s :
      work s = Fetching → Get (inner (mt_queue s)) = Got p q →
      step s (with_work (Sending p) (with_queue (with_inner q (mt_queue s)) s))
  | step_quit s :
      work s = Fetching → Get (inner (mt_queue s)) = ShutDownResult → step s (with_work Quit_ s)
  (* Run *)
  | step_not_synced s :
      run s = Syncing → step s (with_run Returned (report (Errorf "Unable to sync caches") s))
  | step_synced s :
      run s = Syncing → step s (with_run Starting (with_work Fetching s))
  | step_first_discovery hb w s :
      run s = Starting → processDiscovery (world s) = Some (hb, w) →
      step s (with_run (Running []) (with_heartbeat hb w s))
  | step_tick deferred hb w s :
      run s = Running deferred → processDiscovery (world s) = Some (hb, w) →
      step s (with_heartbeat hb w s)
  | step_work w deferred s :
      run s = Running deferred → work s = Sending w →
      step s (with_run (Processing w (w :: deferred)) (with_work Fetching s))
  | step_processed now bucket w it deferred s s' :
      run s = Processing w deferred → heap s !! w = Some it →
      process_work now bucket w it deferred s = Some s' → step s s'
  | step_cancelled deferred s :
      run s = Running deferred →
      step s (with_run Returned (with_queue (run_deferred deferred (mt_queue s)) s)).

(** ** The invariant *)

Definition in_hand s : list ptr := match work s with Sending p => [p] | _ => [] end.
Definition in_process s : list ptr := match run s with Processing p _ => [p] | _ => [] end.
Definition held s : list ptr := in_hand s ++ in_process s ++ (processed s).*1.

Definition deferred_ok s : Prop :=
  match run s with
  | Syncing => work s = NotStarted ∧ processed s = []
  | Starting => work s ≠ NotStarted ∧ processed s = []
  | Running deferred => work s ≠ NotStarted ∧ deferred = reverse (processed s).*1
  | Processing w deferred => work s ≠ NotStarted ∧ deferred = w :: reverse (processed s).*1
  | Returned => False
  end.

(** While Run has not returned, every pointer is queued, on its way, being
    processed, or processed, once in all, and Done has been called for none. *)
Record loop_ok s : Prop := {
  lo_queue : queue_ok (inner (mt_queue s));
  lo_open : shuttingDown (inner (mt_queue s)) = false ∧ work s ≠ Quit_;
  lo_partition : q_queue (inner (mt_queue s)) ++ held s ≡ₚ seq 0 (length (heap s));
  lo_processing : ∀ p, p ∈ q_processing (inner (mt_queue s)) ↔ p ∈ held s;
  lo_dirty : ∀ p, p ∈ dirty (inner (mt_queue s)) → (p < length (heap s))%nat;
  lo_deferred : deferred_ok s;
  lo_waiting : ∀ p, is_Some (waiting (mt_queue s) !! p) ∨ p ∈ (waitingForAddCh (mt_queue s)).*1 →
    p ∈ held s;
}.

Definition loop_inv s : Prop := loop_ok s ∨ (run s = Returned ∧ NoDup (processed s).*1).

Lemma loop_ok_NoDup s : loop_ok s → NoDup (held s).
Proof.
  intros Hok. assert (NoDup (q_queue (inner (mt_queue s)) ++ held s)) as Hnd.
  { rewrite (lo_partition _ Hok). apply NoDup_seq. }
  by apply NoDup_app in Hnd as (_ & _ & ?).
Qed.

Lemma loop_ok_held s p : loop_ok s → p ∈ held s → (p < length (heap s))%nat.
Proof.
  intros Hok Hp. assert (p ∈ seq 0 (length (heap s))) as Hs.
  { rewrite <- (lo_partition _ Hok). set_solver. }
  apply elem_of_seq in Hs. lia.
Qed.

Lemma loop_ok_new w : loop_ok (NewMigrationTrigger w).
Proof.
  split; simpl; try done; [apply queue_ok_new|set_solver|].
  intros p [[? Hp]|Hp]; [by rewrite lookup_empty in Hp|set_solver].
Qed.

Lemma loop_ok_with_world w s : loop_ok s → loop_ok (with_world w s).
Proof. by intros []. Qed.

Lemma Add_new (q : queue ptr) p :
  shuttingDown q = false → p ∉ dirty q → p ∉ q_processing q →
  Add p q = {| q_queue := q_queue q ++ [p]; dirty := {[p]} ∪ dirty q; q_processing := q_processing q;
               shuttingDown := shuttingDown q; drain := drain q |}.
Proof.
  intros Hs Hd Hp. unfold Add. rewrite Hs, !bool_decide_eq_false_2 by done. done.
Qed.

(** Adding an item that is being processed only marks it. *)
Lemma Add_held (q : queue ptr) p :
  p ∈ q_processing q → q_queue (Add p q) = q_queue q.
Proof.
  intros Hp. unfold Add. destruct (shuttingDown q); [done|]. case_bool_decide; [done|]. simpl.
  by rewrite bool_decide_eq_true_2.
Qed.

Lemma Add_shuttingDown (q : queue ptr) p : shuttingDown (Add p q) = shuttingDown q.
Proof. unfold Add. destruct (shuttingDown q) eqn:E; [done|]. by case_bool_decide. Qed.

Lemma Add_dirty_inv (q : queue ptr) p x : x ∈ dirty (Add p q) → x = p ∨ x ∈ dirty q.
Proof.
  unfold Add. destruct (shuttingDown q); [by right|]. case_bool_decide; [by right|]. set_solver.
Qed.

Lemma loop_ok_enqueue m s : loop_ok s → loop_ok (enqueueResource m s).
Proof.
  intros Hok. destruct (lo_open _ Hok) as [Hs Hw].
  assert (length (heap s) ∉ q_processing (inner (mt_queue s))) as Hp.
  { intros Hp%(lo_processing _ Hok). apply loop_ok_held in Hp; [lia|done]. }
  assert (length (heap s) ∉ dirty (inner (mt_queue s))) as Hd.
  { intros Hd%(lo_dirty _ Hok). lia. }
  split; unfold enqueueResource; simpl; try rewrite Add_new by done; simpl.
  - rewrite <- Add_new by done. apply queue_ok_Add, Hok.
  - done.
  - rewrite length_app, Nat.add_1_r, seq_S, <- (lo_partition _ Hok), <- app_assoc. simpl.
    etrans; [symmetry; apply Permutation_middle|apply Permutation_cons_append].
  - apply Hok.
  - intros p. rewrite length_app. simpl. intros [->%elem_of_singleton|Hp'%(lo_dirty _ Hok)]%elem_of_union; lia.
  - apply Hok.
  - apply Hok.
Qed.

Lemma loop_ok_add obj s : loop_ok s → loop_ok (addResource obj s).
Proof. intros Hok. destruct obj; [by apply loop_ok_enqueue|by apply loop_ok_with_world..]. Qed.

Lemma loop_ok_delete obj s : loop_ok s → loop_ok (deleteResource obj s).
Proof.
  intros Hok. destruct obj as [|key []| |];
    try (by apply loop_ok_enqueue); by apply loop_ok_with_world.
Qed.

(** Adding back an item that is held changes nothing but its mark. *)
Lemma loop_ok_add_held p s ch wt :
  loop_ok s → p ∈ held s →
  (∀ x, is_Some (wt !! x) ∨ x ∈ ch.*1 → x ∈ held s) →
  loop_ok (with_queue {| inner := Add p (inner (mt_queue s)); waitingForAddCh := ch; waiting := wt |} s).
Proof.
  intros Hok Hp Hw. assert (p ∈ q_processing (inner (mt_queue s))) as Hpp by by apply lo_processing.
  split; simpl.
  - apply queue_ok_Add, Hok.
  - rewrite Add_shuttingDown. apply Hok.
  - rewrite Add_held by done. apply Hok.
  - rewrite Add_processing. apply Hok.
  - intros x [->|Hx]%Add_dirty_inv; [by apply loop_ok_held|by apply Hok].
  - apply Hok.
  - apply Hw.
Qed.

Lemma loop_ok_waits s ch wt :
  loop_ok s → (∀ x, is_Some (wt !! x) ∨ x ∈ ch.*1 → x ∈ held s) →
  loop_ok (with_queue {| inner := inner (mt_queue s); waitingForAddCh := ch; waiting := wt |} s).
Proof. intros [] Hw. by split. Qed.

Lemma insert_dom (p : ptr) t wt x : is_Some (insert p t wt !! x) → x = p ∨ is_Some (wt !! x).
Proof.
  unfold insert. destruct (wt !! p); [case_match|]; try (by right);
    (intros [->|[_ ?]]%lookup_insert_is_Some; [by left|by right]).
Qed.

Lemma loop_ok_receive now d s : loop_ok s → receive now (mt_queue s) = Some d → loop_ok (with_queue d s).
Proof.
  intros Hok. pose proof (lo_waiting _ Hok) as Hw. revert Hw. unfold receive.
  destruct (waitingForAddCh (mt_queue s)) as [|[p t] rest]; [done|]. simpl. intros Hw [= <-].
  assert (p ∈ held s) as Hp by (apply Hw; set_solver).
  destruct (now <? t).
  - apply loop_ok_waits; [done|]. intros x [[->|Hx]%insert_dom|Hx]; [done| |]; apply Hw; set_solver.
  - apply loop_ok_add_held; [done..|]. intros x [Hx|Hx]; apply Hw; set_solver.
Qed.

Lemma loop_ok_fire now p d s : loop_ok s → fire now p (mt_queue s) = Some d → loop_ok (with_queue d s).
Proof.
  intros Hok. pose proof (lo_waiting _ Hok) as Hw. unfold fire.
  destruct (waiting (mt_queue s) !! p) as [t|] eqn:E; [|done].
  destruct (now <? t); [done|]. intros [= <-].
  apply loop_ok_add_held; [done|apply Hw; left; by eexists|].
  intros x [[_ Hx]%lookup_delete_is_Some|Hx]; apply Hw; auto.
Qed.

Lemma loop_ok_get p q s :
  loop_ok s → work s = Fetching → Get (inner (mt_queue s)) = Got p q →
  loop_ok (with_work (Sending p) (with_queue (with_inner q (mt_queue s)) s)).
Proof.
  intros Hok Hw HG. destruct (queue_ok_Get _ _ _ (lo_queue _ Hok) HG) as (Hq & _).
  pose proof (lo_partition _ Hok) as HP. pose proof (lo_processing _ Hok) as Hpr.
  pose proof (lo_deferred _ Hok) as Hd. destruct (lo_open _ Hok) as [Hs _].
  revert HG HP. unfold Get. destruct (q_queue (inner (mt_queue s))) as [|x rest] eqn:E;
    [by rewrite Hs|]. intros [= -> <-] HP.
  assert (held (with_work (Sending p) s) = p :: held s) as Hheld.
  { unfold held, in_hand. simpl. by rewrite Hw. }
  split; simpl.
  - done.
  - done.
  - change (held _) with (held (with_work (Sending p) s)). rewrite Hheld, <- HP.
    symmetry. apply Permutation_middle.
  - intros y. change (held _) with (held (with_work (Sending p) s)). rewrite Hheld.
    rewrite elem_of_union, Hpr. set_solver.
  - intros y Hy. apply (lo_dirty _ Hok). set_solver.
  - revert Hd. unfold deferred_ok. simpl. rewrite Hw. destruct (run s); (intros [] || intros [[]]); by split.
  - intros y Hy%(lo_waiting _ Hok). change (held _) with (held (with_work (Sending p) s)).
    rewrite Hheld. set_solver.
Qed.

(** Moving on in Run: what is held stays held. *)
Lemma loop_ok_run s s' :
  loop_ok s → heap s' = heap s → mt_queue s' = mt_queue s → held s' ≡ₚ held s →
  work s' ≠ Quit_ → deferred_ok s' → loop_ok s'.
Proof.
  intros [] Hh Hq Hheld Hwk Hd. split; rewrite ?Hh, ?Hq; try done.
  - naive_solver.
  - by rewrite Hheld.
  - intros p. by rewrite Hheld.
  - intros p Hp. rewrite Hheld. auto.
Qed.

Lemma AddRateLimited_cases now bucket p (d : delaying ptr) l d' l' :
  AddRateLimited now bucket p d l = Some (d', l') →
  d' = d ∨ d' = with_inner (Add p (inner d)) d ∨
  ∃ t, d' = {| inner := inner d; waitingForAddCh := waitingForAddCh d ++ [(p, t)]; waiting := waiting d |}.
Proof.
  unfold AddRateLimited. destruct (MaxOf_When bucket p l) as [dur r].
  intros (d2 & Hadd & [= -> ->])%option.bind_Some. revert Hadd. unfold AddAfter.
  destruct (shuttingDown (inner d)); [intros [= <-]; auto|].
  destruct (dur <=? 0); [intros [= <-]; auto|].
  destruct (_ <? _)%nat; [|done]. intros [= <-]. eauto.
Qed.

Lemma process_work_inv now bucket p it deferred s s' :
  process_work now bucket p it deferred s = Some s' →
  ∃ err, processed s' = processed s ++ [(p, err)] ∧ run s' = Running deferred ∧ work s' = work s ∧
    heap s' = heap s ∧
    (mt_queue s' = mt_queue s ∨ mt_queue s' = with_inner (Add p (inner (mt_queue s))) (mt_queue s) ∨
     ∃ t, mt_queue s' = {| inner := inner (mt_queue s);
       waitingForAddCh := waitingForAddCh (mt_queue s) ++ [(p, t)]; waiting := waiting (mt_queue s) |}).
Proof.
  unfold process_work. intros ([err w'] & _ & Hs)%option.bind_Some. exists err. destruct err as [e|].
  - apply option.bind_Some in Hs as ([d l] & Hadd%AddRateLimited_cases & [= <-]). simpl. eauto.
  - injection Hs as <-. simpl. eauto 10.
Qed.

Lemma loop_ok_processed now bucket p it deferred s s' :
  loop_ok s → run s = Processing p deferred →
  process_work now bucket p it deferred s = Some s' → loop_ok s'.
Proof.
  intros Hok Hr (err & Hpr & Hr' & Hw & Hh & Hq)%process_work_inv.
  set (s1 := with_queue (mt_queue s') s).
  assert (p ∈ held s) as Hp by (unfold held, in_process; rewrite Hr; set_solver).
  assert (loop_ok s1) as Hok1.
  { unfold s1. destruct Hq as [->|[->|[t ->]]].
    - by destruct Hok.
    - apply loop_ok_add_held; [done..|apply Hok].
    - apply loop_ok_waits; [done|]. intros x. rewrite fmap_app, elem_of_app. simpl.
      intros [Hx|[Hx|Hx%list_elem_of_singleton]]; [apply (lo_waiting _ Hok); auto..|by subst]. }
  pose proof (lo_deferred _ Hok) as Hd. unfold deferred_ok in Hd. rewrite Hr in Hd. destruct Hd as [Hns ->].
  apply (loop_ok_run s1); [done|by rewrite Hh|done| |rewrite Hw; apply Hok1|].
  - unfold held, in_hand, in_process. simpl. rewrite Hr, Hr', Hw, Hpr, fmap_app. simpl.
    by rewrite <- Permutation_cons_append.
  - unfold deferred_ok. rewrite Hr', Hw, Hpr, fmap_app, reverse_app. done.
Qed.

Lemma loop_inv_step s s' : step s s' → loop_inv s → loop_inv s'.
Proof.
  intros Hst [Hok|[Hr Hnd]].
  - pose proof (loop_ok_NoDup _ Hok) as Hnd. pose proof (lo_deferred _ Hok) as Hd.
    pose proof (lo_open _ Hok) as [Hs Hq].
    destruct Hst as [c s|obj s|old obj s|obj s|now d s Hrc|now p d s Hf|p q s Hw HG|s Hw HG|s Hr|s Hr
      |hb w s Hr Hdis|df hb w s Hr Hdis|w df s Hr Hw|now b w it df s s' Hr Hit HP|df s Hr];
      unfold deferred_ok in Hd; try rewrite Hr in Hd.
    + left. by apply loop_ok_with_world.
    + left. by apply loop_ok_add.
    + left. by apply loop_ok_add.
    + left. by apply loop_ok_delete.
    + left. by eapply loop_ok_receive.
    + left. by eapply loop_ok_fire.
    + left. by apply loop_ok_get.
    + exfalso. revert HG. unfold Get. rewrite Hs. destruct (q_queue (inner (mt_queue s))); discriminate.
    + right. split; [done|]. simpl. destruct Hd as [_ ->]. constructor.
    + left. destruct Hd as [Hw Hp]. apply (loop_ok_run s); try done.
      unfold held, in_hand, in_process. simpl. by rewrite Hw, Hr.
    + left. destruct Hd as [Hw Hp]. apply (loop_ok_run s); try done.
      * unfold held, in_process. simpl. by rewrite Hr.
      * unfold deferred_ok. simpl. by rewrite Hp.
    + left. apply (loop_ok_run s); try done. unfold deferred_ok. simpl. by rewrite Hr.
    + left. destruct Hd as [_ ->]. apply (loop_ok_run s); try done.
      unfold held, in_hand, in_process. simpl. by rewrite Hr, Hw.
    + left. by eapply loop_ok_processed.
    + right. split; [done|]. unfold held in Hnd. apply NoDup_app in Hnd as (_ & _ & Hnd).
      by apply NoDup_app in Hnd as (_ & _ & Hnd).
  - right. destruct Hst; simpl; try congruence; try done; try (by destruct obj as [|? []| |]).
Qed.

Lemma loop_inv_steps s s' : rtc step s s' → loop_inv s → loop_inv s'.
Proof. induction 1; eauto using loop_inv_step. Qed.

Lemma loop_inv_reachable w s : rtc step (NewMigrationTrigger w) s → loop_inv s.
Proof. intros Hr. eapply loop_inv_steps; [done|]. left. apply loop_ok_new. Qed.

(** ** Progress *)

Lemma processQueue_returns it (w : World C) : is_Some (processQueue (WorkItem it) w).
Proof.
  apply (wp_total _ (λ _ _, True)). unfold processQueue, get_migration. do 2 wp_step.
  destruct (svm_Get (qi_name it) (ext w)) as [[m|e] s1]; simpl.
  - unfold processMigration. destruct (HasCondition m MigrationSucceeded).
    + eapply wp_conseq; [apply markStorageStateSucceeded_run|]. done.
    + by case_match; apply wp_ret.
  - by case_match; apply wp_ret.
Qed.

(** What a run of the loop keeps while it only works on what there is. *)
Record same_items s s' : Prop := {
  si_heap : heap s' = heap s;
  si_queue : q_queue (inner (mt_queue s')) = q_queue (inner (mt_queue s));
  si_shut : shuttingDown (inner (mt_queue s')) = shuttingDown (inner (mt_queue s));
  si_work : work s' = work s;
  si_run : run s' = run s;
  si_processed : processed s' = processed s;
}.

(** The waiting loop can always empty the channel. *)
Lemma drain_channel s :
  ∃ s', rtc step s s' ∧ same_items s s' ∧ waitingForAddCh (mt_queue s') = [].
Proof.
  remember (waitingForAddCh (mt_queue s)) as ch eqn:E. revert s E.
  induction ch as [|[p t] ch IH]; intros s E; [by exists s|].
  set (d := {| inner := inner (mt_queue s); waitingForAddCh := ch;
               waiting := insert p t (waiting (mt_queue s)) |}).
  destruct (IH (with_queue d s)) as (s' & Hr & Hs & Hc); [done|].
  exists s'. split_and!; [|by destruct Hs|done]. eapply rtc_l; [|exact Hr].
  apply (step_receive (t - 1)). unfold receive. rewrite <- E. by destruct (Z.ltb_spec (t - 1) t); [|lia].
Qed.

(** Run gets through processQueue and back to its select. *)
Lemma finish_processing s w deferred :
  loop_ok s → run s = Processing w deferred →
  ∃ s' err, rtc step s s' ∧ run s' = Running deferred ∧ work s' = work s ∧ heap s' = heap s ∧
    q_queue (inner (mt_queue s')) = q_queue (inner (mt_queue s)) ∧
    processed s' = processed s ++ [(w, err)].
Proof.
  intros Hok Hrun. destruct (drain_channel s) as (s1 & Hr1 & [Hh Hq Hsd Hw Hr Hp] & Hch).
  assert (loop_ok s1) as Hok1.
  { destruct (loop_inv_steps _ _ Hr1 (or_introl Hok)) as [?|[Hret _]]; [done|congruence]. }
  rewrite Hrun in Hr.
  assert (w ∈ held s1) as Hheld by (unfold held, in_process; rewrite Hr; set_solver).
  destruct (lookup_lt_is_Some_2 (heap s1) w) as [it Hit]; [by apply loop_ok_held|].
  assert (∃ s2, process_work 0 (1 : Duration) w it deferred s1 = Some s2) as [s2 HP].
  { unfold process_work. destruct (processQueue_returns it (world s1)) as [[[e|] w'] ->]; simpl; [|by eexists].
    unfold AddRateLimited. destruct (MaxOf_When 1 w (limiter s1)) as [dur r]. unfold AddAfter.
    rewrite Hch. simpl. repeat case_match; by eexists. }
  destruct (process_work_inv _ _ _ _ _ _ _ HP) as (err & Hp2 & Hr2 & Hw2 & Hh2 & Hq2).
  exists s2, err. split_and!; try congruence.
  - etrans; [exact Hr1|]. apply rtc_once. by eapply step_processed.
  - rewrite <- Hq. destruct Hq2 as [->|[->|[? ->]]]; simpl; [done| |done].
    apply Add_held. by apply lo_processing.
Qed.

(** One round: the next item is taken from the queue and processed. *)
Lemma one_round s deferred :
  loop_ok s → run s = Running deferred → work s = Fetching →
  ∀ p rest, q_queue (inner (mt_queue s)) = p :: rest →
  ∃ s' err, rtc step s s' ∧ run s' = Running (p :: deferred) ∧ work s' = Fetching ∧ heap s' = heap s ∧
    q_queue (inner (mt_queue s')) = rest ∧ processed s' = processed s ++ [(p, err)].
Proof.
  intros Hok Hr Hw p rest Hq. destruct (Get (inner (mt_queue s))) as [| |x q] eqn:HG;
    try (unfold Get in HG; rewrite Hq in HG; discriminate).
  assert (x = p ∧ q_queue q = rest) as [-> Hrest].
  { unfold Get in HG. rewrite Hq in HG. by injection HG as <- <-. }
  set (s1 := with_work (Sending p) (with_queue (with_inner q (mt_queue s)) s)).
  set (s2 := with_run (Processing p (p :: deferred)) (with_work Fetching s1)).
  assert (rtc step s s2) as Hr2.
  { eapply rtc_l; [by apply step_get|]. by apply rtc_once, (step_work p deferred s1). }
  destruct (finish_processing s2 p (p :: deferred)) as (s3 & err & Hr3 & ? & ? & ? & ? & ?); [|done|].
  { destruct (loop_inv_steps _ _ Hr2 (or_introl Hok)) as [?|[? _]]; done. }
  exists s3, err. split_and!; try done; [by etrans|]. by rewrite <- Hrest.
Qed.

Lemma drain_queue n s deferred :
  loop_ok s → run s = Running deferred → work s = Fetching →
  length (q_queue (inner (mt_queue s))) = n →
  ∃ s' deferred', rtc step s s' ∧ run s' = Running deferred' ∧ work s' = Fetching ∧ heap s' = heap s ∧
    q_queue (inner (mt_queue s')) = [].
Proof.
  revert s deferred. induction n as [|n IH]; intros s deferred Hok Hr Hw Hn.
  { exists s, deferred. split_and!; try done. by apply nil_length_inv. }
  destruct (q_queue (inner (mt_queue s))) as [|p rest] eqn:Hq; [done|].
  destruct (one_round s deferred Hok Hr Hw p rest Hq) as (s1 & err & Hr1 & Hrun & Hw1 & Hh & Hq1 & _).
  destruct (IH s1 (p :: deferred)) as (s2 & df & Hr2 & ? & ? & ? & ?);
    [|done|done|by rewrite Hq1; injection Hn|].
  { destruct (loop_inv_steps _ _ Hr1 (or_introl Hok)) as [?|[? _]]; [done|congruence]. }
  exists s2, df. split_and!; try done; [by etrans|congruence].
Qed.

(** Run finishes what it and the dequeue goroutine have in hand. *)
Lemma settle s :
  loop_ok s → (∃ deferred, run s = Running deferred) ∨ (∃ w deferred, run s = Processing w deferred) →
  ∃ s' deferred, rtc step s s' ∧ loop_ok s' ∧ run s' = Running deferred ∧ work s' = Fetching ∧
    heap s' = heap s.
Proof.
  intros Hok Hrun.
  assert (∃ s1 df, rtc step s s1 ∧ run s1 = Running df ∧ heap s1 = heap s) as (s1 & df & Hr1 & Hrun1 & Hh1).
  { destruct Hrun as [[df Hr]|(w & df & Hr)]; [by exists s, df|].
    destruct (finish_processing s w df Hok Hr) as (s1 & err & ? & ? & _ & ? & _). by exists s1, df. }
  assert (loop_ok s1) as Hok1.
  { destruct (loop_inv_steps _ _ Hr1 (or_introl Hok)) as [?|[? _]]; [done|congruence]. }
  destruct (work s1) as [| |p|] eqn:Hw.
  - pose proof (lo_deferred _ Hok1) as Hd. unfold deferred_ok in Hd. rewrite Hrun1 in Hd. by destruct Hd.
  - by exists s1, df.
  - set (s2 := with_run (Processing p (p :: df)) (with_work Fetching s1)).
    assert (step s1 s2) as Hs2 by by apply step_work.
    assert (loop_ok s2) as Hok2 by by destruct (loop_inv_step _ _ Hs2 (or_introl Hok1)) as [?|[? _]].
    destruct (finish_processing s2 p (p :: df) Hok2) as (s3 & err & Hr3 & Hrun3 & Hw3 & Hh3 & _); [done|].
    exists s3, (p :: df). split_and!; [|  |done|done|by rewrite Hh3].
    + etrans; [exact Hr1|]. by eapply rtc_l.
    + destruct (loop_inv_steps _ _ Hr3 (or_introl Hok2)) as [?|[? _]]; [done|congruence].
  - by destruct (lo_open _ Hok1).
Qed.

Lemma processed_step s s' : step s s' → ∃ l, processed s' = processed s ++ l.
Proof.
  assert (∀ l : list (ptr * option error), ∃ l', l = l ++ l') as Hrefl by (intros l; exists []; by rewrite app_nil_r).
  destruct 1 as [|obj s|old obj s|obj s| | | | | | | | | |now b w it df s s' _ _ HP|]; simpl; try apply Hrefl.
  - destruct obj; apply Hrefl.
  - destruct obj; apply Hrefl.
  - destruct obj as [|? []| |]; apply Hrefl.
  - apply process_work_inv in HP as (err & -> & _). by eexists.
Qed.

Lemma processed_steps s s' : rtc step s s' → ∃ l, processed s' = processed s ++ l.
Proof.
  induction 1 as [s|s s1 s2 [l1 E1]%processed_step _ [l2 ->]]; [exists []; by rewrite app_nil_r|].
  exists (l1 ++ l2). by rewrite E1, app_assoc.
Qed.

Lemma loop_inv_NoDup s : loop_inv s → NoDup (processed s).*1.
Proof.
  intros [Hok%loop_ok_NoDup|[_ Hnd]]; [|done]. unfold held in Hok.
  apply NoDup_app in Hok as (_ & _ & Hok). by apply NoDup_app in Hok as (_ & _ & Hok).
Qed.

(** ** Claims *)

(** C12. No event is lost: as long as Run has not returned, every queueItem
    that a handler has created is in exactly one place - on the queue, in the
    dequeue goroutine's hand, in processQueue, or processed - and none is there
    twice; and from every state in which Run is in its loop it can go on (no
    deadlock, whatever fails) to one in which all of them are processed. *)
Theorem trigger_processes_every_event (w : World C) s :
  rtc step (NewMigrationTrigger w) s →
  (∃ deferred, run s = Running deferred) ∨ (∃ p deferred, run s = Processing p deferred) →
  q_queue (inner (mt_queue s)) ++ in_hand s ++ in_process s ++ (processed s).*1
    ≡ₚ seq 0 (length (heap s)) ∧
  ∃ s' deferred, rtc step s s' ∧ heap s' = heap s ∧ run s' = Running deferred ∧
    (processed s').*1 ≡ₚ seq 0 (length (heap s)).
Proof.
  intros Hreach%loop_inv_reachable Hrun.
  destruct Hreach as [Hok|[Hret _]]; [|destruct Hrun as [[? ?]|(? & ? & ?)]; congruence].
  split; [apply Hok|].
  destruct (settle s Hok Hrun) as (s1 & df & Hr1 & Hok1 & Hrun1 & Hw1 & Hh1).
  destruct (drain_queue _ s1 df Hok1 Hrun1 Hw1 eq_refl) as (s2 & df2 & Hr2 & Hrun2 & Hw2 & Hh2 & Hq2).
  exists s2, df2. split_and!; [by etrans|congruence|done|].
  destruct (loop_inv_steps _ _ Hr2 (or_introl Hok1)) as [Hok2|[? _]]; [|congruence].
  pose proof (lo_partition _ Hok2) as HP. unfold held, in_hand, in_process in HP.
  by rewrite Hq2, Hw2, Hrun2, Hh2, Hh1 in HP.
Qed.

(** C19. No item is processed twice - not even one that failed, for which the
    loop calls AddRateLimited: its Done runs only when Run returns, so a retry
    finds the item still in the queue's processing set and marks it dirty
    without queueing it. *)
Theorem trigger_never_retries (w : World C) s s' p err :
  rtc step (NewMigrationTrigger w) s → (p, err) ∈ processed s → rtc step s s' →
  (∃ l, processed s' = processed s ++ l ∧ p ∉ l.*1) ∧
  (run s' ≠ Returned → p ∈ q_processing (inner (mt_queue s')) ∧ p ∉ q_queue (inner (mt_queue s'))).
Proof.
  intros Hreach Hin Hrs. assert (loop_inv s') as Hinv by (eapply loop_inv_reachable; by etrans).
  destruct (processed_steps _ _ Hrs) as [l El]. assert (p ∈ (processed s).*1) as Hp.
  { apply list_elem_of_fmap. by exists (p, err). }
  split.
  - exists l. split; [done|]. pose proof (loop_inv_NoDup _ Hinv) as Hnd. rewrite El, fmap_app in Hnd.
    apply NoDup_app in Hnd as (_ & Hdis & _). by apply Hdis.
  - intros Hret. destruct Hinv as [Hok|[? _]]; [|done].
    assert (p ∈ q_processing (inner (mt_queue s'))) as Hpp.
    { apply lo_processing; [done|]. unfold held. rewrite El, fmap_app. set_solver. }
    split; [done|]. intros [_ Hno]%(ok_queue _ (lo_queue _ Hok)). done.
Qed.
End loop.

(** ** Witnesses *)

(** An event before the caches are in sync, the first discovery, and the item
    on its way through the loop. *)
Definition loop_0 : MigrationTrigger cluster := NewMigrationTrigger old_world.
Definition loop_1 := addResource (AnyMigration (pod_migration "pods-0" "" [])) loop_0.
Definition loop_2 := with_run Starting (with_work Fetching loop_1).
Definition first_discovery : Time * World cluster :=
  match processDiscovery (world loop_2) with Some r => r | None => (0, old_world) end.
Definition loop_3 := with_run (Running []) (with_heartbeat first_discovery.1 first_discovery.2 loop_2).

(** The migration succeeds, and the writes to its StorageState are refused. *)
Definition refusing : cluster :=
  set_scripts [] [] (repeat (Some forbidden) 10)
    (set_states (λ _, {["pods" := pods_state "new" ["old"; "new"] 0]})
      (with_svms [succeeded (pod_migration "pods-0" "" [])] empty_cluster)).
Definition loop_4 := with_world (add_events [] refusing (world loop_3)) loop_3.
Definition got_queue : queue ptr :=
  match Get (inner (mt_queue loop_4)) with Got _ q => q | _ => newQueue end.
Definition loop_5 := with_work (Sending 0%nat) (with_queue (with_inner got_queue (mt_queue loop_4)) loop_4).
Definition loop_6 := with_run (Processing 0%nat [0%nat]) (with_work Fetching loop_5).
Definition loop_7 : MigrationTrigger cluster :=
  match process_work 0 0 0%nat {| qi_namespace := ""; qi_name := "pods-0";
    qi_resource := Spec_Resource (svm_Spec (pod_migration "pods-0" "" [])) |} [0%nat] loop_6 with
  | Some s => s | None => loop_6 end.
(** The retry fires after its delay of 5ms: the item is dirty, and stays off
    the queue. *)
Definition retried : delaying ptr :=
  default newDelayingQueue (receive (10 * Millisecond) (mt_queue loop_7)).
Definition loop_8 := with_queue retried loop_7.

Lemma loop_3_steps : rtc step loop_0 loop_3.
Proof.
  eapply rtc_l; [apply (step_add (AnyMigration (pod_migration "pods-0" "" [])))|].
  eapply rtc_l; [by apply step_synced|].
  apply rtc_once. apply (step_first_discovery first_discovery.1 first_discovery.2); [done|].
  vm_compute. reflexivity.
Qed.

Lemma loop_7_steps : rtc step loop_3 loop_7.
Proof.
  eapply rtc_l; [apply (step_cluster refusing)|].
  eapply rtc_l; [by apply (step_get 0%nat got_queue)|].
  eapply rtc_l; [by apply (step_work 0%nat [])|]. apply rtc_once.
  eapply (step_processed 0 0 0%nat _ [0%nat]); [done|done|]. vm_compute. reflexivity.
Qed.

Lemma loop_8_steps : rtc step loop_7 loop_8.
Proof. apply rtc_once, (step_receive (10 * Millisecond)). vm_compute. reflexivity. Qed.

Lemma trigger_processes_every_event_witness :
  q_queue (inner (mt_queue loop_3)) = [0%nat] ∧
  ∃ s' deferred, rtc step loop_3 s' ∧ heap s' = heap loop_3 ∧ run s' = Running deferred ∧
    (processed s').*1 ≡ₚ [0%nat].
Proof.
  split; [reflexivity|].
  apply (trigger_processes_every_event old_world loop_3).
  - apply loop_3_steps.
  - left. by exists [].
Defined.

Lemma trigger_never_retries_witness :
  bool_decide (0%nat ∈ dirty (inner (mt_queue loop_8))) = true ∧
  (∃ l, processed loop_8 = processed loop_7 ++ l ∧ 0%nat ∉ l.*1) ∧
  (run loop_8 ≠ Returned → 0%nat ∈ q_processing (inner (mt_queue loop_8)) ∧
     0%nat ∉ q_queue (inner (mt_queue loop_8))).
Proof.
  split; [vm_compute; reflexivity|].
  apply (trigger_never_retries old_world loop_7 loop_8 0%nat (Some ErrWaitTimeout)).
  - etrans; [apply loop_3_steps|apply loop_7_steps].
  - vm_compute. left.
  - apply loop_8_steps.
Defined.
