(* ===== verification/Path.v ===== *)
(** * Slash-separated paths: Go's package path

    [Join] and [Clean], on which the REST client builds its URLs, and their
    algebra on lists of segments. *)
From S2P Require Export Prelude.

Definition sep : ascii := "/"%char.

(** strings.Split at slashes. *)
Fixpoint segments (s : string) : list string :=
  match s with
  | EmptyString => [""]
  | String a s =>
      if bool_decide (a = sep) then "" :: segments s
      else match segments s with
           | [] => [String a ""]
           | x :: l => String a x :: l
           end
  end.

(** The segments with a slash between them. *)
Fixpoint unsplit (l : list string) : string :=
  match l with
  | [] => ""
  | [x] => x
  | x :: l => x +:+ String sep (unsplit l)
  end.

(** One segment of path.Clean, on the reversed list of those kept: empty
    segments and dots go, a double dot removes the segment before it; where
    there is none it is kept in a relative path and goes in a rooted one. *)
Definition push (rooted : bool) (acc : list string) (seg : string) : list string :=
  if bool_decide (seg = "") || bool_decide (seg = ".") then acc
  else if bool_decide (seg = "..") then
    match acc with
    | [] => if rooted then [] else [".."]
    | x :: acc' => if negb rooted && bool_decide (x = "..") then ".." :: acc else acc'
    end
  else seg :: acc.

Definition Clean (path : string) : string :=
  if bool_decide (path = "") then "."
  else
    let rooted := has_prefix "/" path in
    let out := unsplit (reverse (foldl (push rooted) [] (segments path))) in
    if rooted then String sep out else if bool_decide (out = "") then "." else out.

(** The elements after the leading empty ones, with slashes between them. *)
Fixpoint join_with (buf : string) (elem : list string) : string :=
  match elem with
  | [] => buf
  | e :: elem =>
      if bool_decide (buf = "") then join_with e elem
      else join_with (buf +:+ String sep e) elem
  end.

Definition Join (elem : list string) : string :=
  if bool_decide (Forall (λ e, e = "") elem) then "" else Clean (join_with "" elem).

(** ** Splitting *)

Lemma split_cons s : ∃ x l, segments s = x :: l.
Proof.
  destruct s as [|a s]; simpl; [by eauto|]. case_bool_decide; [by eauto|]. destruct (segments s); eauto.
Qed.

Lemma split_app_sep a b : segments (a +:+ String sep b) = segments a ++ segments b.
Proof.
  induction a as [|c a IH].
  - done.
  - rewrite string_app_cons. simpl. rewrite IH. case_bool_decide; [done|].
    destruct (split_cons a) as (x & l & ->). done.
Qed.

Lemma split_plain s : count_char sep s = 0 → segments s = [s].
Proof.
  induction s as [|a s IH]; [done|]. simpl. case_bool_decide; [done|]. intros Hs. by rewrite IH.
Qed.

Lemma split_unsplit l :
  l ≠ [] → Forall (λ s, count_char sep s = 0) l → segments (unsplit l) = l.
Proof.
  intros Hne Hl. induction Hl as [|x l Hx Hl IH]; [done|]. destruct l as [|y l].
  - by apply split_plain.
  - change (unsplit (x :: y :: l)) with (x +:+ String sep (unsplit (y :: l))).
    rewrite split_app_sep, split_plain by done. by rewrite IH.
Qed.

Lemma unsplit_inj l1 l2 :
  l1 ≠ [] → l2 ≠ [] → Forall (λ s, count_char sep s = 0) l1 → Forall (λ s, count_char sep s = 0) l2 →
  unsplit l1 = unsplit l2 → l1 = l2.
Proof. intros ? ? ? ? E. rewrite <- (split_unsplit l1), <- (split_unsplit l2), E; done. Qed.

(** ** Clean paths *)

(** A segment that Clean leaves alone. *)
Definition plain (s : string) : Prop :=
  s ≠ "" ∧ s ≠ "." ∧ s ≠ ".." ∧ count_char sep s = 0.

(** The rooted path of some segments. *)
Definition path_of (segs : list string) : string := String sep (unsplit segs).

(** The segments of a relative path that are not empty. *)
Definition segs_of (e : string) : list string := filter (λ s, s ≠ "") (segments e).

Lemma plain_no_slash l : Forall plain l → Forall (λ s, count_char sep s = 0) l.
Proof. intros Hl. eapply Forall_impl; [exact Hl|]. by intros s (? & ? & ? & ?). Qed.

Lemma path_of_inj l1 l2 : Forall plain l1 → Forall plain l2 → path_of l1 = path_of l2 → l1 = l2.
Proof.
  unfold path_of. intros H1 H2 [= E]. destruct l1 as [|x1 l1], l2 as [|x2 l2]; [done| | |].
  - exfalso. apply Forall_cons in H2 as [(Hne & _) _]. destruct l2; simpl in E; by destruct x2.
  - exfalso. apply Forall_cons in H1 as [(Hne & _) _]. destruct l1; simpl in E; by destruct x1.
  - apply unsplit_inj; [done..| | |done]; by apply plain_no_slash.
Qed.

Lemma push_plain rooted acc s : plain s → push rooted acc s = s :: acc.
Proof.
  intros (H1 & H2 & H3 & _). unfold push. by rewrite !bool_decide_eq_false_2 by done.
Qed.

Lemma push_segs rooted acc l :
  Forall (λ s, s = "" ∨ plain s) l →
  foldl (push rooted) acc l = reverse (filter (λ s, s ≠ "") l) ++ acc.
Proof.
  intros Hl. revert acc. induction Hl as [|x l Hx _ IH]; intros acc; [done|].
  simpl. destruct Hx as [->|Hx].
  - rewrite IH. by rewrite filter_cons_False by auto.
  - rewrite push_plain, IH, filter_cons_True by (by destruct Hx || done).
    by rewrite reverse_cons, <- app_assoc.
Qed.

Lemma Clean_rooted s :
  Forall (λ x, x = "" ∨ plain x) (segments s) → Clean (String sep s) = path_of (segs_of s).
Proof.
  intros Hs. unfold Clean, path_of, segs_of.
  rewrite bool_decide_eq_false_2 by done.
  assert (has_prefix "/" (String sep s) = true) as -> by done.
  change (segments (String sep s)) with ([""] ++ segments s). rewrite foldl_app.
  change (foldl (push true) [] [""]) with (@nil string).
  by rewrite push_segs, app_nil_r, reverse_involutive.
Qed.

Lemma join_with_rooted b elem :
  join_with (String sep b) elem =
  String sep (foldl (λ b e, b +:+ String sep e) b elem).
Proof.
  revert b. induction elem as [|e elem IH]; intros b; [done|].
  change (join_with (String sep b) (e :: elem)) with (join_with (String sep b +:+ String sep e) elem).
  by rewrite string_app_cons, IH.
Qed.

Lemma split_foldl b elem :
  segments (foldl (λ b e, b +:+ String sep e) b elem) = segments b ++ (elem ≫= segments).
Proof.
  revert b. induction elem as [|e elem IH]; intros b; simpl; [by rewrite app_nil_r|].
  by rewrite IH, split_app_sep, <- app_assoc.
Qed.

(** Joining to a rooted path. *)
Lemma Join_rooted b elem :
  Forall (λ x, x = "" ∨ plain x) (segments b) →
  Forall (λ e, Forall (λ x, x = "" ∨ plain x) (segments e)) elem →
  Join (String sep b :: elem) = path_of (segs_of b ++ (elem ≫= segs_of)).
Proof.
  intros Hb He. unfold Join. rewrite bool_decide_eq_false_2 by (by intros [? _]%Forall_cons).
  simpl. rewrite join_with_rooted, Clean_rooted.
  - f_equal. unfold segs_of at 1. rewrite split_foldl, filter_app. f_equal. clear.
    induction elem as [|e elem IH]; [done|]. rewrite !bind_cons, filter_app. by f_equal.
  - rewrite split_foldl, Forall_app. split; [done|]. clear Hb.
    induction He as [|e elem He _ IH]; simpl; [done|]. by apply Forall_app.
Qed.

Lemma filter_plain l : Forall plain l → filter (λ s, s ≠ "") l = l.
Proof. intros Hl. apply filter_id. eapply Forall_impl; [exact Hl|]. by intros s (? & _). Qed.

Lemma segs_of_plain s : plain s → segs_of s = [s].
Proof.
  intros Hs. unfold segs_of. rewrite split_plain by apply Hs. apply filter_plain. by constructor.
Qed.

Lemma split_segs_plain s : plain s → Forall (λ x, x = "" ∨ plain x) (segments s).
Proof. intros Hs. rewrite split_plain by apply Hs. constructor; [by right|constructor]. Qed.

Lemma segs_of_unsplit l : Forall plain l → segs_of (unsplit l) = l.
Proof.
  intros Hl. destruct l as [|x l]; [done|]. unfold segs_of.
  rewrite split_unsplit by (done || by apply plain_no_slash). by apply filter_plain.
Qed.

Lemma split_unsplit_ok l : Forall plain l → Forall (λ x, x = "" ∨ plain x) (segments (unsplit l)).
Proof.
  intros Hl. destruct l as [|x l]; [simpl; constructor; [by left|constructor]|].
  rewrite split_unsplit by (done || by apply plain_no_slash).
  eapply Forall_impl; [exact Hl|]. by right.
Qed.

(** Joining segments to a rooted clean path. *)
Lemma Join_path_of segs elem :
  Forall plain segs → Forall (λ e, Forall (λ x, x = "" ∨ plain x) (segments e)) elem →
  Join (path_of segs :: elem) = path_of (segs ++ (elem ≫= segs_of)).
Proof.
  intros Hs He. unfold path_of at 1. rewrite Join_rooted; [|by apply split_unsplit_ok|done].
  by rewrite segs_of_unsplit.
Qed.

(** ** Relative paths *)

Lemma join_with_foldl b elem :
  b ≠ "" → join_with b elem = foldl (λ b e, b +:+ String sep e) b elem.
Proof.
  revert b. induction elem as [|e elem IH]; intros b Hb; [done|]. simpl.
  rewrite bool_decide_eq_false_2 by done. apply IH. by destruct b.
Qed.

Lemma has_prefix_foldl b elem :
  b ≠ "" → has_prefix "/" (foldl (λ b e, b +:+ String sep e) b elem) = has_prefix "/" b.
Proof.
  revert b. induction elem as [|e elem IH]; intros b Hb; [done|].
  change (foldl _ b (e :: elem)) with (foldl (λ b e, b +:+ String sep e) (b +:+ String sep e) elem).
  rewrite IH by by destruct b. by destruct b as [|a b].
Qed.

Lemma plain_not_rooted s : plain s → has_prefix "/" s = false.
Proof.
  intros (Hne & _ & _ & Hc). destruct s as [|a s]; [done|].
  change (bool_decide (sep = a) && has_prefix "" s = false).
  rewrite bool_decide_eq_false_2; [done|]. intros <-. by rewrite count_char_sep in Hc.
Qed.

Lemma unsplit_nonempty x l : x ≠ "" → unsplit (x :: l) ≠ "".
Proof. intros Hx. destruct l; simpl; [done|]. by destruct x. Qed.

Lemma Clean_relative s :
  has_prefix "/" s = false → segs_of s ≠ [] → Forall (λ x, x = "" ∨ plain x) (segments s) →
  Clean s = unsplit (segs_of s).
Proof.
  intros Hr Hne Hs. unfold Clean. rewrite bool_decide_eq_false_2 by (by intros ->).
  rewrite Hr, push_segs, app_nil_r, reverse_involutive by done. fold (segs_of s).
  destruct (segs_of s) as [|x l] eqn:E; [done|].
  assert (x ∈ segs_of s) as [Hx _]%list_elem_of_filter by (rewrite E; set_solver).
  rewrite bool_decide_eq_false_2; [done|]. by apply unsplit_nonempty.
Qed.

Lemma Join_relative l :
  Forall (λ x, x = "" ∨ plain x) l → Join l = unsplit (filter (λ s, s ≠ "") l).
Proof.
  intros Hl. unfold Join. case_bool_decide as Hall.
  { assert (filter (λ s, s ≠ "") l = []) as ->; [|done]. clear Hl.
    induction Hall as [|x l -> _ IH]; [done|]. by rewrite filter_cons_False by auto. }
  induction Hl as [|x l Hx Hl IH]; [by destruct Hall|]. destruct Hx as [->|Hx].
  - rewrite filter_cons_False by auto. apply IH. by intros ?; apply Hall; constructor.
  - change (join_with "" (x :: l)) with (join_with x l). pose proof Hx as (Hne & _).
    assert (Forall (λ x, x = "" ∨ plain x) (l ≫= segments)) as Hls.
    { clear -Hl. induction Hl as [|y l Hy _ IH]; [constructor|]. rewrite bind_cons.
      apply Forall_app. split; [|done]. destruct Hy as [->|Hy]; [|by apply split_segs_plain].
      constructor; [by left|constructor]. }
    assert (filter (λ s, s ≠ "") (l ≫= segments) = filter (λ s, s ≠ "") l) as Hf.
    { clear -Hl. induction Hl as [|y l Hy _ IH]; [done|]. rewrite bind_cons, filter_app, IH.
      destruct Hy as [->|Hy]; [by rewrite filter_cons_False by auto|].
      rewrite split_plain by apply Hy. rewrite !filter_cons. by destruct (decide (y ≠ "")). }
    rewrite join_with_foldl by done. rewrite Clean_relative.
    + unfold segs_of. rewrite split_foldl, split_plain by apply Hx. rewrite filter_app, Hf.
      by rewrite filter_cons_True, filter_cons_True.
    + rewrite has_prefix_foldl by done. by apply plain_not_rooted.
    + unfold segs_of. rewrite split_foldl, split_plain by apply Hx. rewrite filter_app.
      by rewrite filter_cons_True.
    + rewrite split_foldl, split_plain by apply Hx. constructor; [by right|done].
Qed.
