(* ===== verification/Rest.v ===== *)
(** * Building REST requests: client-go/rest/request.go

    The chained methods of [Request] as the typed clients use them, and the
    URL they end in.  What happens to a request once it is built (throttling,
    retries after a Retry-After, net/http) and the encodings are external: the
    class [RESTClient]. *)
From S2P Require Export Types Path.

Local Open Scope Z_scope.
Import v1alpha1.

(** The options that become query parameters. *)
Inductive Options :=
  | GetOptions (resourceVersion : string)
  | ListOptions (opts : metav1.ListOptions) (timeoutSeconds : option Z)
  | WatchOptions (opts : metav1.ListOptions) (timeoutSeconds : option Z)  (* ListOptions with Watch set *)
  | CreateOptions
  | UpdateOptions
  | PatchOptions.

(** What is sent or received as a body. *)
Inductive Object :=
  | OMigration (m : StorageVersionMigration)
  | OMigrationList (l : list StorageVersionMigration)
  | OState (s : StorageState)
  | OStateList (l : list StorageState)
  | ODeleteOptions (uid : string)
  | OStatus (success : bool) (st : Status)
  | OBytes (data : string).

Record HTTPRequest := {
  http_verb : string;
  http_path : string;
  http_query : list (string * list string);
  http_timeout : Duration;
  http_contentType : string;
  http_body : option Object;
}.

Class RESTClient (S : Type) := {
  base_Path : string;                  (* the path of the base URL *)
  Client_Timeout : Duration;
  ContentType : string;
  EncodeParameters : Options → res (list (string * list string));
  encode_error : Object → option error;
  (* client.Do within the retry loop, and the decoding of the response *)
  http_do : HTTPRequest → S → res Object * S;
  (* the retry loop of Watch, and the stream it opens *)
  Watcher : Type;
  http_watch : HTTPRequest → S → res Watcher * S;
}.

Definition show_list (l : list string) : string := "[" +:+ ApiErrors.join " " l +:+ "]".

Definition NameMayNotBe : list string := ["."; ".."].
Definition NameMayNotContain : list string := ["/"; "%"].

Definition IsValidPathSegmentName (name : string) : list string :=
  match filter (λ illegalName, name = illegalName) NameMayNotBe with
  | illegalName :: _ => ["may not be '" +:+ illegalName +:+ "'"]
  | [] => (λ illegalContent, "may not contain '" +:+ illegalContent +:+ "'") <$>
            filter (λ illegalContent, contains name illegalContent = true) NameMayNotContain
  end.

Record Request := {
  verb : string;
  pathPrefix : string;
  params : list (string * list string);
  contentType : string;
  namespace : string;
  namespaceSet : bool;
  resource : string;
  resourceName : string;
  subresource : string;
  timeout : Duration;
  body : option Object;
  err : option error;
}.

(** rest/url_utils.go *)
Definition DefaultVersionedAPIPath (apiPath : string) (groupVersion : schema.GroupVersion) : string :=
  let versionedAPIPath := Join ["/"; apiPath] in
  if negb (bool_decide (schema.gv_Group groupVersion = ""))
  then Join [versionedAPIPath; schema.gv_Group groupVersion; schema.gv_Version groupVersion]
  else Join [versionedAPIPath; schema.gv_Version groupVersion].

(** register.go, and what setConfigDefaults of migration_client.go sets. *)
Definition SchemeGroupVersion : schema.GroupVersion :=
  {| schema.gv_Group := GroupName; schema.gv_Version := "v1alpha1" |}.
Definition config_APIPath : string := "/apis".
Definition versionedAPIPath : string := DefaultVersionedAPIPath config_APIPath SchemeGroupVersion.

Section rest.
Context {S : Type} `{RESTClient S}.

Definition NewRequest : Request :=
  {| verb := ""; pathPrefix := Join ["/"; base_Path; versionedAPIPath]; params := [];
     contentType := ""; namespace := ""; namespaceSet := false; resource := ""; resourceName := "";
     subresource := ""; timeout := Client_Timeout; body := None; err := None |}.

Definition Verb (v : string) : Request :=
  {| verb := v; pathPrefix := pathPrefix NewRequest; params := []; contentType := "";
     namespace := ""; namespaceSet := false; resource := ""; resourceName := "";
     subresource := ""; timeout := Client_Timeout; body := None; err := None |}.

Definition Post : Request := Verb "POST".
Definition Put : Request := Verb "PUT".
Definition Get : Request := Verb "GET".
Definition Delete : Request := Verb "DELETE".

Definition Patch (pt : string) : Request :=
  {| verb := "PATCH"; pathPrefix := pathPrefix NewRequest; params := []; contentType := pt;
     namespace := ""; namespaceSet := false; resource := ""; resourceName := "";
     subresource := ""; timeout := Client_Timeout; body := None; err := None |}.

Definition fail_with (e : error) (r : Request) : Request :=
  {| verb := verb r; pathPrefix := pathPrefix r; params := params r; contentType := contentType r;
     namespace := namespace r; namespaceSet := namespaceSet r; resource := resource r;
     resourceName := resourceName r; subresource := subresource r; timeout := timeout r;
     body := body r; err := Some e |}.

Definition with_names (res name sub : string) (r : Request) : Request :=
  {| verb := verb r; pathPrefix := pathPrefix r; params := params r; contentType := contentType r;
     namespace := namespace r; namespaceSet := namespaceSet r; resource := res;
     resourceName := name; subresource := sub; timeout := timeout r; body := body r; err := err r |}.

Definition already_set (what old new : string) : error :=
  Errorf (what +:+ " already set to " +:+ quote +:+ old +:+ quote +:+ ", cannot change to "
            +:+ quote +:+ new +:+ quote).

Definition invalid (what value : string) (msgs : list string) : error :=
  Errorf ("invalid " +:+ what +:+ " " +:+ quote +:+ value +:+ quote +:+ ": " +:+ show_list msgs).

Definition Resource (res : string) (r : Request) : Request :=
  match err r with
  | Some _ => r
  | None =>
      if negb (bool_decide (resource r = "")) then fail_with (already_set "resource" (resource r) res) r
      else match IsValidPathSegmentName res with
           | [] => with_names res (resourceName r) (subresource r) r
           | msgs => fail_with (invalid "resource" res msgs) r
           end
  end.

Definition Name (name : string) (r : Request) : Request :=
  match err r with
  | Some _ => r
  | None =>
      if bool_decide (name = "") then fail_with (Errorf "resource name may not be empty") r
      else if negb (bool_decide (resourceName r = ""))
      then fail_with (already_set "resource name" (resourceName r) name) r
      else match IsValidPathSegmentName name with
           | [] => with_names (resource r) name (subresource r) r
           | msgs => fail_with (invalid "resource name" name msgs) r
           end
  end.

(** The first of the subresources that is no path segment, with what is wrong
    with it. *)
Fixpoint first_invalid (subresources : list string) : option (string * list string) :=
  match subresources with
  | [] => None
  | s :: subresources =>
      match IsValidPathSegmentName s with
      | [] => first_invalid subresources
      | msgs => Some (s, msgs)
      end
  end.

Definition SubResource (subresources : list string) (r : Request) : Request :=
  match err r with
  | Some _ => r
  | None =>
      let sub := Join subresources in
      if negb (bool_decide (subresource r = ""))
      then fail_with (already_set "subresource" (subresource r) sub) r
      else match first_invalid subresources with
           | None => with_names (resource r) (resourceName r) sub r
           | Some (s, msgs) => fail_with (invalid "subresource" s msgs) r
           end
  end.

Definition with_params (ps : list (string * list string)) (r : Request) : Request :=
  {| verb := verb r; pathPrefix := pathPrefix r; params := ps; contentType := contentType r;
     namespace := namespace r; namespaceSet := namespaceSet r; resource := resource r;
     resourceName := resourceName r; subresource := subresource r; timeout := timeout r;
     body := body r; err := err r |}.

(** The clients set parameters once, so adding them is appending. *)
Definition VersionedParams (opts : Options) (r : Request) : Request :=
  match err r with
  | Some _ => r
  | None =>
      match EncodeParameters opts with
      | Err e => fail_with e r
      | Ok ps => with_params (params r ++ ps) r
      end
  end.

Definition Timeout (d : Duration) (r : Request) : Request :=
  match err r with
  | Some _ => r
  | None =>
      {| verb := verb r; pathPrefix := pathPrefix r; params := params r; contentType := contentType r;
         namespace := namespace r; namespaceSet := namespaceSet r; resource := resource r;
         resourceName := resourceName r; subresource := subresource r; timeout := d;
         body := body r; err := err r |}
  end.

(** The cases of Body for a []byte and for a runtime.Object that is not nil. *)
Definition Body (obj : Object) (r : Request) : Request :=
  match err r with
  | Some _ => r
  | None =>
      let with_body ct :=
        {| verb := verb r; pathPrefix := pathPrefix r; params := params r; contentType := ct;
           namespace := namespace r; namespaceSet := namespaceSet r; resource := resource r;
           resourceName := resourceName r; subresource := subresource r; timeout := timeout r;
           body := Some obj; err := err r |} in
      match obj with
      | OBytes _ => with_body (contentType r)
      | _ => match encode_error obj with
             | Some e => fail_with e r
             | None => with_body ContentType
             end
      end
  end.

(** The path of URL(); the subpath is never set. *)
Definition URL_Path (r : Request) : string :=
  let p := pathPrefix r in
  let p := if namespaceSet r && negb (bool_decide (namespace r = ""))
           then Join [p; "namespaces"; namespace r] else p in
  let p := if negb (bool_decide (resource r = "")) then Join [p; to_lower (resource r)] else p in
  if negb (bool_decide (resourceName r = "")) || negb (bool_decide (subresource r = ""))
  then Join [p; resourceName r; subresource r; ""] else p.

Definition requestPreflightCheck (r : Request) : option error :=
  if negb (namespaceSet r) then None
  else if negb (bool_decide (namespace r = "")) then None
  else if bool_decide (verb r = "POST")
  then Some (Errorf "an empty namespace may not be set during creation")
  else if bool_decide (verb r ∈ ["GET"; "PUT"; "DELETE"]) && negb (bool_decide (resourceName r = ""))
  then Some (Errorf "an empty namespace may not be set when a resource name is provided")
  else None.

Definition newHTTPRequest (r : Request) : HTTPRequest :=
  {| http_verb := verb r; http_path := URL_Path r; http_query := params r; http_timeout := timeout r;
     http_contentType := contentType r; http_body := body r |}.

(** Do: nothing is sent when building the request failed. *)
Definition Do (r : Request) (s : S) : res Object * S :=
  match err r with
  | Some e => (Err e, s)
  | None =>
      match requestPreflightCheck r with
      | Some e => (Err e, s)
      | None => http_do (newHTTPRequest r) s
      end
  end.

(** Watch: as Do, without the preflight check. *)
Definition Watch (r : Request) (s : S) : res Watcher * S :=
  match err r with
  | Some e => (Err e, s)
  | None => http_watch (newHTTPRequest r) s
  end.
End rest.
