(* ===== verification/Retry.v ===== *)
(** * Sending REST requests: client-go/rest/request.go and with_retry.go

    [Do] and [Watch] of Rest.v stop where the request is built; this file goes
    on from there: throttling, the retry loop with its WithRetry, and what is
    made of the response.  The HTTP transport, the context, the rate limiter
    and the backoff manager are the class [Transport], and so are mime and the
    decoders. *)
From S2P Require Export Rest.
From stdpp Require Import pretty.

Local Open Scope Z_scope.

(** A response; a header that is missing reads as the empty string, and
    reading the body can fail. *)
Record Response := {
  StatusCode : Z;
  header_RetryAfter : string;
  header_ContentType : string;
  header_FlowSchemaUID : string;
  resp_Body : res string;
}.

(** runtime.Decoder: with the default version v1 or without a default. *)
Definition Decoder : Type := bool → string → res Object.

Class Transport (S : Type) := {
  client_Do : HTTPRequest → S → res Response * S;  (* a response or an error *)
  http_NewRequest : HTTPRequest → option error;
  ctx_Err : S → option error * S;
  context_WithTimeout : Duration → S → S;
  context_cancel : S → S;
  rateLimiter : option (S → option error * S);     (* its Wait *)
  CalculateBackoff : Request → S → Duration * S;
  backoff_Sleep : Duration → S → S;
  UpdateBackoff : Request → option error → Z → S → S;
  net_IsTimeout : error → bool;
  mime_ParseMediaType : string → res (string * list (string * string));
  Negotiator_Decoder : string → list (string * string) → res Decoder;
  content_ContentType : string;
  content_Group : string;
  URL_String : HTTPRequest → string;
  StreamWatcher : Type;
  NewEmptyWatch : StreamWatcher;
  newStreamWatcher : Response → S → res StreamWatcher * S;
}.

(** ** with_retry.go *)

Record RetryAfter := {
  ra_Wait : Duration;
  ra_Attempt : Z;
  ra_Reason : string;
}.

Record withRetry := {
  maxRetries : Z;
  attempts : Z;
  retryAfter : option RetryAfter;
  previousErr : option error;
  currentErr : option error;
}.

Definition defaultRequestRetryFn (n : Z) : withRetry :=
  {| maxRetries := n; attempts := 0; retryAfter := None; previousErr := None; currentErr := None |}.

Definition with_retryAfter (ra : option RetryAfter) (r : withRetry) : withRetry :=
  {| maxRetries := maxRetries r; attempts := attempts r; retryAfter := ra;
     previousErr := previousErr r; currentErr := currentErr r |}.

Definition trackPreviousError (err : option error) (r : withRetry) : withRetry :=
  {| maxRetries := maxRetries r; attempts := attempts r; retryAfter := retryAfter r;
     previousErr := match currentErr r with Some _ => currentErr r | None => previousErr r end;
     currentErr := err |}.

(** strconv.Atoi: a sign, then digits, in the range of int. *)
Fixpoint digits (acc : Z) (s : string) : option Z :=
  match s with
  | "" => Some acc
  | String a s =>
      let d := Z.of_N (Ascii.N_of_ascii a) - 48 in
      if (0 <=? d) && (d <=? 9) then digits (acc * 10 + d) s else None
  end.

Definition unsigned (s : string) : option Z :=
  if bool_decide (s = "") then None else digits 0 s.

Definition Atoi (s : string) : option Z :=
  n ← match s with
      | String "-"%char s => Z.opp <$> unsigned s
      | String "+"%char s => unsigned s
      | s => unsigned s
      end;
  if (- 2 ^ 63 <=? n) && (n <? 2 ^ 63) then Some n else None.

Definition retryAfterSeconds (resp : Response) : option Z :=
  if bool_decide (header_RetryAfter resp = "") then None else Atoi (header_RetryAfter resp).

Definition checkWait (resp : Response) : option Z :=
  if (StatusCode resp =? 429) || (500 <=? StatusCode resp) then retryAfterSeconds resp else None.

Definition retryAfterResponse : Response :=
  {| StatusCode := 500; header_RetryAfter := "1"; header_ContentType := ""; header_FlowSchemaUID := "";
     resp_Body := Ok "" |}.

Definition getRetryReason (retries seconds : Z) (resp : Response) (err : option error) : string :=
  let message := "retries: " +:+ pretty retries +:+ ", retry-after: " +:+ pretty seconds +:+ "s" in
  if StatusCode resp =? 429 then
    message +:+ " - retry-reason: due to server-side throttling, FlowSchema UID: " +:+
      quote +:+ header_FlowSchemaUID resp +:+ quote
  else match err with
  | Some e => message +:+ " - retry-reason: due to retryable error, error: " +:+ Error e
  | None => message +:+ " - retry-reason: " +:+ pretty (StatusCode resp)
  end.

(** The response that is looked at for a Retry-After. *)
Definition response_to_check (out : res Response) (f : error → bool) : option Response :=
  match out with
  | Ok resp => Some resp
  | Err e => if f e then Some retryAfterResponse else None
  end.

(** The clients send bodies as bytes: [restReq.body] is nil.  The deferred
    trackPreviousError comes last. *)
Definition IsNextRetry (out : res Response) (f : error → bool) (r : withRetry) : bool * withRetry :=
  let err := res_error out in
  let n := attempts r + 1 in
  let r := {| maxRetries := maxRetries r; attempts := n;
              retryAfter := Some {| ra_Wait := 0; ra_Attempt := n; ra_Reason := "" |};
              previousErr := previousErr r; currentErr := currentErr r |} in
  if maxRetries r <? n then (false, trackPreviousError err r)
  else match response_to_check out f with
  | None => (false, trackPreviousError err r)
  | Some resp =>
      match checkWait resp with
      | None => (false, trackPreviousError err r)
      | Some seconds =>
          (true, trackPreviousError err (with_retryAfter
            (Some {| ra_Wait := seconds_Duration seconds; ra_Attempt := n;
                     ra_Reason := getRetryReason n seconds resp err |}) r))
      end
  end.

Definition wrapPreviousError (currentErr previousError : error) : error :=
  EOther "*rest.wrapPreviousError"
    (Error currentErr +:+ " - error from a previous attempt: " +:+ Error previousError) None (Some currentErr).

Definition WrapPreviousError (r : withRetry) (currentErr : option error) : option error :=
  match currentErr, previousErr r with
  | Some current, Some previous =>
      if bool_decide (Error current = Error previous) then Some current
      else Some (wrapPreviousError current (match previous with EUrl _ _ inner => inner | _ => previous end))
  | _, _ => currentErr
  end.

(** ** request.go *)

(** What goes over the wire, and the pauses. *)
Inductive net_event :=
  | Sent (req : HTTPRequest) (out : res Response)
  | Paused (d : Duration)
  | Throttled (err : option error).

Record Net (S : Type) := { net : S; log : list net_event }.
Arguments net {S} n : rename.
Arguments log {S} n : rename.

(** ** api/errors: errors made from responses *)

Definition wrap32 (z : Z) : Z := (z + 2 ^ 31) mod 2 ^ 32 - 2 ^ 31.

Definition CauseTypeUnexpectedServerResponse : string := "UnexpectedServerResponse".

(** Reason and message of NewGenericServerResponse. *)
Definition generic_reason (code : Z) (verb serverMessage : string) : string * string :=
  if code =? 409 then
    (if bool_decide (verb = "POST") then StatusReasonAlreadyExists else StatusReasonConflict,
     "the server reported a conflict")
  else if code =? 404 then (StatusReasonNotFound, "the server could not find the requested resource")
  else if code =? 400 then ("BadRequest", "the server rejected our request for an unknown reason")
  else if code =? 401 then ("Unauthorized", "the server has asked for the client to provide credentials")
  else if code =? 403 then ("Forbidden", serverMessage)
  else if code =? 406 then
    ("NotAcceptable",
     if bool_decide (serverMessage = "") || bool_decide (serverMessage = "unknown")
     then "the server was unable to respond with a content type that the client supports" else serverMessage)
  else if code =? 415 then ("UnsupportedMediaType", serverMessage)
  else if code =? 405 then
    (StatusReasonMethodNotAllowed, "the server does not allow this method on the requested resource")
  else if code =? 422 then ("Invalid", "the server rejected our request due to an error in our request")
  else if code =? 503 then ("ServiceUnavailable", "the server is currently unable to handle the request")
  else if code =? 504 then
    ("Timeout",
     "the server was unable to return a response in the time allotted, but may still be processing the request")
  else if code =? 429 then
    (StatusReasonTooManyRequests,
     "the server has received too many requests and has asked us to try again later")
  else if 500 <=? code then
    ("InternalError", "an error on the server (" +:+ quote +:+ serverMessage +:+ quote +:+
                        ") has prevented the request from succeeding")
  else (StatusReasonUnknown, "the server responded with the status code " +:+ pretty code +:+
                               " but did not return more information").

Definition GroupResource_String (group res : string) : string :=
  if bool_decide (group = "") then res else res +:+ "." +:+ group.

Definition NewGenericServerResponse (code : Z) (verb group res name serverMessage : string)
    (retryAfterSeconds : Z) (isUnexpectedResponse : bool) : error :=
  let '(reason, message) := generic_reason code verb serverMessage in
  let message :=
    if bool_decide (group = "") && bool_decide (res = "") then message
    else message +:+ " (" +:+ to_lower verb +:+ " " +:+ GroupResource_String group res +:+
           (if bool_decide (name = "") then "" else " " +:+ name) +:+ ")" in
  EStatus {| Status_Message := message; Status_Reason := reason;
             Status_Details := Some {|
               Details_Name := name; Details_Kind := res;
               Details_Causes := if isUnexpectedResponse
                                 then [(CauseTypeUnexpectedServerResponse, serverMessage)] else [];
               RetryAfterSeconds := wrap32 retryAfterSeconds |};
             Status_Code := wrap32 code; Status_Continue := "" |}.

Definition NewInternalError (e : error) : error :=
  EStatus {| Status_Message := "Internal error occurred: " +:+ Error e; Status_Reason := "InternalError";
             Status_Details := Some {| Details_Name := ""; Details_Kind := "";
                                       Details_Causes := [("", Error e)]; RetryAfterSeconds := 0 |};
             Status_Code := 500; Status_Continue := "" |}.

Definition IsUnexpectedServerError (e : error) : bool :=
  match as_APIStatus e with
  | Some s =>
      match Status_Details s with
      | Some d => existsb (λ cause, bool_decide (cause.1 = CauseTypeUnexpectedServerResponse)) (Details_Causes d)
      | None => false
      end
  | None => false
  end.

(** strings.TrimSpace on ASCII. *)
Definition is_space (a : ascii) : bool :=
  let n := Ascii.N_of_ascii a in ((9 <=? n) && (n <=? 13) || (n =? 32))%N.

Fixpoint trim_left (s : string) : string :=
  match s with
  | String a s' => if is_space a then trim_left s' else s
  | "" => ""
  end.

Fixpoint trim_right (s : string) : string :=
  match s with
  | String a s' =>
      match trim_right s' with
      | "" => if is_space a then "" else String a ""
      | t => String a t
      end
  | "" => ""
  end.

Definition TrimSpace (s : string) : string := trim_right (trim_left s).

Section retry.
Context {S : Type} `{Transport S}.
Abbreviation Eff := (M (Net S)).

Definition logged {A} (f : S → A * S) (ev : A → list net_event) : Eff A :=
  prim (λ n, let '(a, s) := f (net n) in (a, {| net := s; log := log n ++ ev a |})).

Definition unlogged {A} (f : S → A * S) : Eff A := logged f (λ _, []).

Definition pause (d : Duration) : Eff unit := logged (λ s, (tt, backoff_Sleep d s)) (λ _, [Paused d]).

(** The latency is only logged. *)
Definition tryThrottle : Eff (option error) :=
  match rateLimiter with
  | None => mret None
  | Some wait =>
      err ← logged wait (λ err, [Throttled err]);
      mret ((λ e, EOther "*fmt.wrapError" ("client rate limiter Wait returned an error: " +:+ Error e) None (Some e))
              <$> err)
  end.

Definition Before (request : Request) (r : withRetry) : Eff (option error * withRetry) :=
  err ← unlogged ctx_Err;
  match err with
  | Some e => mret (Some e, trackPreviousError (Some e) r)
  | None =>
      match retryAfter r with
      | None =>
          d ← unlogged (CalculateBackoff request);
          pause d ;;
          mret (None, r)
      | Some ra =>
          delay ← unlogged (CalculateBackoff request);
          pause (if delay <? ra_Wait ra then ra_Wait ra else delay) ;;
          err ← tryThrottle;
          match err with
          | Some e => ctx ← unlogged ctx_Err; mret (Some e, trackPreviousError ctx r)
          | None => mret (None, r)
          end
      end
  end.

(** The metrics of client-go are not modelled. *)
Definition After (request : Request) (out : res Response) (r : withRetry) : Eff withRetry :=
  unlogged (λ s, (tt, UpdateBackoff request (res_error out)
    (match out with Ok resp => StatusCode resp | Err _ => 0 end) s)) ;;
  mret (with_retryAfter None r).

(** How the loop of request and of Watch ends: before an attempt, or with the
    outcome of the last one. *)
Inductive ending :=
  | NotSent (err : option error)
  | LastSent (r : withRetry) (out : res Response).

(** [accepts]: Watch takes such a response at once. *)
Fixpoint attempt_loop (fuel : nat) (accepts : res Response → bool) (f : error → bool) (request : Request)
    (r : withRetry) : Eff ending :=
  match fuel with
  | O => λ _, None
  | Datatypes.S fuel =>
      '(err, r) ← Before request r;
      match err with
      | Some e => mret (NotSent (WrapPreviousError r (Some e)))
      | None =>
          let req := newHTTPRequest request in
          match http_NewRequest req with
          | Some e => mret (NotSent (Some e))
          | None =>
              out ← logged (client_Do req) (λ out, [Sent req out]);
              r ← After request out r;
              if accepts out then mret (LastSent r out)
              else
                let '(again, r) := IsNextRetry out f r in
                if again then attempt_loop fuel accepts f request r else mret (LastSent r out)
          end
      end
  end.

(** At most maxRetries retries after the first attempt. *)
Definition attempt_all (n : Z) : (res Response → bool) → (error → bool) → Request → withRetry → Eff ending :=
  attempt_loop (Datatypes.S (Z.to_nat n)).

(** NewRequest sets it. *)
Definition request_maxRetries : Z := 10.

(** isErrRetryableFunc of request. *)
Definition request_retryable (request : Request) (e : error) : bool :=
  if negb (bool_decide (verb request = "GET")) then false else IsConnectionReset e || IsProbableEOF e.

(** The error, and the response that [fn] is called with. *)
Definition request_ (r : Request) : Eff (option error * option Response) :=
  match err r with
  | Some e => mret (Some e, None)
  | None =>
      match requestPreflightCheck r with
      | Some e => mret (Some e, None)
      | None =>
          throttled ← tryThrottle;
          match throttled with
          | Some e => mret (Some e, None)
          | None =>
              (if 0 <? timeout r then unlogged (λ s, (tt, context_WithTimeout (timeout r) s)) else mret tt) ;;
              ended ← attempt_all request_maxRetries (λ _, false) (request_retryable r) r
                (defaultRequestRetryFn request_maxRetries);
              (if 0 <? timeout r then unlogged (λ s, (tt, context_cancel s)) else mret tt) ;;
              match ended with
              | NotSent e => mret (e, None)
              | LastSent retry (Ok resp) => mret (WrapPreviousError retry None, Some resp)
              | LastSent retry (Err e) => mret (WrapPreviousError retry (Some e), None)
              end
          end
      end
  end.

(** ** The response *)

Record Result := {
  r_body : string;
  r_contentType : string;
  r_err : option error;
  r_statusCode : Z;
  r_decoder : option Decoder;
}.

Definition failed (e : error) : Result :=
  {| r_body := ""; r_contentType := ""; r_err := Some e; r_statusCode := 0; r_decoder := None |}.

Definition isTextResponse (resp : Response) : bool :=
  if bool_decide (header_ContentType resp = "") then true
  else match mime_ParseMediaType (header_ContentType resp) with
       | Err _ => false
       | Ok (media, _) => has_prefix "text/" media
       end.

Definition newUnstructuredResponseError (r : Request) (body : string) (text : bool) (statusCode : Z)
    (method : string) (after : Z) : error :=
  let body := if 2048 <? Z.of_nat (String.length body) then String.substring 0 2048 body else body in
  let message := if text then TrimSpace body else "unknown" in
  let group := if bool_decide (resource r = "") then "" else content_Group in
  NewGenericServerResponse statusCode method group (resource r) (resourceName r) message after true.

Definition transformUnstructuredResponseError (r : Request) (resp : Response) (body : string) : error :=
  newUnstructuredResponseError r body (isTextResponse resp) (StatusCode resp) (verb r)
    (default 0 (retryAfterSeconds resp)).

(** 101 Switching Protocols, or from 200 to 206. *)
Definition acceptable (resp : Response) : bool :=
  (StatusCode resp =? 101) || ((200 <=? StatusCode resp) && (StatusCode resp <=? 206)).

Definition read_error (e : error) : error :=
  let what := if bool_decide (TypeOf e = "http2.StreamError")
              then "stream error when reading response body, may be caused by closed connection. Please retry."
              else "unexpected error when reading response body. Please retry." in
  EOther "*fmt.wrapError" (what +:+ " Original error: " +:+ Error e) None (Some e).

(** Warnings are only logged. *)
Definition transformResponse (r : Request) (resp : Response) : Result :=
  match resp_Body resp with
  | Err e => failed (read_error e)
  | Ok body =>
      let contentType := if bool_decide (header_ContentType resp = "") then content_ContentType
                         else header_ContentType resp in
      let result err decoder :=
        {| r_body := body; r_contentType := contentType; r_err := err; r_statusCode := StatusCode resp;
           r_decoder := decoder |} in
      let decoded decoder :=
        if acceptable resp then result None decoder
        else result (Some (transformUnstructuredResponseError r resp body)) decoder in
      if bool_decide (contentType = "") then decoded None
      else match mime_ParseMediaType contentType with
      | Err e => failed (NewInternalError e)
      | Ok (mediaType, params) =>
          match Negotiator_Decoder mediaType params with
          | Ok decoder => decoded (Some decoder)
          | Err _ =>
              if acceptable resp then result None None
              else failed (transformUnstructuredResponseError r resp body)
          end
      end
  end.

(** The error, improved by the Status in the body if there is one; a Status
    is a success or a failure. *)
Definition Result_Error (r : Result) : option error :=
  match r_err r, r_decoder r with
  | Some e, Some decoder =>
      if negb (IsUnexpectedServerError e) || bool_decide (r_body r = "") then Some e
      else match decoder true (r_body r) with
           | Ok (OStatus false st) => Some (EStatus st)
           | _ => Some e
           end
  | err, _ => err
  end.

(** Into up to the assertion on the type of what was decoded. *)
Definition Result_object (r : Result) : res Object :=
  match Result_Error r with
  | Some e => Err e
  | None =>
      match r_decoder r with
      | None => Err (Errorf ("serializer for " +:+ r_contentType r +:+ " doesn't exist"))
      | Some decoder =>
          if bool_decide (r_body r = "")
          then Err (Errorf ("0-length response with status code: " +:+ pretty (r_statusCode r) +:+
                              " and content type: " +:+ r_contentType r))
          else decoder false (r_body r)
      end
  end.

Definition Do_ (r : Request) : Eff Result :=
  '(err, resp) ← request_ r;
  match err, resp with
  | Some e, _ => mret (failed e)
  | None, Some resp => mret (transformResponse r resp)
  | None, None => mret {| r_body := ""; r_contentType := ""; r_err := None; r_statusCode := 0; r_decoder := None |}
  end.

(** ** Watch *)

Definition watch_retryable (e : error) : bool := IsProbableEOF e || net_IsTimeout e.

Definition is_200 (out : res Response) : bool :=
  match out with Ok resp => StatusCode resp =? 200 | Err _ => false end.

Definition Watch_ (r : Request) : Eff (option StreamWatcher * option error) :=
  match err r with
  | Some e => mret (None, Some e)
  | None =>
      ended ← attempt_all request_maxRetries is_200 watch_retryable r (defaultRequestRetryFn request_maxRetries);
      match ended with
      | NotSent e => mret (None, e)
      | LastSent retry (Ok resp) =>
          if StatusCode resp =? 200 then
            w ← unlogged (newStreamWatcher resp);
            match w with Ok w => mret (Some w, None) | Err e => mret (None, Some e) end
          else
            let transformErr := match r_err (transformResponse r resp) with
              | Some e => e
              | None => Errorf ("for request " +:+ URL_String (newHTTPRequest r) +:+ ", got status: " +:+
                                  pretty (StatusCode resp))
              end in
            mret (None, WrapPreviousError retry (Some transformErr))
      | LastSent retry (Err e) =>
          if watch_retryable e then mret (Some NewEmptyWatch, None)
          else mret (None, WrapPreviousError retry (Some e))
      end
  end.
End retry.
