(* ===== verification/RetryProps.v ===== *)
(** * What is sent, and what becomes of the response *)
From S2P Require Export Retry.

Local Open Scope Z_scope.

(** The outcomes of the attempts in a log. *)
Definition sends (evs : list net_event) : list (res Response) :=
  omap (λ ev, match ev with Sent _ out => Some out | _ => None end) evs.

Lemma sends_app evs evs' : sends (evs ++ evs') = sends evs ++ sends evs'.
Proof. apply omap_app. Qed.

(** The Retry-After of an outcome that is retried. *)
Definition asks_again (f : error → bool) (out : res Response) : option Z :=
  resp ← response_to_check out f; checkWait resp.

Section retry_props.
Context {S : Type} `{Transport S}.
Implicit Types (n : Net S) (r : withRetry).

Lemma wp_logged {A} (f : S → A * S) ev (Q : A → Net S → Prop) n :
  Q (f (net n)).1 {| net := (f (net n)).2; log := log n ++ ev (f (net n)).1 |} → wp (logged f ev) Q n.
Proof. intros HQ. unfold logged. apply wp_prim. by destruct (f (net n)). Qed.

Lemma wp_unlogged {A} (f : S → A * S) (Q : A → Net S → Prop) n :
  (∀ s, Q (f (net n)).1 {| net := s; log := log n |}) → wp (unlogged f) Q n.
Proof. intros HQ. apply wp_logged. rewrite app_nil_r. apply HQ. Qed.

(** ** Before an attempt *)

(** Nothing is sent. *)
Definition quiet (evs : list net_event) : Prop := sends evs = [].

(** The pause before an attempt, that long at least when it was asked for. *)
Definition paused (asked : option Z) (evs : list net_event) : Prop :=
  ∃ d evs', evs = Paused d :: evs' ∧ quiet evs' ∧ ∀ s, asked = Some s → seconds_Duration s ≤ d.

Lemma tryThrottle_quiet n :
  wp tryThrottle (λ _ n', ∃ evs, log n' = log n ++ evs ∧ quiet evs) n.
Proof.
  unfold tryThrottle. destruct rateLimiter as [wait|]; [|apply wp_ret; exists []; by rewrite app_nil_r].
  apply wp_bind, wp_logged, wp_ret. by eexists.
Qed.

(** What the retry state says about the attempt to come. *)
Definition waits (asked : option Z) r : Prop :=
  ra_Wait <$> retryAfter r = seconds_Duration <$> asked.

Lemma Before_spec request asked r n :
  waits asked r →
  wp (Before request r) (λ out n', ∃ evs, log n' = log n ++ evs ∧ quiet evs ∧
    match out.1 with
    | Some _ => True
    | None => paused asked evs ∧ out.2 = r
    end) n.
Proof.
  intros Hw. unfold Before. apply wp_bind, wp_unlogged. intros s1.
  destruct (ctx_Err (net n)).1 as [e|]; [apply wp_ret; exists []; by rewrite app_nil_r|].
  unfold waits in Hw. destruct (retryAfter r) as [ra|] eqn:Er.
  - destruct asked as [s|]; [|done]. injection Hw as Hw. apply wp_bind, wp_unlogged. intros s2. simpl.
    set (d := (CalculateBackoff request s1).1).
    apply wp_bind, wp_logged. simpl. apply wp_bind. eapply wp_conseq; [apply tryThrottle_quiet|].
    intros err n2 (evs & E & Hq). simpl in E. rewrite <- app_assoc in E. destruct err as [e|].
    + apply wp_bind, wp_unlogged. intros s3. apply wp_ret. eexists. split; [exact E|]. by split.
    + apply wp_ret. eexists. split; [exact E|]. split; [done|]. split; [|done].
      eexists _, evs. split; [done|]. split; [done|]. intros s' [= <-]. rewrite <- Hw.
      destruct (_ <? _) eqn:?; lia.
  - destruct asked; [done|]. apply wp_bind, wp_unlogged. intros s2. apply wp_bind, wp_logged, wp_ret.
    eexists. split; [reflexivity|]. split; [done|]. split; [|done]. by eexists _, [].
Qed.

(** ** The retry loop *)

(** At most [k] attempts with [q], and the outcome of the last one if the loop
    ended with it.  An outcome that asks for it is retried as long as there
    are attempts left. *)
Inductive rounds (q : HTTPRequest) (accepts : res Response → bool) (f : error → bool) :
    nat → option Z → list net_event → option (res Response) → Prop :=
  | rounds_none k asked evs : quiet evs → rounds q accepts f k asked evs None
  | rounds_last k asked pre out :
      quiet pre → paused asked pre → accepts out = true ∨ asks_again f out = None ∨ k = O →
      rounds q accepts f (Datatypes.S k) asked (pre ++ [Sent q out]) (Some out)
  | rounds_again k asked pre out s evs last :
      quiet pre → paused asked pre → accepts out = false → asks_again f out = Some s →
      rounds q accepts f k (Some s) evs last →
      rounds q accepts f (Datatypes.S k) asked (pre ++ Sent q out :: evs) last.

Lemma IsNextRetry_spec out f r :
  match (IsNextRetry out f r).1 with
  | true => attempts r < maxRetries r ∧ ∃ s, asks_again f out = Some s ∧ waits (Some s) (IsNextRetry out f r).2 ∧
      attempts (IsNextRetry out f r).2 = attempts r + 1 ∧ maxRetries (IsNextRetry out f r).2 = maxRetries r
  | false => asks_again f out = None ∨ maxRetries r ≤ attempts r
  end.
Proof.
  unfold IsNextRetry, asks_again. cbv zeta. cbn [maxRetries].
  destruct (Z.ltb_spec (maxRetries r) (attempts r + 1)); [right; lia|].
  destruct (response_to_check out f) as [resp|]; [|by left]. simpl.
  destruct (checkWait resp) as [s|]; [|by left]. simpl. split; [lia|]. by exists s.
Qed.

(** What [e] says when the attempts were [evs] and the last outcome [last]. *)
Definition ends_with (e : ending) (last : option (res Response)) : Prop :=
  match e with NotSent _ => last = None | LastSent _ out => last = Some out end.

Definition loop_spec k accepts f request asked n (e : ending) (n' : Net S) : Prop :=
  ∃ evs last, log n' = log n ++ evs ∧ rounds (newHTTPRequest request) accepts f k asked evs last ∧ ends_with e last.

Lemma attempt_once k accepts f request asked r n :
  waits asked r → Z.of_nat k = maxRetries r - attempts r →
  (∀ s r' n', waits (Some s) r' → attempts r < maxRetries r →
    maxRetries r' = maxRetries r → attempts r' = attempts r + 1 →
    wp (attempt_loop k accepts f request r') (loop_spec k accepts f request (Some s) n') n') →
  wp (attempt_loop (Datatypes.S k) accepts f request r)
    (loop_spec (Datatypes.S k) accepts f request asked n) n.
Proof.
  intros Hw Hk Hagain. cbn [attempt_loop]. apply wp_bind. eapply wp_conseq; [by apply Before_spec|].
  intros [err r'] n1 (pre & E1 & Hq & Hb). simpl in Hb.
  destruct err as [e|]; [apply wp_ret; exists pre, None; split_and!; [done|by constructor|done]|].
  destruct Hb as [Hp ->]. destruct (http_NewRequest _) as [e|];
    [apply wp_ret; exists pre, None; split_and!; [done|by constructor|done]|].
  apply wp_bind, wp_logged. simpl. set (out := (client_Do _ _).1). unfold After.
  apply wp_bind, wp_bind, wp_unlogged. intros s2. simpl. apply wp_ret. rewrite E1.
  assert (∀ r2, accepts out = true ∨ asks_again f out = None ∨ k = O →
    wp (mret (LastSent r2 out)) (loop_spec (Datatypes.S k) accepts f request asked n)
      {| net := s2; log := (log n ++ pre) ++ [Sent (newHTTPRequest request) out] |}) as Hlast.
  { intros r2 Hstop. apply wp_ret. exists (pre ++ [Sent (newHTTPRequest request) out]), (Some out).
    split_and!; [by rewrite <- app_assoc|by constructor|done]. }
  destruct (accepts out) eqn:Ha; [apply Hlast; by left|].
  pose proof (IsNextRetry_spec out f (with_retryAfter None r)) as Hn. simpl in Hn.
  destruct (IsNextRetry out f (with_retryAfter None r)) as [again r2]. simpl in Hn. destruct again.
  - destruct Hn as (Hlt & s & Hs & Hw2 & Ha2 & Hm2). eapply wp_conseq; [by apply (Hagain s)|].
    intros e n3 (evs & last & E3 & Hr & He). simpl in E3.
    exists (pre ++ Sent (newHTTPRequest request) out :: evs), last. split_and!; [|by econstructor|done].
    rewrite E3, <- !app_assoc. done.
  - apply Hlast. destruct Hn as [?|?]; [by right; left|right; right; lia].
Qed.

Lemma attempt_loop_spec k accepts f request asked r n :
  waits asked r → Z.of_nat k = maxRetries r - attempts r →
  wp (attempt_loop (Datatypes.S k) accepts f request r)
    (loop_spec (Datatypes.S k) accepts f request asked n) n.
Proof.
  revert asked r n. induction k as [|k IH]; intros asked r n Hw Hk; apply attempt_once; try done.
  - intros s r' n' _ Hlt. lia.
  - intros s r' n' Hw' Hlt Hm Ha. apply IH; [done|lia].
Qed.

Lemma attempt_all_spec k accepts f request n :
  0 ≤ k →
  wp (attempt_all k accepts f request (defaultRequestRetryFn k))
    (loop_spec (Datatypes.S (Z.to_nat k)) accepts f request None n) n.
Proof. intros Hk. apply attempt_loop_spec; [done|simpl; lia]. Qed.

(** ** What the rounds look like in the log *)

Lemma quiet_app evs evs' : quiet (evs ++ evs') ↔ quiet evs ∧ quiet evs'.
Proof. unfold quiet. rewrite sends_app. split; [intros E; by apply app_eq_nil in E|by intros [-> ->]]. Qed.

Lemma quiet_no_Sent evs q out : quiet evs → Sent q out ∉ evs.
Proof.
  intros Hq Hin. apply list_elem_of_split in Hin as (l1 & l2 & ->). apply quiet_app in Hq as [_ Hq]. done.
Qed.

Lemma rounds_length q accepts f k asked evs last :
  rounds q accepts f k asked evs last → (length (sends evs) ≤ k)%nat.
Proof.
  induction 1 as [k asked evs Hq|k asked pre out Hq|k asked pre out s evs last Hq _ _ _ _ IH].
  - rewrite Hq. simpl. lia.
  - rewrite sends_app, Hq. simpl. lia.
  - rewrite sends_app, Hq. simpl. lia.
Qed.

Lemma rounds_request q accepts f k asked evs last q' out :
  rounds q accepts f k asked evs last → Sent q' out ∈ evs → q' = q.
Proof.
  induction 1 as [k asked evs Hq|k asked pre out' Hq|k asked pre out' s evs last Hq _ _ _ _ IH].
  - by intros Hin%quiet_no_Sent.
  - intros [Hin|Hin]%elem_of_app; [by apply quiet_no_Sent in Hin|].
    by apply list_elem_of_singleton in Hin as [= -> _].
  - intros [Hin|[[= -> _]|Hin]%elem_of_cons]%elem_of_app; [by apply quiet_no_Sent in Hin|done|auto].
Qed.

Lemma rounds_asked q accepts f k s evs last :
  rounds q accepts f k (Some s) evs last → sends evs ≠ [] →
  ∃ d post, evs = Paused d :: post ∧ seconds_Duration s ≤ d.
Proof.
  inversion 1 as [? ? ? Hq|? ? ? ? _ (d & evs' & -> & _ & Hd)|? ? ? ? ? ? ? _ (d & evs' & -> & _ & Hd)]; subst.
  - done.
  - intros _. eexists d, _. split; [done|]. by apply Hd.
  - intros _. eexists d, _. split; [done|]. by apply Hd.
Qed.

(** An attempt that is followed by another. *)
Lemma rounds_again_asked q accepts f k asked evs last pre q' out post :
  rounds q accepts f k asked evs last → evs = pre ++ Sent q' out :: post → sends post ≠ [] →
  ∃ s d post', asks_again f out = Some s ∧ post = Paused d :: post' ∧ seconds_Duration s ≤ d.
Proof.
  intros Hr. revert pre. induction Hr as [k asked evs Hq|k asked pre' out' Hq|k asked pre' out' s evs last Hq _ _ Hs Hr IH];
    intros pre E Hne.
  - rewrite E in Hq. by apply quiet_app in Hq as [_ ?].
  - assert (sends (pre' ++ [Sent q out']) = sends pre ++ out :: sends post) as Es by (rewrite E; apply sends_app).
    rewrite sends_app, Hq in Es. simpl in Es. destruct (sends pre) as [|? [|]]; simpl in Es; try done.
    injection Es as _ Es. by rewrite <- Es in Hne.
  - apply app_split_elem in E as [(l & ->)|(l & -> & E)].
    + by apply quiet_app in Hq as [_ ?].
    + destruct l as [|ev l]; simplify_eq/=; [|by eapply IH].
      destruct (rounds_asked _ _ _ _ _ _ _ Hr Hne) as (d & post' & -> & Hd). by exists s, d, post'.
Qed.

(** The log ends with the outcome that is returned. *)
Lemma rounds_ends q accepts f k asked evs out :
  rounds q accepts f k asked evs (Some out) → ∃ pre, evs = pre ++ [Sent q out].
Proof.
  remember (Some out) as last eqn:El. induction 1 as [|k asked pre out' _ _ _|k asked pre out' s evs last _ _ _ _ _ IH].
  - done.
  - injection El as ->. by eexists.
  - destruct (IH El) as [pre' ->]. exists (pre ++ Sent q out' :: pre'). by rewrite <- app_assoc.
Qed.

(** Why the last outcome was not retried. *)
Lemma rounds_stop q accepts f k asked evs out :
  rounds q accepts f k asked evs (Some out) →
  accepts out = true ∨ asks_again f out = None ∨ length (sends evs) = k.
Proof.
  remember (Some out) as last eqn:El. induction 1 as [|k asked pre out' Hq _ Hs|k asked pre out' s evs last Hq _ _ _ _ IH].
  - done.
  - injection El as ->. destruct Hs as [?|[?| ->]]; auto. right. right. by rewrite sends_app, Hq.
  - destruct (IH El) as [?|[?|Hl]]; auto. right. right. rewrite sends_app, Hq. simpl. by rewrite Hl.
Qed.

Lemma WrapPreviousError_None r : WrapPreviousError r None = None.
Proof. done. Qed.

Lemma WrapPreviousError_Some r e : ∃ e', WrapPreviousError r (Some e) = Some e' ∧
  as_APIStatus e' = as_APIStatus e ∧ as_Errno e' = as_Errno e ∧ as_UrlError e' = as_UrlError e.
Proof.
  unfold WrapPreviousError. destruct (previousErr r) as [p|]; [|by exists e].
  case_bool_decide; [by exists e|]. by eexists.
Qed.

(** ** request *)

(** Nothing was sent, or the rounds of the loop. *)
Definition request_log (q : HTTPRequest) f (evs : list net_event) (last : option (res Response)) : Prop :=
  ∃ pre evs', evs = pre ++ evs' ∧ quiet pre ∧ rounds q (λ _, false) f 11 None evs' last.

Lemma request_log_quiet q f evs : quiet evs → request_log q f evs None.
Proof. intros Hq. exists evs, []. split; [by rewrite app_nil_r|]. split; [done|]. by constructor. Qed.

Definition unsendable (request : Request) : Prop :=
  err request ≠ None ∨ requestPreflightCheck request ≠ None.

Definition request_spec request n (out : option error * option Response) (n' : Net S) : Prop :=
  ∃ evs last, log n' = log n ++ evs ∧ request_log (newHTTPRequest request) (request_retryable request) evs last ∧
    (unsendable request → evs = []) ∧
    match out.2 with
    | Some resp => last = Some (Ok resp) ∧ out.1 = None
    | None => ∃ e, out.1 = Some e
    end.

Lemma NotSent_error fuel accepts f request r n e n' :
  attempt_loop fuel accepts f request r n = Some (NotSent e, n') → ∃ e', e = Some e'.
Proof.
  revert r n. induction fuel as [|fuel IH]; intros r n; [done|]. cbn [attempt_loop].
  intros ([err r'] & n1 & _ & E)%bind_Some. destruct err as [e1|].
  - destruct (WrapPreviousError_Some r' e1) as (e' & Hw & _). rewrite Hw in E. injection E as <- _. by exists e'.
  - destruct (http_NewRequest _) as [e1|]; [injection E as <- _; by exists e1|].
    apply bind_Some in E as (out & n2 & _ & (r2 & n3 & _ & E)%bind_Some). destruct (accepts out); [done|].
    destruct (IsNextRetry out f r2) as [[] r3]; [by apply IH in E|done].
Qed.

Lemma request_run request n : wp (request_ request) (request_spec request n) n.
Proof.
  unfold request_. assert (∀ e n', log n' = log n → wp (mret (Some e, None) : M (Net S) _) (request_spec request n) n') as Hno.
  { intros e n' E. apply wp_ret. exists [], None. split; [by rewrite app_nil_r|]. split; [by apply request_log_quiet|].
    split; [done|]. by exists e. }
  destruct (err request) as [e|] eqn:Ee; [by apply Hno|].
  destruct (requestPreflightCheck request) as [e|] eqn:Ep; [by apply Hno|].
  assert (¬ unsendable request) as Hs by (unfold unsendable; rewrite Ee, Ep; naive_solver).
  apply wp_bind. eapply wp_conseq; [apply tryThrottle_quiet|]. intros throttled n1 (pre & E1 & Hq).
  destruct throttled as [e|].
  { apply wp_ret. exists pre, None. split; [done|]. split; [by apply request_log_quiet|]. split; [done|]. by exists e. }
  assert (∀ b d (Q : unit → Net S → Prop) n, (∀ s, Q tt {| net := s; log := log n |}) →
    wp (if b : bool then unlogged (λ s, (tt, d s)) else mret tt) Q n) as Hctx.
  { intros b d Q n2 HQ. destruct b; [by apply wp_unlogged|]. apply wp_ret. by destruct n2. }
  apply wp_bind, Hctx. intros s1. apply wp_bind. eapply wp_conseq.
  { apply (wp_intro _ (λ e n', loop_spec 11 (λ _, false) (request_retryable request) request None
      {| net := s1; log := log n1 |} e n' ∧ ∀ err, e = NotSent err → ∃ e', err = Some e')).
    - eapply wp_total. by apply attempt_all_spec.
    - intros e n' E. split; [by eapply wp_run in E; [|by apply attempt_all_spec]|].
      intros err ->. by eapply NotSent_error. }
  intros e n2 [(evs & last & E2 & Hr & He) Hns]. apply wp_bind, Hctx. intros s2.
  assert (∀ out : option error * option Response, match out.2 with
    | Some resp => last = Some (Ok resp) ∧ out.1 = None
    | None => ∃ e, out.1 = Some e end → wp (mret out : M (Net S) _) (request_spec request n) {| net := s2; log := log n2 |}) as Hret.
  { intros out Hout. apply wp_ret. exists (pre ++ evs), last. split; [simpl in *; by rewrite E2, E1, app_assoc|].
    split; [by exists pre, evs|]. by split. }
  destruct e as [e|r [resp|e]]; simpl in He.
  - apply Hret. simpl. by apply Hns.
  - by apply Hret.
  - apply Hret. destruct (WrapPreviousError_Some r e) as (e' & Hw & _). exists e'. exact Hw.
Qed.

(** ** Watch *)

Lemma Watch_rounds request n :
  wp (Watch_ request) (λ _ n', ∃ evs last, log n' = log n ++ evs ∧
    ((evs = [] ∧ last = None) ∨ rounds (newHTTPRequest request) is_200 watch_retryable 11 None evs last)) n.
Proof.
  unfold Watch_. destruct (err request) as [e|].
  { apply wp_ret. exists [], None. split; [by rewrite app_nil_r|by left]. }
  apply wp_bind. eapply wp_conseq; [by apply attempt_all_spec|]. intros e n1 (evs & last & E1 & Hr & _).
  assert (∀ out : option StreamWatcher * option error,
    wp (mret out : M (Net S) _) (λ _ n', ∃ evs last, log n' = log n ++ evs ∧
      ((evs = [] ∧ last = None) ∨ rounds (newHTTPRequest request) is_200 watch_retryable 11 None evs last)) n1) as Hret.
  { intros out. apply wp_ret. exists evs, last. split; [done|by right]. }
  destruct e as [e|r [resp|e]]; [apply Hret| |case_match; apply Hret]. case_match; [|apply Hret].
  apply wp_bind, wp_unlogged. intros s2. case_match; apply wp_ret; exists evs, last; (split; [done|by right]).
Qed.

(** ** Retries *)

(** The error under a url.Error. *)
Definition inner (e : error) : error := default e (as_UrlError e).

(** The connection was closed, by the look of the error. *)
Inductive connection_ended (e : error) : Prop :=
  | ended_EOF : inner e = EEOF → connection_ended e
  | ended_UnexpectedEOF : inner e = EUnexpectedEOF → connection_ended e
  | ended_broken :
      Error (inner e) = "http: can't write HTTP request on broken connection" → connection_ended e
  | ended_GOAWAY pre post :
      Error (inner e) = pre +:+ "http2: server sent GOAWAY and closed the connection" +:+ post → connection_ended e
  | ended_reset pre post :
      Error (inner e) = pre +:+ "connection reset by peer" +:+ post → connection_ended e
  | ended_closed pre post :
      to_lower (Error (inner e)) = pre +:+ "use of closed network connection" +:+ post → connection_ended e.

(** What IsProbableEOF looks for in the text. *)
Definition connection_text (e : error) : bool :=
  bool_decide (Error e = "http: can't write HTTP request on broken connection")
  || contains (Error e) "http2: server sent GOAWAY and closed the connection"
  || contains (Error e) "connection reset by peer"
  || contains (to_lower (Error e)) "use of closed network connection".

Lemma connection_text_spec e :
  connection_ended e ↔ inner e = EEOF ∨ inner e = EUnexpectedEOF ∨ connection_text (inner e) = true.
Proof.
  unfold connection_text. rewrite !orb_true_iff, bool_decide_eq_true, !contains_spec. split.
  - intros [?|?|?|pre post ?|pre post ?|pre post ?]; eauto 10.
  - intros [?|[?|[[[?|(pre & post & ?)]|(pre & post & ?)]|(pre & post & ?)]]];
      [by apply ended_EOF|by apply ended_UnexpectedEOF|by apply ended_broken|by eapply ended_GOAWAY
      |by eapply ended_reset|by eapply ended_closed].
Qed.

Lemma IsProbableEOF_inner e :
  IsProbableEOF e = match inner e with EEOF | EUnexpectedEOF => true | _ => connection_text (inner e) end.
Proof. unfold IsProbableEOF, inner. by destruct (as_UrlError e). Qed.

Lemma IsProbableEOF_spec e : IsProbableEOF e = true ↔ connection_ended e.
Proof.
  rewrite IsProbableEOF_inner, connection_text_spec. generalize (connection_text (inner e)). intros b.
  destruct (inner e); naive_solver.
Qed.

(** Which errors a request may be sent again after: for the loop of Do and for
    that of Watch. *)
Definition do_again (request : Request) (e : error) : Prop :=
  verb request = "GET" ∧ (as_Errno e = Some ECONNRESET ∨ connection_ended e).

Definition watch_again (e : error) : Prop := connection_ended e ∨ net_IsTimeout e = true.

(** The outcome asks for the request to be sent again after [s] seconds: a 429
    or a server error with a Retry-After in seconds, or such an error. *)
Definition asked_by (again : error → Prop) (out : res Response) (s : Z) : Prop :=
  match out with
  | Ok resp =>
      (StatusCode resp = 429 ∨ 500 ≤ StatusCode resp) ∧
      header_RetryAfter resp ≠ "" ∧ Atoi (header_RetryAfter resp) = Some s
  | Err e => again e ∧ s = 1
  end.

Lemma asks_again_spec (f : error → bool) (again : error → Prop) out s :
  (∀ e, f e = true ↔ again e) → asks_again f out = Some s ↔ asked_by again out s.
Proof.
  intros Hf. destruct out as [resp|e]; unfold asks_again, response_to_check, asked_by; simpl.
  - unfold checkWait, retryAfterSeconds. destruct (_ || _) eqn:Hc.
    + apply orb_true_iff in Hc as [Hc%Z.eqb_eq|Hc%Z.leb_le]; case_bool_decide; naive_solver.
    + apply orb_false_iff in Hc as [?%Z.eqb_neq ?%Z.leb_gt]. split; [done|]. intros [[?|?] _]; lia.
  - rewrite <- Hf. destruct (f e); simpl; [|naive_solver].
    change (checkWait retryAfterResponse) with (Some 1). naive_solver.
Qed.

Lemma request_retryable_spec request e : request_retryable request e = true ↔ do_again request e.
Proof.
  unfold request_retryable, do_again, IsConnectionReset. case_bool_decide; simpl; [|naive_solver].
  rewrite orb_true_iff, IsProbableEOF_spec. destruct (as_Errno e) as [n|]; [rewrite Z.eqb_eq|]; naive_solver.
Qed.

Lemma watch_retryable_spec e : watch_retryable e = true ↔ watch_again e.
Proof. unfold watch_retryable, watch_again. by rewrite orb_true_iff, IsProbableEOF_spec. Qed.

(** The attempts of a request: at most eleven, all with [q]; another one is
    made only after the previous one asked for it, and after a pause that is
    not shorter than it asked for. *)
Definition well_retried (q : HTTPRequest) (again : error → Prop) (evs : list net_event) : Prop :=
  (length (sends evs) ≤ 11)%nat ∧ (∀ q' out, Sent q' out ∈ evs → q' = q) ∧
  ∀ pre q' out post, evs = pre ++ Sent q' out :: post → sends post ≠ [] →
    ∃ s d post', asked_by again out s ∧ post = Paused d :: post' ∧ seconds_Duration s ≤ d.

Lemma rounds_well_retried q accepts f again asked evs last :
  (∀ e, f e = true ↔ again e) → rounds q accepts f 11 asked evs last → well_retried q again evs.
Proof.
  intros Hf Hr. split; [by eapply rounds_length|]. split; [intros q' out; by eapply rounds_request|].
  intros pre q' out post E Hne. destruct (rounds_again_asked _ _ _ _ _ _ _ _ _ _ _ Hr E Hne) as (s & d & post' & Ha & ?).
  exists s, d, post'. split; [by eapply asks_again_spec|done].
Qed.

Lemma quiet_well_retried q again pre evs : quiet pre → well_retried q again evs → well_retried q again (pre ++ evs).
Proof.
  intros Hq (Hl & Hreq & Hask). split; [by rewrite sends_app, Hq|]. split.
  - intros q' out [Hin|Hin]%elem_of_app; [by apply quiet_no_Sent in Hin|by eapply Hreq].
  - intros pre' q' out post E Hne. apply app_split_elem in E as [(l & ->)|(l & -> & ->)]; [|by eapply Hask].
    by apply quiet_app in Hq as [_ ?].
Qed.

Lemma Do_run request n :
  wp (Do_ request) (λ result n', ∃ evs, log n' = log n ++ evs ∧
    well_retried (newHTTPRequest request) (do_again request) evs ∧
    (unsendable request → evs = []) ∧
    ((∃ e, result = failed e) ∨
     ∃ pre resp, evs = pre ++ [Sent (newHTTPRequest request) (Ok resp)] ∧ result = transformResponse request resp ∧
       ((∀ s, ¬ asked_by (do_again request) (Ok resp) s) ∨ length (sends evs) = 11%nat))) n.
Proof.
  unfold Do_. apply wp_bind. eapply wp_conseq; [apply request_run|].
  intros [e resp] n1 (evs & last & E1 & (pre & evs' & -> & Hq & Hr) & Hu & Hout). simpl in Hout.
  assert (well_retried (newHTTPRequest request) (do_again request) (pre ++ evs')) as Hw.
  { apply quiet_well_retried; [done|]. eapply rounds_well_retried; [apply request_retryable_spec|done]. }
  destruct resp as [resp|].
  - destruct Hout as [-> ->]. apply wp_ret. exists (pre ++ evs'). split; [done|]. split; [done|]. split; [done|]. right.
    destruct (rounds_ends _ _ _ _ _ _ _ Hr) as [pre' E]. exists (pre ++ pre'), resp.
    split; [by rewrite E, <- app_assoc|]. split; [done|]. rewrite sends_app, Hq.
    destruct (rounds_stop _ _ _ _ _ _ _ Hr) as [?|[Hn|?]]; [done|left|by right].
    intros s Hs. by rewrite (proj2 (asks_again_spec _ _ _ _ (request_retryable_spec request)) Hs) in Hn.
  - destruct Hout as [e' ->]. apply wp_ret. exists (pre ++ evs'). split; [done|]. split; [done|]. split; [done|].
    left. by exists e'.
Qed.

(** C31. Requests are retried only when the server asks for it.  Do always
    returns: it makes at most eleven attempts, all with the same HTTP request
    and none when building the request failed; another attempt follows only an
    outcome that asks for it, which is a response with status 429 or from 500
    on and a Retry-After in seconds, or for a GET an error by which the
    connection was reset or closed, which counts as one second; and it follows
    after a pause that is not shorter than what was asked.  So a write whose
    connection broke is never sent again.  The result is an error, or made
    from the response to the last attempt, which did not ask for another or
    was the eleventh.  Watch also returns, and keeps to the same rule, with
    closed connections and timeouts as the errors it goes on after. *)
Theorem requests_retry_when_asked request n :
  wp (Do_ request) (λ result n', ∃ evs, log n' = log n ++ evs ∧
    well_retried (newHTTPRequest request) (do_again request) evs ∧
    (unsendable request → evs = []) ∧
    (verb request ≠ "GET" → ∀ pre q e post, evs = pre ++ Sent q (Err e) :: post → sends post = []) ∧
    ((∃ e, result = failed e) ∨
     ∃ pre resp, evs = pre ++ [Sent (newHTTPRequest request) (Ok resp)] ∧ result = transformResponse request resp ∧
       ((∀ s, ¬ asked_by (do_again request) (Ok resp) s) ∨ length (sends evs) = 11%nat))) n ∧
  wp (Watch_ request) (λ _ n', ∃ evs, log n' = log n ++ evs ∧
    well_retried (newHTTPRequest request) watch_again evs) n.
Proof.
  split.
  - eapply wp_conseq; [apply Do_run|]. intros result n1 (evs & E & Hw & Hu & Hout). exists evs.
    split; [done|]. split; [done|]. split; [done|]. split; [|done].
    intros Hv pre q e post ->. destruct (decide (sends post = [])) as [?|Hne]; [done|].
    destruct Hw as (_ & _ & Hask). by destruct (Hask _ _ _ _ eq_refl Hne) as (s & _ & _ & [[? _] _] & _).
  - eapply wp_conseq; [apply Watch_rounds|]. intros _ n1 (evs & last & E & Hr). exists evs. split; [done|].
    destruct Hr as [[-> _]|Hr]; [|by eapply rounds_well_retried; [apply watch_retryable_spec|]].
    split; [simpl; lia|]. split; [by intros q out ?%elem_of_nil|by intros []].
Qed.

(** ** Errors made from responses *)

Lemma wrap32_id z : - 2 ^ 31 ≤ z < 2 ^ 31 → wrap32 z = z.
Proof. intros Hz. unfold wrap32. rewrite Z.mod_small; lia. Qed.

Definition generic request resp body : error := transformUnstructuredResponseError request resp body.

(** The status a response without a Status in its body is turned into. *)
Lemma generic_status request resp body :
  ∃ s d msg, generic request resp body = EStatus s ∧
    Status_Reason s = (generic_reason (StatusCode resp) (verb request) msg).1 ∧
    Status_Code s = wrap32 (StatusCode resp) ∧ Status_Details s = Some d ∧
    Details_Causes d = [(CauseTypeUnexpectedServerResponse, msg)] ∧
    RetryAfterSeconds d = wrap32 (default 0 (retryAfterSeconds resp)).
Proof.
  unfold generic, transformUnstructuredResponseError, newUnstructuredResponseError, NewGenericServerResponse.
  cbv zeta. set (msg := if isTextResponse resp then _ else _).
  destruct (generic_reason (StatusCode resp) (verb request) msg) as [reason m] eqn:Er.
  do 2 eexists. exists msg. split; [reflexivity|]. rewrite Er. done.
Qed.

(** What the error predicates make of a reason and a code. *)
Definition classified (reason : string) (code : Z) (post : bool) : Prop :=
  (bool_decide (reason = StatusReasonNotFound) || (bool_decide (reason ∉ knownReasons) && (code =? 404)) = (code =? 404)) ∧
  (bool_decide (reason = StatusReasonConflict) || (bool_decide (reason ∉ knownReasons) && (code =? 409)) =
    (code =? 409) && negb post) ∧
  (bool_decide (reason = StatusReasonAlreadyExists) = (code =? 409) && post) ∧
  (bool_decide (reason = StatusReasonTooManyRequests) || (code =? 429) = (code =? 429)) ∧
  (bool_decide (reason = StatusReasonMethodNotAllowed) || (bool_decide (reason ∉ knownReasons) && (code =? 405)) =
    (code =? 405)) ∧
  bool_decide (reason = StatusReasonExpired) = false ∧ bool_decide (reason = StatusReasonServerTimeout) = false.

Lemma generic_classified code verb msg :
  classified (generic_reason code verb msg).1 code (bool_decide (verb = "POST")).
Proof.
  unfold generic_reason.
  repeat match goal with
  | |- context [if (code =? ?k) then _ else _] =>
      destruct (Z.eqb_spec code k) as [->|?];
        [try (destruct (bool_decide (verb = "POST"))); vm_compute; repeat split|]
  end.
  assert (∀ k, code ≠ k → (code =? k) = false) as Hk by (intros k; by apply Z.eqb_neq).
  unfold classified. rewrite !Hk by done.
  destruct (500 <=? code); vm_compute; repeat split; try (destruct code; reflexivity).
Qed.

Lemma generic_errors request resp body :
  100 ≤ StatusCode resp < 1000 →
  let e := generic request resp body in let code := StatusCode resp in
  let after := wrap32 (default 0 (retryAfterSeconds resp)) in
  IsNotFound e = (code =? 404) ∧
  IsConflict e = (code =? 409) && negb (bool_decide (verb request = "POST")) ∧
  IsAlreadyExists e = (code =? 409) && bool_decide (verb request = "POST") ∧
  IsTooManyRequests e = (code =? 429) ∧ IsMethodNotSupported e = (code =? 405) ∧
  IsResourceExpired e = false ∧ IsServerTimeout e = false ∧
  SuggestsClientDelay e = (if 0 <? after then Some after else None) ∧ IsUnexpectedServerError e = true.
Proof.
  intros Hc. cbv zeta. destruct (generic_status request resp body) as (s & d & msg & -> & Hr & Hcode & Hd & Hcs & Ha).
  rewrite wrap32_id in Hcode by lia. destruct (generic_classified (StatusCode resp) (verb request) msg)
    as (C1 & C2 & C3 & C4 & C5 & C6 & C7).
  unfold IsNotFound, IsConflict, IsMethodNotSupported, has_reason_or_code, IsTooManyRequests, IsAlreadyExists,
    IsResourceExpired, IsServerTimeout, ReasonForError, reasonAndCodeForError, SuggestsClientDelay,
    IsUnexpectedServerError. rewrite as_APIStatus_EStatus, Hr, Hcode, Hd, Ha.
  split_and!; try done.
  - apply bool_decide_eq_false in C7. by rewrite bool_decide_eq_false_2.
  - by rewrite Hcs.
Qed.

Lemma transformed request resp body d :
  resp_Body resp = Ok body → r_decoder (transformResponse request resp) = Some d →
  r_body (transformResponse request resp) = body ∧
  r_err (transformResponse request resp) =
    if acceptable resp then None else Some (generic request resp body).
Proof.
  intros Hb. unfold transformResponse. rewrite Hb. cbv zeta. case_bool_decide; [by destruct (acceptable resp)|].
  destruct (mime_ParseMediaType _) as [[mt ps]|]; [|done].
  destruct (Negotiator_Decoder mt ps); by destruct (acceptable resp).
Qed.

(** The content type of a response, with the client's when it names none. *)
Definition content_type_of (resp : Response) : string :=
  if bool_decide (header_ContentType resp = "") then content_ContentType else header_ContentType resp.

Lemma decoder_found request resp body mt ps d :
  resp_Body resp = Ok body → content_type_of resp ≠ "" → mime_ParseMediaType (content_type_of resp) = Ok (mt, ps) →
  Negotiator_Decoder mt ps = Ok d → r_decoder (transformResponse request resp) = Some d.
Proof.
  intros Hb Hct Hm Hn. unfold transformResponse. rewrite Hb. fold (content_type_of resp).
  rewrite bool_decide_eq_false_2 by done. rewrite Hm, Hn. by destruct (acceptable resp).
Qed.

Lemma acceptable_spec resp :
  acceptable resp = true ↔ StatusCode resp = 101 ∨ 200 ≤ StatusCode resp ≤ 206.
Proof. unfold acceptable. rewrite orb_true_iff, andb_true_iff, Z.eqb_eq, !Z.leb_le. lia. Qed.

(** C32. What becomes of a response that could be read, in a content type the
    client has a decoder for.  With a status from 200 to 206 or 101 the object
    is what the decoder makes of the body, which must not be empty.  Any other
    status is an error: the Status in the body, if there is a body and it
    decodes to a failure, and otherwise one made from the HTTP status, which
    the predicates the program asks recognise exactly as they should: not found
    for 404, a conflict or, for a POST, already exists for 409, too many
    requests for 429, not supported for 405, never expired or a server timeout,
    with the delay the Retry-After header suggests. *)
Theorem response_outcome request resp body mt ps d :
  resp_Body resp = Ok body → 100 ≤ StatusCode resp < 1000 →
  content_type_of resp ≠ "" → mime_ParseMediaType (content_type_of resp) = Ok (mt, ps) →
  Negotiator_Decoder mt ps = Ok d →
  let result := transformResponse request resp in
  let code := StatusCode resp in
  let after := wrap32 (default 0 (retryAfterSeconds resp)) in
  (code = 101 ∨ 200 ≤ code ≤ 206 →
    if decide (body = "") then ∃ e, Result_object result = Err e ∧ as_APIStatus e = None
    else Result_object result = d false body) ∧
  (¬ (code = 101 ∨ 200 ≤ code ≤ 206) →
    ∃ e, Result_object result = Err (match d true body with
         | Ok (OStatus false st) => if decide (body = "") then e else EStatus st
         | _ => e
         end) ∧
      IsNotFound e = (code =? 404) ∧
      IsConflict e = (code =? 409) && negb (bool_decide (verb request = "POST")) ∧
      IsAlreadyExists e = (code =? 409) && bool_decide (verb request = "POST") ∧
      IsTooManyRequests e = (code =? 429) ∧ IsMethodNotSupported e = (code =? 405) ∧
      IsResourceExpired e = false ∧ IsServerTimeout e = false ∧
      SuggestsClientDelay e = (if 0 <? after then Some after else None)).
Proof.
  intros Hb Hc Hct Hm Hn. cbv zeta. pose proof (decoder_found request _ _ _ _ _ Hb Hct Hm Hn) as Hd.
  destruct (transformed _ _ _ _ Hb Hd) as [Hbody Herr].
  destruct (generic_errors request resp body Hc) as (E1 & E2 & E3 & E4 & E5 & E6 & E7 & E8 & E9).
  unfold Result_object, Result_Error. rewrite Herr, Hd, Hbody, <- acceptable_spec.
  destruct (acceptable resp); split; try done.
  - intros _. destruct (decide (body = "")); [|by rewrite bool_decide_eq_false_2].
    rewrite bool_decide_eq_true_2 by done. by eexists.
  - intros _. exists (generic request resp body). split; [|by split_and!]. rewrite E9. simpl.
    destruct (d true body) as [[| | | | |[] st|]|], (decide (body = ""));
      rewrite ?bool_decide_eq_true_2, ?bool_decide_eq_false_2 by done; done.
Qed.
End retry_props.

(** ** A server that is busy at first *)

(** The responses the server has ready; it has no more to say after them. *)
#[export] Instance scripted : Transport (list (res Response)) := {|
  client_Do := λ req s, match s with out :: s => (out, s) | [] => (Err EEOF, []) end;
  http_NewRequest := λ req, None; ctx_Err := λ s, (None, s); context_WithTimeout := λ d s, s;
  context_cancel := λ s, s; rateLimiter := None; CalculateBackoff := λ r s, (0, s);
  backoff_Sleep := λ d s, s; UpdateBackoff := λ r err code s, s; net_IsTimeout := λ e, false;
  mime_ParseMediaType := λ s, Ok (s, []);
  Negotiator_Decoder := λ mt ps, Ok (λ v1 s, Ok (OBytes s));
  content_ContentType := "application/json"; content_Group := "migration.k8s.io";
  URL_String := http_path; StreamWatcher := unit; NewEmptyWatch := tt; newStreamWatcher := λ resp s, (Ok tt, s);
|}.

Definition answer (code : Z) (after body : string) : Response :=
  {| StatusCode := code; header_RetryAfter := after; header_ContentType := ""; header_FlowSchemaUID := "";
     resp_Body := Ok body |}.

Definition get_states (v : string) : Request :=
  {| verb := v; pathPrefix := "/apis/migration.k8s.io/v1alpha1"; params := []; contentType := "";
     namespace := ""; namespaceSet := false; resource := "storagestates"; resourceName := "pods";
     subresource := ""; timeout := 0; body := None; err := None |}.

Definition scripted_run (v : string) (outs : list (res Response)) : option (option error * list net_event) :=
  match Do_ (get_states v) {| net := outs; log := [] |} with
  | Some (result, n) => Some (Result_Error result, log n)
  | None => None
  end.

(** A 429 is retried after two seconds, also for a POST; a closed connection
    is retried for a GET only. *)
Example busy_then_done :
  scripted_run "POST" [Ok (answer 429 "2" ""); Ok (answer 201 "" "{}")] =
  Some (None, [Paused 0; Sent (newHTTPRequest (get_states "POST")) (Ok (answer 429 "2" "")); Paused (2 * Second);
               Sent (newHTTPRequest (get_states "POST")) (Ok (answer 201 "" "{}"))]).
Proof. vm_compute. reflexivity. Qed.

Example closed_then_done :
  sends <$> (snd <$> scripted_run "GET" [Err EEOF; Ok (answer 200 "" "{}")]) =
    Some [Err EEOF; Ok (answer 200 "" "{}")] ∧
  sends <$> (snd <$> scripted_run "PUT" [Err EEOF; Ok (answer 200 "" "{}")]) = Some [Err EEOF].
Proof. split; vm_compute; reflexivity. Qed.

Lemma response_outcome_witness :
  ∃ e, Result_object (transformResponse (get_states "GET") (answer 404 "" "gone")) = Err e ∧ IsNotFound e = true.
Proof.
  destruct (response_outcome (get_states "GET") (answer 404 "" "gone") "gone" "application/json" []
    (λ v1 s, Ok (OBytes s))) as [_ Hr].
  - reflexivity.
  - split; [discriminate|reflexivity].
  - discriminate.
  - reflexivity.
  - reflexivity.
  - destruct Hr as (e & Hr & Hn & _); [cbn; lia|]. exists e. split; [exact Hr|exact Hn].
Defined.
