(* ===== verification/Clientset.v ===== *)
(** * The typed clients: src/pkg/clients/clientset/typed/migration/v1alpha1

    storageversionmigration.go and storagestate.go are one template for two
    kinds; [kind] holds what differs.  The stream Watch returns is external. *)
From S2P Require Export Rest World.

Local Open Scope Z_scope.
Import v1alpha1.

Record kind (T L : Type) := {
  k_resource : string;
  k_Name : T → string;
  k_body : T → Object;
  k_of : Object → option T;
  k_list_of : Object → option L;
  k_new : T;
  k_new_list : L;
}.
Arguments k_resource {T L}.
Arguments k_Name {T L}.
Arguments k_body {T L}.
Arguments k_of {T L}.
Arguments k_list_of {T L}.
Arguments k_new {T L}.
Arguments k_new_list {T L}.

Definition storageVersionMigrations : kind StorageVersionMigration (list StorageVersionMigration) := {|
  k_resource := "storageversionmigrations";
  k_Name := svm_Name;
  k_body := OMigration;
  k_of := λ o, match o with OMigration m => Some m | _ => None end;
  k_list_of := λ o, match o with OMigrationList l => Some l | _ => None end;
  k_new := {| svm_Meta := metav1.empty_meta;
              svm_Spec := {| Spec_Resource := {| Group := ""; Version := ""; v1alpha1.Resource := "" |};
                             ContinueToken := "" |};
              svm_Status := {| Conditions := [] |} |};
  k_new_list := [];
|}.

Definition storageStates : kind StorageState (list StorageState) := {|
  k_resource := "storagestates";
  k_Name := λ s, metav1.Name (ss_Meta s);
  k_body := OState;
  k_of := λ o, match o with OState s => Some s | _ => None end;
  k_list_of := λ o, match o with OStateList l => Some l | _ => None end;
  k_new := {| ss_Meta := metav1.empty_meta;
              ss_Spec := {| ss_Resource := {| gr_Group := ""; gr_Resource := "" |} |};
              ss_Status := empty_status |};
  k_new_list := [];
|}.

(** Result.Into: an object of another kind leaves the result as it was made,
    and is an error only when it is a Status of failure. *)
Definition Into {T} (conv : Object → option T) (new : T) (r : res Object) : res T :=
  match r with
  | Err e => Err e
  | Ok o =>
      match conv o with
      | Some x => Ok x
      | None =>
          match o with
          | OStatus false st => Err (EStatus st)
          | _ => Ok new
          end
      end
  end.

(** time.Duration(opts.TimeoutSeconds) * time.Second, when that is set. *)
Definition list_timeout (timeoutSeconds : option Z) : Duration :=
  match timeoutSeconds with
  | Some seconds => seconds_Duration seconds
  | None => 0
  end.

Section client.
Context {S : Type} `{RESTClient S} {T L : Type} (K : kind T L).

Definition client_Get (name rv : string) (s : S) : res T * S :=
  let '(r, s) := Do (VersionedParams (GetOptions rv) (Name name (Rest.Resource (k_resource K) Get))) s in
  (Into (k_of K) (k_new K) r, s).

Definition client_List (opts : metav1.ListOptions) (timeoutSeconds : option Z) (s : S) : res L * S :=
  let '(r, s) := Do (Timeout (list_timeout timeoutSeconds)
    (VersionedParams (ListOptions opts timeoutSeconds) (Rest.Resource (k_resource K) Get))) s in
  (Into (k_list_of K) (k_new_list K) r, s).

Definition client_Create (obj : T) (s : S) : res T * S :=
  let '(r, s) := Do (Body (k_body K obj)
    (VersionedParams CreateOptions (Rest.Resource (k_resource K) Post))) s in
  (Into (k_of K) (k_new K) r, s).

Definition client_Update (obj : T) (s : S) : res T * S :=
  let '(r, s) := Do (Body (k_body K obj)
    (VersionedParams UpdateOptions (Name (k_Name K obj) (Rest.Resource (k_resource K) Put)))) s in
  (Into (k_of K) (k_new K) r, s).

Definition client_UpdateStatus (obj : T) (s : S) : res T * S :=
  let '(r, s) := Do (Body (k_body K obj) (VersionedParams UpdateOptions
    (SubResource ["status"] (Name (k_Name K obj) (Rest.Resource (k_resource K) Put))))) s in
  (Into (k_of K) (k_new K) r, s).

Definition client_Delete (name uid : string) (s : S) : option error * S :=
  let '(r, s) := Do (Body (ODeleteOptions uid) (Name name (Rest.Resource (k_resource K) Rest.Delete))) s in
  (res_error r, s).

Definition client_DeleteCollection (uid : string) (listOpts : metav1.ListOptions)
    (timeoutSeconds : option Z) (s : S) : option error * S :=
  let '(r, s) := Do (Body (ODeleteOptions uid) (Timeout (list_timeout timeoutSeconds)
    (VersionedParams (ListOptions listOpts timeoutSeconds) (Rest.Resource (k_resource K) Rest.Delete)))) s in
  (res_error r, s).

Definition client_Patch (name pt data : string) (subresources : list string) (s : S) : res T * S :=
  let '(r, s) := Do (Body (OBytes data) (VersionedParams PatchOptions
    (SubResource subresources (Name name (Rest.Resource (k_resource K) (Patch pt)))))) s in
  (Into (k_of K) (k_new K) r, s).

Definition client_Watch (opts : metav1.ListOptions) (timeoutSeconds : option Z) (s : S) : res Watcher * S :=
  Watch (Timeout (list_timeout timeoutSeconds)
    (VersionedParams (WatchOptions opts timeoutSeconds) (Rest.Resource (k_resource K) Get))) s.
End client.

(** The methods of the two clients. *)
Section clients.
Context {S : Type} `{RESTClient S}.

Definition storageVersionMigrations_Get := client_Get storageVersionMigrations.
Definition storageVersionMigrations_List := client_List storageVersionMigrations.
Definition storageVersionMigrations_Create := client_Create storageVersionMigrations.
Definition storageVersionMigrations_Update := client_Update storageVersionMigrations.
Definition storageVersionMigrations_UpdateStatus := client_UpdateStatus storageVersionMigrations.
Definition storageVersionMigrations_Delete := client_Delete storageVersionMigrations.
Definition storageVersionMigrations_DeleteCollection := client_DeleteCollection storageVersionMigrations.
Definition storageVersionMigrations_Patch := client_Patch storageVersionMigrations.
Definition storageVersionMigrations_Watch := client_Watch storageVersionMigrations.

Definition storageStates_Get := client_Get storageStates.
Definition storageStates_List := client_List storageStates.
Definition storageStates_Create := client_Create storageStates.
Definition storageStates_Update := client_Update storageStates.
Definition storageStates_UpdateStatus := client_UpdateStatus storageStates.
Definition storageStates_Delete := client_Delete storageStates.
Definition storageStates_DeleteCollection := client_DeleteCollection storageStates.
Definition storageStates_Patch := client_Patch storageStates.
Definition storageStates_Watch := client_Watch storageStates.
End clients.

(** The clients as the program uses them, with zero options. *)
#[export] Instance rest_migrations {S} `{RESTClient S} : StorageVersionMigrationInterface S := {|
  svm_Get := λ name, storageVersionMigrations_Get name "";
  svm_Update := storageVersionMigrations_Update;
  svm_UpdateStatus := storageVersionMigrations_UpdateStatus;
  svm_Create := storageVersionMigrations_Create;
  svm_Delete := λ name, storageVersionMigrations_Delete name "";
|}.

#[export] Instance rest_states {S} `{RESTClient S} : StorageStateInterface S := {|
  ss_Get := λ name, storageStates_Get name "";
  ss_Create := storageStates_Create;
  ss_UpdateStatus := storageStates_UpdateStatus;
  ss_Delete := λ name, storageStates_Delete name "";
|}.
