(* ===== verification/ClientsetProps.v ===== *)
(** * Theorems about the typed clients

    Which request each method sends, and that it sends none for a name that is
    not one path segment. *)
From S2P Require Export Clientset.

Local Open Scope Z_scope.
Import v1alpha1.

(** ** Names *)

Definition valid_name (name : string) : Prop := plain name ∧ contains name "%" = false.

#[global] Instance plain_dec s : Decision (plain s).
Proof. unfold plain. apply _. Defined.
#[global] Instance valid_name_dec s : Decision (valid_name s).
Proof. unfold valid_name. apply _. Defined.

Lemma contains_char c s : contains s (String c "") = negb (bool_decide (count_char c s = 0%nat)).
Proof.
  induction s as [|a s IH]; [done|]. change (contains (String a s) (String c ""))
    with ((bool_decide (c = a) && has_prefix "" s) || contains s (String c "")).
  rewrite IH. simpl. destruct (decide (a = c)) as [->|Hne].
  - rewrite !(bool_decide_eq_true_2 (c = c)) by done. by destruct s.
  - rewrite (bool_decide_eq_false_2 (a = c)), (bool_decide_eq_false_2 (c = a)) by congruence. done.
Qed.

(** What the REST client accepts as a segment: a valid name, or nothing. *)
Lemma IsValidPathSegmentName_nil name :
  IsValidPathSegmentName name = [] ↔ name = "" ∨ valid_name name.
Proof.
  unfold IsValidPathSegmentName, NameMayNotBe, NameMayNotContain, valid_name, plain.
  destruct (decide (name = ".")) as [->|H1]; [split; [done|naive_solver]|].
  destruct (decide (name = "..")) as [->|H2]; [split; [done|naive_solver]|].
  rewrite !(filter_cons_False (λ x, name = x)) by done.
  change (filter (λ x, name = x) []) with (@nil string). cbv iota.
  assert (contains name "/" = false ↔ count_char sep name = 0%nat) as Hsep.
  { change "/" with (String sep ""). rewrite contains_char. case_bool_decide; naive_solver. }
  destruct (contains name "/") eqn:Es.
  - rewrite filter_cons_True by done. rewrite fmap_cons. split; [done|].
    intros [->|[(_ & _ & _ & Hc) _]]; [done|]. apply Hsep in Hc. done.
  - rewrite filter_cons_False by (by rewrite Es).
    destruct (contains name "%") eqn:Ep.
    + rewrite filter_cons_True by done. split; [done|]. intros [->|[_ ?]]; done.
    + rewrite filter_cons_False by (by rewrite Ep). split; [intros _|done].
      destruct (decide (name = "")); [by left|right]. naive_solver.
Qed.

Lemma valid_plain name : valid_name name → plain name.
Proof. by intros []. Qed.

Lemma first_invalid_None subs :
  first_invalid subs = None ↔ Forall (λ s, s = "" ∨ valid_name s) subs.
Proof.
  induction subs as [|s subs IH]; [by split|]. simpl. rewrite Forall_cons, <- IH.
  rewrite <- IsValidPathSegmentName_nil. destruct (IsValidPathSegmentName s); naive_solver.
Qed.

(** ** The request a method should send *)

Inductive operation (T : Type) :=
  | OpGet (name rv : string)
  | OpList (opts : metav1.ListOptions) (timeoutSeconds : option Z)
  | OpCreate (obj : T)
  | OpUpdate (obj : T)
  | OpUpdateStatus (obj : T)
  | OpDelete (name uid : string)
  | OpDeleteCollection (uid : string) (opts : metav1.ListOptions) (timeoutSeconds : option Z)
  | OpPatch (name pt data : string) (subresources : list string).
Arguments OpGet {T}.
Arguments OpList {T}.
Arguments OpCreate {T}.
Arguments OpUpdate {T}.
Arguments OpUpdateStatus {T}.
Arguments OpDelete {T}.
Arguments OpDeleteCollection {T}.
Arguments OpPatch {T}.

Inductive outcome (T L : Type) :=
  | OneResult (r : res T)
  | ListResult (r : res L)
  | NoResult (err : option error).
Arguments OneResult {T L}.
Arguments ListResult {T L}.
Arguments NoResult {T L}.

Section spec.
Context {S : Type} `{RESTClient S} {T L : Type} (K : kind T L).

Definition perform (op : operation T) (s : S) : outcome T L * S :=
  match op with
  | OpGet name rv => let '(r, s) := client_Get K name rv s in (OneResult r, s)
  | OpList opts t => let '(r, s) := client_List K opts t s in (ListResult r, s)
  | OpCreate obj => let '(r, s) := client_Create K obj s in (OneResult r, s)
  | OpUpdate obj => let '(r, s) := client_Update K obj s in (OneResult r, s)
  | OpUpdateStatus obj => let '(r, s) := client_UpdateStatus K obj s in (OneResult r, s)
  | OpDelete name uid => let '(r, s) := client_Delete K name uid s in (NoResult r, s)
  | OpDeleteCollection uid opts t =>
      let '(r, s) := client_DeleteCollection K uid opts t s in (NoResult r, s)
  | OpPatch name pt data subs => let '(r, s) := client_Patch K name pt data subs s in (OneResult r, s)
  end.

(** The object an operation names. *)
Definition op_name (op : operation T) : option string :=
  match op with
  | OpGet name _ | OpDelete name _ | OpPatch name _ _ _ => Some name
  | OpUpdate obj | OpUpdateStatus obj => Some (k_Name K obj)
  | OpList _ _ | OpCreate _ | OpDeleteCollection _ _ _ => None
  end.

Definition op_subresources (op : operation T) : list string :=
  match op with OpUpdateStatus _ => ["status"] | OpPatch _ _ _ subs => subs | _ => [] end.

(** The path below the resource. *)
Definition op_path (op : operation T) : list string :=
  option_list (op_name op) ++ filter (λ s, s ≠ "") (op_subresources op).

Definition op_verb (op : operation T) : string :=
  match op with
  | OpGet _ _ | OpList _ _ => "GET"
  | OpCreate _ => "POST"
  | OpUpdate _ | OpUpdateStatus _ => "PUT"
  | OpDelete _ _ | OpDeleteCollection _ _ _ => "DELETE"
  | OpPatch _ _ _ _ => "PATCH"
  end.

Definition op_options (op : operation T) : option Options :=
  match op with
  | OpGet _ rv => Some (GetOptions rv)
  | OpList opts t | OpDeleteCollection _ opts t => Some (ListOptions opts t)
  | OpCreate _ => Some CreateOptions
  | OpUpdate _ | OpUpdateStatus _ => Some UpdateOptions
  | OpDelete _ _ => None
  | OpPatch _ _ _ _ => Some PatchOptions
  end.

Definition op_timeout (op : operation T) : Duration :=
  match op with
  | OpList _ t | OpDeleteCollection _ _ t => list_timeout t
  | _ => Client_Timeout
  end.

Definition op_body (op : operation T) : option Object :=
  match op with
  | OpGet _ _ | OpList _ _ => None
  | OpCreate obj | OpUpdate obj | OpUpdateStatus obj => Some (k_body K obj)
  | OpDelete _ uid | OpDeleteCollection uid _ _ => Some (ODeleteOptions uid)
  | OpPatch _ _ data _ => Some (OBytes data)
  end.

Definition op_contentType (op : operation T) : string :=
  match op with
  | OpGet _ _ | OpList _ _ => ""
  | OpPatch _ pt _ _ => pt
  | _ => ContentType
  end.

Definition op_finish (op : operation T) (r : res Object) : outcome T L :=
  match op with
  | OpList _ _ => ListResult (Into (k_list_of K) (k_new_list K) r)
  | OpDelete _ _ | OpDeleteCollection _ _ _ => NoResult (res_error r)
  | _ => OneResult (Into (k_of K) (k_new K) r)
  end.

(** The path of a resource, or of something below it. *)
Definition resource_path (below : list string) : string :=
  path_of (segs_of base_Path ++ ["apis"; "migration.k8s.io"; "v1alpha1"; k_resource K] ++ below).

Definition request_of (op : operation T) (ps : list (string * list string)) : HTTPRequest :=
  {| http_verb := op_verb op; http_path := resource_path (op_path op); http_query := ps;
     http_timeout := op_timeout op; http_contentType := op_contentType op; http_body := op_body op |}.

(** Every name in the operation is one segment of a path, the options and the
    body can be encoded. *)
Definition acceptable (op : operation T) (ps : list (string * list string)) : Prop :=
  (∀ name, op_name op = Some name → valid_name name) ∧
  Forall (λ s, s = "" ∨ valid_name s) (op_subresources op) ∧
  (match op_options op with Some opts => EncodeParameters opts = Ok ps | None => ps = [] end) ∧
  (match op_body op with
   | Some (OBytes _) | None => True
   | Some obj => encode_error obj = None
   end).

(** A base path without dots, and a resource as the API server writes it. *)
Definition base_ok : Prop := Forall (λ x, x = "" ∨ plain x) (segments base_Path).
Record kind_ok : Prop := {
  kind_valid : valid_name (k_resource K);
  kind_lower : to_lower (k_resource K) = k_resource K;
  kind_body : ∀ obj, match k_body K obj with OBytes _ => False | _ => True end;
}.
End spec.

Lemma migrations_kind_ok : kind_ok storageVersionMigrations.
Proof. split; [vm_compute; naive_solver|done|done]. Qed.
Lemma states_kind_ok : kind_ok storageStates.
Proof. split; [vm_compute; naive_solver|done|done]. Qed.

(** ** Building *)

Section building.
Context {S : Type} `{RESTClient S}.
Implicit Types r : Request.

Lemma Name_valid name r :
  err r = None → resourceName r = "" → valid_name name →
  Name name r = with_names (Rest.resource r) name (subresource r) r.
Proof.
  intros He Hr Hv. unfold Name. rewrite He, Hr.
  rewrite bool_decide_eq_false_2 by apply Hv. simpl.
  assert (IsValidPathSegmentName name = []) as -> by (apply IsValidPathSegmentName_nil; by right). done.
Qed.

Lemma Name_invalid name r :
  err r = None → resourceName r = "" → ¬ valid_name name → is_Some (err (Name name r)).
Proof.
  intros He Hr Hv. unfold Name. rewrite He, Hr. case_bool_decide as Hne; [by eexists|]. simpl.
  destruct (IsValidPathSegmentName name) as [|m l] eqn:E; [|by eexists].
  by apply IsValidPathSegmentName_nil in E as [?|?].
Qed.

Lemma Resource_valid res r :
  err r = None → Rest.resource r = "" → valid_name res →
  Rest.Resource res r = with_names res (resourceName r) (subresource r) r.
Proof.
  intros He Hr Hv. unfold Rest.Resource. rewrite He, Hr. simpl.
  assert (IsValidPathSegmentName res = []) as -> by (apply IsValidPathSegmentName_nil; by right). done.
Qed.

Lemma SubResource_valid subs r :
  err r = None → subresource r = "" → Forall (λ s, s = "" ∨ valid_name s) subs →
  SubResource subs r = with_names (Rest.resource r) (resourceName r) (Path.Join subs) r.
Proof.
  intros He Hr Hs. unfold SubResource. rewrite He, Hr. simpl.
  apply first_invalid_None in Hs as ->. done.
Qed.

Lemma VersionedParams_ok opts ps r :
  err r = None → EncodeParameters opts = Ok ps →
  VersionedParams opts r = with_params (params r ++ ps) r.
Proof. intros He Hp. unfold VersionedParams. by rewrite He, Hp. Qed.

(** Once something has gone wrong nothing else happens. *)
Lemma err_Name name r : is_Some (err r) → Name name r = r.
Proof. intros [e E]. unfold Name. by rewrite E. Qed.
Lemma err_SubResource subs r : is_Some (err r) → SubResource subs r = r.
Proof. intros [e E]. unfold SubResource. by rewrite E. Qed.
Lemma err_VersionedParams opts r : is_Some (err r) → VersionedParams opts r = r.
Proof. intros [e E]. unfold VersionedParams. by rewrite E. Qed.
Lemma err_Body obj r : is_Some (err r) → Body obj r = r.
Proof. intros [e E]. unfold Body. by rewrite E. Qed.
Lemma err_Do r s : is_Some (err r) → ∃ e, Do r s = (Err e, s).
Proof. intros [e E]. exists e. unfold Do. by rewrite E. Qed.

(** The path of a request. *)
Lemma URL_Path_of r pre :
  pathPrefix r = path_of pre → Forall plain pre → namespaceSet r = false →
  valid_name (Rest.resource r) → to_lower (Rest.resource r) = Rest.resource r →
  (resourceName r = "" ∨ plain (resourceName r)) →
  Forall (λ x, x = "" ∨ plain x) (segments (subresource r)) →
  URL_Path r = path_of (pre ++ [Rest.resource r] ++ segs_of (resourceName r) ++ segs_of (subresource r)).
Proof.
  intros Hp Hpre Hns Hres Hlow Hn Hsub. unfold URL_Path. rewrite Hp, Hns, Hlow.
  rewrite (bool_decide_eq_false_2 (Rest.resource r = "")) by apply Hres. simpl.
  assert (plain (Rest.resource r)) as Hrp by by apply valid_plain.
  rewrite Join_path_of; [|done|by constructor; [apply split_segs_plain|constructor]].
  cbn [mbind list_bind]. rewrite app_nil_r, segs_of_plain by done.
  assert (Forall plain (pre ++ [Rest.resource r])) as Hpr.
  { apply Forall_app. split; [done|]. by constructor. }
  assert (Forall (λ e, Forall (λ x, x = "" ∨ plain x) (segments e))
    [resourceName r; subresource r; ""]) as Hels.
  { assert (Forall (λ x, x = "" ∨ plain x) (segments "")) as Hnil by (constructor; [by left|constructor]).
    constructor; [|by constructor; [|constructor]].
    destruct Hn as [->|Hn]; [done|by apply split_segs_plain]. }
  case_bool_decide as Hn0; [case_bool_decide as Hs0|]; cbn [negb orb].
  - rewrite Hn0, Hs0. done.
  - rewrite Join_path_of by done. cbn [mbind list_bind]. change (segs_of "") with (@nil string).
    by rewrite !app_nil_r, <- !app_assoc.
  - rewrite Join_path_of by done. cbn [mbind list_bind]. change (segs_of "") with (@nil string).
    by rewrite !app_nil_r, <- !app_assoc.
Qed.

Lemma pathPrefix_of : base_ok → pathPrefix NewRequest =
  path_of (segs_of base_Path ++ ["apis"; "migration.k8s.io"; "v1alpha1"]).
Proof.
  intros Hb. unfold NewRequest. cbn [pathPrefix].
  change versionedAPIPath with "/apis/migration.k8s.io/v1alpha1".
  change (Path.Join ["/"; ?x; ?y]) with (Path.Join [String sep ""; x; y]).
  rewrite Join_rooted; [|by constructor; [left|constructor]|].
  - cbn [mbind list_bind]. rewrite app_nil_r. by f_equal.
  - constructor; [done|]. constructor; [|constructor]. vm_compute. repeat constructor; vm_compute; naive_solver.
Qed.
End building.

(** ** What the methods send *)

Section sends.
Context {S : Type} `{RESTClient S} {T L : Type} (K : kind T L).
Hypothesis HK : kind_ok K.

(** The start of every chain: the verb and the resource. *)
Definition begun (v ct : string) (name sub : string) : Request :=
  {| verb := v; pathPrefix := pathPrefix NewRequest; params := []; contentType := ct;
     namespace := ""; namespaceSet := false; Rest.resource := k_resource K; resourceName := name;
     subresource := sub; timeout := Client_Timeout; body := None; err := None |}.

Lemma Resource_begun v : Rest.Resource (k_resource K) (Verb v) = begun v "" "" "".
Proof. rewrite Resource_valid; [done..|apply HK]. Qed.

Lemma Resource_patch pt : Rest.Resource (k_resource K) (Patch pt) = begun "PATCH" pt "" "".
Proof. rewrite Resource_valid; [done..|apply HK]. Qed.

Lemma Name_begun v ct name : valid_name name → Name name (begun v ct "" "") = begun v ct name "".
Proof. intros Hn. by rewrite Name_valid. Qed.

Lemma SubResource_begun v ct name subs :
  Forall (λ s, s = "" ∨ valid_name s) subs →
  SubResource subs (begun v ct name "") = begun v ct name (Path.Join subs).
Proof. intros Hs. by rewrite SubResource_valid. Qed.

(** The end of every chain: parameters, timeout and body. *)
Definition ended (v ct name sub : string) (ps : list (string * list string)) (t : Duration)
    (b : option Object) : Request :=
  {| verb := v; pathPrefix := pathPrefix NewRequest; params := ps; contentType := ct;
     namespace := ""; namespaceSet := false; Rest.resource := k_resource K; resourceName := name;
     subresource := sub; timeout := t; body := b; err := None |}.

Lemma Params_ended v ct name sub opts ps :
  EncodeParameters opts = Ok ps →
  VersionedParams opts (begun v ct name sub) = ended v ct name sub ps Client_Timeout None.
Proof. intros Hp. by rewrite VersionedParams_ok with (ps := ps). Qed.

Lemma Body_ended v name sub ps t obj :
  (match obj with OBytes _ => False | _ => True end) → encode_error obj = None →
  Body obj (ended v "" name sub ps t None) = ended v ContentType name sub ps t (Some obj).
Proof. intros Hb He. unfold Body. simpl. rewrite He. by destruct obj. Qed.

Lemma Timeout_ended v ct name sub ps t t' b :
  Timeout t (ended v ct name sub ps t' b) = ended v ct name sub ps t b.
Proof. done. Qed.

Lemma begun_ended v ct name sub : begun v ct name sub = ended v ct name sub [] Client_Timeout None.
Proof. done. Qed.

Lemma Data_ended v ct name sub ps t data :
  Body (OBytes data) (ended v ct name sub ps t None) = ended v ct name sub ps t (Some (OBytes data)).
Proof. done. Qed.

Lemma ended_URL v ct name sub ps t b :
  base_ok → (name = "" ∨ plain name) → Forall (λ x, x = "" ∨ plain x) (segments sub) →
  URL_Path (ended v ct name sub ps t b) = resource_path K (segs_of name ++ segs_of sub).
Proof.
  intros Hb Hn Hs.
  erewrite URL_Path_of; [|by apply pathPrefix_of| |done|apply HK|apply HK|done|done].
  - unfold resource_path. by rewrite <- app_assoc.
  - apply Forall_app. split.
    + unfold segs_of, base_ok in *. apply Forall_forall. intros x [Hx Hin]%list_elem_of_filter.
      rewrite Forall_forall in Hb. by destruct (Hb _ Hin).
    + repeat constructor; vm_compute; naive_solver.
Qed.

Lemma Do_ended v ct name sub ps t b s :
  base_ok → (name = "" ∨ plain name) → Forall (λ x, x = "" ∨ plain x) (segments sub) →
  Do (ended v ct name sub ps t b) s =
  http_do {| http_verb := v; http_path := resource_path K (segs_of name ++ segs_of sub); http_query := ps;
             http_timeout := t; http_contentType := ct; http_body := b |} s.
Proof.
  intros Hb Hn Hs. unfold Do. simpl. unfold newHTTPRequest. f_equal. f_equal. by apply ended_URL.
Qed.

Lemma segs_of_name name : valid_name name → segs_of name = [name].
Proof. intros Hn. by apply segs_of_plain, valid_plain. Qed.

Lemma subs_plain subs :
  Forall (λ s, s = "" ∨ valid_name s) subs → Forall (λ s, s = "" ∨ plain s) subs.
Proof. intros Hs. eapply Forall_impl; [exact Hs|]. intros s [->|Hv]; [by left|right; apply Hv]. Qed.

Lemma segs_of_Join subs :
  Forall (λ s, s = "" ∨ valid_name s) subs → segs_of (Path.Join subs) = filter (λ s, s ≠ "") subs.
Proof.
  intros Hs%subs_plain. rewrite Join_relative by done. apply segs_of_unsplit.
  apply Forall_forall. intros x [Hx Hin]%list_elem_of_filter. rewrite Forall_forall in Hs.
  by destruct (Hs _ Hin).
Qed.

Lemma segments_Join subs :
  Forall (λ s, s = "" ∨ valid_name s) subs →
  Forall (λ x, x = "" ∨ plain x) (segments (Path.Join subs)).
Proof.
  intros Hs%subs_plain. rewrite Join_relative by done. apply split_unsplit_ok.
  apply Forall_forall. intros x [Hx Hin]%list_elem_of_filter. rewrite Forall_forall in Hs.
  by destruct (Hs _ Hin).
Qed.

Lemma encode_body obj :
  (match k_body K obj with OBytes _ => True | _ => encode_error (k_body K obj) = None end) →
  encode_error (k_body K obj) = None.
Proof. pose proof (kind_body K HK obj) as Hb. by destruct (k_body K obj). Qed.

Lemma segments_nil : Forall (λ x, x = "" ∨ plain x) (segments "").
Proof. constructor; [by left|constructor]. Qed.

Lemma perform_sends op ps s :
  base_ok → acceptable K op ps →
  perform K op s =
  let '(r, s') := http_do (request_of K op ps) s in (op_finish K op r, s').
Proof.
  intros Hb (Hn & Hs & Hp & He).
  assert (∀ name, op_name K op = Some name → segs_of name = [name] ∧ (name = "" ∨ plain name)) as Hn'.
  { intros name E. split; [apply segs_of_name|right; apply valid_plain]; auto. }
  pose proof segments_nil as Hnil. pose proof (segs_of_Join _ Hs) as Hsj. pose proof (segments_Join _ Hs) as Hsp.
  unfold request_of, op_path.
  destruct op as [name rv|opts t|obj|obj|obj|name uid|uid opts t|name pt data subs]; simpl in *;
    try specialize (Hn _ eq_refl); try destruct (Hn' _ eq_refl) as [Hseg Hpl];
    unfold client_Get, client_List, client_Create, client_Update, client_UpdateStatus, client_Delete,
      client_DeleteCollection, client_Patch, Get, Post, Put, Rest.Delete;
    rewrite ?Resource_begun, ?Resource_patch; try rewrite Name_begun by done;
    try rewrite SubResource_begun by done; try (rewrite (Params_ended _ _ _ _ _ _ Hp));
    try (rewrite begun_ended; subst ps); rewrite ?Timeout_ended, ?Data_ended;
    try (rewrite Body_ended by (exact I || exact He || apply (kind_body K HK) || by apply encode_body));
    rewrite Do_ended by (done || by left); try rewrite Hseg; rewrite ?Hsj; simpl; by destruct (http_do _ s).
Qed.

(** The request of a watch. *)
Definition watch_request (t : option Z) (ps : list (string * list string)) : HTTPRequest :=
  {| http_verb := "GET"; http_path := resource_path K []; http_query := ps; http_timeout := list_timeout t;
     http_contentType := ""; http_body := None |}.

Lemma watch_sends opts t ps s :
  base_ok → EncodeParameters (WatchOptions opts t) = Ok ps →
  client_Watch K opts t s = http_watch (watch_request t ps) s.
Proof.
  intros Hb Hp. unfold client_Watch, Get. rewrite Resource_begun, (Params_ended _ _ _ _ _ _ Hp), Timeout_ended.
  unfold Watch. cbn [err ended]. f_equal. unfold newHTTPRequest, watch_request. cbn [verb params timeout contentType body ended].
  f_equal. rewrite (ended_URL "GET" "" "" "" ps (list_timeout t) None); [done|done|by left|apply segments_nil].
Qed.

Lemma perform_refuses op name s :
  op_name K op = Some name → ¬ valid_name name → ∃ e, perform K op s = (op_finish K op (Err e), s).
Proof.
  intros Hn Hv.
  assert (∀ v ct, is_Some (err (Name name (begun v ct "" "")))) as Herr.
  { intros v ct. by apply Name_invalid. }
  assert (∀ r, is_Some (err r) → ∃ e, Do r s = (Err e, s)) as Hdo by (intros r; apply err_Do).
  assert (∀ v ct (f : Request → Request), (∀ r, is_Some (err r) → f r = r) →
    ∃ e, Do (f (Name name (begun v ct "" ""))) s = (Err e, s)) as Hf.
  { intros v ct f Hf. rewrite Hf by apply Herr. apply err_Do, Herr. }
  assert (∀ b opts r, is_Some (err r) → Body b (VersionedParams opts r) = r) as Hbp.
  { intros b opts r Hr. by rewrite err_VersionedParams, err_Body. }
  assert (∀ b opts subs r, is_Some (err r) → Body b (VersionedParams opts (SubResource subs r)) = r) as Hbs.
  { intros b opts subs r Hr. by rewrite err_SubResource, Hbp. }
  destruct op as [nm rv|opts t|obj|obj|obj|nm uid|uid opts t|nm pt data subs]; simplify_eq/=;
    unfold client_Get, client_Update, client_UpdateStatus, client_Delete, client_Patch, Get, Put, Rest.Delete;
    rewrite ?Resource_begun, ?Resource_patch.
  - destruct (Hf "GET" "" _ (err_VersionedParams (GetOptions rv))) as [e ->]. by exists e.
  - destruct (Hf "PUT" "" _ (Hbp (k_body K obj) UpdateOptions)) as [e ->]. by exists e.
  - destruct (Hf "PUT" "" _ (Hbs (k_body K obj) UpdateOptions ["status"])) as [e ->]. by exists e.
  - destruct (Hf "DELETE" "" _ (err_Body (ODeleteOptions uid))) as [e ->]. by exists e.
  - destruct (Hf "PATCH" pt _ (Hbs (OBytes data) PatchOptions subs)) as [e ->]. by exists e.
Qed.
End sends.

(** ** Paths *)

Section paths.
Context {S : Type} `{RESTClient S}.

Lemma plain_path res below :
  base_ok → valid_name res → Forall plain below →
  Forall plain (segs_of base_Path ++ ["apis"; "migration.k8s.io"; "v1alpha1"; res] ++ below).
Proof.
  intros Hb Hres Hbelow. rewrite !Forall_app. split_and!; [| |done].
  - unfold segs_of, base_ok in *. apply Forall_forall. intros x [Hx Hin]%list_elem_of_filter.
    rewrite Forall_forall in Hb. by destruct (Hb _ Hin).
  - repeat constructor; try (vm_compute; naive_solver); apply Hres.
Qed.

Lemma acceptable_plain {T L} (K : kind T L) op ps :
  acceptable K op ps → Forall plain (op_path K op).
Proof.
  intros (Hn & Hs & _). unfold op_path. apply Forall_app. split.
  - destruct (op_name K op) as [name|]; simpl; [|constructor].
    constructor; [by apply valid_plain, Hn|constructor].
  - apply Forall_forall. intros x [Hx Hin]%list_elem_of_filter. rewrite Forall_forall in Hs.
    destruct (Hs _ Hin) as [?|?]; [done|by apply valid_plain].
Qed.
End paths.

(** ** Claims *)

Section clientset_claims.
Context {S : Type} `{RESTClient S} {T L : Type} (K : kind T L).

(** C37. Every method of a typed client sends exactly one request, the one the
    API conventions ask for: the verb of the operation, the path made of the
    server's base path, /apis/migration.k8s.io/v1alpha1, the resource and, one
    segment each, the name and the subresources, with the options as the query
    and the object as the body; what it returns is what the server answered.
    When the name is not a single path segment (it is empty, a dot or two, or
    has a slash or a percent sign) it sends nothing and returns an error.  A
    watch is a GET of the collection as well. *)
Theorem client_sends_one_request (op : operation T) ps s :
  base_ok → kind_ok K →
  (acceptable K op ps →
   perform K op s = let '(r, s') := http_do (request_of K op ps) s in (op_finish K op r, s')) ∧
  (∀ name, op_name K op = Some name → ¬ valid_name name →
   ∃ e, perform K op s = (op_finish K op (Err e), s)) ∧
  (∀ opts t, EncodeParameters (WatchOptions opts t) = Ok ps →
   client_Watch K opts t s = http_watch (watch_request K t ps) s).
Proof.
  intros Hb HK. split_and!; [intros Ha; by apply perform_sends|intros name; by apply perform_refuses|].
  intros opts t. by apply watch_sends.
Qed.
End clientset_claims.

Section separate_claims.
Context {S : Type} `{RESTClient S} {T1 L1 T2 L2 : Type} (K1 : kind T1 L1) (K2 : kind T2 L2).

(** Two operations of the clients address the same path only if they are
    about the same resource, the same name and the same subresources: no name
    can make a client reach another object, a subresource of one, or the
    collection. *)
Theorem client_paths_separate (op1 : operation T1) (op2 : operation T2) ps1 ps2 :
  base_ok → kind_ok K1 → kind_ok K2 → acceptable K1 op1 ps1 → acceptable K2 op2 ps2 →
  http_path (request_of K1 op1 ps1) = http_path (request_of K2 op2 ps2) →
  k_resource K1 = k_resource K2 ∧ op_path K1 op1 = op_path K2 op2.
Proof.
  intros Hb HK1 HK2 Ha1 Ha2 E. simpl in E. unfold resource_path in E. apply path_of_inj in E.
  - apply app_inv_head in E. by injection E as -> ->.
  - apply plain_path; [done|apply HK1|by eapply acceptable_plain].
  - apply plain_path; [done|apply HK2|by eapply acceptable_plain].
Qed.
End separate_claims.

(** ** Witnesses *)

(** A server that logs the requests and answers with a migration. *)
#[export] Instance logging_client : RESTClient (list HTTPRequest) := {|
  base_Path := "/k8s/";
  Client_Timeout := 0;
  ContentType := "application/json";
  EncodeParameters := λ opts, match opts with
    | GetOptions rv => Ok [("resourceVersion", [rv])]
    | _ => Ok []
    end;
  encode_error := λ _, None;
  http_do := λ r log, (Ok (OMigration (k_new storageVersionMigrations)), log ++ [r]);
  Watcher := unit;
  http_watch := λ r log, (Ok tt, log ++ [r]);
|}.

Lemma logging_base_ok : base_ok.
Proof. unfold base_ok. apply (bool_decide_unpack _). vm_compute. exact I. Qed.

Definition named (name : string) : StorageVersionMigration :=
  {| svm_Meta := {| metav1.Name := name; metav1.GenerateName := ""; metav1.Namespace := "";
                    metav1.ResourceVersion := ""; metav1.UID := ""; metav1.Labels := ∅ |};
     svm_Spec := svm_Spec (k_new storageVersionMigrations);
     svm_Status := {| Conditions := [] |} |}.

Lemma acceptable_named name : valid_name name →
  acceptable storageVersionMigrations (OpUpdateStatus (named name)) [].
Proof.
  intros Hn. split_and!; [by intros ? [= <-]| |done|done].
  constructor; [right; vm_compute; naive_solver|constructor].
Qed.

Lemma client_sends_one_request_witness :
  (snd (perform storageVersionMigrations (OpUpdateStatus (named "pods-1")) []) =
     [{| http_verb := "PUT";
         http_path := "/k8s/apis/migration.k8s.io/v1alpha1/storageversionmigrations/pods-1/status";
         http_query := []; http_timeout := 0; http_contentType := "application/json";
         http_body := Some (OMigration (named "pods-1")) |}]) ∧
  (acceptable storageVersionMigrations (OpUpdateStatus (named "pods-1")) [] →
   perform storageVersionMigrations (OpUpdateStatus (named "pods-1")) [] =
   let '(r, s') := http_do (request_of storageVersionMigrations (OpUpdateStatus (named "pods-1")) []) [] in
   (op_finish storageVersionMigrations (OpUpdateStatus (named "pods-1")) r, s')) ∧
  ∃ e, perform storageVersionMigrations (OpGet "../secrets" "") [] =
    (op_finish storageVersionMigrations (OpGet "../secrets" "") (Err e), []).
Proof.
  split; [vm_compute; reflexivity|]. split.
  - apply (client_sends_one_request storageVersionMigrations (OpUpdateStatus (named "pods-1")) [] []);
      [exact logging_base_ok|exact migrations_kind_ok].
  - apply (client_sends_one_request storageVersionMigrations (OpGet "../secrets" "") [] []
      logging_base_ok migrations_kind_ok) with (name := "../secrets"); [reflexivity|].
    apply (bool_decide_unpack _). vm_compute. exact I.
Defined.

Lemma client_paths_separate_witness :
  k_resource storageVersionMigrations = k_resource storageVersionMigrations ∧
  ["pods-1"; "status"] = ["pods-1"; "status"].
Proof.
  apply (client_paths_separate storageVersionMigrations storageVersionMigrations
    (OpUpdateStatus (named "pods-1")) (OpUpdateStatus (named "pods-1")) [] []);
    [exact logging_base_ok|exact migrations_kind_ok|exact migrations_kind_ok| | |reflexivity];
    apply acceptable_named; apply (bool_decide_unpack _); vm_compute; exact I.
Defined.
