(* ===== verification/DeepCopy.v ===== *)
(** * Deep copies: src/pkg/apis/migration/v1alpha1/zz_generated.deepcopy.go

    The generated functions, and those of metav1 they call
    (apimachinery/pkg/apis/meta/v1/zz_generated.deepcopy.go), over a heap: a
    struct is a value whose pointers, slices and maps are references, nil or
    the location of a struct, an array or a map.  [DeepCopyInto] of a type
    returns the struct it writes to [out]; it and everything it calls may
    allocate.  [None] is a panic (a nil dereference, an index out of range). *)
From S2P Require Export Types Store.

Import v1alpha1.

(** ** Structs in memory *)

Definition loc := positive.

Record TypeMeta := { Kind : string; APIVersion : string }.

(** metav1.Time, a struct around a time.Time, which is immutable. *)
Record Time_ := { time : Time }.

Record ListMeta := {
  lm_SelfLink : string;
  lm_ResourceVersion : string;
  lm_Continue : string;
  lm_RemainingItemCount : option loc;
}.

Record OwnerReference := {
  or_APIVersion : string;
  or_Kind : string;
  or_Name : string;
  or_UID : string;
  or_Controller : option loc;
  or_BlockOwnerDeletion : option loc;
}.

Record FieldsV1 := { Raw : option loc }.

Record ManagedFieldsEntry := {
  mf_Manager : string;
  mf_Operation : string;
  mf_APIVersion : string;
  mf_Time : option loc;
  mf_FieldsType : string;
  mf_FieldsV1 : option loc;
  mf_Subresource : string;
}.

Record ObjectMeta := {
  om_Name : string;
  om_GenerateName : string;
  om_Namespace : string;
  om_SelfLink : string;
  om_UID : string;
  om_ResourceVersion : string;
  om_Generation : Z;
  om_CreationTimestamp : Time_;
  om_DeletionTimestamp : option loc;
  om_DeletionGracePeriodSeconds : option loc;
  om_Labels : option loc;
  om_Annotations : option loc;
  om_OwnerReferences : option loc;
  om_Finalizers : option loc;
  om_ManagedFields : option loc;
}.

Record StorageVersionMigrationStatus_ := { Conditions_ : option loc }.

Record StorageVersionMigration_ := {
  m_TypeMeta : TypeMeta;
  m_ObjectMeta : ObjectMeta;
  m_Spec : StorageVersionMigrationSpec;
  m_Status : StorageVersionMigrationStatus_;
}.

Record StorageStateStatus_ := {
  PersistedStorageVersionHashes_ : option loc;
  CurrentStorageVersionHash_ : string;
  LastHeartbeatTime_ : Time;
}.

Record StorageState_ := {
  s_TypeMeta : TypeMeta;
  s_ObjectMeta : ObjectMeta;
  s_Spec : StorageStateSpec;
  s_Status : StorageStateStatus_;
}.

Record StorageVersionMigrationList_ := {
  ml_TypeMeta : TypeMeta;
  ml_ListMeta : ListMeta;
  ml_Items : option loc;
}.

Record StorageStateList_ := {
  sl_TypeMeta : TypeMeta;
  sl_ListMeta : ListMeta;
  sl_Items : option loc;
}.

(** What a location holds: the array of a slice, a map, or what is behind a
    pointer. *)
Inductive cell :=
  | ABytes (l : list Byte.byte)
  | AOwnerReferences (l : list OwnerReference)
  | AManagedFields (l : list ManagedFieldsEntry)
  | MStrings (m : gmap string string)
  | PInt64 (n : Z)
  | PBool (b : bool)
  | PTime (t : Time_)
  | PFieldsV1 (x : FieldsV1)
  | AStrings (l : list string)
  | AConditions (l : list MigrationCondition)
  | AMigrations (l : list StorageVersionMigration_)
  | AStates (l : list StorageState_)
  | PGroupResource (x : GroupResource)
  | PGroupVersionResource (x : GroupVersionResource)
  | PCondition (x : MigrationCondition)
  | PStateSpec (x : StorageStateSpec)
  | PMigrationSpec (x : StorageVersionMigrationSpec)
  | PMigrationStatus (x : StorageVersionMigrationStatus_)
  | PMigration (x : StorageVersionMigration_)
  | PMigrationList (x : StorageVersionMigrationList_)
  | PStateStatus (x : StorageStateStatus_)
  | PState (x : StorageState_)
  | PStateList (x : StorageStateList_).

Abbreviation Heap := (gmap loc cell).
Abbreviation Mem := (M Heap).

Definition alloc (c : cell) : Mem loc := λ h, Some (fresh (dom h), <[fresh (dom h) := c]> h).
Definition load (l : loc) : Mem cell := λ h, (λ c, (c, h)) <$> h !! l.
Definition store (l : loc) (c : cell) : Mem unit := λ h,
  if decide (is_Some (h !! l)) then Some (tt, <[l := c]> h) else None.
Definition crash {A} : Mem A := λ _, None.

(** ** Types with arrays and pointers in the heap *)

Class Arrayed (X : Type) := {
  array : list X → cell;
  of_array : cell → option (list X);
  of_array_array : ∀ l, of_array (array l) = Some l;
  zero : X;
}.

Class Pointed (X : Type) := {
  pointee : X → cell;
  of_pointee : cell → option X;
  of_pointee_pointee : ∀ x, of_pointee (pointee x) = Some x;
  new_value : X;
}.

Definition load_array {X} `{Arrayed X} (l : loc) : Mem (list X) :=
  c ← load l; match of_array c with Some xs => mret xs | None => crash end.

Definition load_pointee {X} `{Pointed X} (l : loc) : Mem X :=
  c ← load l; match of_pointee c with Some x => mret x | None => crash end.

Definition load_map (l : loc) : Mem (gmap string string) :=
  c ← load l; match c with MStrings m => mret m | _ => crash end.

(** ** The shape of the generated functions *)

(** DeepCopyInto of a type. *)
Class DeepCopier (X : Type) := DeepCopyInto : X → Mem X.

(** The loop that calls DeepCopyInto on each element of one array to fill the
    element of the other. *)
Fixpoint copy_elems {X} `{Arrayed X, DeepCopier X} (src dst : loc) (i n : nat) : Mem unit :=
  match n with
  | O => mret tt
  | S n =>
      xs ← load_array src;
      match xs !! i with
      | None => crash
      | Some x =>
          y ← DeepCopyInto x;
          ys ← load_array dst;
          (if decide (i < length ys) then store dst (array (<[i := y]> ys)) else crash) ;;
          copy_elems src dst (S i) n
      end
  end.

(** The copy of a slice field that is not nil: make, then the loop. *)
Definition copy_slice {X} `{Arrayed X, DeepCopier X} (p : option loc) : Mem (option loc) :=
  match p with
  | None => mret None
  | Some src =>
      xs ← load_array src;
      dst ← alloc (array (replicate (length xs) zero));
      copy_elems src dst 0 (length xs) ;;
      mret (Some dst)
  end.

(** DeepCopy: nil for nil; otherwise out := new(T), filled by DeepCopyInto. *)
Definition DeepCopy {X} `{Pointed X, DeepCopier X} (p : option loc) : Mem (option loc) :=
  match p with
  | None => mret None
  | Some l =>
      out ← alloc (pointee new_value);
      x ← load_pointee l;
      y ← DeepCopyInto x;
      store out (pointee y) ;;
      mret (Some out)
  end.

(** The loop over a map that copies its entries to another one. *)
Fixpoint copy_entries (src dst : loc) (keys : list string) : Mem unit :=
  match keys with
  | [] => mret tt
  | key :: keys =>
      m ← load_map src;
      match m !! key with
      | None => mret tt
      | Some val => out ← load_map dst; store dst (MStrings (<[key := val]> out))
      end ;;
      copy_entries src dst keys
  end.

(** The copy of a map that is not nil: make, then the loop, in the order the
    runtime picks. *)
Definition copy_map `{MapOrder} (p : option loc) : Mem (option loc) :=
  match p with
  | None => mret None
  | Some src =>
      dst ← alloc (MStrings ∅);
      m ← load_map src;
      copy_entries src dst (range (dom m)) ;;
      mret (Some dst)
  end.

(** DeepCopyObject: the copy as an interface, nil when it is nil. *)
Definition DeepCopyObject {X} `{Pointed X, DeepCopier X} (p : option loc) : Mem (option loc) :=
  c ← DeepCopy p;
  match c with Some c => mret (Some c) | None => mret None end.

(** ** metav1 *)

(** Values without references are copied by assignment: those of basic types,
    and the times, as metav1.Time.DeepCopyInto does. *)
#[export] Instance string_DeepCopyInto : DeepCopier string := λ x, mret x.
#[export] Instance byte_DeepCopyInto : DeepCopier Byte.byte := λ x, mret x.
#[export] Instance int64_DeepCopyInto : DeepCopier Z := λ x, mret x.
#[export] Instance bool_DeepCopyInto : DeepCopier bool := λ x, mret x.
#[export] Instance Time_DeepCopyInto : DeepCopier Time_ := λ x, mret {| time := time x |}.

#[export, refine] Instance strings_array : Arrayed string :=
  {| array := AStrings; of_array := λ c, match c with AStrings l => Some l | _ => None end; zero := "" |}.
Proof. done. Defined.
#[export, refine] Instance bytes_array : Arrayed Byte.byte :=
  {| array := ABytes; of_array := λ c, match c with ABytes l => Some l | _ => None end; zero := Byte.x00 |}.
Proof. done. Defined.
#[export, refine] Instance int64_pointed : Pointed Z :=
  {| pointee := PInt64; of_pointee := λ c, match c with PInt64 x => Some x | _ => None end; new_value := 0%Z |}.
Proof. done. Defined.
#[export, refine] Instance bool_pointed : Pointed bool :=
  {| pointee := PBool; of_pointee := λ c, match c with PBool x => Some x | _ => None end; new_value := false |}.
Proof. done. Defined.
#[export, refine] Instance Time_pointed : Pointed Time_ :=
  {| pointee := PTime; of_pointee := λ c, match c with PTime x => Some x | _ => None end;
     new_value := {| time := zero_time |} |}.
Proof. done. Defined.

(** The pointer fields are copied by new, followed by an assignment or a
    DeepCopyInto, or by DeepCopy. *)
#[export] Instance ListMeta_DeepCopyInto : DeepCopier ListMeta := λ x,
  p ← DeepCopy (X:=Z) (lm_RemainingItemCount x);
  mret {| lm_SelfLink := lm_SelfLink x; lm_ResourceVersion := lm_ResourceVersion x;
          lm_Continue := lm_Continue x; lm_RemainingItemCount := p |}.

#[export] Instance OwnerReference_DeepCopyInto : DeepCopier OwnerReference := λ x,
  controller ← DeepCopy (X:=bool) (or_Controller x);
  block ← DeepCopy (X:=bool) (or_BlockOwnerDeletion x);
  mret {| or_APIVersion := or_APIVersion x; or_Kind := or_Kind x; or_Name := or_Name x; or_UID := or_UID x;
          or_Controller := controller; or_BlockOwnerDeletion := block |}.

(** The builtin copy takes the bytes, or the strings, one by one. *)
#[export] Instance FieldsV1_DeepCopyInto : DeepCopier FieldsV1 := λ x,
  p ← copy_slice (X:=Byte.byte) (Raw x); mret {| Raw := p |}.

#[export, refine] Instance FieldsV1_pointed : Pointed FieldsV1 :=
  {| pointee := PFieldsV1; of_pointee := λ c, match c with PFieldsV1 x => Some x | _ => None end;
     new_value := {| Raw := None |} |}.
Proof. done. Defined.

#[export] Instance ManagedFieldsEntry_DeepCopyInto : DeepCopier ManagedFieldsEntry := λ x,
  t ← DeepCopy (X:=Time_) (mf_Time x);
  fields ← DeepCopy (X:=FieldsV1) (mf_FieldsV1 x);
  mret {| mf_Manager := mf_Manager x; mf_Operation := mf_Operation x; mf_APIVersion := mf_APIVersion x;
          mf_Time := t; mf_FieldsType := mf_FieldsType x; mf_FieldsV1 := fields;
          mf_Subresource := mf_Subresource x |}.

#[export, refine] Instance owner_references_array : Arrayed OwnerReference :=
  {| array := AOwnerReferences; of_array := λ c, match c with AOwnerReferences l => Some l | _ => None end;
     zero := {| or_APIVersion := ""; or_Kind := ""; or_Name := ""; or_UID := ""; or_Controller := None;
                or_BlockOwnerDeletion := None |} |}.
Proof. done. Defined.
#[export, refine] Instance managed_fields_array : Arrayed ManagedFieldsEntry :=
  {| array := AManagedFields; of_array := λ c, match c with AManagedFields l => Some l | _ => None end;
     zero := {| mf_Manager := ""; mf_Operation := ""; mf_APIVersion := ""; mf_Time := None; mf_FieldsType := "";
                mf_FieldsV1 := None; mf_Subresource := "" |} |}.
Proof. done. Defined.

#[export] Instance ObjectMeta_DeepCopyInto `{MapOrder} : DeepCopier ObjectMeta := λ x,
  created ← DeepCopyInto (om_CreationTimestamp x);
  deleted ← DeepCopy (X:=Time_) (om_DeletionTimestamp x);
  grace ← DeepCopy (X:=Z) (om_DeletionGracePeriodSeconds x);
  labels ← copy_map (om_Labels x);
  annotations ← copy_map (om_Annotations x);
  owners ← copy_slice (X:=OwnerReference) (om_OwnerReferences x);
  finalizers ← copy_slice (X:=string) (om_Finalizers x);
  managed ← copy_slice (X:=ManagedFieldsEntry) (om_ManagedFields x);
  mret {| om_Name := om_Name x; om_GenerateName := om_GenerateName x; om_Namespace := om_Namespace x;
          om_SelfLink := om_SelfLink x; om_UID := om_UID x; om_ResourceVersion := om_ResourceVersion x;
          om_Generation := om_Generation x; om_CreationTimestamp := created;
          om_DeletionTimestamp := deleted; om_DeletionGracePeriodSeconds := grace; om_Labels := labels;
          om_Annotations := annotations; om_OwnerReferences := owners; om_Finalizers := finalizers;
          om_ManagedFields := managed |}.

(** ** The generated functions *)

#[export] Instance GroupResource_DeepCopyInto : DeepCopier GroupResource := λ x, mret x.
#[export] Instance GroupVersionResource_DeepCopyInto : DeepCopier GroupVersionResource := λ x, mret x.

(** The times, here as the time.Time inside them, are copied by assignment. *)
#[export] Instance MigrationCondition_DeepCopyInto : DeepCopier MigrationCondition := λ x,
  mret {| Type_ := Type_ x; CondStatus := CondStatus x; LastUpdateTime := LastUpdateTime x;
          Reason := Reason x; Message := Message x |}.

#[export] Instance StorageStateSpec_DeepCopyInto : DeepCopier StorageStateSpec := λ x,
  mret {| ss_Resource := ss_Resource x |}.

#[export] Instance StorageVersionMigrationSpec_DeepCopyInto : DeepCopier StorageVersionMigrationSpec := λ x,
  mret {| Spec_Resource := Spec_Resource x; ContinueToken := ContinueToken x |}.

Definition zero_condition : MigrationCondition :=
  {| Type_ := ""; CondStatus := ""; LastUpdateTime := zero_time; Reason := ""; Message := "" |}.

#[export, refine] Instance conditions_array : Arrayed MigrationCondition :=
  {| array := AConditions; of_array := λ c, match c with AConditions l => Some l | _ => None end;
     zero := zero_condition |}.
Proof. done. Defined.

#[export] Instance StorageVersionMigrationStatus_DeepCopyInto : DeepCopier StorageVersionMigrationStatus_ :=
  λ x, p ← copy_slice (X:=MigrationCondition) (Conditions_ x); mret {| Conditions_ := p |}.

(** The builtin copy takes the strings one by one. *)
#[export] Instance StorageStateStatus_DeepCopyInto : DeepCopier StorageStateStatus_ := λ x,
  p ← copy_slice (X:=string) (PersistedStorageVersionHashes_ x);
  mret {| PersistedStorageVersionHashes_ := p;
          CurrentStorageVersionHash_ := CurrentStorageVersionHash_ x;
          LastHeartbeatTime_ := LastHeartbeatTime_ x |}.

#[export] Instance StorageVersionMigration_DeepCopyInto `{MapOrder} : DeepCopier StorageVersionMigration_ := λ x,
  meta ← DeepCopyInto (m_ObjectMeta x);
  st ← DeepCopyInto (m_Status x);
  mret {| m_TypeMeta := m_TypeMeta x; m_ObjectMeta := meta; m_Spec := m_Spec x; m_Status := st |}.

#[export] Instance StorageState_DeepCopyInto `{MapOrder} : DeepCopier StorageState_ := λ x,
  meta ← DeepCopyInto (s_ObjectMeta x);
  st ← DeepCopyInto (s_Status x);
  mret {| s_TypeMeta := s_TypeMeta x; s_ObjectMeta := meta; s_Spec := s_Spec x; s_Status := st |}.

Definition no_type : TypeMeta := {| Kind := ""; APIVersion := "" |}.
Definition no_list_meta : ListMeta :=
  {| lm_SelfLink := ""; lm_ResourceVersion := ""; lm_Continue := ""; lm_RemainingItemCount := None |}.
Definition no_meta : ObjectMeta :=
  {| om_Name := ""; om_GenerateName := ""; om_Namespace := ""; om_SelfLink := ""; om_UID := "";
     om_ResourceVersion := ""; om_Generation := 0; om_CreationTimestamp := {| time := zero_time |};
     om_DeletionTimestamp := None; om_DeletionGracePeriodSeconds := None; om_Labels := None;
     om_Annotations := None; om_OwnerReferences := None; om_Finalizers := None; om_ManagedFields := None |}.
Definition no_gvr : GroupVersionResource := {| Group := ""; Version := ""; Resource := "" |}.
Definition no_spec : StorageVersionMigrationSpec := {| Spec_Resource := no_gvr; ContinueToken := "" |}.
Definition no_state_spec : StorageStateSpec := {| ss_Resource := {| gr_Group := ""; gr_Resource := "" |} |}.
Definition zero_migration : StorageVersionMigration_ :=
  {| m_TypeMeta := no_type; m_ObjectMeta := no_meta; m_Spec := no_spec;
     m_Status := {| Conditions_ := None |} |}.
Definition zero_state_status : StorageStateStatus_ :=
  {| PersistedStorageVersionHashes_ := None; CurrentStorageVersionHash_ := "";
     LastHeartbeatTime_ := zero_time |}.
Definition zero_state : StorageState_ :=
  {| s_TypeMeta := no_type; s_ObjectMeta := no_meta; s_Spec := no_state_spec;
     s_Status := zero_state_status |}.

#[export, refine] Instance migrations_array : Arrayed StorageVersionMigration_ :=
  {| array := AMigrations; of_array := λ c, match c with AMigrations l => Some l | _ => None end;
     zero := zero_migration |}.
Proof. done. Defined.
#[export, refine] Instance states_array : Arrayed StorageState_ :=
  {| array := AStates; of_array := λ c, match c with AStates l => Some l | _ => None end; zero := zero_state |}.
Proof. done. Defined.

#[export] Instance StorageVersionMigrationList_DeepCopyInto `{MapOrder} : DeepCopier StorageVersionMigrationList_ := λ x,
  meta ← DeepCopyInto (ml_ListMeta x);
  p ← copy_slice (X:=StorageVersionMigration_) (ml_Items x);
  mret {| ml_TypeMeta := ml_TypeMeta x; ml_ListMeta := meta; ml_Items := p |}.

#[export] Instance StorageStateList_DeepCopyInto `{MapOrder} : DeepCopier StorageStateList_ := λ x,
  meta ← DeepCopyInto (sl_ListMeta x);
  p ← copy_slice (X:=StorageState_) (sl_Items x);
  mret {| sl_TypeMeta := sl_TypeMeta x; sl_ListMeta := meta; sl_Items := p |}.

(** ** Pointers to the types *)

#[export, refine] Instance GroupResource_pointed : Pointed GroupResource :=
  {| pointee := PGroupResource; of_pointee := λ c, match c with PGroupResource x => Some x | _ => None end;
     new_value := {| gr_Group := ""; gr_Resource := "" |} |}.
Proof. done. Defined.
#[export, refine] Instance GroupVersionResource_pointed : Pointed GroupVersionResource :=
  {| pointee := PGroupVersionResource;
     of_pointee := λ c, match c with PGroupVersionResource x => Some x | _ => None end; new_value := no_gvr |}.
Proof. done. Defined.
#[export, refine] Instance MigrationCondition_pointed : Pointed MigrationCondition :=
  {| pointee := PCondition; of_pointee := λ c, match c with PCondition x => Some x | _ => None end;
     new_value := zero_condition |}.
Proof. done. Defined.
#[export, refine] Instance StorageStateSpec_pointed : Pointed StorageStateSpec :=
  {| pointee := PStateSpec; of_pointee := λ c, match c with PStateSpec x => Some x | _ => None end;
     new_value := no_state_spec |}.
Proof. done. Defined.
#[export, refine] Instance StorageVersionMigrationSpec_pointed : Pointed StorageVersionMigrationSpec :=
  {| pointee := PMigrationSpec; of_pointee := λ c, match c with PMigrationSpec x => Some x | _ => None end;
     new_value := no_spec |}.
Proof. done. Defined.
#[export, refine] Instance StorageVersionMigrationStatus_pointed : Pointed StorageVersionMigrationStatus_ :=
  {| pointee := PMigrationStatus; of_pointee := λ c, match c with PMigrationStatus x => Some x | _ => None end;
     new_value := {| Conditions_ := None |} |}.
Proof. done. Defined.
#[export, refine] Instance StorageVersionMigration_pointed : Pointed StorageVersionMigration_ :=
  {| pointee := PMigration; of_pointee := λ c, match c with PMigration x => Some x | _ => None end;
     new_value := zero_migration |}.
Proof. done. Defined.
#[export, refine] Instance StorageVersionMigrationList_pointed : Pointed StorageVersionMigrationList_ :=
  {| pointee := PMigrationList; of_pointee := λ c, match c with PMigrationList x => Some x | _ => None end;
     new_value := {| ml_TypeMeta := no_type; ml_ListMeta := no_list_meta; ml_Items := None |} |}.
Proof. done. Defined.
#[export, refine] Instance StorageStateStatus_pointed : Pointed StorageStateStatus_ :=
  {| pointee := PStateStatus; of_pointee := λ c, match c with PStateStatus x => Some x | _ => None end;
     new_value := zero_state_status |}.
Proof. done. Defined.
#[export, refine] Instance StorageState_pointed : Pointed StorageState_ :=
  {| pointee := PState; of_pointee := λ c, match c with PState x => Some x | _ => None end;
     new_value := zero_state |}.
Proof. done. Defined.
#[export, refine] Instance StorageStateList_pointed : Pointed StorageStateList_ :=
  {| pointee := PStateList; of_pointee := λ c, match c with PStateList x => Some x | _ => None end;
     new_value := {| sl_TypeMeta := no_type; sl_ListMeta := no_list_meta; sl_Items := None |} |}.
Proof. done. Defined.

Definition GroupResource_DeepCopy := DeepCopy (X:=GroupResource).
Definition GroupVersionResource_DeepCopy := DeepCopy (X:=GroupVersionResource).
Definition MigrationCondition_DeepCopy := DeepCopy (X:=MigrationCondition).
Definition StorageState_DeepCopy `{MapOrder} := DeepCopy (X:=StorageState_).
Definition StorageState_DeepCopyObject `{MapOrder} := DeepCopyObject (X:=StorageState_).
Definition StorageStateList_DeepCopy `{MapOrder} := DeepCopy (X:=StorageStateList_).
Definition StorageStateList_DeepCopyObject `{MapOrder} := DeepCopyObject (X:=StorageStateList_).
Definition StorageStateSpec_DeepCopy := DeepCopy (X:=StorageStateSpec).
Definition StorageStateStatus_DeepCopy := DeepCopy (X:=StorageStateStatus_).
Definition StorageVersionMigration_DeepCopy `{MapOrder} := DeepCopy (X:=StorageVersionMigration_).
Definition StorageVersionMigration_DeepCopyObject `{MapOrder} := DeepCopyObject (X:=StorageVersionMigration_).
Definition StorageVersionMigrationList_DeepCopy `{MapOrder} := DeepCopy (X:=StorageVersionMigrationList_).
Definition StorageVersionMigrationList_DeepCopyObject `{MapOrder} := DeepCopyObject (X:=StorageVersionMigrationList_).
Definition StorageVersionMigrationSpec_DeepCopy := DeepCopy (X:=StorageVersionMigrationSpec).
Definition StorageVersionMigrationStatus_DeepCopy := DeepCopy (X:=StorageVersionMigrationStatus_).
