(* ===== verification/DeepCopyProps.v ===== *)
(** * Theorems about the deep copies

    [den h x v F]: in the heap [h] the struct [x] stands for the value [v],
    read from the locations [F].  A copy stands for the same value and is read
    from new locations only. *)
From S2P Require Export DeepCopy.

Import v1alpha1.

(** What a type must provide for its copies to be deep. *)
Class Copyable (X V : Type) `{DeepCopier X} := {
  den : Heap → X → V → gset loc → Prop;
  den_dom : ∀ h x v F, den h x v F → F ⊆ dom h;
  den_frame : ∀ h h' x v F, den h x v F → (∀ l, l ∈ F → h' !! l = h !! l) → den h' x v F;
  den_copy : ∀ h x v F, den h x v F →
    ∃ y h' F', DeepCopyInto x h = Some (y, h') ∧ h ⊆ h' ∧ den h' y v F' ∧ F' ## dom h;
}.

Lemma den_mono {X V} `{Copyable X V} (h h' : Heap) x v F : h ⊆ h' → den h x v F → den h' x v F.
Proof.
  intros Hsub Hd. eapply den_frame; [done|]. intros l Hl.
  apply den_dom in Hd. assert (l ∈ dom h) as [c Hc]%elem_of_dom by set_solver.
  rewrite Hc. by eapply lookup_weaken.
Qed.

(** Types without references. *)
Definition flat_den {X} (h : Heap) (x : X) (v : X) (F : gset loc) : Prop := v = x ∧ F = ∅.

Lemma flat_copyable X `{DeepCopier X} :
  (∀ x h, DeepCopyInto x h = Some (x, h)) → Copyable X X.
Proof.
  intros Hc. refine {| den := flat_den |}.
  - by intros h x v F [_ ->].
  - by intros h h' x v F [-> ->] _.
  - intros h x v F [-> ->]. exists x, h, ∅. split_and!; [apply Hc|done|done|set_solver].
Defined.

(** ** Slices *)

Section slices.
Context {X V : Type} `{Arrayed X, Copyable X V}.

Definition den_array (h : Heap) (xs : list X) (vs : list V) (Fs : list (gset loc)) : Prop :=
  Forall3 (den h) xs vs Fs.

Definition den_slice (h : Heap) (p : option loc) (v : option (list V)) (F : gset loc) : Prop :=
  match p with
  | None => v = None ∧ F = ∅
  | Some l => ∃ xs vs Fs, h !! l = Some (array xs) ∧ v = Some vs ∧ den_array h xs vs Fs ∧
      F = {[l]} ∪ ⋃ Fs
  end.

Lemma den_array_dom h xs vs Fs : den_array h xs vs Fs → ⋃ Fs ⊆ dom h.
Proof.
  induction 1 as [|x v F xs vs Fs Hd _ IH]; simpl; [set_solver|].
  apply den_dom in Hd. set_solver.
Qed.

Lemma den_array_frame h h' xs vs Fs :
  den_array h xs vs Fs → (∀ l, l ∈ ⋃ Fs → h' !! l = h !! l) → den_array h' xs vs Fs.
Proof.
  induction 1 as [|x v F xs vs Fs Hd _ IH]; simpl; intros Hl; constructor.
  - eapply den_frame; [done|]. intros l Hin. apply Hl. set_solver.
  - apply IH. intros l Hin. apply Hl. set_solver.
Qed.

Lemma den_slice_dom h p v F : den_slice h p v F → F ⊆ dom h.
Proof.
  destruct p as [l|]; simpl; [|by intros [_ ->]].
  intros (xs & vs & Fs & Hl & _ & Ha%den_array_dom & ->). apply elem_of_dom_2 in Hl. set_solver.
Qed.

Lemma den_slice_frame h h' p v F :
  den_slice h p v F → (∀ l, l ∈ F → h' !! l = h !! l) → den_slice h' p v F.
Proof.
  destruct p as [l|]; simpl; [|done]. intros (xs & vs & Fs & Hl & -> & Ha & ->) Hf.
  exists xs, vs, Fs. split_and!; [|done| |done].
  - rewrite Hf; [done|set_solver].
  - eapply den_array_frame; [done|]. intros k Hk. apply Hf. set_solver.
Qed.

(** Facts about the memory primitives. *)
Lemma load_array_Some h l xs : h !! l = Some (array xs) → load_array l h = Some (xs, h).
Proof.
  intros Hl. unfold load_array, load, mbind, M_bind. simpl. rewrite Hl. simpl. by rewrite of_array_array.
Qed.

Lemma store_Some h l c c' : h !! l = Some c → store l c' h = Some (tt, <[l := c']> h).
Proof. intros Hl. unfold store. rewrite decide_True by by eexists. done. Qed.

(** Writing outside of what is read. *)
Lemma den_array_store h l c xs vs Fs :
  den_array h xs vs Fs → l ∉ ⋃ Fs → den_array (<[l := c]> h) xs vs Fs.
Proof.
  intros Ha Hl. eapply den_array_frame; [done|]. intros k Hk. apply lookup_insert_ne. set_solver.
Qed.

Lemma den_array_mono h h' xs vs Fs : h ⊆ h' → den_array h xs vs Fs → den_array h' xs vs Fs.
Proof.
  intros Hsub Ha. eapply den_array_frame; [done|]. intros l Hl. apply den_array_dom in Ha.
  assert (l ∈ dom h) as [c Hc]%elem_of_dom by set_solver. rewrite Hc. by eapply lookup_weaken.
Qed.

Lemma den_array_snoc h ys y vs v Gs G :
  den_array h ys vs Gs → den h y v G → den_array h (ys ++ [y]) (vs ++ [v]) (Gs ++ [G]).
Proof. intros Ha Hd. apply Forall3_app; [done|]. by constructor; [|constructor]. Qed.

Lemma union_list_snoc (Gs : list (gset loc)) G : ⋃ (Gs ++ [G]) = ⋃ Gs ∪ G.
Proof. rewrite union_list_app_L. simpl. by rewrite (right_id_L ∅ (∪)). Qed.

Lemma copy_elems_run h0 xs vs Fs src dst n h ys Gs :
  h0 !! src = Some (array xs) → den_array h0 xs vs Fs → h0 ⊆ h → dst ∉ dom h0 →
  h !! dst = Some (array (ys ++ replicate n zero)) → length ys + n = length xs →
  den_array h ys (take (length ys) vs) Gs → ⋃ Gs ## dom h0 → dst ∉ ⋃ Gs →
  ∃ h' zs Gs', copy_elems src dst (length ys) n h = Some (tt, h') ∧ h0 ⊆ h' ∧
    h' !! dst = Some (array zs) ∧ den_array h' zs vs Gs' ∧ ⋃ Gs' ## dom h0.
Proof.
  intros Hsrc Ha Hsub Hdst Hd Hlen Hys Hdis Hin.
  revert h ys Gs Hsub Hd Hlen Hys Hdis Hin. induction n as [|n IH]; intros h ys Gs Hsub Hd Hlen Hys Hdis Hin.
  - exists h, ys, Gs. rewrite app_nil_r in Hd. split_and!; try done.
    assert (length vs = length xs) as Hvs by by (apply Forall3_length_lm in Ha).
    rewrite take_ge in Hys by lia. done.
  - destruct (lookup_lt_is_Some_2 xs (length ys)) as [x Hx]; [lia|].
    destruct (Forall3_lookup_l _ _ _ _ _ _ Ha Hx) as (v & F & Hv & HF & Hden).
    destruct (den_copy h x v F) as (y & h1 & G & Hcp & Hsub1 & Hy & HG); [by eapply den_mono|].
    pose proof (lookup_weaken _ _ _ _ Hsrc Hsub) as Hsrc1.
    pose proof (lookup_weaken _ _ _ _ Hd Hsub1) as Hd1.
    assert (dst ∈ dom h) as Hdom by by eapply elem_of_dom_2.
    assert (<[length ys := y]> (ys ++ replicate (S n) zero) = (ys ++ [y]) ++ replicate n zero) as Hins.
    { rewrite insert_app_r_alt, Nat.sub_diag by lia. by rewrite <- app_assoc. }
    destruct (IH (<[dst := array ((ys ++ [y]) ++ replicate n zero)]> h1) (ys ++ [y]) (Gs ++ [G]))
      as (h' & zs & Gs' & Hrun & ? & ? & ? & ?).
    + apply insert_subseteq_r; [by apply not_elem_of_dom|]. by etrans.
    + apply lookup_insert_eq.
    + rewrite length_app. simpl. lia.
    + rewrite length_app, Nat.add_1_r. erewrite take_S_r by done. apply den_array_store.
      * apply den_array_snoc; [by eapply den_array_mono|done].
      * rewrite union_list_snoc. set_solver.
    + rewrite union_list_snoc. apply subseteq_dom in Hsub. set_solver.
    + rewrite union_list_snoc. set_solver.
    + exists h', zs, Gs'. split_and!; try done. simpl.
      rewrite (bind_step _ _ _ _ _ (load_array_Some h src xs Hsrc1)), Hx.
      rewrite (bind_step _ _ _ _ _ Hcp), (bind_step _ _ _ _ _ (load_array_Some h1 dst _ Hd1)).
      rewrite decide_True by (rewrite length_app; simpl; lia). rewrite Hins.
      rewrite (bind_step _ _ _ _ _ (store_Some h1 dst _ _ Hd1)).
      by rewrite length_app, Nat.add_1_r in Hrun.
Qed.

Lemma den_slice_copy h p v F :
  den_slice h p v F →
  ∃ q h' F', copy_slice p h = Some (q, h') ∧ h ⊆ h' ∧ den_slice h' q v F' ∧ F' ## dom h.
Proof.
  destruct p as [src|]; simpl.
  2: { intros [-> ->]. exists None, h, ∅. split_and!; (done || set_solver). }
  intros (xs & vs & Fs & Hsrc & -> & Ha & ->). set (dst := fresh (dom h)).
  assert (dst ∉ dom h) as Hdst by apply is_fresh.
  destruct (copy_elems_run h xs vs Fs src dst (length xs)
    (<[dst := array (replicate (length xs) zero)]> h) [] []) as (h' & zs & Gs & Hrun & ? & ? & ? & ?);
    try done.
  - apply insert_subseteq. by apply not_elem_of_dom.
  - apply lookup_insert_eq.
  - constructor.
  - exists (Some dst), h', ({[dst]} ∪ ⋃ Gs). split_and!; [|done| |set_solver].
    + rewrite (bind_step _ _ _ _ _ (load_array_Some h src xs Hsrc)). unfold alloc.
      erewrite bind_step by reflexivity. by rewrite (bind_step _ _ _ _ _ Hrun).
    + by exists zs, vs, Gs.
Qed.
End slices.

(** ** Pointers *)

Section pointers.
Context {X V : Type} `{Pointed X, Copyable X V}.

Definition den_pointer (h : Heap) (p : option loc) (v : option V) (F : gset loc) : Prop :=
  match p with
  | None => v = None ∧ F = ∅
  | Some l => ∃ x w G, h !! l = Some (pointee x) ∧ v = Some w ∧ den h x w G ∧ F = {[l]} ∪ G
  end.

Lemma den_pointer_frame h h' p v F :
  den_pointer h p v F → (∀ l, l ∈ F → h' !! l = h !! l) → den_pointer h' p v F.
Proof.
  destruct p as [l|]; simpl; [|done]. intros (x & w & G & Hl & -> & Hd & ->) Hf.
  exists x, w, G. split_and!; [|done| |done].
  - rewrite Hf; [done|set_solver].
  - eapply den_frame; [done|]. intros k Hk. apply Hf. set_solver.
Qed.

Lemma den_pointer_dom h p v F : den_pointer h p v F → F ⊆ dom h.
Proof.
  destruct p as [l|]; simpl; [|by intros [_ ->]].
  intros (x & w & G & Hl & _ & Hd%den_dom & ->). apply elem_of_dom_2 in Hl. set_solver.
Qed.

Lemma load_pointee_Some h l x : h !! l = Some (pointee x) → load_pointee l h = Some (x, h).
Proof.
  intros Hl. unfold load_pointee, load, mbind, M_bind. simpl. rewrite Hl. simpl.
  by rewrite of_pointee_pointee.
Qed.

Lemma DeepCopy_run h p v F :
  den_pointer h p v F →
  ∃ q h' F', DeepCopy p h = Some (q, h') ∧ h ⊆ h' ∧ den_pointer h' q v F' ∧ F' ## dom h.
Proof.
  destruct p as [l|]; simpl.
  2: { intros [-> ->]. exists None, h, ∅. split_and!; (done || set_solver). }
  intros (x & w & G & Hl & -> & Hd & ->). set (out := fresh (dom h)).
  assert (out ∉ dom h) as Hout by apply is_fresh.
  set (h1 := <[out := pointee new_value]> h).
  assert (h ⊆ h1) as Hsub1 by by apply insert_subseteq, not_elem_of_dom.
  destruct (den_copy h1 x w G) as (y & h2 & G' & Hcp & Hsub2 & Hy & HG'); [by eapply den_mono|].
  assert (h2 !! out = Some (pointee new_value)) as Hout2.
  { eapply lookup_weaken; [apply lookup_insert_eq|done]. }
  assert (dom h1 = {[out]} ∪ dom h) as Hdom1 by apply dom_insert_L.
  exists (Some out), (<[out := pointee y]> h2), ({[out]} ∪ G'). split_and!.
  - unfold alloc. erewrite bind_step by reflexivity. fold out h1.
    assert (h1 !! l = Some (pointee x)) as Hl1 by by eapply lookup_weaken.
    rewrite (bind_step _ _ _ _ _ (load_pointee_Some _ _ _ Hl1)), (bind_step _ _ _ _ _ Hcp).
    unfold store. rewrite (bind_step _ _ _ tt (<[out := pointee y]> h2)); [done|].
    rewrite decide_True by by eexists. done.
  - apply insert_subseteq_r; [by apply not_elem_of_dom|]. by etrans.
  - exists y, w, G'. split_and!; [apply lookup_insert_eq|done| |done].
    eapply den_frame; [done|]. intros k Hk. apply lookup_insert_ne. set_solver.
  - set_solver.
Qed.
End pointers.

(** ** Maps *)

Section maps.
Context `{MapOrder}.

Definition den_map (h : Heap) (p : option loc) (v : option (gmap string string)) (F : gset loc) : Prop :=
  match p with
  | None => v = None ∧ F = ∅
  | Some l => ∃ m, h !! l = Some (MStrings m) ∧ v = Some m ∧ F = {[l]}
  end.

Lemma load_map_Some h l m : h !! l = Some (MStrings m) → load_map l h = Some (m, h).
Proof. intros Hl. unfold load_map, load, mbind, M_bind. simpl. by rewrite Hl. Qed.

Lemma copy_entries_run m src dst keys h m' :
  (∀ k, k ∈ keys → k ∈ dom m) → src ≠ dst → h !! src = Some (MStrings m) → h !! dst = Some (MStrings m') →
  ∃ out, copy_entries src dst keys h = Some (tt, <[dst := MStrings out]> h) ∧
    ∀ k, out !! k = if decide (k ∈ keys) then m !! k else m' !! k.
Proof.
  intros Hk Hne Hsrc. revert h m' Hsrc. induction keys as [|key keys IH]; intros h m' Hsrc Hdst.
  { exists m'. by rewrite insert_id. }
  assert (key ∈ dom m) as [val Hval]%elem_of_dom by (apply Hk; by left).
  destruct (IH (λ k Hin, Hk k (list_elem_of_further _ _ _ Hin)) (<[dst := MStrings (<[key := val]> m')]> h)
    (<[key := val]> m')) as (out & Hrun & Hout).
  { by rewrite lookup_insert_ne. }
  { apply lookup_insert_eq. }
  exists out. split.
  - simpl. rewrite (bind_step _ _ _ _ _ (load_map_Some _ _ _ Hsrc)), Hval.
    rewrite (bind_step _ _ _ tt (<[dst := MStrings (<[key := val]> m')]> h)).
    + by rewrite Hrun, insert_insert_eq.
    + rewrite (bind_step _ _ _ _ _ (load_map_Some _ _ _ Hdst)). by eapply store_Some.
  - intros k. rewrite Hout. destruct (decide (k ∈ keys)) as [Hin|Hin].
    + by rewrite decide_True by (by right).
    + destruct (decide (k = key)) as [->|Hn].
      * by rewrite decide_True, lookup_insert_eq by left.
      * rewrite decide_False, lookup_insert_ne by (rewrite ?elem_of_cons; naive_solver). done.
Qed.

Lemma den_map_copy h p v F :
  den_map h p v F → ∃ q h' F', copy_map p h = Some (q, h') ∧ h ⊆ h' ∧ den_map h' q v F' ∧ F' ## dom h.
Proof.
  destruct p as [src|]; simpl.
  2: { intros [-> ->]. exists None, h, ∅. split_and!; (done || set_solver). }
  intros (m & Hsrc & -> & ->). set (dst := fresh (dom h)).
  assert (dst ∉ dom h) as Hdst by apply is_fresh.
  assert (src ≠ dst) as Hne by (intros ->; by apply Hdst, elem_of_dom).
  set (h1 := <[dst := MStrings ∅]> h).
  assert (h1 !! src = Some (MStrings m)) as Hsrc1 by (unfold h1; by rewrite lookup_insert_ne).
  destruct (copy_entries_run m src dst (range (dom m)) h1 ∅) as (out & Hrun & Hout); try done.
  { intros k. by rewrite elem_of_range. }
  { apply lookup_insert_eq. }
  assert (out = m) as ->.
  { apply map_eq. intros k. rewrite Hout. case_decide as Hin; [done|].
    rewrite elem_of_range, not_elem_of_dom in Hin. by rewrite Hin. }
  exists (Some dst), (<[dst := MStrings m]> h1), {[dst]}. split_and!.
  - unfold alloc. erewrite bind_step by reflexivity. fold dst h1.
    rewrite (bind_step _ _ _ _ _ (load_map_Some _ _ _ Hsrc1)). by rewrite (bind_step _ _ _ _ _ Hrun).
  - unfold h1. rewrite insert_insert_eq. by apply insert_subseteq, not_elem_of_dom.
  - exists m. split_and!; [apply lookup_insert_eq|done..].
  - set_solver.
Qed.
End maps.

(** ** Parts of structs

    [deep copy dn]: [copy] copies deeply what [dn] describes. *)
Record deep {Y W} (copy : Y → Mem Y) (dn : Heap → Y → W → gset loc → Prop) : Prop := {
  deep_dom : ∀ h y w F, dn h y w F → F ⊆ dom h;
  deep_frame : ∀ h h' y w F, dn h y w F → (∀ l, l ∈ F → h' !! l = h !! l) → dn h' y w F;
  deep_copy : ∀ h y w F, dn h y w F →
    ∃ y' h' F', copy y h = Some (y', h') ∧ h ⊆ h' ∧ dn h' y' w F' ∧ F' ## dom h;
}.

Create HintDb deep.

Lemma deep_struct {X V} `{Copyable X V} : deep (Y:=X) (W:=V) DeepCopyInto den.
Proof. split; [apply den_dom|apply den_frame|apply den_copy]. Qed.

Lemma deep_slice {X V} `{Arrayed X, Copyable X V} : deep (W:=option (list V)) (copy_slice (X:=X)) den_slice.
Proof. split; [apply den_slice_dom|apply den_slice_frame|apply den_slice_copy]. Qed.

Lemma deep_pointer {X V} `{Pointed X, Copyable X V} : deep (W:=option V) (DeepCopy (X:=X)) den_pointer.
Proof. split; [apply den_pointer_dom|apply den_pointer_frame|apply DeepCopy_run]. Qed.

Lemma deep_map `{MapOrder} : deep copy_map den_map.
Proof.
  split; [| |apply den_map_copy].
  - intros h [l|] v F; simpl; [|by intros [_ ->]]. intros (m & Hl%elem_of_dom_2 & _ & ->). set_solver.
  - intros h h' [l|] v F; simpl; [|done]. intros (m & Hl & -> & ->) Hf. exists m.
    rewrite Hf by set_solver. done.
Qed.

(** One part after the other. *)
Definition copy_both {Y1 Y2} (copy1 : Y1 → Mem Y1) (copy2 : Y2 → Mem Y2) (y : Y1 * Y2) : Mem (Y1 * Y2) :=
  y1 ← copy1 y.1; y2 ← copy2 y.2; mret (y1, y2).

Definition den_both {Y1 Y2 W1 W2} (dn1 : Heap → Y1 → W1 → gset loc → Prop) (dn2 : Heap → Y2 → W2 → gset loc → Prop)
    (h : Heap) (y : Y1 * Y2) (w : W1 * W2) (F : gset loc) : Prop :=
  ∃ F1 F2, dn1 h y.1 w.1 F1 ∧ dn2 h y.2 w.2 F2 ∧ F = F1 ∪ F2.

Lemma deep_both {Y1 Y2 W1 W2} (copy1 : Y1 → Mem Y1) (copy2 : Y2 → Mem Y2)
    (dn1 : Heap → Y1 → W1 → gset loc → Prop) (dn2 : Heap → Y2 → W2 → gset loc → Prop) :
  deep copy1 dn1 → deep copy2 dn2 → deep (copy_both copy1 copy2) (den_both dn1 dn2).
Proof.
  intros D1 D2. split.
  - intros h y w F (F1 & F2 & ?%(deep_dom _ _ D1) & ?%(deep_dom _ _ D2) & ->). set_solver.
  - intros h h' y w F (F1 & F2 & H1 & H2 & ->) Hf. exists F1, F2. split_and!; [| |done].
    + eapply (deep_frame _ _ D1); [done|]. intros l Hl. apply Hf. set_solver.
    + eapply (deep_frame _ _ D2); [done|]. intros l Hl. apply Hf. set_solver.
  - intros h [y1 y2] [w1 w2] F (F1 & F2 & H1 & H2 & ->). simpl in *.
    destruct (deep_copy _ _ D1 _ _ _ _ H1) as (z1 & h1 & G1 & E1 & Hsub1 & Hz1 & HG1).
    assert (∀ l, l ∈ F2 → h1 !! l = h !! l) as Hf.
    { intros l Hl. apply (deep_dom _ _ D2) in H2. assert (l ∈ dom h) as [c Hc]%elem_of_dom by set_solver.
      rewrite Hc. by eapply lookup_weaken. }
    destruct (deep_copy _ _ D2 h1 y2 w2 F2) as (z2 & h2 & G2 & E2 & Hsub2 & Hz2 & HG2).
    { by eapply (deep_frame _ _ D2). }
    exists (z1, z2), h2, (G1 ∪ G2). split_and!.
    + unfold copy_both. simpl. by rewrite (bind_step _ _ _ _ _ E1), (bind_step _ _ _ _ _ E2).
    + by etrans.
    + exists G1, G2. split_and!; [|done..]. eapply (deep_frame _ _ D1); [done|]. intros l Hl.
      apply (deep_dom _ _ D1) in Hz1. assert (l ∈ dom h1) as [c Hc]%elem_of_dom by set_solver.
      rewrite Hc. by eapply lookup_weaken.
    + apply subseteq_dom in Hsub1. set_solver.
Qed.

#[export] Hint Resolve deep_struct deep_slice deep_pointer deep_map deep_both : deep.

(** A struct whose parts are copied deeply: [get] is those parts, [put]
    replaces them, [rest] is everything else. *)
Section field.
Context {X R Y W : Type} `{DeepCopier X}.
Context (get : X → Y) (rest : X → R) (put : X → Y → X) (copy : Y → Mem Y)
  (dn : Heap → Y → W → gset loc → Prop).
Context (Hdeep : deep copy dn).

Definition field_den (h : Heap) (x : X) (v : R * W) (F : gset loc) : Prop :=
  v.1 = rest x ∧ dn h (get x) v.2 F.

Lemma field_copyable :
  (∀ x h, DeepCopyInto x h = (y ← copy (get x); mret (put x y)) h) →
  (∀ x y, get (put x y) = y) → (∀ x y, rest (put x y) = rest x) → Copyable X (R * W).
Proof.
  intros Hinto Hget Hrest. refine {| den := field_den |}.
  - intros h x v F [_ Hd]. by eapply deep_dom.
  - intros h h' x v F [Hv Hd] Hf. split; [done|]. by eapply deep_frame.
  - intros h x [r w] F [Hv Hd]. simpl in *. subst r.
    destruct (deep_copy _ _ Hdeep h (get x) w F Hd) as (y & h' & F' & Hc & Hsub & Hd' & HF).
    exists (put x y), h', F'. split_and!; [|done| |done].
    + rewrite Hinto. by rewrite (bind_step _ _ _ _ _ Hc).
    + split; simpl; [by rewrite Hrest|by rewrite Hget].
Defined.
End field.

(** A flat type; a struct, given the order in which its parts are copied. *)
Ltac flat := refine (flat_copyable _ _); by intros [].
Ltac same_copy into :=
  let x := fresh in let h := fresh in
  intros x h; unfold DeepCopyInto at 1; unfold into, copy_both, mbind, M_bind, mret, M_ret; simpl;
  repeat (case_match; simplify_eq/=; try done).
Ltac parts into get rest put copy dn :=
  refine (field_copyable get rest put copy dn ltac:(auto 20 with deep) _ _ _); [same_copy into|by intros [] [] ..].

#[export] Instance string_copyable : Copyable string string := flat_copyable _ (λ x h, eq_refl).
#[export] Instance byte_copyable : Copyable Byte.byte Byte.byte := flat_copyable _ (λ x h, eq_refl).
#[export] Instance int64_copyable : Copyable Z Z := flat_copyable _ (λ x h, eq_refl).
#[export] Instance bool_copyable : Copyable bool bool := flat_copyable _ (λ x h, eq_refl).
#[export] Instance Time_copyable : Copyable Time_ Time_.
Proof. flat. Defined.
#[export] Instance GroupResource_copyable : Copyable GroupResource GroupResource :=
  flat_copyable _ (λ x h, eq_refl).
#[export] Instance GroupVersionResource_copyable : Copyable GroupVersionResource GroupVersionResource :=
  flat_copyable _ (λ x h, eq_refl).
#[export] Instance MigrationCondition_copyable : Copyable MigrationCondition MigrationCondition.
Proof. flat. Defined.
#[export] Instance StorageStateSpec_copyable : Copyable StorageStateSpec StorageStateSpec.
Proof. flat. Defined.
#[export] Instance StorageVersionMigrationSpec_copyable :
  Copyable StorageVersionMigrationSpec StorageVersionMigrationSpec.
Proof. flat. Defined.

(** What the structs stand for: what is copied by assignment, and what their
    references stand for. *)
Definition list_meta : Type := (string * string * string) * option Z.
Definition owner_reference : Type := (string * string * string * string) * (option bool * option bool).
Definition fields_v1 : Type := unit * option (list Byte.byte).
Definition managed_fields_entry : Type :=
  (string * string * string * string * string) * (option Time_ * option fields_v1).
Definition object_meta : Type :=
  (string * string * string * string * string * string * Z) *
  (Time_ * (option Time_ * (option Z * (option (gmap string string) * (option (gmap string string) *
    (option (list owner_reference) * (option (list string) * option (list managed_fields_entry)))))))).
Definition migration_status : Type := unit * option (list MigrationCondition).
Definition state_status : Type := (string * Time) * option (list string).
Definition migration : Type :=
  (TypeMeta * StorageVersionMigrationSpec) * (object_meta * migration_status).
Definition state : Type := (TypeMeta * StorageStateSpec) * (object_meta * state_status).
Definition migration_list : Type := TypeMeta * (list_meta * option (list migration)).
Definition state_list : Type := TypeMeta * (list_meta * option (list state)).

#[export] Instance ListMeta_copyable : Copyable ListMeta list_meta.
Proof.
  parts (@ListMeta_DeepCopyInto) lm_RemainingItemCount (λ x, (lm_SelfLink x, lm_ResourceVersion x, lm_Continue x))
    (λ x p, {| lm_SelfLink := lm_SelfLink x; lm_ResourceVersion := lm_ResourceVersion x;
               lm_Continue := lm_Continue x; lm_RemainingItemCount := p |})
    (DeepCopy (X:=Z)) (den_pointer (X:=Z) (V:=Z)).
Defined.

#[export] Instance OwnerReference_copyable : Copyable OwnerReference owner_reference.
Proof.
  parts (@OwnerReference_DeepCopyInto) (λ x, (or_Controller x, or_BlockOwnerDeletion x))
    (λ x, (or_APIVersion x, or_Kind x, or_Name x, or_UID x))
    (λ x p, {| or_APIVersion := or_APIVersion x; or_Kind := or_Kind x; or_Name := or_Name x; or_UID := or_UID x;
               or_Controller := p.1; or_BlockOwnerDeletion := p.2 |})
    (copy_both (DeepCopy (X:=bool)) (DeepCopy (X:=bool)))
    (den_both (den_pointer (X:=bool) (V:=bool)) (den_pointer (X:=bool) (V:=bool))).
Defined.

#[export] Instance FieldsV1_copyable : Copyable FieldsV1 fields_v1.
Proof.
  parts (@FieldsV1_DeepCopyInto) Raw (λ _ : FieldsV1, tt) (λ (_ : FieldsV1) p, {| Raw := p |})
    (copy_slice (X:=Byte.byte)) (den_slice (X:=Byte.byte) (V:=Byte.byte)).
Defined.

#[export] Instance ManagedFieldsEntry_copyable : Copyable ManagedFieldsEntry managed_fields_entry.
Proof.
  parts (@ManagedFieldsEntry_DeepCopyInto) (λ x, (mf_Time x, mf_FieldsV1 x))
    (λ x, (mf_Manager x, mf_Operation x, mf_APIVersion x, mf_FieldsType x, mf_Subresource x))
    (λ x p, {| mf_Manager := mf_Manager x; mf_Operation := mf_Operation x; mf_APIVersion := mf_APIVersion x;
               mf_Time := p.1; mf_FieldsType := mf_FieldsType x; mf_FieldsV1 := p.2;
               mf_Subresource := mf_Subresource x |})
    (copy_both (DeepCopy (X:=Time_)) (DeepCopy (X:=FieldsV1)))
    (den_both (den_pointer (X:=Time_) (V:=Time_)) (den_pointer (X:=FieldsV1) (V:=fields_v1))).
Defined.

(** The parts of ObjectMeta that are not copied by assignment, in the order
    they are copied. *)
Section object_meta.
Context `{MapOrder}.

Definition meta_parts (x : ObjectMeta) :=
  (om_CreationTimestamp x, (om_DeletionTimestamp x, (om_DeletionGracePeriodSeconds x,
   (om_Labels x, (om_Annotations x, (om_OwnerReferences x, (om_Finalizers x, om_ManagedFields x))))))).

Definition with_meta_parts (x : ObjectMeta)
    (p : Time_ * (option loc * (option loc * (option loc * (option loc * (option loc * (option loc * option loc))))))) :=
  let '(created, (deleted, (grace, (labels, (annotations, (owners, (finalizers, managed))))))) := p in
  {| om_Name := om_Name x; om_GenerateName := om_GenerateName x; om_Namespace := om_Namespace x;
     om_SelfLink := om_SelfLink x; om_UID := om_UID x; om_ResourceVersion := om_ResourceVersion x;
     om_Generation := om_Generation x; om_CreationTimestamp := created; om_DeletionTimestamp := deleted;
     om_DeletionGracePeriodSeconds := grace; om_Labels := labels; om_Annotations := annotations;
     om_OwnerReferences := owners; om_Finalizers := finalizers; om_ManagedFields := managed |}.

Definition copy_meta_parts :=
  copy_both (DeepCopyInto (X:=Time_)) (copy_both (DeepCopy (X:=Time_)) (copy_both (DeepCopy (X:=Z))
    (copy_both copy_map (copy_both copy_map (copy_both (copy_slice (X:=OwnerReference))
      (copy_both (copy_slice (X:=string)) (copy_slice (X:=ManagedFieldsEntry)))))))).

Definition den_meta_parts :=
  den_both (den (X:=Time_) (V:=Time_)) (den_both (den_pointer (X:=Time_) (V:=Time_))
    (den_both (den_pointer (X:=Z) (V:=Z)) (den_both den_map (den_both den_map
      (den_both (den_slice (X:=OwnerReference) (V:=owner_reference))
        (den_both (den_slice (X:=string) (V:=string))
          (den_slice (X:=ManagedFieldsEntry) (V:=managed_fields_entry)))))))).

Lemma deep_meta_parts : deep copy_meta_parts den_meta_parts.
Proof. unfold copy_meta_parts, den_meta_parts. auto 20 with deep. Qed.

#[export] Instance ObjectMeta_copyable : Copyable ObjectMeta object_meta.
Proof.
  refine (field_copyable meta_parts (λ x, (om_Name x, om_GenerateName x, om_Namespace x, om_SelfLink x, om_UID x,
    om_ResourceVersion x, om_Generation x)) with_meta_parts copy_meta_parts den_meta_parts deep_meta_parts _ _ _).
  - unfold copy_meta_parts. same_copy (@ObjectMeta_DeepCopyInto).
  - by intros ? (? & ? & ? & ? & ? & ? & ? & ?).
  - by intros ? (? & ? & ? & ? & ? & ? & ? & ?).
Defined.
End object_meta.

#[export] Instance StorageVersionMigrationStatus_copyable : Copyable StorageVersionMigrationStatus_ migration_status.
Proof.
  parts (@StorageVersionMigrationStatus_DeepCopyInto) Conditions_ (λ _ : StorageVersionMigrationStatus_, tt)
    (λ (_ : StorageVersionMigrationStatus_) p, {| Conditions_ := p |})
    (copy_slice (X:=MigrationCondition)) (den_slice (X:=MigrationCondition) (V:=MigrationCondition)).
Defined.

#[export] Instance StorageStateStatus_copyable : Copyable StorageStateStatus_ state_status.
Proof.
  parts (@StorageStateStatus_DeepCopyInto) PersistedStorageVersionHashes_ (λ x, (CurrentStorageVersionHash_ x, LastHeartbeatTime_ x))
    (λ x p, {| PersistedStorageVersionHashes_ := p;
               CurrentStorageVersionHash_ := CurrentStorageVersionHash_ x;
               LastHeartbeatTime_ := LastHeartbeatTime_ x |})
    (copy_slice (X:=string)) (den_slice (X:=string) (V:=string)).
Defined.

Section objects.
Context `{MapOrder}.

#[export] Instance StorageVersionMigration_copyable : Copyable StorageVersionMigration_ migration.
Proof.
  parts (@StorageVersionMigration_DeepCopyInto) (λ x, (m_ObjectMeta x, m_Status x)) (λ x, (m_TypeMeta x, m_Spec x))
    (λ x p, {| m_TypeMeta := m_TypeMeta x; m_ObjectMeta := p.1; m_Spec := m_Spec x; m_Status := p.2 |})
    (copy_both (DeepCopyInto (X:=ObjectMeta)) (DeepCopyInto (X:=StorageVersionMigrationStatus_)))
    (den_both (den (X:=ObjectMeta) (V:=object_meta)) (den (X:=StorageVersionMigrationStatus_) (V:=migration_status))).
Defined.

#[export] Instance StorageState_copyable : Copyable StorageState_ state.
Proof.
  parts (@StorageState_DeepCopyInto) (λ x, (s_ObjectMeta x, s_Status x)) (λ x, (s_TypeMeta x, s_Spec x))
    (λ x p, {| s_TypeMeta := s_TypeMeta x; s_ObjectMeta := p.1; s_Spec := s_Spec x; s_Status := p.2 |})
    (copy_both (DeepCopyInto (X:=ObjectMeta)) (DeepCopyInto (X:=StorageStateStatus_)))
    (den_both (den (X:=ObjectMeta) (V:=object_meta)) (den (X:=StorageStateStatus_) (V:=state_status))).
Defined.

#[export] Instance StorageVersionMigrationList_copyable : Copyable StorageVersionMigrationList_ migration_list.
Proof.
  parts (@StorageVersionMigrationList_DeepCopyInto) (λ x, (ml_ListMeta x, ml_Items x)) ml_TypeMeta
    (λ x p, {| ml_TypeMeta := ml_TypeMeta x; ml_ListMeta := p.1; ml_Items := p.2 |})
    (copy_both (DeepCopyInto (X:=ListMeta)) (copy_slice (X:=StorageVersionMigration_)))
    (den_both (den (X:=ListMeta) (V:=list_meta)) (den_slice (X:=StorageVersionMigration_) (V:=migration))).
Defined.

#[export] Instance StorageStateList_copyable : Copyable StorageStateList_ state_list.
Proof.
  parts (@StorageStateList_DeepCopyInto) (λ x, (sl_ListMeta x, sl_Items x)) sl_TypeMeta
    (λ x p, {| sl_TypeMeta := sl_TypeMeta x; sl_ListMeta := p.1; sl_Items := p.2 |})
    (copy_both (DeepCopyInto (X:=ListMeta)) (copy_slice (X:=StorageState_)))
    (den_both (den (X:=ListMeta) (V:=list_meta)) (den_slice (X:=StorageState_) (V:=state))).
Defined.
End objects.

(** What a deep copy of a pointer is: it returns, in a heap that extends the
    old one; the copy stands for the same value, nil for nil, and is read from
    new locations only, so that no write to what there was before changes the
    copy, and no write to the copy changes what the original stands for. *)
Definition copies_deeply X {V} `{Pointed X, Copyable X V} (copy : option loc → Mem (option loc)) : Prop :=
  ∀ h p v F, den_pointer h p v F →
  ∃ q h' F', copy p h = Some (q, h') ∧ h ⊆ h' ∧ den_pointer h' q v F' ∧ F' ## dom h ∧
    (∀ h'', (∀ l, l ∉ dom h → h'' !! l = h' !! l) → den_pointer h'' q v F') ∧
    (∀ h'', (∀ l, l ∉ F' → h'' !! l = h' !! l) → den_pointer h'' p v F).

Lemma DeepCopy_deep {X V} `{Pointed X, Copyable X V} : copies_deeply X (V:=V) DeepCopy.
Proof.
  intros h p v F Hd. destruct (DeepCopy_run h p v F Hd) as (q & h' & F' & Hc & Hsub & Hq & HF).
  exists q, h', F'. split_and!; try done.
  - intros h'' Hw. eapply den_pointer_frame; [done|]. intros l Hl. apply Hw. set_solver.
  - intros h'' Hw. eapply den_pointer_frame; [done|]. intros l Hl. apply den_pointer_dom in Hd.
    rewrite Hw by set_solver. assert (l ∈ dom h) as [c Hc']%elem_of_dom by set_solver.
    rewrite Hc'. by eapply lookup_weaken.
Qed.

Lemma DeepCopyObject_DeepCopy {X} `{Pointed X, DeepCopier X} p h :
  DeepCopyObject p h = DeepCopy p h.
Proof.
  unfold DeepCopyObject, mbind, M_bind. by destruct (DeepCopy p h) as [[[] ]|].
Qed.

Lemma DeepCopyObject_deep {X V} `{Pointed X, Copyable X V} :
  copies_deeply X (V:=V) DeepCopyObject.
Proof. intros h p v F Hd. rewrite DeepCopyObject_DeepCopy. by apply DeepCopy_deep. Qed.

(** C40. The generated deep copies of the API objects, of their lists and of
    their statuses are deep.  For an object whose references are not dangling,
    whatever they share, DeepCopy and DeepCopyObject return without a panic,
    in a heap that extends the old one.  The copy stands for the same value in
    every field of the object, its metadata included, down to the difference
    between a nil and an empty slice or map, and is nil for nil.  It is read
    from new locations only: it shares no array, map or pointee with the
    original or anything else, so that no write to what there was before
    changes the copy, and no write to the copy changes the original. *)
Theorem generated_copies_deep `{MapOrder} :
  copies_deeply StorageVersionMigration_ StorageVersionMigration_DeepCopy ∧
  copies_deeply StorageVersionMigrationList_ StorageVersionMigrationList_DeepCopy ∧
  copies_deeply StorageState_ StorageState_DeepCopy ∧
  copies_deeply StorageStateList_ StorageStateList_DeepCopy ∧
  copies_deeply StorageVersionMigration_ StorageVersionMigration_DeepCopyObject ∧
  copies_deeply StorageVersionMigrationList_ StorageVersionMigrationList_DeepCopyObject ∧
  copies_deeply StorageState_ StorageState_DeepCopyObject ∧
  copies_deeply StorageStateList_ StorageStateList_DeepCopyObject ∧
  copies_deeply StorageVersionMigrationStatus_ StorageVersionMigrationStatus_DeepCopy ∧
  copies_deeply StorageStateStatus_ StorageStateStatus_DeepCopy.
Proof.
  split_and!; solve [apply @DeepCopy_deep | apply @DeepCopyObject_deep].
Qed.

(** ** A list of two migrations and its copy

    The first migration has a label, an owner, managed fields and a
    condition; both have the same map of annotations. *)
#[local] Instance sample_order : MapOrder := {| range := elements; range_perm := λ X, reflexivity _ |}.

Definition sample_condition : MigrationCondition :=
  {| Type_ := MigrationRunning; CondStatus := ConditionTrue; LastUpdateTime := 0%Z;
     Reason := ""; Message := "" |}.
Definition sample_owner (controller : loc) : OwnerReference :=
  {| or_APIVersion := "v1"; or_Kind := "ConfigMap"; or_Name := "owner"; or_UID := "7"; or_Controller := Some controller;
     or_BlockOwnerDeletion := None |}.
Definition sample_managed (fields : loc) : ManagedFieldsEntry :=
  {| mf_Manager := "kubectl"; mf_Operation := "Update"; mf_APIVersion := "v1"; mf_Time := None;
     mf_FieldsType := "FieldsV1"; mf_FieldsV1 := Some fields; mf_Subresource := "" |}.
Definition sample_meta (labels owners managed : option loc) (annotations : loc) : ObjectMeta :=
  with_meta_parts no_meta
    ({| time := 0%Z |}, (None, (None, (labels, (Some annotations, (owners, (None, managed))))))).
Definition sample_migration (m : ObjectMeta) (conditions : option loc) : StorageVersionMigration_ :=
  {| m_TypeMeta := no_type; m_ObjectMeta := m; m_Spec := no_spec; m_Status := {| Conditions_ := conditions |} |}.

(** The list and all below it, at the given locations. *)
Definition sample_cells (list remaining items labels owners controller managed fields raw conditions first second : loc) :
    Heap :=
  {[ list := PMigrationList {| ml_TypeMeta := no_type;
               ml_ListMeta := {| lm_SelfLink := ""; lm_ResourceVersion := "3"; lm_Continue := "token";
                                 lm_RemainingItemCount := Some remaining |};
               ml_Items := Some items |};
     remaining := PInt64 5;
     items := AMigrations
       [sample_migration (sample_meta (Some labels) (Some owners) (Some managed) first) (Some conditions);
        sample_migration (sample_meta None None None second) None];
     labels := MStrings {["app" := "web"; "tier" := "1"]};
     owners := AOwnerReferences [sample_owner controller];
     controller := PBool true;
     managed := AManagedFields [sample_managed fields];
     fields := PFieldsV1 {| Raw := Some raw |};
     raw := ABytes [Byte.x7b; Byte.x7d];
     conditions := AConditions [sample_condition];
     first := MStrings {["note" := ""]};
     second := MStrings {["note" := ""]} ]}.

Definition sample_heap : Heap := (sample_cells 1 2 3 4 5 6 7 8 9 10 11 11)%positive.

(** Objects without dangling references. *)
Definition readable {Y W} (dn : Heap → Y → W → gset loc → Prop) (h : Heap) (y : Y) : Prop := ∃ w F, dn h y w F.

Lemma readable_flat {X} h (x : X) : readable flat_den h x.
Proof. by exists x, ∅. Qed.

Lemma readable_pointer {X V} `{Pointed X, Copyable X V} h l x :
  h !! l = Some (pointee x) → readable (W:=V) den h x → readable (W:=option V) den_pointer h (Some l).
Proof. intros Hl (w & F & Hd). by exists (Some w), ({[l]} ∪ F), x, w, F. Qed.

Lemma readable_nil_pointer {X V} `{Pointed X, Copyable X V} h :
  readable (W:=option V) (den_pointer (X:=X)) h None.
Proof. by exists None, ∅. Qed.

Lemma readable_slice {X V} `{Arrayed X, Copyable X V} h l xs :
  h !! l = Some (array xs) → Forall (readable (W:=V) den h) xs → readable (W:=option (list V)) den_slice h (Some l).
Proof.
  intros Hl Hxs. assert (∃ vs Fs, den_array h xs vs Fs) as (vs & Fs & Ha).
  { clear Hl. induction Hxs as [|x xs (v & F & Hd) _ IH]; [exists [], []; constructor|].
    destruct IH as (vs & Fs & Ha). exists (v :: vs), (F :: Fs). by constructor. }
  by exists (Some vs), ({[l]} ∪ ⋃ Fs), xs, vs, Fs.
Qed.

Lemma readable_nil_slice {X V} `{Arrayed X, Copyable X V} h :
  readable (W:=option (list V)) (den_slice (X:=X)) h None.
Proof. by exists None, ∅. Qed.

Lemma readable_map h l m : h !! l = Some (MStrings m) → readable den_map h (Some l).
Proof. intros Hl. by exists (Some m), {[l]}, m. Qed.

Lemma readable_nil_map h : readable den_map h None.
Proof. by exists None, ∅. Qed.

Lemma readable_both {Y1 Y2 W1 W2} (dn1 : Heap → Y1 → W1 → gset loc → Prop) (dn2 : Heap → Y2 → W2 → gset loc → Prop) h y :
  readable dn1 h y.1 → readable dn2 h y.2 → readable (den_both dn1 dn2) h y.
Proof. intros (w1 & F1 & H1) (w2 & F2 & H2). by exists (w1, w2), (F1 ∪ F2), F1, F2. Qed.

Lemma readable_field {X R Y W} (get : X → Y) (rest : X → R) (dn : Heap → Y → W → gset loc → Prop) h x :
  readable dn h (get x) → readable (field_den get rest dn) h x.
Proof. intros (w & F & Hd). by exists (rest x, w), F. Qed.

Ltac solve_readable :=
  simpl; repeat first
    [ apply readable_flat | apply readable_nil_pointer | apply readable_nil_slice | apply readable_nil_map
    | apply readable_field; simpl | apply readable_both; simpl
    | eapply readable_pointer; [reflexivity|simpl] | eapply readable_slice; [reflexivity|simpl]
    | eapply readable_map; reflexivity | apply Forall_nil_2 | apply Forall_cons_2 ].

Lemma sample_readable :
  readable (den_pointer (X:=StorageVersionMigrationList_) (V:=migration_list)) sample_heap (Some 1%positive).
Proof. solve_readable. Qed.

Lemma generated_copies_deep_witness :
  ∃ v F q h' F',
    den_pointer (X:=StorageVersionMigrationList_) (V:=migration_list) sample_heap (Some 1%positive) v F ∧
    StorageVersionMigrationList_DeepCopy (Some 1%positive) sample_heap = Some (q, h') ∧
    den_pointer (X:=StorageVersionMigrationList_) (V:=migration_list) h' q v F' ∧ F' ## dom sample_heap.
Proof.
  destruct sample_readable as (v & F & Hd). destruct generated_copies_deep as (_ & Hlist & _).
  destruct (Hlist sample_heap _ v F Hd) as (q & h' & F' & Hc & _ & Hd' & HF & _).
  exists v, F, q, h', F'. exact (conj Hd (conj Hc (conj Hd' HF))).
Defined.

(** The copy is a second such list, at new locations, which no longer shares
    the map of annotations. *)
Example sample_copy :
  StorageVersionMigrationList_DeepCopy (Some 1%positive) sample_heap =
  Some (Some 12%positive, sample_heap ∪ (sample_cells 12 13 14 15 17 18 19 20 21 22 16 23)%positive).
Proof. vm_compute. reflexivity. Qed.
