(* ===== verification/Factory.v ===== *)
(** * Shared informers and listers: src/pkg/clients/informer, src/pkg/clients/lister

    factory.go, generic.go and the informers and listers of the two kinds.
    Every method of the factory holds its lock; Start launches a goroutine per
    informer, Shutdown waits for them.  Here an informer is an identity and what
    it was made from; Informer.v is the machinery inside. *)
From S2P Require Export Store Clientset.

Local Open Scope Z_scope.
Import v1alpha1.

(** reflect.Type of the objects, by name. *)
Definition reflect_Type := string.
Definition storageState_type : reflect_Type := "*v1alpha1.StorageState".
Definition storageVersionMigration_type : reflect_Type := "*v1alpha1.StorageVersionMigration".

(** ListOptions, with TimeoutSeconds beside the fields of [metav1.ListOptions]. *)
Definition list_options : Type := metav1.ListOptions * option Z.

Definition TweakListOptionsFunc := option (list_options → list_options).

(** The arguments of cache.NewSharedIndexInformer: the kind of object (its
    ListWatch follows from it), the resync period, the indexers by name. *)
Record informer_config := {
  objectType : reflect_Type;
  resyncPeriod : Duration;
  informer_indexers : list string;
  informer_tweak : TweakListOptionsFunc;
}.

Record SharedIndexInformer := { informer_id : nat; config : informer_config }.

Definition NamespaceIndex : string := "namespace".

(** ** storageversionmigration.go and storagestate.go of the informers *)

Definition NewFilteredStorageVersionMigrationInformer (resync : Duration) (indexers : list string)
    (tweak : TweakListOptionsFunc) : informer_config :=
  {| objectType := storageVersionMigration_type; resyncPeriod := resync; informer_indexers := indexers;
     informer_tweak := tweak |}.

Definition NewStorageVersionMigrationInformer (resync : Duration) (indexers : list string) : informer_config :=
  NewFilteredStorageVersionMigrationInformer resync indexers None.

Definition NewFilteredStorageStateInformer (resync : Duration) (indexers : list string)
    (tweak : TweakListOptionsFunc) : informer_config :=
  {| objectType := storageState_type; resyncPeriod := resync; informer_indexers := indexers;
     informer_tweak := tweak |}.

Definition NewStorageStateInformer (resync : Duration) (indexers : list string) : informer_config :=
  NewFilteredStorageStateInformer resync indexers None.

(** The ListFunc and the WatchFunc of an informer. *)
Definition tweaked (tweak : TweakListOptionsFunc) (options : list_options) : list_options :=
  match tweak with Some f => f options | None => options end.

Definition migrations_ListFunc {S} `{RESTClient S} (tweak : TweakListOptionsFunc)
    (options : list_options) : S → res (list StorageVersionMigration) * S :=
  let '(opts, timeoutSeconds) := tweaked tweak options in
  storageVersionMigrations_List opts timeoutSeconds.

Definition states_ListFunc {S} `{RESTClient S} (tweak : TweakListOptionsFunc)
    (options : list_options) : S → res (list StorageState) * S :=
  let '(opts, timeoutSeconds) := tweaked tweak options in
  storageStates_List opts timeoutSeconds.

Definition migrations_WatchFunc {S} `{RESTClient S} (tweak : TweakListOptionsFunc)
    (options : list_options) : S → res Watcher * S :=
  let '(opts, timeoutSeconds) := tweaked tweak options in
  storageVersionMigrations_Watch opts timeoutSeconds.

Definition states_WatchFunc {S} `{RESTClient S} (tweak : TweakListOptionsFunc)
    (options : list_options) : S → res Watcher * S :=
  let '(opts, timeoutSeconds) := tweaked tweak options in
  storageStates_Watch opts timeoutSeconds.

(** ** factory.go *)

(** [wg] is the counter of the sync.WaitGroup.  Beside the fields of the code,
    [launched] are the informers whose Run was ever started, [active] those
    whose goroutine has not ended, and [created] is how many informers were
    made. *)
Record sharedInformerFactory := {
  namespace_ : string;
  tweakListOptions : TweakListOptionsFunc;
  defaultResync : Duration;
  customResync : gmap reflect_Type Duration;
  informers : gmap reflect_Type SharedIndexInformer;
  startedInformers : gset reflect_Type;
  shuttingDown : bool;
  wg : Z;
  created : nat;
  launched : list SharedIndexInformer;
  active : list SharedIndexInformer;
}.

Definition SharedInformerOption := sharedInformerFactory → sharedInformerFactory.

Definition WithCustomResyncConfig (resyncConfig : gmap reflect_Type Duration) : SharedInformerOption := λ f,
  {| namespace_ := namespace_ f; tweakListOptions := tweakListOptions f; defaultResync := defaultResync f;
     customResync := resyncConfig ∪ customResync f; informers := informers f;
     startedInformers := startedInformers f; shuttingDown := shuttingDown f; wg := wg f; created := created f;
     launched := launched f; active := active f |}.

Definition WithTweakListOptions (tweak : TweakListOptionsFunc) : SharedInformerOption := λ f,
  {| namespace_ := namespace_ f; tweakListOptions := tweak; defaultResync := defaultResync f;
     customResync := customResync f; informers := informers f;
     startedInformers := startedInformers f; shuttingDown := shuttingDown f; wg := wg f; created := created f;
     launched := launched f; active := active f |}.

Definition WithNamespace (namespace : string) : SharedInformerOption := λ f,
  {| namespace_ := namespace; tweakListOptions := tweakListOptions f; defaultResync := defaultResync f;
     customResync := customResync f; informers := informers f;
     startedInformers := startedInformers f; shuttingDown := shuttingDown f; wg := wg f; created := created f;
     launched := launched f; active := active f |}.

Definition NewSharedInformerFactoryWithOptions (resync : Duration) (options : list SharedInformerOption) :
    sharedInformerFactory :=
  foldl (λ f opt, opt f)
    {| namespace_ := ""; tweakListOptions := None; defaultResync := resync; customResync := ∅;
       informers := ∅; startedInformers := ∅; shuttingDown := false; wg := 0; created := 0; launched := [];
       active := [] |} options.

Definition NewSharedInformerFactory (resync : Duration) : sharedInformerFactory :=
  NewSharedInformerFactoryWithOptions resync [].

Definition NewFilteredSharedInformerFactory (resync : Duration) (namespace : string)
    (tweak : TweakListOptionsFunc) : sharedInformerFactory :=
  NewSharedInformerFactoryWithOptions resync [WithNamespace namespace; WithTweakListOptions tweak].

(** WaitGroup.Add, which panics when the counter falls below zero, and Done. *)
Definition wg_Add (delta : Z) (f : sharedInformerFactory) : option sharedInformerFactory :=
  if wg f + delta <? 0 then None
  else Some {| namespace_ := namespace_ f; tweakListOptions := tweakListOptions f;
               defaultResync := defaultResync f; customResync := customResync f; informers := informers f;
               startedInformers := startedInformers f; shuttingDown := shuttingDown f; wg := wg f + delta;
               created := created f; launched := launched f; active := active f |}.

Definition wg_Done : sharedInformerFactory → option sharedInformerFactory := wg_Add (-1).

(** The go statement of Start, and the loop variable's mark. *)
Definition go_Run (informer : SharedIndexInformer) (f : sharedInformerFactory) : sharedInformerFactory :=
  {| namespace_ := namespace_ f; tweakListOptions := tweakListOptions f; defaultResync := defaultResync f;
     customResync := customResync f; informers := informers f; startedInformers := startedInformers f;
     shuttingDown := shuttingDown f; wg := wg f; created := created f; launched := launched f ++ [informer];
     active := active f ++ [informer] |}.

Definition set_started (informerType : reflect_Type) (f : sharedInformerFactory) : sharedInformerFactory :=
  {| namespace_ := namespace_ f; tweakListOptions := tweakListOptions f; defaultResync := defaultResync f;
     customResync := customResync f; informers := informers f;
     startedInformers := {[informerType]} ∪ startedInformers f; shuttingDown := shuttingDown f; wg := wg f;
     created := created f; launched := launched f; active := active f |}.

(** The body of the loop of Start. *)
Definition start_one (informerType : reflect_Type) (f : sharedInformerFactory) : option sharedInformerFactory :=
  match informers f !! informerType with
  | None => Some f
  | Some informer =>
      if bool_decide (informerType ∈ startedInformers f) then Some f
      else f ← wg_Add 1 f; Some (set_started informerType (go_Run informer f))
  end.

(** The end of a goroutine: informer.Run, at [i] among the active ones, has
    returned, and the deferred Done runs. *)
Definition goroutine_end (i : nat) (f : sharedInformerFactory) : option sharedInformerFactory :=
  wg_Done {| namespace_ := namespace_ f; tweakListOptions := tweakListOptions f;
             defaultResync := defaultResync f; customResync := customResync f; informers := informers f;
             startedInformers := startedInformers f; shuttingDown := shuttingDown f; wg := wg f;
             created := created f; launched := launched f; active := delete i (active f) |}.

Section factory.
Context `{MapOrder}.

(** None when the program panics. *)
Fixpoint start_all (types : list reflect_Type) (f : sharedInformerFactory) : option sharedInformerFactory :=
  match types with
  | [] => Some f
  | informerType :: types => f ← start_one informerType f; start_all types f
  end.

Definition Start (f : sharedInformerFactory) : option sharedInformerFactory :=
  if shuttingDown f then Some f else start_all (range (dom (informers f))) f.
End factory.

(** The part of Shutdown under the lock, and whether the wait that follows is
    over. *)
Definition Shutdown (f : sharedInformerFactory) : sharedInformerFactory :=
  {| namespace_ := namespace_ f; tweakListOptions := tweakListOptions f; defaultResync := defaultResync f;
     customResync := customResync f; informers := informers f; startedInformers := startedInformers f;
     shuttingDown := true; wg := wg f; created := created f; launched := launched f; active := active f |}.
Definition wg_zero (f : sharedInformerFactory) : bool := wg f =? 0.

(** WaitForCacheSync: for every started informer, whether its cache synced
    before the stop channel was closed. *)
Definition WaitForCacheSync (synced : SharedIndexInformer → bool) (f : sharedInformerFactory) :
    gmap reflect_Type bool :=
  synced <$> filter (λ '(informerType, _), informerType ∈ startedInformers f) (informers f).

Definition InformerFor (informerType : reflect_Type) (newFunc : Duration → informer_config)
    (f : sharedInformerFactory) : SharedIndexInformer * sharedInformerFactory :=
  match informers f !! informerType with
  | Some informer => (informer, f)
  | None =>
      let resyncPeriod := default (defaultResync f) (customResync f !! informerType) in
      let informer := {| informer_id := created f; config := newFunc resyncPeriod |} in
      (informer,
       {| namespace_ := namespace_ f; tweakListOptions := tweakListOptions f;
          defaultResync := defaultResync f; customResync := customResync f;
          informers := <[informerType := informer]> (informers f);
          startedInformers := startedInformers f; shuttingDown := shuttingDown f; wg := wg f;
          created := Datatypes.S (created f); launched := launched f; active := active f |})
  end.

(** ** The way to an informer: migration/interface.go and v1alpha1/interface.go

    The factory the records of the code hold is the one the calls change. *)

Record group := { group_namespace : string; group_tweakListOptions : TweakListOptionsFunc }.

Definition migration_New (namespace : string) (tweak : TweakListOptionsFunc) : group :=
  {| group_namespace := namespace; group_tweakListOptions := tweak |}.

Definition Migration (f : sharedInformerFactory) : group := migration_New (namespace_ f) (tweakListOptions f).

Record version := { version_namespace : string; version_tweakListOptions : TweakListOptionsFunc }.

Definition v1alpha1_New (namespace : string) (tweak : TweakListOptionsFunc) : version :=
  {| version_namespace := namespace; version_tweakListOptions := tweak |}.

Definition V1alpha1 (g : group) : version := v1alpha1_New (group_namespace g) (group_tweakListOptions g).

Record storageStateInformer := { states_tweakListOptions : TweakListOptionsFunc }.
Record storageVersionMigrationInformer := { migrations_tweakListOptions : TweakListOptionsFunc }.

Definition version_StorageStates (v : version) : storageStateInformer :=
  {| states_tweakListOptions := version_tweakListOptions v |}.

Definition version_StorageVersionMigrations (v : version) : storageVersionMigrationInformer :=
  {| migrations_tweakListOptions := version_tweakListOptions v |}.

(** defaultInformer, Informer and Lister of the two kinds; a lister reads the
    store of its informer. *)
Definition storageState_defaultInformer (i : storageStateInformer) (resync : Duration) : informer_config :=
  NewFilteredStorageStateInformer resync [NamespaceIndex] (states_tweakListOptions i).

Definition storageStateInformer_Informer (i : storageStateInformer) (f : sharedInformerFactory) :
    SharedIndexInformer * sharedInformerFactory :=
  InformerFor storageState_type (storageState_defaultInformer i) f.

Definition storageVersionMigration_defaultInformer (i : storageVersionMigrationInformer) (resync : Duration) :
    informer_config :=
  NewFilteredStorageVersionMigrationInformer resync [NamespaceIndex] (migrations_tweakListOptions i).

Definition storageVersionMigrationInformer_Informer (i : storageVersionMigrationInformer)
    (f : sharedInformerFactory) : SharedIndexInformer * sharedInformerFactory :=
  InformerFor storageVersionMigration_type (storageVersionMigration_defaultInformer i) f.

Record storageStateLister := { states_indexer : SharedIndexInformer }.
Record storageVersionMigrationLister := { migrations_indexer : SharedIndexInformer }.

Definition NewStorageStateLister (indexer : SharedIndexInformer) : storageStateLister :=
  {| states_indexer := indexer |}.
Definition NewStorageVersionMigrationLister (indexer : SharedIndexInformer) : storageVersionMigrationLister :=
  {| migrations_indexer := indexer |}.

Definition storageStateInformer_Lister (i : storageStateInformer) (f : sharedInformerFactory) :
    storageStateLister * sharedInformerFactory :=
  let '(informer, f) := storageStateInformer_Informer i f in (NewStorageStateLister informer, f).

Definition storageVersionMigrationInformer_Lister (i : storageVersionMigrationInformer)
    (f : sharedInformerFactory) : storageVersionMigrationLister * sharedInformerFactory :=
  let '(informer, f) := storageVersionMigrationInformer_Informer i f in
  (NewStorageVersionMigrationLister informer, f).

(** Migration().V1alpha1().StorageStates().Informer(), and the same for the
    other kind. *)
Definition storageStates_Informer (f : sharedInformerFactory) : SharedIndexInformer * sharedInformerFactory :=
  storageStateInformer_Informer (version_StorageStates (V1alpha1 (Migration f))) f.

Definition storageVersionMigrations_Informer (f : sharedInformerFactory) :
    SharedIndexInformer * sharedInformerFactory :=
  storageVersionMigrationInformer_Informer (version_StorageVersionMigrations (V1alpha1 (Migration f))) f.

(** ** generic.go

    A schema.GroupResource is its group and its resource. *)
Record genericInformer := { generic_informer : SharedIndexInformer; generic_resource : string * string }.

Definition GroupResource_of (r : schema.GroupVersionResource) : string * string :=
  (schema.gvr_Group r, schema.gvr_Resource r).

Definition genericInformer_Informer (g : genericInformer) : SharedIndexInformer := generic_informer g.

(** NewGenericLister: the indexer it reads and its resource. *)
Definition genericInformer_Lister (g : genericInformer) : SharedIndexInformer * (string * string) :=
  (genericInformer_Informer g, generic_resource g).

Definition ForResource (resource : schema.GroupVersionResource) (f : sharedInformerFactory) :
    res (genericInformer * sharedInformerFactory) :=
  if bool_decide (resource = schema.WithResource SchemeGroupVersion "storagestates")
  then let '(informer, f) := storageStates_Informer f in
       Ok ({| generic_informer := informer; generic_resource := GroupResource_of resource |}, f)
  else if bool_decide (resource = schema.WithResource SchemeGroupVersion "storageversionmigrations")
  then let '(informer, f) := storageVersionMigrations_Informer f in
       Ok ({| generic_informer := informer; generic_resource := GroupResource_of resource |}, f)
  else Err (Errorf ("no informer found for " +:+ schema.GroupVersionResource_String resource)).

(** ** The listers

    [O] is what the caches of the informers hold. *)
Section listers.
Context {O : Type} `{MapOrder}.

(** labels.Selector, and meta.Accessor with GetLabels. *)
Record Selector := { Empty : bool; Matches : gmap string string → bool }.
Context (labels_of : O → res (gmap string string)).

(** cache.ListAll, appending to the list it returns with its error. *)
Fixpoint list_matching (selector : Selector) (l : list O) : list O * option error :=
  match l with
  | [] => ([], None)
  | m :: l =>
      if Empty selector then let '(ret, err) := list_matching selector l in (m :: ret, err)
      else match labels_of m with
           | Err e => ([], Some e)
           | Ok labels =>
               let '(ret, err) := list_matching selector l in
               (if Matches selector labels then m :: ret else ret, err)
           end
  end.

Definition ListAll (store : threadSafeMap O) (selector : Selector) : list O * option error :=
  list_matching selector (List_ store).

Definition NewNotFound (group resource name : string) : error :=
  EStatus {| Status_Message := (if bool_decide (group = "") then resource
                                else resource +:+ "." +:+ group) +:+ " " +:+ quote +:+ name +:+ quote
                               +:+ " not found";
             Status_Reason := StatusReasonNotFound;
             Status_Details := Some {| Details_Name := name; Details_Kind := resource; Details_Causes := [];
                                       RetryAfterSeconds := 0 |};
             Status_Code := 404; Status_Continue := "" |}.

Context {T : Type} (as_T : O → option T) (resource : string).

(** List and Get of a lister; None when a type assertion panics. *)
Definition lister_List (store : threadSafeMap O) (selector : Selector) : option (list T * option error) :=
  let '(ret, err) := ListAll store selector in
  ret ← mapM as_T ret;
  Some (ret, err).

Definition lister_Get (store : threadSafeMap O) (name : string) : option (res T) :=
  match Store.Get name store with
  | None => Some (Err (NewNotFound GroupName resource name))
  | Some obj => Ok <$> as_T obj
  end.
End listers.

(** The listers of the two kinds. *)
Definition storageStateLister_Get {O} (as_T : O → option StorageState) :=
  lister_Get as_T "storagestate".
Definition storageStateLister_List {O} `{MapOrder} labels_of (as_T : O → option StorageState) :=
  lister_List labels_of as_T.
Definition storageVersionMigrationLister_Get {O} (as_T : O → option StorageVersionMigration) :=
  lister_Get as_T "storageversionmigration".
Definition storageVersionMigrationLister_List {O} `{MapOrder} labels_of
    (as_T : O → option StorageVersionMigration) :=
  lister_List labels_of as_T.
