(* ===== verification/FactoryProps.v ===== *)
(** * Theorems about the informer factory and the listers *)
From S2P Require Export StoreProps Factory.

Local Open Scope Z_scope.
Import v1alpha1.

Section factory_props.
Context `{MapOrder}.
Implicit Types f : sharedInformerFactory.

(** What the users of a factory and its goroutines do; a goroutine ends when
    informer.Run returns. *)
Inductive fstep : sharedInformerFactory → sharedInformerFactory → Prop :=
  | f_informer informerType newFunc f : fstep f (InformerFor informerType newFunc f).2
  | f_start f f' : Start f = Some f' → fstep f f'
  | f_shutdown f : fstep f (Shutdown f)
  | f_ended i f f' : is_Some (active f !! i) → goroutine_end i f = Some f' → fstep f f'.

(** [launched] are the started informers, once each; identities are unique;
    the counter of the WaitGroup is the number of goroutines. *)
Record factory_ok f : Prop := {
  fo_launched : launched f ≡ₚ omap (λ ty, informers f !! ty) (elements (startedInformers f));
  fo_started : startedInformers f ⊆ dom (informers f);
  fo_active : active f ⊆+ launched f;
  fo_wg : wg f = Z.of_nat (length (active f));
  fo_ids : ∀ ty i, informers f !! ty = Some i → (informer_id i < created f)%nat;
  fo_inj : ∀ ty1 ty2 i1 i2, informers f !! ty1 = Some i1 → informers f !! ty2 = Some i2 →
    informer_id i1 = informer_id i2 → ty1 = ty2;
}.

Lemma omap_mono (m m' : gmap reflect_Type SharedIndexInformer) (l : list reflect_Type) :
  m ⊆ m' → Forall (λ ty, is_Some (m !! ty)) l →
  omap (λ ty, m !! ty) l = omap (λ ty, m' !! ty) l.
Proof.
  intros Hsub Hl. induction Hl as [|ty l [i Hi] _ IH]; [done|]. csimpl.
  by rewrite Hi, (lookup_weaken _ _ _ _ Hi Hsub), IH.
Qed.

Lemma InformerFor_grows ty newFunc f : informers f ⊆ informers (InformerFor ty newFunc f).2.
Proof.
  unfold InformerFor. destruct (informers f !! ty) eqn:E; [done|]. simpl. by apply insert_subseteq.
Qed.

Lemma InformerFor_ok ty newFunc f : factory_ok f → factory_ok (InformerFor ty newFunc f).2.
Proof.
  intros [Hl Hs Ha Hw Hi Hinj]. pose proof (InformerFor_grows ty newFunc f) as Hsub. revert Hsub.
  unfold InformerFor. destruct (informers f !! ty) as [i|] eqn:E; [done|]. simpl. intros Hsub. split; simpl.
  - rewrite Hl. erewrite omap_mono; [done|done|]. apply Forall_forall.
    intros x Hx%elem_of_elements. apply elem_of_dom. set_solver.
  - set_solver.
  - done.
  - done.
  - intros ty' i'. rewrite lookup_insert. case_decide; [by intros [= <-]; simpl; lia|].
    intros ?%Hi. lia.
  - intros ty1 ty2 i1 i2. rewrite !lookup_insert. repeat case_decide; simplify_eq; try done.
    + intros [= <-] ?%Hi. simpl. lia.
    + intros ?%Hi [= <-]. simpl. lia.
    + eauto.
Qed.

(** What starting changes. *)
Definition start_frame (types : list reflect_Type) f f' : Prop :=
  informers f' = informers f ∧ shuttingDown f' = shuttingDown f ∧
  startedInformers f' = startedInformers f ∪ (list_to_set types ∩ dom (informers f)).

Lemma start_one_ok ty f :
  factory_ok f → ∃ f', start_one ty f = Some f' ∧ factory_ok f' ∧ start_frame [ty] f f'.
Proof.
  intros Hok. destruct Hok as [Hl Hs Ha Hw Hi Hinj] eqn:Ek. clear Ek. unfold start_one, start_frame.
  destruct (informers f !! ty) as [i|] eqn:E.
  2: { exists f. apply not_elem_of_dom in E. split_and!; [done..|set_solver]. }
  pose proof (elem_of_dom_2 _ _ _ E) as Hd. case_bool_decide as Hst.
  { exists f. split_and!; [done..|set_solver]. }
  unfold wg_Add. rewrite (proj2 (Z.ltb_ge _ _)) by lia. eexists. split; [reflexivity|].
  split; [|split_and!; [done..|simpl; set_solver]]. split; simpl; [| | | |done|done].
  - rewrite elements_union_singleton by done. csimpl. rewrite E, Hl.
    symmetry. apply Permutation_cons_append.
  - set_solver.
  - by apply submseteq_app.
  - rewrite length_app. simpl. lia.
Qed.

Lemma start_all_ok l f :
  factory_ok f → ∃ f', start_all l f = Some f' ∧ factory_ok f' ∧ start_frame l f f'.
Proof.
  revert f. induction l as [|ty l IH]; intros f Hf.
  - exists f. unfold start_frame. split_and!; [done..|set_solver].
  - destruct (start_one_ok ty f Hf) as (f1 & E1 & Hf1 & Hi1 & Hs1 & Hst1).
    destruct (IH f1 Hf1) as (f2 & E2 & Hf2 & Hi2 & Hs2 & Hst2). exists f2. simpl. rewrite E1.
    split; [exact E2|]. split; [done|]. unfold start_frame. rewrite Hi2, Hs2, Hst2, Hst1, Hi1.
    split_and!; [done..|set_solver].
Qed.

(** Start never panics. *)
Lemma Start_ok f :
  factory_ok f → ∃ f', Start f = Some f' ∧ factory_ok f' ∧ informers f' = informers f ∧
    shuttingDown f' = shuttingDown f ∧
    (shuttingDown f = false → startedInformers f' = dom (informers f)) ∧ (shuttingDown f = true → f' = f).
Proof.
  intros Hf. unfold Start. destruct (shuttingDown f) eqn:Hs; [by exists f|].
  destruct (start_all_ok (range (dom (informers f))) f Hf) as (f' & -> & Hf' & Hi & Hsd & Hst).
  exists f'. split_and!; [done|done|done|congruence| |done]. intros _. rewrite Hst.
  pose proof (fo_started _ Hf). apply set_eq. intros x.
  rewrite elem_of_union, elem_of_intersection, elem_of_list_to_set, elem_of_range. set_solver.
Qed.

(** A goroutine's Done never panics. *)
Lemma goroutine_end_ok i f :
  factory_ok f → is_Some (active f !! i) →
  ∃ f', goroutine_end i f = Some f' ∧ factory_ok f' ∧ informers f' = informers f ∧
    shuttingDown f' = shuttingDown f ∧ launched f' = launched f ∧ active f' = delete i (active f).
Proof.
  intros [Hl Hs Ha Hw Hi Hinj] Hin. unfold goroutine_end, wg_Done, wg_Add. simpl.
  pose proof (lookup_lt_is_Some_1 _ _ Hin). rewrite (proj2 (Z.ltb_ge _ _)) by lia.
  eexists. split; [reflexivity|]. split; [|done]. split; simpl; [done|done| | |done|done].
  - etrans; [|exact Ha]. apply sublist_submseteq, sublist_delete.
  - rewrite length_delete by done. lia.
Qed.

Lemma factory_step f f' :
  fstep f f' → factory_ok f → factory_ok f' ∧ informers f ⊆ informers f' ∧
    (shuttingDown f = true → shuttingDown f' = true ∧ launched f' = launched f ∧ active f' ⊆+ active f).
Proof.
  destruct 1 as [ty nf f|f f' E|f|i f f' Hin E]; intros Hok.
  - split_and!; [by apply InformerFor_ok|apply InformerFor_grows|].
    intros Hs. unfold InformerFor. by destruct (informers f !! ty).
  - destruct (Start_ok f Hok) as (f1 & E1 & Hf1 & Hi1 & Hs1 & _ & Hsd). rewrite E in E1. injection E1 as <-.
    split_and!; [done|by rewrite Hi1|]. intros Hs. by rewrite (Hsd Hs).
  - split_and!; [by destruct Hok|done|done].
  - destruct (goroutine_end_ok i f Hok Hin) as (f1 & E1 & Hf1 & Hi1 & Hs1 & Hl1 & Ha1).
    rewrite E in E1. injection E1 as <-. split_and!; [done|by rewrite Hi1|]. intros Hs.
    split_and!; [congruence|done|]. rewrite Ha1. apply sublist_submseteq, sublist_delete.
Qed.

Lemma factory_steps f f' :
  rtc fstep f f' → factory_ok f → factory_ok f' ∧ informers f ⊆ informers f' ∧
    (shuttingDown f = true → launched f' = launched f ∧ active f' ⊆+ active f).
Proof.
  induction 1 as [f|f f1 f' Hst _ IH]; intros Hok; [done|].
  destruct (factory_step _ _ Hst Hok) as (Hok1 & Hi1 & Hsd1). destruct (IH Hok1) as (Hok' & Hi' & Hsd').
  split_and!; [done|by etrans|]. intros (Hs1 & Hl1 & Ha1)%Hsd1. destruct (Hsd' Hs1) as [Hl2 Ha2].
  split; [congruence|by etrans].
Qed.

Lemma NoDup_launched f : factory_ok f → NoDup (launched f).
Proof.
  intros [Hl _ _ _ _ Hinj]. rewrite Hl. clear Hl. pose proof (NoDup_elements (startedInformers f)) as Hnd.
  induction Hnd as [|ty l Hty _ IH]; [constructor|]. csimpl.
  destruct (informers f !! ty) as [i|] eqn:E; [|exact IH]. constructor; [|exact IH].
  intros (ty' & Hin & E')%list_elem_of_omap. assert (ty = ty') by by eapply Hinj. by subst.
Qed.

Lemma launched_from f i :
  factory_ok f → i ∈ launched f ↔ ∃ ty, ty ∈ startedInformers f ∧ informers f !! ty = Some i.
Proof.
  intros Hok. rewrite (fo_launched _ Hok), list_elem_of_omap.
  setoid_rewrite elem_of_elements. done.
Qed.

Lemma wg_counts f : factory_ok f → wg_zero f = true ↔ active f = [].
Proof.
  intros Hok. unfold wg_zero. rewrite (fo_wg _ Hok), Z.eqb_eq. destruct (active f); simpl; split; [done|done|lia|done].
Qed.

Definition fresh_factory (f : sharedInformerFactory) : Prop :=
  informers f = ∅ ∧ startedInformers f = ∅ ∧ launched f = [] ∧ active f = [] ∧ wg f = 0.

Lemma fresh_factory_ok f : fresh_factory f → factory_ok f.
Proof.
  intros (Hi & Hs & Hl & Ha & Hw). split; rewrite ?Hi, ?Hs, ?Hl, ?Ha, ?Hw; try done.
Qed.

Definition made_by_options (options : list SharedInformerOption) : Prop :=
  Forall (λ opt, (∃ c, opt = WithCustomResyncConfig c) ∨ (∃ t, opt = WithTweakListOptions t) ∨
                 (∃ n, opt = WithNamespace n)) options.

Lemma new_factory_fresh resync options :
  made_by_options options → fresh_factory (NewSharedInformerFactoryWithOptions resync options).
Proof.
  intros Hopts. unfold NewSharedInformerFactoryWithOptions.
  match goal with |- fresh_factory (foldl _ ?f0 _) => assert (fresh_factory f0) as Hf by done; revert Hf;
    generalize f0 end.
  induction Hopts as [|opt options Hopt _ IH]; [done|]. intros f Hf. simpl. apply IH.
  by destruct Hopt as [[? ->]|[[? ->]|[? ->]]].
Qed.

(** ** Claims *)

(** C39. A factory shares its informers: whatever its users do with it, asking
    for a type again gives the informer it gave first; every informer is run
    at most once, and those that ran are the ones whose types count as
    started; Start leaves no known informer unstarted unless the factory is
    shutting down, and from then on nothing is launched any more.  The
    WaitGroup counts the informers that still run: neither Start nor the end
    of a goroutine makes it panic, Shutdown's wait is over exactly when no
    informer runs any more, and none runs ever after. *)
Theorem factory_shares_informers resync options f f' ty newFunc :
  made_by_options options →
  rtc fstep (NewSharedInformerFactoryWithOptions resync options) f →
  rtc fstep (InformerFor ty newFunc f).2 f' →
  (∀ newFunc', (InformerFor ty newFunc' f').1 = (InformerFor ty newFunc f).1) ∧
  NoDup (launched f') ∧
  (∀ i, i ∈ launched f' ↔ ∃ ty, ty ∈ startedInformers f' ∧ informers f' !! ty = Some i) ∧
  (∃ f'', Start f' = Some f'' ∧ (shuttingDown f' = false → startedInformers f'' = dom (informers f'))) ∧
  (∀ i, is_Some (active f' !! i) → is_Some (goroutine_end i f')) ∧
  active f' ⊆+ launched f' ∧
  (wg_zero f' = true ↔ active f' = []) ∧
  (shuttingDown f = true → launched f' = launched f ∧ (wg_zero f = true → active f' = [])).
Proof.
  intros Hopts Hr1 Hr2.
  destruct (factory_steps _ _ Hr1) as (Hok1 & _); [by apply fresh_factory_ok, new_factory_fresh|].
  assert (rtc fstep f f') as Hr by (eapply rtc_l; [apply (f_informer ty newFunc)|done]).
  destruct (factory_steps _ _ Hr Hok1) as (Hok2 & _ & Hsd).
  destruct (factory_steps _ _ Hr2 (InformerFor_ok ty newFunc f Hok1)) as (_ & Hgrow & _).
  assert (informers f' !! ty = Some (InformerFor ty newFunc f).1) as Hsame.
  { eapply lookup_weaken; [|done]. unfold InformerFor. destruct (informers f !! ty) eqn:E; [done|].
    apply lookup_insert_eq. }
  split_and!.
  - intros nf. unfold InformerFor at 1. by rewrite Hsame.
  - by apply NoDup_launched.
  - intros i. by apply launched_from.
  - destruct (Start_ok f' Hok2) as (f2 & E & _ & _ & _ & Hall & _). by exists f2.
  - intros i (f2 & -> & _)%(goroutine_end_ok _ _ Hok2). done.
  - apply Hok2.
  - by apply wg_counts.
  - intros (Hl & Ha)%Hsd. split; [done|]. intros Hz%(wg_counts _ Hok1). rewrite Hz in Ha.
    by apply submseteq_nil_r in Ha.
Qed.
End factory_props.

Section lister_props.
Context {O T : Type} `{MapOrder} (labels_of : O → res (gmap string string)) (as_T : O → option T)
  (resource : string).

(** The objects of the store a selector picks, whatever the order. *)
Definition selected (sel : Selector) (o : O) : bool :=
  Empty sel || match labels_of o with Ok ls => Matches sel ls | Err _ => false end.

Definition picked (sel : Selector) (its : gmap string O) : list O :=
  filter (λ o, selected sel o = true) (map_to_list its).*2.

Lemma omap_lookup_keys (its : gmap string O) (l : list (string * O)) :
  Forall (λ '(k, o), its !! k = Some o) l → omap (λ k, its !! k) l.*1 = l.*2.
Proof. induction 1 as [|[k o] l Hk _ IH]; [done|]. csimpl. by rewrite Hk, IH. Qed.

Lemma List_perm (c : threadSafeMap O) : List_ c ≡ₚ (map_to_list (items c)).*2.
Proof.
  unfold List_. rewrite range_perm, <- (omap_lookup_keys (items c)).
  - f_equiv. by rewrite dom_alt, elements_list_to_set by apply NoDup_fst_map_to_list.
  - apply Forall_forall. intros [k o]. by rewrite elem_of_map_to_list.
Qed.

Definition labelled (o : O) : Prop := ∃ ls, labels_of o = Ok ls.

Lemma list_matching_selected sel l :
  Forall labelled l → list_matching labels_of sel l = (filter (λ o, selected sel o = true) l, None).
Proof.
  induction 1 as [|m l [ls Hm] _ IH]; [done|]. simpl. rewrite Hm, IH, filter_cons.
  assert (selected sel m = Empty sel || Matches sel ls) as -> by (unfold selected; by rewrite Hm).
  by destruct (Empty sel), (Matches sel ls).
Qed.

Lemma ListAll_picked sel (c : threadSafeMap O) :
  map_Forall (λ _, labelled) (items c) →
  ∃ l, ListAll labels_of c sel = (l, None) ∧ l ≡ₚ picked sel (items c).
Proof.
  intros Hls. unfold ListAll, picked. eexists. rewrite list_matching_selected.
  - split; [done|]. by rewrite List_perm.
  - rewrite List_perm. apply Forall_forall.
    intros o ([k o'] & -> & Hk%elem_of_map_to_list)%list_elem_of_fmap. by eapply Hls.
Qed.

(** The answer for a name that is not there. *)
Definition missing (name : string) (r : option (res T)) : Prop :=
  ∃ e, r = Some (Err e) ∧ IsNotFound e = true ∧ e = NewNotFound GroupName resource name.

Lemma lister_Get_missing (c : threadSafeMap O) name :
  items c !! name = None → missing name (lister_Get as_T resource c name).
Proof. intros Hn. unfold lister_Get, Store.Get. rewrite Hn. by eexists. Qed.

Lemma lister_Get_found (c : threadSafeMap O) name o t :
  items c !! name = Some o → as_T o = Some t → lister_Get as_T resource c name = Some (Ok t).
Proof. intros Hn Ht. unfold lister_Get, Store.Get. by rewrite Hn, Ht. Qed.

Lemma lister_Get_items (c c' : threadSafeMap O) name :
  items c' !! name = items c !! name →
  lister_Get as_T resource c' name = lister_Get as_T resource c name.
Proof. unfold lister_Get, Store.Get. by intros ->. Qed.

Lemma Update_items key obj (c c' : threadSafeMap O) :
  Update key obj c = Some c' → items c' = <[key := obj]> (items c).
Proof. unfold Update. by intros (i & _ & [= <-])%option.bind_Some. Qed.

Lemma Delete_items key (c c' : threadSafeMap O) :
  Store.Delete key c = Some c' → items c' = delete key (items c).
Proof.
  unfold Store.Delete. destruct (items c !! key) eqn:E.
  - by intros (i & _ & [= <-])%option.bind_Some.
  - intros [= <-]. by rewrite delete_id.
Qed.

Lemma Replace_items its (c c' : threadSafeMap O) : Replace its c = Some c' → items c' = its.
Proof. unfold Replace. by intros (i & _ & [= <-])%option.bind_Some. Qed.

(** What a lister answers is what its informer's store holds: List gives
    every stored object the selector picks, once; Get the object stored under
    the name, or an error IsNotFound recognises, with the lister's resource
    and the name; and after the informer updates, deletes or replaces, Get
    gives the new object, the error, or the new content, and for the names
    not touched what it gave before. *)
Theorem lister_reads_store (c : threadSafeMap O) sel name :
  map_Forall (λ _ o, labelled o ∧ is_Some (as_T o)) (items c) →
  (∃ objs ts, lister_List labels_of as_T c sel = Some (ts, None) ∧ objs ≡ₚ picked sel (items c) ∧
     Forall2 (λ o t, as_T o = Some t) objs ts) ∧
  match items c !! name with
  | Some o => ∃ t, as_T o = Some t ∧ lister_Get as_T resource c name = Some (Ok t)
  | None => missing name (lister_Get as_T resource c name)
  end ∧
  (∀ obj t c', as_T obj = Some t → Update name obj c = Some c' →
     lister_Get as_T resource c' name = Some (Ok t)) ∧
  (∀ c', Store.Delete name c = Some c' → missing name (lister_Get as_T resource c' name)) ∧
  (∀ key obj c', key ≠ name → Update key obj c = Some c' ∨ Store.Delete key c = Some c' →
     lister_Get as_T resource c' name = lister_Get as_T resource c name) ∧
  (∀ its c', Replace its c = Some c' → its !! name = None →
     missing name (lister_Get as_T resource c' name)) ∧
  (∀ its o t c', Replace its c = Some c' → its !! name = Some o → as_T o = Some t →
     lister_Get as_T resource c' name = Some (Ok t)).
Proof.
  intros Hits. split_and!.
  - destruct (ListAll_picked sel c) as (objs & Hl & Hp); [by intros k o [? _]%Hits|].
    destruct (mapM_is_Some_2 as_T objs) as [ts Hts].
    { rewrite Hp. unfold picked. apply Forall_forall.
      intros o [_ ([k o'] & -> & Hk%elem_of_map_to_list)%list_elem_of_fmap]%list_elem_of_filter.
      by apply Hits in Hk as [_ ?]. }
    exists objs, ts. unfold lister_List. rewrite Hl, Hts. split_and!; [done..|]. by apply mapM_Some_1.
  - destruct (items c !! name) as [o|] eqn:E; [|by apply lister_Get_missing].
    destruct (Hits _ _ E) as [_ [t Ht]]. exists t. split; [done|]. by eapply lister_Get_found.
  - intros obj t c' Ht Hc%Update_items. eapply lister_Get_found; [|done]. rewrite Hc. apply lookup_insert_eq.
  - intros c' Hc%Delete_items. apply lister_Get_missing. rewrite Hc. apply lookup_delete_eq.
  - intros key obj c' Hne [Hc%Update_items|Hc%Delete_items]; apply lister_Get_items; rewrite Hc;
      [by apply lookup_insert_ne|by apply lookup_delete_ne].
  - intros its c' Hc%Replace_items Hn. apply lister_Get_missing. by rewrite Hc.
  - intros its o t c' Hc%Replace_items Hn. apply lister_Get_found. by rewrite Hc.
Qed.
End lister_props.

(** ** Witnesses *)

(** A factory with a namespace, asked for one informer, started, asked for the
    other, and shut down. *)
Definition some_options : list SharedInformerOption :=
  [WithNamespace "ns"; WithCustomResyncConfig {[storageState_type := 60]}].

Definition asked : sharedInformerFactory :=
  (storageVersionMigrations_Informer (NewSharedInformerFactoryWithOptions 30 some_options)).2.

Definition states_informer (resync : Duration) : informer_config :=
  NewFilteredStorageStateInformer resync [NamespaceIndex] None.

Definition started : option sharedInformerFactory :=
  @Start sorted_order (InformerFor storageState_type states_informer asked).2.
Definition shut : sharedInformerFactory := Eval vm_compute in from_option Shutdown asked started.

(** One goroutine ends, then the other: the wait is over after the second. *)
Definition one_left : sharedInformerFactory := Eval vm_compute in default asked (goroutine_end 0 shut).
Definition none_left : sharedInformerFactory := Eval vm_compute in default asked (goroutine_end 0 one_left).
Example wait_over :
  (goroutine_end 0 shut, goroutine_end 0 one_left) = (Some one_left, Some none_left) ∧
  (wg_zero shut, wg_zero one_left, wg_zero none_left) = (false, false, true) ∧ wg_Done none_left = None.
Proof. vm_compute. done. Qed.

Lemma factory_shares_informers_witness :
  (InformerFor storageState_type states_informer shut).1 =
    {| informer_id := 1; config := states_informer 60 |} ∧
  NoDup (launched shut) ∧ length (launched shut) = 2%nat ∧ wg_zero shut = false.
Proof.
  assert (made_by_options some_options) as Hopts.
  { apply Forall_cons_2; [right; right; by eexists|]. apply Forall_cons_2; [left; by eexists|by apply Forall_nil_2]. }
  destruct (@factory_shares_informers sorted_order 30 some_options asked shut storageState_type states_informer)
    as (Hsame & Hnd & _).
  - exact Hopts.
  - eapply rtc_l; [apply f_informer|]. apply rtc_refl.
  - assert (∃ f, started = Some f ∧ shut = Shutdown f) as (f & E & ->).
    { eexists. split; [vm_compute; reflexivity|reflexivity]. }
    eapply rtc_l; [apply f_start; exact E|]. eapply rtc_l; [apply f_shutdown|]. apply rtc_refl.
  - split_and!; [|exact Hnd|vm_compute; reflexivity|vm_compute; reflexivity].
    rewrite Hsame. vm_compute. reflexivity.
Defined.

(** Strings that are their own labels, in the store of the index example. *)
Definition in_y : Selector :=
  {| Empty := false; Matches := λ ls, bool_decide (ls !! "value" = Some "y") |}.

Definition value_label (o : string) : res (gmap string string) := Ok {["value" := o]}.

Lemma lister_reads_store_witness :
  (∃ objs ts, @lister_List _ sorted_order value_label _ Some three in_y = Some (ts, None) ∧
     objs ≡ₚ ["y"; "y"] ∧ Forall2 (λ o t, Some o = Some t) objs ts) ∧
  missing "storagestate" "d" (@lister_Get string string Some "storagestate" three "d").
Proof.
  destruct (@lister_reads_store string string sorted_order value_label Some "storagestate" three in_y "d")
    as (Hl & Hg & _).
  - intros k o _. split; [by eexists|by eexists].
  - split; [|exact Hg]. destruct Hl as (objs & ts & Hl & Hp & Hf). exists objs, ts.
    split_and!; [exact Hl| |exact Hf]. rewrite Hp. vm_compute. reflexivity.
Defined.
