(* ===== verification/Encoding.v ===== *)
(** * The JSON of the API objects: src/pkg/apis/migration/v1alpha1/types.go

    What the json tags of types.go make of a StorageVersionMigration and of a
    StorageState, with the times of metav1.Time, and what the schema of
    [migrationCRD] says about a document.  The encodings are JSON values, not
    their bytes; strings are valid UTF-8. *)
From S2P Require Export Initializer Rest.

Local Open Scope Z_scope.
Import v1alpha1 unstructured.

(** ** Times: MarshalJSON of metav1.Time *)

(** The date of a day counted from 1970-01-01, in the proleptic Gregorian
    calendar of package time. *)
Definition civil_of_days (days : Z) : Z * Z * Z :=
  let z := days + 719468 in
  let era := z / 146097 in
  let doe := z mod 146097 in
  let yoe := (doe - doe / 1460 + doe / 36524 - doe / 146096) / 365 in
  let doy := doe - (365 * yoe + yoe / 4 - yoe / 100) in
  let mp := (5 * doy + 2) / 153 in
  let day := doy - (153 * mp + 2) / 5 + 1 in
  let month := if mp <? 10 then mp + 3 else mp - 9 in
  let year := yoe + era * 400 + (if month <=? 2 then 1 else 0) in
  (year, month, day).

Definition digit (n : Z) : ascii := ascii_of_nat (48 + Z.to_nat (n mod 10)).
Definition two (n : Z) : string := String (digit (n / 10)) (String (digit n) "").
Definition four (n : Z) : string := two (n / 100) +:+ two n.

(** AppendFormat with the layout RFC3339 of a UTC time whose year has at most
    four digits. *)
Definition format_RFC3339 (t : Time) : string :=
  let secs := t / Second in
  let '(year, month, day) := civil_of_days (secs / 86400) in
  let s := secs mod 86400 in
  four year +:+ "-" +:+ two month +:+ "-" +:+ two day +:+ "T" +:+
  two (s / 3600) +:+ ":" +:+ two (s mod 3600 / 60) +:+ ":" +:+ two (s mod 60) +:+ "Z".

Definition IsZero (t : Time) : bool := t =? zero_time.

Definition Time_MarshalJSON (t : Time) : json :=
  if IsZero t then JNull else JString (format_RFC3339 t).

(** ** The tags *)

(** A string field with omitempty. *)
Definition omitempty (key s : string) : Object :=
  if bool_decide (s = "") then [] else [(key, JString s)].

(** A slice field with omitempty. *)
Definition omitempty_list (key : string) (l : list json) : Object :=
  match l with [] => [] | _ => [(key, JArray l)] end.

(** A map field with omitempty; encoding/json sorts the keys. *)
Definition omitempty_map (key : string) (m : gmap string string) : Object :=
  match map_to_list m with
  | [] => []
  | l => [(key, JObject (prod_map id JString <$> sort_by (by_key fst) l))]
  end.

(** The fields of the model; the creation time is never set by a client, and
    a struct is not empty. *)
Definition encode_ObjectMeta (m : metav1.ObjectMeta) : json :=
  JObject (omitempty "name" (metav1.Name m) ++ omitempty "generateName" (metav1.GenerateName m) ++
           omitempty "namespace" (metav1.Namespace m) ++ omitempty "uid" (metav1.UID m) ++
           omitempty "resourceVersion" (metav1.ResourceVersion m) ++ [("creationTimestamp", JNull)] ++
           omitempty_map "labels" (metav1.Labels m)).

Definition encode_GroupVersionResource (r : GroupVersionResource) : json :=
  JObject (omitempty "group" (Group r) ++ omitempty "version" (Version r) ++
           omitempty "resource" (v1alpha1.Resource r)).

Definition encode_StorageVersionMigrationSpec (s : StorageVersionMigrationSpec) : json :=
  JObject (("resource", encode_GroupVersionResource (Spec_Resource s)) ::
           omitempty "continueToken" (ContinueToken s)).

Definition encode_MigrationCondition (c : MigrationCondition) : json :=
  JObject ([("type", JString (Type_ c)); ("status", JString (CondStatus c));
            ("lastUpdateTime", Time_MarshalJSON (LastUpdateTime c))] ++
           omitempty "reason" (Reason c) ++ omitempty "message" (Message c)).

Definition encode_StorageVersionMigrationStatus (s : StorageVersionMigrationStatus) : json :=
  JObject (omitempty_list "conditions" (encode_MigrationCondition <$> Conditions s)).

(** The kind and version are those the codec of the clientset sets. *)
Definition encode_TypeMeta (kind : string) : Object :=
  [("kind", JString kind); ("apiVersion", JString (schema.GroupVersion_String SchemeGroupVersion))].

Definition encode_StorageVersionMigration (m : StorageVersionMigration) : json :=
  JObject (encode_TypeMeta kind ++
           [("metadata", encode_ObjectMeta (svm_Meta m));
            ("spec", encode_StorageVersionMigrationSpec (svm_Spec m));
            ("status", encode_StorageVersionMigrationStatus (svm_Status m))]).

Definition encode_GroupResource (r : GroupResource) : json :=
  JObject (omitempty "group" (gr_Group r) ++ omitempty "resource" (gr_Resource r)).

Definition encode_StorageStateSpec (s : StorageStateSpec) : json :=
  JObject [("resource", encode_GroupResource (ss_Resource s))].

Definition encode_StorageStateStatus (s : StorageStateStatus) : json :=
  JObject (omitempty_list "persistedStorageVersionHashes" (JString <$> PersistedStorageVersionHashes s) ++
           omitempty "currentStorageVersionHash" (CurrentStorageVersionHash s) ++
           [("lastHeartbeatTime", Time_MarshalJSON (LastHeartbeatTime s))]).

Definition encode_StorageState (s : StorageState) : json :=
  JObject (encode_TypeMeta "StorageState" ++
           [("metadata", encode_ObjectMeta (ss_Meta s));
            ("spec", encode_StorageStateSpec (ss_Spec s));
            ("status", encode_StorageStateStatus (ss_Status s))]).

(** ** Documents and schemas *)

Definition is_digit (a : ascii) : bool :=
  (Nat.leb 48 (nat_of_ascii a) && Nat.leb (nat_of_ascii a) 57)%nat.

(** The shape of the format date-time as MarshalJSON writes it: a 0 stands for
    any digit. *)
Fixpoint like (pattern s : string) : bool :=
  match pattern, s with
  | EmptyString, EmptyString => true
  | String p pattern, String a s =>
      (if Ascii.eqb p "0" then is_digit a else Ascii.eqb p a) && like pattern s
  | _, _ => false
  end.

Definition is_date_time : string → bool := like "0000-00-00T00:00:00Z".

(** The meaning of the constructs of OpenAPI v3 that the CRD uses: no property
    of it is nullable, so null has no type. *)
Fixpoint valid (s : JSONSchemaProps) (j : json) {struct s} : bool :=
  match s with
  | Build_JSONSchemaProps _ type format required properties items =>
      match j with
      | JNull => false
      | JBool _ => bool_decide (type = "boolean")
      | JNumber _ => bool_decide (type = "integer")
      | JString x =>
          bool_decide (type = "string") && (if bool_decide (format = "date-time") then is_date_time x else true)
      | JArray l =>
          bool_decide (type = "array") &&
          match items with Some item => forallb (valid item) l | None => true end
      | JObject o =>
          bool_decide (type = "object") &&
          forallb (λ k, match field k o with Some _ => true | None => false end) required &&
          (fix go (ps : list (string * JSONSchemaProps)) : bool :=
             match ps with
             | [] => true
             | (k, p) :: ps => match field k o with Some v => valid p v | None => true end && go ps
             end) properties
      end
  end.

(** Whether every field of the document is a property of the schema, so that
    an API server that prunes unknown fields keeps the document as it is. *)
Fixpoint specified (s : JSONSchemaProps) (j : json) {struct s} : bool :=
  match s with
  | Build_JSONSchemaProps _ _ _ _ properties items =>
      match j with
      | JArray l => match items with Some item => forallb (specified item) l | None => bool_decide (l = []) end
      | JObject o =>
          forallb (λ '(k, _), bool_decide (k ∈ properties.*1)) o &&
          (fix go (ps : list (string * JSONSchemaProps)) : bool :=
             match ps with
             | [] => true
             | (k, p) :: ps => match field k o with Some v => specified p v | None => true end && go ps
             end) properties
      | _ => true
      end
  end.

(** At the root the metadata is the API server's own business. *)
Definition specified_document (s : JSONSchemaProps) (j : json) : bool :=
  match j with
  | JObject o => specified s (JObject (filter (λ kv, kv.1 ≠ "metadata") o))
  | _ => false
  end.

(** The schema of the version that is stored. *)
Definition stored_schema (crd : CustomResourceDefinition) : option JSONSchemaProps :=
  head (omap (λ v, if Storage v then OpenAPIV3Schema v else None) (Versions crd)).
