(* ===== verification/EncodingProps.v ===== *)
(** * Theorems about the JSON of the API objects *)
From S2P Require Export Encoding Trigger.

Local Open Scope Z_scope.
Import v1alpha1 unstructured.

(** ** Times *)

Arguments digit : simpl never.
Arguments is_digit : simpl never.

Definition days_of_civil (date : Z * Z * Z) : Z :=
  let '(year, month, day) := date in
  let y := year - (if month <=? 2 then 1 else 0) in
  let era := y / 400 in
  let yoe := y mod 400 in
  let doy := (153 * (if 2 <? month then month - 3 else month + 9) + 2) / 5 + day - 1 in
  era * 146097 + (yoe * 365 + yoe / 4 - yoe / 100 + doy) - 719468.

Lemma year_of_era doe :
  0 ≤ doe < 146097 →
  let yoe := (doe - doe / 1460 + doe / 36524 - doe / 146096) / 365 in
  0 ≤ yoe < 400 ∧ 0 ≤ doe - (365 * yoe + yoe / 4 - yoe / 100) ≤ 365.
Proof. intros H. cbv zeta. Z.to_euclidean_division_equations; lia. Qed.

Lemma month_of_year doy :
  0 ≤ doy ≤ 365 → 0 ≤ (5 * doy + 2) / 153 < 12 ∧ 1 ≤ doy - (153 * ((5 * doy + 2) / 153) + 2) / 5 + 1 ≤ 31.
Proof. intros H. Z.to_euclidean_division_equations; lia. Qed.

Lemma civil_of_days_inv days :
  days_of_civil (civil_of_days days) = days ∧
  let '(_, month, day) := civil_of_days days in 1 ≤ month ≤ 12 ∧ 1 ≤ day ≤ 31.
Proof.
  unfold civil_of_days, days_of_civil. set (z := days + 719468). set (doe := z mod 146097).
  assert (z = 146097 * (z / 146097) + doe) as Hz by (apply Z.div_mod; lia).
  assert (0 ≤ doe < 146097) as Hdoe by (apply Z.mod_pos_bound; lia).
  pose proof (year_of_era doe Hdoe) as [Hy Hd]. cbv zeta in *.
  set (yoe := (doe - doe / 1460 + doe / 36524 - doe / 146096) / 365) in *.
  set (doy := doe - (365 * yoe + yoe / 4 - yoe / 100)) in *.
  pose proof (month_of_year doy Hd) as [Hm Hday]. set (mp := (5 * doy + 2) / 153) in *.
  set (era := z / 146097) in *.
  assert ((yoe + era * 400) / 400 = era) as Hera by (rewrite Z.div_add, Z.div_small; lia).
  assert ((yoe + era * 400) mod 400 = yoe) as Hyoe by (rewrite Z.mod_add, Z.mod_small; lia).
  destruct (mp <? 10) eqn:E10.
  - assert ((mp + 3 <=? 2) = false) as -> by lia. assert ((2 <? mp + 3) = true) as -> by lia.
    rewrite Z.add_0_r, Z.sub_0_r, Hera, Hyoe. replace (mp + 3 - 3) with mp by lia. lia.
  - assert ((mp - 9 <=? 2) = true) as -> by lia. assert ((2 <? mp - 9) = false) as -> by lia.
    replace (yoe + era * 400 + 1 - 1) with (yoe + era * 400) by lia.
    rewrite Hera, Hyoe. replace (mp - 9 + 9) with mp by lia. lia.
Qed.

Lemma digit_inj n m : digit n = digit m → n mod 10 = m mod 10.
Proof.
  unfold digit. intros E. pose proof (Z.mod_pos_bound n 10). pose proof (Z.mod_pos_bound m 10).
  apply (f_equal nat_of_ascii) in E. rewrite !nat_ascii_embedding in E by lia. lia.
Qed.

Lemma is_digit_digit n : is_digit (digit n) = true.
Proof.
  unfold is_digit, digit. pose proof (Z.mod_pos_bound n 10). rewrite nat_ascii_embedding by lia.
  apply andb_true_iff. rewrite !Nat.leb_le. lia.
Qed.

Lemma two_inj n m s s' :
  0 ≤ n < 100 → 0 ≤ m < 100 → two n +:+ s = two m +:+ s' → n = m ∧ s = s'.
Proof.
  intros Hn Hm. unfold two. simpl. intros [= E1 E2 E3]. apply digit_inj in E1, E2.
  split; [|done]. rewrite (Z.mod_small (n / 10)), (Z.mod_small (m / 10)) in E1 by (split; [apply Z.div_pos; lia|apply Z.div_lt_upper_bound; lia]).
  pose proof (Z.div_mod n 10). pose proof (Z.div_mod m 10). lia.
Qed.

(** ** Formatting is faithful for years of four digits *)

(** Midnight of January 1st of the years 0 and 10000, in seconds. *)
Definition four_digit_year (t : Time) : Prop := -62167219200 ≤ t / Second < 253402300800.

Lemma civil_year t :
  four_digit_year t →
  let '(year, _, _) := civil_of_days (t / Second / 86400) in 0 ≤ year < 10000.
Proof.
  unfold four_digit_year. intros Ht. set (days := t / Second / 86400).
  assert (-719528 ≤ days < 2932897) as Hdays.
  { unfold days. split; [apply Z.div_le_lower_bound; lia|apply Z.div_lt_upper_bound; lia]. }
  clearbody days. unfold civil_of_days. set (z := days + 719468). set (doe := z mod 146097).
  assert (z = 146097 * (z / 146097) + doe) as Hz by (apply Z.div_mod; lia).
  assert (0 ≤ doe < 146097) as Hdoe by (apply Z.mod_pos_bound; lia).
  clearbody doe. set (era := z / 146097) in *. clearbody era. unfold z in Hz. clear z.
  cbv zeta. repeat case_match; Z.to_euclidean_division_equations; lia.
Qed.

Lemma four_app n s : four n +:+ s = two (n / 100) +:+ (two n +:+ s).
Proof. reflexivity. Qed.

Lemma two_mod n m s s' : two n +:+ s = two m +:+ s' → n mod 10 = m mod 10 ∧ n / 10 mod 10 = m / 10 mod 10 ∧ s = s'.
Proof. unfold two. simpl. intros [= E1%digit_inj E2%digit_inj E3]. done. Qed.

Lemma four_inj n m s s' :
  0 ≤ n < 10000 → 0 ≤ m < 10000 → four n +:+ s = four m +:+ s' → n = m ∧ s = s'.
Proof.
  intros Hn Hm. rewrite !four_app. intros E.
  apply two_inj in E as [E1 (E2 & E3 & ->)%two_mod];
    [|split; [apply Z.div_pos; lia|apply Z.div_lt_upper_bound; lia]..].
  split; [|done]. Z.to_euclidean_division_equations; lia.
Qed.

Lemma sep_two_inj c n m s s' :
  0 ≤ n < 100 → 0 ≤ m < 100 →
  String c "" +:+ two n +:+ s = String c "" +:+ two m +:+ s' → n = m ∧ s = s'.
Proof.
  intros Hn Hm E. apply (f_equal (λ x, match x with String _ y => y | _ => "" end)) in E. by apply two_inj.
Qed.

Lemma clock_of_second r : r = 3600 * (r / 3600) + 60 * (r mod 3600 / 60) + r mod 60.
Proof. Z.to_euclidean_division_equations; lia. Qed.

Lemma format_inj t1 t2 :
  four_digit_year t1 → four_digit_year t2 →
  format_RFC3339 t1 = format_RFC3339 t2 → t1 / Second = t2 / Second.
Proof.
  intros Hy1%civil_year Hy2%civil_year. unfold format_RFC3339.
  destruct (civil_of_days_inv (t1 / Second / 86400)) as [I1 R1].
  destruct (civil_of_days_inv (t2 / Second / 86400)) as [I2 R2].
  destruct (civil_of_days (t1 / Second / 86400)) as [[y1 m1] d1].
  destruct (civil_of_days (t2 / Second / 86400)) as [[y2 m2] d2].
  set (s1 := t1 / Second) in *. set (s2 := t2 / Second) in *. clearbody s1 s2.
  assert (∀ s, 0 ≤ s mod 86400 / 3600 < 24 ∧ 0 ≤ s mod 86400 mod 3600 / 60 < 60 ∧
               0 ≤ s mod 86400 mod 60 < 60) as Hr by (intros s; Z.to_euclidean_division_equations; lia).
  pose proof (Hr s1) as (? & ? & ?). pose proof (Hr s2) as (? & ? & ?). clear Hr.
  intros E. apply four_inj in E as [-> E]; [|lia..].
  apply sep_two_inj in E as [-> E]; [|lia..]. apply sep_two_inj in E as [-> E]; [|lia..].
  apply sep_two_inj in E as [Eh E]; [|lia..]. apply sep_two_inj in E as [Em E]; [|lia..].
  apply sep_two_inj in E as [Es _]; [|lia..].
  rewrite I1 in I2. rewrite (Z.div_mod s1 86400), (Z.div_mod s2 86400) by lia.
  rewrite (clock_of_second (s1 mod 86400)), (clock_of_second (s2 mod 86400)). by rewrite I2, Eh, Em, Es.
Qed.

Lemma format_date_time t : is_date_time (format_RFC3339 t) = true.
Proof.
  unfold is_date_time, format_RFC3339. destruct (civil_of_days _) as [[y m] d].
  unfold four, two, String.append. cbn [like Ascii.eqb Bool.eqb andb]. by rewrite !is_digit_digit.
Qed.

Lemma Time_MarshalJSON_inj t1 t2 :
  four_digit_year t1 → four_digit_year t2 →
  Time_MarshalJSON t1 = Time_MarshalJSON t2 → t1 / Second = t2 / Second.
Proof.
  intros H1 H2. unfold Time_MarshalJSON, IsZero.
  destruct (Z.eqb_spec t1 zero_time) as [->|_], (Z.eqb_spec t2 zero_time) as [->|_]; intros E; try done.
  apply (f_equal (λ j, match j with JString s => s | _ => "" end)) in E. by apply format_inj.
Qed.

(** ** Fields *)

(** The string of a field, empty when it is absent: what a client decodes. *)
Definition str_of (k : string) (j : json) : string :=
  match j with JObject o => match field k o with Some (JString s) => s | _ => "" end | _ => "" end.

Definition json_of (k : string) (j : json) : option json :=
  match j with JObject o => field k o | _ => None end.

Definition elements_of (j : option json) : list json :=
  match j with Some (JArray l) => l | _ => [] end.

Ltac fields := unfold omitempty, omitempty_list; repeat case_bool_decide; simplify_eq/=; try reflexivity.

(** The map a client decodes from a field. *)
Definition map_of (k : string) (j : json) : gmap string string :=
  match json_of k j with
  | Some (JObject o) => list_to_map (prod_map id (λ v, match v with JString s => s | _ => "" end) <$> o)
  | _ => ∅
  end.

Lemma omitempty_map_decode k m : map_of k (JObject (omitempty_map k m)) = m.
Proof.
  unfold map_of, omitempty_map. destruct (map_to_list m) as [|kv l] eqn:E.
  { simpl. by apply map_to_list_empty_iff in E as ->. }
  rewrite <- E. simpl. rewrite bool_decide_eq_true_2 by done.
  rewrite <- list_fmap_compose, (list_fmap_ext _ id), list_fmap_id by (by intros ? [? ?]).
  rewrite <- (list_to_map_to_list m) at 2. apply list_to_map_proper; [|apply sort_by_perm].
  rewrite sort_by_perm. apply NoDup_fst_map_to_list.
Qed.

Lemma encode_ObjectMeta_inj m1 m2 : encode_ObjectMeta m1 = encode_ObjectMeta m2 → m1 = m2.
Proof.
  assert (∀ m, m = {| metav1.Name := str_of "name" (encode_ObjectMeta m);
                      metav1.GenerateName := str_of "generateName" (encode_ObjectMeta m);
                      metav1.Namespace := str_of "namespace" (encode_ObjectMeta m);
                      metav1.ResourceVersion := str_of "resourceVersion" (encode_ObjectMeta m);
                      metav1.UID := str_of "uid" (encode_ObjectMeta m);
                      metav1.Labels := map_of "labels" (encode_ObjectMeta m) |}) as Hm.
  { intros [n g ns rv uid ls]. rewrite <- (omitempty_map_decode "labels" ls) at 1.
    unfold encode_ObjectMeta, map_of.
    cbn [metav1.Name metav1.GenerateName metav1.Namespace metav1.ResourceVersion metav1.UID metav1.Labels].
    unfold omitempty_map. destruct (map_to_list ls); fields. }
  intros E. rewrite (Hm m1), (Hm m2). by rewrite E.
Qed.

Lemma encode_spec_inj s1 s2 :
  encode_StorageVersionMigrationSpec s1 = encode_StorageVersionMigrationSpec s2 → s1 = s2.
Proof.
  assert (∀ s, s = {| Spec_Resource :=
      let r := default JNull (json_of "resource" (encode_StorageVersionMigrationSpec s)) in
      {| Group := str_of "group" r; Version := str_of "version" r; v1alpha1.Resource := str_of "resource" r |};
      ContinueToken := str_of "continueToken" (encode_StorageVersionMigrationSpec s) |}) as Hs.
  { intros [[g v r] token]. unfold encode_StorageVersionMigrationSpec, encode_GroupVersionResource.
    cbn [Spec_Resource ContinueToken Group Version v1alpha1.Resource]. fields. }
  intros E. rewrite (Hs s1), (Hs s2). by rewrite E.
Qed.

Lemma encode_state_spec_inj s1 s2 : encode_StorageStateSpec s1 = encode_StorageStateSpec s2 → s1 = s2.
Proof.
  assert (∀ s, s = {| ss_Resource :=
      let r := default JNull (json_of "resource" (encode_StorageStateSpec s)) in
      {| gr_Group := str_of "group" r; gr_Resource := str_of "resource" r |} |}) as Hs.
  { intros [[g r]]. unfold encode_StorageStateSpec, encode_GroupResource. cbn [ss_Resource gr_Group gr_Resource]. fields. }
  intros E. rewrite (Hs s1), (Hs s2). by rewrite E.
Qed.

(** What of a time reaches the server: whether it is set, and its second. *)
Definition same_time (t1 t2 : Time) : Prop := IsZero t1 = IsZero t2 ∧ t1 / Second = t2 / Second.

Lemma Time_MarshalJSON_iff t1 t2 :
  four_digit_year t1 → four_digit_year t2 →
  Time_MarshalJSON t1 = Time_MarshalJSON t2 ↔ same_time t1 t2.
Proof.
  intros H1 H2. split.
  - intros E. split; [|by apply Time_MarshalJSON_inj]. unfold Time_MarshalJSON in E.
    by destruct (IsZero t1), (IsZero t2).
  - intros [E1 E2]. unfold Time_MarshalJSON, format_RFC3339. by rewrite E1, E2.
Qed.

Definition same_condition (c1 c2 : MigrationCondition) : Prop :=
  Type_ c1 = Type_ c2 ∧ CondStatus c1 = CondStatus c2 ∧ Reason c1 = Reason c2 ∧ Message c1 = Message c2 ∧
  same_time (LastUpdateTime c1) (LastUpdateTime c2).

Lemma encode_condition_iff c1 c2 :
  four_digit_year (LastUpdateTime c1) → four_digit_year (LastUpdateTime c2) →
  encode_MigrationCondition c1 = encode_MigrationCondition c2 ↔ same_condition c1 c2.
Proof.
  assert (∀ c, str_of "type" (encode_MigrationCondition c) = Type_ c ∧
               str_of "status" (encode_MigrationCondition c) = CondStatus c ∧
               str_of "reason" (encode_MigrationCondition c) = Reason c ∧
               str_of "message" (encode_MigrationCondition c) = Message c ∧
               json_of "lastUpdateTime" (encode_MigrationCondition c) = Some (Time_MarshalJSON (LastUpdateTime c))) as Hc.
  { intros [ty st t re me]. unfold encode_MigrationCondition. cbn [Type_ CondStatus LastUpdateTime Reason Message].
    generalize (Time_MarshalJSON t). intros j. split_and!; fields. }
  intros H1 H2. split.
  - intros E. destruct (Hc c1) as (T1 & S1 & R1 & M1 & L1), (Hc c2) as (T2 & S2 & R2 & M2 & L2).
    rewrite E in T1, S1, R1, M1, L1. split_and!; [congruence..|]. apply Time_MarshalJSON_iff; [done..|congruence].
  - intros (Ht & Hs & Hr & Hm & Hl). apply Time_MarshalJSON_iff in Hl; [|done..].
    unfold encode_MigrationCondition. by rewrite Ht, Hs, Hr, Hm, Hl.
Qed.

Definition dated (c : MigrationCondition) : Prop := four_digit_year (LastUpdateTime c).

Lemma encode_conditions_iff cs1 cs2 :
  Forall dated cs1 → Forall dated cs2 →
  encode_MigrationCondition <$> cs1 = encode_MigrationCondition <$> cs2 ↔ Forall2 same_condition cs1 cs2.
Proof.
  intros H1 H2. split.
  - revert cs2 H2. induction H1 as [|c1 cs1 Hc1 _ IH]; intros [|c2 cs2] H2 E; try done.
    apply Forall_cons in H2 as [Hc2 H2]. rewrite !fmap_cons in E.
    pose proof (f_equal (head (A:=json)) E) as Eh. pose proof (f_equal (tail (A:=json)) E) as Et.
    constructor; [|by apply IH]. apply encode_condition_iff; [done..|]. simpl in Eh. congruence.
  - induction 1 as [|c1 c2 cs1 cs2 Hc _ IH]; [done|]. apply Forall_cons in H1 as [? ?], H2 as [? ?].
    rewrite !fmap_cons. f_equal; [by apply encode_condition_iff|by apply IH].
Qed.

Lemma omitempty_list_elements k l : elements_of (json_of k (JObject (omitempty_list k l))) = l.
Proof. destruct l; [done|]. simpl. by rewrite bool_decide_eq_true_2. Qed.

Lemma encode_status_iff s1 s2 :
  Forall dated (Conditions s1) → Forall dated (Conditions s2) →
  encode_StorageVersionMigrationStatus s1 = encode_StorageVersionMigrationStatus s2 ↔
  Forall2 same_condition (Conditions s1) (Conditions s2).
Proof.
  assert (∀ s, elements_of (json_of "conditions" (encode_StorageVersionMigrationStatus s)) =
               encode_MigrationCondition <$> Conditions s) as Hs.
  { intros s. apply omitempty_list_elements. }
  intros H1 H2. rewrite <- encode_conditions_iff by done. split.
  - intros E. by rewrite <- (Hs s1), <- (Hs s2), E.
  - unfold encode_StorageVersionMigrationStatus. by intros ->.
Qed.

Lemma encode_state_status_iff s1 s2 :
  four_digit_year (LastHeartbeatTime s1) → four_digit_year (LastHeartbeatTime s2) →
  encode_StorageStateStatus s1 = encode_StorageStateStatus s2 ↔
  PersistedStorageVersionHashes s1 = PersistedStorageVersionHashes s2 ∧
  CurrentStorageVersionHash s1 = CurrentStorageVersionHash s2 ∧
  same_time (LastHeartbeatTime s1) (LastHeartbeatTime s2).
Proof.
  assert (∀ s, elements_of (json_of "persistedStorageVersionHashes" (encode_StorageStateStatus s)) =
                 JString <$> PersistedStorageVersionHashes s ∧
               str_of "currentStorageVersionHash" (encode_StorageStateStatus s) = CurrentStorageVersionHash s ∧
               json_of "lastHeartbeatTime" (encode_StorageStateStatus s) =
                 Some (Time_MarshalJSON (LastHeartbeatTime s))) as Hs.
  { intros [hashes cur t]. unfold encode_StorageStateStatus.
    cbn [PersistedStorageVersionHashes CurrentStorageVersionHash LastHeartbeatTime].
    generalize (Time_MarshalJSON t). intros j. generalize (JString <$> hashes). intros l.
    destruct l; split_and!; fields. }
  intros H1 H2. split.
  - intros E. destruct (Hs s1) as (P1 & C1 & L1), (Hs s2) as (P2 & C2 & L2). rewrite E in P1, C1, L1.
    split_and!; [|congruence|apply Time_MarshalJSON_iff; [done..|congruence]].
    rewrite P2 in P1. symmetry. assert (Inj (=) (=) JString) as Hinj by (by intros x y [= ->]).
    by apply (list_fmap_eq_inj JString).
  - intros (Hp & Hc & Hl). apply Time_MarshalJSON_iff in Hl; [|done..].
    unfold encode_StorageStateStatus. by rewrite Hp, Hc, Hl.
Qed.

(** Equality of objects up to what their times lose. *)
Definition same_migration (m1 m2 : StorageVersionMigration) : Prop :=
  svm_Meta m1 = svm_Meta m2 ∧ svm_Spec m1 = svm_Spec m2 ∧
  Forall2 same_condition (Conditions (svm_Status m1)) (Conditions (svm_Status m2)).

Definition same_state (s1 s2 : StorageState) : Prop :=
  ss_Meta s1 = ss_Meta s2 ∧ ss_Spec s1 = ss_Spec s2 ∧
  PersistedStorageVersionHashes (ss_Status s1) = PersistedStorageVersionHashes (ss_Status s2) ∧
  CurrentStorageVersionHash (ss_Status s1) = CurrentStorageVersionHash (ss_Status s2) ∧
  same_time (LastHeartbeatTime (ss_Status s1)) (LastHeartbeatTime (ss_Status s2)).

(** ** Documents of the type the CRD declares *)

Lemma valid_string description s : valid (prop description "string") (JString s) = true.
Proof. reflexivity. Qed.

Lemma valid_resource r :
  valid resource_schema (encode_GroupVersionResource r) = true ∧
  specified resource_schema (encode_GroupVersionResource r) = true.
Proof. destruct r as [g v n]. unfold encode_GroupVersionResource. cbn [Group Version v1alpha1.Resource]. split; fields. Qed.

#[local] Opaque resource_schema.

Lemma valid_spec s :
  valid spec_schema (encode_StorageVersionMigrationSpec s) = true ∧
  specified spec_schema (encode_StorageVersionMigrationSpec s) = true.
Proof.
  unfold encode_StorageVersionMigrationSpec. destruct (valid_resource (Spec_Resource s)) as [Hv Hs].
  unfold omitempty. case_bool_decide; simpl; by rewrite ?Hv, ?Hs.
Qed.

#[local] Opaque spec_schema.

Definition has_time (c : MigrationCondition) : bool := negb (IsZero (LastUpdateTime c)).

Lemma valid_time t :
  valid {| Description := "The last time this condition was updated."; SchemaType := "string";
           Format := "date-time"; Required := []; Properties := []; Items := None |} (Time_MarshalJSON t) =
  negb (IsZero t).
Proof.
  unfold Time_MarshalJSON. destruct (IsZero t); [done|]. simpl. by rewrite format_date_time.
Qed.

Lemma valid_condition c :
  valid condition_schema (encode_MigrationCondition c) = has_time c ∧
  specified condition_schema (encode_MigrationCondition c) = true.
Proof.
  unfold has_time. rewrite <- valid_time. unfold encode_MigrationCondition.
  destruct c as [ty st t re me]. cbn [Type_ CondStatus LastUpdateTime Reason Message].
  unfold Time_MarshalJSON. destruct (IsZero t).
  - split; fields.
  - generalize (format_RFC3339 t). intros d. split; fields; by destruct (is_date_time d).
Qed.
#[local] Opaque condition_schema.

Lemma valid_conditions cs :
  forallb (valid condition_schema) (encode_MigrationCondition <$> cs) = forallb has_time cs ∧
  forallb (specified condition_schema) (encode_MigrationCondition <$> cs) = true.
Proof.
  induction cs as [|c cs [IHv IHs]]; [done|]. rewrite fmap_cons. cbn [forallb].
  destruct (valid_condition c) as [-> ->]. by rewrite IHv, IHs.
Qed.

Lemma valid_status s :
  valid status_schema (encode_StorageVersionMigrationStatus s) = forallb has_time (Conditions s) ∧
  specified status_schema (encode_StorageVersionMigrationStatus s) = true.
Proof.
  destruct s as [cs]. unfold encode_StorageVersionMigrationStatus. cbn [Conditions].
  destruct cs as [|c cs]; [done|]. destruct (valid_conditions (c :: cs)) as [Hv Hs].
  rewrite fmap_cons in Hv, Hs |- *. unfold omitempty_list. split.
  - rewrite <- Hv. simpl. by rewrite !andb_true_r.
  - transitivity (forallb (specified condition_schema)
      (encode_MigrationCondition c :: (encode_MigrationCondition <$> cs))); [|done].
    simpl. by rewrite !andb_true_r.
Qed.
#[local] Opaque status_schema.

(** A migration whose document has the type the CRD stores, and loses nothing
    when fields the schema does not know are pruned. *)
Definition well_typed (m : StorageVersionMigration) : Prop :=
  match stored_schema migrationCRD with
  | Some s => valid s (encode_StorageVersionMigration m) = true ∧
              specified_document s (encode_StorageVersionMigration m) = true
  | None => False
  end.

Lemma valid_migration m :
  valid migration_schema (encode_StorageVersionMigration m) = forallb has_time (Conditions (svm_Status m)) ∧
  specified_document migration_schema (encode_StorageVersionMigration m) = true.
Proof.
  destruct (valid_spec (svm_Spec m)) as [Hv Hs], (valid_status (svm_Status m)) as [Hv' Hs'].
  unfold encode_StorageVersionMigration. rewrite <- Hv'.
  revert Hv Hs Hs'. generalize (encode_StorageVersionMigrationStatus (svm_Status m)).
  generalize (encode_StorageVersionMigrationSpec (svm_Spec m)). intros js jst Hv Hs Hs'.
  unfold encode_ObjectMeta. split.
  - simpl. rewrite Hv. by rewrite andb_true_r.
  - simpl. by rewrite Hs, Hs'.
Qed.

Lemma well_typed_iff m : well_typed m ↔ Forall (λ c, IsZero (LastUpdateTime c) = false) (Conditions (svm_Status m)).
Proof.
  destruct (valid_migration m) as [Hv Hs]. unfold well_typed. change (stored_schema migrationCRD) with (Some migration_schema).
  cbn match. rewrite Hv, Hs, <- Is_true_true, forallb_True. unfold has_time.
  split; [intros [H _]|intros H; split; [|done]]; (eapply Forall_impl; [exact H|]);
    intros c; simpl; by rewrite Is_true_true, negb_true_iff.
Qed.

(** ** Claims *)

(** C35. The JSON of a migration and of a StorageState says everything about
    it: as long as the years of its times have four digits, two of them have
    the same encoding exactly if they are equal up to the fractions of a
    second of times that are set - no field is lost, confused with another, or
    written differently for equal values. *)
Theorem encodings_faithful m1 m2 s1 s2 :
  Forall dated (Conditions (svm_Status m1)) → Forall dated (Conditions (svm_Status m2)) →
  four_digit_year (LastHeartbeatTime (ss_Status s1)) → four_digit_year (LastHeartbeatTime (ss_Status s2)) →
  (encode_StorageVersionMigration m1 = encode_StorageVersionMigration m2 ↔ same_migration m1 m2) ∧
  (encode_StorageState s1 = encode_StorageState s2 ↔ same_state s1 s2).
Proof.
  intros Hm1 Hm2 Hs1 Hs2. unfold same_migration, same_state.
  rewrite <- encode_status_iff, <- encode_state_status_iff by done.
  split; (split; [intros E|intros (HM & HS & HT)]).
  - pose proof (f_equal (λ j, default JNull (json_of "metadata" j)) E) as EM.
    pose proof (f_equal (λ j, default JNull (json_of "spec" j)) E) as ES.
    pose proof (f_equal (λ j, default JNull (json_of "status" j)) E) as ET.
    split_and!; [by apply encode_ObjectMeta_inj|by apply encode_spec_inj|exact ET].
  - unfold encode_StorageVersionMigration. by rewrite HM, HS, HT.
  - pose proof (f_equal (λ j, default JNull (json_of "metadata" j)) E) as EM.
    pose proof (f_equal (λ j, default JNull (json_of "spec" j)) E) as ES.
    pose proof (f_equal (λ j, default JNull (json_of "status" j)) E) as ET.
    split_and!; [by apply encode_ObjectMeta_inj|by apply encode_state_spec_inj|exact ET].
  - unfold encode_StorageState. by rewrite HM, HS, HT.
Qed.

(** C34. Every migration the program writes has the type its CRD declares, and
    the CRD knows all its fields: a migration has that type exactly if the time
    of each of its conditions is set (null has no type); the migrations that
    the initializer and the trigger create have it; and saving a continue
    token, or renewing a condition at a time that is set, keeps it. *)
Theorem migrations_well_typed m :
  (well_typed m ↔ Forall (λ c, IsZero (LastUpdateTime c) = false) (Conditions (svm_Status m))) ∧
  (∀ r, well_typed (migrationForResource r)) ∧
  (∀ r, well_typed (new_migration r)) ∧
  (well_typed m →
   (∀ token, well_typed (with_ContinueToken token m)) ∧
   (∀ condition status now reason message, IsZero now = false →
      well_typed (with_Conditions
        (unknown_conditions (Conditions (svm_Status m)) ++
         [{| Type_ := condition; CondStatus := status; LastUpdateTime := now; Reason := reason;
             Message := message |}]) m))).
Proof.
  split_and!; [apply well_typed_iff|intros r; by apply well_typed_iff|intros r; by apply well_typed_iff|].
  intros Hm%well_typed_iff. split; intros; apply well_typed_iff; [done|]. simpl.
  apply Forall_app. split; [|by apply Forall_singleton].
  apply Forall_forall. intros c [_ Hc]%list_elem_of_filter. rewrite Forall_forall in Hm. by apply Hm.
Qed.

(** ** Witnesses *)

(** A condition set at 2023-11-14T22:13:20.5Z, and half a second earlier. *)
Definition updated_at (now : Time) : StorageVersionMigration :=
  with_Conditions [{| Type_ := MigrationRunning; CondStatus := ConditionTrue; LastUpdateTime := now;
                      Reason := ""; Message := "" |}]
    (new_migration {| Group := "apps"; Version := "v1"; v1alpha1.Resource := "deployments" |}).

Definition beat_at (now : Time) : StorageState :=
  {| ss_Meta := metav1.empty_meta; ss_Spec := {| ss_Resource := {| gr_Group := ""; gr_Resource := "pods" |} |};
     ss_Status := {| PersistedStorageVersionHashes := ["a"; "b"]; CurrentStorageVersionHash := "b";
                     LastHeartbeatTime := now |} |}.

Lemma encodings_faithful_witness :
  format_RFC3339 (1700000000 * Second) = "2023-11-14T22:13:20Z" ∧
  encode_StorageVersionMigration (updated_at (1700000000 * Second)) =
    encode_StorageVersionMigration (updated_at (1700000000 * Second + 500 * Millisecond)) ∧
  encode_StorageState (beat_at (1700000000 * Second)) ≠ encode_StorageState (beat_at (1700000001 * Second)).
Proof.
  split; [vm_compute; reflexivity|].
  destruct (encodings_faithful (updated_at (1700000000 * Second)) (updated_at (1700000000 * Second + 500 * Millisecond))
              (beat_at (1700000000 * Second)) (beat_at (1700000001 * Second))) as [Hm Hs].
  - repeat constructor; vm_compute; discriminate.
  - repeat constructor; vm_compute; discriminate.
  - split; vm_compute; [discriminate|reflexivity].
  - split; vm_compute; [discriminate|reflexivity].
  - split.
    + apply Hm. split; [reflexivity|]. split; [reflexivity|].
      repeat constructor; vm_compute; reflexivity.
    + intros E. apply Hs in E as (_ & _ & _ & _ & [_ E]). vm_compute in E. discriminate.
Defined.
