(* ===== verification/Config.v ===== *)
(** * Making the clients: src/pkg/clients/clientset/clientset.go, migration_client.go

    From a rest.Config to the clients, with client-go/rest/config.go and the
    constructors of the discovery and dynamic clients.  Configs are passed by
    value, as the constructors copy theirs before they change it.  A rate
    limiter is a shared object: making one is an effect on the list of those
    made so far, and a limiter is known by its number.  [None] is a panic. *)
From S2P Require Export Rest.
From Stdlib Require Export QArith.
Close Scope Q_scope.

Local Open Scope Z_scope.

Record RateLimiter := { limiter_id : nat; limiter_qps : Q; limiter_burst : Z }.

Abbreviation Build := (M (list RateLimiter)).

Definition NewTokenBucketRateLimiter (qps : Q) (burst : Z) : Build RateLimiter := λ made,
  let l := {| limiter_id := length made; limiter_qps := qps; limiter_burst := burst |} in
  Some (l, made ++ [l]).

Definition DefaultQPS : Q := inject_Z 5.
Definition DefaultBurst : Z := 10.

Definition positive_qps (q : Q) : bool := 0 <? Qnum q.
Definition zero_qps (q : Q) : bool := Qnum q =? 0.

(** rest.Config: the fields the constructors look at; QPS is a finite float32.
    [Creds] is the rest: credentials, TLS files' contents, transports. *)
Record Config (Creds : Type) := {
  Host : string;
  APIPath : string;
  GroupVersion : option schema.GroupVersion;
  AcceptContentTypes : string;
  ContentType_ : string;
  hasSerializer : bool;
  TLS : bool;                       (* a CA, a certificate, or Insecure *)
  UserAgent : string;
  QPS : Q;
  Burst : Z;
  RateLimiter_ : option RateLimiter;
  Timeout_ : Duration;
  creds : Creds;
}.
Arguments Host {Creds}.
Arguments APIPath {Creds}.
Arguments GroupVersion {Creds}.
Arguments AcceptContentTypes {Creds}.
Arguments ContentType_ {Creds}.
Arguments hasSerializer {Creds}.
Arguments TLS {Creds}.
Arguments UserAgent {Creds}.
Arguments QPS {Creds}.
Arguments Burst {Creds}.
Arguments RateLimiter_ {Creds}.
Arguments Timeout_ {Creds}.
Arguments creds {Creds}.

(** The parts of a url.URL the constructors look at. *)
Record URL := { url_Scheme : string; url_Host : string; url_Path : string }.

(** What is outside: net/url, the transports, and what the process runs on. *)
Class Platform := {
  Creds : Type;
  http_Client : Type;
  HTTPClientFor : Config Creds → res http_Client;
  url_Parse : string → res URL;
  DefaultKubernetesUserAgent : string;
}.

(** ** client-go/rest *)

Section config.
Context `{Platform}.

Definition with_UserAgent (ua : string) (c : Config Creds) : Config Creds :=
  {| Host := Host c; APIPath := APIPath c; GroupVersion := GroupVersion c;
     AcceptContentTypes := AcceptContentTypes c; ContentType_ := ContentType_ c;
     hasSerializer := hasSerializer c; TLS := TLS c; UserAgent := ua; QPS := QPS c; Burst := Burst c;
     RateLimiter_ := RateLimiter_ c; Timeout_ := Timeout_ c; creds := creds c |}.

Definition with_RateLimiter (l : option RateLimiter) (c : Config Creds) : Config Creds :=
  {| Host := Host c; APIPath := APIPath c; GroupVersion := GroupVersion c;
     AcceptContentTypes := AcceptContentTypes c; ContentType_ := ContentType_ c;
     hasSerializer := hasSerializer c; TLS := TLS c; UserAgent := UserAgent c; QPS := QPS c; Burst := Burst c;
     RateLimiter_ := l; Timeout_ := Timeout_ c; creds := creds c |}.

Definition with_API (path : string) (gv : option schema.GroupVersion) (c : Config Creds) : Config Creds :=
  {| Host := Host c; APIPath := path; GroupVersion := gv;
     AcceptContentTypes := AcceptContentTypes c; ContentType_ := ContentType_ c;
     hasSerializer := true; TLS := TLS c; UserAgent := UserAgent c; QPS := QPS c; Burst := Burst c;
     RateLimiter_ := RateLimiter_ c; Timeout_ := Timeout_ c; creds := creds c |}.

(** The default of a user agent that is empty. *)
Definition default_UserAgent (c : Config Creds) : Config Creds :=
  if bool_decide (UserAgent c = "") then with_UserAgent DefaultKubernetesUserAgent c else c.

Record RESTClient_ := {
  base : URL;
  rc_versionedAPIPath : string;
  rc_ContentType : string;
  rc_GroupVersion : schema.GroupVersion;
  rateLimiter : option RateLimiter;
  Client : http_Client;
}.

(** strings.HasSuffix(s, "/") *)
Fixpoint ends_in_slash (s : string) : bool :=
  match s with
  | EmptyString => false
  | String a EmptyString => bool_decide (a = "/"%char)
  | String _ s => ends_in_slash s
  end.

Definition NewRESTClient (baseURL : URL) (versionedAPIPath contentType : string) (gv : schema.GroupVersion)
    (limiter : option RateLimiter) (client : http_Client) : RESTClient_ :=
  {| base := {| url_Scheme := url_Scheme baseURL; url_Host := url_Host baseURL;
                url_Path := if ends_in_slash (url_Path baseURL) then url_Path baseURL
                            else url_Path baseURL +:+ "/" |};
     rc_versionedAPIPath := versionedAPIPath;
     rc_ContentType := if bool_decide (contentType = "") then "application/json" else contentType;
     rc_GroupVersion := gv; rateLimiter := limiter; Client := client |}.

Definition DefaultServerURL (host apiPath : string) (gv : schema.GroupVersion) (defaultTLS : bool) :
    res (URL * string) :=
  if bool_decide (host = "") then Err (Errorf "host must be a URL or a host:port pair")
  else
    let parsed :=
      match url_Parse host with
      | Ok u => if bool_decide (url_Scheme u = "") || bool_decide (url_Host u = "") then None else Some u
      | Err _ => None
      end in
    let hostURL :=
      match parsed with
      | Some u => Ok u
      | None =>
          match url_Parse ((if defaultTLS then "https://" else "http://") +:+ host) with
          | Err e => Err e
          | Ok u =>
              if negb (bool_decide (url_Path u = "")) && negb (bool_decide (url_Path u = "/"))
              then Err (Errorf ("host must be a URL or a host:port pair: " +:+ quote +:+ host +:+ quote))
              else Ok u
          end
      end in
    match hostURL with
    | Err e => Err e
    | Ok u => Ok (u, DefaultVersionedAPIPath apiPath gv)
    end.

Definition no_GroupVersion : schema.GroupVersion := {| schema.gv_Group := ""; schema.gv_Version := "" |}.

Definition defaultServerUrlFor (c : Config Creds) : res (URL * string) :=
  DefaultServerURL (if bool_decide (Host c = "") then "localhost" else Host c) (APIPath c)
    (default no_GroupVersion (GroupVersion c)) (TLS c).

(** The limiter of a config, made unless it has one. *)
Definition config_limiter (c : Config Creds) : Build (option RateLimiter) :=
  match RateLimiter_ c with
  | Some l => mret (Some l)
  | None =>
      let qps := if zero_qps (QPS c) then DefaultQPS else QPS c in
      let burst := if Burst c =? 0 then DefaultBurst else Burst c in
      if positive_qps qps then l ← NewTokenBucketRateLimiter qps burst; mret (Some l) else mret None
  end.

(** The part RESTClientForConfigAndClient and its unversioned variant share. *)
Definition rest_client (c : Config Creds) (gv : schema.GroupVersion) (client : http_Client) :
    Build (res RESTClient_) :=
  if negb (hasSerializer c)
  then mret (Err (Errorf "NegotiatedSerializer is required when initializing a RESTClient"))
  else
    match defaultServerUrlFor c with
    | Err e => mret (Err e)
    | Ok (baseURL, path) =>
        limiter ← config_limiter c;
        mret (Ok (NewRESTClient baseURL path (ContentType_ c) gv limiter client))
    end.

Definition RESTClientForConfigAndClient (c : Config Creds) (client : http_Client) : Build (res RESTClient_) :=
  match GroupVersion c with
  | None => mret (Err (Errorf "GroupVersion is required when initializing a RESTClient"))
  | Some gv => rest_client c gv client
  end.

Definition meta_v1 : schema.GroupVersion := {| schema.gv_Group := "meta.k8s.io"; schema.gv_Version := "v1" |}.

Definition UnversionedRESTClientForConfigAndClient (c : Config Creds) (client : http_Client) :
    Build (res RESTClient_) :=
  rest_client c (default meta_v1 (GroupVersion c)) client.

(** ** The discovery and the dynamic client *)

Record DiscoveryClient := { disc_restClient : RESTClient_; LegacyPrefix : string; UseLegacyDiscovery : bool }.

Definition defaultTimeout : Duration := 32 * Second.
Definition defaultBurst : Z := 300.

Definition setDiscoveryDefaults (c : Config Creds) : Config Creds :=
  default_UserAgent
    {| Host := Host c; APIPath := ""; GroupVersion := None;
       AcceptContentTypes := AcceptContentTypes c; ContentType_ := ContentType_ c; hasSerializer := true;
       TLS := TLS c; UserAgent := UserAgent c; QPS := QPS c;
       Burst := if Burst c =? 0 then defaultBurst else Burst c; RateLimiter_ := RateLimiter_ c;
       Timeout_ := if Timeout_ c =? 0 then defaultTimeout else Timeout_ c; creds := creds c |}.

Definition NewDiscoveryClientForConfigAndClient (c : Config Creds) (client : http_Client) :
    Build (res DiscoveryClient) :=
  r ← UnversionedRESTClientForConfigAndClient (setDiscoveryDefaults c) client;
  mret match r with
       | Err e => Err e
       | Ok rc => Ok {| disc_restClient := rc; LegacyPrefix := "/api"; UseLegacyDiscovery := false |}
       end.

Definition NewDiscoveryClient (c : RESTClient_) : DiscoveryClient :=
  {| disc_restClient := c; LegacyPrefix := "/api"; UseLegacyDiscovery := false |}.

(** dynamic.ConfigFor *)
Definition ConfigFor (c : Config Creds) : Config Creds :=
  default_UserAgent
    {| Host := Host c; APIPath := APIPath c; GroupVersion := GroupVersion c;
       AcceptContentTypes := "application/json"; ContentType_ := "application/json"; hasSerializer := true;
       TLS := TLS c; UserAgent := UserAgent c; QPS := QPS c; Burst := Burst c;
       RateLimiter_ := RateLimiter_ c; Timeout_ := Timeout_ c; creds := creds c |}.

Definition dynamic_NewForConfigAndClient (inConfig : Config Creds) (client : http_Client) : Build (res RESTClient_) :=
  RESTClientForConfigAndClient
    (with_API "/if-you-see-this-search-for-the-break" (Some no_GroupVersion) (ConfigFor inConfig)) client.

Definition dynamic_NewForConfig (inConfig : Config Creds) : Build (res RESTClient_) :=
  match HTTPClientFor (ConfigFor inConfig) with
  | Err e => mret (Err e)
  | Ok client => dynamic_NewForConfigAndClient (ConfigFor inConfig) client
  end.

(** ** migration_client.go *)

Definition setConfigDefaults (c : Config Creds) : Config Creds :=
  default_UserAgent (with_API config_APIPath (Some SchemeGroupVersion) c).

Definition v1alpha1_NewForConfigAndClient (c : Config Creds) (client : http_Client) : Build (res RESTClient_) :=
  RESTClientForConfigAndClient (setConfigDefaults c) client.

Definition v1alpha1_NewForConfig (c : Config Creds) : Build (res RESTClient_) :=
  match HTTPClientFor (setConfigDefaults c) with
  | Err e => mret (Err e)
  | Ok client => v1alpha1_NewForConfigAndClient (setConfigDefaults c) client
  end.

(** NewForConfigOrDie panics with the error. *)
Definition or_die {A} (m : Build (res A)) : Build A :=
  r ← m; match r with Ok x => mret x | Err _ => λ _, None end.

Definition v1alpha1_NewForConfigOrDie (c : Config Creds) : Build RESTClient_ := or_die (v1alpha1_NewForConfig c).

(** A MigrationV1alpha1Client is its REST client; [None] is a nil pointer or a
    nil interface. *)
Definition v1alpha1_New (c : RESTClient_) : RESTClient_ := c.

Definition v1alpha1_RESTClient (c : option RESTClient_) : option RESTClient_ :=
  match c with None => None | Some restClient => Some restClient end.

Record storageStates_client := { states_client : option RESTClient_ }.
Record storageVersionMigrations_client := { migrations_client : option RESTClient_ }.

Definition newStorageStates (c : RESTClient_) : storageStates_client :=
  {| states_client := v1alpha1_RESTClient (Some c) |}.

Definition newStorageVersionMigrations (c : RESTClient_) : storageVersionMigrations_client :=
  {| migrations_client := v1alpha1_RESTClient (Some c) |}.

Definition v1alpha1_StorageStates (c : RESTClient_) : storageStates_client := newStorageStates c.

Definition v1alpha1_StorageVersionMigrations (c : RESTClient_) : storageVersionMigrations_client :=
  newStorageVersionMigrations c.

(** ** clientset.go *)

Record Clientset_ := { cs_discovery : DiscoveryClient; migrationV1alpha1 : RESTClient_ }.

Definition burst_required : error :=
  Errorf "burst is required to be greater than 0 when RateLimiter is not set and QPS is set to greater than 0".

Definition clientset_clients (c : Config Creds) (client : http_Client) : Build (res Clientset_) :=
  r ← v1alpha1_NewForConfigAndClient c client;
  match r with
  | Err e => mret (Err e)
  | Ok migration =>
      r ← NewDiscoveryClientForConfigAndClient c client;
      mret match r with
           | Err e => Err e
           | Ok d => Ok {| cs_discovery := d; migrationV1alpha1 := migration |}
           end
  end.

Definition clientset_NewForConfigAndClient (c : Config Creds) (client : http_Client) : Build (res Clientset_) :=
  match RateLimiter_ c with
  | None =>
      if positive_qps (QPS c) then
        if Burst c <=? 0 then mret (Err burst_required)
        else
          l ← NewTokenBucketRateLimiter (QPS c) (Burst c);
          clientset_clients (with_RateLimiter (Some l) c) client
      else clientset_clients c client
  | Some _ => clientset_clients c client
  end.

Definition clientset_NewForConfig (c : Config Creds) : Build (res Clientset_) :=
  let configShallowCopy := default_UserAgent c in
  match HTTPClientFor configShallowCopy with
  | Err e => mret (Err e)
  | Ok client => clientset_NewForConfigAndClient configShallowCopy client
  end.

Definition clientset_NewForConfigOrDie (c : Config Creds) : Build Clientset_ := or_die (clientset_NewForConfig c).

Definition clientset_New (c : RESTClient_) : Clientset_ :=
  {| cs_discovery := NewDiscoveryClient c; migrationV1alpha1 := v1alpha1_New c |}.

Definition clientset_MigrationV1alpha1 (cs : Clientset_) : RESTClient_ := migrationV1alpha1 cs.

Definition clientset_Discovery (cs : option Clientset_) : option DiscoveryClient :=
  match cs with None => None | Some cs => Some (cs_discovery cs) end.
End config.
