(* ===== verification/ConfigProps.v ===== *)
(** * Theorems about making the clients *)
From S2P Require Export Config.

Local Open Scope Z_scope.

Section config_props.
Context `{Platform}.
Implicit Types c : Config Creds.

(** How the two clients of a clientset are limited, and what is made for it. *)
Inductive limited c (made : list RateLimiter) :
    list RateLimiter → option RateLimiter → option RateLimiter → Prop :=
  | limited_given l : RateLimiter_ c = Some l → limited c made made (Some l) (Some l)
  | limited_shared l :
      RateLimiter_ c = None → positive_qps (QPS c) = true →
      l = {| limiter_id := length made; limiter_qps := QPS c; limiter_burst := Burst c |} → 0 < Burst c →
      limited c made (made ++ [l]) (Some l) (Some l)
  | limited_apart l1 l2 :
      RateLimiter_ c = None → zero_qps (QPS c) = true →
      l1 = {| limiter_id := length made; limiter_qps := DefaultQPS;
              limiter_burst := if Burst c =? 0 then DefaultBurst else Burst c |} →
      l2 = {| limiter_id := Datatypes.S (length made); limiter_qps := DefaultQPS;
              limiter_burst := if Burst c =? 0 then defaultBurst else Burst c |} →
      limited c made (made ++ [l1; l2]) (Some l1) (Some l2)
  | limited_not :
      RateLimiter_ c = None → positive_qps (QPS c) = false → zero_qps (QPS c) = false →
      limited c made made None None.

Lemma limited_ext c c' made made' lm ld :
  QPS c = QPS c' → Burst c = Burst c' → RateLimiter_ c = RateLimiter_ c' →
  limited c made made' lm ld → limited c' made made' lm ld.
Proof.
  intros EQ EB EL. destruct 1; simplify_eq; rewrite ?EQ, ?EB.
  - apply limited_given. congruence.
  - apply limited_shared; congruence.
  - apply limited_apart; congruence.
  - apply limited_not; congruence.
Qed.

Lemma default_UserAgent_frame c :
  Host (default_UserAgent c) = Host c ∧ APIPath (default_UserAgent c) = APIPath c ∧
  GroupVersion (default_UserAgent c) = GroupVersion c ∧ hasSerializer (default_UserAgent c) = hasSerializer c ∧
  TLS (default_UserAgent c) = TLS c ∧ QPS (default_UserAgent c) = QPS c ∧ Burst (default_UserAgent c) = Burst c ∧
  RateLimiter_ (default_UserAgent c) = RateLimiter_ c.
Proof. unfold default_UserAgent. by case_bool_decide. Qed.

(** The server does not depend on the API that is asked for. *)
Definition server c : res URL :=
  match DefaultServerURL (if bool_decide (Host c = "") then "localhost" else Host c) "" no_GroupVersion (TLS c) with
  | Ok (u, _) => Ok u
  | Err e => Err e
  end.

Lemma defaultServerUrlFor_server c :
  defaultServerUrlFor c =
  match server c with
  | Ok u => Ok (u, DefaultVersionedAPIPath (APIPath c) (default no_GroupVersion (GroupVersion c)))
  | Err e => Err e
  end.
Proof. unfold server, defaultServerUrlFor, DefaultServerURL. by repeat case_match; simplify_eq. Qed.

Lemma server_ext c c' : Host c = Host c' → TLS c = TLS c' → server c = server c'.
Proof. unfold server. by intros -> ->. Qed.

Lemma ends_in_slash_app s : ends_in_slash (s +:+ "/") = true.
Proof.
  induction s as [|a s IH]; [done|]. simpl. destruct (s +:+ "/") eqn:E; [by destruct s|exact IH].
Qed.

Lemma NewRESTClient_base u path ct gv l client :
  ends_in_slash (url_Path (base (NewRESTClient u path ct gv l client))) = true.
Proof. simpl. destruct (ends_in_slash (url_Path u)) eqn:E; [done|apply ends_in_slash_app]. Qed.

(** The two clients made for a config, when its server is known. *)
Lemma migration_client c client made u :
  server c = Ok u →
  v1alpha1_NewForConfigAndClient c client made =
  match config_limiter c made with
  | Some (l, made') => Some (Ok (NewRESTClient u versionedAPIPath (ContentType_ c) SchemeGroupVersion l client), made')
  | None => None
  end.
Proof.
  intros Hu. unfold v1alpha1_NewForConfigAndClient, RESTClientForConfigAndClient, setConfigDefaults.
  unfold default_UserAgent, rest_client. case_bool_decide; simpl;
    (rewrite defaultServerUrlFor_server, (server_ext _ c), Hu by done); reflexivity.
Qed.

Lemma discovery_client c client made u :
  server c = Ok u →
  NewDiscoveryClientForConfigAndClient c client made =
  match config_limiter (setDiscoveryDefaults c) made with
  | Some (l, made') =>
      Some (Ok {| disc_restClient := NewRESTClient u "/" (ContentType_ c) meta_v1 l client;
                  LegacyPrefix := "/api"; UseLegacyDiscovery := false |}, made')
  | None => None
  end.
Proof.
  intros Hu. unfold NewDiscoveryClientForConfigAndClient, UnversionedRESTClientForConfigAndClient, rest_client.
  assert (hasSerializer (setDiscoveryDefaults c) = true ∧ GroupVersion (setDiscoveryDefaults c) = None ∧
          ContentType_ (setDiscoveryDefaults c) = ContentType_ c ∧ APIPath (setDiscoveryDefaults c) = "" ∧
          server (setDiscoveryDefaults c) = Ok u) as (Hs & Hg & Hc & Hp & Hu').
  { unfold setDiscoveryDefaults, default_UserAgent. rewrite <- Hu. by case_bool_decide. }
  rewrite defaultServerUrlFor_server, Hs, Hg, Hc, Hp, Hu'. unfold mbind, M_bind.
  change (DefaultVersionedAPIPath "" (default no_GroupVersion None)) with "/". cbn [negb].
  destruct (config_limiter (setDiscoveryDefaults c) made) as [[l made']|]; reflexivity.
Qed.

(** A client fails when the server's URL does, before it makes a limiter. *)
Lemma migration_client_err c client made e :
  server c = Err e → v1alpha1_NewForConfigAndClient c client made = Some (Err e, made).
Proof.
  intros Hu. unfold v1alpha1_NewForConfigAndClient, RESTClientForConfigAndClient, setConfigDefaults.
  unfold default_UserAgent, rest_client. case_bool_decide; simpl;
    (rewrite defaultServerUrlFor_server, (server_ext _ c), Hu by done); reflexivity.
Qed.

(** What a clientset is made of. *)
Definition clients_of c (client : http_Client) (u : URL) (lm ld : option RateLimiter) (cs : Clientset_) : Prop :=
  migrationV1alpha1 cs = NewRESTClient u versionedAPIPath (ContentType_ c) SchemeGroupVersion lm client ∧
  disc_restClient (cs_discovery cs) = NewRESTClient u "/" (ContentType_ c) meta_v1 ld client.

Definition made_clients c (client : http_Client) (made : list RateLimiter)
    (out : option (res Clientset_ * list RateLimiter)) : Prop :=
  match server c with
  | Err e => ∃ made', out = Some (Err e, made')
  | Ok u => ∃ cs made' lm ld, out = Some (Ok cs, made') ∧ clients_of c client u lm ld cs ∧
              limited c made made' lm ld
  end.

Lemma clientset_clients_limiter c client made l :
  match server c with
  | Err e => clientset_clients (with_RateLimiter (Some l) c) client made = Some (Err e, made)
  | Ok u => ∃ cs, clientset_clients (with_RateLimiter (Some l) c) client made = Some (Ok cs, made) ∧
              clients_of c client u (Some l) (Some l) cs
  end.
Proof.
  unfold clientset_clients, mbind, M_bind. set (c' := with_RateLimiter (Some l) c).
  assert (server c' = server c) as Hs by done. destruct (server c) as [u|e] eqn:Hu.
  - rewrite (migration_client _ _ _ u Hs). change (config_limiter c' made) with (Some (Some l, made)). cbn iota beta.
    rewrite (discovery_client _ _ _ u Hs). unfold config_limiter.
    assert (RateLimiter_ (setDiscoveryDefaults c') = Some l) as ->.
    { unfold setDiscoveryDefaults, default_UserAgent. by case_bool_decide. }
    eexists. split; [reflexivity|]. done.
  - by rewrite (migration_client_err _ _ _ e Hs).
Qed.

Lemma config_limiter_none c made :
  RateLimiter_ c = None → positive_qps (QPS c) = false →
  config_limiter c made =
  if zero_qps (QPS c) then
    let l := {| limiter_id := length made; limiter_qps := DefaultQPS;
                limiter_burst := if Burst c =? 0 then DefaultBurst else Burst c |} in
    Some (Some l, made ++ [l])
  else Some (None, made).
Proof.
  intros Hl Hq. unfold config_limiter. rewrite Hl. destruct (zero_qps (QPS c)); [done|]. by rewrite Hq.
Qed.

Lemma setDiscoveryDefaults_limits c :
  RateLimiter_ (setDiscoveryDefaults c) = RateLimiter_ c ∧ QPS (setDiscoveryDefaults c) = QPS c ∧
  Burst (setDiscoveryDefaults c) = if Burst c =? 0 then defaultBurst else Burst c.
Proof. unfold setDiscoveryDefaults, default_UserAgent. by case_bool_decide. Qed.

Lemma clientset_clients_none c client made :
  RateLimiter_ c = None → positive_qps (QPS c) = false →
  made_clients c client made (clientset_clients c client made).
Proof.
  intros Hl Hq. unfold made_clients, clientset_clients, mbind, M_bind.
  destruct (server c) as [u|e] eqn:Hu; [|rewrite (migration_client_err _ _ _ e Hu); by eexists].
  rewrite (migration_client _ _ _ u Hu), (config_limiter_none c) by done.
  destruct (setDiscoveryDefaults_limits c) as (Hl' & Hq' & Hb').
  destruct (zero_qps (QPS c)) eqn:Hz; cbn iota beta zeta;
    rewrite (discovery_client _ _ _ u Hu), (config_limiter_none (setDiscoveryDefaults c)) by congruence;
    rewrite Hq', Hz, ?Hb'; cbn iota beta zeta.
  - do 4 eexists. split; [reflexivity|]. split; [done|]. rewrite <- app_assoc.
    apply limited_apart; [done|done|done|]. rewrite length_app. simpl. f_equal; [lia|].
    destruct (Z.eqb_spec (Burst c) 0); [done|]. by destruct (Z.eqb_spec (Burst c) 0).
  - do 4 eexists. split; [reflexivity|]. split; [done|]. by apply limited_not.
Qed.

Lemma with_RateLimiter_same c l : RateLimiter_ c = Some l → with_RateLimiter (Some l) c = c.
Proof. intros <-. by destruct c. Qed.

Lemma clientset_NewForConfigAndClient_made c client made :
  RateLimiter_ c ≠ None ∨ positive_qps (QPS c) = false ∨ 0 < Burst c →
  made_clients c client made (clientset_NewForConfigAndClient c client made).
Proof.
  intros Hb. unfold clientset_NewForConfigAndClient. destruct (RateLimiter_ c) as [l|] eqn:Hl.
  - pose proof (clientset_clients_limiter c client made l) as Hm. rewrite with_RateLimiter_same in Hm by done.
    unfold made_clients. destruct (server c); [|by eexists].
    destruct Hm as (cs & -> & Hcs). do 4 eexists. split; [reflexivity|]. split; [exact Hcs|]. by apply limited_given.
  - destruct (positive_qps (QPS c)) eqn:Hq; [|by apply clientset_clients_none].
    destruct Hb as [?|[?|Hb]]; [done..|]. destruct (Z.leb_spec (Burst c) 0); [lia|].
    unfold mbind at 1, M_bind. cbn [NewTokenBucketRateLimiter].
    set (l := {| limiter_id := length made; limiter_qps := QPS c; limiter_burst := Burst c |}).
    pose proof (clientset_clients_limiter c client (made ++ [l]) l) as Hm.
    unfold made_clients. destruct (server c); [|by eexists].
    destruct Hm as (cs & -> & Hcs). do 4 eexists. split; [reflexivity|]. split; [exact Hcs|]. by apply limited_shared.
Qed.

(** ** Claims *)

(** NewForConfig makes a clientset exactly when there are a transport and
    a server for the config and its burst allows its rate: both clients then
    go through that transport to that server, the migration client to the
    group and version of the API; they share the limiter the config has, or
    one made of its QPS and burst, and only when QPS is left zero each gets a
    default one of its own (none when QPS is negative).  Otherwise the error
    says which of the three is missing. *)
Theorem clientset_NewForConfig_spec c made :
  let c1 := default_UserAgent c in
  match HTTPClientFor c1 with
  | Err e => clientset_NewForConfig c made = Some (Err e, made)
  | Ok client =>
      if decide (RateLimiter_ c = None ∧ positive_qps (QPS c) = true ∧ Burst c ≤ 0)
      then clientset_NewForConfig c made = Some (Err burst_required, made)
      else match server c with
           | Err e => ∃ made', clientset_NewForConfig c made = Some (Err e, made')
           | Ok u =>
               ∃ cs made' lm ld, clientset_NewForConfig c made = Some (Ok cs, made') ∧
                 limited c made made' lm ld ∧
                 migrationV1alpha1 cs =
                   NewRESTClient u versionedAPIPath (ContentType_ c) SchemeGroupVersion lm client ∧
                 disc_restClient (cs_discovery cs) = NewRESTClient u "/" (ContentType_ c) meta_v1 ld client ∧
                 ends_in_slash (url_Path (base (migrationV1alpha1 cs))) = true
           end
  end.
Proof.
  unfold clientset_NewForConfig. destruct (default_UserAgent_frame c) as (EH & _ & _ & _ & ET & EQ & EB & EL).
  assert (ContentType_ (default_UserAgent c) = ContentType_ c) as EC.
  { unfold default_UserAgent. by case_bool_decide. }
  set (c1 := default_UserAgent c) in *. destruct (HTTPClientFor c1) as [client|e]; [|done].
  rewrite <- EL, <- EQ, <- EB, (server_ext c c1) by done. case_decide as Hb.
  - destruct Hb as (Hl & Hq & Hb). unfold clientset_NewForConfigAndClient. rewrite Hl, Hq.
    by destruct (Z.leb_spec (Burst c1) 0); [|lia].
  - assert (made_clients c1 client made (clientset_NewForConfigAndClient c1 client made)) as Hm.
    { apply clientset_NewForConfigAndClient_made. destruct (RateLimiter_ c1); [by left|right].
      destruct (positive_qps (QPS c1)); [right|by left]. destruct (Z.leb_spec (Burst c1) 0); [naive_solver|lia]. }
    unfold made_clients in Hm. destruct (server c1) as [u|e]; [|done].
    destruct Hm as (cs & made' & lm & ld & -> & [Hcm Hcd] & Hlim). exists cs, made', lm, ld.
    rewrite <- EC. split_and!; [done| |done|done|].
    + by eapply limited_ext.
    + rewrite Hcm. apply NewRESTClient_base.
Qed.
End config_props.
