(* ===== verification/Commands.v ===== *)
(** * The three commands: src/cmd/*/app

    run of the migrator, the trigger and the initializer: from the flags to
    the clients, and then the component's own loop.  The HTTP servers for
    health and metrics are not modelled.  The commands are given their clients
    as the classes of [World]; what is modelled of making them is whether it
    fails, and with what configuration. *)
From S2P Require Export Config Controller TriggerLoop Initializer.

Local Open Scope Z_scope.

(** How a command ends: RunE returns, the process is ended by log.Fatalf, or
    it panics. *)
Inductive outcome :=
  | Returned_ (err : option error)
  | Fatal (message : string)
  | Panicked (message : string).

(** Flags; the kubeconfig flag is empty when it is not given. *)
Record Flags := { kubeconfigPath : string; kubeAPIQPS : Q; kubeAPIBurst : Z }.
Definition default_flags : Flags := {| kubeconfigPath := ""; kubeAPIQPS := DefaultQPS; kubeAPIBurst := DefaultBurst |}.

Definition migratorUserAgent : string := "storage-version-migration-migrator".
Definition triggerUserAgent : string := "storage-version-migration-trigger".
Definition initializerUserAgent : string := "storage-version-migration-initializer".
Definition VERSION : string := "UNKNOWN".

(** Where configs come from: clientcmd and the service account of the pod. *)
Class ConfigSource `{Platform} := {
  BuildConfigFromFlags : string → res (Config Creds);
  InClusterConfig : res (Config Creds);
  (* the clientsets of other APIs *)
  kubernetes_NewForConfig : Config Creds → res unit;
  crdclient_NewForConfig : Config Creds → res unit;
  apiserviceclient_NewForConfig : Config Creds → res unit;
}.

Section setup.
Context `{ConfigSource}.

(** The config of the migrator and of the trigger. *)
Definition load_config (path : string) : outcome + Config Creds :=
  if bool_decide (path ≠ "") then
    match BuildConfigFromFlags path with
    | Err e => inl (Fatal ("Error initializing client config: " +:+ Error e +:+ " for kubeconfig: " +:+ path))
    | Ok c => inr c
    end
  else match InClusterConfig with
       | Err e => inl (Returned_ (Some e))
       | Ok c => inr c
       end.

Definition with_limits (qps : Q) (burst : Z) (c : Config Creds) : Config Creds :=
  {| Host := Host c; APIPath := APIPath c; GroupVersion := GroupVersion c;
     AcceptContentTypes := AcceptContentTypes c; ContentType_ := ContentType_ c;
     hasSerializer := hasSerializer c; TLS := TLS c; UserAgent := UserAgent c; QPS := qps; Burst := burst;
     RateLimiter_ := RateLimiter_ c; Timeout_ := Timeout_ c; creds := creds c |}.

(** Everything run of the migrator does before c.Run. *)
Definition migrator_setup (f : Flags) : Build (outcome + (RESTClient_ * Clientset_)) :=
  match load_config (kubeconfigPath f) with
  | inl o => mret (inl o)
  | inr c =>
      let c := with_UserAgent (migratorUserAgent +:+ "/" +:+ VERSION)
                 (with_limits (kubeAPIQPS f) (kubeAPIBurst f) c) in
      r ← dynamic_NewForConfig c;
      match r with
      | Err e => mret (inl (Returned_ (Some e)))
      | Ok dynamic =>
          r ← clientset_NewForConfig c;
          mret match r with
               | Err e => inl (Returned_ (Some e))
               | Ok migration => inr (dynamic, migration)
               end
      end
  end.

(** migration.DiscoveryClient.UseLegacyDiscovery = true *)
Definition legacy_discovery (cs : Clientset_) : Clientset_ :=
  {| cs_discovery := {| disc_restClient := disc_restClient (cs_discovery cs);
                        LegacyPrefix := LegacyPrefix (cs_discovery cs); UseLegacyDiscovery := true |};
     migrationV1alpha1 := migrationV1alpha1 cs |}.

Definition trigger_setup (path : string) : Build (outcome + Clientset_) :=
  match load_config path with
  | inl o => mret (inl o)
  | inr c =>
      r ← clientset_NewForConfig (with_UserAgent (triggerUserAgent +:+ "/" +:+ VERSION) c);
      mret match r with
           | Err e => inl (Returned_ (Some e))
           | Ok migration => inr (legacy_discovery migration)
           end
  end.

Definition initializer_setup : Build (outcome + Clientset_) :=
  match InClusterConfig with
  | Err e => mret (inl (Returned_ (Some e)))
  | Ok c =>
      let c := with_UserAgent (initializerUserAgent +:+ "/" +:+ VERSION) c in
      match kubernetes_NewForConfig c with
      | Err e => mret (inl (Returned_ (Some e)))
      | Ok _ =>
          match crdclient_NewForConfig c with
          | Err e => mret (inl (Returned_ (Some e)))
          | Ok _ =>
              match apiserviceclient_NewForConfig c with
              | Err e => mret (inl (Returned_ (Some e)))
              | Ok _ =>
                  r ← clientset_NewForConfig c;
                  mret match r with
                       | Err e => inl (Returned_ (Some e))
                       | Ok migration => inr migration
                       end
              end
          end
      end
  end.
End setup.

Section commands.
Context `{ConfigSource} {C : Type} `{Runtime C} `{DynamicInterface C} `{StorageVersionMigrationInterface C}
  `{StorageStateInterface C} `{MigrationIndexer C} `{DiscoveryInterface C} `{MapOrder}
  `{CustomResourceDefinitionInterface C} `{APIServiceInterface C} `{ServerResourcesInterface C}.
Abbreviation Eff := (M (World C)).

(** A setup that has no result would be a panic; it always has one. *)
Definition after_setup {A} (setup : Build (outcome + A)) (go : A → Eff outcome) : Eff outcome :=
  match setup [] with
  | None => λ _, None
  | Some (inl o, _) => mret o
  | Some (inr clients, _) => go clients
  end.

(** run of the migrator; c.Run returns when ctx is cancelled. *)
Definition migrator_run (f : Flags) (synced : bool) (n rounds fuel : nat) (early : bool) : Eff outcome :=
  after_setup (migrator_setup f) (λ _,
    KubeMigrator_Run synced n rounds fuel early ;;
    mret (Panicked "unreachable")).

(** run of the trigger, whose loop is a step relation. *)
Inductive trigger_run (path : string) (w : World C) : outcome → World C → Prop :=
  | trigger_run_setup o made : trigger_setup path [] = Some (inl o, made) → trigger_run path w o w
  | trigger_run_loop clients made s :
      trigger_setup path [] = Some (inr clients, made) →
      rtc step (NewMigrationTrigger w) s → run s = Returned →
      trigger_run path w (Panicked "unreachable") (world s).

Definition initializer_run (ticks : nat) : Eff outcome :=
  after_setup initializer_setup (λ _, err ← Initialize ticks; mret (Returned_ err)).
End commands.
