(* ===== verification/CommandsProps.v ===== *)
(** * Theorems about the commands *)
From S2P Require Export ConfigProps Commands.

Local Open Scope Z_scope.

(** How a command ends when its clients cannot be made. *)
Definition failed (o : outcome) : Prop :=
  match o with Returned_ None | Panicked _ => False | _ => True end.

(** ** Making the clients always ends, and fails with an error *)

Section setup_props.
Context `{ConfigSource}.

(** No constructor panics: each is [total]. *)

Lemma total_limiter qps burst : total (NewTokenBucketRateLimiter qps burst).
Proof. intros made. by eexists. Qed.

Ltac solve_total :=
  repeat first [apply total_ret | apply total_limiter | apply total_bind; [|intros] | progress cbv zeta | case_match].

Lemma rest_client_total c gv client : total (rest_client c gv client).
Proof. unfold rest_client, config_limiter. solve_total. Qed.

Lemma clientset_total c : total (clientset_NewForConfig c).
Proof.
  unfold clientset_NewForConfig, clientset_NewForConfigAndClient, clientset_clients.
  unfold v1alpha1_NewForConfigAndClient, NewDiscoveryClientForConfigAndClient, RESTClientForConfigAndClient.
  unfold UnversionedRESTClientForConfigAndClient. solve_total; apply rest_client_total.
Qed.

Lemma dynamic_total c : total (dynamic_NewForConfig c).
Proof.
  unfold dynamic_NewForConfig, dynamic_NewForConfigAndClient, RESTClientForConfigAndClient.
  solve_total; apply rest_client_total.
Qed.

(** A setup that ends the command does so with a failure. *)
Definition fails_only {A} (m : Build (outcome + A)) : Prop :=
  ∀ made, ∃ r made', m made = Some (r, made') ∧ match r with inl o => failed o | inr _ => True end.

Lemma fails_only_inl {A} o : failed o → fails_only (A:=A) (mret (inl o)).
Proof. intros Ho made. by eexists _, _. Qed.

Lemma fails_only_inr {A} (x : A) : fails_only (mret (inr x)).
Proof. intros made. by eexists _, _. Qed.

Lemma fails_only_bind {A B} (m : Build A) (k : A → Build (outcome + B)) :
  total m → (∀ x, fails_only (k x)) → fails_only (m ≫= k).
Proof. intros Hm Hk made. destruct (Hm made) as [[x made'] E]. rewrite (bind_step _ _ _ _ _ E). apply Hk. Qed.

Lemma load_config_fails path o : load_config path = inl o → failed o.
Proof. unfold load_config. repeat case_match; intros; simplify_eq/=; done. Qed.

Ltac solve_fails :=
  repeat first [apply fails_only_inr | apply fails_only_inl; [done] | apply fails_only_bind; [|intros] | progress cbv zeta
               | case_match].

Lemma migrator_setup_fails f : fails_only (migrator_setup f).
Proof.
  unfold migrator_setup. destruct (load_config _) as [o|c] eqn:E.
  - apply fails_only_inl. by eapply load_config_fails.
  - solve_fails; [apply dynamic_total|apply clientset_total].
Qed.

Lemma trigger_setup_fails path : fails_only (trigger_setup path).
Proof.
  unfold trigger_setup. destruct (load_config _) as [o|c] eqn:E.
  - apply fails_only_inl. by eapply load_config_fails.
  - solve_fails; apply clientset_total.
Qed.

Lemma initializer_setup_fails : fails_only initializer_setup.
Proof.
  unfold initializer_setup. repeat (case_match; [|by apply fails_only_inl]).
  solve_fails; apply clientset_total.
Qed.
End setup_props.

(** ** What the clients are

    [loaded path src]: a command given [path] as its kubeconfig, empty for
    none, has the config [src], or ends as [src] says. *)
Section clients_props.
Context `{ConfigSource}.
Implicit Types c : Config Creds.

Inductive loaded (path : string) : outcome + Config Creds → Prop :=
  | from_kubeconfig c : path ≠ "" → BuildConfigFromFlags path = Ok c → loaded path (inr c)
  | bad_kubeconfig e :
      path ≠ "" → BuildConfigFromFlags path = Err e →
      loaded path (inl (Fatal ("Error initializing client config: " +:+ Error e +:+ " for kubeconfig: " +:+ path)))
  | from_service_account c : path = "" → InClusterConfig = Ok c → loaded path (inr c)
  | no_service_account e : path = "" → InClusterConfig = Err e → loaded path (inl (Returned_ (Some e))).

Lemma load_config_loaded path : loaded path (load_config path).
Proof.
  unfold load_config. case_bool_decide as Hp.
  - destruct (BuildConfigFromFlags path) eqn:E; [by apply from_kubeconfig|by apply bad_kubeconfig].
  - destruct InClusterConfig eqn:E; [by apply from_service_account|by apply no_service_account].
Qed.

(** The clients need a transport for the config and a URL of the server; the
    clientset also a burst that goes with its rate. *)
Definition no_dynamic c : option error :=
  match HTTPClientFor (ConfigFor c) with
  | Err e => Some e
  | Ok _ => match server c with Err e => Some e | Ok _ => None end
  end.

Definition no_clientset c : option error :=
  match HTTPClientFor c with
  | Err e => Some e
  | Ok _ =>
      if decide (RateLimiter_ c = None ∧ positive_qps (QPS c) = true ∧ Burst c <= 0) then Some burst_required
      else match server c with Err e => Some e | Ok _ => None end
  end.

(** The dynamic client goes to the server of the config, through the limiter
    of the config or one of its own, none when the rate is negative. *)
Definition dynamic_for c (dynamic : RESTClient_) (made made' : list RateLimiter) : Prop :=
  ∃ client u l, HTTPClientFor (ConfigFor c) = Ok client ∧ server c = Ok u ∧
    dynamic = NewRESTClient u (rc_versionedAPIPath dynamic) "application/json" no_GroupVersion l client ∧
    match RateLimiter_ c with
    | Some given => l = Some given ∧ made' = made
    | None =>
        let own := {| limiter_id := length made; limiter_qps := if zero_qps (QPS c) then DefaultQPS else QPS c;
                      limiter_burst := if Burst c =? 0 then DefaultBurst else Burst c |} in
        if zero_qps (QPS c) || positive_qps (QPS c) then l = Some own ∧ made' = made ++ [own]
        else l = None ∧ made' = made
    end.

(** The clients of the clientset go there too, as [limited] says. *)
Definition clientset_for c (cs : Clientset_) (made made' : list RateLimiter) : Prop :=
  ∃ client u lm ld, HTTPClientFor c = Ok client ∧ server c = Ok u ∧ limited c made made' lm ld ∧
    migrationV1alpha1 cs = NewRESTClient u versionedAPIPath (ContentType_ c) SchemeGroupVersion lm client ∧
    disc_restClient (cs_discovery cs) = NewRESTClient u "/" (ContentType_ c) meta_v1 ld client.

Lemma dynamic_NewForConfig_cases c made :
  match no_dynamic c with
  | Some e => dynamic_NewForConfig c made = Some (Err e, made)
  | None => ∃ d made', dynamic_NewForConfig c made = Some (Ok d, made') ∧ dynamic_for c d made made'
  end.
Proof.
  unfold no_dynamic, dynamic_NewForConfig. destruct (HTTPClientFor (ConfigFor c)) as [client|e] eqn:Eh; [|done].
  unfold dynamic_NewForConfigAndClient, RESTClientForConfigAndClient. cbn [GroupVersion with_API].
  set (c' := with_API _ _ _).
  assert (server c' = server c ∧ hasSerializer c' = true ∧ ContentType_ c' = "application/json" ∧
    RateLimiter_ c' = RateLimiter_ c ∧ QPS c' = QPS c ∧ Burst c' = Burst c) as (Es & Er & Ec & El & Eq & Eb).
  { unfold c', ConfigFor, default_UserAgent. repeat case_bool_decide; done. }
  unfold rest_client. rewrite Er, defaultServerUrlFor_server, Es, Ec. cbn [negb].
  destruct (server c) as [u|e] eqn:Eu; [|done].
  assert (∃ l made', config_limiter c' made = Some (l, made') ∧ match RateLimiter_ c with
    | Some given => l = Some given ∧ made' = made
    | None =>
        let own := {| limiter_id := length made; limiter_qps := if zero_qps (QPS c) then DefaultQPS else QPS c;
                      limiter_burst := if Burst c =? 0 then DefaultBurst else Burst c |} in
        if zero_qps (QPS c) || positive_qps (QPS c) then l = Some own ∧ made' = made ++ [own]
        else l = None ∧ made' = made
    end) as (l & made' & Hl & Hm).
  { unfold config_limiter. rewrite El, Eq, Eb. destruct (RateLimiter_ c); [by eexists _, _|].
    destruct (zero_qps (QPS c)) eqn:Ez; [by eexists _, _|]. destruct (positive_qps (QPS c)); by eexists _, _. }
  eexists _, made'. split; [by rewrite (bind_step _ _ _ _ _ Hl)|]. by exists client, u, l.
Qed.

Lemma clientset_NewForConfig_cases c made :
  UserAgent c ≠ "" →
  match no_clientset c with
  | Some e => ∃ made', clientset_NewForConfig c made = Some (Err e, made')
  | None => ∃ cs made', clientset_NewForConfig c made = Some (Ok cs, made') ∧ clientset_for c cs made made'
  end.
Proof.
  intros Hua. pose proof (clientset_NewForConfig_spec c made) as Hs. simpl in Hs.
  assert (default_UserAgent c = c) as E by (unfold default_UserAgent; by rewrite bool_decide_eq_false_2).
  rewrite E in Hs. unfold no_clientset. destruct (HTTPClientFor c) as [client|e] eqn:Eh; [|eauto].
  case_decide; [eauto|]. destruct (server c) as [u|e] eqn:Eu; [|eauto].
  destruct Hs as (cs & made' & lm & ld & E' & Hl & Hm & Hd & _). exists cs, made'. split; [done|].
  by exists client, u, lm, ld.
Qed.

Definition migrator_config (f : Flags) c : Config Creds :=
  with_UserAgent "storage-version-migration-migrator/UNKNOWN" (with_limits (kubeAPIQPS f) (kubeAPIBurst f) c).
Definition trigger_config c : Config Creds := with_UserAgent "storage-version-migration-trigger/UNKNOWN" c.

(** A config without a limiter, and a positive rate and burst. *)
Lemma positive_limiters c dynamic cs made made' :
  RateLimiter_ c = None → positive_qps (QPS c) = true → 0 < Burst c →
  dynamic_for c dynamic [] made → clientset_for c cs made made' →
  let limiter id := {| limiter_id := id; limiter_qps := QPS c; limiter_burst := Burst c |} in
  made' = [limiter 0%nat; limiter 1%nat] ∧ rateLimiter dynamic = Some (limiter 0%nat) ∧
  rateLimiter (migrationV1alpha1 cs) = Some (limiter 1%nat) ∧
  rateLimiter (disc_restClient (cs_discovery cs)) = Some (limiter 1%nat).
Proof.
  intros Hl Hq Hb (client & u & l & _ & _ & Ed & Hd) (client' & u' & lm & ld & _ & _ & Hlim & Em & Edisc). simpl.
  rewrite Hl in Hd. assert (zero_qps (QPS c) = false) as Hz.
  { unfold zero_qps, positive_qps in *. lia. }
  rewrite Hz, Hq in Hd. destruct (Z.eqb_spec (Burst c) 0) as [|_]; [lia|]. destruct Hd as [-> ->].
  destruct Hlim as [? E|? _ _ -> _|? ? _ E| _ E]; [congruence| |congruence|congruence].
  rewrite Ed, Em, Edisc. done.
Qed.

(** C36. The migrator and the trigger get the clients their flags ask for, or
    end with what stops them.  The config is that of the kubeconfig, whose
    failure is fatal and named, or without one that of the service account of
    the pod, whose failure is returned; it gets the user agent of the command,
    and in the migrator the rate and burst of the flags.  The command goes on
    exactly when every client can be made, which takes a transport and a
    server's URL, and for the clientset a positive burst when the rate is
    positive and there is no limiter yet, and otherwise returns the first of
    these errors.  All its clients go to that server; the trigger's discovery
    uses the legacy format.  With the rate of the flags positive the migrator
    has two limiters of that rate and burst, one for the objects it migrates
    and one that the migrations and discovery share. *)
Theorem commands_clients (f : Flags) (path : string) :
  (∃ src, loaded (kubeconfigPath f) src ∧
    match src with
    | inl o => migrator_setup f [] = Some (inl o, [])
    | inr c0 =>
        let c := migrator_config f c0 in
        match no_dynamic c, no_clientset c with
        | Some e, _ => migrator_setup f [] = Some (inl (Returned_ (Some e)), [])
        | None, Some e => ∃ made, migrator_setup f [] = Some (inl (Returned_ (Some e)), made)
        | None, None =>
            ∃ dynamic cs made made', migrator_setup f [] = Some (inr (dynamic, cs), made') ∧
              dynamic_for c dynamic [] made ∧ clientset_for c cs made made' ∧
              (RateLimiter_ c0 = None → positive_qps (kubeAPIQPS f) = true →
               let limiter id := {| limiter_id := id; limiter_qps := kubeAPIQPS f;
                                    limiter_burst := kubeAPIBurst f |} in
               0 < kubeAPIBurst f ∧ made' = [limiter 0%nat; limiter 1%nat] ∧
               rateLimiter dynamic = Some (limiter 0%nat) ∧
               rateLimiter (migrationV1alpha1 cs) = Some (limiter 1%nat) ∧
               rateLimiter (disc_restClient (cs_discovery cs)) = Some (limiter 1%nat))
        end
    end) ∧
  (∃ src, loaded path src ∧
    match src with
    | inl o => trigger_setup path [] = Some (inl o, [])
    | inr c0 =>
        let c := trigger_config c0 in
        match no_clientset c with
        | Some e => ∃ made, trigger_setup path [] = Some (inl (Returned_ (Some e)), made)
        | None =>
            ∃ cs made, trigger_setup path [] = Some (inr cs, made) ∧ clientset_for c cs [] made ∧
              UseLegacyDiscovery (cs_discovery cs) = true
        end
    end).
Proof.
  split.
  - exists (load_config (kubeconfigPath f)). split; [apply load_config_loaded|]. unfold migrator_setup.
    destruct (load_config (kubeconfigPath f)) as [o|c0]; [done|].
    change (with_UserAgent _ _) with (migrator_config f c0). set (c := migrator_config f c0). cbv zeta.
    pose proof (dynamic_NewForConfig_cases c []) as Hd. destruct (no_dynamic c) as [e|].
    { by rewrite (bind_step _ _ _ _ _ Hd). }
    destruct Hd as (dynamic & made & Ed & Hd). rewrite (bind_step _ _ _ _ _ Ed).
    pose proof (clientset_NewForConfig_cases c made ltac:(done)) as Hc. destruct (no_clientset c) as [e|] eqn:En.
    { destruct Hc as (made' & Ec). exists made'. by rewrite (bind_step _ _ _ _ _ Ec). }
    destruct Hc as (cs & made' & Ec & Hc). exists dynamic, cs, made, made'.
    split; [by rewrite (bind_step _ _ _ _ _ Ec)|]. split; [done|]. split; [done|]. intros Hl Hq.
    assert (0 < kubeAPIBurst f) as Hb.
    { unfold no_clientset in En. destruct (HTTPClientFor c); [|done]. case_decide as Hn; [done|].
      destruct (Z.lt_ge_cases 0 (kubeAPIBurst f)); [done|]. by destruct Hn. }
    split; [done|]. by apply (positive_limiters c dynamic cs made made').
  - exists (load_config path). split; [apply load_config_loaded|]. unfold trigger_setup.
    destruct (load_config path) as [o|c0]; [done|].
    change (with_UserAgent _ _) with (trigger_config c0). set (c := trigger_config c0). cbv zeta.
    pose proof (clientset_NewForConfig_cases c [] ltac:(done)) as Hc. destruct (no_clientset c) as [e|].
    { destruct Hc as (made' & Ec). exists made'. by rewrite (bind_step _ _ _ _ _ Ec). }
    destruct Hc as (cs & made' & Ec & Hc). eexists _, made'. split; [by rewrite (bind_step _ _ _ _ _ Ec)|]. done.
Qed.
End clients_props.

Section commands_props.
Context `{ConfigSource} {C : Type} `{Runtime C} `{DynamicInterface C} `{StorageVersionMigrationInterface C}
  `{StorageStateInterface C} `{MigrationIndexer C} `{DiscoveryInterface C} `{MapOrder}
  `{CustomResourceDefinitionInterface C} `{APIServiceInterface C} `{ServerResourcesInterface C}.

Lemma after_setup_cases {A} (setup : Build (outcome + A)) (go : A → M (World C) outcome) w :
  fails_only setup →
  match setup [] with
  | Some (inl o, _) => failed o ∧ after_setup setup go w = Some (o, w)
  | Some (inr clients, _) => after_setup setup go w = go clients w
  | None => False
  end.
Proof.
  intros Hs. destruct (Hs []) as (r & made & E & Hr). unfold after_setup. rewrite E. by destruct r.
Qed.

(** The commands end as their parts make them.  When clients cannot be made, a
    command fails.  Otherwise the initializer returns what Initialize returns; and the
    migrator and the trigger, whose loops return when their context is
    cancelled (or their caches never sync), end by panicking with
    "unreachable": they never end well. *)
Theorem commands_end (f : Flags) (synced : bool) (n rounds fuel : nat) (early : bool) (path : string) (ticks : nat)
    (w : World C) :
  match migrator_setup f [] with
  | Some (inl o, _) => failed o ∧ migrator_run f synced n rounds fuel early w = Some (o, w)
  | Some (inr _, _) => ∀ o w', migrator_run f synced n rounds fuel early w = Some (o, w') ↔
      KubeMigrator_Run synced n rounds fuel early w = Some (tt, w') ∧ o = Panicked "unreachable"
  | None => False
  end ∧
  match trigger_setup path [] with
  | Some (inl o, _) => failed o ∧ ∀ o' w', trigger_run path w o' w' ↔ o' = o ∧ w' = w
  | Some (inr _, _) =>
      (∀ o w', trigger_run path w o w' ↔
         o = Panicked "unreachable" ∧ ∃ s, rtc step (NewMigrationTrigger w) s ∧ run s = Returned ∧ w' = world s) ∧
      ∃ w', trigger_run path w (Panicked "unreachable") w'
  | None => False
  end ∧
  match initializer_setup [] with
  | Some (inl o, _) => failed o ∧ initializer_run ticks w = Some (o, w)
  | Some (inr _, _) => ∀ err w', Initialize ticks w = Some (err, w') →
      initializer_run ticks w = Some (Returned_ err, w')
  | None => False
  end.
Proof.
  split_and!.
  - pose proof (after_setup_cases (migrator_setup f) (λ _, KubeMigrator_Run synced n rounds fuel early ;;
      mret (Panicked "unreachable")) w (migrator_setup_fails f)) as Hc.
    fold (migrator_run f synced n rounds fuel early) in Hc.
    destruct (migrator_setup f []) as [[[o|cs] made]|]; [exact Hc| |done].
    intros o w'. rewrite Hc, bind_Some. split.
    + by intros ([] & w1 & Hr & [= <- <-]).
    + intros [Hr ->]. by exists tt, w'.
  - destruct (trigger_setup_fails path []) as (r & made & E & Hr). rewrite E. destruct r as [o|cs].
    + split; [done|]. intros o' w'. split.
      * intros Hrun. destruct Hrun as [o' made' E'|cs made' s E' _ _]; by simplify_eq.
      * intros [-> ->]. by eapply trigger_run_setup.
    + split.
      * intros o w'. split.
        -- intros Hrun. destruct Hrun as [o' made' E'|cs' made' s E' Hs Hret]; [by simplify_eq|]. eauto.
        -- intros (-> & s & Hs & Hret & ->). by eapply trigger_run_loop.
      * eexists. eapply trigger_run_loop; [exact E| |].
        -- eapply rtc_l; [by apply step_not_synced|]. apply rtc_refl.
        -- done.
  - pose proof (after_setup_cases initializer_setup (λ _, err ← Initialize ticks; mret (Returned_ err)) w
      initializer_setup_fails) as Hc.
    fold (initializer_run ticks) in Hc.
    destruct (initializer_setup []) as [[[o|cs] made]|]; [exact Hc| |done].
    intros err w' Hr. by rewrite Hc, (bind_step _ _ _ _ _ Hr).
Qed.
End commands_props.

(** ** A run: a pod with a service account, interrupted after one round *)

Definition in_cluster : Config unit :=
  {| Host := "https://10.0.0.1:443"; APIPath := ""; GroupVersion := None; AcceptContentTypes := "";
     ContentType_ := ""; hasSerializer := false; TLS := true; UserAgent := ""; QPS := inject_Z 0; Burst := 0;
     RateLimiter_ := None; Timeout_ := 0; creds := tt |}.

#[export] Instance sim_platform : Platform := {|
  Creds := unit; http_Client := unit; HTTPClientFor := λ _, Ok tt;
  url_Parse := λ s, if bool_decide (s = "https://10.0.0.1:443")
    then Ok {| url_Scheme := "https"; url_Host := "10.0.0.1:443"; url_Path := "" |}
    else Err (Errorf "parse error");
  DefaultKubernetesUserAgent := "migrator" |}.

#[export] Instance sim_source : ConfigSource := {|
  BuildConfigFromFlags := λ _, Err (Errorf "no kubeconfig"); InClusterConfig := Ok in_cluster;
  kubernetes_NewForConfig := λ _, Ok tt; crdclient_NewForConfig := λ _, Ok tt;
  apiserviceclient_NewForConfig := λ _, Ok tt |}.

Example migrator_interrupted :
  option_map fst (migrator_run default_flags true 1 3 3 false (start empty_cluster)) = Some (Panicked "unreachable").
Proof. vm_compute. reflexivity. Qed.

(** The dynamic client and the clientset of the migrator each have a limiter
    of the flags' rate. *)
Example migrator_limiters :
  option_map (map (λ l, (limiter_qps l, limiter_burst l)) ∘ snd) (migrator_setup default_flags []) =
  Some [(DefaultQPS, 10); (DefaultQPS, 10)].
Proof. vm_compute. reflexivity. Qed.

Lemma commands_clients_witness :
  ∃ dynamic cs made, migrator_setup default_flags [] = Some (inr (dynamic, cs), made) ∧
    rateLimiter dynamic ≠ rateLimiter (migrationV1alpha1 cs).
Proof.
  destruct (commands_clients default_flags "") as [(src & Hl & Hm) _].
  destruct Hl as [c Hp _|e Hp _|c _ Hc|e _ He]; [by destruct Hp|by destruct Hp| |discriminate He].
  injection Hc as <-. destruct Hm as (dynamic & cs & made & made' & E & _ & _ & Hlim).
  destruct (Hlim eq_refl eq_refl) as (_ & _ & Ed & Em & _).
  exists dynamic, cs, made'. split; [exact E|]. rewrite Ed, Em. discriminate.
Defined.
