(* ===== verification/Scheme.v ===== *)
(** * Schemes: the registry of API types

    register.go of src/pkg/apis/migration/v1alpha1 and of the clientset
    packages fake and scheme, with the part of apimachinery they call:
    runtime/scheme.go, the registrations of meta/v1/register.go and the guess
    of a resource's name from its kind (api/meta/restmapper.go).  [None] is a
    panic.  The conversions a registration adds are not modelled: nothing of
    the program converts between versions. *)
From S2P Require Export Rest.

Import v1alpha1.

Record GroupVersionKind := { gvk_Group : string; gvk_Version : string; gvk_Kind : string }.

#[global] Instance GroupVersionKind_eq_dec : EqDecision GroupVersionKind.
Proof. solve_decision. Defined.
#[global] Instance GroupVersionKind_countable : Countable GroupVersionKind.
Proof.
  refine (inj_countable' (λ g, (gvk_Group g, gvk_Version g, gvk_Kind g))
            (λ '(g, v, k), {| gvk_Group := g; gvk_Version := v; gvk_Kind := k |}) _). by intros [].
Defined.

Definition WithKind (gv : schema.GroupVersion) (kind : string) : GroupVersionKind :=
  {| gvk_Group := schema.gv_Group gv; gvk_Version := schema.gv_Version gv; gvk_Kind := kind |}.
Definition gvk_GroupVersion (gvk : GroupVersionKind) : schema.GroupVersion :=
  {| schema.gv_Group := gvk_Group gvk; schema.gv_Version := gvk_Version gvk |}.

(** A struct type; what is registered is always a pointer to one. *)
Record GoType := { PkgPath : string; TypeName : string }.

#[global] Instance GoType_eq_dec : EqDecision GoType.
Proof. solve_decision. Defined.
#[global] Instance GoType_countable : Countable GoType.
Proof.
  refine (inj_countable' (λ t, (PkgPath t, TypeName t))
            (λ '(p, n), {| PkgPath := p; TypeName := n |}) _). by intros [].
Defined.

(** ** runtime/scheme.go *)

Definition APIVersionInternal : string := "__internal".

Record Scheme := {
  gvkToType : gmap GroupVersionKind GoType;
  typeToGVK : gmap GoType (list GroupVersionKind);
  unversionedTypes : gmap GoType GroupVersionKind;
  unversionedKinds : gmap string GoType;
  observedVersions : list schema.GroupVersion;
}.

Definition NewScheme : Scheme :=
  {| gvkToType := ∅; typeToGVK := ∅; unversionedTypes := ∅; unversionedKinds := ∅; observedVersions := [] |}.

Definition addObservedVersion (version : schema.GroupVersion) (s : Scheme) : Scheme :=
  if bool_decide (schema.gv_Version version = "") || bool_decide (schema.gv_Version version = APIVersionInternal)
  then s
  else if bool_decide (version ∈ observedVersions s) then s
  else {| gvkToType := gvkToType s; typeToGVK := typeToGVK s; unversionedTypes := unversionedTypes s;
          unversionedKinds := unversionedKinds s; observedVersions := observedVersions s ++ [version] |}.

(** The kinds of a type; a missing map entry is the nil slice. *)
Definition kinds_of (t : GoType) (s : Scheme) : list GroupVersionKind := default [] (typeToGVK s !! t).

Definition AddKnownTypeWithName (gvk : GroupVersionKind) (t : GoType) (s : Scheme) : option Scheme :=
  let s := addObservedVersion (gvk_GroupVersion gvk) s in
  if bool_decide (gvk_Version gvk = "") then None
  else if match gvkToType s !! gvk with Some oldT => negb (bool_decide (oldT = t)) | None => false end then None
  else
    let s := {| gvkToType := <[gvk := t]> (gvkToType s); typeToGVK := typeToGVK s;
                unversionedTypes := unversionedTypes s; unversionedKinds := unversionedKinds s;
                observedVersions := observedVersions s |} in
    if bool_decide (gvk ∈ kinds_of t s) then Some s
    else Some {| gvkToType := gvkToType s; typeToGVK := <[t := kinds_of t s ++ [gvk]]> (typeToGVK s);
                 unversionedTypes := unversionedTypes s; unversionedKinds := unversionedKinds s;
                 observedVersions := observedVersions s |}.

Fixpoint each {A} (f : A → Scheme → option Scheme) (l : list A) (s : Scheme) : option Scheme :=
  match l with
  | [] => Some s
  | x :: l => s ← f x s; each f l s
  end.

Definition AddKnownTypes (gv : schema.GroupVersion) (types : list GoType) (s : Scheme) : option Scheme :=
  each (λ t, AddKnownTypeWithName (WithKind gv (TypeName t)) t) types (addObservedVersion gv s).

(** The body of the loop of AddUnversionedTypes. *)
Definition addUnversionedType (version : schema.GroupVersion) (t : GoType) (s : Scheme) : option Scheme :=
  let gvk := WithKind version (TypeName t) in
  let s := {| gvkToType := gvkToType s; typeToGVK := typeToGVK s;
              unversionedTypes := <[t := gvk]> (unversionedTypes s);
              unversionedKinds := unversionedKinds s; observedVersions := observedVersions s |} in
  if match unversionedKinds s !! gvk_Kind gvk with Some old => negb (bool_decide (t = old)) | None => false end
  then None
  else Some {| gvkToType := gvkToType s; typeToGVK := typeToGVK s; unversionedTypes := unversionedTypes s;
               unversionedKinds := <[gvk_Kind gvk := t]> (unversionedKinds s);
               observedVersions := observedVersions s |}.

Definition AddUnversionedTypes (version : schema.GroupVersion) (types : list GoType) (s : Scheme) : option Scheme :=
  s ← AddKnownTypes version types (addObservedVersion version s);
  each (addUnversionedType version) types s.

(** The schemeName is left out of the texts. *)
Definition ObjectKinds (t : GoType) (s : Scheme) : res (list GroupVersionKind * bool) :=
  match typeToGVK s !! t with
  | None => Err (Errorf ("no kind is registered for the type " +:+ TypeName t))
  | Some gvks => Ok (gvks, bool_decide (is_Some (unversionedTypes s !! t)))
  end.

Definition not_registered (gvk : GroupVersionKind) : error :=
  Errorf ("no kind " +:+ quote +:+ gvk_Kind gvk +:+ quote +:+ " is registered for version " +:+ quote +:+
            schema.GroupVersion_String (gvk_GroupVersion gvk) +:+ quote).

(** New: the type of the object it makes. *)
Definition New (kind : GroupVersionKind) (s : Scheme) : res GoType :=
  match gvkToType s !! kind with
  | Some t => Ok t
  | None =>
      match unversionedKinds s !! gvk_Kind kind with
      | Some t => Ok t
      | None => Err (not_registered kind)
      end
  end.

(** ** meta/v1/register.go *)

Definition metav1_type (name : string) : GoType :=
  {| PkgPath := "k8s.io/apimachinery/pkg/apis/meta/v1"; TypeName := name |}.

Definition WatchEventKind : string := "WatchEvent".
Definition Unversioned : schema.GroupVersion := {| schema.gv_Group := ""; schema.gv_Version := "v1" |}.
Definition optionsTypes : list GoType :=
  metav1_type <$> ["ListOptions"; "GetOptions"; "DeleteOptions"; "CreateOptions"; "UpdateOptions"; "PatchOptions"].

Definition AddToGroupVersion (groupVersion : schema.GroupVersion) (s : Scheme) : option Scheme :=
  s ← AddKnownTypeWithName (WithKind groupVersion WatchEventKind) (metav1_type "WatchEvent") s;
  s ← AddKnownTypeWithName
        (WithKind {| schema.gv_Group := schema.gv_Group groupVersion; schema.gv_Version := APIVersionInternal |}
                  WatchEventKind) (metav1_type "InternalEvent") s;
  s ← AddKnownTypes groupVersion optionsTypes s;
  AddUnversionedTypes Unversioned
    (metav1_type <$> ["Status"; "APIVersions"; "APIGroupList"; "APIGroup"; "APIResourceList"]) s.

(** ** register.go of the API group *)

Definition v1alpha1_type (name : string) : GoType :=
  {| PkgPath := "sigs.k8s.io/kube-storage-version-migrator/pkg/apis/migration/v1alpha1"; TypeName := name |}.

(** Resource of register.go. *)
Definition register_Resource (resource : string) : GroupResource :=
  let gvr := schema.WithResource SchemeGroupVersion resource in
  {| gr_Group := schema.gvr_Group gvr; gr_Resource := schema.gvr_Resource gvr |}.

Definition known_types : list GoType :=
  v1alpha1_type <$> ["StorageVersionMigration"; "StorageVersionMigrationList"; "StorageState"; "StorageStateList"].

(** An outer None is a panic; the error result is always nil. *)
Definition addKnownTypes (s : Scheme) : option (option error * Scheme) :=
  s ← AddKnownTypes SchemeGroupVersion known_types s;
  s ← AddToGroupVersion SchemeGroupVersion s;
  Some (None, s).

(** runtime.SchemeBuilder *)
Fixpoint SchemeBuilder_AddToScheme (sb : list (Scheme → option (option error * Scheme))) (s : Scheme) :
    option (option error * Scheme) :=
  match sb with
  | [] => Some (None, s)
  | f :: sb =>
      '(err, s) ← f s;
      match err with
      | Some e => Some (Some e, s)
      | None => SchemeBuilder_AddToScheme sb s
      end
  end.

Definition AddToScheme : Scheme → option (option error * Scheme) := SchemeBuilder_AddToScheme [addKnownTypes].

(** ** register.go of the packages fake and scheme: the init functions *)

Definition clientset_AddToScheme : Scheme → option (option error * Scheme) :=
  SchemeBuilder_AddToScheme [AddToScheme].

(** utilruntime.Must panics on an error. *)
Definition register_init : option Scheme :=
  s ← AddToGroupVersion {| schema.gv_Group := ""; schema.gv_Version := "v1" |} NewScheme;
  '(err, s) ← clientset_AddToScheme s;
  match err with Some _ => None | None => Some s end.

Definition fake_scheme : option Scheme := register_init.
Definition clientset_scheme : option Scheme := register_init.

(** ** api/meta/restmapper.go *)

Fixpoint has_suffix (suffix s : string) : bool :=
  bool_decide (s = suffix) || match s with EmptyString => false | String _ s => has_suffix suffix s end.

(** strings.TrimSuffix for a suffix of one byte that is there. *)
Definition drop_last (s : string) : string := String.substring 0 (String.length s - 1) s.

Definition unpluralizedSuffixes : list string := ["endpoints"].

(** The plural and the singular. *)
Definition UnsafeGuessKindToResource (kind : GroupVersionKind) :
    schema.GroupVersionResource * schema.GroupVersionResource :=
  let resource := schema.WithResource (gvk_GroupVersion kind) in
  if bool_decide (gvk_Kind kind = "")
  then let none := {| schema.gvr_Group := ""; schema.gvr_Version := ""; schema.gvr_Resource := "" |} in (none, none)
  else
    let singularName := to_lower (gvk_Kind kind) in
    let singular := resource singularName in
    if existsb (λ skip, has_suffix skip singularName) unpluralizedSuffixes then (singular, singular)
    else if has_suffix "s" singularName then (resource (singularName +:+ "es"), singular)
    else if has_suffix "y" singularName then (resource (drop_last singularName +:+ "ies"), singular)
    else (resource (singularName +:+ "s"), singular).
