(* ===== verification/SchemeProps.v ===== *)
(** * Theorems about schemes *)
From S2P Require Export Scheme.

Import v1alpha1.

(** The two maps of a scheme are inverse to each other. *)
Record inverse (s : Scheme) : Prop := {
  inverse_iff : ∀ gvk t, gvkToType s !! gvk = Some t ↔ gvk ∈ kinds_of t s;
  inverse_NoDup : ∀ t, NoDup (kinds_of t s);
  inverse_version : ∀ gvk t, gvkToType s !! gvk = Some t → gvk_Version gvk ≠ "";
}.

(** What is in the maps does not depend on the other fields. *)
Definition same_maps (s s' : Scheme) : Prop :=
  gvkToType s = gvkToType s' ∧ typeToGVK s = typeToGVK s'.

Lemma inverse_same_maps s s' : same_maps s s' → inverse s → inverse s'.
Proof.
  intros [E1 E2] [H1 H2 H3]. split; unfold kinds_of in *; rewrite <- ?E1, <- ?E2; auto.
Qed.

Lemma addObservedVersion_maps v s : same_maps s (addObservedVersion v s).
Proof. unfold addObservedVersion. repeat case_match; done. Qed.

Lemma NewScheme_inverse : inverse NewScheme.
Proof.
  split; unfold kinds_of; simpl.
  - intros gvk t. rewrite !lookup_empty. simpl. by rewrite elem_of_nil.
  - intros t. rewrite lookup_empty. constructor.
  - intros gvk t. by rewrite lookup_empty.
Qed.

Lemma AddKnownTypeWithName_inverse gvk t s s' :
  inverse s → AddKnownTypeWithName gvk t s = Some s' →
  inverse s' ∧ gvkToType s' !! gvk = Some t ∧
  (∀ gvk' t', gvkToType s !! gvk' = Some t' → gvkToType s' !! gvk' = Some t').
Proof.
  intros HI. pose proof (addObservedVersion_maps (gvk_GroupVersion gvk) s) as Hm.
  unfold AddKnownTypeWithName. set (s0 := addObservedVersion _ s) in *. clearbody s0.
  apply (inverse_same_maps s s0) in HI; [|done]. destruct Hm as [-> _]. destruct HI as [Hiff HN HV]. case_bool_decide as Hv; [done|].
  destruct (match gvkToType s0 !! gvk with Some oldT => negb (bool_decide (oldT = t)) | None => false end) eqn:Hold; [done|].
  assert (∀ t', gvkToType s0 !! gvk = Some t' → t' = t) as Hsame.
  { intros t' E. rewrite E in Hold. by case_bool_decide. }
  assert (∀ gvk' t', <[gvk:=t]> (gvkToType s0) !! gvk' = Some t' → gvk_Version gvk' ≠ "") as HV'.
  { intros gvk' t' [[<- _]|[_ E]]%lookup_insert_Some; [done|by eapply HV]. }
  assert (∀ gvk' t', gvkToType s0 !! gvk' = Some t' → <[gvk:=t]> (gvkToType s0) !! gvk' = Some t') as Hold'.
  { intros gvk' t' E. destruct (decide (gvk = gvk')) as [<-|]; [|by rewrite lookup_insert_ne].
    rewrite lookup_insert_eq. f_equal. symmetry. by apply Hsame. }
  unfold kinds_of at 1. simpl. fold (kinds_of t s0). case_bool_decide as Hin; intros [= <-]; simpl.
  - split_and!; [|by rewrite lookup_insert_eq|done]. split; unfold kinds_of in *; simpl; [|done..].
    intros gvk' t'. rewrite <- Hiff. apply Hiff in Hin. by rewrite insert_id.
  - split_and!; [|by rewrite lookup_insert_eq|done]. split; unfold kinds_of in *; simpl; [| |done].
    + intros gvk' t'. rewrite !lookup_insert. repeat case_decide; subst; simpl.
      * split; [intros _; apply elem_of_app; right; by left|done].
      * split; [by intros [= ->]|]. intros E%Hiff. apply Hsame in E. congruence.
      * rewrite elem_of_app, Hiff, list_elem_of_singleton. naive_solver.
      * apply Hiff.
    + intros t'. rewrite lookup_insert. case_decide; subst; [|done]. simpl. apply NoDup_app.
      split_and!; [apply HN| |by apply NoDup_singleton]. intros x Hx. rewrite list_elem_of_singleton. by intros ->.
Qed.

(** Operations that keep the maps inverse and lose no registration. *)
Definition registers (f : Scheme → option Scheme) : Prop := ∀ s s', inverse s → f s = Some s' →
  inverse s' ∧ ∀ gvk t, gvkToType s !! gvk = Some t → gvkToType s' !! gvk = Some t.

Lemma registers_each {A} (f : A → Scheme → option Scheme) l : (∀ x, registers (f x)) → registers (each f l).
Proof.
  intros Hf. induction l as [|x l IH]; intros s s' HI; simpl; [by intros [= <-]|].
  intros (s1 & E1 & E2)%option.bind_Some. apply Hf in E1 as [HI1 M1]; [|done].
  apply IH in E2 as [HI2 M2]; [|done]. split; auto.
Qed.

Lemma registers_bind (f g : Scheme → option Scheme) : registers f → registers g → registers (λ s, f s ≫= g).
Proof.
  intros Hf Hg s s' HI (s1 & E1 & E2)%option.bind_Some. apply Hf in E1 as [HI1 M1]; [|done].
  apply Hg in E2 as [HI2 M2]; [|done]. split; auto.
Qed.

Lemma registers_AddKnownTypeWithName gvk t : registers (AddKnownTypeWithName gvk t).
Proof. intros s s' HI E. by apply AddKnownTypeWithName_inverse in E as (? & _ & ?). Qed.

Lemma registers_observed v f : registers f → registers (λ s, f (addObservedVersion v s)).
Proof.
  intros Hf s s' HI E. pose proof (addObservedVersion_maps v s) as Hm.
  apply Hf in E; [|by eapply inverse_same_maps]. destruct Hm as [-> _]. done.
Qed.

Lemma registers_AddKnownTypes gv types : registers (AddKnownTypes gv types).
Proof. apply registers_observed, registers_each. intros t. apply registers_AddKnownTypeWithName. Qed.

Lemma registers_addUnversionedType v t : registers (addUnversionedType v t).
Proof.
  intros s s' HI. unfold addUnversionedType. repeat case_match; try done;
    intros [= <-]; (split; [|done]); (eapply inverse_same_maps; [|done]); done.
Qed.

Lemma registers_AddUnversionedTypes v types : registers (AddUnversionedTypes v types).
Proof.
  intros s s'. revert s s'. apply (registers_bind (λ s, AddKnownTypes v types (addObservedVersion v s))).
  - apply registers_observed, registers_AddKnownTypes.
  - apply registers_each. intros t. apply registers_addUnversionedType.
Qed.

Lemma registers_AddToGroupVersion gv : registers (AddToGroupVersion gv).
Proof.
  repeat (apply registers_bind; [first [apply registers_AddKnownTypeWithName|apply registers_AddKnownTypes]|]).
  apply registers_AddUnversionedTypes.
Qed.

(** The scheme of the clientset packages, sealed: no proof computes it again. *)
Lemma register_init_returns : { s | register_init = Some s }.
Proof.
  assert (match register_init with Some _ => true | None => false end = true) as E by (vm_compute; reflexivity).
  destruct register_init as [s|]; [by exists s|done].
Qed.

Definition the_scheme : Scheme := `register_init_returns.

Lemma register_init_Some : register_init = Some the_scheme.
Proof. exact (proj2_sig register_init_returns). Qed.

Definition knows (s : Scheme) (t : GoType) : bool :=
  let gvk := WithKind SchemeGroupVersion (TypeName t) in
  match New gvk s with Ok t' => bool_decide (t' = t) | Err _ => false end &&
  match ObjectKinds t s with Ok r => bool_decide (r = ([gvk], false)) | Err _ => false end.

Lemma the_scheme_knows t :
  t ∈ known_types →
  New (WithKind SchemeGroupVersion (TypeName t)) the_scheme = Ok t ∧
  ObjectKinds t the_scheme = Ok ([WithKind SchemeGroupVersion (TypeName t)], false).
Proof.
  assert (match register_init with Some s => forallb (knows s) known_types | None => false end = true) as E
    by (vm_compute; reflexivity).
  rewrite register_init_Some in E. apply Is_true_true, forallb_True in E. rewrite Forall_forall in E. intros Ht. specialize (E t Ht).
  unfold knows in E. apply andb_prop_elim in E as [E1 E2].
  destruct (New _ _) as [t'|]; [|done]. destruct (ObjectKinds _ _) as [r|]; [|done].
  apply bool_decide_unpack in E1 as ->, E2 as ->. done.
Qed.

Lemma the_scheme_inverse : inverse the_scheme.
Proof.
  assert (∀ s s', inverse s → clientset_AddToScheme s = Some (None, s') → inverse s') as Hadd.
  { intros s s' HI. unfold clientset_AddToScheme, AddToScheme, SchemeBuilder_AddToScheme, addKnownTypes.
    destruct (AddKnownTypes _ _ s) as [s1|] eqn:E1; [|done]. simpl.
    destruct (AddToGroupVersion _ s1) as [s2|] eqn:E2; [|done]. simpl. intros [= <-].
    apply registers_AddKnownTypes in E1 as [HI1 _]; [|done]. by apply registers_AddToGroupVersion in E2 as [HI2 _]. }
  generalize register_init_Some. generalize the_scheme. intros sch E. unfold register_init in E.
  apply option.bind_Some in E as (s1 & E1 & ([err s2] & E2 & E3)%option.bind_Some).
  destruct err; [done|]. injection E3 as ->.
  apply registers_AddToGroupVersion in E1 as [HI1 _]; [|apply NewScheme_inverse]. by apply (Hadd s1).
Qed.

(** The init functions of the packages fake and scheme succeed, and the
    scheme they build is a two-way dictionary: a kind is looked up to a type
    exactly when the type lists that kind, no type lists a kind twice and every
    kind has a version.  The four types of the API group are registered under
    their own names in migration.k8s.io/v1alpha1 and nowhere else, so that the
    kind of an object determines its type and back; and the resource guessed
    from a kind is the one the typed clients send requests to. *)
Theorem scheme_two_way :
  ∃ s, fake_scheme = Some s ∧ clientset_scheme = Some s ∧ inverse s ∧
    (∀ t, t ∈ known_types →
       ObjectKinds t s = Ok ([WithKind SchemeGroupVersion (TypeName t)], false) ∧
       New (WithKind SchemeGroupVersion (TypeName t)) s = Ok t) ∧
    (∀ gvk t, gvkToType s !! gvk = Some t → New gvk s = Ok t ∧
       ∃ gvks u, ObjectKinds t s = Ok (gvks, u) ∧ gvk ∈ gvks) ∧
    (UnsafeGuessKindToResource (WithKind SchemeGroupVersion "StorageVersionMigration")).1
      = schema.WithResource SchemeGroupVersion "storageversionmigrations" ∧
    (UnsafeGuessKindToResource (WithKind SchemeGroupVersion "StorageState")).1
      = schema.WithResource SchemeGroupVersion "storagestates".
Proof.
  exists the_scheme. unfold fake_scheme, clientset_scheme.
  split_and!; [apply register_init_Some|apply register_init_Some|apply the_scheme_inverse| | |vm_compute; reflexivity|vm_compute; reflexivity].
  - intros t Ht. by destruct (the_scheme_knows t Ht).
  - intros gvk t E. unfold New. rewrite E. split; [done|].
    apply (inverse_iff _ the_scheme_inverse) in E. unfold kinds_of, ObjectKinds in *.
    destruct (typeToGVK the_scheme !! t) as [gvks|]; [eauto|by apply elem_of_nil in E].
Qed.
