(* ===== verification/Tracker.v ===== *)
(** * The object tracker behind the fake clientset: client-go/testing

    tracker of fixture.go with the watchers of apimachinery/pkg/watch it
    broadcasts to, the actions of actions.go and ObjectReaction.  Values are
    immutable here, so the deep copies of the code are the values themselves
    (DeepCopyProps shows that the copies the API types generate are deep).
    [None] is a panic. *)
From S2P Require Export Scheme Factory.

Import v1alpha1.

#[global] Instance GroupVersionResource_countable : Countable schema.GroupVersionResource.
Proof.
  refine (inj_countable' (λ r, (schema.gvr_Group r, schema.gvr_Version r, schema.gvr_Resource r))
            (λ '(g, v, r), {| schema.gvr_Group := g; schema.gvr_Version := v; schema.gvr_Resource := r |}) _).
  by intros [].
Defined.

(** ** pkg/watch *)

Module watch.
(** EventType is a string type. *)
Definition Added : string := "ADDED".
Definition Modified : string := "MODIFIED".
Definition Deleted : string := "DELETED".

Record Event := { Event_Type : string; Event_Object : Object }.

Definition DefaultChanSize : nat := 100.

(** RaceFreeFakeWatcher: the buffered events of its channel. *)
Record Watcher := { result : list Event; Stopped : bool }.

Definition NewRaceFreeFake : Watcher := {| result := []; Stopped := false |}.

(** Stop closes the channel; what is buffered can still be received. *)
Definition Stop (f : Watcher) : Watcher := {| result := result f; Stopped := true |}.

(** Action, and Add, Modify and Delete, which differ in the type. *)
Definition send (type : string) (obj : Object) (f : Watcher) : option Watcher :=
  if Stopped f then Some f
  else if bool_decide (length (result f) < DefaultChanSize)%nat
  then Some {| result := result f ++ [{| Event_Type := type; Event_Object := obj |}]; Stopped := false |}
  else None.
Definition Add := send Added.
Definition Modify := send Modified.
Definition Delete := send Deleted.
End watch.

(** ** api/meta: accessors and lists *)

(** meta.Accessor *)
Definition Accessor (obj : Object) : res metav1.ObjectMeta :=
  match obj with
  | OMigration m => Ok (svm_Meta m)
  | OState s => Ok (ss_Meta s)
  | _ => Err (Errorf "object does not implement the Object interfaces")
  end.

Definition with_Namespace (ns : string) (m : metav1.ObjectMeta) : metav1.ObjectMeta :=
  {| metav1.Name := metav1.Name m; metav1.GenerateName := metav1.GenerateName m; metav1.Namespace := ns;
     metav1.ResourceVersion := metav1.ResourceVersion m; metav1.UID := metav1.UID m;
     metav1.Labels := metav1.Labels m |}.

(** newMeta.SetNamespace(ns) *)
Definition SetNamespace (ns : string) (obj : Object) : Object :=
  match obj with
  | OMigration m => OMigration {| svm_Meta := with_Namespace ns (svm_Meta m); svm_Spec := svm_Spec m;
                                  svm_Status := svm_Status m |}
  | OState s => OState {| ss_Meta := with_Namespace ns (ss_Meta s); ss_Spec := ss_Spec s;
                          ss_Status := ss_Status s |}
  | _ => obj
  end.

(** reflect.TypeOf, of the pointer's element. *)
Definition object_TypeOf (obj : Object) : GoType :=
  match obj with
  | OMigration _ => v1alpha1_type "StorageVersionMigration"
  | OMigrationList _ => v1alpha1_type "StorageVersionMigrationList"
  | OState _ => v1alpha1_type "StorageState"
  | OStateList _ => v1alpha1_type "StorageStateList"
  | ODeleteOptions _ => metav1_type "DeleteOptions"
  | OStatus _ _ => metav1_type "Status"
  | OBytes _ => {| PkgPath := ""; TypeName := "[]uint8" |}
  end.

(** meta.ExtractList: the items of a list type. *)
Definition ExtractList (obj : Object) : option (list Object) :=
  match obj with
  | OMigrationList l => Some (OMigration <$> l)
  | OStateList l => Some (OState <$> l)
  | _ => None
  end.

(** A new list of the type, with meta.SetList: of the registered types the two
    lists of the API group are those that have Items. *)
Definition NewList (t : GoType) (objects : list Object) : res Object :=
  if bool_decide (t = v1alpha1_type "StorageVersionMigrationList") then
    match mapM (λ o, match o with OMigration m => Some m | _ => None end) objects with
    | Some l => Ok (OMigrationList l)
    | None => Err (Errorf "can't assign or convert into v1alpha1.StorageVersionMigration")
    end
  else if bool_decide (t = v1alpha1_type "StorageStateList") then
    match mapM (λ o, match o with OState s => Some s | _ => None end) objects with
    | Some l => Ok (OStateList l)
    | None => Err (Errorf "can't assign or convert into v1alpha1.StorageState")
    end
  else Err (Errorf (quote +:+ TypeName t +:+ quote +:+ " is not a list type")).

(** ** fixture.go: tracker *)

Definition NamespacedName : Type := string * string.

(** A watcher is known by a number; [channels] is the heap of watchers. *)
Record tracker := {
  tr_scheme : Scheme;
  objects : gmap schema.GroupVersionResource (gmap NamespacedName Object);
  watchers : gmap schema.GroupVersionResource (gmap string (list nat));
  channels : list watch.Watcher;
}.

Definition NewObjectTracker (scheme : Scheme) : tracker :=
  {| tr_scheme := scheme; objects := ∅; watchers := ∅; channels := [] |}.

Definition with_objects (gvr : schema.GroupVersionResource) (objs : gmap NamespacedName Object) (t : tracker) :
    tracker :=
  {| tr_scheme := tr_scheme t; objects := <[gvr := objs]> (objects t); watchers := watchers t;
     channels := channels t |}.

Definition with_channels (chs : list watch.Watcher) (t : tracker) : tracker :=
  {| tr_scheme := tr_scheme t; objects := objects t; watchers := watchers t; channels := chs |}.

Definition errNotFound (gvr : schema.GroupVersionResource) (name : string) : error :=
  NewNotFound (schema.gvr_Group gvr) (schema.gvr_Resource gvr) name.

Definition NewAlreadyExists (group resource name : string) : error :=
  EStatus {| Status_Message := (if bool_decide (group = "") then resource
                                else resource +:+ "." +:+ group) +:+ " " +:+ quote +:+ name +:+ quote
                               +:+ " already exists";
             Status_Reason := StatusReasonAlreadyExists;
             Status_Details := Some {| Details_Name := name; Details_Kind := resource; Details_Causes := [];
                                       RetryAfterSeconds := 0 |};
             Status_Code := 409; Status_Continue := "" |}.

Definition NewBadRequest (reason : string) : error :=
  EStatus {| Status_Message := reason; Status_Reason := "BadRequest"; Status_Details := None;
             Status_Code := 400; Status_Continue := "" |}.

(** The comparison of filterByNamespace. *)
Definition by_namespace_name (o1 o2 : Object) : bool :=
  match Accessor o1, Accessor o2 with
  | Ok acc1, Ok acc2 =>
      if bool_decide (metav1.Namespace acc1 = metav1.Namespace acc2)
      then string_le (metav1.Name acc1) (metav1.Name acc2)
      else string_le (metav1.Namespace acc1) (metav1.Namespace acc2)
  | Ok _, Err _ => false
  | Err _, _ => true
  end.

Fixpoint in_namespace (ns : string) (objs : list Object) : res (list Object) :=
  match objs with
  | [] => Ok []
  | obj :: objs =>
      match Accessor obj with
      | Err e => Err e
      | Ok acc =>
          match in_namespace ns objs with
          | Err e => Err e
          | Ok l => Ok (if negb (bool_decide (ns = "")) && negb (bool_decide (metav1.Namespace acc = ns))
                        then l else obj :: l)
          end
      end
  end.

(** The order in which the map is visited is forgotten by the sort. *)
Definition filterByNamespace (objs : gmap NamespacedName Object) (ns : string) : res (list Object) :=
  match in_namespace ns (map_to_list objs).*2 with
  | Err e => Err e
  | Ok l => Ok (sort_by by_namespace_name l)
  end.

Definition tracker_List (gvr : schema.GroupVersionResource) (gvk : GroupVersionKind) (ns : string)
    (t : tracker) : res Object :=
  let listGVK := {| gvk_Group := gvk_Group gvk;
                    gvk_Version := if bool_decide (gvk_Version gvk = "") then APIVersionInternal
                                   else gvk_Version gvk;
                    gvk_Kind := gvk_Kind gvk +:+ "List" |} in
  match New listGVK (tr_scheme t) with
  | Err e => Err e
  | Ok listType =>
      match NewList listType [] with
      | Err e => Err e
      | Ok list =>
          match objects t !! gvr with
          | None => Ok list
          | Some objs =>
              match filterByNamespace objs ns with
              | Err e => Err e
              | Ok matchingObjs => NewList listType matchingObjs
              end
          end
      end
  end.

Definition tracker_Watch (gvr : schema.GroupVersionResource) (ns : string) (t : tracker) : nat * tracker :=
  let fakewatcher := length (channels t) in
  let of_gvr := default ∅ (watchers t !! gvr) in
  (fakewatcher,
   {| tr_scheme := tr_scheme t; objects := objects t;
      watchers := <[gvr := <[ns := default [] (of_gvr !! ns) ++ [fakewatcher]]> of_gvr]> (watchers t);
      channels := channels t ++ [watch.NewRaceFreeFake] |}).

Definition tracker_Get (gvr : schema.GroupVersionResource) (ns name : string) (t : tracker) : res Object :=
  match objects t !! gvr with
  | None => Err (errNotFound gvr name)
  | Some objs =>
      match objs !! (ns, name) with
      | None => Err (errNotFound gvr name)
      | Some (OStatus false status) => Err (EStatus status)
      | Some obj => Ok obj
      end
  end.

Definition getWatches (gvr : schema.GroupVersionResource) (ns : string) (t : tracker) : list nat :=
  match watchers t !! gvr with
  | None => []
  | Some ws => default [] (ws !! ns) ++ (if bool_decide (ns = "") then [] else default [] (ws !! ""))
  end.

(** The loop over the watchers that sends each an event. *)
Fixpoint broadcast (type : string) (obj : Object) (ws : list nat) (chs : list watch.Watcher) :
    option (list watch.Watcher) :=
  match ws with
  | [] => Some chs
  | w :: ws =>
      match chs !! w with
      | None => broadcast type obj ws chs
      | Some ch =>
          ch ← watch.send type obj ch;
          broadcast type obj ws (<[w := ch]> chs)
      end
  end.

Definition tracker_add (gvr : schema.GroupVersionResource) (obj : Object) (ns : string) (replaceExisting : bool)
    (t : tracker) : option (option error * tracker) :=
  match Accessor obj with
  | Err e => Some (Some e, t)
  | Ok newMeta =>
      let obj := if bool_decide (metav1.Namespace newMeta = "") then SetNamespace ns obj else obj in
      let namespace := if bool_decide (metav1.Namespace newMeta = "") then ns else metav1.Namespace newMeta in
      if negb (bool_decide (ns = namespace))
      then Some (Some (NewBadRequest ("request namespace does not match object namespace, request: "
             +:+ quote +:+ ns +:+ quote +:+ " object: " +:+ quote +:+ namespace +:+ quote)), t)
      else
        let objs := default ∅ (objects t !! gvr) in
        let t := with_objects gvr objs t in
        let namespacedName := (namespace, metav1.Name newMeta) in
        match objs !! namespacedName with
        | Some _ =>
            if replaceExisting then
              chs ← broadcast watch.Modified obj (getWatches gvr ns t) (channels t);
              Some (None, with_objects gvr (<[namespacedName := obj]> objs) (with_channels chs t))
            else Some (Some (NewAlreadyExists (schema.gvr_Group gvr) (schema.gvr_Resource gvr)
                               (metav1.Name newMeta)), t)
        | None =>
            if replaceExisting then Some (Some (errNotFound gvr (metav1.Name newMeta)), t)
            else
              let t := with_objects gvr (<[namespacedName := obj]> objs) t in
              chs ← broadcast watch.Added obj (getWatches gvr ns t) (channels t);
              Some (None, with_channels chs t)
        end
  end.

Definition tracker_Create (gvr : schema.GroupVersionResource) (obj : Object) (ns : string) :=
  tracker_add gvr obj ns false.
Definition tracker_Update (gvr : schema.GroupVersionResource) (obj : Object) (ns : string) :=
  tracker_add gvr obj ns true.

Definition tracker_Delete (gvr : schema.GroupVersionResource) (ns name : string) (t : tracker) :
    option (option error * tracker) :=
  match objects t !! gvr with
  | None => Some (Some (errNotFound gvr name), t)
  | Some objs =>
      match objs !! (ns, name) with
      | None => Some (Some (errNotFound gvr name), t)
      | Some obj =>
          let t := with_objects gvr (delete (ns, name) objs) t in
          chs ← broadcast watch.Deleted obj (getWatches gvr ns t) (channels t);
          Some (None, with_channels chs t)
      end
  end.

(** The loop of Add over the kinds of the object. *)
Fixpoint add_kinds (gvks : list GroupVersionKind) (obj : Object) (ns : string) (t : tracker) :
    option (option error * tracker) :=
  match gvks with
  | [] => Some (None, t)
  | gvk :: gvks =>
      let gvr := (UnsafeGuessKindToResource gvk).1 in
      let gvr := if bool_decide (schema.gvr_Version gvr = APIVersionInternal)
                 then {| schema.gvr_Group := schema.gvr_Group gvr; schema.gvr_Version := "";
                         schema.gvr_Resource := schema.gvr_Resource gvr |} else gvr in
      '(err, t) ← tracker_add gvr obj ns false t;
      match err with
      | Some e => Some (Some e, t)
      | None => add_kinds gvks obj ns t
      end
  end.

(** Add of an object that is not a list. *)
Definition add_object (obj : Object) (t : tracker) : option (option error * tracker) :=
  match Accessor obj with
  | Err e => Some (Some e, t)
  | Ok objMeta =>
      match ObjectKinds (object_TypeOf obj) (tr_scheme t) with
      | Err e => Some (Some e, t)
      | Ok ([], _) => Some (Some (Errorf "no registered kinds"), t)
      | Ok (gvks, _) => add_kinds gvks obj (metav1.Namespace objMeta) t
      end
  end.

Fixpoint add_items (items : list Object) (t : tracker) : option (option error * tracker) :=
  match items with
  | [] => Some (None, t)
  | obj :: items =>
      '(err, t) ← add_object obj t;
      match err with
      | Some e => Some (Some e, t)
      | None => add_items items t
      end
  end.

(** Add; the items of a list are objects already, so that decoding them
    changes nothing, and none of them is a list. *)
Definition tracker_Add (obj : Object) (t : tracker) : option (option error * tracker) :=
  match ExtractList obj with
  | Some items => add_items items t
  | None => add_object obj t
  end.

(** ** actions.go *)

Record ActionImpl := {
  act_Namespace : string;
  act_Verb : string;
  act_Resource : schema.GroupVersionResource;
  act_Subresource : string;
}.

Record ListRestrictions := { restr_Labels : Selector; restr_Fields : Selector }.

Inductive Action :=
  | GetActionImpl (a : ActionImpl) (name : string)
  | ListActionImpl (a : ActionImpl) (kind : GroupVersionKind) (restrictions : ListRestrictions)
  | CreateActionImpl (a : ActionImpl) (name : string) (object : Object)
  | UpdateActionImpl (a : ActionImpl) (object : Object)
  | PatchActionImpl (a : ActionImpl) (name patchType patch : string)
  | DeleteActionImpl (a : ActionImpl) (name uid : string)
  | DeleteCollectionActionImpl (a : ActionImpl) (restrictions : ListRestrictions)
  | WatchActionImpl (a : ActionImpl) (restrictions : ListRestrictions) (resourceVersion : string).

Definition action_impl (a : Action) : ActionImpl :=
  match a with
  | GetActionImpl a _ | ListActionImpl a _ _ | CreateActionImpl a _ _ | UpdateActionImpl a _
  | PatchActionImpl a _ _ _ | DeleteActionImpl a _ _ | DeleteCollectionActionImpl a _
  | WatchActionImpl a _ _ => a
  end.

Definition GetNamespace (a : Action) : string := act_Namespace (action_impl a).
Definition GetVerb (a : Action) : string := act_Verb (action_impl a).
Definition GetResource (a : Action) : schema.GroupVersionResource := act_Resource (action_impl a).
Definition GetSubresource (a : Action) : string := act_Subresource (action_impl a).

(** ** ObjectReaction *)

(** The patch libraries and package json: what a patch makes of an object. *)
Class Patcher := {
  json_patch : Object → string → res Object;              (* jsonpatch.DecodePatch and Apply *)
  merge_patch : Object → string → res Object;             (* jsonpatch.MergePatch *)
  strategic_merge_patch : Object → string → res Object;   (* strategicpatch.StrategicMergePatch *)
}.

(** (handled, ret, err); a nil object is None. *)
Definition reaction_result : Type := bool * option Object * option error.

Definition of_res (r : res Object) : reaction_result :=
  match r with Ok obj => (true, Some obj, None) | Err e => (true, None, Some e) end.

Section reaction.
Context `{Patcher}.

Definition apply_patch (patchType patch : string) (obj : Object) : res Object :=
  if bool_decide (patchType = "application/json-patch+json") then json_patch obj patch
  else if bool_decide (patchType = "application/merge-patch+json") then merge_patch obj patch
  else if bool_decide (patchType = "application/strategic-merge-patch+json")
          || bool_decide (patchType = "application/apply-patch+yaml") then strategic_merge_patch obj patch
  else Err (Errorf "PatchType is not supported").

(** What follows a write that returned [err]: the object is read back. *)
Definition written (gvr : schema.GroupVersionResource) (ns name : string) (r : option error * tracker) :
    reaction_result * tracker :=
  match r with
  | (Some e, t) => ((true, None, Some e), t)
  | (None, t) => (of_res (tracker_Get gvr ns name t), t)
  end.

Definition ObjectReaction (action : Action) (t : tracker) : option (reaction_result * tracker) :=
  let ns := GetNamespace action in
  let gvr := GetResource action in
  match action with
  | ListActionImpl _ kind _ => Some (of_res (tracker_List gvr kind ns t), t)
  | GetActionImpl _ name => Some (of_res (tracker_Get gvr ns name t), t)
  | CreateActionImpl _ _ object =>
      match Accessor object with
      | Err e => Some ((true, None, Some e), t)
      | Ok objMeta =>
          if bool_decide (GetSubresource action = "")
          then written gvr ns (metav1.Name objMeta) <$> tracker_Create gvr object ns t
          else match tracker_Get gvr ns (metav1.Name objMeta) t with
               | Err e => Some ((true, None, Some e), t)
               | Ok oldObj =>
                   if bool_decide (object_TypeOf oldObj = object_TypeOf object)
                   then written gvr ns (metav1.Name objMeta) <$> tracker_Update gvr object ns t
                   else Some ((true, Some object, None), t)
               end
      end
  | UpdateActionImpl _ object =>
      match Accessor object with
      | Err e => Some ((true, None, Some e), t)
      | Ok objMeta => written gvr ns (metav1.Name objMeta) <$> tracker_Update gvr object ns t
      end
  | DeleteActionImpl _ name _ =>
      '(err, t) ← tracker_Delete gvr ns name t;
      Some ((true, None, err), t)
  | PatchActionImpl _ name patchType patch =>
      match tracker_Get gvr ns name t with
      | Err e => Some ((true, None, Some e), t)
      | Ok obj =>
          match apply_patch patchType patch obj with
          | Err e => Some ((true, None, Some e), t)
          | Ok obj =>
              '(err, t) ← tracker_Update gvr obj ns t;
              Some (match err with Some e => (true, None, Some e) | None => (true, Some obj, None) end, t)
          end
      end
  | DeleteCollectionActionImpl _ _ | WatchActionImpl _ _ _ =>
      Some ((false, None, Some (Errorf "no reaction implemented")), t)
  end.
End reaction.
