(* ===== verification/Fake.v ===== *)
(** * The fake clientset: src/pkg/clients/clientset/fake

    Fake of client-go/testing with its chains of reactors, NewSimpleClientset
    (clientset_generated.go), and the fake clients of the two kinds
    (fake_storageversionmigration.go, fake_storagestate.go), one template as
    in Clientset.  A reactor is a function on the tracker, which covers those
    NewSimpleClientset installs and those tests prepend.  [None] is a panic. *)
From S2P Require Export Tracker.

Import v1alpha1.

(** ** client-go/testing/fake.go *)

Definition ReactionFunc : Type := Action → tracker → option (reaction_result * tracker).

(** (handled, ret, err); a watch.Interface is the number of a watcher. *)
Definition WatchReactionFunc : Type := Action → tracker → (bool * option nat * option error) * tracker.

Record SimpleReactor := { Reactor_Verb : string; Reactor_Resource : string; Reaction : ReactionFunc }.
Record SimpleWatchReactor := { WatchReactor_Resource : string; WatchReaction : WatchReactionFunc }.

(** The Fake of a Clientset, with the tracker its reactors share. *)
Record Fake := {
  actions : list Action;
  ReactionChain : list SimpleReactor;
  WatchReactionChain : list SimpleWatchReactor;
  fake_tracker : tracker;
}.

(** A resource of the form resource/subresource matches both parts. *)
Definition resourceCovers (resource : string) (action : Action) : bool :=
  if bool_decide (resource = "*") then true
  else if bool_decide (resource = schema.gvr_Resource (GetResource action)) then true
  else match cut_char schema.slash resource with
       | Some (r, sub) => bool_decide (r = schema.gvr_Resource (GetResource action))
                          && bool_decide (sub = GetSubresource action)
       | None => false
       end.

Definition Handles (r : SimpleReactor) (action : Action) : bool :=
  (bool_decide (Reactor_Verb r = "*") || bool_decide (Reactor_Verb r = GetVerb action))
  && resourceCovers (Reactor_Resource r) action.

Definition watch_Handles (r : SimpleWatchReactor) (action : Action) : bool :=
  resourceCovers (WatchReactor_Resource r) action.

Definition with_chains (rs : list SimpleReactor) (ws : list SimpleWatchReactor) (c : Fake) : Fake :=
  {| actions := actions c; ReactionChain := rs; WatchReactionChain := ws; fake_tracker := fake_tracker c |}.

Definition AddReactor (verb resource : string) (reaction : ReactionFunc) (c : Fake) : Fake :=
  with_chains (ReactionChain c ++
    [{| Reactor_Verb := verb; Reactor_Resource := resource; Reaction := reaction |}]) (WatchReactionChain c) c.

Definition PrependReactor (verb resource : string) (reaction : ReactionFunc) (c : Fake) : Fake :=
  with_chains ({| Reactor_Verb := verb; Reactor_Resource := resource; Reaction := reaction |} ::
    ReactionChain c) (WatchReactionChain c) c.

Definition AddWatchReactor (resource : string) (reaction : WatchReactionFunc) (c : Fake) : Fake :=
  with_chains (ReactionChain c) (WatchReactionChain c ++
    [{| WatchReactor_Resource := resource; WatchReaction := reaction |}]) c.

Definition PrependWatchReactor (resource : string) (reaction : WatchReactionFunc) (c : Fake) : Fake :=
  with_chains (ReactionChain c) ({| WatchReactor_Resource := resource; WatchReaction := reaction |} ::
    WatchReactionChain c) c.

(** Record the action, go on with the tracker [t]. *)
Definition recorded (action : Action) (t : tracker) (c : Fake) : Fake :=
  {| actions := actions c ++ [action]; ReactionChain := ReactionChain c;
     WatchReactionChain := WatchReactionChain c; fake_tracker := t |}.

(** The loop over the chain; a reactor that does not handle the action may
    still have changed the tracker. *)
Fixpoint react (chain : list SimpleReactor) (action : Action) (default : option Object) (t : tracker) :
    option (option Object * option error * tracker) :=
  match chain with
  | [] => Some (default, None, t)
  | reactor :: chain =>
      if negb (Handles reactor action) then react chain action default t
      else
        '((handled, ret, err), t) ← Reaction reactor action t;
        if negb handled then react chain action default t else Some (ret, err, t)
  end.

Definition Invokes (action : Action) (defaultReturnObj : Object) (c : Fake) :
    option (option Object * option error * Fake) :=
  '(ret, err, t) ← react (ReactionChain c) action (Some defaultReturnObj) (fake_tracker c);
  Some (ret, err, recorded action t c).

Fixpoint watch_react (chain : list SimpleWatchReactor) (action : Action) (t : tracker) :
    option nat * option error * tracker :=
  match chain with
  | [] => (None, Some (Errorf "unhandled watch"), t)
  | reactor :: chain =>
      if negb (watch_Handles reactor action) then watch_react chain action t
      else
        let '((handled, ret, err), t) := WatchReaction reactor action t in
        if negb handled then watch_react chain action t else (ret, err, t)
  end.

Definition InvokesWatch (action : Action) (c : Fake) : option nat * option error * Fake :=
  let '(ret, err, t) := watch_react (WatchReactionChain c) action (fake_tracker c) in
  (ret, err, recorded action t c).

Definition ClearActions (c : Fake) : Fake :=
  {| actions := []; ReactionChain := ReactionChain c; WatchReactionChain := WatchReactionChain c;
     fake_tracker := fake_tracker c |}.

Definition Actions (c : Fake) : list Action := actions c.

(** ** actions.go: the actions of the fake clients *)

Definition root_action (verb : string) (resource : schema.GroupVersionResource) (subresource : string) : ActionImpl :=
  {| act_Namespace := ""; act_Verb := verb; act_Resource := resource; act_Subresource := subresource |}.

(** The fields of metav1.ListOptions the fakes read. *)
Record FakeListOptions := { LabelSelector : string; FieldSelector : string; opts_ResourceVersion : string }.

(** labels.Parse and fields.ParseSelector. *)
Class SelectorParser := {
  labels_Parse : string → res Selector;
  fields_ParseSelector : string → res Selector;
}.

Section fake.
Context `{SelectorParser} `{Patcher}.

(** An invalid selector is a panic; a parser returns no nil selector. *)
Definition ExtractFromListOptions (opts : FakeListOptions) : option (Selector * Selector * string) :=
  match labels_Parse (LabelSelector opts) with
  | Err _ => None
  | Ok labelSelector =>
      match fields_ParseSelector (FieldSelector opts) with
      | Err _ => None
      | Ok fieldSelector => Some (labelSelector, fieldSelector, opts_ResourceVersion opts)
      end
  end.

Definition restrictions (opts : FakeListOptions) : option (ListRestrictions * string) :=
  '(ls, fs, rv) ← ExtractFromListOptions opts; Some ({| restr_Labels := ls; restr_Fields := fs |}, rv).

Definition NewRootGetAction (resource : schema.GroupVersionResource) (name : string) : Action :=
  GetActionImpl (root_action "get" resource "") name.

Definition NewRootListAction (resource : schema.GroupVersionResource) (kind : GroupVersionKind)
    (opts : FakeListOptions) : option Action :=
  '(r, _) ← restrictions opts; Some (ListActionImpl (root_action "list" resource "") kind r).

Definition NewRootCreateAction (resource : schema.GroupVersionResource) (object : Object) : Action :=
  CreateActionImpl (root_action "create" resource "") "" object.

Definition NewRootUpdateAction (resource : schema.GroupVersionResource) (object : Object) : Action :=
  UpdateActionImpl (root_action "update" resource "") object.

Definition NewRootUpdateSubresourceAction (resource : schema.GroupVersionResource) (subresource : string)
    (object : Object) : Action :=
  UpdateActionImpl (root_action "update" resource subresource) object.

Definition NewRootDeleteActionWithOptions (resource : schema.GroupVersionResource) (name uid : string) : Action :=
  DeleteActionImpl (root_action "delete" resource "") name uid.

Definition NewRootDeleteCollectionAction (resource : schema.GroupVersionResource) (opts : FakeListOptions) :
    option Action :=
  '(r, _) ← restrictions opts; Some (DeleteCollectionActionImpl (root_action "delete-collection" resource "") r).

Definition NewRootPatchSubresourceAction (resource : schema.GroupVersionResource) (name pt data : string)
    (subresources : list string) : Action :=
  PatchActionImpl (root_action "patch" resource (Path.Join subresources)) name pt data.

Definition NewRootWatchAction (resource : schema.GroupVersionResource) (opts : FakeListOptions) : option Action :=
  '(r, rv) ← restrictions opts; Some (WatchActionImpl (root_action "watch" resource "") r rv).

(** ** clientset_generated.go *)

(** The watch reactor of NewSimpleClientset. *)
Definition watch_reaction : WatchReactionFunc := λ action t,
  let gvr := GetResource action in
  let ns := GetNamespace action in
  let '(watch, t) := tracker_Watch gvr ns t in
  ((true, Some watch, None), t).

Fixpoint add_all (objects : list Object) (o : tracker) : option tracker :=
  match objects with
  | [] => Some o
  | obj :: objects =>
      '(err, o) ← tracker_Add obj o;
      match err with
      | Some _ => None
      | None => add_all objects o
      end
  end.

Definition NewSimpleClientset (objects : list Object) : option Fake :=
  scheme ← fake_scheme;
  o ← add_all objects (NewObjectTracker scheme);
  let cs := {| actions := []; ReactionChain := []; WatchReactionChain := []; fake_tracker := o |} in
  let cs := AddReactor "*" "*" ObjectReaction cs in
  Some (AddWatchReactor "*" watch_reaction cs).

Definition clientset_Tracker (c : Fake) : tracker := fake_tracker c.

(** ** fake_storageversionmigration.go and fake_storagestate.go *)

(** What differs beside what [kind] holds: the kind's name and the metadata. *)
Record fake_kind (T : Type) := {
  fk_client : kind T (list T);
  fk_Kind : string;
  fk_Meta : T → metav1.ObjectMeta;
  fk_list : list T → Object;
}.
Arguments fk_client {T}.
Arguments fk_Kind {T}.
Arguments fk_Meta {T}.
Arguments fk_list {T}.

Section client.
Context {T : Type} (K : fake_kind T).

Definition fake_resource : schema.GroupVersionResource :=
  schema.WithResource SchemeGroupVersion (k_resource (fk_client K)).
Definition fake_gvk : GroupVersionKind := WithKind SchemeGroupVersion (fk_Kind K).

(** A nil object or the assertion to the type, with the error beside it. *)
Definition as_kind {X} (conv : Object → option X) (r : option Object * option error * Fake) :
    option (option X * option error * Fake) :=
  let '(obj, err, c) := r in
  match obj with
  | None => Some (None, err, c)
  | Some obj => x ← conv obj; Some (Some x, err, c)
  end.

Definition new_object : Object := k_body (fk_client K) (k_new (fk_client K)).

Definition fake_Get (name : string) (c : Fake) : option (option T * option error * Fake) :=
  Invokes (NewRootGetAction fake_resource name) new_object c ≫= as_kind (k_of (fk_client K)).

Definition label_matches (label : Selector) (item : T) : bool := Matches label (metav1.Labels (fk_Meta K item)).

Definition fake_List (opts : FakeListOptions) (c : Fake) : option (option (list T) * option error * Fake) :=
  action ← NewRootListAction fake_resource fake_gvk opts;
  '(l, err, c) ← Invokes action (fk_list K []) c ≫= as_kind (k_list_of (fk_client K));
  match l with
  | None => Some (None, err, c)
  | Some items =>
      '(label, _, _) ← ExtractFromListOptions opts;
      Some (Some (filter (λ item, label_matches label item = true) items), err, c)
  end.

Definition fake_Watch (opts : FakeListOptions) (c : Fake) : option (option nat * option error * Fake) :=
  action ← NewRootWatchAction fake_resource opts; Some (InvokesWatch action c).

Definition fake_Create (obj : T) (c : Fake) : option (option T * option error * Fake) :=
  Invokes (NewRootCreateAction fake_resource (k_body (fk_client K) obj)) new_object c
    ≫= as_kind (k_of (fk_client K)).

Definition fake_Update (obj : T) (c : Fake) : option (option T * option error * Fake) :=
  Invokes (NewRootUpdateAction fake_resource (k_body (fk_client K) obj)) new_object c
    ≫= as_kind (k_of (fk_client K)).

Definition fake_UpdateStatus (obj : T) (c : Fake) : option (option T * option error * Fake) :=
  Invokes (NewRootUpdateSubresourceAction fake_resource "status" (k_body (fk_client K) obj)) new_object c
    ≫= as_kind (k_of (fk_client K)).

Definition fake_Delete (name uid : string) (c : Fake) : option (option error * Fake) :=
  '(_, err, c) ← Invokes (NewRootDeleteActionWithOptions fake_resource name uid) new_object c;
  Some (err, c).

Definition fake_DeleteCollection (listOpts : FakeListOptions) (c : Fake) : option (option error * Fake) :=
  action ← NewRootDeleteCollectionAction fake_resource listOpts;
  '(_, err, c) ← Invokes action (fk_list K []) c;
  Some (err, c).

Definition fake_Patch (name pt data : string) (subresources : list string) (c : Fake) :
    option (option T * option error * Fake) :=
  Invokes (NewRootPatchSubresourceAction fake_resource name pt data subresources) new_object c
    ≫= as_kind (k_of (fk_client K)).
End client.
End fake.

Arguments fk_client {T}.
Arguments fk_Kind {T}.
Arguments fk_Meta {T}.
Arguments fk_list {T}.

Definition FakeStorageVersionMigrations : fake_kind StorageVersionMigration :=
  {| fk_client := storageVersionMigrations; fk_Kind := "StorageVersionMigration"; fk_Meta := svm_Meta;
     fk_list := OMigrationList |}.

Definition FakeStorageStates : fake_kind StorageState :=
  {| fk_client := storageStates; fk_Kind := "StorageState"; fk_Meta := ss_Meta; fk_list := OStateList |}.

(** The methods of the two fake clients. *)
Section fakes.
Context `{SelectorParser} `{Patcher}.

Definition FakeStorageVersionMigrations_Get := fake_Get FakeStorageVersionMigrations.
Definition FakeStorageVersionMigrations_List := fake_List FakeStorageVersionMigrations.
Definition FakeStorageVersionMigrations_Watch := fake_Watch FakeStorageVersionMigrations.
Definition FakeStorageVersionMigrations_Create := fake_Create FakeStorageVersionMigrations.
Definition FakeStorageVersionMigrations_Update := fake_Update FakeStorageVersionMigrations.
Definition FakeStorageVersionMigrations_UpdateStatus := fake_UpdateStatus FakeStorageVersionMigrations.
Definition FakeStorageVersionMigrations_Delete := fake_Delete FakeStorageVersionMigrations.
Definition FakeStorageVersionMigrations_DeleteCollection := fake_DeleteCollection FakeStorageVersionMigrations.
Definition FakeStorageVersionMigrations_Patch := fake_Patch FakeStorageVersionMigrations.

Definition FakeStorageStates_Get := fake_Get FakeStorageStates.
Definition FakeStorageStates_List := fake_List FakeStorageStates.
Definition FakeStorageStates_Watch := fake_Watch FakeStorageStates.
Definition FakeStorageStates_Create := fake_Create FakeStorageStates.
Definition FakeStorageStates_Update := fake_Update FakeStorageStates.
Definition FakeStorageStates_UpdateStatus := fake_UpdateStatus FakeStorageStates.
Definition FakeStorageStates_Delete := fake_Delete FakeStorageStates.
Definition FakeStorageStates_DeleteCollection := fake_DeleteCollection FakeStorageStates.
Definition FakeStorageStates_Patch := fake_Patch FakeStorageStates.
End fakes.
