(* ===== verification/TrackerProps.v ===== *)
(** * Theorems about the object tracker

    The tracker of one kind against a map from names to objects: what each
    operation answers, what it leaves, and what it sends to the watchers. *)
From S2P Require Export SchemeProps Fake.

Import v1alpha1.

#[export] Instance by_namespace_name_preorder : TotalPreorder by_namespace_name.
Proof.
  split.
  - intros x y z. unfold by_namespace_name.
    destruct (Accessor x) as [a|], (Accessor y) as [b|], (Accessor z) as [c|]; try done.
    destruct (decide (metav1.Namespace a = metav1.Namespace b)) as [Eab|Nab],
      (decide (metav1.Namespace b = metav1.Namespace c)) as [Ebc|Nbc].
    + rewrite !bool_decide_eq_true_2 by congruence. apply string_le_trans.
    + rewrite bool_decide_eq_true_2, !bool_decide_eq_false_2 by congruence. by rewrite Eab.
    + rewrite bool_decide_eq_false_2, bool_decide_eq_true_2, bool_decide_eq_false_2 by congruence.
      by rewrite Ebc.
    + rewrite !(bool_decide_eq_false_2 _ Nab), !(bool_decide_eq_false_2 _ Nbc). intros E1 E2.
      rewrite bool_decide_eq_false_2; [by eapply string_le_trans|].
      intros E. rewrite E in E1, Nab. by apply Nab, string_le_antisym.
  - intros x y. unfold by_namespace_name. destruct (Accessor x), (Accessor y); try done.
    repeat case_bool_decide; try congruence; apply string_le_total.
Qed.

(** ** Broadcasts *)

Definition push (ev : watch.Event) (ch : watch.Watcher) : watch.Watcher :=
  if watch.Stopped ch then ch
  else {| watch.result := watch.result ch ++ [ev]; watch.Stopped := false |}.

Definition deliver (ws : list nat) (chs : list watch.Watcher) (ev : watch.Event) : list watch.Watcher :=
  imap (λ i ch, if bool_decide (i ∈ ws) then push ev ch else ch) chs.

(** Every watcher is stopped or has room for [n] more events. *)
Definition has_room (n : nat) (ch : watch.Watcher) : Prop :=
  watch.Stopped ch = true ∨ (length (watch.result ch) + n ≤ watch.DefaultChanSize)%nat.
Definition room (n : nat) : list watch.Watcher → Prop := Forall (has_room n).

Lemma has_room_push n ev ch : has_room (S n) ch → has_room n (push ev ch).
Proof.
  unfold has_room, push. destruct (watch.Stopped ch) eqn:E; rewrite ?E; [by left|].
  intros [?|H]; [done|]. right. simpl. rewrite length_app. simpl. lia.
Qed.

Lemma has_room_le n m ch : (n ≤ m)%nat → has_room m ch → has_room n ch.
Proof. unfold has_room. intros ? [?|?]; [by left|right; lia]. Qed.

Lemma send_room ty obj ch :
  has_room 1 ch → watch.send ty obj ch = Some (push {| watch.Event_Type := ty; watch.Event_Object := obj |} ch).
Proof.
  unfold has_room, watch.send, push. destruct (watch.Stopped ch); [done|]. intros [?|?]; [done|].
  by rewrite bool_decide_eq_true_2 by lia.
Qed.

Lemma broadcast_deliver ty obj ws chs :
  NoDup ws → (∀ w ch, w ∈ ws → chs !! w = Some ch → has_room 1 ch) →
  broadcast ty obj ws chs = Some (deliver ws chs {| watch.Event_Type := ty; watch.Event_Object := obj |}).
Proof.
  intros HN. revert chs. induction HN as [|w ws Hw _ IH]; intros chs Hroom; simpl.
  - f_equal. unfold deliver. apply list_eq. intros i. rewrite list_lookup_imap.
    by destruct (chs !! i).
  - destruct (chs !! w) as [ch|] eqn:Ech.
    + rewrite (send_room ty obj ch) by (apply (Hroom w); [by left|done]). simpl.
      rewrite IH.
      * f_equal. unfold deliver. apply list_eq. intros i. rewrite !list_lookup_imap.
        destruct (decide (i = w)) as [->|Hne].
        -- rewrite list_lookup_insert_eq by by apply lookup_lt_Some in Ech. rewrite Ech. simpl.
           by rewrite bool_decide_eq_false_2, bool_decide_eq_true_2 by (done || by left).
        -- rewrite list_lookup_insert_ne by done. destruct (chs !! i); [|done]. simpl.
           do 2 f_equal. case_bool_decide as H1; case_bool_decide as H2; try done; exfalso; set_solver.
      * intros w' ch' Hw' E'. apply (Hroom w'); [by right|].
        rewrite list_lookup_insert_ne in E' by congruence. done.
    + rewrite IH.
      * f_equal. unfold deliver. apply list_eq. intros i. rewrite !list_lookup_imap.
        destruct (chs !! i) eqn:E; [|done]. simpl. do 2 f_equal.
        case_bool_decide as H1; case_bool_decide as H2; try done; exfalso; set_solver.
      * intros w' ch' Hw'. apply Hroom. by right.
Qed.

Lemma room_deliver n ws chs ev : room (S n) chs → room n (deliver ws chs ev).
Proof.
  unfold room. rewrite !Forall_lookup. intros Hr i ch. unfold deliver. rewrite list_lookup_imap.
  destruct (chs !! i) as [ch0|] eqn:E; [|done]. simpl. intros [= <-]. apply Hr in E.
  case_bool_decide; [by apply has_room_push|]. eapply has_room_le; [|done]. lia.
Qed.

Lemma room_le n m chs : (n ≤ m)%nat → room m chs → room n chs.
Proof. intros Hle HF. eapply Forall_impl; [exact HF|]. intros ch. by apply has_room_le. Qed.

(** Each event is sent once to a watcher, and to the watchers of its resource
    only. *)
Record watchers_ok (t : tracker) : Prop := {
  watches_NoDup : ∀ gvr, NoDup (getWatches gvr "" t);
  watches_known : ∀ gvr w, w ∈ getWatches gvr "" t → (w < length (channels t))%nat;
  watches_apart : ∀ gvr1 gvr2 w, w ∈ getWatches gvr1 "" t → w ∈ getWatches gvr2 "" t → gvr1 = gvr2;
}.

Lemma getWatches_eq gvr t t' : watchers t' = watchers t → getWatches gvr "" t' = getWatches gvr "" t.
Proof. unfold getWatches. by intros ->. Qed.

Lemma watchers_ok_eq t t' :
  watchers t' = watchers t → length (channels t') = length (channels t) → watchers_ok t → watchers_ok t'.
Proof.
  intros Ew El [H1 H2 H3]. split; intros *; rewrite !(getWatches_eq _ _ _ Ew), ?El; eauto.
Qed.

(** ** One kind of object *)

Class FakeKind {T} (K : fake_kind T) := {
  of_body : ∀ x, k_of (fk_client K) (k_body (fk_client K) x) = Some x;
  body_meta : ∀ x, Accessor (k_body (fk_client K) x) = Ok (fk_Meta K x);
  body_type : ∀ x, object_TypeOf (k_body (fk_client K) x) = v1alpha1_type (fk_Kind K);
  type_body : ∀ o, object_TypeOf o = v1alpha1_type (fk_Kind K) → ∃ x, o = k_body (fk_client K) x;
  body_namespace : ∀ x, metav1.Namespace (fk_Meta K x) = "" →
    SetNamespace "" (k_body (fk_client K) x) = k_body (fk_client K) x;
  list_of_list : ∀ l, k_list_of (fk_client K) (fk_list K l) = Some l;
  new_list : ∀ l, NewList (v1alpha1_type (fk_Kind K +:+ "List")) (k_body (fk_client K) <$> l) = Ok (fk_list K l);
  list_known : v1alpha1_type (fk_Kind K +:+ "List") ∈ known_types;
  kind_known : v1alpha1_type (fk_Kind K) ∈ known_types;
  kind_guess : (UnsafeGuessKindToResource (fake_gvk K)).1 = fake_resource K;
}.

Lemma mapM_inverse {A B} (f : A → B) (g : B → option A) l : (∀ x, g (f x) = Some x) → mapM g (f <$> l) = Some l.
Proof. intros Hgf. apply mapM_Some. induction l; constructor; auto. Qed.

#[export] Instance migrations_fake_kind : FakeKind FakeStorageVersionMigrations.
Proof.
  split; try done.
  - intros [] E; try discriminate E. eauto.
  - intros [[] ? ?]. unfold SetNamespace, with_Namespace. simpl. by intros ->.
  - intros l. unfold NewList. rewrite bool_decide_eq_true_2 by done.
    by rewrite (mapM_inverse OMigration).
  - apply (bool_decide_unpack _). by vm_compute.
  - apply (bool_decide_unpack _). by vm_compute.
Qed.

#[export] Instance states_fake_kind : FakeKind FakeStorageStates.
Proof.
  split; try done.
  - intros [] E; try discriminate E. eauto.
  - intros [[] ? ?]. unfold SetNamespace, with_Namespace. simpl. by intros ->.
  - intros l. unfold NewList. rewrite bool_decide_eq_false_2, bool_decide_eq_true_2 by done.
    by rewrite (mapM_inverse OState).
  - apply (bool_decide_unpack _). by vm_compute.
  - apply (bool_decide_unpack _). by vm_compute.
Qed.

Section kind.
Context {T : Type} (K : fake_kind T) `{HK : FakeKind T K}.

Abbreviation body := (k_body (fk_client K)).
Abbreviation gvr := (fake_resource K).

Definition name_of (x : T) : string := metav1.Name (fk_Meta K x).
Definition namespace_of (x : T) : string := metav1.Namespace (fk_Meta K x).

(** The objects of the kind are those of [m], by name; none has a namespace,
    as befits a kind without namespaces. *)
Record tracked (m : gmap string T) (t : tracker) : Prop := {
  tracked_objects : default ∅ (objects t !! gvr) = kmap (pair "") (body <$> m);
  tracked_names : map_Forall (λ n x, name_of x = n ∧ namespace_of x = "") m;
}.

Lemma tracked_lookup m t n :
  tracked m t → (default ∅ (objects t !! gvr) : gmap NamespacedName Object) !! ("", n) = body <$> m !! n.
Proof. intros [-> _]. by rewrite lookup_kmap, lookup_fmap by apply _. Qed.

Definition item_of (gvr' : schema.GroupVersionResource) (name : string) (t : tracker) : option Object :=
  (default ∅ (objects t !! gvr') : gmap NamespacedName Object) !! ("", name).

Lemma tracked_Get m t n :
  tracked m t →
  tracker_Get gvr "" n t = match m !! n with Some x => Ok (body x) | None => Err (errNotFound gvr n) end.
Proof.
  intros HT. pose proof (tracked_lookup m t n HT) as E. unfold tracker_Get.
  destruct (objects t !! gvr) as [objs|]; simpl in E.
  - rewrite E. destruct (m !! n) as [x|]; [|done]. simpl.
    pose proof (body_meta x) as Hm. by destruct (body x).
  - rewrite lookup_empty in E. by destruct (m !! n).
Qed.

Definition listed (m : gmap string T) : list T := sort_by (by_key name_of) (map_to_list m).*2.

Lemma in_namespace_all l : in_namespace "" (body <$> l) = Ok (body <$> l).
Proof. induction l as [|x l IH]; [done|]. rewrite fmap_cons. cbn [in_namespace]. by rewrite body_meta, IH. Qed.

Lemma tracked_elem m t x : tracked m t → x ∈ (map_to_list m).*2 → m !! name_of x = Some x ∧ namespace_of x = "".
Proof.
  intros [_ Hn] ([n y] & -> & E%elem_of_map_to_list)%list_elem_of_fmap. simpl.
  by destruct (Hn n y E) as [-> ->].
Qed.

Lemma insert_by_fmap {A B} (f : A → B) leA leB x l :
  (∀ y, y ∈ l → leB (f x) (f y) = leA x y) → insert_by leB (f x) (f <$> l) = f <$> insert_by leA x l.
Proof.
  induction l as [|y l IH]; intros Hle; [done|]. simpl. rewrite Hle by left. destruct (leA x y); [done|].
  rewrite fmap_cons. f_equal. apply IH. intros z Hz. apply Hle. by right.
Qed.

Lemma sort_by_fmap {A B} (f : A → B) leA leB l :
  (∀ x y, x ∈ l → y ∈ l → leB (f x) (f y) = leA x y) → sort_by leB (f <$> l) = f <$> sort_by leA l.
Proof.
  induction l as [|x l IH]; intros Hle; [done|]. rewrite fmap_cons.
  change (insert_by leB (f x) (sort_by leB (f <$> l)) = f <$> insert_by leA x (sort_by leA l)). rewrite IH.
  - apply insert_by_fmap. intros y. rewrite sort_by_perm. intros Hy. apply Hle; [left|by right].
  - intros y z Hy Hz. apply Hle; by right.
Qed.

(** The sort makes the result independent of the order the map is visited in. *)
Lemma tracked_filter m t :
  tracked m t →
  filterByNamespace (default ∅ (objects t !! gvr)) "" = Ok (body <$> listed m) ∧
  ∀ l, l ≡ₚ (map_to_list (default ∅ (objects t !! gvr))).*2 →
    in_namespace "" l = Ok l ∧ sort_by by_namespace_name l = body <$> listed m.
Proof.
  intros HT.
  assert ((map_to_list (default ∅ (objects t !! gvr))).*2 ≡ₚ body <$> (map_to_list m).*2) as HP.
  { rewrite (tracked_objects _ _ HT). rewrite map_to_list_kmap by apply _.
    rewrite map_to_list_fmap, <- !list_fmap_compose.
    apply reflexive_eq, list_fmap_ext. by intros ? []. }
  assert (∀ l, l ≡ₚ body <$> (map_to_list m).*2 →
    in_namespace "" l = Ok l ∧ sort_by by_namespace_name l = body <$> listed m) as Hany.
  { intros l Hl. split.
    - apply Permutation_map_inv in Hl as (l' & -> & _). apply in_namespace_all.
    - unfold listed. rewrite <- (sort_by_fmap body (by_key name_of) by_namespace_name).
      + apply sort_by_unique; [apply _| |done]. intros o1 o2. rewrite Hl.
        intros (x & -> & Hx)%list_elem_of_fmap (y & -> & Hy)%list_elem_of_fmap.
        destruct (tracked_elem _ _ _ HT Hx) as [Ex Nx], (tracked_elem _ _ _ HT Hy) as [Ey Ny].
        unfold by_namespace_name. rewrite !body_meta. unfold namespace_of, name_of in *.
        rewrite Nx, Ny, bool_decide_eq_true_2 by done. intros L1 L2.
        assert (metav1.Name (fk_Meta K x) = metav1.Name (fk_Meta K y)) as En by by apply string_le_antisym.
        rewrite En in Ex. congruence.
      + intros x y Hx Hy. destruct (tracked_elem _ _ _ HT Hx) as [_ Nx], (tracked_elem _ _ _ HT Hy) as [_ Ny].
        unfold by_namespace_name. rewrite !body_meta. unfold namespace_of in *.
        by rewrite Nx, Ny, bool_decide_eq_true_2 by done. }
  split; [|intros l Hl; apply Hany; by rewrite Hl].
  unfold filterByNamespace. destruct (Hany _ HP) as [-> ->]. done.
Qed.

Lemma tracked_List m t :
  tr_scheme t = the_scheme → tracked m t → tracker_List gvr (fake_gvk K) "" t = Ok (fk_list K (listed m)).
Proof.
  intros Hs HT. unfold tracker_List. rewrite Hs.
  assert (New {| gvk_Group := gvk_Group (fake_gvk K);
                 gvk_Version := if bool_decide (gvk_Version (fake_gvk K) = "") then APIVersionInternal
                                else gvk_Version (fake_gvk K);
                 gvk_Kind := gvk_Kind (fake_gvk K) +:+ "List" |} the_scheme
          = Ok (v1alpha1_type (fk_Kind K +:+ "List"))) as ->.
  { apply (the_scheme_knows (v1alpha1_type (fk_Kind K +:+ "List"))), list_known. }
  pose proof (new_list []) as Enil. simpl in Enil. rewrite Enil.
  destruct (tracked_filter _ _ HT) as [Ef _]. pose proof (tracked_objects _ _ HT) as Eo.
  destruct (objects t !! gvr) as [objs|]; simpl in *.
  - rewrite Ef. apply new_list.
  - assert (m = ∅) as ->; [|done]. apply map_empty. intros n.
    apply (f_equal (λ o : gmap NamespacedName Object, o !! ("", n))) in Eo.
    rewrite lookup_empty, lookup_kmap, lookup_fmap in Eo by apply _. by destruct (m !! n).
Qed.

(** What a change of the kind does to the rest of the tracker: the objects of
    other resources stay, the watchers of the resource get the events. *)
Record changed (evs : list watch.Event) (t t' : tracker) : Prop := {
  changed_scheme : tr_scheme t' = tr_scheme t;
  changed_watchers : watchers t' = watchers t;
  changed_channels : channels t' = foldl (deliver (getWatches gvr "" t)) (channels t) evs;
  changed_others : ∀ gvr', gvr' ≠ gvr → objects t' !! gvr' = objects t !! gvr';
}.

Lemma changed_refl t : changed [] t t.
Proof. by split. Qed.

Definition event (type : string) (x : T) : watch.Event :=
  {| watch.Event_Type := type; watch.Event_Object := body x |}.

Definition namespace_mismatch (x : T) : error :=
  NewBadRequest ("request namespace does not match object namespace, request: "
    +:+ quote +:+ "" +:+ quote +:+ " object: " +:+ quote +:+ namespace_of x +:+ quote).

(** Writing to the map: the error, the new map and the events. *)
Definition spec_add (x : T) (replaceExisting : bool) (m : gmap string T) :
    option error * gmap string T * list watch.Event :=
  if negb (bool_decide (namespace_of x = "")) then (Some (namespace_mismatch x), m, [])
  else match m !! name_of x, replaceExisting with
       | Some _, true => (None, <[name_of x := x]> m, [event watch.Modified x])
       | None, false => (None, <[name_of x := x]> m, [event watch.Added x])
       | Some _, false =>
           (Some (NewAlreadyExists (schema.gvr_Group gvr) (schema.gvr_Resource gvr) (name_of x)), m, [])
       | None, true => (Some (errNotFound gvr (name_of x)), m, [])
       end.

Lemma kmap_insert_body n x (m : gmap string T) :
  <[("", n) := body x]> (kmap (pair "") (body <$> m)) = (kmap (pair "") (body <$> <[n := x]> m) : gmap NamespacedName Object).
Proof. by rewrite fmap_insert, kmap_insert by apply _. Qed.

Lemma tracked_same m t t' :
  (default ∅ (objects t' !! gvr) : gmap NamespacedName Object) = default ∅ (objects t !! gvr) →
  tracked m t → tracked m t'.
Proof. intros E [H1 H2]. split; [by rewrite E|done]. Qed.

Lemma tracked_insert m t t' x :
  objects t' !! gvr = Some (<[("", name_of x) := body x]> (default ∅ (objects t !! gvr))) →
  namespace_of x = "" → tracked m t → tracked (<[name_of x := x]> m) t'.
Proof.
  intros E Hns [H1 H2]. split.
  - rewrite E. simpl. rewrite H1. apply kmap_insert_body.
  - by apply map_Forall_insert_2.
Qed.

Lemma tracked_add m t x replaceExisting :
  tracked m t → watchers_ok t → room 1 (channels t) →
  let '(err, m', evs) := spec_add x replaceExisting m in
  ∃ t', tracker_add gvr (body x) "" replaceExisting t = Some (err, t') ∧ tracked m' t' ∧ changed evs t t' ∧
        (err = None → m' !! name_of x = Some x ∧ namespace_of x = "").
Proof.
  intros HT Hw Hroom. unfold tracker_add, spec_add. rewrite body_meta. fold (namespace_of x) (name_of x).
  case_bool_decide as Hns; simpl.
  2:{ rewrite bool_decide_eq_false_2 by congruence. simpl. exists t. split_and!; [done..|apply changed_refl|done]. }
  rewrite body_namespace by done.
  pose proof (tracked_lookup m t (name_of x) HT) as E. rewrite E.
  set (objs := default ∅ (objects t !! gvr)) in *.
  assert (∀ ty (obj : Object) t0, watchers t0 = watchers t →
    broadcast ty obj (getWatches gvr "" t0) (channels t)
    = Some (deliver (getWatches gvr "" t) (channels t) {| watch.Event_Type := ty; watch.Event_Object := obj |})) as Hb.
  { intros ty obj t0 E1. rewrite (getWatches_eq _ _ _ E1). apply broadcast_deliver; [apply Hw|].
    intros w ch _ Hch. unfold room in Hroom. rewrite Forall_lookup in Hroom. eauto. }
  destruct (m !! name_of x) as [y|] eqn:Em, replaceExisting; simpl.
  - rewrite Hb by done. simpl. eexists. split; [done|]. split_and!.
    + by eapply tracked_insert; [simpl; by rewrite lookup_insert_eq|..].
    + split; simpl; [done..|]. intros gvr' Hne. by rewrite !lookup_insert_ne.
    + intros _. by rewrite lookup_insert_eq.
  - eexists. split; [done|]. split_and!; [|split; simpl; [done..|]|done].
    + eapply tracked_same; [|done]. simpl. by rewrite lookup_insert_eq.
    + intros gvr' Hne. by rewrite !lookup_insert_ne.
  - eexists. split; [done|]. split_and!; [|split; simpl; [done..|]|done].
    + eapply tracked_same; [|done]. simpl. by rewrite lookup_insert_eq.
    + intros gvr' Hne. by rewrite !lookup_insert_ne.
  - rewrite Hb by done. simpl. eexists. split; [done|]. split_and!.
    + by eapply tracked_insert; [simpl; by rewrite lookup_insert_eq|..].
    + split; simpl; [done..|]. intros gvr' Hne. by rewrite !lookup_insert_ne.
    + intros _. by rewrite lookup_insert_eq.
Qed.

(** Adding an object without a namespace to the tracker is creating it. *)
Lemma add_object_body x t :
  tr_scheme t = the_scheme → namespace_of x = "" → add_object (body x) t = tracker_add gvr (body x) "" false t.
Proof.
  intros Hs Hns. unfold add_object. rewrite body_meta, Hs, body_type.
  destruct (the_scheme_knows _ kind_known) as [_ ->].
  change (WithKind SchemeGroupVersion (TypeName (v1alpha1_type (fk_Kind K)))) with (fake_gvk K).
  cbn [add_kinds]. rewrite kind_guess. fold (namespace_of x). rewrite Hns. simpl.
  by destruct (tracker_add _ _ _ _ _) as [[[] ?]|].
Qed.

Definition spec_delete (n : string) (m : gmap string T) : option error * gmap string T * list watch.Event :=
  match m !! n with
  | None => (Some (errNotFound gvr n), m, [])
  | Some x => (None, delete n m, [event watch.Deleted x])
  end.

Lemma tracked_Delete m t n :
  tracked m t → watchers_ok t → room 1 (channels t) →
  let '(err, m', evs) := spec_delete n m in
  ∃ t', tracker_Delete gvr "" n t = Some (err, t') ∧ tracked m' t' ∧ changed evs t t'.
Proof.
  intros HT Hw Hroom. unfold tracker_Delete, spec_delete.
  pose proof (tracked_lookup m t n HT) as E. pose proof (tracked_objects m t HT) as Eo.
  destruct (objects t !! gvr) as [objs|] eqn:Eg; simpl in *.
  2:{ rewrite lookup_empty in E. destruct (m !! n); [done|]. eauto using changed_refl. }
  rewrite E. destruct (m !! n) as [x|]; simpl; [|eauto using changed_refl].
  unfold with_objects at 1. simpl. rewrite (getWatches_eq _ t) by done.
  rewrite broadcast_deliver; [|apply Hw|intros w ch _ Hch; unfold room in Hroom; rewrite Forall_lookup in Hroom; eauto].
  simpl. eexists. split; [done|]. split.
  - split; simpl.
    + rewrite lookup_insert_eq. simpl. by rewrite Eo, fmap_delete, kmap_delete by apply _.
    + apply map_Forall_delete, HT.
  - split; simpl; [done..|]. intros gvr' Hne. by rewrite lookup_insert_ne.
Qed.
End kind.
