(* ===== verification/FakeProps.v ===== *)
(** * Theorems about the fake clientset

    An abstract server with two maps from names to objects, and that the fake
    clientset refines it; watches; what DeleteCollection does. *)
From S2P Require Export TrackerProps.

Import v1alpha1.

(** What a patch makes of an object is of the object's type: ObjectReaction
    unmarshals into the object it read. *)
Class PatcherLaws `{Patcher} := {
  apply_patch_type : ∀ pt patch obj obj', apply_patch pt patch obj = Ok obj' →
    object_TypeOf obj' = object_TypeOf obj;
}.

(** ** The abstract server *)

(** The calls of one typed client, and what they return: an object, a list or
    nothing, with an error beside it. *)
Inductive op (T : Type) :=
  | OpGet (name : string)
  | OpList (opts : FakeListOptions)
  | OpCreate (obj : T)
  | OpUpdate (obj : T)
  | OpUpdateStatus (obj : T)
  | OpDelete (name uid : string)
  | OpDeleteCollection (opts : FakeListOptions)
  | OpPatch (name pt data : string) (subresources : list string).
Arguments OpGet {T}.
Arguments OpList {T}.
Arguments OpCreate {T}.
Arguments OpUpdate {T}.
Arguments OpUpdateStatus {T}.
Arguments OpDelete {T}.
Arguments OpDeleteCollection {T}.
Arguments OpPatch {T}.

Inductive reply (T : Type) :=
  | ROne (x : option T) (err : option error)
  | RMany (l : option (list T)) (err : option error)
  | RErr (err : option error).
Arguments ROne {T}.
Arguments RMany {T}.
Arguments RErr {T}.

Section spec.
Context `{SelectorParser} `{PatcherLaws} {T : Type} (K : fake_kind T) `{HK : FakeKind T K}.

Abbreviation body := (k_body (fk_client K)).
Abbreviation gvr := (fake_resource K).

(** The reply to a write of [x], the new map, and the events of the change. *)
Definition spec_write (x : T) (replaceExisting : bool) (m : gmap string T) :
    reply T * gmap string T * list watch.Event :=
  let '(err, m, evs) := spec_add K x replaceExisting m in
  (ROne (match err with Some _ => None | None => Some x end) err, m, evs).

(** None is a panic: a selector that does not parse. *)
Definition spec (o : op T) (m : gmap string T) : option (reply T * gmap string T * list watch.Event) :=
  match o with
  | OpGet n =>
      Some (match m !! n with
            | Some x => ROne (Some x) None
            | None => ROne None (Some (errNotFound gvr n))
            end, m, [])
  | OpList opts =>
      '(label, _, _) ← ExtractFromListOptions opts;
      Some (RMany (Some (filter (λ x, label_matches K label x = true) (listed K m))) None, m, [])
  | OpCreate x => Some (spec_write x false m)
  | OpUpdate x | OpUpdateStatus x => Some (spec_write x true m)
  | OpDelete n _ => let '(err, m, evs) := spec_delete K n m in Some (RErr err, m, evs)
  | OpDeleteCollection opts => _ ← ExtractFromListOptions opts; Some (RErr None, m, [])
  | OpPatch n pt data _ =>
      match m !! n with
      | None => Some (ROne None (Some (errNotFound gvr n)), m, [])
      | Some x =>
          match apply_patch pt data (body x) with
          | Err e => Some (ROne None (Some e), m, [])
          | Ok obj => y ← k_of (fk_client K) obj; Some (spec_write y true m)
          end
      end
  end.

(** The call on the fake client. *)
Definition perform (o : op T) (c : Fake) : option (reply T * Fake) :=
  match o with
  | OpGet n => '(x, err, c) ← fake_Get K n c; Some (ROne x err, c)
  | OpList opts => '(l, err, c) ← fake_List K opts c; Some (RMany l err, c)
  | OpCreate x => '(x, err, c) ← fake_Create K x c; Some (ROne x err, c)
  | OpUpdate x => '(x, err, c) ← fake_Update K x c; Some (ROne x err, c)
  | OpUpdateStatus x => '(x, err, c) ← fake_UpdateStatus K x c; Some (ROne x err, c)
  | OpDelete n uid => '(err, c) ← fake_Delete K n uid c; Some (RErr err, c)
  | OpDeleteCollection opts => '(err, c) ← fake_DeleteCollection K opts c; Some (RErr err, c)
  | OpPatch n pt data subs => '(x, err, c) ← fake_Patch K n pt data subs c; Some (ROne x err, c)
  end.

(** What the fake records: verb and subresource of the action. *)
Definition op_verb (o : op T) : string * string :=
  match o with
  | OpGet _ => ("get", "")
  | OpList _ => ("list", "")
  | OpCreate _ => ("create", "")
  | OpUpdate _ => ("update", "")
  | OpUpdateStatus _ => ("update", "status")
  | OpDelete _ _ => ("delete", "")
  | OpDeleteCollection _ => ("delete-collection", "")
  | OpPatch _ _ _ subs => ("patch", Path.Join subs)
  end.

(** The reactors NewSimpleClientset installs, and no others. *)
Definition simple (c : Fake) : Prop :=
  ReactionChain c = [{| Reactor_Verb := "*"; Reactor_Resource := "*"; Reaction := ObjectReaction |}] ∧
  WatchReactionChain c = [{| WatchReactor_Resource := "*"; WatchReaction := watch_reaction |}].

(** A fake clientset whose tracker is the scheme's and can broadcast [n] more
    events. *)
Record ready (n : nat) (c : Fake) : Prop := {
  ready_simple : simple c;
  ready_scheme : tr_scheme (fake_tracker c) = the_scheme;
  ready_watchers : watchers_ok (fake_tracker c);
  ready_room : room n (channels (fake_tracker c));
}.

Lemma length_deliver ws chs evs : length (foldl (deliver ws) chs evs) = length chs.
Proof.
  revert chs. induction evs as [|ev evs IH]; intros chs; simpl; [done|]. rewrite IH. unfold deliver.
  by rewrite length_imap.
Qed.

Lemma room_deliver_all n ws chs evs : (length evs ≤ 1)%nat → room (S n) chs → room n (foldl (deliver ws) chs evs).
Proof.
  destruct evs as [|ev [|]]; simpl; intros Hl Hr; [|by apply room_deliver|lia].
  eapply room_le; [|done]. lia.
Qed.

Lemma ready_changed n a evs c t :
  (length evs ≤ 1)%nat → ready (S n) c → changed K evs (fake_tracker c) t → ready n (recorded a t c).
Proof.
  intros Hl [R1 R2 R3 R4] [E1 E2 E3 _]. split; simpl; [done|congruence|..].
  - eapply watchers_ok_eq; [done| |done]. by rewrite E3, length_deliver.
  - rewrite E3. by apply room_deliver_all.
Qed.

Lemma react_simple c action d t :
  simple c →
  react (ReactionChain c) action d t =
  match ObjectReaction action t with
  | None => None
  | Some ((handled, ret, err), t) => Some (if handled then (ret, err, t) else (d, None, t))
  end.
Proof.
  intros [-> _]. simpl. unfold Handles, resourceCovers. simpl.
  destruct (ObjectReaction action t) as [[[[[] ret] err] t']|]; done.
Qed.

Lemma Invokes_handled c action d ret err t :
  simple c → ObjectReaction action (fake_tracker c) = Some ((true, ret, err), t) →
  Invokes action d c = Some (ret, err, recorded action t c).
Proof. intros Hs E. unfold Invokes. rewrite (react_simple _ _ _ _ Hs), E. done. Qed.

Lemma Invokes_unhandled c action d ret err t :
  simple c → ObjectReaction action (fake_tracker c) = Some ((false, ret, err), t) →
  Invokes action d c = Some (Some d, None, recorded action t c).
Proof. intros Hs E. unfold Invokes. rewrite (react_simple _ _ _ _ Hs), E. done. Qed.

Lemma spec_add_length x b m : let '(_, _, evs) := spec_add K x b m in (length evs ≤ 1)%nat.
Proof. unfold spec_add. case_bool_decide; simpl; [|lia]. destruct (m !! _), b; simpl; lia. Qed.

(** A call does as the abstract server, whose map [m] is. *)
Definition simulates (n : nat) (o : op T) (m : gmap string T) (c : Fake)
    (r : reply T) (m' : gmap string T) (evs : list watch.Event) : Prop :=
  ∃ c' a, perform o c = Some (r, c') ∧ ready n c' ∧ tracked K m' (fake_tracker c') ∧
    changed K evs (fake_tracker c) (fake_tracker c') ∧ (length evs ≤ 1)%nat ∧ actions c' = actions c ++ [a] ∧
    (GetVerb a, GetSubresource a) = op_verb o ∧ GetResource a = gvr ∧ GetNamespace a = "".

Lemma simulates_intro n o m c r m' evs a t :
  ready (S n) c → perform o c = Some (r, recorded a t c) → tracked K m' t →
  changed K evs (fake_tracker c) t → (length evs ≤ 1)%nat →
  (GetVerb a, GetSubresource a) = op_verb o → GetResource a = gvr → GetNamespace a = "" →
  simulates n o m c r m' evs.
Proof.
  intros HR E HT HC Hl Hv Hr Hn. exists (recorded a t c), a. split_and!; try done. by eapply ready_changed.
Qed.

(** Create, Update and UpdateStatus: a write and a read of what it wrote. *)
Lemma written_spec n c m x b :
  ready (S n) c → tracked K m (fake_tracker c) →
  let '(r, m', evs) := spec_write x b m in
  ∃ t, written gvr "" (name_of K x) <$> tracker_add gvr (body x) "" b (fake_tracker c)
       = Some ((true, match r with ROne y _ => body <$> y | _ => None end,
                match r with ROne _ err => err | _ => None end), t) ∧
    (∃ y err, r = ROne y err) ∧ tracked K m' t ∧ changed K evs (fake_tracker c) t ∧ (length evs ≤ 1)%nat.
Proof.
  intros HR HT. unfold spec_write. pose proof (spec_add_length x b m) as Hl.
  pose proof (tracked_add K m (fake_tracker c) x b HT (ready_watchers _ _ HR)) as Ha.
  destruct (spec_add K x b m) as [[err m'] evs].
  destruct Ha as (t & -> & HT' & HC & Hx); [eapply room_le; [|apply HR]; lia|].
  exists t. split_and!; [|eauto|done..]. simpl. destruct err as [e|]; simpl; [done|].
  rewrite (tracked_Get K m' t) by done. by destruct Hx as [-> _].
Qed.

Lemma perform_spec n o m c :
  ready (S n) c → tracked K m (fake_tracker c) →
  match spec o m with
  | None => perform o c = None
  | Some (r, m', evs) => simulates n o m c r m' evs
  end.
Proof.
  intros HR HT. pose proof (ready_simple _ _ HR) as Hs.
  assert (∀ x b, let '(r, m', evs) := spec_write x b m in ∀ a,
    ObjectReaction a (fake_tracker c) =
      written gvr "" (name_of K x) <$> tracker_add gvr (body x) "" b (fake_tracker c) →
    perform o c = ('(y, err, c') ← Invokes a (new_object K) c ≫= as_kind (k_of (fk_client K)); Some (ROne y err, c')) →
    (GetVerb a, GetSubresource a) = op_verb o → GetResource a = gvr → GetNamespace a = "" →
    simulates n o m c r m' evs) as Hwrite.
  { intros x b. pose proof (written_spec n c m x b HR HT) as Hw. destruct (spec_write x b m) as [[r m'] evs].
    destruct Hw as (t & Ew & (y & err & ->) & HT' & HC & Hl). intros a Ea Ep Hv Hr Hn.
    eapply simulates_intro; [done| |done..]. rewrite Ep. rewrite Ew in Ea.
    rewrite (Invokes_handled _ _ _ _ _ _ Hs Ea). simpl. destruct y as [y|]; simpl; [|done]. by rewrite of_body. }
  destruct o as [nm|opts|x|x|x|nm uid|opts|nm pt data subs]; simpl.
  - (* Get *)
    assert (ObjectReaction (NewRootGetAction gvr nm) (fake_tracker c) =
      Some ((true, body <$> m !! nm, match m !! nm with Some _ => None | None => Some (errNotFound gvr nm) end),
            fake_tracker c)) as E.
    { simpl. unfold GetResource, GetNamespace. simpl. rewrite (tracked_Get K m) by done. by destruct (m !! nm). }
    eapply (simulates_intro _ _ _ _ _ _ _ (NewRootGetAction gvr nm)); [done| |done|apply changed_refl|simpl; lia|done..].
    unfold perform, fake_Get. rewrite (Invokes_handled _ _ _ _ _ _ Hs E).
    destruct (m !! nm); simpl; [|done]. by rewrite of_body.
  - (* List *)
    destruct (ExtractFromListOptions opts) as [[[ls fs] rv]|] eqn:Ex; simpl.
    2:{ unfold fake_List, NewRootListAction, restrictions. by rewrite Ex. }
    eapply (simulates_intro _ _ _ _ _ _ _ (ListActionImpl (root_action "list" gvr "") (fake_gvk K)
              {| restr_Labels := ls; restr_Fields := fs |})); [done| |done|apply changed_refl|simpl; lia|done..].
    unfold perform, fake_List, NewRootListAction, restrictions. rewrite Ex. simpl.
    erewrite Invokes_handled; [|done|].
    2:{ simpl. unfold GetResource, GetNamespace. simpl. by rewrite (tracked_List K m) by (apply HR || done). }
    simpl. rewrite list_of_list. simpl. done.
  - (* Create *)
    specialize (Hwrite x false). destruct (spec_write x false m) as [[r m'] evs].
    apply (Hwrite (NewRootCreateAction gvr (body x))); try done.
    unfold ObjectReaction, NewRootCreateAction, GetSubresource, GetResource, GetNamespace. simpl.
    by rewrite body_meta.
  - (* Update *)
    specialize (Hwrite x true). destruct (spec_write x true m) as [[r m'] evs].
    apply (Hwrite (NewRootUpdateAction gvr (body x))); try done.
    unfold ObjectReaction, NewRootUpdateAction, GetResource, GetNamespace. simpl. by rewrite body_meta.
  - (* UpdateStatus *)
    specialize (Hwrite x true). destruct (spec_write x true m) as [[r m'] evs].
    apply (Hwrite (NewRootUpdateSubresourceAction gvr "status" (body x))); try done.
    unfold ObjectReaction, NewRootUpdateSubresourceAction, GetResource, GetNamespace. simpl. by rewrite body_meta.
  - (* Delete *)
    pose proof (tracked_Delete K m (fake_tracker c) nm HT (ready_watchers _ _ HR)) as Hd.
    assert (length (spec_delete K nm m).2 ≤ 1)%nat as Hl.
    { unfold spec_delete. destruct (m !! nm); simpl; lia. }
    destruct (spec_delete K nm m) as [[err m'] evs].
    destruct Hd as (t & E & HT' & HC); [eapply room_le; [|apply HR]; lia|].
    eapply (simulates_intro _ _ _ _ _ _ _ (NewRootDeleteActionWithOptions gvr nm uid)); [done| |done..].
    unfold perform, fake_Delete. erewrite Invokes_handled; [|done|].
    2:{ simpl. unfold GetResource, GetNamespace. simpl. by rewrite E. }
    done.
  - (* DeleteCollection *)
    destruct (ExtractFromListOptions opts) as [[[ls fs] rv]|] eqn:Ex; simpl.
    2:{ unfold fake_DeleteCollection, NewRootDeleteCollectionAction, restrictions. by rewrite Ex. }
    eapply (simulates_intro _ _ _ _ _ _ _ (DeleteCollectionActionImpl (root_action "delete-collection" gvr "")
              {| restr_Labels := ls; restr_Fields := fs |})); [done| |done|apply changed_refl|simpl; lia|done..].
    unfold perform, fake_DeleteCollection, NewRootDeleteCollectionAction, restrictions. rewrite Ex. simpl.
    by erewrite Invokes_unhandled.
  - (* Patch *)
    set (a := NewRootPatchSubresourceAction gvr nm pt data subs).
    assert (∀ ret err t, ObjectReaction a (fake_tracker c) = Some ((true, body <$> ret, err), t) →
      perform (OpPatch nm pt data subs) c = Some (ROne ret err, recorded a t c)) as Hp.
    { intros ret err t E. simpl. unfold fake_Patch. fold a. rewrite (Invokes_handled _ _ _ _ _ _ Hs E). simpl.
      destruct ret; simpl; [|done]. by rewrite of_body. }
    assert (∀ e, ObjectReaction a (fake_tracker c) = Some ((true, None, Some e), fake_tracker c) →
      simulates n (OpPatch nm pt data subs) m c (ROne None (Some e)) m []) as Herr.
    { intros e E. eapply simulates_intro; [done|by apply (Hp None)|done|apply changed_refl|simpl; lia|done..]. }
    assert (ObjectReaction a (fake_tracker c) =
      match m !! nm with
      | None => Some ((true, None, Some (errNotFound gvr nm)), fake_tracker c)
      | Some x =>
          match apply_patch pt data (body x) with
          | Err e => Some ((true, None, Some e), fake_tracker c)
          | Ok obj =>
              '(err, t) ← tracker_Update gvr obj "" (fake_tracker c);
              Some (match err with Some e => (true, None, Some e) | None => (true, Some obj, None) end, t)
          end
      end) as Er.
    { unfold a, NewRootPatchSubresourceAction. simpl. unfold GetResource, GetNamespace. simpl.
      rewrite (tracked_Get K m) by done. by destruct (m !! nm). }
    destruct (m !! nm) as [x|] eqn:Em; [|by apply Herr].
    destruct (apply_patch pt data (body x)) as [obj|e] eqn:Ea; [|by apply Herr].
    apply apply_patch_type in Ea. rewrite body_type in Ea. apply type_body in Ea as [y ->]. rewrite of_body. simpl.
    unfold spec_write. pose proof (spec_add_length y true m) as Hl.
    pose proof (tracked_add K m (fake_tracker c) y true HT (ready_watchers _ _ HR)) as Ha.
    destruct (spec_add K y true m) as [[err m'] evs].
    destruct Ha as (t & E & HT' & HC & _); [eapply room_le; [|apply HR]; lia|].
    eapply simulates_intro; [done|apply Hp|done..].
    rewrite Er. unfold tracker_Update. rewrite E. simpl. by destruct err.
Qed.
End spec.

(** ** A server of both kinds *)

Record server := {
  srv_migrations : gmap string StorageVersionMigration;
  srv_states : gmap string StorageState;
}.

Inductive call :=
  | OnMigrations (o : op StorageVersionMigration)
  | OnStates (o : op StorageState).

Inductive answer :=
  | OfMigrations (r : reply StorageVersionMigration)
  | OfStates (r : reply StorageState).

Abbreviation migrations_resource := (fake_resource FakeStorageVersionMigrations).
Abbreviation states_resource := (fake_resource FakeStorageStates).

(** An event of a resource. *)
Definition change : Type := schema.GroupVersionResource * watch.Event.

Section server.
Context `{SelectorParser} `{PatcherLaws}.

Definition serve (c : call) (s : server) : option (answer * server * list change) :=
  match c with
  | OnMigrations o =>
      match spec FakeStorageVersionMigrations o (srv_migrations s) with
      | None => None
      | Some (r, m, evs) =>
          Some (OfMigrations r, {| srv_migrations := m; srv_states := srv_states s |},
                pair migrations_resource <$> evs)
      end
  | OnStates o =>
      match spec FakeStorageStates o (srv_states s) with
      | None => None
      | Some (r, m, evs) =>
          Some (OfStates r, {| srv_migrations := srv_migrations s; srv_states := m |},
                pair states_resource <$> evs)
      end
  end.

Fixpoint serve_all (cs : list call) (s : server) : option (list answer * server * list change) :=
  match cs with
  | [] => Some ([], s, [])
  | c :: cs =>
      '(a, s, evs) ← serve c s;
      '(answers, s, evs') ← serve_all cs s;
      Some (a :: answers, s, evs ++ evs')
  end.

Definition perform_call (c : call) (f : Fake) : option (answer * Fake) :=
  match c with
  | OnMigrations o => '(r, f) ← perform FakeStorageVersionMigrations o f; Some (OfMigrations r, f)
  | OnStates o => '(r, f) ← perform FakeStorageStates o f; Some (OfStates r, f)
  end.

Fixpoint perform_all (cs : list call) (f : Fake) : option (list answer * Fake) :=
  match cs with
  | [] => Some ([], f)
  | c :: cs =>
      '(a, f) ← perform_call c f;
      '(answers, f) ← perform_all cs f;
      Some (a :: answers, f)
  end.

(** What a call is recorded as: verb, resource and subresource. *)
Definition call_record (c : call) : string * schema.GroupVersionResource * string :=
  match c with
  | OnMigrations o => ((op_verb o).1, migrations_resource, (op_verb o).2)
  | OnStates o => ((op_verb o).1, states_resource, (op_verb o).2)
  end.

Definition action_record (a : Action) : string * schema.GroupVersionResource * string :=
  (GetVerb a, GetResource a, GetSubresource a).

Record represents (s : server) (t : tracker) : Prop := {
  represents_migrations : tracked FakeStorageVersionMigrations (srv_migrations s) t;
  represents_states : tracked FakeStorageStates (srv_states s) t;
}.

Lemma tracked_changed {T T'} (K : fake_kind T) (K' : fake_kind T') m evs t t' :
  fake_resource K' ≠ fake_resource K → changed K evs t t' → tracked K' m t → tracked K' m t'.
Proof. intros Hne HC. apply tracked_same. by rewrite (changed_others _ _ _ _ HC). Qed.

Lemma resources_differ : states_resource ≠ migrations_resource.
Proof. by apply (bool_decide_unpack _); vm_compute. Qed.

(** Send the changes to the watchers of their resources. *)
Definition broadcast_all (t : tracker) : list watch.Watcher → list change → list watch.Watcher :=
  foldl (λ chs '(gvr, ev), deliver (getWatches gvr "" t) chs ev).

Lemma broadcast_all_pair t gvr chs evs :
  broadcast_all t chs (pair gvr <$> evs) = foldl (deliver (getWatches gvr "" t)) chs evs.
Proof. revert chs. induction evs as [|ev evs IH]; intros chs; [done|]. simpl. apply IH. Qed.

Definition call_simulates (n : nat) (c : call) (f : Fake) (a : answer) (s' : server) (evs : list change) : Prop :=
  ∃ f' act, perform_call c f = Some (a, f') ∧ ready n f' ∧ represents s' (fake_tracker f') ∧
    watchers (fake_tracker f') = watchers (fake_tracker f) ∧
    channels (fake_tracker f') = broadcast_all (fake_tracker f) (channels (fake_tracker f)) evs ∧
    actions f' = actions f ++ [act] ∧ action_record act = call_record c.

Lemma perform_call_spec n c s f :
  ready (S n) f → represents s (fake_tracker f) →
  match serve c s with
  | None => perform_call c f = None
  | Some (a, s', evs) => call_simulates n c f a s' evs
  end.
Proof.
  intros HR [Hm Hs]. destruct c as [o|o]; simpl.
  - pose proof (perform_spec FakeStorageVersionMigrations n o _ f HR Hm) as Hp.
    destruct (spec _ o _) as [[[r m'] evs]|]; simpl; [|by rewrite Hp].
    destruct Hp as (f' & a & E & HR' & HT & HC & _ & Ha & Hv & Hr & _).
    exists f', a. simpl. rewrite E, broadcast_all_pair. split_and!; try done; try apply HC.
    + split; simpl; [done|]. by apply (tracked_changed _ _ _ _ _ _ resources_differ HC).
    + unfold action_record, call_record. by rewrite <- Hv, Hr.
  - pose proof (perform_spec FakeStorageStates n o _ f HR Hs) as Hp.
    destruct (spec _ o _) as [[[r m'] evs]|]; simpl; [|by rewrite Hp].
    destruct Hp as (f' & a & E & HR' & HT & HC & _ & Ha & Hv & Hr & _).
    exists f', a. simpl. rewrite E, broadcast_all_pair. split_and!; try done; try apply HC.
    + split; simpl; [|done]. by apply (tracked_changed _ _ _ _ _ _ (not_eq_sym resources_differ) HC).
    + unfold action_record, call_record. by rewrite <- Hv, Hr.
Qed.

Lemma broadcast_all_eq t t' chs evs :
  watchers t' = watchers t → broadcast_all t' chs evs = broadcast_all t chs evs.
Proof.
  intros Ew. revert chs. induction evs as [|[g ev] evs IH]; intros chs; [done|]. simpl.
  by rewrite (getWatches_eq _ _ _ Ew), IH.
Qed.

Definition run_simulates (cs : list call) (f : Fake) (answers : list answer) (s' : server) (evs : list change) : Prop :=
  ∃ f', perform_all cs f = Some (answers, f') ∧ ready 0 f' ∧ represents s' (fake_tracker f') ∧
    channels (fake_tracker f') = broadcast_all (fake_tracker f) (channels (fake_tracker f)) evs ∧
    action_record <$> actions f' = (action_record <$> actions f) ++ (call_record <$> cs).

Lemma perform_all_spec cs s f :
  ready (length cs) f → represents s (fake_tracker f) →
  match serve_all cs s with
  | None => perform_all cs f = None
  | Some (answers, s', evs) => run_simulates cs f answers s' evs
  end.
Proof.
  revert s f. induction cs as [|c cs IH]; intros s f HR Hrep; simpl.
  { exists f. split_and!; try done. by rewrite app_nil_r. }
  pose proof (perform_call_spec _ c s f HR Hrep) as Hc.
  destruct (serve c s) as [[[a s1] evs]|]; simpl; [|by rewrite Hc].
  destruct Hc as (f1 & act & E & HR1 & Hrep1 & Hw & Hch & Hact & Hrec). simpl in E.
  pose proof (IH s1 f1 HR1 Hrep1) as Hcs.
  destruct (serve_all cs s1) as [[[answers s2] evs2]|]; simpl; [|by rewrite E; simpl; rewrite Hcs].
  destruct Hcs as (f2 & E2 & HR2 & Hrep2 & Hch2 & Hact2).
  exists f2. simpl. rewrite E. simpl. rewrite E2. simpl. split_and!; try done.
  - rewrite Hch2, Hch, (broadcast_all_eq _ _ _ _ Hw). unfold broadcast_all. by rewrite foldl_app.
  - rewrite Hact2, Hact, fmap_app, <- app_assoc. simpl. by rewrite Hrec.
Qed.

(** ** NewSimpleClientset *)

(** The objects it is given, one by one. *)
Definition flatten (objects : list Object) : list Object :=
  objects ≫= λ o, match ExtractList o with Some items => items | None => [o] end.

Definition cluster_scoped (o : Object) : Prop :=
  match Accessor o with Ok m => metav1.Namespace m = "" | Err _ => True end.

(** Put an object on the server; only the two kinds can be, and a name is used
    once. *)
Definition put (o : Object) (s : server) : option server :=
  match o with
  | OMigration m =>
      match srv_migrations s !! svm_Name m with
      | Some _ => None
      | None => Some {| srv_migrations := <[svm_Name m := m]> (srv_migrations s); srv_states := srv_states s |}
      end
  | OState st =>
      match srv_states s !! metav1.Name (ss_Meta st) with
      | Some _ => None
      | None => Some {| srv_migrations := srv_migrations s;
                        srv_states := <[metav1.Name (ss_Meta st) := st]> (srv_states s) |}
      end
  | _ => None
  end.

Fixpoint put_all (objects : list Object) (s : server) : option server :=
  match objects with
  | [] => Some s
  | o :: objects => s ← put o s; put_all objects s
  end.

(** The tracker while it is filled. *)
Record filled (s : server) (t : tracker) : Prop := {
  filled_represents : represents s t;
  filled_scheme : tr_scheme t = the_scheme;
  filled_watchers : watchers t = ∅;
  filled_channels : channels t = [];
}.

Lemma filled_ok s t : filled s t → watchers_ok t ∧ ∀ n, room n (channels t).
Proof.
  intros [_ _ Ew Ec]. split.
  - split; intros *; unfold getWatches; rewrite Ew, !lookup_empty; [constructor|..]; by intros ?%elem_of_nil.
  - intros n. rewrite Ec. constructor.
Qed.

Lemma filled_add {T} (K : fake_kind T) `{FakeKind T K} (x : T) s t m :
  filled s t → tracked K m t → namespace_of K x = "" →
  match m !! name_of K x with
  | Some _ => ∃ e t', add_object (k_body (fk_client K) x) t = Some (Some e, t')
  | None => ∃ t' evs, add_object (k_body (fk_client K) x) t = Some (None, t') ∧
      tracked K (<[name_of K x := x]> m) t' ∧ changed K evs t t' ∧ watchers t' = ∅ ∧ channels t' = []
  end.
Proof.
  intros HF HT Hns. destruct (filled_ok _ _ HF) as [Hw Hroom]. destruct HF as [_ Hs Ew Ec].
  rewrite (add_object_body K x t Hs Hns).
  pose proof (tracked_add K m t x false HT Hw (Hroom 1)) as Ha. unfold spec_add in Ha.
  rewrite bool_decide_eq_true_2 in Ha by done. simpl in Ha.
  destruct (m !! name_of K x) as [y|]; destruct Ha as (t' & -> & HT' & HC & _); [eauto|].
  exists t', [event K watch.Added x].
  split; [done|]. split; [exact HT'|]. split; [exact HC|]. split; [by rewrite (changed_watchers _ _ _ _ HC)|].
  rewrite (changed_channels _ _ _ _ HC), Ec. done.
Qed.

Lemma add_object_put o s t :
  filled s t → cluster_scoped o → ExtractList o = None →
  match put o s with
  | Some s' => ∃ t', add_object o t = Some (None, t') ∧ filled s' t'
  | None => ∃ e t', add_object o t = Some (Some e, t')
  end.
Proof.
  intros HF Hns Hl. pose proof HF as [[Hm Hst] Hs _ _]. destruct o as [m| |st| | |ok st|]; try done; simpl; eauto.
  - pose proof (filled_add FakeStorageVersionMigrations m s t _ HF Hm Hns) as Ha. simpl in Ha.
    change (name_of FakeStorageVersionMigrations m) with (svm_Name m) in Ha.
    destruct (srv_migrations s !! svm_Name m); [done|].
    destruct Ha as (t' & evs & E & HT & HC & Ew & Ec). exists t'. split; [done|]. split; try done.
    + split; simpl; [done|]. by apply (tracked_changed _ _ _ _ _ _ resources_differ HC).
    + by rewrite (changed_scheme _ _ _ _ HC).
  - pose proof (filled_add FakeStorageStates st s t _ HF Hst Hns) as Ha. simpl in Ha.
    change (name_of FakeStorageStates st) with (metav1.Name (ss_Meta st)) in Ha.
    destruct (srv_states s !! metav1.Name (ss_Meta st)); [done|].
    destruct Ha as (t' & evs & E & HT & HC & Ew & Ec). exists t'. split; [done|]. split; try done.
    + split; simpl; [|done]. by apply (tracked_changed _ _ _ _ _ _ (not_eq_sym resources_differ) HC).
    + by rewrite (changed_scheme _ _ _ _ HC).
Qed.

Lemma add_items_put os s t :
  filled s t → Forall cluster_scoped os → Forall (λ o, ExtractList o = None) os →
  match put_all os s with
  | Some s' => ∃ t', add_items os t = Some (None, t') ∧ filled s' t'
  | None => ∃ e t', add_items os t = Some (Some e, t')
  end.
Proof.
  revert s t. induction os as [|o os IH]; intros s t HF Hns Hl; simpl; [eauto|].
  apply Forall_cons in Hns as [Hn Hns], Hl as [Hl1 Hl]. pose proof (add_object_put o s t HF Hn Hl1) as Ho.
  destruct (put o s) as [s1|]; simpl.
  - destruct Ho as (t1 & -> & HF1). simpl. by apply IH.
  - destruct Ho as (e & t1 & ->). simpl. eauto.
Qed.

Lemma put_all_app os1 os2 s : put_all (os1 ++ os2) s = put_all os1 s ≫= put_all os2.
Proof. revert s. induction os1 as [|o os1 IH]; intros s; [done|]. simpl. destruct (put o s); [apply IH|done]. Qed.

Lemma ExtractList_items o items : ExtractList o = Some items → Forall (λ o, ExtractList o = None) items.
Proof. destruct o; simpl; try done; intros [= <-]; apply Forall_fmap, Forall_true; done. Qed.

Lemma add_all_put os s t :
  filled s t → Forall cluster_scoped (flatten os) →
  match put_all (flatten os) s with
  | Some s' => ∃ t', add_all os t = Some t' ∧ filled s' t'
  | None => add_all os t = None
  end.
Proof.
  revert s t. induction os as [|o os IH]; intros s t HF Hns; simpl; [eauto|].
  unfold flatten in *. simpl in *. apply Forall_app in Hns as [Hn Hns]. rewrite put_all_app.
  assert (match put_all (match ExtractList o with Some items => items | None => [o] end) s with
          | Some s' => ∃ t', tracker_Add o t = Some (None, t') ∧ filled s' t'
          | None => ∃ e t', tracker_Add o t = Some (Some e, t')
          end) as Ho.
  { unfold tracker_Add. destruct (ExtractList o) as [items|] eqn:E.
    - apply add_items_put; [done..|]. by eapply ExtractList_items.
    - simpl. apply Forall_cons in Hn as [Hn _]. pose proof (add_object_put o s t HF Hn E) as Ho.
      by destruct (put o s). }
  destruct (put_all _ s) as [s1|]; simpl.
  - destruct Ho as (t1 & -> & HF1). simpl. by apply IH.
  - by destruct Ho as (e & t1 & ->).
Qed.

Definition empty_server : server := {| srv_migrations := ∅; srv_states := ∅ |}.

Lemma filled_empty : filled empty_server (NewObjectTracker the_scheme).
Proof.
  split; [|done..]. split; (split; simpl; [by rewrite lookup_empty|apply map_Forall_empty]).
Qed.

Lemma NewSimpleClientset_spec os :
  Forall cluster_scoped (flatten os) →
  match put_all (flatten os) empty_server with
  | Some s => ∃ f, NewSimpleClientset os = Some f ∧ represents s (fake_tracker f) ∧ (∀ n, ready n f) ∧ actions f = []
  | None => NewSimpleClientset os = None
  end.
Proof.
  intros Hns. unfold NewSimpleClientset, fake_scheme. rewrite register_init_Some. simpl.
  pose proof (add_all_put os _ _ filled_empty Hns) as Ha.
  destruct (put_all (flatten os) empty_server) as [s|]; [|by rewrite Ha].
  destruct Ha as (t & -> & HF). simpl. eexists. split; [done|].
  destruct (filled_ok _ _ HF) as [Hw Hroom]. destruct HF. split_and!; try done.
Qed.
End server.

(** ** Watches *)

(** What a client makes of the events of a watch, from the objects it listed
    before: None when an event does not fit what it has. *)
Section replay.
Context {T : Type} `{EqDecision T} (K : fake_kind T) `{HK : FakeKind T K}.

Definition apply_event (m : option (gmap string T)) (ev : watch.Event) : option (gmap string T) :=
  m ← m;
  x ← k_of (fk_client K) (watch.Event_Object ev);
  let ty := watch.Event_Type ev in
  match m !! name_of K x with
  | None => if bool_decide (ty = watch.Added) then Some (<[name_of K x := x]> m) else None
  | Some old =>
      if bool_decide (ty = watch.Modified) then Some (<[name_of K x := x]> m)
      else if bool_decide (ty = watch.Deleted) then (if bool_decide (old = x) then Some (delete (name_of K x) m) else None)
      else None
  end.

Definition replay (m : gmap string T) (evs : list watch.Event) : option (gmap string T) :=
  foldl apply_event (Some m) evs.

Definition named (m : gmap string T) : Prop := map_Forall (λ n x, name_of K x = n ∧ namespace_of K x = "") m.

Lemma spec_add_replay x b m : let '(_, m', evs) := spec_add K x b m in replay m evs = Some m'.
Proof.
  unfold spec_add. case_bool_decide; simpl; [|done].
  destruct (m !! name_of K x) eqn:E, b; simpl; try done;
    unfold replay, apply_event; simpl; rewrite of_body; simpl; by rewrite E.
Qed.

Lemma spec_replay `{SelectorParser} `{Patcher} o m r m' evs :
  named m → spec K o m = Some (r, m', evs) → replay m evs = Some m'.
Proof.
  intros Hn.
  assert (∀ x b, spec_write K x b m = (r, m', evs) → replay m evs = Some m') as Hw.
  { intros x b. unfold spec_write. pose proof (spec_add_replay x b m) as Hr.
    destruct (spec_add K x b m) as [[err m1] evs1]. by intros [= _ <- <-]. }
  destruct o as [nm|opts|x|x|x|nm uid|opts|nm pt data subs]; simpl.
  - by intros [= _ <- <-].
  - destruct (ExtractFromListOptions opts) as [[[??]?]|]; simpl; [|done]. by intros [= _ <- <-].
  - intros [= E]. by eapply Hw.
  - intros [= E]. by eapply Hw.
  - intros [= E]. by eapply Hw.
  - unfold spec_delete. destruct (m !! nm) as [x|] eqn:E; [|by intros [= _ <- <-]].
    intros [= _ <- <-]. destruct (Hn _ _ E) as [En _].
    unfold replay, apply_event. simpl. rewrite of_body. simpl. rewrite En, E. simpl. by rewrite bool_decide_eq_true_2.
  - destruct (ExtractFromListOptions opts) as [[[??]?]|]; simpl; [|done]. by intros [= _ <- <-].
  - destruct (m !! nm) as [x|]; [|by intros [= _ <- <-]].
    destruct (apply_patch pt data _) as [obj|e]; [|by intros [= _ <- <-]].
    destruct (k_of (fk_client K) obj) as [y|]; simpl; [|done]. intros [= E]. by eapply Hw.
Qed.
End replay.

(** The events of a resource among the changes. *)
Definition events_of (gvr : schema.GroupVersionResource) (evs : list change) : list watch.Event :=
  omap (λ '(g, ev), if bool_decide (g = gvr) then Some ev else None) evs.

Lemma events_of_app gvr l1 l2 : events_of gvr (l1 ++ l2) = events_of gvr l1 ++ events_of gvr l2.
Proof. apply omap_app. Qed.

Lemma events_of_same gvr (l : list watch.Event) : events_of gvr (pair gvr <$> l) = l.
Proof.
  induction l as [|ev l IH]; [done|]. unfold events_of in *. rewrite fmap_cons. csimpl.
  by rewrite bool_decide_eq_true_2, IH.
Qed.

Lemma events_of_other gvr gvr' (l : list watch.Event) : gvr' ≠ gvr → events_of gvr (pair gvr' <$> l) = [].
Proof.
  intros Hne. induction l as [|ev l IH]; [done|]. unfold events_of in *. rewrite fmap_cons. csimpl.
  by rewrite bool_decide_eq_false_2.
Qed.

(** A watcher that is not stopped gets the events of its resource, in order. *)
Lemma broadcast_all_lookup t gvr w chs evs l :
  watchers_ok t → w ∈ getWatches gvr "" t → chs !! w = Some {| watch.result := l; watch.Stopped := false |} →
  broadcast_all t chs evs !! w =
  Some {| watch.result := l ++ events_of gvr evs; watch.Stopped := false |}.
Proof.
  intros Hok Hw. revert chs l. induction evs as [|[g ev] evs IH]; intros chs l E; simpl; [by rewrite app_nil_r|].
  assert (deliver (getWatches g "" t) chs ev !! w =
    Some {| watch.result := l ++ (if bool_decide (g = gvr) then [ev] else []); watch.Stopped := false |}) as E1.
  { unfold deliver. rewrite list_lookup_imap, E. simpl. destruct (decide (g = gvr)) as [->|Hne].
    - rewrite !bool_decide_eq_true_2 by done. done.
    - rewrite (bool_decide_eq_false_2 (g = gvr)), app_nil_r by done. rewrite bool_decide_eq_false_2; [done|].
      intros Hw'. by apply Hne, (watches_apart _ Hok _ _ w). }
  rewrite (IH _ _ E1). case_bool_decide; [by rewrite <- app_assoc|by rewrite app_nil_r].
Qed.

Lemma tracker_Watch_ok gvr t w t' :
  tracker_Watch gvr "" t = (w, t') → watchers_ok t →
  watchers_ok t' ∧ w ∈ getWatches gvr "" t' ∧ channels t' = channels t ++ [watch.NewRaceFreeFake] ∧
  channels t' !! w = Some watch.NewRaceFreeFake ∧ objects t' = objects t ∧ tr_scheme t' = tr_scheme t.
Proof.
  unfold tracker_Watch. intros [= <- <-] [W1 W2 W3].
  assert (∀ g, getWatches g "" {| tr_scheme := tr_scheme t; objects := objects t;
      watchers := <[gvr:=<["":=default [] (default ∅ (watchers t !! gvr) !! "") ++ [length (channels t)]]>
                     (default ∅ (watchers t !! gvr))]> (watchers t);
      channels := channels t ++ [watch.NewRaceFreeFake] |}
    = getWatches g "" t ++ (if bool_decide (g = gvr) then [length (channels t)] else [])) as Hg.
  { intros g. unfold getWatches. simpl. destruct (decide (g = gvr)) as [->|Hne].
    - rewrite lookup_insert_eq, bool_decide_eq_true_2 by done. rewrite lookup_insert_eq. simpl.
      rewrite !app_nil_r. f_equal. destruct (watchers t !! gvr) as [ws|]; simpl; [by rewrite app_nil_r|].
      by rewrite lookup_empty.
    - rewrite lookup_insert_ne, bool_decide_eq_false_2 by done. by rewrite app_nil_r. }
  assert (∀ g w, w ∈ getWatches g "" t ++ (if bool_decide (g = gvr) then [length (channels t)] else []) →
    w ∈ getWatches g "" t ∨ w = length (channels t) ∧ g = gvr) as Hin.
  { intros g w. rewrite elem_of_app. case_bool_decide; [|by intros [?|?%elem_of_nil]; [left|]].
    rewrite list_elem_of_singleton. naive_solver. }
  split_and!; try done.
  - split.
    + intros g. rewrite Hg. case_bool_decide; [|by rewrite app_nil_r]. apply NoDup_app. split_and!; [done| |apply NoDup_singleton].
      intros x Hx. rewrite list_elem_of_singleton. intros ->. apply W2 in Hx. lia.
    + intros g w. rewrite Hg. simpl. rewrite length_app. simpl. intros [Hw|[-> _]]%Hin; [apply W2 in Hw|]; lia.
    + intros g1 g2 w. rewrite !Hg. intros [Hw1|[-> ->]]%Hin [Hw2|[E ->]]%Hin; try done; [by eapply W3|..].
      * apply W2 in Hw1. lia.
      * apply W2 in Hw2. lia.
  - rewrite Hg. apply elem_of_app. right. rewrite bool_decide_eq_true_2 by done. by left.
  - apply list_lookup_middle. done.
Qed.

Section watch.
Context `{SelectorParser} `{PatcherLaws}.

Lemma serve_replay c s a s' evs t :
  represents s t → serve c s = Some (a, s', evs) →
  replay FakeStorageVersionMigrations (srv_migrations s) (events_of migrations_resource evs) = Some (srv_migrations s') ∧
  replay FakeStorageStates (srv_states s) (events_of states_resource evs) = Some (srv_states s').
Proof.
  intros [[_ Hm] [_ Hs]]. destruct c as [o|o]; simpl.
  - destruct (spec _ o _) as [[[r m] evs']|] eqn:E; [|done]. intros [= _ <- <-]. simpl.
    rewrite events_of_same, (events_of_other states_resource) by apply (not_eq_sym resources_differ). split; [|done].
    exact (spec_replay _ o _ _ _ _ Hm E).
  - destruct (spec _ o _) as [[[r m] evs']|] eqn:E; [|done]. intros [= _ <- <-]. simpl.
    rewrite events_of_same, (events_of_other migrations_resource) by apply resources_differ. split; [done|].
    exact (spec_replay _ o _ _ _ _ Hs E).
Qed.

Lemma replay_app {T} `{EqDecision T} (K : fake_kind T) m m1 l1 l2 :
  replay K m l1 = Some m1 → replay K m (l1 ++ l2) = replay K m1 l2.
Proof. unfold replay. rewrite foldl_app. by intros ->. Qed.

Lemma serve_all_replay cs s answers s' evs f :
  ready (length cs) f → represents s (fake_tracker f) → serve_all cs s = Some (answers, s', evs) →
  replay FakeStorageVersionMigrations (srv_migrations s) (events_of migrations_resource evs) = Some (srv_migrations s') ∧
  replay FakeStorageStates (srv_states s) (events_of states_resource evs) = Some (srv_states s').
Proof.
  revert s answers s' evs f. induction cs as [|c cs IH]; intros s answers s' evs f HR Hrep; simpl.
  { by intros [= _ <- <-]. }
  pose proof (perform_call_spec _ c s f HR Hrep) as Hc.
  destruct (serve c s) as [[[a s1] evs1]|] eqn:E; simpl; [|done].
  destruct Hc as (f1 & act & _ & HR1 & Hrep1 & _).
  destruct (serve_all cs s1) as [[[answers2 s2] evs2]|] eqn:E2; simpl; [|done]. intros [= _ <- <-].
  destruct (IH _ _ _ _ _ HR1 Hrep1 E2) as [Rm Rs]. destruct (serve_replay _ _ _ _ _ _ Hrep E) as [Rm1 Rs1].
  rewrite !events_of_app, (replay_app _ _ _ _ _ Rm1), (replay_app _ _ _ _ _ Rs1). done.
Qed.

(** Opening a watch of a kind. *)
Lemma fake_Watch_spec {T} (K : fake_kind T) n opts s f r :
  ready n f → (n ≤ watch.DefaultChanSize)%nat → represents s (fake_tracker f) →
  fake_Watch K opts f = Some r →
  ∃ w f', r = (Some w, None, f') ∧ ready n f' ∧ represents s (fake_tracker f') ∧
    w ∈ getWatches (fake_resource K) "" (fake_tracker f') ∧
    channels (fake_tracker f') !! w = Some watch.NewRaceFreeFake.
Proof.
  intros [HS Hsch Hok Hroom] Hn Hrep. unfold fake_Watch, NewRootWatchAction, restrictions.
  destruct (ExtractFromListOptions opts) as [[[ls fs] rv]|]; simpl; [|done]. intros [= <-].
  unfold InvokesWatch. destruct HS as [HS1 HS2]. rewrite HS2. cbn [watch_react].
  unfold watch_Handles, resourceCovers. cbn -[tracker_Watch]. unfold watch_reaction, GetResource, GetNamespace. cbn -[tracker_Watch].
  destruct (tracker_Watch (fake_resource K) "" (fake_tracker f)) as [w t] eqn:E. cbn -[tracker_Watch].
  destruct (tracker_Watch_ok _ _ _ _ E Hok) as (Hok' & Hw & Hch & Hchw & Hobj & Hs').
  exists w, (recorded (WatchActionImpl (root_action "watch" (fake_resource K) "")
    {| restr_Labels := ls; restr_Fields := fs |} rv) t f). split; [done|]. split_and!; try done.
  - split; simpl; try done; [by rewrite Hs'|]. rewrite Hch. apply Forall_app. split; [done|].
    apply Forall_singleton. by right.
  - destruct Hrep as [Hm Hst].
    split; (eapply tracked_same; [|done]); simpl; by rewrite Hobj.
Qed.

(** What a watcher has buffered. *)
Definition received (w : nat) (f : Fake) : list watch.Event :=
  match channels (fake_tracker f) !! w with Some ch => watch.result ch | None => [] end.

Lemma watch_run {T} (K : fake_kind T) opts s f w f1 calls answers s' evs :
  ready (length calls) f → (length calls ≤ watch.DefaultChanSize)%nat → represents s (fake_tracker f) →
  fake_Watch K opts f = Some (Some w, None, f1) → serve_all calls s = Some (answers, s', evs) →
  ∃ f2, perform_all calls f1 = Some (answers, f2) ∧ received w f2 = events_of (fake_resource K) evs.
Proof.
  intros HR Hn Hrep E Es.
  destruct (fake_Watch_spec K _ _ _ _ _ HR Hn Hrep E) as (w' & f1' & [= <- <-] & HR1 & Hrep1 & Hw & Hch).
  pose proof (perform_all_spec calls s f1 HR1 Hrep1) as Hp. rewrite Es in Hp.
  destruct Hp as (f2 & E2 & _ & _ & Hch2 & _). exists f2. split; [done|].
  unfold received. rewrite Hch2.
  by rewrite (broadcast_all_lookup _ (fake_resource K) _ _ _ [] (ready_watchers _ _ HR1) Hw Hch).
Qed.
End watch.

(** ** The properties *)


(** A watch of the fake clientset misses nothing: over a clientset that
    holds the objects of [s], with at most as many calls to come as a channel
    buffers (the hundred and first unread event would be a panic), opening a
    watch and making the calls leaves in the watcher's channel exactly the
    changes the calls made to its kind, and they bring the objects a client
    listed when it opened the watch to the objects the server has at the end.
    This is the contract of list and watch the informers are built on. *)
Theorem fake_watch_replays `{SelectorParser} `{PatcherLaws} (s : server) (f : Fake) (calls : list call)
    (opts : FakeListOptions) (answers : list answer) (s' : server) (evs : list change) :
  ready (length calls) f → (length calls ≤ watch.DefaultChanSize)%nat → represents s (fake_tracker f) →
  serve_all calls s = Some (answers, s', evs) →
  (∀ r, FakeStorageVersionMigrations_Watch opts f = Some r → ∃ w f1 f2, r = (Some w, None, f1) ∧
     perform_all calls f1 = Some (answers, f2) ∧
     replay FakeStorageVersionMigrations (srv_migrations s) (received w f2) = Some (srv_migrations s')) ∧
  (∀ r, FakeStorageStates_Watch opts f = Some r → ∃ w f1 f2, r = (Some w, None, f1) ∧
     perform_all calls f1 = Some (answers, f2) ∧
     replay FakeStorageStates (srv_states s) (received w f2) = Some (srv_states s')).
Proof.
  intros HR Hn Hrep Es. destruct (serve_all_replay _ _ _ _ _ _ HR Hrep Es) as [Rm Rs].
  split; intros r E; destruct (fake_Watch_spec _ _ _ _ _ _ HR Hn Hrep E) as (w & f1 & -> & _);
    destruct (watch_run _ _ _ _ _ _ _ _ _ _ HR Hn Hrep E Es) as (f2 & E2 & Hrec); exists w, f1, f2; by rewrite Hrec.
Qed.

(** A reactor put in front of the chain answers the actions it handles, and the
    tracker keeps out of it: how tests make the fake fail. *)
Lemma PrependReactor_wins verb resource reaction f action d ret err t :
  Handles {| Reactor_Verb := verb; Reactor_Resource := resource; Reaction := reaction |} action = true →
  reaction action (fake_tracker f) = Some ((true, ret, err), t) →
  Invokes action d (PrependReactor verb resource reaction f) =
  Some (ret, err, recorded action t (PrependReactor verb resource reaction f)).
Proof. intros Hh Hr. unfold Invokes. simpl. by rewrite Hh, Hr. Qed.

(** ** Witnesses *)

(** A parser that knows the empty selector, and patches that fail. *)
Definition everything : Selector := {| Empty := true; Matches := λ _, true |}.

#[export] Instance empty_selectors : SelectorParser := {|
  labels_Parse s := if bool_decide (s = "") then Ok everything else Err (Errorf "unable to parse");
  fields_ParseSelector s := if bool_decide (s = "") then Ok everything else Err (Errorf "invalid selector");
|}.

#[export] Instance no_patches : Patcher := {|
  json_patch _ _ := Err (Errorf "no patch");
  merge_patch obj _ := Ok obj;
  strategic_merge_patch _ _ := Err (Errorf "no patch");
|}.

#[export] Instance no_patches_laws : PatcherLaws.
Proof. split. intros pt patch obj obj'. unfold apply_patch. repeat case_match; try done. by intros [= ->]. Qed.

Definition a_migration (name : string) : StorageVersionMigration :=
  {| svm_Meta := {| metav1.Name := name; metav1.GenerateName := ""; metav1.Namespace := "";
                    metav1.ResourceVersion := ""; metav1.UID := ""; metav1.Labels := ∅ |};
     svm_Spec := svm_Spec (k_new storageVersionMigrations); svm_Status := {| Conditions := [] |} |}.

Definition some_options : FakeListOptions := {| LabelSelector := ""; FieldSelector := ""; opts_ResourceVersion := "" |}.

Definition some_calls : list call :=
  [OnMigrations (OpCreate (a_migration "b")); OnMigrations (OpCreate (a_migration "a"));
   OnMigrations (OpDeleteCollection some_options); OnMigrations (OpList some_options);
   OnMigrations (OpDelete "z" ""); OnMigrations (OpDelete "b" "")].

Example some_calls_answers :
  match serve_all some_calls empty_server with
  | Some (answers, s, evs) =>
      answers = [OfMigrations (ROne (Some (a_migration "b")) None); OfMigrations (ROne (Some (a_migration "a")) None);
                 OfMigrations (RErr None); OfMigrations (RMany (Some [a_migration "a"; a_migration "b"]) None);
                 OfMigrations (RErr (Some (errNotFound migrations_resource "z"))); OfMigrations (RErr None)] ∧
      srv_migrations s = {["a" := a_migration "a"]} ∧ length evs = 3%nat
  | None => False
  end.
Proof. vm_compute. done. Qed.


Definition empty_fake : Fake :=
  default {| actions := []; ReactionChain := []; WatchReactionChain := []; fake_tracker := NewObjectTracker NewScheme |}
    (NewSimpleClientset []).

Lemma empty_fake_ready : represents empty_server (fake_tracker empty_fake) ∧ ∀ n, ready n empty_fake.
Proof.
  destruct (NewSimpleClientset_spec []) as (f & E & Hrep & HR & _); [constructor|].
  unfold empty_fake. rewrite E. split; [exact Hrep|exact HR].
Qed.

Lemma fake_watch_replays_witness :
  let r := default ([], empty_server, []) (serve_all some_calls empty_server) in
  ∀ r', FakeStorageVersionMigrations_Watch some_options empty_fake = Some r' → ∃ w f1 f2, r' = (Some w, None, f1) ∧
    perform_all some_calls f1 = Some (r.1.1, f2) ∧
    replay FakeStorageVersionMigrations ∅ (received w f2) = Some (srv_migrations r.1.2).
Proof.
  intros r. pose proof some_calls_answers as Hs. unfold r. clear r.
  destruct (serve_all some_calls empty_server) as [[[answers s'] evs]|] eqn:E; [clear Hs|destruct Hs].
  apply (fake_watch_replays empty_server empty_fake some_calls some_options answers s' evs);
    [apply empty_fake_ready|simpl; unfold watch.DefaultChanSize; lia|apply empty_fake_ready|exact E].
Defined.
