(* ===== verification/Deltas.v ===== *)
(** * The queue between watch and store: client-go/tools/cache

    store.go (the keyed cache over the indexed store) and delta_fifo.go, for
    the informer of migrations: values are the [any] of Indexer.v, and
    AnyTombstone is cache.DeletedFinalStateUnknown.  Every method holds the
    queue's lock.  The store the queue knows ([known]) is an argument of the
    operations that read it. *)
From S2P Require Export Indexer.

Local Open Scope Z_scope.
Import v1alpha1.

(** ** Keys: store.go, controller.go *)

Definition KeyError (e : error) : error := Errorf ("couldn't create key for object: " +:+ Error e).

(** meta.Accessor fails on what is not an API object. *)
Definition MetaNamespaceKeyFunc (obj : any) : res string :=
  match obj with
  | AnyMigration m =>
      Ok (if negb (bool_decide (metav1.Namespace (svm_Meta m) = ""))
          then metav1.Namespace (svm_Meta m) +:+ "/" +:+ svm_Name m else svm_Name m)
  | _ => Err (Errorf "object has no meta: object does not implement the Object interfaces")
  end.

Definition DeletionHandlingMetaNamespaceKeyFunc (obj : any) : res string :=
  match obj with
  | AnyTombstone key _ => Ok key
  | _ => MetaNamespaceKeyFunc obj
  end.

(** cache of store.go, whose keyFunc is DeletionHandlingMetaNamespaceKeyFunc;
    an outer None is a panic of an index function. *)
Module cache.
Section cache.
Context `{MapOrder}.
Abbreviation cache := (threadSafeMap any).

Definition Add (obj : any) (c : cache) : option (option error * cache) :=
  match DeletionHandlingMetaNamespaceKeyFunc obj with
  | Err e => Some (Some (KeyError e), c)
  | Ok key => c ← Store.Add key obj c; Some (None, c)
  end.

Definition Update (obj : any) (c : cache) : option (option error * cache) :=
  match DeletionHandlingMetaNamespaceKeyFunc obj with
  | Err e => Some (Some (KeyError e), c)
  | Ok key => c ← Store.Update key obj c; Some (None, c)
  end.

Definition Delete (obj : any) (c : cache) : option (option error * cache) :=
  match DeletionHandlingMetaNamespaceKeyFunc obj with
  | Err e => Some (Some (KeyError e), c)
  | Ok key => c ← Store.Delete key c; Some (None, c)
  end.

(** The item, and whether it exists. *)
Definition GetByKey (key : string) (c : cache) : option any := Store.Get key c.

Definition Get (obj : any) (c : cache) : res (option any) :=
  match DeletionHandlingMetaNamespaceKeyFunc obj with
  | Err e => Err (KeyError e)
  | Ok key => Ok (GetByKey key c)
  end.
End cache.
End cache.

(** ** delta_fifo.go *)

Inductive DeltaType := Added | Updated | Deleted | Replaced | Sync.

#[global] Instance DeltaType_eq_dec : EqDecision DeltaType.
Proof. solve_decision. Defined.

Record Delta := { Delta_Type : DeltaType; Delta_Object : any }.

Abbreviation Deltas := (list Delta).

Definition Newest (d : Deltas) : option Delta := last d.

Definition TransformFunc := any → res any.

Record DeltaFIFO := {
  fifo_items : gmap string Deltas;
  queue : list string;
  populated : bool;
  initialPopulationCount : Z;
  closed : bool;
  emitDeltaTypeReplaced : bool;
  transformer : option TransformFunc;
}.

(** keyFunc is MetaNamespaceKeyFunc, the default. *)
Definition NewDeltaFIFOWithOptions (emitReplaced : bool) (transform : option TransformFunc) : DeltaFIFO :=
  {| fifo_items := ∅; queue := []; populated := false; initialPopulationCount := 0; closed := false;
     emitDeltaTypeReplaced := emitReplaced; transformer := transform |}.

Definition KeyOf (obj : any) : res string :=
  match obj with
  | AnyTombstone key _ => Ok key
  | _ => MetaNamespaceKeyFunc obj
  end.

(** KeyOf of Deltas. *)
Definition KeyOf_Deltas (d : Deltas) : res string :=
  match Newest d with
  | None => Err (KeyError (Errorf "0 length Deltas object; can't get key"))
  | Some n => KeyOf (Delta_Object n)
  end.

Definition hasSynced_locked (f : DeltaFIFO) : bool := populated f && (initialPopulationCount f =? 0).
Definition HasSynced := hasSynced_locked.

Definition with_items (items : gmap string Deltas) (q : list string) (f : DeltaFIFO) : DeltaFIFO :=
  {| fifo_items := items; queue := q; populated := populated f;
     initialPopulationCount := initialPopulationCount f; closed := closed f;
     emitDeltaTypeReplaced := emitDeltaTypeReplaced f; transformer := transformer f |}.

Definition with_populated (p : bool) (count : Z) (f : DeltaFIFO) : DeltaFIFO :=
  {| fifo_items := fifo_items f; queue := queue f; populated := p; initialPopulationCount := count;
     closed := closed f; emitDeltaTypeReplaced := emitDeltaTypeReplaced f; transformer := transformer f |}.

Definition Close (f : DeltaFIFO) : DeltaFIFO :=
  {| fifo_items := fifo_items f; queue := queue f; populated := populated f;
     initialPopulationCount := initialPopulationCount f; closed := true;
     emitDeltaTypeReplaced := emitDeltaTypeReplaced f; transformer := transformer f |}.

(** [a] is the newer one. *)
Definition isDeletionDup (a b : Delta) : option Delta :=
  if bool_decide (Delta_Type b ≠ Deleted) || bool_decide (Delta_Type a ≠ Deleted) then None
  else match Delta_Object b with
       | AnyTombstone _ _ => Some a
       | _ => Some b
       end.

Definition isDup (a b : Delta) : option Delta := isDeletionDup a b.

(** The last two of a slice are at its end. *)
Fixpoint dedupDeltas (deltas : Deltas) : Deltas :=
  match deltas with
  | [] => []
  | [d] => [d]
  | [b; a] => match isDup a b with Some out => [out] | None => [b; a] end
  | d :: ds => d :: dedupDeltas ds
  end.

Definition queueActionLocked (actionType : DeltaType) (obj : any) (f : DeltaFIFO) : option error * DeltaFIFO :=
  match KeyOf obj with
  | Err e => (Some (KeyError e), f)
  | Ok id =>
      match match transformer f with None => Ok obj | Some t => t obj end with
      | Err e => (Some e, f)
      | Ok obj =>
          let oldDeltas := fifo_items f !! id in
          let newDeltas := dedupDeltas (default [] oldDeltas ++
                             [{| Delta_Type := actionType; Delta_Object := obj |}]) in
          match newDeltas, oldDeltas with
          | [], None => (None, f)
          | [], Some _ => (Some (Errorf "Impossible dedupDeltas; broke DeltaFIFO invariant by storing empty Deltas"),
                           with_items (<[id := []]> (fifo_items f)) (queue f) f)
          | _, _ =>
              (None, with_items (<[id := newDeltas]> (fifo_items f))
                       (match oldDeltas with None => queue f ++ [id] | Some _ => queue f end) f)
          end
      end
  end.

Definition Add (obj : any) (f : DeltaFIFO) : option error * DeltaFIFO :=
  queueActionLocked Added obj (with_populated true (initialPopulationCount f) f).

Definition Update (obj : any) (f : DeltaFIFO) : option error * DeltaFIFO :=
  queueActionLocked Updated obj (with_populated true (initialPopulationCount f) f).

Definition Delete (known : option (threadSafeMap any)) (obj : any) (f : DeltaFIFO) : option error * DeltaFIFO :=
  match KeyOf obj with
  | Err e => (Some (KeyError e), f)
  | Ok id =>
      let f := with_populated true (initialPopulationCount f) f in
      match known with
      | None =>
          match fifo_items f !! id with
          | None => (None, f)
          | Some _ => queueActionLocked Deleted obj f
          end
      | Some c =>
          match cache.GetByKey id c, fifo_items f !! id with
          | None, None => (None, f)
          | _, _ => queueActionLocked Deleted obj f
          end
      end
  end.

Definition addIfNotPresent (id : string) (deltas : Deltas) (f : DeltaFIFO) : DeltaFIFO :=
  let f := with_populated true (initialPopulationCount f) f in
  match fifo_items f !! id with
  | Some _ => f
  | None => with_items (<[id := deltas]> (fifo_items f)) (queue f ++ [id]) f
  end.

Definition AddIfNotPresent (deltas : Deltas) (f : DeltaFIFO) : option error * DeltaFIFO :=
  match KeyOf_Deltas deltas with
  | Err e => (Some (KeyError e), f)
  | Ok id => (None, addIfNotPresent id deltas f)
  end.

Definition ListKeys (f : DeltaFIFO) : list string := queue f.

Definition GetByKey (key : string) (f : DeltaFIFO) : option Deltas := fifo_items f !! key.

(** ** Pop *)

Inductive popped :=
  | PopWaits                (* cond.Wait *)
  | PopClosed               (* ErrFIFOClosed *)
  | Popped (id : string) (item : Deltas) (isInInitialList : bool) (f : DeltaFIFO).

(** The loop of Pop up to the call of process; an id without an item is
    dropped. *)
Fixpoint pop_from (q : list string) (f : DeltaFIFO) : popped :=
  match q with
  | [] => if closed f then PopClosed else PopWaits
  | id :: q =>
      let isInInitialList := negb (hasSynced_locked f) in
      let f := with_items (fifo_items f) q f in
      let f := if 0 <? initialPopulationCount f
               then with_populated (populated f) (initialPopulationCount f - 1) f else f in
      match fifo_items f !! id with
      | None => pop_from q f
      | Some item => Popped id item isInInitialList (with_items (delete id (fifo_items f)) (queue f) f)
      end
  end.

Definition pop_next (f : DeltaFIFO) : popped := pop_from (queue f) f.

(** ** Replace and Resync *)

Section replace.
Context `{MapOrder}.

(** The loop of Replace over the list. *)
Fixpoint replace_list (action : DeltaType) (list : list any) (keys : gset string) (f : DeltaFIFO) :
    option error * gset string * DeltaFIFO :=
  match list with
  | [] => (None, keys, f)
  | item :: list =>
      match KeyOf item with
      | Err e => (Some (KeyError e), keys, f)
      | Ok key =>
          let keys := {[key]} ∪ keys in
          match queueActionLocked action item f with
          | (Some e, f) => (Some (Errorf ("couldn't enqueue object: " +:+ Error e)), keys, f)
          | (None, f) => replace_list action list keys f
          end
      end
  end.

(** The object of a deletion found by the relist. *)
Definition deleted_object (oldItem : Deltas) : any :=
  match Newest oldItem with
  | None => AnyNil
  | Some n => match Delta_Object n with AnyTombstone _ obj => obj | obj => obj end
  end.

(** The loop over f.items; [ks] are the keys in the order the map is visited. *)
Fixpoint delete_queued (ks : list string) (keys : gset string) (queuedDeletions : Z) (f : DeltaFIFO) :
    option error * Z * DeltaFIFO :=
  match ks with
  | [] => (None, queuedDeletions, f)
  | k :: ks =>
      if bool_decide (k ∈ keys) then delete_queued ks keys queuedDeletions f
      else match fifo_items f !! k with
           | None => delete_queued ks keys queuedDeletions f
           | Some oldItem =>
               match queueActionLocked Deleted (AnyTombstone k (deleted_object oldItem)) f with
               | (Some e, f) => (Some e, queuedDeletions + 1, f)
               | (None, f) => delete_queued ks keys (queuedDeletions + 1) f
               end
           end
  end.

(** The loop over the known objects. *)
Fixpoint delete_known (known : threadSafeMap any) (knownKeys : list string) (keys : gset string)
    (queuedDeletions : Z) (f : DeltaFIFO) : option error * Z * DeltaFIFO :=
  match knownKeys with
  | [] => (None, queuedDeletions, f)
  | k :: knownKeys =>
      if bool_decide (k ∈ keys) then delete_known known knownKeys keys queuedDeletions f
      else if (0 <? length (default [] (fifo_items f !! k)))%nat
      then delete_known known knownKeys keys queuedDeletions f
      else
        let deletedObj := default AnyNil (cache.GetByKey k known) in
        match queueActionLocked Deleted (AnyTombstone k deletedObj) f with
        | (Some e, f) => (Some e, queuedDeletions + 1, f)
        | (None, f) => delete_known known knownKeys keys (queuedDeletions + 1) f
        end
  end.

Definition Replace (known : option (threadSafeMap any)) (list : list any) (f : DeltaFIFO) : option error * DeltaFIFO :=
  let action := if emitDeltaTypeReplaced f then Replaced else Sync in
  let '(err, keys, f) := replace_list action list ∅ f in
  match err with
  | Some e => (Some e, f)
  | None =>
      let '(err, queuedDeletions, f) := delete_queued (range (dom (fifo_items f))) keys 0 f in
      match err with
      | Some e => (Some e, f)
      | None =>
          let '(err, queuedDeletions, f) :=
            match known with
            | None => (None, queuedDeletions, f)
            | Some c => delete_known c (Store.ListKeys c) keys queuedDeletions f
            end in
          match err with
          | Some e => (Some e, f)
          | None =>
              (None, if populated f then f
                     else with_populated true (Z.of_nat (size keys) + queuedDeletions) f)
          end
      end
  end.

Definition syncKeyLocked (known : threadSafeMap any) (key : string) (f : DeltaFIFO) : option error * DeltaFIFO :=
  match cache.GetByKey key known with
  | None => (None, f)
  | Some obj =>
      match KeyOf obj with
      | Err e => (Some (KeyError e), f)
      | Ok id =>
          if (0 <? length (default [] (fifo_items f !! id)))%nat then (None, f)
          else match queueActionLocked Sync obj f with
               | (Some e, f) => (Some (Errorf ("couldn't queue object: " +:+ Error e)), f)
               | (None, f) => (None, f)
               end
      end
  end.

Fixpoint sync_keys (known : threadSafeMap any) (keys : list string) (f : DeltaFIFO) : option error * DeltaFIFO :=
  match keys with
  | [] => (None, f)
  | k :: keys =>
      match syncKeyLocked known k f with
      | (Some e, f) => (Some e, f)
      | (None, f) => sync_keys known keys f
      end
  end.

Definition Resync (known : option (threadSafeMap any)) (f : DeltaFIFO) : option error * DeltaFIFO :=
  match known with
  | None => (None, f)
  | Some c => sync_keys c (Store.ListKeys c) f
  end.
End replace.
