(* ===== verification/DeltasProps.v ===== *)
(** * Theorems about the queue of deltas

    The queue is a view of the world ahead of the store: reading the newest
    delta of every queued key over the store gives what the reflector last
    said.  [view] is that reading; every operation is specified by what it does
    to it. *)
From S2P Require Export Deltas.

Local Open Scope Z_scope.
Import v1alpha1.

Lemma if_bool_decide_ext {A} (P Q : Prop) `{Decision P, Decision Q} (x y : A) :
  (P ↔ Q) → (if bool_decide P then x else y) = (if bool_decide Q then x else y).
Proof. intros E. by rewrite (bool_decide_ext P Q). Qed.

Lemma if_same {A} (b : bool) (x : A) : (if b then x else x) = x.
Proof. by destruct b. Qed.

(** The key of a migration, whatever its namespace. *)
Definition mkey (m : StorageVersionMigration) : string :=
  if negb (bool_decide (metav1.Namespace (svm_Meta m) = ""))
  then metav1.Namespace (svm_Meta m) +:+ "/" +:+ svm_Name m else svm_Name m.

Lemma KeyOf_migration m : KeyOf (AnyMigration m) = Ok (mkey m).
Proof. done. Qed.

(** ** Deltas of one key *)

(** What a delta of key [k] may carry. *)
Definition good_delta (k : string) (d : Delta) : Prop :=
  ∃ m, mkey m = k ∧
    (Delta_Object d = AnyMigration m ∨ Delta_Type d = Deleted ∧ Delta_Object d = AnyTombstone k (AnyMigration m)).

(** The deltas of a key make sense one after the other: only what is there is
    deleted. *)
Fixpoint legal (present : bool) (ds : Deltas) : Prop :=
  match ds with
  | [] => True
  | d :: ds => (Delta_Type d = Deleted → present = true) ∧ legal (bool_decide (Delta_Type d ≠ Deleted)) ds
  end.

Fixpoint present_after (present : bool) (ds : Deltas) : bool :=
  match ds with
  | [] => present
  | d :: ds => present_after (bool_decide (Delta_Type d ≠ Deleted)) ds
  end.

Lemma legal_app p ds1 ds2 : legal p (ds1 ++ ds2) ↔ legal p ds1 ∧ legal (present_after p ds1) ds2.
Proof. revert p. induction ds1 as [|d ds1 IH]; intros p; simpl; [naive_solver|]. rewrite IH. tauto. Qed.

Lemma present_after_snoc p ds d : present_after p (ds ++ [d]) = bool_decide (Delta_Type d ≠ Deleted).
Proof. revert p. induction ds as [|d' ds IH]; intros p; simpl; auto. Qed.

Lemma dedupDeltas_snoc ds b a :
  dedupDeltas (ds ++ [b; a]) = ds ++ (match isDup a b with Some out => [out] | None => [b; a] end).
Proof.
  induction ds as [|d [|d' ds] IH]; [done|done|]. simpl in *. rewrite <- IH. by destruct ds.
Qed.

(** What the newest delta says of the object. *)
Definition said (d : Delta) : option any :=
  if bool_decide (Delta_Type d = Deleted) then None else Some (Delta_Object d).

Lemma dedupDeltas_push p k ds d :
  Forall (good_delta k) ds → good_delta k d → legal p ds → (Delta_Type d = Deleted → ds ≠ [] ∨ p = true) →
  ∃ ds' d', dedupDeltas (ds ++ [d]) = ds' ++ [d'] ∧ Forall (good_delta k) (ds' ++ [d']) ∧
    legal p (ds' ++ [d']) ∧ said d' = said d.
Proof.
  intros Hds Hd Hl Hp. destruct ds as [|b ds _] using rev_ind.
  { exists [], d. simpl. split_and!; [done|by constructor| |done|done]. intros E. by destruct (Hp E). }
  rewrite <- app_assoc. simpl. rewrite dedupDeltas_snoc.
  apply Forall_app in Hds as [Hds Hb]. pose proof Hb as Hb1. apply Forall_cons in Hb1 as [Hb1 _]. apply legal_app in Hl as [Hl Hlb].
  unfold isDup, isDeletionDup.
  destruct (decide (Delta_Type b = Deleted)) as [Eb|Nb], (decide (Delta_Type d = Deleted)) as [Ed|Nd].
  - rewrite !bool_decide_eq_false_2 by tauto. simpl.
    assert (∃ out, match Delta_Object b with AnyTombstone _ _ => Some d | _ => Some b end = Some out ∧
              (out = d ∨ out = b)) as (out & -> & Hout) by (destruct (Delta_Object b); eauto).
    exists ds, out. split; [done|].
    assert (Delta_Type out = Deleted ∧ good_delta k out) as [Eo Ho] by (destruct Hout as [-> | ->]; done).
    split_and!.
    + apply Forall_app. split; [done|by constructor].
    + apply legal_app. split; [done|]. simpl in *. split; [|done]. intros _. by apply Hlb.
    + unfold said. by rewrite Eo, Ed.
  - rewrite (bool_decide_eq_true_2 (Delta_Type d ≠ Deleted)), orb_true_r by done.
    exists (ds ++ [b]), d. rewrite <- app_assoc. simpl. split_and!; [done|..|done].
    + apply Forall_app. split; [done|by repeat constructor].
    + apply legal_app. split; [done|]. simpl in *. split_and!; [apply Hlb| |done]. done.
  - rewrite bool_decide_eq_true_2 by done. simpl.
    exists (ds ++ [b]), d. rewrite <- app_assoc. simpl. split_and!; [done|..|done].
    + apply Forall_app. split; [done|by repeat constructor].
    + apply legal_app. split; [done|]. simpl in *. split_and!; [apply Hlb| |done]. by rewrite bool_decide_eq_true_2.
  - rewrite bool_decide_eq_true_2 by done. simpl.
    exists (ds ++ [b]), d. rewrite <- app_assoc. simpl. split_and!; [done|..|done].
    + apply Forall_app. split; [done|by repeat constructor].
    + apply legal_app. split; [done|]. simpl in *. split_and!; [apply Hlb| |done]. done.
Qed.

(** ** The queue over a store *)

(** The items of the store are migrations under their keys. *)
Definition good_items (K : gmap string any) : Prop := map_Forall (λ k o, ∃ m, o = AnyMigration m ∧ mkey m = k) K.

Definition present (K : gmap string any) (k : string) : bool := bool_decide (is_Some (K !! k)).

Record fifo_ok (K : gmap string any) (f : DeltaFIFO) : Prop := {
  fo_NoDup : NoDup (queue f);
  fo_queue : ∀ k, k ∈ queue f ↔ is_Some (fifo_items f !! k);
  fo_items : ∀ k ds, fifo_items f !! k = Some ds → ds ≠ [] ∧ Forall (good_delta k) ds ∧ legal (present K k) ds;
  fo_transformer : transformer f = None;
}.

Definition view (K : gmap string any) (f : DeltaFIFO) (k : string) : option any :=
  match fifo_items f !! k with
  | None => K !! k
  | Some ds => Newest ds ≫= said
  end.

(** The store [K] and the queue [f] together say [seen]. *)
Record represents (K : gmap string any) (f : DeltaFIFO) (seen : gmap string any) : Prop := {
  rp_ok : fifo_ok K f;
  rp_good : good_items K;
  rp_view : ∀ k, view K f k = seen !! k;
}.

Lemma view_good K f seen k o : represents K f seen → seen !! k = Some o → ∃ m, o = AnyMigration m ∧ mkey m = k.
Proof.
  intros [Hok Hg Hv] E. rewrite <- Hv in E. unfold view in E. destruct (fifo_items f !! k) as [ds|] eqn:Ei.
  - destruct (fo_items _ _ Hok _ _ Ei) as (_ & Hds & _). unfold Newest, said in E.
    apply option.bind_Some in E as (d & Hlast & Hd). case_bool_decide; [done|]. injection Hd as <-.
    apply last_Some_elem_of in Hlast. rewrite Forall_forall in Hds.
    destruct (Hds d Hlast) as (m & Hk & [-> |[? _]]); [eauto|done].
  - by apply Hg in E.
Qed.

Lemma fifo_ok_populated K f p n : fifo_ok K f → fifo_ok K (with_populated p n f).
Proof. by intros []. Qed.

Lemma view_populated K f p n k : view K (with_populated p n f) k = view K f k.
Proof. done. Qed.

Lemma represents_populated K f seen p n : represents K f seen → represents K (with_populated p n f) seen.
Proof. intros [Hok Hg Hv]. split; [by apply fifo_ok_populated|done..]. Qed.

(** Queueing a delta of the key [k]. *)
Lemma queueActionLocked_spec K f ty obj k :
  fifo_ok K f → KeyOf obj = Ok k → good_delta k {| Delta_Type := ty; Delta_Object := obj |} →
  (ty = Deleted → is_Some (fifo_items f !! k) ∨ is_Some (K !! k)) →
  ∃ f', queueActionLocked ty obj f = (None, f') ∧ fifo_ok K f' ∧
    (∀ k', view K f' k' = if bool_decide (k' = k) then (if bool_decide (ty = Deleted) then None else Some obj)
                          else view K f k') ∧
    queue f' = (match fifo_items f !! k with None => queue f ++ [k] | Some _ => queue f end) ∧
    (∀ k', is_Some (fifo_items f' !! k') ↔ k' = k ∨ is_Some (fifo_items f !! k')) ∧
    populated f' = populated f ∧ initialPopulationCount f' = initialPopulationCount f ∧
    emitDeltaTypeReplaced f' = emitDeltaTypeReplaced f ∧ closed f' = closed f.
Proof.
  intros [HN HQ HI HT] Hk Hd Hdel. unfold queueActionLocked. rewrite Hk, HT.
  set (old := default [] (fifo_items f !! k)).
  assert (Forall (good_delta k) old ∧ legal (present K k) old) as [Hold Hl].
  { unfold old. destruct (fifo_items f !! k) eqn:E; [|by split; [constructor|]]. by apply HI in E as (_ & ? & ?). }
  destruct (dedupDeltas_push (present K k) k old _ Hold Hd Hl) as (ds & d & -> & Hds & Hlds & Hsaid).
  { intros E. simpl in E. destruct (Hdel E) as [[x Hx]|Hx]; [|by right; apply bool_decide_eq_true_2].
    left. unfold old. rewrite Hx. by apply HI in Hx as [? _]. }
  assert (match ds ++ [d], fifo_items f !! k with
          | [], None => (None, f)
          | [], Some _ => (Some (Errorf "Impossible dedupDeltas; broke DeltaFIFO invariant by storing empty Deltas"),
                           with_items (<[k := []]> (fifo_items f)) (queue f) f)
          | _, _ => (None, with_items (<[k := ds ++ [d]]> (fifo_items f))
                       (match fifo_items f !! k with None => queue f ++ [k] | Some _ => queue f end) f)
          end = (None, with_items (<[k := ds ++ [d]]> (fifo_items f))
                         (match fifo_items f !! k with None => queue f ++ [k] | Some _ => queue f end) f)) as ->.
  { by destruct ds. }
  eexists. split; [done|]. split_and!; try done.
  - split; simpl; [..|done].
    + destruct (fifo_items f !! k) eqn:E; [done|]. apply NoDup_app. split_and!; [done| |apply NoDup_singleton].
      intros x Hx. rewrite list_elem_of_singleton. intros ->. apply HQ in Hx. rewrite E in Hx. by destruct Hx.
    + intros k'. rewrite lookup_insert. destruct (fifo_items f !! k) eqn:E; case_decide; subst.
      * split; [by eauto|]. intros _. apply HQ. by eauto.
      * apply HQ.
      * rewrite elem_of_app, list_elem_of_singleton. naive_solver.
      * rewrite elem_of_app, list_elem_of_singleton, HQ. naive_solver.
    + intros k' ds'. rewrite lookup_insert. case_decide; [|apply HI]. subst. intros [= <-].
      split_and!; [by destruct ds|done..].
  - intros k'. unfold view. simpl. rewrite lookup_insert. case_decide; subst.
    + rewrite bool_decide_eq_true_2 by done. unfold Newest. rewrite last_snoc. simpl. by rewrite Hsaid.
    + by rewrite bool_decide_eq_false_2.
  - intros k'. simpl. rewrite lookup_insert. case_decide; naive_solver.
Qed.

Lemma prefix_queued (f f' : DeltaFIFO) (o : option Deltas) k :
  queue f' = match o with None => queue f ++ [k] | Some _ => queue f end → queue f `prefix_of` queue f'.
Proof. intros ->. destruct o; [done|by apply prefix_app_r]. Qed.

(** What an operation other than Pop leaves alone: it queues behind. *)
Record grows (f f' : DeltaFIFO) : Prop := {
  gr_queue : queue f `prefix_of` queue f';
  gr_count : populated f = true → initialPopulationCount f' = initialPopulationCount f;
  gr_populated : populated f = true → populated f' = true;
  gr_closed : closed f' = closed f;
}.

#[export] Instance grows_preorder : PreOrder grows.
Proof.
  split; [done|]. intros f1 f2 f3 [Hq1 Hc1 Hp1 Hl1] [Hq2 Hc2 Hp2 Hl2].
  split; [by etrans|intros E; rewrite Hc2, Hc1; auto|auto|congruence].
Qed.

Lemma grows_queued f f' (o : option Deltas) k :
  queue f' = match o with None => queue f ++ [k] | Some _ => queue f end → populated f' = populated f →
  initialPopulationCount f' = initialPopulationCount f → closed f' = closed f → grows f f'.
Proof. intros Hq Hp Hc Hl. split; [by eapply prefix_queued|congruence..]. Qed.

Lemma grows_populated f : grows f (with_populated true (initialPopulationCount f) f).
Proof. done. Qed.

(** ** Add, Update and Delete *)

Section ops.
Context `{MapOrder}.
Implicit Types (c : threadSafeMap any) (m : StorageVersionMigration).

Lemma good_migration ty m : good_delta (mkey m) {| Delta_Type := ty; Delta_Object := AnyMigration m |}.
Proof. exists m. auto. Qed.

Lemma queue_migration_spec K f seen ty m :
  represents K f seen → ty ≠ Deleted →
  ∃ f', queueActionLocked ty (AnyMigration m) (with_populated true (initialPopulationCount f) f) = (None, f') ∧
    represents K f' (<[mkey m := AnyMigration m]> seen) ∧ grows f f'.
Proof.
  intros [Hok Hg Hv] Hty.
  destruct (queueActionLocked_spec K (with_populated true (initialPopulationCount f) f) ty (AnyMigration m) (mkey m))
    as (f' & E & Hok' & Hv' & Hq & _ & Hp & Hc & _ & Hcl);
    [by apply fifo_ok_populated|done|apply good_migration|done|].
  exists f'. split; [done|]. split; [|by etrans; [apply grows_populated|eapply grows_queued]].
  split; [done..|]. intros k. rewrite Hv', lookup_insert.
  rewrite (bool_decide_eq_false_2 (ty = Deleted)) by done.
  destruct (decide (mkey m = k)) as [<-|].
  - by rewrite bool_decide_eq_true_2.
  - rewrite bool_decide_eq_false_2 by done. apply Hv.
Qed.

Lemma Add_spec K f seen m :
  represents K f seen →
  ∃ f', Add (AnyMigration m) f = (None, f') ∧ represents K f' (<[mkey m := AnyMigration m]> seen) ∧
    grows f f'.
Proof. intros HR. by apply queue_migration_spec. Qed.

Lemma Update_spec K f seen m :
  represents K f seen →
  ∃ f', Update (AnyMigration m) f = (None, f') ∧ represents K f' (<[mkey m := AnyMigration m]> seen) ∧
    grows f f'.
Proof. intros HR. by apply queue_migration_spec. Qed.

Lemma Delete_spec c f seen m :
  represents (items c) f seen →
  ∃ f', Delete (Some c) (AnyMigration m) f = (None, f') ∧ represents (items c) f' (delete (mkey m) seen) ∧
    grows f f'.
Proof.
  intros [Hok Hg Hv]. unfold Delete. rewrite KeyOf_migration. simpl.
  destruct (decide (is_Some (fifo_items f !! mkey m) ∨ is_Some (items c !! mkey m))) as [Hex|Hno].
  - destruct (queueActionLocked_spec (items c) (with_populated true (initialPopulationCount f) f) Deleted
      (AnyMigration m) (mkey m)) as (f' & E & Hok' & Hv' & Hq & _ & Hp & Hc & _ & Hcl);
      [by apply fifo_ok_populated|done|apply good_migration|done|].
    exists f'. split; [|split; [|by etrans; [apply grows_populated|eapply grows_queued]]].
    + rewrite <- E. unfold cache.GetByKey, Get.
      destruct (items c !! mkey m); [done|]. destruct (fifo_items f !! mkey m); [done|].
      by destruct Hex as [[? ?]|[? ?]].
    + split; [done..|]. intros k. rewrite Hv'. rewrite (bool_decide_eq_true_2 (Deleted = Deleted)) by done.
      destruct (decide (k = mkey m)) as [->|].
      * by rewrite bool_decide_eq_true_2, lookup_delete_eq.
      * rewrite bool_decide_eq_false_2, lookup_delete_ne by done. apply Hv.
  - unfold cache.GetByKey, Get.
    assert (items c !! mkey m = None) as Ec by (apply eq_None_not_Some; naive_solver).
    assert (fifo_items f !! mkey m = None) as Ef by (apply eq_None_not_Some; naive_solver).
    rewrite Ec, Ef. eexists. split; [done|]. split; [|done]. split; [by apply fifo_ok_populated|done|].
    intros k. rewrite view_populated, Hv. destruct (decide (mkey m = k)) as [<-|].
    + rewrite lookup_delete_eq, <- Hv. unfold view. by rewrite Ef.
    + by rewrite lookup_delete_ne.
Qed.

(** ** Replace *)

(** The objects of a list by key, the last one of a key in force. *)
Definition of_list (ms : list StorageVersionMigration) (seen : gmap string any) : gmap string any :=
  foldl (λ seen m, <[mkey m := AnyMigration m]> seen) seen ms.

Definition keys_of_list (ms : list StorageVersionMigration) : gset string := list_to_set (mkey <$> ms).

Lemma replace_list_spec K f seen ty ms keys :
  represents K f seen → ty ≠ Deleted →
  ∃ f', replace_list ty (AnyMigration <$> ms) keys f = (None, keys_of_list ms ∪ keys, f') ∧
    represents K f' (of_list ms seen) ∧
    (∀ k, is_Some (fifo_items f' !! k) ↔ k ∈ keys_of_list ms ∨ is_Some (fifo_items f !! k)) ∧
    grows f f' ∧ populated f' = populated f ∧ initialPopulationCount f' = initialPopulationCount f ∧
    emitDeltaTypeReplaced f' = emitDeltaTypeReplaced f ∧ closed f' = closed f.
Proof.
  intros HR Hty. revert f seen keys HR. induction ms as [|m ms IH]; intros f seen keys HR.
  { exists f. change (keys_of_list []) with (∅ : gset string). rewrite (left_id_L ∅ (∪)).
    split_and!; try done. intros k. set_solver. }
  destruct HR as [Hok Hg Hv].
  destruct (queueActionLocked_spec K f ty (AnyMigration m) (mkey m))
    as (f1 & E1 & Hok1 & Hv1 & Hq1 & Hi1 & Hp1 & Hc1 & He1 & Hcl1); [done|done|apply good_migration|done|].
  assert (represents K f1 (<[mkey m := AnyMigration m]> seen)) as HR1.
  { split; [done..|]. intros k. rewrite Hv1, lookup_insert, (bool_decide_eq_false_2 (ty = Deleted)) by done.
    destruct (decide (mkey m = k)) as [<-|]; [by rewrite bool_decide_eq_true_2|].
    rewrite bool_decide_eq_false_2 by done. apply Hv. }
  destruct (IH f1 _ ({[mkey m]} ∪ keys) HR1) as (f2 & E2 & HR2 & Hi2 & Hg2 & Hp2 & Hc2 & He2 & Hcl2).
  exists f2. split.
  - rewrite fmap_cons. cbn [replace_list]. rewrite KeyOf_migration, E1, E2. do 2 f_equal.
    unfold keys_of_list. rewrite fmap_cons. set_solver.
  - split; [done|]. split; [|split_and!; [by etrans; [eapply grows_queued|]|congruence..]].
    intros k. rewrite Hi2, Hi1. unfold keys_of_list. rewrite fmap_cons. simpl. set_solver.
Qed.

Lemma deleted_object_good k ds :
  ds ≠ [] → Forall (good_delta k) ds → ∃ m, deleted_object ds = AnyMigration m ∧ mkey m = k.
Proof.
  intros Hne Hds. destruct ds as [|d ds _] using rev_ind; [done|]. unfold deleted_object, Newest. rewrite last_snoc.
  apply Forall_app in Hds as [_ [(m & Hk & Ho) _]%Forall_cons].
  destruct Ho as [-> |[_ ->]]; eauto.
Qed.

Lemma tombstone_good k obj :
  (∃ m, obj = AnyMigration m ∧ mkey m = k) →
  good_delta k {| Delta_Type := Deleted; Delta_Object := AnyTombstone k obj |}.
Proof. intros (m & -> & Hk). exists m. simpl. auto. Qed.

Lemma delete_queued_spec K f ks keys n :
  fifo_ok K f →
  ∃ n' f', delete_queued ks keys n f = (None, n', f') ∧ fifo_ok K f' ∧
    (∀ k, view K f' k = if bool_decide (k ∈ ks ∧ k ∉ keys ∧ is_Some (fifo_items f !! k)) then None else view K f k) ∧
    (∀ k, is_Some (fifo_items f' !! k) ↔ is_Some (fifo_items f !! k)) ∧
    (Forall (.∈ keys) ks → f' = f ∧ n' = n) ∧
    grows f f' ∧ populated f' = populated f ∧ initialPopulationCount f' = initialPopulationCount f ∧ closed f' = closed f.
Proof.
  revert f n. induction ks as [|k ks IH]; intros f n Hok; simpl.
  { exists n, f. by split_and!. }
  case_bool_decide as Hk.
  { destruct (IH f n Hok) as (n' & f' & E & Hok' & Hv & Hi & Hnone & Hgr & Hp & Hc & Hcl). exists n', f'. split_and!; try done.
    - intros k'. rewrite Hv. apply if_bool_decide_ext. set_solver.
    - intros [_ HF]%Forall_cons. by apply Hnone. }
  destruct (fifo_items f !! k) as [ds|] eqn:Ek.
  - destruct (fo_items _ _ Hok _ _ Ek) as (Hne & Hds & _).
    destruct (queueActionLocked_spec K f Deleted (AnyTombstone k (deleted_object ds)) k)
      as (f1 & E1 & Hok1 & Hv1 & Hq1 & Hi1 & Hp1 & Hc1 & _ & Hcl1);
      [done|done|by apply tombstone_good, deleted_object_good|by rewrite Ek; eauto|].
    rewrite E1. destruct (IH f1 (n + 1) Hok1) as (n' & f' & E & Hok' & Hv & Hi & _ & Hgr & Hp & Hc & Hcl).
    exists n', f'. split_and!; try done; try congruence.
    + intros k'. rewrite Hv, Hv1. rewrite (bool_decide_eq_true_2 (Deleted = Deleted)) by done.
      destruct (decide (k' = k)) as [->|Hne'].
      * rewrite (bool_decide_eq_true_2 (k = k)) by done.
        transitivity (None (A:=any)); [apply if_same|]. symmetry.
        rewrite bool_decide_eq_true_2; [done|]. split_and!; [by left|done|by eauto].
      * rewrite (bool_decide_eq_false_2 (k' = k)) by done. apply if_bool_decide_ext.
        rewrite Hi1. set_solver.
    + intros k'. rewrite Hi, Hi1. split; [intros [->|?]; [by eauto|done]|by right].
    + by intros [? _]%Forall_cons.
    + by etrans; [eapply grows_queued|].
  - destruct (IH f n Hok) as (n' & f' & E & Hok' & Hv & Hi & Hnone & Hgr & Hp & Hc & Hcl). exists n', f'. split_and!; try done.
    + intros k'. rewrite Hv. apply if_bool_decide_ext.
      destruct (decide (k' = k)) as [->|]; [|set_solver]. rewrite Ek. split; intros (_ & _ & [? [=]]).
    + by intros [? _]%Forall_cons.
Qed.

Lemma length_items K f k :
  fifo_ok K f → (0 <? length (default [] (fifo_items f !! k)))%nat = true ↔ is_Some (fifo_items f !! k).
Proof.
  intros Hok. rewrite Nat.ltb_lt. destruct (fifo_items f !! k) as [ds|] eqn:E; simpl.
  - apply (fo_items _ _ Hok) in E as [Hne _]. destruct ds; [done|]. simpl. split; [by eauto|lia].
  - split; [lia|by intros []].
Qed.

Lemma delete_known_spec c f ks keys n :
  fifo_ok (items c) f → good_items (items c) → Forall (λ k, is_Some (items c !! k)) ks →
  ∃ n' f', delete_known c ks keys n f = (None, n', f') ∧ fifo_ok (items c) f' ∧
    (∀ k, view (items c) f' k =
       if bool_decide (k ∈ ks ∧ k ∉ keys ∧ fifo_items f !! k = None) then None else view (items c) f k) ∧
    n' = n + Z.of_nat (length (queue f')) - Z.of_nat (length (queue f)) ∧
    grows f f' ∧ populated f' = populated f ∧ initialPopulationCount f' = initialPopulationCount f ∧ closed f' = closed f.
Proof.
  intros Hok Hg HF. revert f n Hok. induction HF as [|k ks Hk _ IH]; intros f n Hok; simpl.
  { exists n, f. split_and!; try done. lia. }
  case_bool_decide as Hin.
  { destruct (IH f n Hok) as (n' & f' & E & Hok' & Hv & Hr). exists n', f'. split_and!; try done; try apply Hr.
    intros k'. rewrite Hv. apply if_bool_decide_ext. set_solver. }
  destruct (0 <? length (default [] (fifo_items f !! k)))%nat eqn:El.
  { apply (length_items (items c)) in El; [|done].
    destruct (IH f n Hok) as (n' & f' & E & Hok' & Hv & Hr). exists n', f'. split_and!; try done; try apply Hr.
    intros k'. rewrite Hv. apply if_bool_decide_ext.
    destruct (decide (k' = k)) as [->|]; [|set_solver]. destruct El as [? ->]. split; intros (_ & _ & [=]). }
  assert (fifo_items f !! k = None) as Ek.
  { apply eq_None_not_Some. intros Hs. by apply (length_items (items c)) in Hs; [congruence|]. }
  destruct Hk as [o Ho]. unfold cache.GetByKey, Get. rewrite Ho. simpl.
  destruct (queueActionLocked_spec (items c) f Deleted (AnyTombstone k o) k)
    as (f1 & E1 & Hok1 & Hv1 & Hq1 & Hi1 & Hp1 & Hc1 & _ & Hcl1);
    [done|done|by apply tombstone_good, Hg|by rewrite Ho; eauto|].
  rewrite E1. rewrite Ek in Hq1. destruct (IH f1 (n + 1) Hok1) as (n' & f' & E & Hok' & Hv & Hn & Hgr & Hp & Hc & Hcl).
  exists n', f'. split_and!; try done; try congruence.
  - intros k'. rewrite Hv, Hv1, (bool_decide_eq_true_2 (Deleted = Deleted)) by done.
    destruct (decide (k' = k)) as [->|Hne'].
    + rewrite (bool_decide_eq_true_2 (k = k)) by done.
      transitivity (None (A:=any)); [apply if_same|]. symmetry.
      rewrite bool_decide_eq_true_2; [done|]. split_and!; [by left|done|done].
    + rewrite (bool_decide_eq_false_2 (k' = k)) by done. apply if_bool_decide_ext.
      rewrite !eq_None_not_Some, Hi1. set_solver.
  - rewrite Hn, Hq1, length_app. simpl. lia.
  - etrans; [|exact Hgr]. by eapply (grows_queued _ _ None).
Qed.

Lemma of_list_lookup ms seen k :
  of_list ms seen !! k = if bool_decide (k ∈ keys_of_list ms) then of_list ms ∅ !! k else seen !! k.
Proof.
  revert seen. induction ms as [|m ms IH] using rev_ind; intros seen.
  { change (keys_of_list []) with (∅ : gset string). rewrite bool_decide_eq_false_2; [done|set_solver]. }
  unfold of_list, keys_of_list in *. rewrite !foldl_app, fmap_app. simpl. rewrite !lookup_insert.
  destruct (decide (mkey m = k)) as [Hk|Hk]; [by rewrite bool_decide_eq_true_2 by set_solver|]. rewrite (IH seen), (IH ∅), lookup_empty.
  rewrite list_to_set_app_L. simpl.
  destruct (decide (k ∈ (list_to_set (mkey <$> ms) : gset string))) as [Hin|Hin].
  - rewrite !bool_decide_eq_true_2 by set_solver. done.
  - by rewrite !bool_decide_eq_false_2 by set_solver.
Qed.

Lemma queue_size K f : fifo_ok K f → length (queue f) = size (dom (fifo_items f)).
Proof.
  intros [HN HQ _ _]. rewrite <- (size_list_to_set (C:=gset string)) by done. f_equal.
  apply set_eq. intros k. by rewrite elem_of_list_to_set, HQ, elem_of_dom.
Qed.

(** A relist: afterwards the queue and the store say the list. *)
Lemma Replace_spec c f seen ms :
  represents (items c) f seen →
  ∃ f', Replace (Some c) (AnyMigration <$> ms) f = (None, f') ∧ represents (items c) f' (of_list ms ∅) ∧
    populated f' = true ∧ grows f f' ∧
    (populated f = false → queue f = [] → initialPopulationCount f' = Z.of_nat (length (queue f'))).
Proof.
  intros HR. unfold Replace.
  assert ((if emitDeltaTypeReplaced f then Replaced else Sync) ≠ Deleted) as Hty by by destruct (emitDeltaTypeReplaced f).
  destruct (replace_list_spec _ _ _ _ ms ∅ HR Hty) as (f1 & -> & [Hok1 Hg Hv1] & Hi1 & Hg1 & Hp1 & Hc1 & He1 & Hcl1).
  rewrite (right_id_L ∅ (∪)).
  destruct (delete_queued_spec (items c) f1 (range (dom (fifo_items f1))) (keys_of_list ms) 0 Hok1)
    as (n2 & f2 & -> & Hok2 & Hv2 & Hi2 & Hnone2 & Hg2 & Hp2 & Hc2 & Hcl2).
  destruct (delete_known_spec c f2 (Store.ListKeys c) (keys_of_list ms) n2)
    as (n3 & f3 & -> & Hok3 & Hv3 & Hn3 & Hg3 & Hp3 & Hc3 & Hcl3); [done..| |].
  { apply Forall_forall. intros k. unfold Store.ListKeys. rewrite elem_of_range. by intros ?%elem_of_dom. }
  assert (represents (items c) f3 (of_list ms ∅)) as HR3.
  { split; [done..|]. intros k. rewrite Hv3, Hv2, Hv1.
    rewrite (of_list_lookup ms seen). destruct (decide (k ∈ keys_of_list ms)) as [Hk|Hk].
    - rewrite (bool_decide_eq_true_2 (k ∈ keys_of_list ms)) by done.
      rewrite !bool_decide_eq_false_2 by tauto. done.
    - assert (of_list ms ∅ !! k = None) as ->
        by by rewrite of_list_lookup, bool_decide_eq_false_2, lookup_empty.
      rewrite (bool_decide_eq_false_2 (k ∈ keys_of_list ms)) by done.
      case_bool_decide as H3; [done|]. case_bool_decide as H2; [done|].
      rewrite elem_of_range, elem_of_dom in H2.
      assert (fifo_items f1 !! k = None) as E1 by (apply eq_None_not_Some; tauto).
      assert (fifo_items f2 !! k = None) as E2 by (apply eq_None_not_Some; rewrite Hi2, E1; by intros []).
      unfold Store.ListKeys in H3. rewrite elem_of_range in H3.
      assert (items c !! k = None) as Ek by (apply not_elem_of_dom; tauto).
      specialize (Hv1 k). rewrite (of_list_lookup ms seen), (bool_decide_eq_false_2 (k ∈ keys_of_list ms)) in Hv1 by done.
      rewrite <- Hv1. unfold view. by rewrite E1, Ek. }
  assert (grows f f3) as Hgr by by do 2 (etrans; [eassumption|]).
  eexists. split; [done|]. destruct (populated f3) eqn:Ep.
  - split_and!; [exact HR3|done|done|intros E; congruence].
  - split_and!; [by apply represents_populated|done| |].
    { destruct Hgr. split; [done|intros E; congruence|done|done]. }
    intros _ Hq. simpl. destruct HR as [Hok _ _].
    assert (Forall (.∈ keys_of_list ms) (range (dom (fifo_items f1)))) as HF.
    { apply Forall_forall. intros k. rewrite elem_of_range, elem_of_dom, Hi1. intros [?|Hx]; [done|].
      apply (fo_queue _ _ Hok) in Hx. rewrite Hq in Hx. by apply elem_of_nil in Hx. }
    destruct (Hnone2 HF) as [-> ->].
    assert (length (queue f1) = size (keys_of_list ms)) as Hs.
    { rewrite (queue_size _ _ Hok1). f_equal. apply set_eq. intros k. rewrite elem_of_dom, Hi1.
      split; [|by left]. intros [?|Hx]; [done|].
      apply (fo_queue _ _ Hok) in Hx. rewrite Hq in Hx. by apply elem_of_nil in Hx. }
    lia.
Qed.

(** A resync says nothing new. *)
Lemma sync_keys_spec c f seen ks :
  represents (items c) f seen →
  ∃ f', sync_keys c ks f = (None, f') ∧ represents (items c) f' seen ∧
    grows f f' ∧ populated f' = populated f.
Proof.
  revert f. induction ks as [|k ks IH]; intros f HR; simpl.
  { by exists f. }
  unfold syncKeyLocked, cache.GetByKey, Get.
  destruct (items c !! k) as [o|] eqn:Eo; [|by apply IH].
  pose proof HR as [Hok Hg Hv]. destruct (Hg _ _ Eo) as (m & -> & <-). rewrite KeyOf_migration.
  destruct (0 <? length (default [] (fifo_items f !! mkey m)))%nat eqn:El; [by apply IH|].
  assert (fifo_items f !! mkey m = None) as Ek.
  { apply eq_None_not_Some. intros Hs. by apply (length_items (items c)) in Hs; [congruence|]. }
  destruct (queueActionLocked_spec (items c) f Sync (AnyMigration m) (mkey m))
    as (f1 & E1 & Hok1 & Hv1 & Hq1 & _ & Hp1 & Hc1 & _ & Hcl1); [done|done|apply good_migration|done|].
  rewrite E1. rewrite Ek in Hq1. destruct (IH f1) as (f2 & E2 & HR2 & Hg2 & Hp2).
  { split; [done..|]. intros k. rewrite Hv1, (bool_decide_eq_false_2 (Sync = Deleted)) by done.
    destruct (decide (k = mkey m)) as [->|Hk].
    - rewrite bool_decide_eq_true_2, <- Hv by done. unfold view. by rewrite Ek, Eo.
    - rewrite bool_decide_eq_false_2 by done. apply Hv. }
  exists f2. split_and!; try done; [|congruence]. etrans; [|exact Hg2]. by eapply (grows_queued _ _ None).
Qed.
End ops.

(** ** Pop *)

Lemma pop_next_spec K f id q :
  fifo_ok K f → queue f = id :: q →
  ∃ ds f', fifo_items f !! id = Some ds ∧ pop_next f = Popped id ds (negb (HasSynced f)) f' ∧
    queue f' = q ∧ fifo_items f' = delete id (fifo_items f) ∧ populated f' = populated f ∧
    initialPopulationCount f' = (if 0 <? initialPopulationCount f then initialPopulationCount f - 1
                                 else initialPopulationCount f) ∧
    closed f' = closed f ∧ transformer f' = transformer f.
Proof.
  intros [_ HQ _ _] Hq. assert (is_Some (fifo_items f !! id)) as [ds E] by (apply HQ; rewrite Hq; by left).
  exists ds. unfold pop_next. rewrite Hq. simpl.
  destruct (0 <? initialPopulationCount f); simpl; rewrite E; eexists; by split_and!.
Qed.

Lemma pop_waits K f : fifo_ok K f → closed f = false → queue f = [] → pop_next f = PopWaits.
Proof. intros _ Hc Hq. unfold pop_next. rewrite Hq. simpl. by rewrite Hc. Qed.

(** What was popped moves to the store. *)
Lemma pop_represents K K' f f' seen id q ds :
  represents K f seen → good_items K' → queue f = id :: q → fifo_items f !! id = Some ds →
  queue f' = q → fifo_items f' = delete id (fifo_items f) → transformer f' = transformer f →
  K' !! id = Newest ds ≫= said → (∀ k, k ≠ id → K' !! k = K !! k) →
  represents K' f' seen.
Proof.
  intros [[HN HQ HI HT] Hg Hv] Hg' Hq Hds Hq' Hi Ht Hid Hother. rewrite Hq in HN. apply NoDup_cons in HN as [Hnin HN].
  split; [split|done|].
  - by rewrite Hq'.
  - intros k. rewrite Hq', Hi, lookup_delete. case_decide as Hk; [subst; by split; [|intros []]|].
    rewrite <- HQ, Hq. set_solver.
  - intros k ds'. rewrite Hi, lookup_delete. case_decide as Hk; [done|]. intros E. unfold present.
    rewrite Hother by done. by apply HI.
  - by rewrite Ht.
  - intros k. rewrite <- Hv. unfold view. rewrite Hi, lookup_delete. case_decide as Hk.
    + subst k. by rewrite Hds, Hid.
    + destruct (fifo_items f !! k); [done|]. by apply Hother.
Qed.
