(* ===== verification/Ring.v ===== *)
(** * The buffer of a listener: k8s.io/utils/buffer/ring_growing.go

    A ring over an array that doubles when it is full, and that it is an
    unbounded first-in first-out queue.  An array is a list of cells, empty
    (nil) or not; [None] is an index out of range. *)
From S2P Require Export Prelude.

Section ring.
Context {A : Type}.

Record RingGrowing := {
  data : list (option A);
  n : nat;
  beg : nat;
  readable : nat;
}.

Definition NewRingGrowing (initialSize : nat) : RingGrowing :=
  {| data := replicate initialSize None; n := initialSize; beg := 0; readable := 0 |}.

(** The element read, if any. *)
Definition ReadOne (r : RingGrowing) : option (option A * RingGrowing) :=
  if bool_decide (readable r = 0) then Some (None, r)
  else
    element ← data r !! beg r;
    Some (element,
          {| data := <[beg r := None]> (data r); n := n r;
             beg := if bool_decide (beg r = n r - 1) then 0 else S (beg r); readable := readable r - 1 |}).

(** The array of twice the size with the readable elements in front: the two
    calls of copy. *)
Definition grow (r : RingGrowing) : RingGrowing :=
  let newN := n r * 2 in
  let to := beg r + readable r in
  let copied := if bool_decide (to ≤ n r) then take (to - beg r) (drop (beg r) (data r))
                else drop (beg r) (data r) ++ take (to mod n r) (data r) in
  {| data := take newN copied ++ replicate (newN - length copied) None; n := newN; beg := 0;
     readable := readable r |}.

Definition WriteOne (x : A) (r : RingGrowing) : option RingGrowing :=
  let r := if bool_decide (readable r = n r) then grow r else r in
  if bool_decide (n r = 0) then None
  else Some {| data := <[(readable r + beg r) mod n r := Some x]> (data r); n := n r; beg := beg r;
               readable := S (readable r) |}.

(** ** The queue it is *)

Record ring_ok (r : RingGrowing) (l : list A) : Prop := {
  ro_length : length (data r) = n r;
  ro_pos : 0 < n r;
  ro_beg : beg r < n r;
  ro_readable : readable r = length l;
  ro_fits : length l ≤ n r;
  ro_data : ∀ i x, l !! i = Some x → data r !! ((beg r + i) mod n r) = Some (Some x);
}.

Lemma NewRingGrowing_ok size : 0 < size → ring_ok (NewRingGrowing size) [].
Proof. intros Hs. split; simpl; [by rewrite length_replicate|lia..|done|lia|done]. Qed.

Lemma mod_wrap i m : m ≤ i → i < 2 * m → i mod m = i - m.
Proof. intros H1 H2. symmetry. apply (Nat.mod_unique _ _ 1); lia. Qed.

Lemma ReadOne_nil r : ring_ok r [] → ReadOne r = Some (None, r).
Proof. intros [_ _ _ Hr _ _]. unfold ReadOne. by rewrite bool_decide_eq_true_2. Qed.

Lemma ReadOne_cons r x l : ring_ok r (x :: l) → ∃ r', ReadOne r = Some (Some x, r') ∧ ring_ok r' l.
Proof.
  intros [Hlen Hpos Hbeg Hr Hfit Hd]. unfold ReadOne. simpl in *. rewrite bool_decide_eq_false_2 by lia.
  pose proof (Hd 0 x eq_refl) as H0. rewrite Nat.add_0_r, Nat.mod_small in H0 by done. rewrite H0. simpl.
  eexists. split; [done|]. split; simpl; [by rewrite length_insert|done|case_bool_decide; lia|lia|lia|].
  intros i y Hi. pose proof (Hd (S i) y Hi) as Hy. apply lookup_lt_Some in Hi.
  assert (((if bool_decide (beg r = n r - 1) then 0 else S (beg r)) + i) mod n r = (beg r + S i) mod n r) as ->.
  { case_bool_decide as Eb; [|f_equal; lia]. rewrite Eb, (mod_wrap (n r - 1 + S i)) by lia.
    rewrite Nat.mod_small; lia. }
  rewrite list_lookup_insert_ne; [done|].
  destruct (decide (beg r + S i < n r)); [rewrite Nat.mod_small|rewrite mod_wrap]; lia.
Qed.

Lemma grow_ok r l : ring_ok r l → length l = n r → ring_ok (grow r) l ∧ n (grow r) = 2 * n r.
Proof.
  intros [Hlen Hpos Hbeg Hr Hfit Hd] Hfull. split; [|unfold grow; simpl; lia]. unfold grow. cbv zeta.
  set (copied := if bool_decide (beg r + readable r ≤ n r) then _ else _).
  assert (∀ i, i < n r → copied !! i = data r !! ((beg r + i) mod n r)) as Hc.
  { intros i Hi. unfold copied. case_bool_decide as Hto.
    - rewrite lookup_take_lt by lia. rewrite lookup_drop, Nat.mod_small by lia. done.
    - destruct (decide (beg r + i < n r)).
      + rewrite lookup_app_l by (rewrite length_drop; lia). rewrite lookup_drop, Nat.mod_small by lia. done.
      + rewrite lookup_app_r by (rewrite length_drop; lia). rewrite length_drop.
        rewrite (mod_wrap (beg r + readable r)), (mod_wrap (beg r + i)) by lia.
        rewrite lookup_take_lt by lia. f_equal. lia. }
  assert (length copied = n r) as Hcl.
  { unfold copied. case_bool_decide as Hto; [rewrite length_take, length_drop; lia|].
    rewrite length_app, length_drop, length_take, mod_wrap by lia. lia. }
  split; simpl; try lia.
  - rewrite length_app, length_take, length_replicate. lia.
  - intros i x Hi. rewrite Nat.mod_small by (apply lookup_lt_Some in Hi; lia).
    rewrite take_ge by lia. rewrite lookup_app_l by (apply lookup_lt_Some in Hi; lia).
    rewrite Hc by (apply lookup_lt_Some in Hi; lia). by apply Hd.
Qed.

Lemma WriteOne_ok r l x : ring_ok r l → ∃ r', WriteOne x r = Some r' ∧ ring_ok r' (l ++ [x]).
Proof.
  intros Hok. unfold WriteOne.
  assert (∃ r1, (if bool_decide (readable r = n r) then grow r else r) = r1 ∧ ring_ok r1 l ∧ length l < n r1)
    as (r1 & -> & [Hlen Hpos Hbeg Hr Hfit Hd] & Hroom).
  { eexists. split; [done|]. pose proof (ro_readable _ _ Hok) as Hr. pose proof (ro_pos _ _ Hok).
    case_bool_decide as Hf.
    - destruct (grow_ok r l Hok) as [? ->]; [congruence|]. split; [done|]. lia.
    - split; [done|]. pose proof (ro_fits _ _ Hok). lia. }
  rewrite bool_decide_eq_false_2 by lia. eexists. split; [done|].
  split; simpl; [by rewrite length_insert|done|done|rewrite length_app; simpl; lia|rewrite length_app; simpl; lia|].
  intros i y [Hi|[Hge Hi]]%lookup_app_Some.
  - rewrite list_lookup_insert_ne; [by apply Hd|]. apply lookup_lt_Some in Hi. rewrite Hr.
    destruct (decide (length l + beg r1 < n r1)), (decide (beg r1 + i < n r1));
      rewrite ?(Nat.mod_small (length l + beg r1)), ?(Nat.mod_small (beg r1 + i)),
        ?(mod_wrap (length l + beg r1)), ?(mod_wrap (beg r1 + i)) by lia; lia.
  - apply list_lookup_singleton_Some in Hi as [Hi ->]. rewrite Hr. replace (beg r1 + i) with (length l + beg r1) by lia.
    rewrite list_lookup_insert_eq; [done|]. rewrite Hlen. apply Nat.mod_upper_bound. lia.
Qed.
End ring.

Arguments RingGrowing : clear implicits.
