(* ===== verification/Informer.v ===== *)
(** * Inside a shared informer: client-go/tools/cache

    shared_informer.go, controller.go, reflector.go, delta by delta, for the
    informer of migrations: the reflector lists and watches into the queue of
    Deltas.v, the controller pops the queue into the indexed store of Store.v
    and tells the listeners, and every listener buffers in the ring of Ring.v
    what its handler has not seen yet.  [step] interleaves them.  What the list
    and watch calls answer is arbitrary.  [None] is a panic. *)
From S2P Require Import Tracker.
From S2P Require Export Deltas Ring.

Local Open Scope Z_scope.
Import v1alpha1.

(** meta.Accessor on what the informer handles. *)
Definition any_Accessor (obj : any) : res metav1.ObjectMeta :=
  match obj with
  | AnyMigration m => Ok (svm_Meta m)
  | _ => Err (Errorf "object does not implement the Object interfaces")
  end.

Inductive notification :=
  | updateNotification (oldObj newObj : any)
  | addNotification (newObj : any) (isInInitialList : bool)
  | deleteNotification (oldObj : any).

Definition isInitial (n : notification) : bool :=
  match n with addNotification _ true => true | _ => false end.

(** ** processorListener

    [notified] is the local variable of pop, [running] the notification run
    has received and its handler has not returned from, [called] what the
    handler has returned from, in order; [count] is that of synctrack's
    SingleFileTracker. *)
Record processorListener := {
  notified : option notification;
  pendingNotifications : RingGrowing notification;
  running : option notification;
  called : list notification;
  count : Z;
  requestedResyncPeriod : Duration;
  resyncPeriod : Duration;
  nextResync : Time;
}.

Definition initialBufferSize : nat := 1024.

Definition newProcessListener (requested resync : Duration) (now : Time) (bufferSize : nat) : processorListener :=
  {| notified := None; pendingNotifications := NewRingGrowing bufferSize; running := None; called := [];
     count := 0; requestedResyncPeriod := requested; resyncPeriod := resync; nextResync := now + resync |}.

Definition with_pending (n : option notification) (ring : RingGrowing notification) (l : processorListener) :
    processorListener :=
  {| notified := n; pendingNotifications := ring; running := running l; called := called l; count := count l;
     requestedResyncPeriod := requestedResyncPeriod l; resyncPeriod := resyncPeriod l;
     nextResync := nextResync l |}.

Definition with_running (r : option notification) (c : list notification) (n : Z) (l : processorListener) :
    processorListener :=
  {| notified := notified l; pendingNotifications := pendingNotifications l; running := r; called := c;
     count := n; requestedResyncPeriod := requestedResyncPeriod l; resyncPeriod := resyncPeriod l;
     nextResync := nextResync l |}.

Definition with_resync (period : Duration) (next : Time) (l : processorListener) : processorListener :=
  {| notified := notified l; pendingNotifications := pendingNotifications l; running := running l;
     called := called l; count := count l; requestedResyncPeriod := requestedResyncPeriod l;
     resyncPeriod := period; nextResync := next |}.

(** add, and the receive of pop it waits for. *)
Definition listener_add (n : notification) (l : processorListener) : option processorListener :=
  let l := if isInitial n then with_running (running l) (called l) (count l + 1) l else l in
  match notified l with
  | None => Some (with_pending (Some n) (pendingNotifications l) l)
  | Some _ => ring ← WriteOne n (pendingNotifications l); Some (with_pending (notified l) ring l)
  end.

(** The send of pop: run takes the notification. *)
Definition listener_dispatch (l : processorListener) : option processorListener :=
  match notified l with
  | None => Some l
  | Some n =>
      match ReadOne (pendingNotifications l) with
      | None => None
      | Some (next, ring) => Some (with_running (Some n) (called l) (count l) (with_pending next ring l))
      end
  end.

(** The handler returns; Finished panics on a negative count. *)
Definition listener_handle (l : processorListener) : option processorListener :=
  match running l with
  | None => Some l
  | Some n =>
      if isInitial n then
        if count l - 1 <? 0 then None
        else Some (with_running None (called l ++ [n]) (count l - 1) l)
      else Some (with_running None (called l ++ [n]) (count l) l)
  end.

Definition listener_shouldResync (now : Time) (l : processorListener) : bool :=
  if resyncPeriod l =? 0 then false else nextResync l <=? now.

Definition determineNextResync (now : Time) (l : processorListener) : processorListener :=
  with_resync (resyncPeriod l) (now + resyncPeriod l) l.

Definition setResyncPeriod (period : Duration) (l : processorListener) : processorListener :=
  with_resync period (nextResync l) l.

(** ** sharedProcessor

    The map from listeners to whether they are syncing, in the order they were
    added: no listener sees the others. *)
Record sharedProcessor := { listenersStarted : bool; listeners : list (processorListener * bool) }.

Definition addListener (l : processorListener) (p : sharedProcessor) : sharedProcessor :=
  {| listenersStarted := listenersStarted p; listeners := listeners p ++ [(l, true)] |}.

Definition distribute_one (n : notification) (sync : bool) (ls : processorListener * bool) :
    option (processorListener * bool) :=
  let '(l, isSyncing) := ls in
  if negb sync || isSyncing then l ← listener_add n l; Some (l, isSyncing) else Some (l, isSyncing).

Definition distribute (n : notification) (sync : bool) (p : sharedProcessor) : option sharedProcessor :=
  ls ← mapM (distribute_one n sync) (listeners p);
  Some {| listenersStarted := listenersStarted p; listeners := ls |}.

Definition shouldResync (now : Time) (p : sharedProcessor) : bool * sharedProcessor :=
  let ls := (λ '(l, _), let b := listener_shouldResync now l in
                        (if b then determineNextResync now l else l, b)) <$> listeners p in
  (existsb snd ls, {| listenersStarted := listenersStarted p; listeners := ls |}).

Definition determineResyncPeriod (desired check : Duration) : Duration :=
  if desired =? 0 then desired
  else if check =? 0 then 0
  else if desired <? check then check else desired.

Definition resyncCheckPeriodChanged (check : Duration) (p : sharedProcessor) : sharedProcessor :=
  {| listenersStarted := listenersStarted p;
     listeners := (λ '(l, b), (setResyncPeriod (determineResyncPeriod (requestedResyncPeriod l) check) l, b))
                    <$> listeners p |}.

(** ** controller.go *)

(** The interface ResourceEventHandler, over what the handler changes. *)
Class ResourceEventHandler (P : Type) := {
  OnAdd : any → bool → P → option P;
  OnUpdate : any → any → P → option P;
  OnDelete : any → P → option P;
}.

(** OnAdd, OnUpdate and OnDelete of sharedIndexInformer; the mutation detector
    is off by default. *)
Definition isSync (old new : any) : bool :=
  match any_Accessor new, any_Accessor old with
  | Ok accessor, Ok oldAccessor =>
      bool_decide (metav1.ResourceVersion accessor = metav1.ResourceVersion oldAccessor)
  | _, _ => false
  end.

#[export] Instance informer_handler : ResourceEventHandler sharedProcessor := {|
  OnAdd obj isInInitialList := distribute (addNotification obj isInInitialList) false;
  OnUpdate old new := distribute (updateNotification old new) (isSync old new);
  OnDelete old := distribute (deleteNotification old) false;
|}.

Section controller.
Context `{MapOrder} {P : Type} `{ResourceEventHandler P}.

Definition processDelta (isInInitialList : bool) (d : Delta) (c : threadSafeMap any) (p : P) :
    option (option error * threadSafeMap any * P) :=
  let obj := Delta_Object d in
  match Delta_Type d with
  | Sync | Replaced | Added | Updated =>
      match cache.Get obj c with
      | Ok (Some old) =>
          '(err, c) ← cache.Update obj c;
          match err with
          | Some e => Some (Some e, c, p)
          | None => p ← OnUpdate old obj p; Some (None, c, p)
          end
      | _ =>
          '(err, c) ← cache.Add obj c;
          match err with
          | Some e => Some (Some e, c, p)
          | None => p ← OnAdd obj isInInitialList p; Some (None, c, p)
          end
      end
  | Deleted =>
      '(err, c) ← cache.Delete obj c;
      match err with
      | Some e => Some (Some e, c, p)
      | None => p ← OnDelete obj p; Some (None, c, p)
      end
  end.

Fixpoint processDeltas (isInInitialList : bool) (deltas : Deltas) (c : threadSafeMap any) (p : P) :
    option (option error * threadSafeMap any * P) :=
  match deltas with
  | [] => Some (None, c, p)
  | d :: deltas =>
      match processDelta isInInitialList d c p with
      | Some (None, c, p) => processDeltas isInInitialList deltas c p
      | r => r
      end
  end.
End controller.

(** ** reflector.go *)

Record Reflector := {
  lastSyncResourceVersion : string;
  isLastSyncResourceVersionUnavailable : bool;
  reflector_resyncPeriod : Duration;
}.

Definition setLastSyncResourceVersion (rv : string) (r : Reflector) : Reflector :=
  {| lastSyncResourceVersion := rv;
     isLastSyncResourceVersionUnavailable := isLastSyncResourceVersionUnavailable r;
     reflector_resyncPeriod := reflector_resyncPeriod r |}.

Definition setIsLastSyncResourceVersionUnavailable (b : bool) (r : Reflector) : Reflector :=
  {| lastSyncResourceVersion := lastSyncResourceVersion r; isLastSyncResourceVersionUnavailable := b;
     reflector_resyncPeriod := reflector_resyncPeriod r |}.

Definition relistResourceVersion (r : Reflector) : string :=
  if isLastSyncResourceVersionUnavailable r then ""
  else if bool_decide (lastSyncResourceVersion r = "") then "0" else lastSyncResourceVersion r.

Definition StatusReasonTimeout : string := "Timeout".
Definition StatusReasonGone : string := "Gone".
Definition CauseTypeResourceVersionTooLarge : string := "ResourceVersionTooLarge".

Definition IsGone : error → bool := has_reason_or_code StatusReasonGone 410.
Definition IsTimeout : error → bool := has_reason_or_code StatusReasonTimeout 504.

(** HasStatusCause by StatusCause; a cause is its type and its message. *)
Definition HasStatusCause (e : error) (name : string) : bool :=
  match as_APIStatus e with
  | Some s => match Status_Details s with
              | Some d => existsb (λ c, bool_decide (c.1 = name)) (Details_Causes d)
              | None => false
              end
  | None => false
  end.

Definition isExpiredError (e : error) : bool := IsResourceExpired e || IsGone e.

(** The error itself must be an APIStatus here, not one it wraps. *)
Definition isTooLargeResourceVersionError (e : error) : bool :=
  if HasStatusCause e CauseTypeResourceVersionTooLarge then true
  else if negb (IsTimeout e) then false
  else match e with
       | EStatus s =>
           match Status_Details s with
           | None => false
           | Some d => existsb (λ c, bool_decide (c.2 = "Too large resource version")) (Details_Causes d)
                       || contains (Status_Message s) "Too large resource version"
           end
       | _ => false
       end.

(** fmt.Errorf with %w. *)
Definition wrap_error (msg : string) (e : error) : error :=
  EOther "*fmt.wrapError" (msg +:+ Error e) None (Some e).

(** What DefaultWatchErrorHandler passes to HandleError; [e] is compared with
    io.EOF itself, not with what it wraps. *)
Definition DefaultWatchErrorHandler (e : error) : list error :=
  if isExpiredError e then []
  else match e with
       | EEOF | EUnexpectedEOF => []
       | _ => [Errorf ("Failed to watch *v1alpha1.StorageVersionMigration: " +:+ Error e)]
       end.

(** What pager.List answers to a list at a resource version: the items of a
    StorageVersionMigrationList and the resource version of the list. *)
Definition lister : Type := string → res (list StorageVersionMigration * string).

Section reflector.
Context `{MapOrder}.

(** list: [list1] answers the first call and [list2] the retry; known are the
    objects of the queue's store.  The result is what was synced. *)
Definition list_at (list1 list2 : lister) (known : threadSafeMap any) (r : Reflector) (f : DeltaFIFO) :
    res (list StorageVersionMigration) * Reflector * DeltaFIFO :=
  let '(result, r) :=
    match list1 (relistResourceVersion r) with
    | Err e =>
        if isExpiredError e || isTooLargeResourceVersionError e then
          let r := setIsLastSyncResourceVersionUnavailable true r in (list2 (relistResourceVersion r), r)
        else (Err e, r)
    | result => (result, r)
    end in
  match result with
  | Err e => (Err (wrap_error "failed to list *v1alpha1.StorageVersionMigration: " e), r, f)
  | Ok (items, resourceVersion) =>
      let r := setIsLastSyncResourceVersionUnavailable false r in
      match Deltas.Replace (Some known) (AnyMigration <$> items) f with
      | (Some e, f) => (Err (Errorf ("unable to sync list result: " +:+ Error e)), r, f)
      | (None, f) => (Ok items, setLastSyncResourceVersion resourceVersion r, f)
      end
  end.

Record Event := { Event_Type : string; Event_Object : any }.

Definition watch_Error : string := "ERROR".
Definition Bookmark : string := "BOOKMARK".

Definition expectedType : string := "*v1alpha1.StorageVersionMigration".

(** One event of watchHandler that is not of type Error: what it reports, and
    the new resource version if it gets that far. *)
Definition watch_event (e : Event) (known : threadSafeMap any) (f : DeltaFIFO) :
    list error * option string * DeltaFIFO :=
  if negb (bool_decide (reflect_TypeOf (Event_Object e) = expectedType)) then
    ([Errorf ("expected type " +:+ expectedType +:+ ", but watch event object had type "
                +:+ reflect_TypeOf (Event_Object e))], None, f)
  else match any_Accessor (Event_Object e) with
  | Err _ => ([Errorf "unable to understand watch event"], None, f)
  | Ok meta =>
      let errors_of (what : string) (r : option error * DeltaFIFO) : list error * DeltaFIFO :=
        match r with
        | (Some err, f) => ([Errorf ("unable to " +:+ what +:+ " store: " +:+ Error err)], f)
        | (None, f) => ([], f)
        end in
      let '(errs, f) :=
        if bool_decide (Event_Type e = watch.Added)
        then errors_of "add watch event object to" (Deltas.Add (Event_Object e) f)
        else if bool_decide (Event_Type e = watch.Modified)
        then errors_of "update watch event object to" (Deltas.Update (Event_Object e) f)
        else if bool_decide (Event_Type e = watch.Deleted)
        then errors_of "delete watch event object from" (Deltas.Delete (Some known) (Event_Object e) f)
        else if bool_decide (Event_Type e = Bookmark) then ([], f)
        else ([Errorf "unable to understand watch event"], f) in
      (errs, Some (metav1.ResourceVersion meta), f)
  end.
End reflector.

(** ** sharedIndexInformer

    [phase] is where the reflector is in ListAndWatch; the queue is made by
    Run, and is what [controller] holds. *)
Inductive phase := Idle | Listing | Watching | Ended.

Record sharedIndexInformer := {
  indexer : threadSafeMap any;
  processor : sharedProcessor;
  fifo : DeltaFIFO;
  reflector : Reflector;
  reflecting : phase;
  resyncCheckPeriod : Duration;
  defaultEventHandlerResyncPeriod : Duration;
  started : bool;
  stopped : bool;
  reported : list error;
}.

Definition NewSharedIndexInformer (resync : Duration) (fs : gmap string (IndexFunc any)) : sharedIndexInformer :=
  {| indexer := NewThreadSafeStore fs ∅; processor := {| listenersStarted := false; listeners := [] |};
     fifo := NewDeltaFIFOWithOptions true None;
     reflector := {| lastSyncResourceVersion := ""; isLastSyncResourceVersionUnavailable := false;
                     reflector_resyncPeriod := 0 |};
     reflecting := Idle; resyncCheckPeriod := resync; defaultEventHandlerResyncPeriod := resync;
     started := false; stopped := false; reported := [] |}.

Definition with_processor (p : sharedProcessor) (s : sharedIndexInformer) : sharedIndexInformer :=
  {| indexer := indexer s; processor := p; fifo := fifo s; reflector := reflector s; reflecting := reflecting s;
     resyncCheckPeriod := resyncCheckPeriod s;
     defaultEventHandlerResyncPeriod := defaultEventHandlerResyncPeriod s; started := started s;
     stopped := stopped s; reported := reported s |}.

Definition with_fifo (r : Reflector) (ph : phase) (f : DeltaFIFO) (errs : list error) (s : sharedIndexInformer) :
    sharedIndexInformer :=
  {| indexer := indexer s; processor := processor s; fifo := f; reflector := r; reflecting := ph;
     resyncCheckPeriod := resyncCheckPeriod s;
     defaultEventHandlerResyncPeriod := defaultEventHandlerResyncPeriod s; started := started s;
     stopped := stopped s; reported := reported s ++ errs |}.

Definition with_popped (c : threadSafeMap any) (p : sharedProcessor) (f : DeltaFIFO) (s : sharedIndexInformer) :
    sharedIndexInformer :=
  {| indexer := c; processor := p; fifo := f; reflector := reflector s; reflecting := reflecting s;
     resyncCheckPeriod := resyncCheckPeriod s;
     defaultEventHandlerResyncPeriod := defaultEventHandlerResyncPeriod s; started := started s;
     stopped := stopped s; reported := reported s |}.

Definition with_resyncCheckPeriod (period : Duration) (s : sharedIndexInformer) : sharedIndexInformer :=
  {| indexer := indexer s; processor := resyncCheckPeriodChanged period (processor s); fifo := fifo s;
     reflector := reflector s; reflecting := reflecting s; resyncCheckPeriod := period;
     defaultEventHandlerResyncPeriod := defaultEventHandlerResyncPeriod s; started := started s;
     stopped := stopped s; reported := reported s |}.

(** HasSynced of the informer (its controller is nil before Run) and of a
    handler's registration. *)
Definition HasSynced (s : sharedIndexInformer) : bool := started s && Deltas.HasSynced (fifo s).
Definition listener_HasSynced (s : sharedIndexInformer) (l : processorListener) : bool :=
  HasSynced s && (count l <=? 0).

Definition minimumResyncPeriod : Duration := 1 * Second.

Section informer.
Context `{MapOrder}.

Fixpoint add_all (items : list any) (l : processorListener) : option processorListener :=
  match items with
  | [] => Some l
  | item :: items => l ← listener_add (addNotification item true) l; add_all items l
  end.

(** [%v] of the handler is left out of the message. *)
Definition AddEventHandlerWithResyncPeriod (period : Duration) (now : Time) (s : sharedIndexInformer) :
    option (option error * sharedIndexInformer) :=
  if stopped s then
    Some (Some (Errorf "handler was not added to shared informer because it has stopped already"), s)
  else
    let '(period, s) :=
      if 0 <? period then
        let period := Z.max period minimumResyncPeriod in
        if period <? resyncCheckPeriod s then
          if started s then (resyncCheckPeriod s, s) else (period, with_resyncCheckPeriod period s)
        else (period, s)
      else (period, s) in
    let l := newProcessListener period (determineResyncPeriod period (resyncCheckPeriod s)) now initialBufferSize in
    if negb (started s) then Some (None, with_processor (addListener l (processor s)) s)
    else l ← add_all (List_ (indexer s)) l; Some (None, with_processor (addListener l (processor s)) s).

Definition AddEventHandler (now : Time) (s : sharedIndexInformer) :=
  AddEventHandlerWithResyncPeriod (defaultEventHandlerResyncPeriod s) now s.

(** Run up to the goroutines it starts: the processor's, the reflector's and
    the loop that pops. *)
Definition Run (s : sharedIndexInformer) : sharedIndexInformer :=
  if started s then s
  else {| indexer := indexer s; processor := processor s; fifo := NewDeltaFIFOWithOptions true None;
          reflector := {| lastSyncResourceVersion := ""; isLastSyncResourceVersionUnavailable := false;
                          reflector_resyncPeriod := resyncCheckPeriod s |};
          reflecting := Listing; resyncCheckPeriod := resyncCheckPeriod s;
          defaultEventHandlerResyncPeriod := defaultEventHandlerResyncPeriod s; started := true;
          stopped := stopped s; reported := reported s |}.

Definition processor_run (p : sharedProcessor) : sharedProcessor :=
  {| listenersStarted := true; listeners := listeners p |}.

(** The end of the processor's run: the listeners are gone, with what they had
    not handed out. *)
Definition processor_stop (p : sharedProcessor) : sharedProcessor :=
  {| listenersStarted := false; listeners := [] |}.

Inductive processed :=
  | PopBlocked (why : popped)
  | PopPanic
  | PopDone (id : string) (s : sharedIndexInformer).

(** One turn of processLoop: Pop and HandleDeltas, under the lock of the
    queue.  Errors of HandleDeltas are dropped (RetryOnError is false). *)
Definition processLoop_turn (s : sharedIndexInformer) : processed :=
  match pop_next (fifo s) with
  | Popped id item isInInitialList f =>
      match processDeltas isInInitialList item (indexer s) (processor s) with
      | Some (_, c, p) => PopDone id (with_popped c p f s)
      | None => PopPanic
      end
  | why => PopBlocked why
  end.

(** What a step hears from the API server, takes from the queue, or moves on
    in a listener. *)
Inductive label :=
  | Listed (ms : list StorageVersionMigration)
  | Watched (e : Event)
  | Processed (id : string)
  | Delivered (i : nat)
  | Internal.

Definition on_listener (i : nat) (f : processorListener → option processorListener) (p : sharedProcessor) :
    option sharedProcessor :=
  '(l, b) ← listeners p !! i;
  l ← f l;
  Some {| listenersStarted := listenersStarted p; listeners := <[i := (l, b)]> (listeners p) |}.

Inductive step : sharedIndexInformer → label → sharedIndexInformer → Prop :=
  | step_handler period now err s s' :
      AddEventHandlerWithResyncPeriod period now s = Some (err, s') → step s Internal s'
  | step_run s : step s Internal (Run s)
  | step_processor s :
      started s = true → stopped s = false →
      step s Internal (with_processor (processor_run (processor s)) s)
  (* the reflector *)
  | step_list (list1 list2 : lister) ms r f s :
      reflecting s = Listing →
      list_at list1 list2 (indexer s) (reflector s) (fifo s) = (Ok ms, r, f) →
      step s (Listed ms) (with_fifo r Watching f [] s)
  | step_list_failed (list1 list2 : lister) e r f s :
      reflecting s = Listing →
      list_at list1 list2 (indexer s) (reflector s) (fifo s) = (Err e, r, f) →
      step s Internal (with_fifo r Listing f (DefaultWatchErrorHandler e) s)
  | step_event e errs rv f s :
      reflecting s = Watching → Event_Type e ≠ watch_Error →
      watch_event e (indexer s) (fifo s) = (errs, rv, f) →
      step s (Watched e)
        (with_fifo (match rv with Some rv => setLastSyncResourceVersion rv (reflector s) | None => reflector s end)
           Watching f errs s)
  (* a watch that ends or cannot be opened is tried again, or the list is *)
  | step_relist (err : option error) s :
      reflecting s = Watching →
      step s Internal
        (with_fifo (reflector s) Listing (fifo s) (match err with Some e => DefaultWatchErrorHandler e | None => [] end) s)
  | step_resync now p f s :
      reflecting s = Watching → reflector_resyncPeriod (reflector s) ≠ 0 → shouldResync now (processor s) = (true, p) →
      Resync (Some (indexer s)) (fifo s) = (None, f) →
      step s Internal (with_popped (indexer s) p f s)
  | step_no_resync now p s :
      reflecting s = Watching → reflector_resyncPeriod (reflector s) ≠ 0 → shouldResync now (processor s) = (false, p) →
      step s Internal (with_processor p s)
  (* the loop that pops; the listeners must be there to receive *)
  | step_pop id s s' :
      started s = true → listenersStarted (processor s) = true → processLoop_turn s = PopDone id s' →
      step s (Processed id) s'
  (* the goroutines of a listener *)
  | step_dispatch i l b p s :
      listenersStarted (processor s) = true → listeners (processor s) !! i = Some (l, b) →
      is_Some (notified l) → running l = None → on_listener i listener_dispatch (processor s) = Some p →
      step s (Delivered i) (with_processor p s)
  | step_handle i l b p s :
      listenersStarted (processor s) = true → listeners (processor s) !! i = Some (l, b) →
      is_Some (running l) → on_listener i listener_handle (processor s) = Some p →
      step s (Delivered i) (with_processor p s)
  (* the stop channel is closed: the queue closes, the reflector ends, the loop
     ends when the queue is empty, and the processor after both *)
  | step_close s :
      started s = true → step s Internal (with_fifo (reflector s) (reflecting s) (Close (fifo s)) [] s)
  | step_end s :
      closed (fifo s) = true → step s Internal (with_fifo (reflector s) Ended (fifo s) [] s)
  | step_stopped s :
      reflecting s = Ended → processLoop_turn s = PopBlocked PopClosed →
      step s Internal
        {| indexer := indexer s; processor := processor_stop (processor s); fifo := fifo s; reflector := reflector s;
           reflecting := Ended; resyncCheckPeriod := resyncCheckPeriod s;
           defaultEventHandlerResyncPeriod := defaultEventHandlerResyncPeriod s; started := started s;
           stopped := true; reported := reported s |}.

Inductive steps : sharedIndexInformer → list label → sharedIndexInformer → Prop :=
  | steps_nil s : steps s [] s
  | steps_snoc s ls s' l s'' : steps s ls s' → step s' l s'' → steps s (ls ++ [l]) s''.
End informer.
