(* ===== verification/InformerProps.v ===== *)
(** * Theorems about the shared informer

    Whatever the API server answers and however the goroutines interleave, the
    store with the queue says what the reflector was told, and the
    notifications of every listener replay to the store. *)
From S2P Require Import Tracker.
From S2P Require Export DeltasProps Informer.

Local Open Scope Z_scope.
Import v1alpha1.

(** ** What a listener has heard *)

Definition initials (h : list notification) : Z := Z.of_nat (length (filter (λ n, isInitial n = true) h)).

Lemma initials_app h1 h2 : initials (h1 ++ h2) = initials h1 + initials h2.
Proof. unfold initials. rewrite filter_app, length_app. lia. Qed.

Lemma initials_one n : initials [n] = if isInitial n then 1 else 0.
Proof. unfold initials. rewrite filter_cons, filter_nil. by destruct (isInitial n). Qed.

Lemma initials_cons n h : initials (n :: h) = (if isInitial n then 1 else 0) + initials h.
Proof. change (n :: h) with ([n] ++ h). by rewrite initials_app, initials_one. Qed.

Lemma initials_nonneg h : 0 ≤ initials h.
Proof. unfold initials. lia. Qed.

Lemma no_initials h : initials h ≤ 0 → Forall (λ n, isInitial n = false) h.
Proof.
  induction h as [|n h IH]; [constructor|]. rewrite initials_cons. pose proof (initials_nonneg h).
  destruct (isInitial n) eqn:E; [lia|]. constructor; [done|]. apply IH. lia.
Qed.

(** The notifications the handler has not returned from, oldest first, [q]
    being the ring's. *)
Definition waiting (l : processorListener) (q : list notification) : list notification :=
  option_list (running l) ++ option_list (notified l) ++ q.

(** [l] was given [h] and has its tail still to hand to the handler. *)
Definition heard (l : processorListener) (h : list notification) : Prop :=
  ∃ q, ring_ok (pendingNotifications l) q ∧ (notified l = None → q = []) ∧
    h = called l ++ waiting l q ∧ count l = initials (waiting l q).

Lemma new_heard requested resync now : heard (newProcessListener requested resync now initialBufferSize) [].
Proof. exists []. split_and!; try done. apply NewRingGrowing_ok. unfold initialBufferSize. lia. Qed.

Lemma listener_add_spec n l h :
  heard l h → ∃ l', listener_add n l = Some l' ∧ heard l' (h ++ [n]).
Proof.
  intros (q & Hr & Hq & -> & Hc). unfold listener_add.
  set (l0 := if isInitial n then _ else l).
  assert (notified l0 = notified l ∧ pendingNotifications l0 = pendingNotifications l ∧ running l0 = running l ∧
          called l0 = called l ∧ count l0 = initials (waiting l q) + (if isInitial n then 1 else 0))
    as (-> & -> & Er & Ec & En) 
    by (unfold l0; destruct (isInitial n); cbn [with_running notified pendingNotifications running called count];
        rewrite Hc; split_and!; (done || lia)).
  destruct (notified l) as [n0|] eqn:E.
  - destruct (WriteOne_ok _ _ n Hr) as (r' & -> & Hr'). eexists. split; [done|].
    exists (q ++ [n]). unfold waiting in *. rewrite E in *. simpl. rewrite Er, Ec, En.
    split_and!; [done|done|by rewrite <- !app_assoc|].
    change (option_list (Some n0)) with [n0].
    rewrite ?initials_app, !initials_cons, !initials_app, !initials_one. change (initials []) with 0. lia.
  - rewrite (Hq eq_refl) in *. eexists. split; [done|]. exists []. unfold waiting in *. rewrite E in *. simpl.
    rewrite Er, Ec, En. split_and!; [done|done| |].
    + by rewrite app_nil_r, <- app_assoc.
    + change (option_list None) with (@nil notification). change (option_list (Some n)) with [n].
      rewrite !initials_app, initials_one. change (initials []) with 0. lia.
Qed.

Lemma listener_dispatch_spec l h :
  heard l h → running l = None → ∃ l', listener_dispatch l = Some l' ∧ heard l' h.
Proof.
  intros (q & Hr & Hq & -> & Hc) Er. unfold listener_dispatch. destruct (notified l) as [n|] eqn:E.
  - unfold waiting in *. rewrite E, Er in *. destruct q as [|n' q].
    + rewrite (ReadOne_nil _ Hr). eexists. split; [done|]. exists []. by split_and!.
    + destruct (ReadOne_cons _ _ _ Hr) as (r' & -> & Hr'). eexists. split; [done|]. exists q. by split_and!.
  - eexists. split; [done|]. exists q. split_and!; auto.
Qed.

Lemma listener_handle_spec l h : heard l h → ∃ l', listener_handle l = Some l' ∧ heard l' h.
Proof.
  intros (q & Hr & Hq & -> & Hc). unfold listener_handle. destruct (running l) as [n|] eqn:E.
  - unfold waiting in *. rewrite E in *. simpl in Hc.
    rewrite initials_cons in Hc. pose proof (initials_nonneg (option_list (notified l) ++ q)).
    destruct (isInitial n).
    + replace (count l - 1 <? 0) with false by lia. eexists. split; [done|]. exists q. simpl.
      split_and!; [done|done| |unfold waiting; simpl; lia]. unfold waiting. simpl. by rewrite <- app_assoc.
    + eexists. split; [done|]. exists q. simpl.
      split_and!; [done|done| |unfold waiting; simpl; lia]. unfold waiting. simpl. by rewrite <- app_assoc.
  - eexists. split; [done|]. exists q. split_and!; auto.
Qed.

(** What is heard does not depend on the resync fields. *)
Lemma heard_resync period next l h : heard l h → heard (with_resync period next l) h.
Proof. done. Qed.

(** ** Replaying notifications *)

(** [E old new]: what a listener may take for the same object. *)
Section replay.
Context (E : relation any).

(** A notification makes sense to who has the objects [V]: what is added is
    new, what is updated or deleted is there, and all are migrations under
    their keys. *)
Inductive notifies : gmap string any → notification → gmap string any → Prop :=
  | notifies_add m b V :
      V !! mkey m = None →
      notifies V (addNotification (AnyMigration m) b) (<[mkey m := AnyMigration m]> V)
  | notifies_update old m v V :
      V !! mkey m = Some v → E v (AnyMigration old) →
      notifies V (updateNotification (AnyMigration old) (AnyMigration m)) (<[mkey m := AnyMigration m]> V)
  | notifies_delete obj m V :
      obj = AnyMigration m ∨ obj = AnyTombstone (mkey m) (AnyMigration m) → is_Some (V !! mkey m) →
      notifies V (deleteNotification obj) (delete (mkey m) V).

Inductive replays : list notification → gmap string any → Prop :=
  | replays_nil : replays [] ∅
  | replays_snoc h V n V' : replays h V → notifies V n V' → replays (h ++ [n]) V'.

Definition agree (V K : gmap string any) : Prop := ∀ k, option_Forall2 E (V !! k) (K !! k).

Lemma agree_insert V K k o : E o o → agree V K → agree (<[k := o]> V) (<[k := o]> K).
Proof. intros Ho HA k'. rewrite !lookup_insert. case_decide; [by constructor|apply HA]. Qed.

Lemma agree_delete V K k : agree V K → agree (delete k V) (delete k K).
Proof. intros HA k'. rewrite !lookup_delete. case_decide; [by constructor|apply HA]. Qed.
End replay.

Lemma agree_eq V K : agree eq V K → V = K.
Proof. intros HA. apply map_eq. intros k. by destruct (HA k); subst. Qed.

Lemma agree_refl E V : Reflexive E → agree E V V.
Proof. intros HE k. destruct (V !! k); by constructor. Qed.

(** A listener that skips the syncs keeps an object of the same version. *)
Definition skips (E : relation any) : Prop := ∀ old new, isSync old new = true → E old new.

Definition same_version (a b : any) : Prop := a = b ∨ isSync a b = true.

Lemma isSync_iff a b :
  isSync a b = true ↔ ∃ m1 m2, a = AnyMigration m1 ∧ b = AnyMigration m2 ∧
    metav1.ResourceVersion (svm_Meta m1) = metav1.ResourceVersion (svm_Meta m2).
Proof.
  unfold isSync. destruct a as [m1| | |], b as [m2| | |]; simpl; try naive_solver.
  rewrite bool_decide_eq_true. split; [by eauto|naive_solver].
Qed.

#[export] Instance same_version_equivalence : Equivalence same_version.
Proof.
  unfold same_version. split.
  - by left.
  - intros a b [->|Hab]; [by left|right]. apply isSync_iff in Hab as (m1 & m2 & -> & -> & Hv).
    apply isSync_iff. eauto.
  - intros a b c [->|Hab] [->|Hbc]; auto. right.
    apply isSync_iff in Hab as (m1 & m2 & -> & -> & Hv). apply isSync_iff in Hbc as (? & m3 & [= <-] & -> & Hv').
    apply isSync_iff. exists m1, m3. split_and!; congruence.
Qed.

Lemma same_version_skips : skips same_version.
Proof. by right. Qed.

(** ** The listeners and the store

    [r] says that there may be resyncs; without them every listener is told
    everything. *)
Definition follows (r : bool) (K : gmap string any) (lb : processorListener * bool) : Prop :=
  (r = false → lb.2 = true) ∧
  ∃ h, heard lb.1 h ∧ ∀ E, Equivalence E → (r = true → skips E) → ∃ V, replays E h V ∧ agree E V K.

Lemma follows_weaken K r lb : follows false K lb → follows r K lb.
Proof.
  intros (Hb & h & Hh & HV). split; [by intros _; apply Hb|]. exists h. split; [done|]. intros E HE _. by apply HV.
Qed.

(** A notification that takes the store from [K] to [K']. *)
Definition tells (K : gmap string any) (n : notification) (K' : gmap string any) : Prop :=
  ∀ E V, Equivalence E → agree E V K → ∃ V', notifies E V n V' ∧ agree E V' K'.

Arguments distribute_one : simpl never.

Lemma distribute_spec r K K' n sync p :
  tells K n K' → (sync = true → ∀ E V, Equivalence E → skips E → agree E V K → agree E V K') →
  Forall (follows r K) (listeners p) →
  ∃ p', distribute n sync p = Some p' ∧ Forall (follows r K') (listeners p') ∧
    listenersStarted p' = listenersStarted p ∧ length (listeners p') = length (listeners p).
Proof.
  intros Ht Hs HF. unfold distribute.
  assert (∃ ls, mapM (distribute_one n sync) (listeners p) = Some ls ∧ Forall (follows r K') ls ∧
    length ls = length (listeners p)) as (ls & -> & HF' & Hl); [|eexists; eauto].
  induction HF as [|[l b] ls (Hb & h & Hh & HV) _ (ls' & E' & HF' & Hl)]; [by exists []|].
  simpl in Hb, Hh.
  assert (∃ lb', distribute_one n sync (l, b) = Some lb' ∧ follows r K' lb') as (lb' & E1 & H1).
  { unfold distribute_one. destruct (negb sync || b) eqn:Esync.
    - destruct (listener_add_spec n l h Hh) as (l' & -> & Hh'). eexists. split; [done|]. split; [done|].
      eexists. split; [exact Hh'|]. intros E HE Hsk. destruct (HV E HE Hsk) as (V & Hr & Ha).
      destruct (Ht E V HE Ha) as (V' & Hn & Ha'). exists V'. split; [by econstructor|done].
    - apply orb_false_iff in Esync as [Hsync ->]. apply negb_false_iff in Hsync.
      eexists. split; [done|]. split; [done|]. exists h. split; [done|].
      intros E HE Hsk. destruct (HV E HE Hsk) as (V & Hr & Ha). exists V. split; [done|].
      apply (Hs Hsync E V HE); [|done]. apply Hsk. destruct r; [done|]. by apply Hb. }
  exists (lb' :: ls'). simpl. rewrite E1. cbn. rewrite E'. split_and!; [done|by constructor|simpl; congruence].
Qed.

(** ** HandleDeltas *)

Section informer.
Context `{MapOrder} (fs : gmap string (IndexFunc any)).
Context (Hfs : ∀ m, accepted fs (AnyMigration m)).
Implicit Types (c : threadSafeMap any) (m : StorageVersionMigration) (p : sharedProcessor).

Lemma cache_accepted c k : reachable fs c → accepted_opt (indexers (index c)) (items c !! k).
Proof. intros (_ & -> & Ha)%reachable_invariant o Ho. by apply (Ha k). Qed.

Lemma cache_put c m :
  reachable fs c → ∃ c', Store.Update (mkey m) (AnyMigration m) c = Some c' ∧ reachable fs c' ∧
    items c' = <[mkey m := AnyMigration m]> (items c).
Proof.
  intros Hc. pose proof (reachable_invariant _ _ Hc) as (Hwf & Hi & _).
  assert (is_Some (Store.Update (mkey m) (AnyMigration m) c)) as [c' E].
  { unfold Store.Update. destruct (updateIndices_total (items c !! mkey m) (Some (AnyMigration m)) (mkey m) (index c))
      as [i ->]; [by apply cache_accepted| |by eexists]. rewrite Hi. by intros o [= <-]. }
  exists c'. split; [done|]. split; [by eapply reachable_update|]. by apply Update_wf in E as (_ & ? & _).
Qed.

Lemma cache_del c k :
  reachable fs c → ∃ c', Store.Delete k c = Some c' ∧ reachable fs c' ∧ items c' = delete k (items c).
Proof.
  intros Hc. pose proof (reachable_invariant _ _ Hc) as (Hwf & Hi & _).
  assert (is_Some (Store.Delete k c)) as [c' E].
  { unfold Store.Delete. destruct (items c !! k) as [o|] eqn:Eo; [|by eexists].
    destruct (updateIndices_total (Some o) None k (index c)) as [i ->]; [|done|by eexists].
    rewrite <- Eo. by apply cache_accepted. }
  exists c'. split; [done|]. split; [by eapply reachable_delete|]. by apply Delete_wf in E as (_ & ? & _).
Qed.

(** What the store holds after a delta of key [k]. *)
Definition apply_delta (k : string) (d : Delta) (K : gmap string any) : gmap string any :=
  match said d with Some o => <[k := o]> K | None => delete k K end.

Lemma apply_delta_good k d K : good_delta k d → good_items K → good_items (apply_delta k d K).
Proof.
  intros (m & Hk & Ho) HK. unfold apply_delta, said. case_bool_decide as Hd.
  - by apply map_Forall_delete.
  - apply map_Forall_insert_2; [|done]. destruct Ho as [-> |[? _]]; [eauto|done].
Qed.

(** A delta that writes: the migration is added or updated, and told. *)
Lemma process_write r b ty m c p :
  ty ≠ Deleted → reachable fs c → good_items (items c) → Forall (follows r (items c)) (listeners p) →
  ∃ c' p', processDelta b {| Delta_Type := ty; Delta_Object := AnyMigration m |} c p = Some (None, c', p') ∧
    reachable fs c' ∧ items c' = <[mkey m := AnyMigration m]> (items c) ∧
    Forall (follows r (items c')) (listeners p') ∧ listenersStarted p' = listenersStarted p ∧
    length (listeners p') = length (listeners p).
Proof.
  intros Hty Hc Hg HF. destruct (cache_put c m Hc) as (c' & E & Hc' & Hi).
  assert (processDelta b {| Delta_Type := ty; Delta_Object := AnyMigration m |} c p =
    match items c !! mkey m with
    | Some old => p' ← OnUpdate old (AnyMigration m) p; Some (None, c', p')
    | None => p' ← OnAdd (AnyMigration m) b p; Some (None, c', p')
    end) as ->.
  { unfold processDelta, cache.Get, cache.GetByKey, Get, cache.Update, cache.Add, Store.Add.
    cbn [Delta_Type Delta_Object].
    change (DeletionHandlingMetaNamespaceKeyFunc (AnyMigration m)) with (Ok (mkey m)). cbv beta iota.
    rewrite E. by destruct ty, (items c !! mkey m). }
  destruct (items c !! mkey m) as [old|] eqn:Eo.
  - destruct (Hg _ _ Eo) as (m0 & -> & Hk0).
    destruct (distribute_spec r (items c) (items c') (updateNotification (AnyMigration m0) (AnyMigration m))
      (isSync (AnyMigration m0) (AnyMigration m)) p) as (p' & Ep & HF' & ? & ?); [..|done|].
    + intros E0 V HE Ha. eexists. rewrite Hi. pose proof (Ha (mkey m)) as Hv. rewrite Eo in Hv.
      inversion Hv as [v ? Hv' Ev|]. split; [by econstructor|]. by apply agree_insert.
    + intros Hs E0 V HE Hsk Ha k. rewrite Hi, lookup_insert. case_decide as Hk; [|apply Ha]. subst k.
      pose proof (Ha (mkey m)) as Hv. rewrite Eo in Hv. inversion Hv as [v ? Hv' Ev|].
      constructor. etrans; [exact Hv'|]. by apply Hsk.
    + exists c', p'. simpl. rewrite Ep. by split_and!.
  - destruct (distribute_spec r (items c) (items c') (addNotification (AnyMigration m) b) false p)
      as (p' & Ep & HF' & ? & ?); [|done|done|].
    + intros E0 V HE Ha. eexists. rewrite Hi. pose proof (Ha (mkey m)) as Hv. rewrite Eo in Hv.
      inversion Hv. split; [by econstructor|]. by apply agree_insert.
    + exists c', p'. simpl. rewrite Ep. by split_and!.
Qed.

Lemma process_delete r b obj m c p :
  obj = AnyMigration m ∨ obj = AnyTombstone (mkey m) (AnyMigration m) → is_Some (items c !! mkey m) →
  reachable fs c → Forall (follows r (items c)) (listeners p) →
  ∃ c' p', processDelta b {| Delta_Type := Deleted; Delta_Object := obj |} c p = Some (None, c', p') ∧
    reachable fs c' ∧ items c' = delete (mkey m) (items c) ∧
    Forall (follows r (items c')) (listeners p') ∧ listenersStarted p' = listenersStarted p ∧
    length (listeners p') = length (listeners p).
Proof.
  intros Hobj Hin Hc HF. destruct (cache_del c (mkey m) Hc) as (c' & E & Hc' & Hi).
  destruct (distribute_spec r (items c) (items c') (deleteNotification obj) false p) as (p' & Ep & HF' & ? & ?);
    [|done|done|].
  - intros E0 V HE Ha. exists (delete (mkey m) V). rewrite Hi. split; [|by apply agree_delete].
    constructor; [done|]. destruct (Ha (mkey m)); [by eauto|by destruct Hin].
  - exists c', p'. split; [|by split_and!].
    unfold processDelta, cache.Delete. cbn [Delta_Type Delta_Object].
    assert (DeletionHandlingMetaNamespaceKeyFunc obj = Ok (mkey m)) as -> by (destruct Hobj as [-> | ->]; done).
    rewrite E. simpl. by rewrite Ep.
Qed.

Lemma processDelta_spec r b k d c p :
  good_delta k d → (Delta_Type d = Deleted → is_Some (items c !! k)) →
  reachable fs c → good_items (items c) → Forall (follows r (items c)) (listeners p) →
  ∃ c' p', processDelta b d c p = Some (None, c', p') ∧
    reachable fs c' ∧ items c' = apply_delta k d (items c) ∧
    Forall (follows r (items c')) (listeners p') ∧ listenersStarted p' = listenersStarted p ∧
    length (listeners p') = length (listeners p).
Proof.
  intros (m & <- & Ho) Hdel Hc Hg HF. unfold apply_delta, said. destruct d as [ty obj]. simpl in *.
  case_bool_decide as Hty.
  - subst ty. apply process_delete; [|by auto|done|done]. destruct Ho as [? |[_ ?]]; auto.
  - destruct Ho as [-> |[? _]]; [|done]. by apply process_write.
Qed.

Lemma processDeltas_spec r b k ds c p :
  Forall (good_delta k) ds → legal (present (items c) k) ds →
  reachable fs c → good_items (items c) → Forall (follows r (items c)) (listeners p) →
  ∃ c' p', processDeltas b ds c p = Some (None, c', p') ∧
    reachable fs c' ∧ items c' = foldl (λ K d, apply_delta k d K) (items c) ds ∧ good_items (items c') ∧
    Forall (follows r (items c')) (listeners p') ∧ listenersStarted p' = listenersStarted p ∧
    length (listeners p') = length (listeners p).
Proof.
  intros Hds. revert c p. induction Hds as [|d ds Hd _ IH]; intros c p Hl Hc Hg HF.
  { exists c, p. by split_and!. }
  destruct Hl as [Hdel Hl].
  destruct (processDelta_spec r b k d c p) as (c1 & p1 & E1 & Hc1 & Hi1 & HF1 & Hs1 & Hl1); [done| |done..|].
  { intros E. specialize (Hdel E). by apply bool_decide_eq_true in Hdel. }
  destruct (IH c1 p1) as (c2 & p2 & E2 & Hc2 & Hi2 & Hg2 & HF2 & Hs2 & Hl2); [|done| |done|].
  - assert (present (items c1) k = bool_decide (Delta_Type d ≠ Deleted)) as ->; [|done].
    unfold present. rewrite Hi1. unfold apply_delta, said. apply bool_decide_ext. destruct (decide (Delta_Type d = Deleted)) as [Ht|Ht].
    + rewrite bool_decide_eq_true_2, lookup_delete_eq by done. split; [by intros []|done].
    + rewrite bool_decide_eq_false_2, lookup_insert_eq by done. split; [done|by eauto].
  - rewrite Hi1. by apply apply_delta_good.
  - exists c2, p2. cbn [processDeltas]. rewrite E1, E2. simpl. rewrite <- Hi1. split_and!; try done; congruence.
Qed.

(** The deltas of a key leave what the newest says. *)
Lemma apply_deltas_lookup k ds K k' :
  foldl (λ K d, apply_delta k d K) K ds !! k' =
  if bool_decide (k' = k) then match Newest ds with Some d => said d | None => K !! k end else K !! k'.
Proof.
  induction ds as [|d ds _] using rev_ind.
  { simpl. case_bool_decide; [by subst|done]. }
  rewrite foldl_app. simpl. unfold Newest. rewrite last_snoc. unfold apply_delta at 1.
  case_bool_decide as Hk.
  - subst k'. destruct (said d); [apply lookup_insert_eq|apply lookup_delete_eq].
  - assert (∀ K', match said d with Some o => <[k:=o]> K' | None => delete k K' end !! k' = K' !! k') as ->.
    { intros K'. destruct (said d); [by apply lookup_insert_ne|by apply lookup_delete_ne]. }
    clear d. induction ds as [|d ds IH] using rev_ind; [done|]. rewrite foldl_app. simpl. rewrite <- IH.
    unfold apply_delta. destruct (said d); [by apply lookup_insert_ne|by apply lookup_delete_ne].
Qed.

(** ** What a run has told the reflector *)

Definition tell (seen : gmap string any) (l : label) : gmap string any :=
  match l with
  | Listed ms => of_list ms ∅
  | Watched {| Event_Type := ty; Event_Object := AnyMigration m |} =>
      if bool_decide (ty = watch.Added) || bool_decide (ty = watch.Modified)
      then <[mkey m := AnyMigration m]> seen
      else if bool_decide (ty = watch.Deleted) then delete (mkey m) seen else seen
  | _ => seen
  end.

Definition told (ls : list label) : gmap string any := foldl tell ∅ ls.

Definition first_list (ls : list label) : option (list StorageVersionMigration) :=
  head (omap (λ l, match l with Listed ms => Some ms | _ => None end) ls).

Lemma told_snoc ls l : told (ls ++ [l]) = tell (told ls) l.
Proof. unfold told. by rewrite foldl_app. Qed.

Lemma first_list_snoc ls l :
  first_list (ls ++ [l]) = match first_list ls with
                           | Some ms => Some ms
                           | None => match l with Listed ms => Some ms | _ => None end
                           end.
Proof.
  unfold first_list. rewrite omap_app. destruct (omap _ ls); [|done]. by destruct l.
Qed.

(** ** The invariant *)

Definition may_resync (s : sharedIndexInformer) : bool :=
  negb (bool_decide (reflector_resyncPeriod (reflector s) = 0)).

(** Before the first list nothing is queued; then the count covers the keys of
    that list that are still to be processed, at the head of the queue. *)
Definition sync_ok (ls : list label) (c : threadSafeMap any) (f : DeltaFIFO) (ph : phase) : Prop :=
  match first_list ls with
  | None => populated f = false ∧ queue f = [] ∧ items c = ∅ ∧ ph ≠ Watching
  | Some ms =>
      populated f = true ∧ 0 ≤ initialPopulationCount f ≤ Z.of_nat (length (queue f)) ∧
      ∀ m, m ∈ ms → mkey m ∈ take (Z.to_nat (initialPopulationCount f)) (queue f) ∨ Processed (mkey m) ∈ ls
  end.

Record invariant (ls : list label) (s : sharedIndexInformer) : Prop := {
  inv_store : reachable fs (indexer s);
  inv_seen : represents (items (indexer s)) (fifo s) (told ls);
  inv_follows : Forall (follows (may_resync s) (items (indexer s))) (listeners (processor s));
  inv_idle : started s = false →
    reflecting s = Idle ∧ fifo s = NewDeltaFIFOWithOptions true None ∧ may_resync s = false ∧ items (indexer s) = ∅;
  inv_sync : sync_ok ls (indexer s) (fifo s) (reflecting s);
}.

Lemma NewDeltaFIFO_represents : represents ∅ (NewDeltaFIFOWithOptions true None) ∅.
Proof.
  split; [split|apply map_Forall_empty|done]; simpl; [by apply NoDup_nil|..|done].
  - intros k. rewrite lookup_empty. split; [by intros ?%elem_of_nil|by intros []].
  - intros k ds. by rewrite lookup_empty.
Qed.

Lemma invariant_new resync : invariant [] (NewSharedIndexInformer resync fs).
Proof.
  split; simpl; [apply reachable_new|apply NewDeltaFIFO_represents|constructor|done|].
  unfold sync_ok. simpl. done.
Qed.

(** A label that is not a list. *)
Definition not_list (l : label) : Prop := match l with Listed _ => False | _ => True end.

Lemma first_list_other ls l : not_list l → first_list (ls ++ [l]) = first_list ls.
Proof. intros Hl. rewrite first_list_snoc. destruct (first_list ls), l; naive_solver. Qed.

Lemma sync_before ls c f ph :
  sync_ok ls c f ph → first_list ls = None →
  ph ≠ Watching ∧ populated f = false ∧ queue f = [] ∧ items c = ∅.
Proof. unfold sync_ok. intros Hs E. rewrite E in Hs. tauto. Qed.

Lemma sync_grows ls l c f f' ph ph' :
  not_list l → grows f f' → (first_list ls = None → f' = f ∧ ph' ≠ Watching) →
  sync_ok ls c f ph → sync_ok (ls ++ [l]) c f' ph'.
Proof.
  unfold sync_ok. intros Hl [Hq Hc Hp _] Hnone. rewrite first_list_other by done.
  destruct (first_list ls) as [ms|]; [|destruct (Hnone eq_refl) as [-> ?]; tauto].
  intros (Hpop & Hn & Hms). destruct Hq as [added Hq]. rewrite (Hc Hpop), Hq, length_app.
  split_and!; [auto|lia|lia|]. intros m Hm. destruct (Hms m Hm) as [Hin|Hin]; [left|right; set_solver].
  rewrite take_app_le by lia. done.
Qed.

(** A step of the reflector. *)
Lemma invariant_fifo ls s l r ph f errs :
  invariant ls s → started s = true → reflector_resyncPeriod r = reflector_resyncPeriod (reflector s) →
  represents (items (indexer s)) f (told (ls ++ [l])) → sync_ok (ls ++ [l]) (indexer s) f ph →
  invariant (ls ++ [l]) (with_fifo r ph f errs s).
Proof.
  intros [Hst Hse Hfo Hid Hsy] Hs Hr Hse' Hsy'. split; try done.
  - unfold may_resync in *. simpl. by rewrite Hr.
  - intros E. simpl in E. congruence.
Qed.

(** A step that only concerns the listeners. *)
Lemma invariant_processor ls s l p :
  (if l is Internal then True else if l is Delivered _ then True else False) →
  invariant ls s → Forall (follows (may_resync s) (items (indexer s))) (listeners p) →
  invariant (ls ++ [l]) (with_processor p s).
Proof.
  intros Hl [Hst Hse Hfo Hid Hsy] Hp. split; try done; simpl.
  - rewrite told_snoc. by destruct l.
  - eapply sync_grows; [by destruct l|reflexivity| |exact Hsy]. intros E. by destruct (sync_before _ _ _ _ Hsy E).
Qed.

(** ** The reflector *)

Lemma list_at_spec (list1 list2 : lister) c r f seen result r' f' :
  represents (items c) f seen → list_at list1 list2 c r f = (result, r', f') →
  reflector_resyncPeriod r' = reflector_resyncPeriod r ∧
  match result with
  | Err _ => f' = f
  | Ok ms => represents (items c) f' (of_list ms ∅) ∧ populated f' = true ∧ grows f f' ∧
      (populated f = false → queue f = [] → initialPopulationCount f' = Z.of_nat (length (queue f')))
  end.
Proof.
  intros HR. unfold list_at. destruct (match list1 _ with Ok _ => _ | Err _ => _ end) as [answer r1] eqn:E1.
  assert (reflector_resyncPeriod r1 = reflector_resyncPeriod r) as Hr.
  { destruct (list1 _) as [|e]; [by injection E1 as <- <-|]. by destruct (_ || _); injection E1 as <- <-. }
  clear E1. destruct answer as [[ms rv]|e]; [|by intros [= <- <- <-]].
  destruct (Replace_spec c f seen ms HR) as (f1 & -> & HR1 & Hp1 & Hg1 & Hc1). by intros [= <- <- <-].
Qed.

Lemma watch_event_spec e c f seen errs rv f' :
  represents (items c) f seen → watch_event e c f = (errs, rv, f') →
  represents (items c) f' (tell seen (Watched e)) ∧ grows f f'.
Proof.
  intros HR. destruct e as [ty obj]. unfold watch_event. simpl.
  destruct (negb (bool_decide (reflect_TypeOf obj = expectedType))) eqn:Ety.
  { intros [= _ _ <-]. destruct obj as [m| | |]; [|done..]. by rewrite bool_decide_eq_true_2 in Ety. }
  destruct obj as [m| | |]; cbn [any_Accessor]; [|by intros [= _ _ <-]..].
  destruct (Add_spec _ _ _ m HR) as (fa & Ea & HRa & Hga).
  destruct (Update_spec _ _ _ m HR) as (fu & Eu & HRu & Hgu).
  destruct (Delete_spec _ _ _ m HR) as (fd & Ed & HRd & Hgd).
  rewrite Ea, Eu, Ed. repeat case_bool_decide; simpl; by intros [= _ _ <-].
Qed.

(** ** A new handler *)

Lemma listed_migrations (K : gmap string any) (ks : list string) :
  good_items K → Forall (λ k, is_Some (K !! k)) ks →
  ∃ ms, omap (λ k, K !! k) ks = AnyMigration <$> ms ∧ mkey <$> ms = ks ∧
    Forall (λ m, K !! mkey m = Some (AnyMigration m)) ms.
Proof.
  intros HK HF. induction HF as [|k ks [o Ho] _ (ms & E & <- & HF)]; [by exists []|].
  destruct (HK _ _ Ho) as (m & -> & <-). exists (m :: ms). csimpl. rewrite Ho, E.
  split_and!; [done|done|by constructor].
Qed.

Lemma add_all_spec E ms l h V :
  Reflexive E → heard l h → replays E h V → NoDup (mkey <$> ms) → Forall (λ m, V !! mkey m = None) ms →
  ∃ l' h', add_all (AnyMigration <$> ms) l = Some l' ∧ heard l' h' ∧
    h' = h ++ ((λ m, addNotification (AnyMigration m) true) <$> ms) ∧ replays E h' (of_list ms V).
Proof.
  intros HE. revert l h V. induction ms as [|m ms IH]; intros l h V Hl Hr Hnd HV.
  { exists l, h. csimpl. by rewrite app_nil_r. }
  apply Forall_cons in HV as [Hm HV]. rewrite fmap_cons in Hnd. apply NoDup_cons in Hnd as [Hnin Hnd].
  destruct (listener_add_spec (addNotification (AnyMigration m) true) l h Hl) as (l1 & E1 & Hl1).
  destruct (IH l1 _ (<[mkey m := AnyMigration m]> V) Hl1) as (l2 & h2 & E2 & Hl2 & -> & Hr2); [..|done| |].
  - econstructor; [exact Hr|by constructor].
  - rewrite Forall_forall in *. intros m' Hm'. rewrite lookup_insert_ne; [by apply HV|].
    intros Ek. apply Hnin. rewrite Ek. by apply list_elem_of_fmap_2.
  - exists l2. eexists. rewrite fmap_cons. cbn [add_all]. rewrite E1. simpl. rewrite E2.
    split_and!; [done|exact Hl2|by rewrite <- app_assoc|done].
Qed.

Lemma joined_follows c l r :
  heard l [] → good_items (items c) →
  ∃ l', add_all (List_ c) l = Some l' ∧ follows r (items c) (l', true).
Proof.
  intros Hl Hg. destruct (listed_migrations (items c) (range (dom (items c))) Hg) as (ms & E & Hks & HF).
  { apply Forall_forall. intros k Hk. by apply elem_of_range, elem_of_dom in Hk. }
  unfold List_. rewrite E.
  assert (NoDup (mkey <$> ms)) as Hnd by (rewrite Hks; apply NoDup_range).
  assert (∀ ms' V, NoDup (mkey <$> ms') → Forall (λ m, items c !! mkey m = Some (AnyMigration m)) ms' → ∀ k,
    of_list ms' V !! k = if bool_decide (k ∈ mkey <$> ms') then items c !! k else V !! k) as Hof.
  { intros ms' V _ HF' k. revert V. induction HF' as [|m ms' Hm _ IH]; intros V; [done|].
    change (of_list (m :: ms') V) with (of_list ms' (<[mkey m := AnyMigration m]> V)). rewrite IH, lookup_insert.
    csimpl. destruct (decide (k ∈ mkey <$> ms')).
    - by rewrite !bool_decide_eq_true_2 by set_solver.
    - rewrite bool_decide_eq_false_2 by done. destruct (decide (mkey m = k)) as [Hk|Hk].
      + subst k. by rewrite bool_decide_eq_true_2 by set_solver.
      + by rewrite bool_decide_eq_false_2 by set_solver. }
  assert (of_list ms ∅ = items c) as Heq.
  { apply map_eq. intros k. rewrite Hof by done. rewrite Hks, lookup_empty. case_bool_decide as Hk; [done|].
    rewrite elem_of_range in Hk. by apply not_elem_of_dom in Hk. }
  assert (∀ E0, Reflexive E0 → ∃ l' h', add_all (AnyMigration <$> ms) l = Some l' ∧ heard l' h' ∧
    h' = [] ++ ((λ m, addNotification (AnyMigration m) true) <$> ms) ∧ replays E0 h' (of_list ms ∅)) as Hadd.
  { intros E0 HE0. apply add_all_spec; [done|done|constructor|done|by apply Forall_true]. }
  destruct (Hadd eq _) as (l' & h' & El & Hh & Eh & _). exists l'. split; [done|]. split; [done|].
  exists h'. split; [done|]. intros E0 HE0 _. destruct (Hadd E0 _) as (l2 & h2 & El2 & _ & Eh2 & Hr).
  exists (items c). rewrite <- Heq at 1. split; [|by apply agree_refl; apply _]. by rewrite Eh, <- Eh2.
Qed.

Lemma follows_map r K (g : processorListener * bool → processorListener * bool) lbs :
  (∀ lb h, heard lb.1 h → heard (g lb).1 h) → (∀ lb, r = false → (g lb).2 = lb.2) →
  Forall (follows r K) lbs → Forall (follows r K) (g <$> lbs).
Proof.
  intros Hh Hb HF. apply Forall_fmap. eapply Forall_impl; [exact HF|]. intros lb (Hr & h & Hl & HV). split.
  - intros Er. rewrite Hb by done. by apply Hr.
  - exists h. auto.
Qed.

Lemma AddEventHandler_spec ls s period now err s' :
  invariant ls s → AddEventHandlerWithResyncPeriod period now s = Some (err, s') →
  invariant (ls ++ [Internal]) s'.
Proof.
  intros Hinv. unfold AddEventHandlerWithResyncPeriod. destruct (stopped s).
  { intros [= <- <-]. replace s with (with_processor (processor s) s) by by destruct s.
    apply invariant_processor; [done|done|apply Hinv]. }
  match goal with |- context [let '(_, _) := ?x in _] => set (adjusted := x) end.
  assert (∃ period' s1, adjusted = (period', s1) ∧
    (s1 = s ∨ started s = false ∧ s1 = with_resyncCheckPeriod period' s)) as (period' & s1 & -> & Hs1).
  { unfold adjusted. destruct (0 <? period); [|by eauto]. destruct (_ <? _); [|by eauto].
    destruct (started s); eauto 6. }
  assert (invariant ls s1) as Hinv1.
  { destruct Hs1 as [-> | [Est ->]]; [done|]. destruct Hinv as [Hst Hse Hfo Hid Hsy]. split; try done. simpl.
    apply (follows_map _ _ (λ '(l, b), (setResyncPeriod (determineResyncPeriod (requestedResyncPeriod l) period') l, b)));
      [by intros []|by intros []|done]. }
  clear Hs1. cbv beta iota zeta.
  set (l := newProcessListener _ _ _ _). pose proof (new_heard period' (determineResyncPeriod period' (resyncCheckPeriod s1)) now) as Hl.
  fold l in Hl. pose proof Hinv1 as [_ [_ Hg _] Hfo Hid _].
  assert (∀ l', follows (may_resync s1) (items (indexer s1)) (l', true) →
    invariant (ls ++ [Internal]) (with_processor (addListener l' (processor s1)) s1)) as Hadd.
  { intros l' Hl'. apply invariant_processor; [done|done|]. simpl. apply Forall_app. by split; [|constructor]. }
  destruct (started s1) eqn:Est; simpl.
  - destruct (joined_follows (indexer s1) l (may_resync s1) Hl Hg) as (l' & -> & Hf). intros [= <- <-]. by apply Hadd.
  - intros [= <- <-]. apply Hadd. destruct (Hid eq_refl) as (_ & _ & _ & ->). split; [done|].
    exists []. split; [done|]. intros E HE _. exists ∅. split; [constructor|]. by apply agree_refl; apply _.
Qed.

(** ** A turn of the loop *)

Lemma turn_spec ls s id q :
  invariant ls s → queue (fifo s) = id :: q →
  ∃ s', processLoop_turn s = PopDone id s' ∧ queue (fifo s') = q ∧ invariant (ls ++ [Processed id]) s' ∧
    started s' = started s ∧ listenersStarted (processor s') = listenersStarted (processor s) ∧
    length (listeners (processor s')) = length (listeners (processor s)) ∧ closed (fifo s') = closed (fifo s).
Proof.
  intros [Hst Hse Hfo Hid Hsy] Hq. pose proof Hse as [Hok Hg _]. unfold processLoop_turn.
  destruct (pop_next_spec _ _ _ _ Hok Hq) as (ds & f' & Hds & -> & Hq' & Hi' & Hp' & Hc' & Hcl' & Ht').
  destruct (fo_items _ _ Hok _ _ Hds) as (Hne & Hgd & Hl).
  destruct (processDeltas_spec (may_resync s) (negb (Deltas.HasSynced (fifo s))) id ds (indexer s) (processor s))
    as (c' & p' & -> & Hst' & Hic & Hg' & Hfo' & Hps & Hpl); [done..|].
  assert (∀ k, items c' !! k = if bool_decide (k = id) then Newest ds ≫= said else items (indexer s) !! k) as Hlook.
  { intros k. rewrite Hic, apply_deltas_lookup. case_bool_decide; [|done].
    destruct ds as [|d ds _] using rev_ind; [done|]. unfold Newest. by rewrite last_snoc. }
  eexists. split; [done|]. split; [exact Hq'|]. split; [|by split_and!].
  split; simpl; [done| |done| |].
  - rewrite told_snoc. simpl. eapply pop_represents; try done.
    + by rewrite Hlook, bool_decide_eq_true_2.
    + intros k Hk. by rewrite Hlook, bool_decide_eq_false_2.
  - intros E. destruct (Hid E) as (_ & Hf & _). rewrite Hf in Hq. done.
  - unfold sync_ok in *. rewrite first_list_other by done.
    destruct (first_list ls) as [ms|]; [|destruct Hsy as (_ & E & _); congruence].
    destruct Hsy as (Hpop & Hn & Hms). rewrite Hp', Hq', Hc'. rewrite Hq in Hn, Hms. simpl in Hn.
    split; [done|]. split; [destruct (0 <? _) eqn:?; lia|].
    intros m Hm. destruct (Hms m Hm) as [Hin|Hin]; [|right; set_solver].
    destruct (decide (initialPopulationCount (fifo s) = 0)) as [E0|]; [rewrite E0 in Hin; by apply elem_of_nil in Hin|].
    replace (0 <? initialPopulationCount (fifo s)) with true by lia.
    replace (Z.to_nat (initialPopulationCount (fifo s)))
      with (S (Z.to_nat (initialPopulationCount (fifo s) - 1))) in Hin by lia.
    simpl in Hin. apply elem_of_cons in Hin as [->|Hin]; [right; set_solver|by left].
Qed.

Lemma turn_done ls s id s' :
  invariant ls s → processLoop_turn s = PopDone id s' → ∃ q, queue (fifo s) = id :: q.
Proof.
  intros Hinv E. destruct (queue (fifo s)) as [|id' q] eqn:Hq.
  - unfold processLoop_turn, pop_next in E. rewrite Hq in E. simpl in E. by destruct (closed (fifo s)).
  - destruct (turn_spec _ _ _ _ Hinv Hq) as (s2 & E2 & _). exists q. congruence.
Qed.

(** ** Every step *)

Lemma on_listener_spec f i s p ls :
  invariant ls s →
  (∀ l h l', option_map fst (listeners (processor s) !! i) = Some l → heard l h → f l = Some l' → heard l' h) →
  on_listener i f (processor s) = Some p → invariant (ls ++ [Delivered i]) (with_processor p s).
Proof.
  intros Hinv Hf E. apply invariant_processor; [done|done|]. pose proof (inv_follows _ _ Hinv) as HF.
  unfold on_listener in E. destruct (listeners (processor s) !! i) as [[l b]|] eqn:Ei; [|done]. simpl in E.
  destruct (f l) as [l'|] eqn:El; [|done]. simpl in E. injection E as <-. simpl.
  apply Forall_insert; [done|]. pose proof (Forall_lookup_1 _ _ _ _ HF Ei) as (Hb & h & Hl & HV).
  split; [done|]. exists h. split; [|done]. eapply Hf; [by rewrite ?Ei|done|done].
Qed.

Lemma active_started ls s : invariant ls s → reflecting s ≠ Idle → started s = true.
Proof. intros Hinv Hne. destruct (started s) eqn:E; [done|]. by destruct (inv_idle _ _ Hinv E). Qed.

Lemma invariant_resync ls s now b p :
  invariant ls s → may_resync s = true → shouldResync now (processor s) = (b, p) →
  Forall (follows (may_resync s) (items (indexer s))) (listeners p).
Proof.
  intros Hinv Hr [= _ <-]. simpl. rewrite Hr. pose proof (inv_follows _ _ Hinv) as HF. rewrite Hr in HF.
  apply (follows_map _ _ (λ '(l, _), let b := listener_shouldResync now l in
           (if b then determineNextResync now l else l, b))); [|done|done].
  intros [l b'] h Hl. simpl. by destruct (listener_shouldResync now l).
Qed.

Lemma reflector_steps ls s l s' :
  invariant ls s → reflecting s ≠ Idle →
  (∃ r ph f errs, s' = with_fifo r ph f errs s ∧ reflector_resyncPeriod r = reflector_resyncPeriod (reflector s) ∧
     represents (items (indexer s)) f (told (ls ++ [l])) ∧ sync_ok (ls ++ [l]) (indexer s) f ph) →
  invariant (ls ++ [l]) s'.
Proof.
  intros Hinv Hne (r & ph & f & errs & -> & Hr & HR & Hs). apply invariant_fifo; try done. by eapply active_started.
Qed.

Lemma step_list_invariant (list1 list2 : lister) ls s result r f :
  invariant ls s → reflecting s = Listing →
  list_at list1 list2 (indexer s) (reflector s) (fifo s) = (result, r, f) →
  match result with
  | Ok ms => invariant (ls ++ [Listed ms]) (with_fifo r Watching f [] s)
  | Err e => invariant (ls ++ [Internal]) (with_fifo r Listing f (DefaultWatchErrorHandler e) s)
  end.
Proof.
  intros Hinv Hph E. pose proof Hinv as [_ Hse _ _ Hsy].
  destruct (list_at_spec _ _ _ _ _ _ _ _ _ Hse E) as [Hr Hres].
  destruct result as [ms|e]; (eapply reflector_steps; [done|congruence|]); do 4 eexists; (split; [done|]; split; [done|]).
  - destruct Hres as (HR & Hpop & Hgr & Hc). rewrite told_snoc. split; [done|].
    unfold sync_ok in *. rewrite first_list_snoc. destruct (first_list ls) as [ms0|].
    + destruct Hsy as (Hp0 & Hn & Hms). destruct Hgr as [[added Hq] Hcount _ _]. rewrite (Hcount Hp0), Hq, length_app.
      split_and!; [done|lia|lia|]. intros m Hm. destruct (Hms m Hm) as [Hin|Hin]; [left|right; set_solver].
      by rewrite take_app_le by lia.
    + destruct Hsy as (Hp0 & Hq0 & Hi0 & _). rewrite (Hc Hp0 Hq0). split_and!; [done|lia|lia|].
      intros m Hm. left. rewrite Nat2Z.id, firstn_all. apply (fo_queue _ _ (rp_ok _ _ _ HR)).
      pose proof (rp_view _ _ _ HR (mkey m)) as Hv.
      assert (is_Some (of_list ms ∅ !! mkey m)) as [o Ho].
      { clear -Hm. induction ms as [|m' ms IH] using rev_ind; [by apply elem_of_nil in Hm|].
        unfold of_list in *. rewrite foldl_app. simpl. rewrite lookup_insert. case_decide; [by eauto|].
        apply IH. apply elem_of_app in Hm as [?|Hm]; [done|]. apply list_elem_of_singleton in Hm. congruence. }
      rewrite Ho in Hv. unfold view in Hv. destruct (fifo_items f !! mkey m); [by eauto|]. by rewrite Hi0 in Hv.
  - subst f. rewrite told_snoc. split; [done|]. eapply sync_grows; [done|reflexivity| |exact Hsy].
    intros E0. by split.
Qed.

Lemma represents_close K f seen : represents K f seen → represents K (Close f) seen.
Proof. intros [[? ? ? ?] Hg Hv]. by split. Qed.

Lemma sync_internal ls c f ph ph' :
  sync_ok ls c f ph → ph' ≠ Watching ∨ ph = Watching → sync_ok (ls ++ [Internal]) c f ph'.
Proof.
  intros Hs Hph. eapply sync_grows; [done|reflexivity| |exact Hs]. intros E.
  destruct (sync_before _ _ _ _ Hs E) as [? _]. split; [done|]. by destruct Hph.
Qed.

Lemma step_run_invariant ls s : invariant ls s → invariant (ls ++ [Internal]) (Run s).
Proof.
  intros Hinv. unfold Run. destruct (started s) eqn:E.
  - replace s with (with_processor (processor s) s) by by destruct s. apply invariant_processor; [done|done|apply Hinv].
  - destruct Hinv as [Hst Hse Hfo Hid Hsy]. destruct (Hid E) as (Hph & Hf & Hr & Hi).
    rewrite Hf in Hse, Hsy. split; simpl; [done|by rewrite told_snoc| |done|].
    + eapply Forall_impl; [exact Hfo|]. intros lb Hlb. rewrite Hr in Hlb. by apply follows_weaken.
    + eapply sync_internal; [exact Hsy|by left].
Qed.

Lemma step_event_invariant ls s e errs rv f :
  invariant ls s → reflecting s = Watching → watch_event e (indexer s) (fifo s) = (errs, rv, f) →
  invariant (ls ++ [Watched e])
    (with_fifo (match rv with Some rv => setLastSyncResourceVersion rv (reflector s) | None => reflector s end)
       Watching f errs s).
Proof.
  intros Hinv Hph E. pose proof Hinv as [_ Hse _ _ Hsy].
  destruct (watch_event_spec _ _ _ _ _ _ _ Hse E) as [HR Hg].
  eapply reflector_steps; [done|congruence|]. do 4 eexists. split; [done|]. split; [by destruct rv|].
  rewrite told_snoc. split; [done|]. eapply sync_grows; [done|exact Hg| |exact Hsy].
  intros E0. by destruct (sync_before _ _ _ _ Hsy E0).
Qed.

Lemma step_invariant ls s l s' : invariant ls s → step s l s' → invariant (ls ++ [l]) s'.
Proof.
  intros Hinv Hstep. pose proof Hinv as [Hst Hse Hfo Hid Hsy].
  destruct Hstep as [period now err s s' E|s|s _ _|list1 list2 ms r f s Hph E|list1 list2 e r f s Hph E
    |e errs rv f s Hph _ E|err s Hph|now p f s Hph Hr Hp E|now p s Hph Hr Hp|id s s' _ _ E
    |i l b p s _ Hl Hn Hrun E|i l b p s _ Hl Hrun E|s Hs|s Hc|s Hend _].
  - by eapply AddEventHandler_spec.
  - by apply step_run_invariant.
  - by apply invariant_processor.
  - by apply (step_list_invariant list1 list2 ls s (Ok ms)).
  - by apply (step_list_invariant list1 list2 ls s (Err e)).
  - by apply step_event_invariant.
  - eapply reflector_steps; [done|congruence|]. do 4 eexists. split; [done|]. split; [done|].
    rewrite told_snoc. split; [done|]. eapply sync_internal; [exact Hsy|by left].
  - assert (may_resync s = true) as Hm by (unfold may_resync; by rewrite bool_decide_eq_false_2).
    destruct (sync_keys_spec (indexer s) (fifo s) (told ls) (Store.ListKeys (indexer s)) Hse) as (f' & E' & HR & Hg & Hp').
    assert (f' = f) as -> by (unfold Resync in E; congruence).
    split; simpl; [done|by rewrite told_snoc|exact (invariant_resync _ _ _ _ _ Hinv Hm Hp)| |].
    + intros E0. destruct (Hid E0) as [? _]. congruence.
    + eapply sync_grows; [done|exact Hg| |exact Hsy]. intros E0. by destruct (sync_before _ _ _ _ Hsy E0).
  - assert (may_resync s = true) as Hm by (unfold may_resync; by rewrite bool_decide_eq_false_2).
    apply invariant_processor; [done|done|]. by eapply invariant_resync.
  - destruct (turn_done _ _ _ _ Hinv E) as [q Hq]. destruct (turn_spec _ _ _ _ Hinv Hq) as (s2 & E2 & _ & Hi & _).
    congruence.
  - eapply on_listener_spec; [done| |exact E]. intros l0 h l' E0 Hh El. rewrite Hl in E0. injection E0 as ->.
    destruct (listener_dispatch_spec _ _ Hh Hrun) as (l2 & ? & ?). congruence.
  - eapply on_listener_spec; [done| |exact E]. intros l0 h l' _ Hh El.
    destruct (listener_handle_spec _ _ Hh) as (l2 & ? & ?). congruence.
  - apply invariant_fifo; [done..| |].
    + rewrite told_snoc. by apply represents_close.
    + apply (sync_internal ls (indexer s) (fifo s) (reflecting s)); [done|]. destruct (reflecting s); auto.
  - apply invariant_fifo; [done| |done|by rewrite told_snoc|].
    + destruct (started s) eqn:E; [done|]. destruct (Hid eq_refl) as (_ & Hf & _). by rewrite Hf in Hc.
    + eapply sync_internal; [exact Hsy|by left].
  - split; simpl; [done|by rewrite told_snoc|by constructor| |].
    + intros E. destruct (Hid E). congruence.
    + eapply sync_internal; [exact Hsy|by left].
Qed.

Lemma informer_steps_invariant resync ls s :
  steps (NewSharedIndexInformer resync fs) ls s → invariant ls s.
Proof.
  intros Hs. remember (NewSharedIndexInformer resync fs) as s0 eqn:E.
  induction Hs as [s|s ls s' l s'' _ IH Hstep]; subst; [apply invariant_new|].
  eapply step_invariant; [by apply IH|done].
Qed.
End informer.
