(* ===== verification/InformerRuns.v ===== *)
(** * Runs of the shared informer

    The properties of every run: the listeners hear what the store holds, the
    work settles in what the reflector was told, and HasSynced means what its
    users take it to mean. *)
From S2P Require Import Tracker.
From S2P Require Export InformerProps.

Local Open Scope Z_scope.
Import v1alpha1.

(** ** The work the informer does on its own *)

Definition is_work (l : label) : Prop :=
  match l with Processed _ | Delivered _ => True | _ => False end.

Definition weight (l : processorListener) : nat :=
  2 * (length (option_list (notified l)) + readable (pendingNotifications l)) + length (option_list (running l)).

Definition backlog (p : sharedProcessor) : nat := sum_list ((λ lb, weight lb.1) <$> listeners p).

Lemma dispatch_weight l l' :
  is_Some (notified l) → running l = None → listener_dispatch l = Some l' → (weight l' < weight l)%nat.
Proof.
  unfold listener_dispatch, ReadOne, weight. intros [n ->] ->. case_bool_decide as Hr.
  - intros [= <-]. simpl. lia.
  - destruct (data (pendingNotifications l) !! beg (pendingNotifications l)) as [o|]; [|done]. intros [= <-].
    destruct o; simpl; lia.
Qed.

Lemma handle_weight l l' : is_Some (running l) → listener_handle l = Some l' → (weight l' < weight l)%nat.
Proof.
  unfold listener_handle, weight. intros [n ->]. destruct (isInitial n), (count l - 1 <? 0); try done;
    intros [= <-]; simpl; lia.
Qed.

Lemma sum_list_insert_lt (l : list nat) i x y : l !! i = Some x → (y < x)%nat → (sum_list (<[i := y]> l) < sum_list l)%nat.
Proof.
  revert i. induction l as [|z l IH]; intros [|i] E Hy; simplify_eq/=; [lia|]. specialize (IH i E Hy). lia.
Qed.

Lemma on_listener_backlog i f p p' l b :
  listeners p !! i = Some (l, b) → (∀ l', f l = Some l' → (weight l' < weight l)%nat) →
  on_listener i f p = Some p' → (backlog p' < backlog p)%nat ∧ listenersStarted p' = listenersStarted p.
Proof.
  intros Hl Hf E. unfold on_listener in E. rewrite Hl in E. simpl in E.
  destruct (f l) as [l'|] eqn:El; [|done]. injection E as <-. split; [|done]. unfold backlog. simpl.
  rewrite list_fmap_insert. eapply sum_list_insert_lt; [by rewrite list_lookup_fmap, Hl|]. by apply Hf.
Qed.

Section runs.
Context `{MapOrder} (fs : gmap string (IndexFunc any)).
Context (Hfs : ∀ m, accepted fs (AnyMigration m)).

Definition work (s s' : sharedIndexInformer) : Prop := ∃ l, is_work l ∧ step s l s'.

(** What a step of the work does. *)
Lemma work_spec ls s l s' :
  invariant fs ls s → is_work l → step s l s' →
  invariant fs (ls ++ [l]) s' ∧ told (ls ++ [l]) = told ls ∧
  started s' = started s ∧ listenersStarted (processor s') = listenersStarted (processor s) ∧
  ((length (queue (fifo s')) < length (queue (fifo s)))%nat ∨
   queue (fifo s') = queue (fifo s) ∧ (backlog (processor s') < backlog (processor s))%nat).
Proof.
  intros Hinv Hw Hstep. split; [by eapply step_invariant|]. split; [rewrite told_snoc; by destruct l|].
  destruct Hstep; try done.
  - match goal with E : processLoop_turn _ = _ |- _ => rename E into Et end.
    destruct (turn_done _ Hfs _ _ _ _ Hinv Et) as [q Hq].
    destruct (turn_spec _ Hfs _ _ _ _ Hinv Hq) as (s2 & E2 & Hq2 & _ & Hs2 & Hp2 & _).
    assert (s2 = s') as -> by congruence. split_and!; [done..|]. left. rewrite Hq, Hq2. simpl. lia.
  - match goal with E : on_listener _ _ _ = _ |- _ => rename E into Eo end.
    destruct (on_listener_backlog _ _ _ _ l b ltac:(done) ltac:(eauto using dispatch_weight) Eo). by auto.
  - match goal with E : on_listener _ _ _ = _ |- _ => rename E into Eo end.
    destruct (on_listener_backlog _ _ _ _ l b ltac:(done) ltac:(eauto using handle_weight) Eo). by auto.
Qed.

Lemma work_terminates ls s : invariant fs ls s → Acc (flip work) s.
Proof.
  remember (length (queue (fifo s))) as n eqn:En. revert ls s En.
  induction (lt_wf n) as [n _ IHn]. intros ls s En.
  remember (backlog (processor s)) as k eqn:Ek. revert ls s En Ek.
  induction (lt_wf k) as [k _ IHk]. intros ls s -> -> Hinv. constructor. intros s' (l & Hl & Hstep).
  destruct (work_spec _ _ _ _ Hinv Hl Hstep) as (Hinv' & _ & _ & _ & [Hlt|[Hq Hlt]]); [by eapply IHn|].
  eapply IHk; [exact Hlt|congruence|done|done].
Qed.

Lemma works_spec ls s s' :
  invariant fs ls s → rtc work s s' →
  ∃ ls', invariant fs ls' s' ∧ told ls' = told ls ∧ started s' = started s ∧
    listenersStarted (processor s') = listenersStarted (processor s).
Proof.
  intros Hinv Hs. revert ls Hinv. induction Hs as [s|s s1 s2 (l & Hl & Hstep) _ IH]; intros ls Hinv; [by exists ls|].
  destruct (work_spec _ _ _ _ Hinv Hl Hstep) as (Hinv1 & <- & <- & <- & _). by apply IH.
Qed.

Lemma on_listener_enabled i f p l b l' :
  listeners p !! i = Some (l, b) → f l = Some l' → ∃ p', on_listener i f p = Some p'.
Proof. intros Hl Hf. unfold on_listener. rewrite Hl. simpl. rewrite Hf. simpl. eauto. Qed.

(** Where the work stops: nothing is queued and nothing waits. *)
Lemma work_stuck ls s :
  invariant fs ls s → started s = true → listenersStarted (processor s) = true → (∀ s', ¬ work s s') →
  queue (fifo s) = [] ∧ ∀ l b h, (l, b) ∈ listeners (processor s) → heard l h → h = called l.
Proof.
  intros Hinv Hs Hp Hno. split.
  - destruct (queue (fifo s)) as [|id q] eqn:Hq; [done|]. destruct (turn_spec _ Hfs _ _ _ _ Hinv Hq) as (s' & E & _).
    destruct (Hno s'). exists (Processed id). split; [done|]. by apply step_pop.
  - intros l b h [i Hi]%list_elem_of_lookup Hh. pose proof Hh as (q & _ & Hq & -> & _).
    destruct (running l) as [n|] eqn:Er.
    { destruct (listener_handle_spec _ _ Hh) as (l' & El & _).
      destruct (on_listener_enabled _ _ _ _ _ _ Hi El) as [p' Ep].
      destruct (Hno (with_processor p' s)). exists (Delivered i). split; [done|].
      eapply step_handle; [done|exact Hi|by rewrite Er|done]. }
    destruct (notified l) as [n|] eqn:En.
    { destruct (listener_dispatch_spec _ _ Hh Er) as (l' & El & _).
      destruct (on_listener_enabled _ _ _ _ _ _ Hi El) as [p' Ep].
      destruct (Hno (with_processor p' s)). exists (Delivered i). split; [done|].
      eapply step_dispatch; [done|exact Hi|by rewrite En|done|done]. }
    unfold waiting. rewrite Er, En, (Hq eq_refl). by rewrite app_nil_r.
Qed.

(** What a listener was told replays to the store. *)
Lemma listener_replays ls s l b :
  invariant fs ls s → (l, b) ∈ listeners (processor s) →
  ∃ h, heard l h ∧
    (∃ V, replays same_version h V ∧ agree same_version V (items (indexer s))) ∧
    (reflector_resyncPeriod (reflector s) = 0 → replays eq h (items (indexer s))).
Proof.
  intros Hinv Hin. pose proof (inv_follows _ _ _ Hinv) as HF. rewrite Forall_forall in HF.
  destruct (HF _ Hin) as (_ & h & Hh & HV). exists h. split; [done|]. split.
  - apply HV; [apply _|]. intros _. apply same_version_skips.
  - intros Hr. destruct (HV eq _) as (V & HrV & Ha).
    + unfold may_resync. by rewrite bool_decide_eq_true_2.
    + by rewrite (agree_eq _ _ Ha) in HrV.
Qed.

Lemma drained ls s : invariant fs ls s → queue (fifo s) = [] → items (indexer s) = told ls.
Proof.
  intros Hinv Hq. apply map_eq. intros k. destruct (inv_seen _ _ _ Hinv) as [Hok _ Hv]. rewrite <- Hv. unfold view.
  destruct (fifo_items (fifo s) !! k) eqn:E; [|done].
  assert (k ∈ queue (fifo s)) as Hk by (apply (fo_queue _ _ Hok); eauto). rewrite Hq in Hk. by apply elem_of_nil in Hk.
Qed.

(** C13. A listener of the informer hears the store.  Whatever lists and watch
    events the API server sends, whenever they fail, and however the goroutines
    of the reflector, the controller and the listeners interleave: the store
    keeps its indices right and the informer never panics; once the queue is
    empty the store holds exactly what the reflector was told; and to every
    handler, whenever it was added, the notifications handed out or still
    waiting for it tell a sensible story (what is added is new, what is updated
    or deleted is there, the objects are migrations) that ends in the objects
    of the store, up to objects of the same version for a handler that skips
    resyncs, and exactly when the informer does no resyncs, as in this
    program. *)
Theorem informer_tells_all (resync : Duration) (ls : list label) (s : sharedIndexInformer) :
  steps (NewSharedIndexInformer resync fs) ls s →
  reachable fs (indexer s) ∧ processLoop_turn s ≠ PopPanic ∧
  (queue (fifo s) = [] → items (indexer s) = told ls) ∧
  ∀ l b, (l, b) ∈ listeners (processor s) →
    (running l = None → is_Some (listener_dispatch l)) ∧ is_Some (listener_handle l) ∧
    ∃ h, heard l h ∧
      (∃ V, replays same_version h V ∧ agree same_version V (items (indexer s))) ∧
      (reflector_resyncPeriod (reflector s) = 0 → replays eq h (items (indexer s))).
Proof.
  intros Hs. apply (informer_steps_invariant _ Hfs) in Hs as Hinv. split; [apply Hinv|]. split; [|split].
  - destruct (queue (fifo s)) as [|id q] eqn:Hq.
    + unfold processLoop_turn, pop_next. rewrite Hq. simpl. by destruct (closed (fifo s)).
    + by destruct (turn_spec _ Hfs _ _ _ _ Hinv Hq) as (s' & -> & _).
  - by apply drained.
  - intros l b Hin. destruct (listener_replays _ _ _ _ Hinv Hin) as (h & Hh & Hr). split_and!; [| |by exists h].
    + intros Er. destruct (listener_dispatch_spec _ _ Hh Er) as (l' & -> & _). by eexists.
    + destruct (listener_handle_spec _ _ Hh) as (l' & -> & _). by eexists.
Qed.

(** C14. The informer catches up.  In a run of the informer whose processor is
    running, once the API server says nothing more, the work that is left
    (popping the queue, handing notifications on, calling the handlers) ends
    after finitely many steps in whatever order it is done; and where it ends
    the store is what the reflector was told, and every handler has been called
    with all its notifications, which replay to that store. *)
Theorem informer_settles (resync : Duration) (ls : list label) (s : sharedIndexInformer) :
  steps (NewSharedIndexInformer resync fs) ls s → started s = true → listenersStarted (processor s) = true →
  Acc (flip work) s ∧
  ∀ s', rtc work s s' → (∀ s'', ¬ work s' s'') →
    queue (fifo s') = [] ∧ items (indexer s') = told ls ∧
    ∀ l b, (l, b) ∈ listeners (processor s') →
      ∃ V, replays same_version (called l) V ∧ agree same_version V (told ls).
Proof.
  intros Hsteps Hs Hp. apply (informer_steps_invariant _ Hfs) in Hsteps as Hinv. split; [by eapply work_terminates|].
  intros s' Hw Hno. destruct (works_spec _ _ _ Hinv Hw) as (ls' & Hinv' & Ht & Es & Ep).
  destruct (work_stuck _ _ Hinv' ltac:(congruence) ltac:(congruence) Hno) as [Hq Hl].
  pose proof (drained _ _ Hinv' Hq) as Hi. split_and!; [done|congruence|]. intros l b Hin.
  destruct (listener_replays _ _ _ _ Hinv' Hin) as (h & Hh & (V & HV & Ha) & _).
  rewrite (Hl _ _ _ Hin Hh) in HV. exists V. split; [done|]. by rewrite <- Ht, <- Hi.
Qed.

End runs.

(** ** A run *)

(** The indices of both controllers accept every migration. *)
Lemma StatusIndexers_accept m : accepted StatusIndexers (AnyMigration m).
Proof.
  intros name f Hf. unfold StatusIndexers in Hf. apply lookup_singleton_Some in Hf as [_ <-]. simpl.
  repeat case_match; eauto.
Qed.

Lemma StatusAndResourceIndexers_accept m : accepted StatusAndResourceIndexers (AnyMigration m).
Proof.
  intros name f Hf. unfold StatusAndResourceIndexers in Hf.
  apply lookup_insert_Some in Hf as [[_ <-]|[_ Hf]]; [simpl; repeat case_match; eauto|].
  apply lookup_singleton_Some in Hf as [_ <-]. simpl. eauto.
Qed.

(** Moves to play: an execution of the informer where every call succeeds. *)
Inductive move :=
  | AddHandler (period : Duration) (now : Time)
  | StartRun
  | StartProcessor
  | ListOk (ms : list StorageVersionMigration) (rv : string)
  | WatchEvent (e : Event)
  | Turn
  | Dispatch (i : nat)
  | Handle (i : nat).

Section play.
Context `{MapOrder}.

Definition play_one (m : move) (s : sharedIndexInformer) : option (label * sharedIndexInformer) :=
  match m with
  | AddHandler period now =>
      match AddEventHandlerWithResyncPeriod period now s with Some (_, s') => Some (Internal, s') | None => None end
  | StartRun => Some (Internal, Run s)
  | StartProcessor =>
      if started s && negb (stopped s) then Some (Internal, with_processor (processor_run (processor s)) s) else None
  | ListOk ms rv =>
      match reflecting s, list_at (λ _, Ok (ms, rv)) (λ _, Ok (ms, rv)) (indexer s) (reflector s) (fifo s) with
      | Listing, (Ok ms', r, f) => Some (Listed ms', with_fifo r Watching f [] s)
      | _, _ => None
      end
  | WatchEvent e =>
      match reflecting s, watch_event e (indexer s) (fifo s) with
      | Watching, (errs, rv, f) =>
          if bool_decide (Event_Type e = watch_Error) then None
          else Some (Watched e, with_fifo (match rv with Some rv => setLastSyncResourceVersion rv (reflector s)
                                           | None => reflector s end) Watching f errs s)
      | _, _ => None
      end
  | Turn =>
      if started s && listenersStarted (processor s) then
        match processLoop_turn s with PopDone id s' => Some (Processed id, s') | _ => None end
      else None
  | Dispatch i =>
      match listeners (processor s) !! i with
      | Some (l, b) =>
          if listenersStarted (processor s) && bool_decide (is_Some (notified l)) && bool_decide (¬ is_Some (running l))
          then match on_listener i listener_dispatch (processor s) with
               | Some p => Some (Delivered i, with_processor p s) | None => None end
          else None
      | None => None
      end
  | Handle i =>
      match listeners (processor s) !! i with
      | Some (l, b) =>
          if listenersStarted (processor s) && bool_decide (is_Some (running l))
          then match on_listener i listener_handle (processor s) with
               | Some p => Some (Delivered i, with_processor p s) | None => None end
          else None
      | None => None
      end
  end.

Lemma play_one_step m s l s' : play_one m s = Some (l, s') → step s l s'.
Proof.
  destruct m as [period now| | |ms rv|e| |i|i]; simpl.
  - destruct (AddEventHandlerWithResyncPeriod period now s) as [[err s1]|] eqn:E; [|done]. intros [= <- <-].
    by eapply step_handler.
  - intros [= <- <-]. apply step_run.
  - destruct (started s) eqn:E1, (stopped s) eqn:E2; simpl; try done. intros [= <- <-]. by apply step_processor.
  - destruct (reflecting s) eqn:Eph; try done. destruct (list_at _ _ _ _ _) as [[[ms'|] r] f] eqn:E; [|done].
    intros [= <- <-]. by eapply step_list.
  - destruct (reflecting s) eqn:Eph; try done. destruct (watch_event _ _ _) as [[errs rv] f] eqn:E.
    case_bool_decide; [done|]. intros [= <- <-]. by apply step_event.
  - destruct (started s) eqn:E1, (listenersStarted (processor s)) eqn:E2; simpl; try done.
    destruct (processLoop_turn s) eqn:E; try done. intros [= <- <-]. by apply step_pop.
  - destruct (listeners (processor s) !! i) as [[l0 b]|] eqn:Ei; [|done].
    destruct (listenersStarted (processor s)) eqn:E2; [|done]. repeat case_bool_decide; try done. simpl.
    destruct (on_listener _ _ _) eqn:E; [|done]. intros [= <- <-].
    eapply step_dispatch; [done|exact Ei|done| |done]. by apply eq_None_not_Some.
  - destruct (listeners (processor s) !! i) as [[l0 b]|] eqn:Ei; [|done].
    destruct (listenersStarted (processor s)) eqn:E2; [|done]. case_bool_decide; try done. simpl.
    destruct (on_listener _ _ _) eqn:E; [|done]. intros [= <- <-]. by eapply step_handle.
Qed.

Fixpoint play (moves : list move) (ls : list label) (s : sharedIndexInformer) : option (list label * sharedIndexInformer) :=
  match moves with
  | [] => Some (ls, s)
  | m :: moves => match play_one m s with Some (l, s') => play moves (ls ++ [l]) s' | None => None end
  end.

Lemma play_steps moves s0 ls s ls' s' : steps s0 ls s → play moves ls s = Some (ls', s') → steps s0 ls' s'.
Proof.
  revert ls s. induction moves as [|m moves IH]; intros ls s Hs; simpl; [by intros [= <- <-]|].
  destruct (play_one m s) as [[l s1]|] eqn:E; [|done]. apply IH. eapply steps_snoc; [exact Hs|].
  by apply play_one_step in E.
Qed.
End play.

Definition versioned (name rv : string) : StorageVersionMigration :=
  {| svm_Meta := {| metav1.Name := name; metav1.GenerateName := ""; metav1.Namespace := "";
                    metav1.ResourceVersion := rv; metav1.UID := ""; metav1.Labels := ∅ |};
     svm_Spec := {| Spec_Resource := {| Group := ""; Version := "v1"; Resource := "secrets" |};
                    ContinueToken := "" |};
     svm_Status := {| Conditions := [] |} |}.

(** A list of two migrations, then one of them changes and the other goes. *)
Definition some_moves : list move :=
  [AddHandler 0 0; StartRun; StartProcessor; ListOk [versioned "a" "1"; versioned "b" "2"] "2"; Turn;
   WatchEvent {| Event_Type := watch.Modified; Event_Object := AnyMigration (versioned "a" "3") |}; Turn;
   WatchEvent {| Event_Type := watch.Deleted; Event_Object := AnyMigration (versioned "b" "2") |}; Turn; Turn;
   Dispatch 0; Handle 0; Dispatch 0; Handle 0; Dispatch 0].

#[local] Existing Instance sorted_order.

Definition new_informer : sharedIndexInformer := NewSharedIndexInformer 0 StatusIndexers.
Definition played : list label * sharedIndexInformer := default ([], new_informer) (play some_moves [] new_informer).

Lemma played_steps : steps new_informer played.1 played.2.
Proof.
  assert (is_Some (play some_moves [] new_informer)) as [[ls s] E] by (vm_compute; eauto).
  unfold played. rewrite E. eapply play_steps; [constructor|exact E].
Qed.

Example played_state :
  queue (fifo played.2) = [] ∧ items (indexer played.2) = {["a" := AnyMigration (versioned "a" "3")]} ∧
  (λ lb, waiting lb.1 []) <$> listeners (processor played.2) =
    [[updateNotification (AnyMigration (versioned "a" "1")) (AnyMigration (versioned "a" "3"));
      deleteNotification (AnyMigration (versioned "b" "2"))]].
Proof. split_and!; vm_compute; reflexivity. Qed.

Lemma informer_tells_all_witness :
  reachable StatusIndexers (indexer played.2) ∧ processLoop_turn played.2 ≠ PopPanic ∧
  (queue (fifo played.2) = [] → items (indexer played.2) = told played.1) ∧
  ∀ l b, (l, b) ∈ listeners (processor played.2) →
    (running l = None → is_Some (listener_dispatch l)) ∧ is_Some (listener_handle l) ∧
    ∃ h, heard l h ∧
      (∃ V, replays same_version h V ∧ agree same_version V (items (indexer played.2))) ∧
      (reflector_resyncPeriod (reflector played.2) = 0 → replays eq h (items (indexer played.2))).
Proof. exact (informer_tells_all StatusIndexers StatusIndexers_accept 0 played.1 played.2 played_steps). Defined.

Lemma informer_settles_witness :
  Acc (flip work) played.2 ∧
  ∀ s', rtc work played.2 s' → (∀ s'', ¬ work s' s'') →
    queue (fifo s') = [] ∧ items (indexer s') = told played.1 ∧
    ∀ l b, (l, b) ∈ listeners (processor s') →
      ∃ V, replays same_version (called l) V ∧ agree same_version V (told played.1).
Proof.
  apply (informer_settles StatusIndexers StatusIndexers_accept 0 played.1 played.2 played_steps);
    vm_compute; reflexivity.
Defined.

