(* ===== verification/InformerMirror.v ===== *)
(** * The informer over the fake clientset

    List and watch of the fake are what the reflector calls in the tests; put
    together with the informer, the store of the informer is the collection of
    the server. *)
From S2P Require Import FakeProps.
From S2P Require Export InformerRuns.

Local Open Scope Z_scope.
Import v1alpha1.

(** An API object as the interface value the informer sees. *)
Definition to_any (obj : Object) : any :=
  match obj with
  | OMigration m => AnyMigration m
  | _ => AnyOther ("*" +:+ TypeName (object_TypeOf obj))
  end.

Definition from_watch (ev : watch.Event) : Event :=
  {| Event_Type := watch.Event_Type ev; Event_Object := to_any (watch.Event_Object ev) |}.

Definition as_store (m : gmap string StorageVersionMigration) : gmap string any := AnyMigration <$> m.

(** What the API server said in a run, in order. *)
Definition is_said (l : label) : bool := match l with Listed _ | Watched _ => true | _ => false end.

Definition from_server (ls : list label) : list label := filter (λ l, is_said l = true) ls.

Lemma told_from_server ls : told ls = told (from_server ls).
Proof.
  unfold told. generalize (∅ : gmap string any). induction ls as [|l ls IH]; intros seen; [done|].
  unfold from_server. rewrite filter_cons. simpl. rewrite IH. by destruct l.
Qed.

Definition tells_all (seen : gmap string any) (evs : list watch.Event) : gmap string any :=
  foldl tell seen ((λ ev, Watched (from_watch ev)) <$> evs).

Lemma tells_all_app seen evs1 evs2 : tells_all seen (evs1 ++ evs2) = tells_all (tells_all seen evs1) evs2.
Proof. unfold tells_all. by rewrite fmap_app, foldl_app. Qed.

Lemma mkey_named m : metav1.Namespace (svm_Meta m) = "" → mkey m = svm_Name m.
Proof. intros Hn. unfold mkey. by rewrite Hn. Qed.

(** One event, from one state of the server to the next. *)
Lemma tells_event m m' ev :
  named FakeStorageVersionMigrations m → named FakeStorageVersionMigrations m' →
  apply_event FakeStorageVersionMigrations (Some m) ev = Some m' →
  tell (as_store m) (Watched (from_watch ev)) = as_store m'.
Proof.
  intros Hm Hm'. unfold apply_event, from_watch. destruct ev as [ty obj]. simpl.
  destruct obj as [x| | | | | |]; try done. simpl.
  change (name_of FakeStorageVersionMigrations x) with (svm_Name x). unfold as_store.
  assert (∀ k (K : gmap string StorageVersionMigration), named FakeStorageVersionMigrations K → K !! k = Some x →
    mkey x = svm_Name x) as Hkey.
  { intros k K HK E. destruct (HK _ _ E) as [_ Hns]. by apply mkey_named. }
  destruct (m !! svm_Name x) as [old|] eqn:E.
  - case_bool_decide as Hmod.
    + intros [= <-]. subst ty. simpl. rewrite fmap_insert. f_equal.
      apply (Hkey (svm_Name x) (<[svm_Name x := x]> m) Hm'). apply lookup_insert_eq.
    + case_bool_decide as Hdel; [|done]. case_bool_decide; [|done]. intros [= <-]. subst. simpl.
      rewrite fmap_delete. f_equal. by apply (Hkey (svm_Name x) m).
  - case_bool_decide as Hadd; [|done]. intros [= <-]. subst ty. simpl. rewrite fmap_insert. f_equal.
    apply (Hkey (svm_Name x) (<[svm_Name x := x]> m) Hm'). apply lookup_insert_eq.
Qed.

Section mirror.
Context `{SelectorParser} `{PatcherLaws}.

Lemma serve_tells n c s f a s' evs :
  ready (S n) f → FakeProps.represents s (fake_tracker f) → serve c s = Some (a, s', evs) →
  tells_all (as_store (srv_migrations s)) (events_of migrations_resource evs) = as_store (srv_migrations s').
Proof.
  intros HR [Hm Hs]. destruct c as [o|o]; simpl.
  - pose proof (perform_spec FakeStorageVersionMigrations n o _ f HR Hm) as Hp.
    destruct (spec _ o _) as [[[r m'] evs']|] eqn:E; [|done]. intros [= _ <- <-]. rewrite events_of_same. simpl.
    destruct Hp as (f' & act & _ & _ & HT & _ & Hlen & _).
    pose proof (spec_replay _ o _ _ _ _ (tracked_names _ _ _ Hm) E) as Hr.
    destruct evs' as [|ev [|]]; [by injection Hr as ->| |simpl in Hlen; lia].
    apply (tells_event _ _ _ (tracked_names _ _ _ Hm) (tracked_names _ _ _ HT) Hr).
  - destruct (spec _ o _) as [[[r m'] evs']|] eqn:E; [|done]. intros [= _ <- <-].
    by rewrite events_of_other by apply resources_differ.
Qed.

Lemma serve_all_tells cs s f answers s' evs :
  ready (length cs) f → FakeProps.represents s (fake_tracker f) → serve_all cs s = Some (answers, s', evs) →
  tells_all (as_store (srv_migrations s)) (events_of migrations_resource evs) = as_store (srv_migrations s').
Proof.
  revert s answers s' evs f. induction cs as [|c cs IH]; intros s answers s' evs f HR Hrep; simpl.
  { by intros [= _ <- <-]. }
  pose proof (perform_call_spec _ c s f HR Hrep) as Hc.
  destruct (serve c s) as [[[a s1] evs1]|] eqn:E; simpl; [|done].
  destruct Hc as (f1 & act & _ & HR1 & Hrep1 & _).
  destruct (serve_all cs s1) as [[[answers2 s2] evs2]|] eqn:E2; simpl; [|done]. intros [= _ <- <-].
  rewrite events_of_app, tells_all_app, (serve_tells _ _ _ _ _ _ _ HR Hrep E). by eapply IH.
Qed.

(** What a list makes of the store. *)
Lemma of_list_all (m : gmap string StorageVersionMigration) ms :
  named FakeStorageVersionMigrations m → ms ≡ₚ (map_to_list m).*2 → of_list ms ∅ = as_store m.
Proof.
  intros Hm HP. apply map_eq. intros k. unfold as_store. rewrite lookup_fmap.
  assert (∀ x, x ∈ ms ↔ m !! mkey x = Some x ∧ mkey x = svm_Name x) as Hin.
  { intros x. rewrite HP, list_elem_of_fmap. split.
    - intros ([n y] & -> & Hy%elem_of_map_to_list). simpl. destruct (Hm _ _ Hy) as [<- Hns].
      rewrite (mkey_named y Hns). done.
    - intros [Hx _]. exists (mkey x, x). split; [done|]. by apply elem_of_map_to_list. }
  assert (∀ l V, (∀ x, x ∈ l → m !! mkey x = Some x) →
    of_list l V !! k = if decide (k ∈ mkey <$> l) then AnyMigration <$> m !! k else V !! k) as Hof.
  { induction l as [|x l IH]; intros V Hl; [done|].
    change (of_list (x :: l) V) with (of_list l (<[mkey x := AnyMigration x]> V)).
    rewrite IH by set_solver. csimpl. destruct (decide (k ∈ mkey <$> l)).
    - by rewrite decide_True by set_solver.
    - destruct (decide (k = mkey x)) as [->|Hne].
      + rewrite decide_True by set_solver. rewrite lookup_insert_eq, (Hl x) by left. done.
      + rewrite decide_False by set_solver. by rewrite lookup_insert_ne. }
  rewrite Hof by (intros x Hx; by apply Hin). case_decide as Hk; [done|]. rewrite lookup_empty.
  destruct (m !! k) as [x|] eqn:E; [|done]. destruct Hk. apply list_elem_of_fmap.
  destruct (Hm _ _ E) as [Hn Hns]. exists x. rewrite (mkey_named x Hns). split; [done|]. apply Hin.
  rewrite (mkey_named x Hns). by rewrite <- E, <- Hn.
Qed.

Lemma everything_listed (m : gmap string StorageVersionMigration) label :
  (∀ ls, Matches label ls = true) →
  filter (λ x, label_matches FakeStorageVersionMigrations label x = true) (listed FakeStorageVersionMigrations m)
    ≡ₚ (map_to_list m).*2.
Proof.
  intros Hall. transitivity (listed FakeStorageVersionMigrations m); [|apply sort_by_perm].
  induction (listed FakeStorageVersionMigrations m) as [|x l IH]; [done|].
  rewrite filter_cons_True by apply Hall. by constructor.
Qed.

(** The list of the fake, seen as a call. *)
Lemma fake_List_spec n opts s f ms f1 :
  ready (S n) f → FakeProps.represents s (fake_tracker f) →
  FakeStorageVersionMigrations_List opts f = Some (Some ms, None, f1) →
  ready n f1 ∧ FakeProps.represents s (fake_tracker f1) ∧
  ∃ label fields rv, ExtractFromListOptions opts = Some (label, fields, rv) ∧
    ms = filter (λ x, label_matches FakeStorageVersionMigrations label x = true)
           (listed FakeStorageVersionMigrations (srv_migrations s)).
Proof.
  intros HR Hrep E. pose proof (perform_call_spec n (OnMigrations (OpList opts)) s f HR Hrep) as Hc.
  unfold FakeStorageVersionMigrations_List in E. simpl in Hc.
  destruct (ExtractFromListOptions opts) as [[[label fields] rv]|]; simpl in Hc.
  - destruct Hc as (f' & act & Ec & HR' & Hrep' & _). simpl in Ec. rewrite E in Ec. simpl in Ec.
    injection Ec as -> ->. by destruct s; eauto 10.
  - by rewrite E in Hc.
Qed.

(** C26. The informer mirrors the server.  Over the fake clientset: list the
    migrations, open a watch, let any calls be made on either typed client (as
    many as a watch channel buffers), and let an informer hear the answer to
    the list and then the events of the watch, its goroutines interleaved in
    any way, with handlers added at any time and failed lists and resyncs in
    between.  Then whenever the queue of the informer is empty, its store holds
    exactly the migrations of the server, by name. *)
Theorem informer_mirrors_fake `{MapOrder} (fs : gmap string (IndexFunc any)) (resync : Duration)
    (s s' : server) (f f1 f2 f3 : Fake) (opts : FakeListOptions) (ms : list StorageVersionMigration) (w : nat)
    (calls : list FakeProps.call) (answers : list answer) (evs : list change) (ls : list label) (inf : sharedIndexInformer) :
  (∀ m, accepted fs (AnyMigration m)) →
  ready (S (length calls)) f → (length calls ≤ watch.DefaultChanSize)%nat → FakeProps.represents s (fake_tracker f) →
  (∀ label fields rv, ExtractFromListOptions opts = Some (label, fields, rv) → ∀ l, Matches label l = true) →
  FakeStorageVersionMigrations_List opts f = Some (Some ms, None, f1) →
  FakeStorageVersionMigrations_Watch opts f1 = Some (Some w, None, f2) →
  serve_all calls s = Some (answers, s', evs) → perform_all calls f2 = Some (answers, f3) →
  steps (NewSharedIndexInformer resync fs) ls inf →
  from_server ls = Listed ms :: ((λ ev, Watched (from_watch ev)) <$> received w f3) →
  queue (fifo inf) = [] →
  items (indexer inf) = AnyMigration <$> srv_migrations s'.
Proof.
  intros Hfs HR Hn Hrep Hopts Elist Ewatch Es Ep Hsteps Hls Hq.
  destruct (fake_List_spec _ _ _ _ _ _ HR Hrep Elist) as (HR1 & Hrep1 & label & fields & rv & Eo & ->).
  destruct (watch_run _ _ _ _ _ _ _ _ _ _ HR1 Hn Hrep1 Ewatch Es) as (f3' & Ep' & Hrec).
  assert (f3' = f3) as -> by congruence.
  apply (informer_steps_invariant _ Hfs) in Hsteps as Hinv. rewrite (drained _ _ _ Hinv Hq), told_from_server, Hls.
  unfold told. simpl. rewrite (of_list_all (srv_migrations s)).
  - rewrite Hrec. exact (serve_all_tells _ _ _ _ _ _ HR1 Hrep1 Es).
  - apply (tracked_names _ _ _ (represents_migrations _ _ Hrep)).
  - apply everything_listed. by eapply Hopts.
Qed.
End mirror.

(** ** A run over the fake *)

#[local] Existing Instance sorted_order.

Definition served : list answer * server * list FakeProps.change :=
  default ([], empty_server, []) (serve_all some_calls empty_server).

Definition mirror_moves : list move :=
  [AddHandler 0 0; StartRun; StartProcessor; ListOk [] "0"] ++
  (WatchEvent ∘ from_watch <$> events_of migrations_resource served.2) ++ [Turn; Turn].

Definition mirrored : list label * sharedIndexInformer := default ([], new_informer) (play mirror_moves [] new_informer).

Lemma mirrored_steps : steps new_informer mirrored.1 mirrored.2.
Proof.
  assert (is_Some (play mirror_moves [] new_informer)) as [[ls s] E] by (vm_compute; eauto).
  unfold mirrored. rewrite E. eapply play_steps; [constructor|exact E].
Qed.

(** The fake calls of that run. *)
Lemma mirror_calls :
  ∃ f1 w f2 f3,
    FakeStorageVersionMigrations_List some_options empty_fake = Some (Some [], None, f1) ∧
    FakeStorageVersionMigrations_Watch some_options f1 = Some (Some w, None, f2) ∧
    perform_all some_calls f2 = Some (served.1.1, f3) ∧ received w f3 = events_of migrations_resource served.2.
Proof.
  destruct empty_fake_ready as [Hrep HR].
  pose proof (perform_call_spec (length some_calls) (OnMigrations (OpList some_options)) _ _ (HR _) Hrep) as Hc.
  simpl in Hc. destruct Hc as (f1 & act & Ec & HR1 & Hrep1 & _). simpl in Ec.
  destruct (fake_List FakeStorageVersionMigrations some_options empty_fake) as [[[l err] f1']|] eqn:E; [|done].
  simpl in Ec. injection Ec as -> -> ->.
  destruct (fake_Watch FakeStorageVersionMigrations some_options f1) as [r|] eqn:Ew; [|done].
  assert (length some_calls ≤ watch.DefaultChanSize)%nat as Hn by (simpl; unfold watch.DefaultChanSize; lia).
  destruct (fake_Watch_spec _ _ _ _ _ _ HR1 Hn Hrep1 Ew) as (w & f2 & -> & _).
  destruct (watch_run _ _ _ _ _ _ some_calls served.1.1 served.1.2 served.2 HR1 Hn Hrep1 Ew) as (f3 & E3 & Hrec).
  { vm_compute. reflexivity. }
  exists f1, w, f2, f3. split; [exact E|]. split; [exact Ew|]. split; [exact E3|exact Hrec].
Qed.

Lemma informer_mirrors_fake_witness :
  queue (fifo mirrored.2) = [] ∧ items (indexer mirrored.2) = AnyMigration <$> srv_migrations served.1.2.
Proof.
  split; [vm_compute; reflexivity|].
  destruct mirror_calls as (f1 & w & f2 & f3 & El & Ew & Ep & Hrec).
  apply (informer_mirrors_fake StatusIndexers 0 empty_server served.1.2 empty_fake f1 f2 f3 some_options [] w
           some_calls served.1.1 served.2 mirrored.1 mirrored.2).
  - apply StatusIndexers_accept.
  - apply empty_fake_ready.
  - simpl. unfold watch.DefaultChanSize. lia.
  - apply empty_fake_ready.
  - intros label fields rv E. vm_compute in E. by injection E as <- _ _.
  - exact El.
  - exact Ew.
  - vm_compute. reflexivity.
  - exact Ep.
  - exact mirrored_steps.
  - rewrite Hrec. vm_compute. reflexivity.
  - vm_compute. reflexivity.
Defined.
