(* ===== verification/InformerTrigger.v ===== *)
(** * The informer under the migration trigger

    NewMigrationTrigger registers addResource, updateResource and deleteResource
    with the informer; here the handlers of TriggerLoop.v are called with what
    a listener of the informer hears. *)
From S2P Require Import TriggerLoop.
From S2P Require Export InformerRuns.

Local Open Scope Z_scope.
Import v1alpha1.



Section trigger.
Context {C : Type} `{Runtime C} `{StorageVersionMigrationInterface C} `{StorageStateInterface C}
  `{MigrationIndexer C} `{DiscoveryInterface C}.

(** cache.ResourceEventHandlerFuncs with the functions the trigger gives. *)
Definition trigger_hears (s : MigrationTrigger C) (n : notification) : MigrationTrigger C :=
  match n with
  | addNotification obj _ => addResource obj s
  | updateNotification oldObj obj => updateResource oldObj obj s
  | deleteNotification obj => deleteResource obj s
  end.

(** The item a migration is queued as. *)
Definition item_of (m : StorageVersionMigration) : queueItem :=
  {| qi_namespace := metav1.Namespace (svm_Meta m); qi_name := svm_Name m;
     qi_resource := Spec_Resource (svm_Spec m) |}.




End trigger.

(** ** The run of InformerRuns.v under a trigger *)

Definition played_listener : processorListener :=
  default (newProcessListener 0 0 0 1) (fst <$> (listeners (processor played.2) !! 0%nat)).


Example played_heap :
  heap (foldl trigger_hears loop_0 (called played_listener)) =
    item_of <$> [versioned "a" "1"; versioned "b" "2"].
Proof. vm_compute. reflexivity. Qed.
