(* ===== verification/Vouch.v ===== *)
(** * What a StorageState vouches for

    A StorageState tells which storage versions the objects of its resource
    may be stored in.  The trigger derives it from discovery, from the
    migrations it launches and from their success, while the API server, the
    migrator and other clients are at work.  [TriggerServer] is what that
    derivation relies on of them; [step] interleaves the rounds and the work
    of the trigger (Run handles them one at a time, TriggerLoop.v) with the
    others and with times when the trigger was away. *)
From S2P Require Export TriggerProps.

Local Open Scope Z_scope.
Import v1alpha1.

(** The StorageState is not up to date at [t]. *)
Definition stale_at (t : Time) (st : StorageStateStatus) : Prop :=
  LastHeartbeatTime st + 2 * discoveryPeriod < t.

(** The resources a discovery round goes through. *)
Definition listed (ls : list metav1.APIResourceList) (e : metav1.APIResource) : Prop :=
  ∃ l gv e0, l ∈ ls ∧ schema.ParseGroupVersion (metav1.GroupVersion l) = Ok gv ∧
    e0 ∈ metav1.APIResources l ∧ e = default_group_version gv e0.

Section vouch.
Context {C : Type} `{Runtime C} `{StorageVersionMigrationInterface C} `{StorageStateInterface C}
  `{MigrationIndexer C} `{DiscoveryInterface C}.

(** One resource, in the state [c] of the cluster: [current c] is the hash of
    the version its objects are written in, [stored c h] says that there is an
    object in version [h], [seen c] is the hash the last discovery found;
    [status_of c] is the status of its StorageState; [migration c n] says that
    there is a migration [n] of it, [wrote c n h] that [h] has been the current
    version since [n] was created, [finished c n] that [n] has succeeded.  [clock]
    is the time. *)
Class TriggerGhost := {
  current : C → string;
  stored : C → string → Prop;
  seen : C → string;
  status_of : C → option StorageStateStatus;
  migration : C → string → Prop;
  wrote : C → string → string → Prop;
  finished : C → string → Prop;
  clock : C → Time;
}.

(** A migration that has succeeded has rewritten every object, in a version
    that was current while it ran: StorageProps.migration_completes. *)
Definition completing `{TriggerGhost} (c : C) : Prop :=
  ∀ n h, migration c n → finished c n → stored c h → wrote c n h.

(** The hash the trigger knows: the recorded one, or what discovery found. *)
Definition known `{TriggerGhost} (c : C) : string :=
  match status_of c with
  | Some st => if bool_decide (CurrentStorageVersionHash st = "") then seen c
               else CurrentStorageVersionHash st
  | None => seen c
  end.

(** What the others do while the trigger is up: the migrator migrates, clients
    write, create and delete migrations.  The current version changes only
    when the trigger knows the one before: it does not change twice before the
    trigger has recorded it.  StorageStates are left to the trigger. *)
Record others `{TriggerGhost} (c c' : C) : Prop := {
  others_status : status_of c' = status_of c;
  others_seen : seen c' = seen c;
  others_clock : clock c ≤ clock c';
  others_current : current c' = current c ∨ current c = known c;
  others_stored h : stored c' h → stored c h ∨ h = current c ∨ h = current c';
  others_wrote n h : migration c' n → wrote c' n h →
    (migration c n ∧ wrote c n h) ∨ h = current c ∨ h = current c';
  others_completing : completing c → completing c';
}.

(** A request of the trigger leaves the objects and the migrations alone. *)
Record spares `{TriggerGhost} (c c' : C) : Prop := {
  spares_clock : clock c' = clock c;
  spares_current : current c' = current c;
  spares_stored h : stored c' h → stored c h;
  spares_wrote n h : migration c' n → wrote c' n h → migration c n ∧ wrote c n h;
  spares_completing : completing c → completing c';
}.

(** A write of the StorageState. *)
Definition writes `{TriggerGhost} (x : option StorageStateStatus) (c c' : C) : Prop :=
  status_of c' = x ∧ seen c' = seen c ∧ spares c c'.

(** A look at the current version. *)
Definition looks `{TriggerGhost} (c c' : C) : Prop :=
  status_of c' = status_of c ∧ seen c' = current c ∧ spares c c'.

(** [R] happens in the midst of what others do. *)
Definition amid `{TriggerGhost} (R : C → C → Prop) (c c' : C) : Prop :=
  ∃ c1 c2, others c c1 ∧ R c1 c2 ∧ others c2 c'.

(** Nothing happens, and [P] holds. *)
Definition finds (P : C → Prop) (c c' : C) : Prop := c' = c ∧ P c.

(** The clients of the trigger, as far as they bear on the StorageState [ssn]
    and the migrations of its resource. *)
Class TriggerServer `{TriggerGhost} (ssn : string) := {
  rand_others b c : others c (rand_upto b c).2;
  now_clock c : amid (finds (λ c1, (time_Now c).1 = clock c1)) c (time_Now c).2;
  (* discovery: every entry of the resource has the hash current at that time *)
  discovery_looks c : amid (λ c1 c2, looks c1 c2 ∧
      ∀ e, listed (disc_ServerPreferredResources c).1.1 e → name_of e = ssn →
        metav1.StorageVersionHash e ≠ "" → metav1.StorageVersionHash e = seen c2)
    c (disc_ServerPreferredResources c).2;
  (* the StorageState: its status is reset when it is created, and a request
     that fails may have taken effect *)
  state_get c : others c (ss_Get ssn c).2;
  state_get_found c ss : (ss_Get ssn c).1 = Ok ss →
    status_of c = Some (ss_Status ss) ∧ metav1.Name (ss_Meta ss) = ssn;
  state_get_none c e : (ss_Get ssn c).1 = Err e → IsNotFound e = true → status_of c = None;
  state_create ss c : metav1.Name (ss_Meta ss) = ssn →
    match (ss_Create ss c).1 with
    | Ok ss' =>
        amid (λ c1 c2, status_of c1 = None ∧ writes (Some empty_status) c1 c2) c (ss_Create ss c).2 ∧
        ss_Status ss' = empty_status ∧ metav1.Name (ss_Meta ss') = ssn
    | Err _ => others c (ss_Create ss c).2 ∨
        amid (λ c1 c2, status_of c1 = None ∧ writes (Some empty_status) c1 c2) c (ss_Create ss c).2
    end;
  state_update ss c : metav1.Name (ss_Meta ss) = ssn →
    amid (writes (Some (ss_Status ss))) c (ss_UpdateStatus ss c).2 ∨
    (others c (ss_UpdateStatus ss c).2 ∧ ∃ e, (ss_UpdateStatus ss c).1 = Err e);
  state_delete c :
    amid (writes None) c (ss_Delete ssn c).2 ∨
    (others c (ss_Delete ssn c).2 ∧ ∃ e, (ss_Delete ssn c).1 = Some e);
  (* other StorageStates *)
  other_get n c : n ≠ ssn → others c (ss_Get n c).2;
  other_get_name n c ss : (ss_Get n c).1 = Ok ss → metav1.Name (ss_Meta ss) = n;
  other_create ss c : metav1.Name (ss_Meta ss) ≠ ssn → others c (ss_Create ss c).2;
  other_create_name ss c ss' : (ss_Create ss c).1 = Ok ss' →
    metav1.Name (ss_Meta ss') = metav1.Name (ss_Meta ss);
  other_update ss c : metav1.Name (ss_Meta ss) ≠ ssn → others c (ss_UpdateStatus ss c).2;
  other_delete n c : n ≠ ssn → others c (ss_Delete n c).2;
  (* migrations; one that is created is new *)
  migration_get n c : amid (finds (λ c1, ∀ m, (svm_Get n c).1 = Ok m →
      storageStateName (Spec_Resource (svm_Spec m)) = ssn → HasCondition m MigrationSucceeded = true →
      migration c1 n ∧ finished c1 n)) c (svm_Get n c).2;
  migration_create m c : others c (svm_Create m c).2;
  migration_delete n c :
    amid (finds (λ c1, (svm_Delete n c).1 = None → ¬ migration c1 n)) c (svm_Delete n c).2;
  (* the cache; a migration it does not have yet was created recently *)
  cache_indexed : keeps_resource_index (C:=C);
  cache_read n v c : others c (indexer_ByIndex n v c).2;
  cache_has c e n : name_of e = ssn → migration c n →
    n ∈ svm_Name <$> migrations_of e (cached c) ∨ (∀ h, wrote c n h → h = current c);
}.

(** No deletion of a migration was refused (see failed_clean_vouches). *)
Definition unrefused (evs : list event) : Prop := ∀ n err, SVMDelete n (Some err) ∉ evs.

(** The trigger is not at work and has not been for so long that the
    StorageState, if there is one, has gone stale; anything may happen to the
    objects, the versions and the migrations. *)
Record away `{TriggerGhost} (c c' : C) : Prop := {
  away_stale st : status_of c = Some st → stale_at (clock c) st;
  away_status : status_of c' = status_of c;
  away_clock : clock c ≤ clock c';
  away_completing : completing c → completing c';
}.

Inductive step `{TriggerGhost} : C → C → Prop :=
  | step_others c c' : others c c' → step c c'
  | step_away c c' : away c c' → step c c'
  | step_discovery heartbeat w w' evs :
      processDiscovery w = Some (heartbeat, w') → trace w' = trace w ++ evs → unrefused evs →
      step (ext w) (ext w')
  | step_work obj err w w' :
      processQueue obj w = Some (err, w') → step (ext w) (ext w').

(** ** Interference *)

Lemma known_others `{TriggerGhost} (c c' : C) : others c c' → known c' = known c.
Proof. intros Ho. unfold known. by rewrite (others_status _ _ Ho), (others_seen _ _ Ho). Qed.

#[export] Instance others_preorder `{TriggerGhost} : PreOrder (others : relation C).
Proof.
  split; [split; by eauto|]. intros c1 c2 c3 O1 O2. pose proof (known_others _ _ O1) as K.
  destruct O1 as [S1 N1 T1 V1 E1 U1 G1], O2 as [S2 N2 T2 V2 E2 U2 G2]. split.
  - congruence.
  - congruence.
  - lia.
  - destruct V2; [destruct V1|destruct V1]; [left|right|right|right]; congruence.
  - intros h [[?|[->| ->]]%E1|[->| ->]]%E2; auto; destruct V2, V1; first [by auto|right; left; congruence|right; right; congruence].
  - intros n h Hm [[Hm' [?|[->| ->]]%U1]|[->| ->]]%U2; auto; destruct V2, V1;
      first [by auto|right; left; congruence|right; right; congruence].
  - auto.
Qed.


Lemma amid_now `{TriggerGhost} (R : C → C → Prop) c c' : R c c' → amid R c c'.
Proof. intros HR. by exists c, c'. Qed.

Lemma amid_nothing `{TriggerGhost} (P : C → Prop) c : P c → amid (finds P) c c.
Proof. intros HP. by apply amid_now. Qed.
End vouch.
