(* ===== verification/VouchSite.v ===== *)
(** * A small cluster that keeps to the contract of the trigger's clients

    It has the resource pods and nothing else: an instance of
    [TriggerServer], with a run in which objects are migrated twice. *)
From S2P Require Export Vouch.

Local Open Scope Z_scope.
Import v1alpha1.

(** A migration: has it succeeded, and the versions current since it began. *)
Record site := {
  s_current : string;
  s_stored : list string;
  s_seen : string;
  s_status : option StorageStateStatus;
  s_migrations : gmap string (bool * list string);
  s_clock : Time;
}.

Definition with_status (x : option StorageStateStatus) (c : site) : site :=
  {| s_current := s_current c; s_stored := s_stored c; s_seen := s_seen c; s_status := x;
     s_migrations := s_migrations c; s_clock := s_clock c |}.

Definition with_migrations (x : gmap string (bool * list string)) (c : site) : site :=
  {| s_current := s_current c; s_stored := s_stored c; s_seen := s_seen c; s_status := s_status c;
     s_migrations := x; s_clock := s_clock c |}.

Definition with_seen (x : string) (c : site) : site :=
  {| s_current := s_current c; s_stored := s_stored c; s_seen := x; s_status := s_status c;
     s_migrations := s_migrations c; s_clock := s_clock c |}.

#[export] Instance site_ghost : TriggerGhost (C:=site) := {|
  current := s_current; stored := λ c h, h ∈ s_stored c; seen := s_seen; status_of := s_status;
  migration := λ c n, is_Some (s_migrations c !! n);
  wrote := λ c n h, ∃ b hs, s_migrations c !! n = Some (b, hs) ∧ h ∈ hs;
  finished := λ c n, ∃ hs, s_migrations c !! n = Some (true, hs);
  clock := s_clock;
|}.

#[export] Instance site_runtime : Runtime site.
Proof.
  refine {| time_Now := λ c, (s_clock c, c); rand_upto := λ _ c, (0, c) |}. intros b c Hb. simpl. lia.
Defined.

Definition site_migration (n : string) (finished : bool) : StorageVersionMigration :=
  let m := pod_migration n "" [] in if finished then succeeded m else m.

#[export] Instance site_svm : StorageVersionMigrationInterface site := {|
  svm_Get := λ n c,
    (match s_migrations c !! n with Some (b, _) => Ok (site_migration n b) | None => Err not_found end, c);
  svm_Update := λ m c, (Err forbidden, c);
  svm_UpdateStatus := λ m c, (Err forbidden, c);
  svm_Create := λ m c,
    if bool_decide (s_migrations c !! "pods-1" = None)
    then (Ok m, with_migrations (<["pods-1" := (false, [s_current c])]> (s_migrations c)) c)
    else (Err conflict, c);
  svm_Delete := λ n c,
    (match s_migrations c !! n with Some _ => None | None => Some not_found end,
     with_migrations (delete n (s_migrations c)) c);
|}.

Definition site_state (st : StorageStateStatus) : StorageState := with_Status st (pods_state "" [] 0).

#[export] Instance site_ss : StorageStateInterface site := {|
  ss_Get := λ n c,
    (match s_status c with
     | Some st => if bool_decide (n = "pods") then Ok (site_state st) else Err not_found
     | None => Err not_found
     end, c);
  ss_Create := λ ss c,
    if bool_decide (metav1.Name (ss_Meta ss) = "pods") then
      match s_status c with
      | None => (Ok (site_state empty_status), with_status (Some empty_status) c)
      | Some _ => (Err conflict, c)
      end
    else (Err forbidden, c);
  ss_UpdateStatus := λ ss c,
    if bool_decide (metav1.Name (ss_Meta ss) = "pods") then (Ok ss, with_status (Some (ss_Status ss)) c)
    else (Err not_found, c);
  ss_Delete := λ n c,
    if bool_decide (n = "pods") then (None, with_status None c) else (Some not_found, c);
|}.

Definition site_cached (c : site) : list any :=
  (λ x : string * (bool * list string), AnyMigration (site_migration x.1 x.2.1)) <$> map_to_list (s_migrations c).

#[export] Instance site_indexer : MigrationIndexer site.
Proof.
  refine {|
    indexer_ByIndex := λ name value c,
      (match StatusAndResourceIndexers !! name with
       | Some f => Ok (filter (λ obj, selects f value obj = true) (site_cached c))
       | None => Err (no_index name)
       end, c);
    cached := site_cached;
    index_funcs := StatusAndResourceIndexers;
  |}.
  intros name f value c Hf. simpl. rewrite Hf. by eexists.
Defined.

#[export] Instance site_discovery : DiscoveryInterface site := {|
  disc_ServerPreferredResources := λ c,
    (([{| metav1.GroupVersion := "v1"; metav1.APIResources := [pods_resource (s_current c)] |}], None),
     with_seen (s_current c) c);
|}.

(** ** It keeps the contract *)

Lemma site_spares_status x c : spares c (with_status x c).
Proof. by split. Qed.

Lemma site_spares_seen x c : spares c (with_seen x c).
Proof. by split. Qed.

Lemma site_writes x c : writes x c (with_status x c).
Proof. split; [done|]. split; [done|apply site_spares_status]. Qed.

(** The migrations change. *)
Lemma site_others_migrations ms c :
  (∀ n x, ms !! n = Some x → s_migrations c !! n = Some x ∨ x = (false, [s_current c])) →
  others c (with_migrations ms c).
Proof.
  intros Hms. split; simpl; auto; try done.
  - intros n h _ (b & hs & E & Hh). destruct (Hms _ _ E) as [?|[= -> ->]].
    + left. split; [by eexists|]. by exists b, hs.
    + right. left. by apply list_elem_of_singleton in Hh.
  - intros Hc n h _ [hs E] Hh. destruct (Hms _ _ E) as [E'|[=]].
    destruct (Hc n h) as (b & hs' & E2 & Hin); [by eexists|by exists hs|done|]. rewrite E' in E2.
    injection E2 as <- <-. by exists true, hs.
Qed.

Lemma name_of_pods e : name_of e = "pods" → ToIndex (toGroupResource e) = "pods.".
Proof.
  unfold name_of, storageStateName, ToIndex. simpl. case_bool_decide as Hg; [by intros ->; rewrite Hg|].
  intros E. assert (count_char "." "pods" = 0%nat) as Hc by done. rewrite <- E in Hc.
  change ("." +:+ metav1.res_Group e) with (String "." (metav1.res_Group e)) in Hc.
  rewrite count_char_app, count_char_sep in Hc. lia.
Qed.

Lemma site_cache c e n :
  name_of e = "pods" → migration c n → n ∈ svm_Name <$> migrations_of e (site_cached c).
Proof.
  intros He [[b hs] Hn]. apply list_elem_of_fmap. exists (site_migration n b). split; [by destruct b|].
  unfold migrations_of. apply list_elem_of_omap. exists (AnyMigration (site_migration n b)). split.
  - apply list_elem_of_fmap. exists (n, (b, hs)). split; [done|]. by apply elem_of_map_to_list.
  - rewrite (name_of_pods e He). by destruct b.
Qed.

#[export] Instance site_server : TriggerServer (C:=site) "pods".
Proof.
  split.
  - done.
  - intros c. by apply amid_nothing.
  - intros c. apply amid_now. split; [split; [done|split; [done|apply site_spares_seen]]|].
    intros e (l & gv & e0 & ->%list_elem_of_singleton & _ & ->%list_elem_of_singleton & ->) _ _. done.
  - done.
  - intros c ss. simpl. destruct (s_status c); [|done]. by intros [= <-].
  - intros c e. simpl. by destruct (s_status c).
  - intros ss c Hn. simpl. rewrite bool_decide_eq_true_2 by done. destruct (s_status c) eqn:E; simpl.
    + by left.
    + split; [|done]. apply amid_now. split; [done|apply site_writes].
  - intros ss c Hn. simpl. rewrite bool_decide_eq_true_2 by done. left. apply amid_now, site_writes.
  - intros c. left. apply amid_now, site_writes.
  - done.
  - intros n c ss. simpl. destruct (s_status c); [|done]. case_bool_decide as Hn; [|done]. by intros [= <-].
  - intros ss c Hn. simpl. by rewrite bool_decide_eq_false_2.
  - intros ss c ss'. simpl. case_bool_decide as Hn; [|done]. destruct (s_status c); [done|]. by intros [= <-].
  - intros ss c Hn. simpl. by rewrite bool_decide_eq_false_2.
  - intros n c Hn. simpl. by rewrite bool_decide_eq_false_2.
  - intros n c. apply amid_nothing. intros m. simpl. destruct (s_migrations c !! n) as [[b hs]|] eqn:E; [|done].
    intros [= <-] _. destruct b; [|done]. intros _. split; [by eexists|by exists hs].
  - intros m c. simpl. case_bool_decide as Hn; [|done]. apply site_others_migrations. intros n x.
    destruct (decide (n = "pods-1")) as [->|Hne]; [rewrite lookup_insert_eq|rewrite lookup_insert_ne by done; by left].
    intros [= <-]. by right.
  - intros n c. exists (with_migrations (delete n (s_migrations c)) c). eexists.
    split; [|split; [split; [reflexivity|]|]]; [|simpl|reflexivity].
    + apply site_others_migrations. intros n' x [_ ?]%lookup_delete_Some. by left.
    + intros _ [x Hx]. by rewrite lookup_delete_eq in Hx.
  - done.
  - done.
  - intros c e n He Hm. left. by apply site_cache.
Qed.
