(* ===== verification/VouchProps.v ===== *)
(** * StorageStates vouch for what is stored *)
From S2P Require Export Vouch VouchSite.

Local Open Scope Z_scope.
Import v1alpha1.

Section vouch_props.
Context {C : Type} `{Runtime C} `{StorageVersionMigrationInterface C} `{StorageStateInterface C}
  `{MigrationIndexer C} `{DiscoveryInterface C} `{!TriggerGhost (C:=C)} (ssn : string) `{!TriggerServer ssn}.
Implicit Types (c : C) (w : World C) (st : StorageStateStatus) (e : metav1.APIResource) (P : C → Prop).

(** What is not affected by what others do. *)
Definition stable P : Prop := ∀ c c', others c c' → P c → P c'.

(** ** A logic of the trigger's functions

    [hoare P m Q]: a run of [m] from a cluster where [P] holds ends in one
    where [Q] holds, if no deletion of a migration was refused. *)
Definition hoare {A} P (m : M (World C) A) (Q : A → C → Prop) : Prop :=
  ∀ w a w', m w = Some (a, w') →
    ∃ evs, trace w' = trace w ++ evs ∧ (P (ext w) → unrefused evs → Q a (ext w')).

Lemma unrefused_app evs evs' : unrefused (evs ++ evs') → unrefused evs ∧ unrefused evs'.
Proof. intros Hu. split; intros n err Hin; apply (Hu n err), elem_of_app; auto. Qed.

Lemma hoare_conseq {A} P P' (m : M (World C) A) (Q Q' : A → C → Prop) :
  hoare P m Q → (∀ c, P' c → P c) → (∀ a c, Q a c → Q' a c) → hoare P' m Q'.
Proof. intros Hm HP HQ w a w' E. destruct (Hm _ _ _ E) as (evs & ? & ?). exists evs. auto. Qed.

Lemma hoare_ret {A} P (a : A) (Q : A → C → Prop) : (∀ c, P c → Q a c) → hoare P (mret a) Q.
Proof. intros HPQ w ? ? [= <- <-]. exists []. by rewrite app_nil_r; auto. Qed.

Lemma hoare_bind {A B} P (R : A → C → Prop) (Q : B → C → Prop) (m : M (World C) A) (k : A → M (World C) B) :
  hoare P m R → (∀ a, hoare (R a) (k a) Q) → hoare P (m ≫= k) Q.
Proof.
  intros Hm Hk w b w' (a & w1 & (evs & T1 & R1)%Hm & (evs' & T2 & R2)%Hk)%bind_Some.
  exists (evs ++ evs'). split; [by rewrite T2, T1, app_assoc|]. intros HP [? ?]%unrefused_app. auto.
Qed.

Lemma hoare_call {A} P (f : C → A * C) ev (Q : A → C → Prop) :
  (∀ c, P c → (∀ n err, ev (f c).1 ≠ SVMDelete n (Some err)) → Q (f c).1 (f c).2) → hoare P (call f ev) Q.
Proof.
  intros Hf w a w'. rewrite call_Some. intros [= <- <-]. eexists. split; [reflexivity|].
  intros HP Hu. apply Hf; [done|]. intros n err Ee. apply (Hu n err). rewrite Ee. by left.
Qed.

Lemma hoare_silent {A} P (f : C → A * C) (Q : A → C → Prop) :
  (∀ c, P c → Q (f c).1 (f c).2) → hoare P (silent f) Q.
Proof. intros Hf w a w'. rewrite silent_Some. intros [= <- <-]. eexists. split; [reflexivity|]. auto. Qed.

Lemma hoare_emit P ev : hoare P (emit ev) (λ _, P).
Proof. intros w a w' [= <- <-]. eexists. by split. Qed.

Lemma hoare_HandleError P err : hoare P (HandleError err) (λ _, P).
Proof. destruct err; [apply hoare_emit|by apply hoare_ret]. Qed.

Lemma hoare_frame {A} (F : Prop) P (m : M (World C) A) (Q : A → C → Prop) :
  hoare P m Q → hoare (λ c, F ∧ P c) m (λ a c, F ∧ Q a c).
Proof. intros Hm w a w' E. destruct (Hm _ _ _ E) as (evs & Ht & HQ). exists evs. split; [done|]. intros [HF HP]. auto. Qed.

Lemma hoare_for_each {A} P (k : A → M (World C) unit) (l : list A) :
  (∀ x, x ∈ l → hoare P (k x) (λ _, P)) → hoare P (for_each k l) (λ _, P).
Proof.
  induction l as [|x l IH]; intros Hk; [by apply hoare_ret|]. simpl.
  eapply hoare_bind; [apply Hk; by left|]. intros []. apply IH. intros y Hy. apply Hk. by right.
Qed.

Lemma hoare_Step P b : stable P → hoare P (Step b : M (World C) _) (λ _, P).
Proof.
  intros HP. assert (∀ d f, hoare P (Jitter d f) (λ _, P)) as HJ.
  { intros d f. unfold Jitter. apply (hoare_bind _ (λ _, P)); [|intros a; by apply hoare_ret].
    apply hoare_silent. intros c. apply HP, rand_others. }
  unfold Step, delay. apply (hoare_bind _ (λ _, P)); [|intros [[]]; by apply hoare_ret].
  repeat case_match; try (apply (hoare_bind _ (λ _, P)); [|intros; by apply hoare_ret]); try apply HJ; by apply hoare_ret.
Qed.

Lemma hoare_ExponentialBackoff {X} (I : X → C → Prop) (condition : Condition X) b x :
  (∀ x, stable (I x)) → (∀ x, hoare (I x) (condition x) (λ out, I out.2)) →
  hoare (I x) (ExponentialBackoff b condition x) (λ out, I out.2).
Proof.
  intros Hst Hc. unfold ExponentialBackoff. generalize (Z.to_nat (bo_Steps b)) as fuel. intros fuel.
  revert b x. induction fuel as [|fuel IH]; intros b x; simpl; case_match; try by apply hoare_ret.
  - done.
  - eapply hoare_bind; [apply Hc|]. intros [[ok err] x']. simpl. repeat case_match; try by apply hoare_ret.
    eapply hoare_bind; [by apply hoare_Step|]. intros [d b']. eapply hoare_bind; [apply hoare_emit|].
    intros []. apply IH.
Qed.

(** Requests about which nothing is known but that others are at work. *)
Lemma stable_amid P R c c' :
  stable P → (∀ c1 c2, R c1 c2 → P c1 → P c2) → amid R c c' → P c → P c'.
Proof. intros Hs HR (c1 & c2 & O1 & Hr & O2) HP. eapply Hs; [exact O2|]. eapply HR; [done|]. by eapply Hs. Qed.

(** ** The StorageStates and migrations of other resources *)

Lemma quiet_get P n : stable P → hoare P (get_state n : M (World C) _) (λ _, P).
Proof.
  intros Hs. apply hoare_call. intros c HP _. eapply Hs; [|done].
  destruct (decide (n = ssn)) as [->|Hn]; [apply state_get|by apply other_get].
Qed.

Lemma quiet_create_migration P m : stable P → hoare P (create_migration m : M (World C) _) (λ _, P).
Proof. intros Hs. apply hoare_call. intros c HP _. eapply Hs; [|done]. apply migration_create. Qed.

Lemma quiet_delete_migration P n : stable P → hoare P (delete_migration n : M (World C) _) (λ _, P).
Proof.
  intros Hs. apply hoare_call. intros c HP _. eapply stable_amid; [done| |apply migration_delete|done].
  by intros ? ? [-> _].
Qed.

Lemma quiet_ByIndex P n v : stable P → hoare P (silent (indexer_ByIndex n v) : M (World C) _) (λ _, P).
Proof. intros Hs. apply hoare_silent. intros c. apply Hs, cache_read. Qed.

Lemma quiet_hasPending P e : stable P → hoare P (hasPendingOrRunningMigration e : M (World C) _) (λ _, P).
Proof.
  intros Hs. unfold hasPendingOrRunningMigration. apply (hoare_bind _ (λ _, P)); [by apply quiet_ByIndex|].
  intros [l|err].
  - induction l as [|[m| | |] l IH]; simpl; try done; [by apply hoare_ret|]. case_match; [done|by apply hoare_ret].
  - apply (hoare_bind _ (λ _, P)); [apply hoare_HandleError|]. intros []. by apply hoare_ret.
Qed.

Lemma quiet_launch P r : stable P → hoare P (launchMigration r : M (World C) _) (λ _, P).
Proof.
  intros Hs. apply (hoare_bind _ (λ _, P)); [by apply quiet_create_migration|]. intros out. by apply hoare_ret.
Qed.

Lemma quiet_relaunch P e : stable P → hoare P (relaunchMigration e : M (World C) _) (λ _, P).
Proof.
  intros Hs. unfold relaunchMigration, cleanMigrations. apply (hoare_bind _ (λ _, P)).
  - apply (hoare_bind _ (λ _, P)); [by apply quiet_ByIndex|]. intros [l|err]; [|by apply hoare_ret].
    induction l as [|[m| | |] l IH]; simpl; try by apply hoare_ret.
    apply (hoare_bind _ (λ _, P)); [by apply quiet_delete_migration|]. intros [err|]; [by apply hoare_ret|done].
  - intros [err|]; [by apply hoare_ret|by apply quiet_launch].
Qed.

(** updateStorageState keeps [P] if its requests do; [G ss] is known of a
    StorageState [ss] that it has got. *)
Lemma hoare_updateStorageState P (G : StorageState → C → Prop) hb h e :
  stable P →
  hoare P (get_state (name_of e)) (λ out, match out with Ok ss => G ss | Err _ => P end) →
  hoare P (create_state (newStorageState e)) (λ out, match out with Ok ss => G ss | Err _ => P end) →
  (∀ ss, hoare (G ss) (update_state_status (with_Status (next_status hb h (ss_Status ss)) ss)) (λ _, P)) →
  hoare P (updateStorageState hb h e) (λ _, P).
Proof.
  intros Hs Hget Hcreate Hupdate. unfold updateStorageState.
  apply (hoare_bind _ (λ _, P)); [|intros [err x]; by apply hoare_ret].
  apply (hoare_ExponentialBackoff (λ _, P)); [done|]. intros []. unfold state_attempt.
  assert (∀ err, hoare P (HandleError (Some err) ;; mret (false, None, tt)) (λ _ : bool * option error * unit, P))
    as Hfail.
  { intros err. apply (hoare_bind _ (λ _, P)); [apply hoare_emit|]. intros []. by apply hoare_ret. }
  assert (∀ ss, hoare (G ss)
    (out ← update_state_status (with_Status (next_status hb h (ss_Status ss)) ss);
     match out with
     | Err err => HandleError (Some err) ;; mret (false, None, tt)
     | Ok _ => mret (true, None, tt)
     end) (λ _ : bool * option error * unit, P)) as Hput.
  { intros ss. eapply hoare_bind; [apply Hupdate|]. intros [ss'|err]; [by apply hoare_ret|done]. }
  eapply hoare_bind; [apply Hget|]. intros [ss|err]; [done|]. case_match; [done|].
  eapply hoare_bind; [apply Hcreate|]. intros [ss|err']; done.
Qed.

Lemma quiet_processDiscoveryResource P hb e :
  name_of e ≠ ssn → stable P → hoare P (processDiscoveryResource hb e) (λ _, P).
Proof.
  intros Hn Hs. unfold processDiscoveryResource. case_bool_decide; [by apply hoare_ret|].
  assert (hoare P (updateStorageState hb (metav1.StorageVersionHash e) e) (λ _, P)) as Hupdate.
  { apply (hoare_updateStorageState P (λ ss c, metav1.Name (ss_Meta ss) ≠ ssn ∧ P c)); [done|..].
    - apply hoare_call. intros c HP _. pose proof (Hs _ _ (other_get (name_of e) c Hn) HP).
      case_match eqn:E; [|done]. split; [|done]. by rewrite (other_get_name (name_of e) c _ E).
    - apply hoare_call. intros c HP _. pose proof (Hs _ _ (other_create (newStorageState e) c Hn) HP).
      case_match eqn:E; [|done]. split; [|done]. by rewrite (other_create_name (newStorageState e) c _ E).
    - intros ss. apply hoare_call. intros c [Hss HP] _. eapply Hs; [|done]. by apply other_update. }
  assert (hoare P (_ ← updateStorageState hb (metav1.StorageVersionHash e) e; mret tt) (λ _ : (), P)) as Hup.
  { apply (hoare_bind _ (λ _, P)); [done|]. intros err. by apply hoare_ret. }
  assert (∀ b : bool, hoare P (if b then err ← relaunchMigration e; HandleError err else mret tt) (λ _, P)) as Hre.
  { intros []; [|by apply hoare_ret]. apply (hoare_bind _ (λ _, P)); [by apply quiet_relaunch|].
    intros err. apply hoare_HandleError. }
  apply (hoare_bind _ (λ _, P)); [by apply quiet_get|]. intros [ss|err].
  - apply (hoare_bind _ (λ _, P)).
    { case_match; [by apply hoare_ret|]. apply (hoare_bind _ (λ _, P)); [by apply quiet_hasPending|].
      intros b. by apply hoare_ret. }
    intros needs. apply (hoare_bind _ (λ _, P)).
    { case_match; [|by apply hoare_ret]. apply hoare_call. intros c HP _. eapply Hs; [|done].
      by apply other_delete. }
    intros [err|]; [apply hoare_HandleError|]. apply (hoare_bind _ (λ _, P)); [apply Hre|]. by intros [].
  - case_match; [apply hoare_HandleError|]. apply (hoare_bind _ (λ _, P)); [by apply quiet_relaunch|].
    intros rerr. apply (hoare_bind _ (λ _, P)); [apply hoare_HandleError|]. by intros [].
Qed.

(** ** The invariant *)

(** [st] tells all versions objects are stored in: if Unknown is not among
    the persisted ones then these are all, but for the current one. *)
Definition vouched st c : Prop :=
  CurrentStorageVersionHash st ≠ "" ∧
  (Unknown ∈ PersistedStorageVersionHashes st ∨
   (CurrentStorageVersionHash st ∈ PersistedStorageVersionHashes st ∧
    ∀ h, stored c h → h ∈ PersistedStorageVersionHashes st ∨ h = current c)).

(** The migrations have only seen the version [h] and the current one. *)
Definition narrow h c : Prop := ∀ n h', migration c n → wrote c n h' → h' = h ∨ h' = current c.

Definition recorded st c : Prop := vouched st c ∧ narrow (CurrentStorageVersionHash st) c.

Definition base (T : Time) c : Prop := 0 ≤ T ∧ T ≤ clock c ∧ completing c.

(** Between the steps of the trigger, for [T] not after the present time. *)
Definition inv (T : Time) c : Prop :=
  base T c ∧ ∀ st, status_of c = Some st → stale_at T st ∨ recorded st c.

(** The current version is the one discovery saw, or the one that replaced it. *)
Definition settled c : Prop := current c = seen c ∨ known c = seen c.

(** In a round with heartbeat [T] that has found [h]. *)
Definition in_round (T : Time) h c : Prop := inv T c ∧ settled c ∧ seen c = h ∧ h ≠ "".

(** In a round, with no StorageState that is stale. *)
Definition fresh (T : Time) h c : Prop :=
  base T c ∧ (∀ st, status_of c = Some st → st = empty_status ∨ vouched st c) ∧ settled c ∧ seen c = h ∧ h ≠ "".

Lemma stale_empty T : 0 ≤ T → stale_at T empty_status.
Proof. intros HT. apply (Z.lt_le_trans _ 0); [vm_compute; reflexivity|done]. Qed.

Lemma known_recorded c st :
  status_of c = Some st → CurrentStorageVersionHash st ≠ "" → known c = CurrentStorageVersionHash st.
Proof. intros Hst Hne. unfold known. rewrite Hst. by rewrite bool_decide_eq_false_2. Qed.

Lemma base_others T c c' : others c c' → base T c → base T c'.
Proof. intros Ho (? & ? & ?). pose proof (others_clock _ _ Ho). split_and!; [done|lia|by apply Ho]. Qed.

Lemma vouched_others st c c' : others c c' → status_of c = Some st → vouched st c → vouched st c'.
Proof.
  intros Ho Hst [Hne [?|[Hin Hv]]]; (split; [done|]); [by left|right]. split; [done|]. intros h Hh.
  pose proof (known_recorded _ _ Hst Hne) as Hk. pose proof (others_current _ _ Ho) as Hcur.
  destruct (others_stored _ _ Ho _ Hh) as [[?| ->]%Hv|[->| ->]]; auto;
    destruct Hcur as [->|Hcur]; auto; left; by rewrite Hcur, Hk.
Qed.

(** [h] is what the trigger knows, or the current version cannot change. *)
Lemma narrow_others h c c' : others c c' → (current c = known c → known c = h) → narrow h c → narrow h c'.
Proof.
  intros Ho Hk Hn n h' Hm Hh. pose proof (others_current _ _ Ho) as Hcur.
  destruct (others_wrote _ _ Ho _ _ Hm Hh) as [[Hm' [?| ->]%Hn]|[->| ->]]; auto;
    destruct Hcur as [->|Hcur]; auto; left; rewrite Hcur; auto.
Qed.

Lemma recorded_others st c c' : others c c' → status_of c = Some st → recorded st c → recorded st c'.
Proof.
  intros Ho Hst [Hv Hn]. split; [by eapply vouched_others|]. eapply narrow_others; [done| |done].
  intros _. by apply known_recorded, Hv.
Qed.

Lemma settled_others c c' : others c c' → settled c → settled c'.
Proof.
  intros Ho. unfold settled. rewrite (known_others _ _ Ho), (others_seen _ _ Ho).
  destruct (others_current _ _ Ho) as [->|Hc]; [done|]. intros [?|?]; right; congruence.
Qed.

(** Under [settled], what the trigger knows when the version can change. *)
Lemma settled_known c : settled c → current c = known c → known c = seen c.
Proof. intros [?|?]; congruence. Qed.

Lemma stable_inv T : stable (inv T).
Proof.
  intros c c' Ho [Hb Hi]. split; [by eapply base_others|]. rewrite (others_status _ _ Ho).
  intros st Hst. destruct (Hi st Hst); [by left|right; by eapply recorded_others].
Qed.

Lemma stable_in_round T h : stable (in_round T h).
Proof.
  intros c c' Ho (Hi & Hs & Hh & Hne). split_and!; [by eapply stable_inv|by eapply settled_others| |done].
  by rewrite (others_seen _ _ Ho).
Qed.

Lemma stable_fresh T h : stable (fresh T h).
Proof.
  intros c c' Ho (Hb & Hv & Hs & Hh & Hne).
  split_and!; [by eapply base_others| |by eapply settled_others|by rewrite (others_seen _ _ Ho)|done].
  rewrite (others_status _ _ Ho). intros st Hst. destruct (Hv st Hst); [by left|right; by eapply vouched_others].
Qed.

Lemma stable_fresh_narrow T h : stable (λ c, fresh T h c ∧ narrow h c).
Proof.
  intros c c' Ho [Hf Hn]. split; [by eapply stable_fresh|]. destruct Hf as (_ & _ & Hs & <- & _).
  eapply narrow_others; [done| |done]. by apply settled_known.
Qed.

Lemma stable_status P x : stable P → stable (λ c, P c ∧ status_of c = x).
Proof. intros Hs c c' Ho [HP <-]. split; [by eapply Hs|by apply Ho]. Qed.

Lemma in_round_fresh T h c :
  in_round T h c → (∀ st, status_of c = Some st → ¬ stale_at T st) → fresh T h c.
Proof.
  intros ([Hb Hi] & Hs & Hh & Hne) Hst. split_and!; try done. intros st E.
  destruct (Hi st E) as [?|[Hv _]]; [by destruct (Hst st E)|by right].
Qed.

Lemma fresh_in_round T h c : fresh T h c → narrow h c → in_round T h c.
Proof.
  intros (Hb & Hv & Hs & Hh & Hne) Hn. split_and!; try done. split; [done|]. intros st Hst.
  destruct (Hv st Hst) as [->|Hvst]; [left; by apply stale_empty, Hb|right].
  split; [done|]. pose proof (known_recorded _ _ Hst (proj1 Hvst)) as Hk.
  intros n h' Hm [->| ->]%(Hn n h' Hm); [|by right]. destruct Hs as [?|?]; [right|left]; congruence.
Qed.

Lemma spares_base T c c' : spares c c' → base T c → base T c'.
Proof. intros Hs (? & ? & ?). split_and!; [done|by rewrite (spares_clock _ _ Hs)|by apply Hs]. Qed.

Lemma spares_vouched st c c' : spares c c' → vouched st c → vouched st c'.
Proof.
  intros Hs [Hne Hv]. split; [done|]. destruct Hv as [?|[? Hv]]; [by left|right]. split; [done|].
  rewrite (spares_current _ _ Hs). intros h Hh%(spares_stored _ _ Hs). auto.
Qed.

Lemma spares_narrow h c c' : spares c c' → narrow h c → narrow h c'.
Proof.
  intros Hs Hn n h' Hm Hh. rewrite (spares_current _ _ Hs).
  destruct (spares_wrote _ _ Hs _ _ Hm Hh). eauto.
Qed.

(** The status updateStorageState writes. *)
Lemma vouched_next T h st c :
  h ≠ "" → st = empty_status ∨ vouched st c → vouched (next_status T h st) c.
Proof.
  intros Hne Hst. unfold vouched. rewrite next_status_current. split; [done|].
  unfold next_status. case_bool_decide as Hh; simpl.
  - destruct Hst as [->|[_ Hst]]; [left; by left|]. destruct (PersistedStorageVersionHashes st) as [|x l] eqn:E.
    + left. by left.
    + change (x :: l ++ [h]) with ((x :: l) ++ [h]).
      destruct Hst as [?|[_ Hst]]; [left; apply elem_of_app; by left|right]. rewrite elem_of_app.
      split; [right; by left|]. intros h' [?|?]%Hst; [left; apply elem_of_app; by left|by right].
  - destruct Hst as [->|[Hne' Hst]]; [by destruct Hne|]. by rewrite <- Hh.
Qed.

Lemma fresh_write T h st c c' :
  writes (Some (next_status T h st)) c c' → st = empty_status ∨ vouched st c →
  fresh T h c ∧ narrow h c → fresh T h c' ∧ narrow h c'.
Proof.
  intros (Hst & Hseen & Hs) Hv [(Hb & _ & Hset & Hh & Hne) Hn]. split; [|by eapply spares_narrow].
  assert (vouched (next_status T h st) c') as Hv' by (eapply spares_vouched; [done|by apply vouched_next]).
  split_and!; [by eapply spares_base| |right|congruence|done].
  - intros st'. rewrite Hst. intros [= <-]. by right.
  - rewrite (known_recorded _ _ Hst) by apply Hv'. rewrite next_status_current. congruence.
Qed.

(** A StorageState that is gone, or new. *)
Lemma fresh_reset T h x c c' :
  writes x c c' → x = None ∨ x = Some empty_status →
  base T c → seen c = h → h ≠ "" → fresh T h c'.
Proof.
  intros (Hst & Hseen & Hs) Hx Hb Hh Hne. split_and!; [by eapply spares_base| |right|congruence|done].
  - rewrite Hst. intros st E. left. destruct Hx; congruence.
  - unfold known. rewrite Hst. by destruct Hx as [->| ->].
Qed.

(** ** Deleting the old migrations *)

(** The migrations that are not in [l] are narrow. *)
Definition narrow_but (l : list string) h c : Prop :=
  ∀ n h', migration c n → wrote c n h' → n ∈ l ∨ h' = h ∨ h' = current c.

Lemma stable_narrow_but T l h : stable (λ c, fresh T h c ∧ narrow_but l h c).
Proof.
  intros c c' Ho [Hf Hn]. split; [by eapply stable_fresh|]. destruct Hf as (_ & _ & Hs & <- & _).
  pose proof (others_current _ _ Ho) as Hcur. intros n h' Hm Hh.
  assert (∀ x, x = seen c ∨ x = current c → x = seen c ∨ x = current c') as Hx.
  { intros x [->| ->]; [by left|]. destruct Hcur as [->|E]; [by right|left]. rewrite E. by apply settled_known. }
  destruct (others_wrote _ _ Ho _ _ Hm Hh) as [[Hm' [?|?]%Hn]|[?|?]]; auto.
Qed.

Lemma own_delete_all T h l :
  hoare (λ c, ∃ ms, l = AnyMigration <$> ms ∧ fresh T h c ∧ narrow_but (svm_Name <$> ms) h c)
    (delete_all l) (λ err c, err = None ∧ fresh T h c ∧ narrow h c).
Proof.
  induction l as [|x l IH]; simpl.
  { apply hoare_ret. intros c ([|m ms] & E & Hf & Hn); [|done]. split_and!; [done|done|].
    intros n h' Hm [Hin|?]%(Hn n h' Hm); [|done]. by apply elem_of_nil in Hin. }
  destruct x as [m| | |]; try (apply hoare_ret; intros c ([|m' ms] & E & _); discriminate).
  eapply (hoare_bind _ (λ err c, err = None ∧
    ∃ ms, l = AnyMigration <$> ms ∧ fresh T h c ∧ narrow_but (svm_Name <$> ms) h c)).
  - apply hoare_call. intros c ([|m' ms] & E & HP) Hev; [done|]. injection E as <- ->.
    destruct (svm_Delete (svm_Name m) c).1 as [err|] eqn:Ed; [by destruct (Hev (svm_Name m) err)|].
    split; [done|]. exists ms. split; [done|].
    destruct (migration_delete (svm_Name m) c) as (c1 & c2 & O1 & [-> Hgone] & O2).
    apply (stable_narrow_but T _ h _ _ O2). apply (stable_narrow_but T _ h _ _ O1) in HP as [Hf Hn].
    split; [done|]. intros n h' Hm Hh. destruct (Hn n h' Hm Hh) as [Hin|?]; [|by right].
    apply elem_of_cons in Hin as [->|Hin]; [|by left]. by destruct (Hgone Ed Hm).
  - intros [err|]; [by apply hoare_ret; intros c [? _]|].
    eapply hoare_conseq; [exact IH|by intros c [_ ?]|done].
Qed.

Lemma own_cleanMigrations T h e :
  name_of e = ssn →
  hoare (fresh T h) (cleanMigrations e) (λ err c, err = None ∧ fresh T h c ∧ narrow h c).
Proof.
  intros Hn. unfold cleanMigrations. eapply (hoare_bind _ (λ out c, ∃ l, out = Ok l ∧
    ∃ ms, l = AnyMigration <$> ms ∧ fresh T h c ∧ narrow_but (svm_Name <$> ms) h c)).
  - apply hoare_silent. intros c Hf.
    destruct (ByIndex_resource e c (cache_indexed (ssn:=ssn))) as (ms & -> & HP). eexists. split; [done|].
    exists ms. split; [done|]. apply (stable_narrow_but _ _ _ _ _ (cache_read ResourceIndex _ c)).
    split; [done|]. intros n h' Hm Hh. rewrite HP. destruct (cache_has c e n Hn Hm) as [?|Hc]; [by left|].
    right. right. by apply Hc.
  - intros [l|err]; [|apply hoare_ret; by intros c (? & [=] & _)].
    eapply hoare_conseq; [apply (own_delete_all T h l)| |done]. by intros c (l' & [= <-] & HP).
Qed.

Lemma own_relaunchMigration T h e :
  name_of e = ssn → hoare (fresh T h) (relaunchMigration e) (λ _ c, fresh T h c ∧ narrow h c).
Proof.
  intros Hn. eapply hoare_bind; [by apply own_cleanMigrations|].
  intros [err|]; [apply hoare_ret; by intros c [? _]|].
  eapply hoare_conseq; [apply (quiet_launch _ _ (stable_fresh_narrow T h))|by intros c [_ ?]|done].
Qed.

(** ** Updating the StorageState *)

Lemma own_updateStorageState T h e :
  name_of e = ssn →
  hoare (λ c, fresh T h c ∧ narrow h c) (updateStorageState T h e) (λ _ c, fresh T h c ∧ narrow h c).
Proof.
  intros Hn. pose proof (stable_fresh_narrow T h) as Hs.
  set (G := λ (ss : StorageState) c, (fresh T h c ∧ narrow h c) ∧ metav1.Name (ss_Meta ss) = ssn ∧
    status_of c = Some (ss_Status ss)).
  assert (∀ c c1 c2, writes (Some empty_status) c1 c2 → others c c1 →
    fresh T h c ∧ narrow h c → fresh T h c2 ∧ narrow h c2) as Hcreated.
  { intros c c1 c2 Hw O1 HP. apply (Hs _ _ O1) in HP as [(Hb & _ & _ & Hh & Hne) Hnar].
    split; [by eapply fresh_reset; [exact Hw|right|..]|]. by eapply spares_narrow; [apply Hw|]. }
  apply (hoare_updateStorageState _ G); [done|..].
  - apply hoare_call. intros c HP _. pose proof (state_get (ssn:=ssn) c) as Ho. rewrite Hn.
    case_match eqn:E; [|by apply (Hs _ _ Ho)]. apply state_get_found in E as [Hst Hname].
    split; [by apply (Hs _ _ Ho)|]. split; [done|]. by rewrite (others_status _ _ Ho).
  - apply hoare_call. intros c HP _. pose proof (state_create (newStorageState e) c Hn) as Hc.
    destruct (ss_Create (newStorageState e) c).1 as [ss|err].
    + destruct Hc as ((c1 & c2 & O1 & [_ Hw] & O2) & Hst & Hname). split; [|split; [done|]].
      * apply (Hs _ _ O2). by eapply Hcreated.
      * rewrite (others_status _ _ O2), Hst. apply Hw.
    + destruct Hc as [Ho|(c1 & c2 & O1 & [_ Hw] & O2)]; [by apply (Hs _ _ Ho)|]. apply (Hs _ _ O2).
      by eapply Hcreated.
  - intros ss. apply hoare_call. intros c (HP & Hname & Hst) _.
    destruct (state_update (with_Status (next_status T h (ss_Status ss)) ss) c Hname)
      as [(c1 & c2 & O1 & Hw & O2)|[Ho _]]; [|by apply (Hs _ _ Ho)].
    apply (Hs _ _ O1) in HP. apply (Hs _ _ O2). eapply fresh_write; [exact Hw| |done].
    apply HP. by rewrite (others_status _ _ O1).
Qed.

(** ** A discovery round *)

Lemma stale_false T (ss : StorageState) : staleStorageState T ss = false → ¬ stale_at T (ss_Status ss).
Proof. unfold staleStorageState, stale_at. lia. Qed.

Lemma in_round_deleted T h c c' :
  writes None c c' → in_round T h c → in_round T h c' ∧ status_of c' = None.
Proof.
  intros (Hst & Hseen & Hs) ([Hb _] & _ & Hh & Hne). split; [|done]. split; [|split; [right|split; [congruence|done]]].
  - split; [by eapply spares_base|]. by rewrite Hst.
  - unfold known. by rewrite Hst.
Qed.

Lemma own_processDiscoveryResource T h e :
  name_of e = ssn → metav1.StorageVersionHash e = h →
  hoare (in_round T h) (processDiscoveryResource T e) (λ _, in_round T h).
Proof.
  intros Hn Hh. unfold processDiscoveryResource. case_bool_decide; [by apply hoare_ret|]. fold (name_of e).
  rewrite Hh, Hn.
  assert (hoare (λ c, fresh T h c ∧ narrow h c) (_ ← updateStorageState T h e; mret tt) (λ _ : (), in_round T h)) as Hup.
  { eapply hoare_bind; [by apply own_updateStorageState|]. intros err. apply hoare_ret.
    intros c [? ?]. by apply fresh_in_round. }
  assert (hoare (fresh T h) (err ← relaunchMigration e; HandleError err) (λ _ c, fresh T h c ∧ narrow h c)) as Hre.
  { eapply hoare_bind; [by apply own_relaunchMigration|]. intros err. apply hoare_HandleError. }
  eapply (hoare_bind _ (λ out c, in_round T h c ∧ match out with
    | Ok ss => status_of c = Some (ss_Status ss)
    | Err err => IsNotFound err = true → status_of c = None end)).
  { apply hoare_call. intros c HP _. pose proof (state_get (ssn:=ssn) c) as Ho.
    split; [by eapply stable_in_round|]. rewrite (others_status _ _ Ho).
    case_match eqn:E; [by apply (state_get_found c)|]. by apply (state_get_none c). }
  intros [ss|err].
  - pose proof (stable_status _ (Some (ss_Status ss)) (stable_in_round T h)) as Hs.
    eapply (hoare_bind _ (λ _ c, in_round T h c ∧ status_of c = Some (ss_Status ss))).
    { case_match; [by apply hoare_ret|]. eapply hoare_bind; [by apply quiet_hasPending|].
      intros b. by apply hoare_ret. }
    intros needs. eapply (hoare_bind _ (λ out c, match out with
      | Some _ => in_round T h c
      | None => fresh T h c ∧ (staleStorageState T ss = false → status_of c = Some (ss_Status ss) ∧ in_round T h c)
      end)).
    { destruct (staleStorageState T ss) eqn:Est.
      - apply hoare_call. intros c [HP Hst] _.
        destruct (state_delete c) as [(c1 & c2 & O1 & Hw & O2)|[Ho [err ->]]];
          [|by eapply stable_in_round].
        apply (stable_in_round _ _ _ _ O1), (in_round_deleted _ _ _ _ Hw) in HP as [HP Hnone].
        apply (stable_in_round _ _ _ _ O2) in HP. case_match; [done|]. split; [|done].
        apply in_round_fresh; [done|]. rewrite (others_status _ _ O2), Hnone. done.
      - apply hoare_ret. intros c [HP Hst]. split; [|done]. apply in_round_fresh; [done|].
        rewrite Hst. intros st [= <-]. by apply stale_false. }
    intros [err|]; [apply hoare_HandleError|].
    eapply (hoare_bind _ (λ _ c, fresh T h c ∧ narrow h c)); [|by intros []].
    destruct (_ || _) eqn:Er; [by eapply hoare_conseq; [exact Hre|intros c [? _]|]|]. apply hoare_ret.
    intros c [Hf Hst]. split; [done|].
    apply orb_false_iff in Er as [[Est Hch]%orb_false_iff _]. destruct (Hst Est) as [Hs' ([_ Hi] & _)].
    apply bool_decide_eq_false, dec_stable in Hch. rewrite <- Hch.
    destruct (Hi _ Hs') as [Hbad|[_ Hnar]]; [by apply stale_false in Est|done].
  - case_match eqn:En.
    + eapply hoare_conseq; [apply (hoare_HandleError (in_round T h))|by intros c [? _]|done].
    + apply negb_false_iff in En. eapply (hoare_bind _ (λ _ c, fresh T h c ∧ narrow h c)).
      * eapply hoare_conseq; [by apply (own_relaunchMigration T h)| |done]. intros c [HP Hst].
        apply in_round_fresh; [done|]. rewrite (Hst En). by intros st [=].
      * intros rerr. eapply hoare_bind; [apply hoare_HandleError|]. by intros [].
Qed.

(** The entries of a discovery result say what the round has found. *)
Definition found (ls : list metav1.APIResourceList) c : Prop :=
  ∀ e, listed ls e → name_of e = ssn → metav1.StorageVersionHash e ≠ "" →
    settled c ∧ metav1.StorageVersionHash e = seen c.

Lemma stable_found T ls : stable (λ c, inv T c ∧ found ls c).
Proof.
  intros c c' Ho [Hi Hf]. split; [by eapply stable_inv|]. intros e He Hn Hne.
  destruct (Hf e He Hn Hne). split; [by eapply settled_others|]. by rewrite (others_seen _ _ Ho).
Qed.

Lemma found_processDiscoveryResource T ls e :
  listed ls e →
  hoare (λ c, inv T c ∧ found ls c) (processDiscoveryResource T e) (λ _ c, inv T c ∧ found ls c).
Proof.
  intros He. destruct (decide (name_of e = ssn)) as [Hn|Hn];
    [|by apply quiet_processDiscoveryResource, stable_found].
  destruct (decide (metav1.StorageVersionHash e = "")) as [E|Hne].
  { unfold processDiscoveryResource. rewrite bool_decide_eq_true_2 by done. by apply hoare_ret. }
  set (agree := ∀ e', listed ls e' → name_of e' = ssn → metav1.StorageVersionHash e' ≠ "" →
    metav1.StorageVersionHash e' = metav1.StorageVersionHash e).
  eapply hoare_conseq; [apply (hoare_frame agree), (own_processDiscoveryResource T _ e Hn eq_refl)|..].
  - intros c [Hi Hf]. destruct (Hf e He Hn Hne) as [Hs Hh]. split; [|by split_and!].
    intros e' He' Hn' Hne'. destruct (Hf e' He' Hn' Hne'). congruence.
  - intros _ c [Hag (Hi & Hs & Hh & _)]. split; [done|]. intros e' He' Hn' Hne'. split; [done|].
    rewrite Hh. by apply Hag.
Qed.

Lemma found_process_lists T ls :
  hoare (λ c, inv T c ∧ found ls c) (for_each (process_list T) ls) (λ _ c, inv T c ∧ found ls c).
Proof.
  apply hoare_for_each. intros l Hl. unfold process_list.
  destruct (schema.ParseGroupVersion (metav1.GroupVersion l)) as [gv|err] eqn:Egv; [|apply hoare_HandleError].
  apply hoare_for_each. intros e He. apply found_processDiscoveryResource. by exists l, gv, e.
Qed.

Lemma inv_later T T' c : T ≤ T' → T' ≤ clock c → inv T c → inv T' c.
Proof.
  intros HT HT' [(? & _ & ?) Hi]. split; [split_and!; [lia|done|done]|]. intros st Hst.
  destruct (Hi st Hst); [left; unfold stale_at in *; lia|by right].
Qed.

Lemma inv_looks T c c' : looks c c' → inv T c → inv T c' ∧ current c' = seen c'.
Proof.
  intros (Hst & Hseen & Hs) [Hb Hi]. split; [|by rewrite Hseen, (spares_current _ _ Hs)].
  split; [by eapply spares_base|]. rewrite Hst. intros st E. destruct (Hi st E) as [?|[Hv Hn]]; [by left|right].
  split; [by eapply spares_vouched|by eapply spares_narrow].
Qed.

Lemma inv_discover T x :
  hoare (λ c, inv T c ∧ found x.1 c) (discover x) (λ out c, inv T c ∧ found out.2.1 c).
Proof.
  unfold discover. eapply (hoare_bind _ (λ out c, inv T c ∧ found out.1 c)).
  - apply hoare_call. intros c [Hi _] _. destruct (discovery_looks (ssn:=ssn) c) as (c1 & c2 & O1 & [Hl He] & O2).
    apply (stable_found _ _ _ _ O2). pose proof (stable_inv _ _ _ O1 Hi) as Hi1. destruct (inv_looks _ _ _ Hl Hi1) as [Hi2 Hs].
    split; [done|]. intros e Hin Hn Hne. split; [by left|by apply He].
  - intros [ls [err|]]; [|by apply hoare_ret]. eapply hoare_bind; [apply hoare_HandleError|].
    intros []. by apply hoare_ret.
Qed.

Lemma inv_processDiscovery T :
  hoare (inv T) processDiscovery (λ _ c, ∃ hb, inv hb c).
Proof.
  unfold processDiscovery. eapply (hoare_bind _ (λ out c, inv T c ∧ found out.2.1 c)).
  - eapply hoare_conseq; [apply (hoare_ExponentialBackoff (λ x c, inv T c ∧ found x.1 c))| |done].
    + intros x. apply stable_found.
    + intros x. apply inv_discover.
    + intros c Hi. split; [done|]. intros e (l & gv & e0 & Hl & _). by apply elem_of_nil in Hl.
  - intros [err [ls err2]]. eapply (hoare_bind _ (λ hb c, inv hb c ∧ found ls c)).
    + apply hoare_silent. intros c HP. destruct (now_clock (ssn:=ssn) c) as (c1 & c2 & O1 & [-> Hnow] & O2).
      apply (stable_found _ _ _ _ O2). destruct (stable_found _ _ _ _ O1 HP) as [Hi Hf]. split; [|done].
      rewrite Hnow. eapply inv_later; [|done|exact Hi]. apply Hi.
    + intros hb. eapply hoare_bind; [apply found_process_lists|]. intros []. apply hoare_ret.
      intros c [Hi _]. by exists hb.
Qed.

(** ** A migration that has succeeded *)

(** Nothing is stored but in the recorded and the current version. *)
Definition converted (T : Time) c : Prop :=
  base T c ∧ ∀ st, status_of c = Some st →
    stale_at T st ∨
    (recorded st c ∧ ∀ h, stored c h → h = CurrentStorageVersionHash st ∨ h = current c).

Lemma stable_converted T : stable (converted T).
Proof.
  intros c c' Ho [Hb Hi]. split; [by eapply base_others|]. rewrite (others_status _ _ Ho).
  intros st Hst. destruct (Hi st Hst) as [?|[Hr Hh]]; [by left|right]. split; [by eapply recorded_others|].
  pose proof (known_recorded _ _ Hst (proj1 (proj1 Hr))) as Hk. intros h Hs.
  destruct (others_stored _ _ Ho _ Hs) as [[?| ->]%Hh|[->| ->]]; auto;
    destruct (others_current _ _ Ho) as [->|Hc]; auto; left; congruence.
Qed.

Lemma converted_inv T c : converted T c → inv T c.
Proof. intros [Hb Hi]. split; [done|]. intros st Hst. destruct (Hi st Hst) as [?|[? _]]; auto. Qed.

Lemma finished_converted T n c : inv T c → migration c n → finished c n → converted T c.
Proof.
  intros [Hb Hi] Hm Hf. split; [done|]. intros st Hst. destruct (Hi st Hst) as [?|Hr]; [by left|right].
  split; [done|]. intros h Hh. destruct Hr as [_ Hn], Hb as (_ & _ & Hcomp). eauto.
Qed.

Lemma converted_write T st c c' :
  converted T c → status_of c = Some st →
  writes (Some {| PersistedStorageVersionHashes := [CurrentStorageVersionHash st];
                  CurrentStorageVersionHash := CurrentStorageVersionHash st;
                  LastHeartbeatTime := LastHeartbeatTime st |}) c c' → converted T c'.
Proof.
  intros [Hb Hi] Hst (Hst' & _ & Hs). split; [by eapply spares_base|]. rewrite Hst'. intros st' [= <-]. simpl.
  destruct (Hi st Hst) as [?|[[[Hne _] Hn] Hh]]; [by left|right].
  assert (∀ h, stored c' h → h = CurrentStorageVersionHash st ∨ h = current c') as Hh'.
  { rewrite (spares_current _ _ Hs). intros h Hst2%(spares_stored _ _ Hs). auto. }
  split; [|done]. split; [|by eapply spares_narrow]. split; [done|]. right. split; [by left|]. simpl.
  intros h [->|?]%Hh'; [left; by left|by right].
Qed.

Lemma own_markStorageStateSucceeded T r :
  hoare (λ c, storageStateName r = ssn ∧ converted T c) (markStorageStateSucceeded r) (λ _, converted T).
Proof.
  assert (∀ c c', others c c' → storageStateName r = ssn ∧ converted T c →
    storageStateName r = ssn ∧ converted T c') as Hs.
  { intros c c' Ho [? ?]. split; [done|]. by eapply stable_converted. }
  unfold markStorageStateSucceeded. apply (hoare_bind _ (λ _ c, storageStateName r = ssn ∧ converted T c));
    [|intros [err x]; apply hoare_ret; by intros c [_ ?]].
  apply (hoare_ExponentialBackoff (λ _ c, storageStateName r = ssn ∧ converted T c)); [done|]. intros [].
  unfold mark_attempt. eapply (hoare_bind _ (λ out c, (storageStateName r = ssn ∧ converted T c) ∧
    ∀ ss, out = Ok ss → metav1.Name (ss_Meta ss) = ssn ∧ status_of c = Some (ss_Status ss))).
  - apply hoare_call. intros c HP _. destruct HP as [Hr Hc]. rewrite Hr.
    pose proof (state_get (ssn:=ssn) c) as Ho. split; [by split; [|eapply stable_converted]|].
    rewrite (others_status _ _ Ho). intros ss E. by apply state_get_found in E as [? ?].
  - intros [ss|err].
    + eapply (hoare_bind _ (λ _ c, storageStateName r = ssn ∧ converted T c)).
      * apply hoare_call. intros c [HP Hss] _. destruct (Hss ss eq_refl) as [Hname Hst].
        destruct (state_update (with_PersistedHashes [CurrentStorageVersionHash (ss_Status ss)] ss) c Hname)
          as [(c1 & c2 & O1 & Hw & O2)|[Ho _]]; [|by apply (Hs _ _ Ho)].
        apply (Hs _ _ O2). apply (Hs _ _ O1) in HP as [Hr Hc]. split; [done|].
        eapply converted_write; [exact Hc| |exact Hw]. by rewrite (others_status _ _ O1).
      * intros [ss'|err]; [by apply hoare_ret|]. eapply hoare_bind; [apply hoare_HandleError|].
        intros []. by apply hoare_ret.
    + eapply hoare_bind; [apply hoare_HandleError|]. intros []. apply hoare_ret. by intros c [? _].
Qed.

Lemma quiet_markStorageStateSucceeded P r :
  storageStateName r ≠ ssn → stable P → hoare P (markStorageStateSucceeded r) (λ _, P).
Proof.
  intros Hn Hs. unfold markStorageStateSucceeded.
  apply (hoare_bind _ (λ _, P)); [|intros [err x]; by apply hoare_ret].
  apply (hoare_ExponentialBackoff (λ _, P)); [done|]. intros []. unfold mark_attempt.
  eapply (hoare_bind _ (λ out c, P c ∧ ∀ ss, out = Ok ss → metav1.Name (ss_Meta ss) ≠ ssn)).
  - apply hoare_call. intros c HP _. split; [by eapply Hs, HP; apply other_get|].
    intros ss E. by rewrite (other_get_name _ _ _ E).
  - intros [ss|err].
    + apply (hoare_bind _ (λ _, P)).
      * apply hoare_call. intros c [HP Hss] _. eapply Hs, HP. apply other_update. exact (Hss ss eq_refl).
      * intros [ss'|err]; [by apply hoare_ret|]. eapply hoare_bind; [apply hoare_HandleError|].
        intros []. by apply hoare_ret.
    + eapply hoare_bind; [apply hoare_HandleError|]. intros []. apply hoare_ret. by intros c [? _].
Qed.

(** processQueue deletes no migration. *)
Lemma unrefused_one ev : (∀ n err, ev ≠ SVMDelete n (Some err)) → unrefused [ev].
Proof. intros Hev n err Hin%list_elem_of_singleton. by destruct (Hev n err). Qed.

Lemma work_unrefused obj w err w' :
  processQueue obj w = Some (err, w') → ∃ evs, trace w' = trace w ++ evs ∧ unrefused evs.
Proof.
  intros E. assert (emits unrefused (processQueue obj)) as Hem.
  { unfold processQueue, processMigration, markStorageStateSucceeded, get_migration.
    destruct obj; [|apply emits_ret]. apply emits_bind; [by apply emits_call; intros; apply unrefused_one|].
    intros [m|err']; [|case_match; apply emits_ret]. repeat case_match; try apply emits_ret.
    apply emits_bind; [|intros []; apply emits_ret].
    apply emits_ExponentialBackoff; [by intros; apply unrefused_one|]. intros x. unfold mark_attempt.
    assert (∀ out, emits unrefused (HandleError (Some out) : M (World C) _)) as Hh
      by (intros out; apply emits_HandleError; intros; by apply unrefused_one).
    apply emits_bind; [by apply emits_call; intros; apply unrefused_one|].
    intros [ss|err']; [|apply emits_bind; [apply Hh|intros; apply emits_ret]].
    apply emits_bind; [by apply emits_call; intros; apply unrefused_one|].
    intros [ss'|err']; [apply emits_ret|apply emits_bind; [apply Hh|intros; apply emits_ret]]. }
  destruct (Hem _ _ _ E) as (_ & bs & Ht & HF). exists (concat bs). split; [done|].
  clear Ht. induction HF as [|b bs Hb _ IH]; intros n e; simpl; [apply not_elem_of_nil|].
  rewrite elem_of_app. intros [Hin|Hin]; [by destruct (Hb n e)|by destruct (IH n e)].
Qed.

Lemma inv_processQueue T obj : hoare (inv T) (processQueue obj) (λ _, inv T).
Proof.
  unfold processQueue. destruct obj as [item|]; [|by apply hoare_ret].
  eapply (hoare_bind _ (λ out c, inv T c ∧ ∀ m, out = Ok m → HasCondition m MigrationSucceeded = true →
    storageStateName (Spec_Resource (svm_Spec m)) = ssn → converted T c)).
  - apply hoare_call. intros c Hi _.
    destruct (migration_get (ssn:=ssn) (qi_name item) c) as (c1 & c2 & O1 & [-> Hm] & O2).
    pose proof (stable_inv _ _ _ O1 Hi) as Hi1. split; [by eapply stable_inv|]. intros m E Hc Hn.
    destruct (Hm m E Hn Hc). eapply stable_converted; [done|]. by eapply finished_converted.
  - intros [m|err]; [|case_match; apply hoare_ret; by intros c [? _]]. unfold processMigration.
    destruct (HasCondition m MigrationSucceeded) eqn:Hc; [|case_match; apply hoare_ret; by intros c [? _]].
    destruct (decide (storageStateName (Spec_Resource (svm_Spec m)) = ssn)) as [Hn|Hn].
    + eapply hoare_conseq; [apply (own_markStorageStateSucceeded T)| |intros ?; apply converted_inv].
      intros c [_ Hconv]. split; [done|]. by eapply Hconv.
    + eapply hoare_conseq; [apply (quiet_markStorageStateSucceeded (inv T) _ Hn), stable_inv| |done].
      by intros c [? _].
Qed.

(** ** Every step *)

(** Between the steps. *)
Definition idle c : Prop := inv (clock c) c.

Lemma idle_inv T c : inv T c → idle c.
Proof. intros Hi. eapply inv_later; [apply Hi|done|exact Hi]. Qed.

Lemma idle_step c c' : step c c' → idle c → idle c'.
Proof.
  intros Hst Hi. destruct Hst as [c c' Ho|c c' Ha|hb w w' evs E Ht Hu|obj err w w' E].
  - eapply idle_inv, stable_inv; [done|exact Hi].
  - destruct Hi as [(Hb & _ & Hc) Hi], Ha as [Hs Est Hcl Hcomp].
    split; [split_and!; [lia|done|auto]|]. rewrite Est. intros st Hst. left.
    pose proof (Hs st Hst). unfold stale_at in *. lia.
  - destruct (inv_processDiscovery (clock (ext w)) _ _ _ E) as (evs' & Ht' & HQ).
    rewrite Ht in Ht'. apply app_inv_head in Ht' as <-. destruct (HQ Hi Hu) as [T HT]. by eapply idle_inv.
  - destruct (inv_processQueue (clock (ext w)) obj _ _ _ E) as (evs' & Ht' & HQ).
    destruct (work_unrefused _ _ _ _ E) as (evs & Ht & Hu).
    rewrite Ht in Ht'. apply app_inv_head in Ht' as <-. by eapply idle_inv, HQ.
Qed.

Lemma idle_steps c c' : rtc step c c' → idle c → idle c'.
Proof. induction 1 as [|c c1 c' Hst _ IH]; [done|]. intros Hi. apply IH. by eapply idle_step. Qed.

Lemma idle_start c :
  0 ≤ clock c → completing c → (∀ st, status_of c = Some st → stale_at (clock c) st) → idle c.
Proof. intros Hc Hm Hs. split; [by split_and!|]. auto. Qed.
End vouch_props.

Section vouch_claims.
Context {C : Type} `{Runtime C} `{StorageVersionMigrationInterface C} `{StorageStateInterface C}
  `{MigrationIndexer C} `{DiscoveryInterface C} `{!TriggerGhost (C:=C)} (ssn : string) `{!TriggerServer ssn}.

(** C1. A StorageState vouches for what is stored.  Start from a cluster where
    the resource has no StorageState, or a stale one, and take any sequence of
    discovery rounds (in which no deletion of a migration is refused), work of
    the trigger, activity of others and absences of the trigger.  Then a
    StorageState whose heartbeat is not stale and whose persisted hashes do not
    include Unknown lists the version of every object of the resource, but for
    those written since the storage version last changed; if its current hash
    is the one in force it lists them all, and if it says that the resource is
    migrated then every object is in the current version. *)
Theorem storage_state_vouches c0 c ss :
  0 ≤ clock c0 → completing c0 → (∀ st, status_of c0 = Some st → stale_at (clock c0) st) →
  rtc step c0 c →
  status_of c = Some (ss_Status ss) → ¬ stale_at (clock c) (ss_Status ss) →
  Unknown ∉ PersistedStorageVersionHashes (ss_Status ss) →
  (∀ h, stored c h → h ∈ PersistedStorageVersionHashes (ss_Status ss) ∨ h = current c) ∧
  (CurrentStorageVersionHash (ss_Status ss) = current c →
   (∀ h, stored c h → h ∈ PersistedStorageVersionHashes (ss_Status ss)) ∧
   (isMigrated ss = true → ∀ h, stored c h → h = current c)).
Proof.
  intros Hc0 Hm0 Hs0 Hst Hss Hfresh HU.
  destruct (idle_steps ssn _ _ Hst (idle_start _ Hc0 Hm0 Hs0)) as [_ Hi].
  destruct (Hi _ Hss) as [?|[[_ [?|[Hin Hv]]] _]]; [done|done|]. split; [exact Hv|]. intros Hcur.
  assert (∀ h, stored c h → h ∈ PersistedStorageVersionHashes (ss_Status ss)) as Hall.
  { intros h [?| ->]%Hv; [done|]. by rewrite <- Hcur. }
  split; [exact Hall|]. unfold isMigrated. intros Hmig h Hh%Hall.
  destruct (PersistedStorageVersionHashes (ss_Status ss)) as [|x [|]]; try done.
  apply list_elem_of_singleton in Hh as ->. apply bool_decide_eq_true in Hmig. congruence.
Qed.
End vouch_claims.

(** ** Pods are stored in v0 and v1, then the storage version becomes v2 *)

Definition refused_any (evs : list event) : bool :=
  existsb (λ ev, match ev with SVMDelete _ (Some _) => true | _ => false end) evs.

Lemma unrefused_existsb evs : refused_any evs = false → unrefused evs.
Proof.
  intros E n err Hin. apply not_true_iff_false in E. apply E, existsb_exists. exists (SVMDelete n (Some err)).
  split; [by apply list_elem_of_In|done].
Qed.

Definition site_world (c : site) : World site :=
  {| ext := c; trace := []; metrics := newCoreMigratorMetrics |}.

(** A round, and the work for the migration pods-1. *)
Definition site_round (c : site) : site :=
  from_option (λ x, ext x.2) c (processDiscovery (site_world c)).

Definition pods_1 : work_item :=
  WorkItem {| qi_namespace := ""; qi_name := "pods-1";
              qi_resource := {| Group := ""; Version := "v1"; Resource := "pods" |} |}.

Definition site_work (c : site) : site :=
  from_option (λ x, ext x.2) c (processQueue pods_1 (site_world c)).

Lemma site_round_step c :
  (∃ hb w, processDiscovery (site_world c) = Some (hb, w) ∧ refused_any (trace w) = false) →
  step c (site_round c).
Proof.
  intros (hb & w & E & Hu). unfold site_round. rewrite E. eapply (step_discovery hb (site_world c) w (trace w)).
  - exact E.
  - done.
  - by apply unrefused_existsb.
Qed.

Lemma site_work_step c :
  (∃ err w, processQueue pods_1 (site_world c) = Some (err, w)) → step c (site_work c).
Proof. intros (err & w & E). unfold site_work. rewrite E. exact (step_work _ _ _ _ E). Qed.

(** The migration pods-1 has rewritten everything; [t] passes. *)
Definition site_migrated (t : Time) (c : site) : site :=
  {| s_current := s_current c; s_stored := [s_current c]; s_seen := s_seen c; s_status := s_status c;
     s_migrations := {["pods-1" := (true, [s_current c])]}; s_clock := s_clock c + t |}.

(** The storage version becomes [v] and a client writes an object. *)
Definition site_upgraded (v : string) (t : Time) (c : site) : site :=
  {| s_current := v; s_stored := v :: s_stored c; s_seen := s_seen c; s_status := s_status c;
     s_migrations := (λ x, (x.1, v :: x.2)) <$> s_migrations c; s_clock := s_clock c + t |}.

Lemma site_migrated_step t c :
  0 ≤ t → s_migrations c = {["pods-1" := (false, [s_current c])]} → step c (site_migrated t c).
Proof.
  intros Ht Hm. apply step_others. split; simpl; try done; [lia|by left|..].
  - intros h ->%list_elem_of_singleton. auto.
  - intros n h _ (b & hs & [<- [= <- <-]]%lookup_singleton_Some & ->%list_elem_of_singleton). auto.
  - intros _ n h _ (hs & E) Hh. simpl in *. apply lookup_singleton_Some in E as [<- [= <-]].
    exists true, [s_current c]. by rewrite lookup_singleton_eq.
Qed.

Lemma site_upgraded_step v t c : 0 ≤ t → s_current c = known c → step c (site_upgraded v t c).
Proof.
  intros Ht Hk. apply step_others. split; simpl; try done; [lia|by right|..].
  - intros h [->|?]%elem_of_cons; auto.
  - intros n h _ (b & hs & Hn & Hh). apply lookup_fmap_Some in Hn as ([b' hs'] & [= <- <-] & Hn).
    apply elem_of_cons in Hh as [->|Hh]; [auto|]. left. split; [by eexists|by exists b', hs'].
  - intros Hc n h _ (hs & Hn) Hh. simpl in *. apply lookup_fmap_Some in Hn as ([b' hs'] & [= -> <-] & Hn).
    simpl. exists true, (v :: hs'). rewrite lookup_fmap, Hn. split; [done|].
    apply elem_of_cons in Hh as [->|Hh]; [by left|right].
    destruct (Hc n h) as (b & hs & E & Hin); [by eexists|by exists hs'|done|]. simpl in E. rewrite Hn in E.
    by injection E as <- <-.
Qed.

Definition site0 : site :=
  {| s_current := "v1"; s_stored := ["v0"; "v1"]; s_seen := ""; s_status := None; s_migrations := ∅;
     s_clock := 60 * Minute |}.
Definition site1 : site := site_round site0.
Definition site2 : site := site_migrated Minute site1.
Definition site3 : site := site_work site2.
Definition site4 : site := site_upgraded "v2" Minute site3.
Definition site5 : site := site_round site4.
Definition site6 : site := site_migrated Minute site5.
Definition site7 : site := site_work site6.

Lemma site_round_checked c :
  match processDiscovery (site_world c) with Some (_, w) => refused_any (trace w) = false | None => False end →
  step c (site_round c).
Proof. intros E. apply site_round_step. destruct (processDiscovery _) as [[hb w]|]; [by exists hb, w|done]. Qed.

Lemma site_work_checked c : is_Some (processQueue pods_1 (site_world c)) → step c (site_work c).
Proof. intros [[err w] E]. apply site_work_step. eauto. Qed.

Lemma site_steps5 : rtc step site0 site5.
Proof.
  eapply rtc_l; [apply site_round_checked; vm_compute; reflexivity|].
  eapply rtc_l; [apply (site_migrated_step Minute); vm_compute; [discriminate|reflexivity]|].
  eapply rtc_l; [apply site_work_checked; vm_compute; by eexists|].
  eapply rtc_l; [apply (site_upgraded_step "v2" Minute); vm_compute; [discriminate|reflexivity]|].
  eapply rtc_l; [apply site_round_checked; vm_compute; reflexivity|]. apply rtc_refl.
Qed.

Lemma site_steps7 : rtc step site0 site7.
Proof.
  etrans; [exact site_steps5|].
  eapply rtc_l; [apply (site_migrated_step Minute); vm_compute; [discriminate|reflexivity]|].
  eapply rtc_l; [apply site_work_checked; vm_compute; by eexists|]. apply rtc_refl.
Qed.

(** After the upgrade objects are in v1 and v2, after the migration in v2. *)
Lemma storage_state_vouches_witness :
  rtc step site0 site7 ∧
  (∀ h, stored site5 h → h ∈ ["v1"; "v2"]) ∧ (∀ h, stored site7 h → h = "v2") ∧ stored site0 "v0".
Proof.
  split; [exact site_steps7|]. split; [|split; [|left]].
  - edestruct (storage_state_vouches "pods" site0 site5 (site_state (default empty_status (s_status site5))))
      as [_ [Hall _]]; [..|exact Hall].
    + discriminate.
    + intros n h [[b hs] Hm]. discriminate.
    + discriminate.
    + exact site_steps5.
    + vm_compute. reflexivity.
    + vm_compute. intros [=].
    + vm_compute. intros Hin. repeat (apply elem_of_cons in Hin as [[=]|Hin]). by apply elem_of_nil in Hin.
    + vm_compute. reflexivity.
  - edestruct (storage_state_vouches "pods" site0 site7 (site_state (default empty_status (s_status site7))))
      as [_ [_ Hmig]]; [..|exact (Hmig eq_refl)].
    + discriminate.
    + intros n h [[b hs] Hm]. discriminate.
    + discriminate.
    + exact site_steps7.
    + vm_compute. reflexivity.
    + vm_compute. intros [=].
    + vm_compute. intros Hin. repeat (apply elem_of_cons in Hin as [[=]|Hin]). by apply elem_of_nil in Hin.
    + vm_compute. reflexivity.
Defined.
