(* ===== verification/VouchMigrator.v ===== *)
(** * The migrator keeps the promise the trigger relies on

    [completing] of Vouch.v: a migration that has succeeded has rewritten
    every object in a version that was current while it ran.  Here it is what
    StorageProps shows of the migrator, with the objects in a version that has
    not been current since the migration was created as the stale ones.  The
    storage version may change while the migration runs: the new version is
    current then, and no object becomes stale. *)
From S2P Require Export StorageProps Vouch.

Section vouch_migrator.
Context {C : Type} `{Runtime C} `{DynamicInterface C} `{StorageVersionMigrationInterface C}
  `{!TriggerGhost (C:=C)} (r : schema.GroupVersionResource) (n : string).

(** The version each object is stored in. *)
Context (version_of : C → objkey → option string) (ahead_of : string → objkey → Prop) (token_of : C → string)
  `{∀ c h, Decision (wrote c n h)}.

Hypothesis stored_objects : ∀ c h, stored c h ↔ ∃ k, version_of c k = Some h.

#[local] Instance behind : StorageGhost (C:=C) := {|
  stale := λ c k, ∃ h, version_of c k = Some h ∧ ¬ wrote c n h;
  ahead := ahead_of;
  saved_token := token_of;
|}.

(** Once a run for the migration [n] has returned nil, whatever runs failed
    before it and whatever others do, [completing] holds of [n] for good. *)
Lemma nil_run_completes `{!StorageServer r n} c0 rounds fuel w w' c :
  token_of c0 = "" →
  rtc (attempt r n) c0 (ext w) →
  Run rounds fuel (NewMigrator r (NewProgressTracker n)) w = Some (None, w') →
  rtc (attempt r n) (ext w') c →
  ∀ h, stored c h → wrote c n h.
Proof.
  intros Ht Hw Hrun Hc h [k Hk]%stored_objects.
  assert (covers (saved_token c0) c0) as Hcov
    by (simpl; rewrite Ht; intros k' _; apply (ahead_start)).
  destruct (attempts_cover r n _ _ Hw Hcov) as [Hcovw _].
  destruct (Run_left_over r n _ _ _ _ _ Hrun Hcovw) as (_ & Hcovw' & Hnone).
  destruct (attempts_cover r n _ _ Hc Hcovw') as [_ Hs].
  destruct (decide (wrote c n h)) as [?|Hn]; [done|].
  destruct (Hnone eq_refl k). apply Hs. by exists h.
Qed.
End vouch_migrator.
